(* ===== verification/_CoqProject ===== *)
-Q . S2P
Prelude.v
Bytes.v
OrdMap.v
Sled.v
Message.v
Bincode.v
Keys.v
QueueManager.v
Store.v
Spec.v
Engine.v
Invariant.v
Refinement.v
Maintenance.v
Retention.v
Fsck.v
EngineTheorems.v
Holdings.v
Frames.v
System.v
SystemDemo.v
Delivery.v
SystemTheorems.v
Dedup.v
Snapshot.v
SnapshotTheorems.v
Faults.v
FaultSteps.v
FaultTheorems.v
StateMachine.v
RaftStore.v
RaftLog.v
RaftMachine.v
RaftDemo.v
RaftTheorems.v
RaftFaults.v
Replicas.v
Cluster.v
ClusterTheorems.v
Durability.v
Daemon.v
Modes.v
Wire.v
Http.v
HttpProofs.v
DaemonDemo.v
HttpTheorems.v
Grpc.v
GrpcProofs.v
Sdk.v
GrpcTheorems.v
GrpcServed.v
Stream.v
FrontTheorems.v
Flying.v
StreamTheorems.v
Config.v
ConfigTheorems.v
Main.v
MainTheorems.v
Network.v
NetworkTheorems.v
Mqtt.v
MqttProofs.v
MqttTheorems.v
MqttLedger.v
Connections.v
ConnectionsTheorems.v
DaemonFaults.v
FrontFaults.v
DaemonFaultTheorems.v
Conformance.v
ConformanceNode.v
ConformanceDaemon.v
ExampleClient.v
