(* ===== verification/Prelude.v ===== *)
(** * PelicanQ: a verification development of the message broker

    PelicanQ is a message broker: a queue engine over the embedded database sled,
    replicated with Raft when it is clustered, behind HTTP, gRPC and MQTT front
    ends, with a Rust client library.  This development models all of these parts
    as executable functions and proves what they promise.

    ** The program and the files that model it

    - The data model (pelicanq-core/src/message.rs, retention.rs, error.rs, and the
      in-memory [Queue] of queue.rs): [Message].  Messages, delivery tags,
      policies, errors with their text; 64-bit ids and times are [Z] with their
      range or wrap-around written out ([as_i64], [arith_u64], ... below).
    - The queue engine (pelicanq-core/src/queue.rs): [Keys] holds the tree names and
      key encodings, [QueueManager] every method of the engine, in a monad over a
      [World] (the open database, the byte counter, the limit, and the clock and
      random source).  A queue is five trees: ready, in flight, dead letters,
      scheduled, deduplication.
    - Snapshots (pelicanq-core/src/snapshot.rs): [Snapshot].
    - The replicated operations and the Raft store (pelicanq-raft/src/requests.rs,
      state_machine.rs, storage.rs): [StateMachine] and [RaftStore].
    - The Raft network (pelicanq-raft/src/network.rs): [Network]; the handle and the
      application state the front ends share (pelicanq-raft/src/lib.rs,
      pelicanqd/src/api.rs): [Daemon].
    - The front ends (pelicanqd/src/api.rs, grpc/queue_service.rs,
      grpc/admin_service.rs, mqtt/handler.rs): [Http] and [Grpc] with one function
      per handler and a dispatch each, [Stream] for the streaming consume and [Mqtt]
      for a connection, both as state machines whose events (packets, timers,
      sends, reads, failing writes) come in any order.  [Wire] holds the text
      encodings at the boundary.
    - The client library (sdks/rust/src): [Sdk], over a channel that [Sdk] also
      connects to the daemon's own handlers; the example program
      (examples/rust-publish-consume/main.rs): [ExampleClient].
    - Configuration and start-up (pelicanqd/src/config.rs, cluster_config.rs,
      main.rs, and [start_node] of pelicanq-raft/src/lib.rs): [Config] and [Main].
    - The running daemon (the servers of main.rs on one shared state):
      [Connections], whose events are calls, the opening and the events of streams
      and of MQTT connections, and restarts of the process, in any order.

    ** Interfaces

    Code outside the repository is a class of operations, with its documented
    behaviour as a class of laws and a concrete instance that satisfies them:
    sled ([Sled], with the reference store of sorted association lists), bincode
    ([Bincode], with a codec), clock and random source ([Message.Environment]),
    serde_json ([RaftStore.Json]), base64, UUID text and header values ([Wire]),
    openraft ([Daemon.OpenRaft] with the behaviour of a leader and, in
    [FrontTheorems], of a follower; the steps of [Cluster.cluster_step] for what it
    does to the stores of several nodes), axum and the transport ([Network]).  Overflow
    checks are a parameter ([BuildProfile]): the theorems hold in both profiles.
    The laws of sled ([SledLaws]) say what calls that succeed do.  [SledReliable]
    adds that every call succeeds; the functions themselves keep every error path, and
    [Faults.SledFaults] states, for calls that may fail, that single operations and
    transactions are atomic: a call that reports an error took effect as a whole or
    not at all.  [Durability.SledCrash] states what survives when the process dies:
    what was flushed; of later writes nothing is assumed.

    ** What is proved

    - The engine refines an abstract queue: [Spec] states what a queue promises
      (a list of ready messages in delivery order, a map of messages in flight, dead
      letters, a schedule) and decodes the trees into it.  [Store] and [Engine] give
      proof rules for each operation, [Invariant] the well-formedness of the trees,
      [Refinement], [Maintenance] and [Retention] the simulation of every operation;
      [EngineTheorems] collects the results (C1-C7, C26).
    - Whole runs: [Holdings] and [System] follow sequences of operations and of
      restarts on the flushed database with a ledger, [Delivery] the order a consumer
      sees; [SystemTheorems] has the invariant, conservation of messages, the storage
      limit, the delivery order, and the rejection of undeclared queues (C9-C12).
      [Frames] shows which trees each operation leaves alone; with it [Dedup] follows
      a deduplication key through whole runs (C13).
    - Snapshots: an export restored into an empty database gives the same queues
      ([SnapshotTheorems], C20), with an example of restored tags that collide.
    - Input and output errors: [Faults] is a logic of calls any of which may fail
      at the database, at any point; [FaultSteps] verifies every operation of the
      engine in it, and [FaultTheorems] concludes that runs with such errors and with
      restarts on the flushed database lose no message that was reported stored (C15).
    - Crashes: [Durability] shows that the Raft store's writes survive a crash, since
      it flushes them, and that the engine's may not, since it never does; so a node
      can forget entries that it has recorded as applied (C21).
    - Raft: [RaftLog] and [RaftMachine] relate the store to an indexed log;
      [RaftTheorems] has the log operations, the application of entries, the
      transfer of snapshots, the restart of a node (C24, C28-C30);
      [RaftFaults] what the log and the vote are when calls of the Raft database fail
      (C25); [NetworkTheorems] that a call over the network is the call on the remote node
      (C19).
    - Clusters: [Replicas] relates two engines that hold the same messages under
      different ids, and shows that calls keep them so; [Cluster] lets several nodes
      apply one committed log, each at its own pace, with the storage calls of the
      protocol in between.  [ClusterTheorems] shows that the nodes hold the same
      messages and give the same answers up to delivery tags (C8) on logs that do not
      depend on the time and name no tag, and how a committed acknowledgement, a
      restart or a crash inside an application makes them differ (C31, C23, C38).
    - Front ends: [Modes] carries answers from a Solo daemon to the leader of a
      cluster.  [HttpProofs], [HttpTheorems], [GrpcProofs], [GrpcServed],
      [GrpcTheorems] and [FrontTheorems] show that calls are served and say what
      happened, that both modes answer alike, that a follower redirects (and what its
      streams do instead), that what a client publishes it consumes, and how an
      unchecked queue name disables a daemon (C14, C32, C34-C37).  [Flying] follows messages in flight across engine
      calls; with it [StreamTheorems] and [MqttTheorems] show that streams and
      connections lose no delivery and make progress (C16-C18, C40).
    - The daemon with all its clients: every event has a ledger of what the queues
      gain and lose ([HttpProofs.call_ledger], [GrpcServed.rpc_ledger],
      [StreamTheorems.stream_ledger], [MqttLedger.mqtt_ledger]);
      [ConnectionsTheorems] adds them up over any interleaving (C33).  [DaemonFaults]
      and [FrontFaults] follow every handler while database calls fail, and
      [DaemonFaultTheorems] concludes that the daemon, restarts on the flushed database
      included, keeps its word to HTTP and gRPC callers (C22); the PUBACK an MQTT
      client gets says nothing ([MqttProofs.puback_unconditional]).
    - Start-up: [ConfigTheorems] and [MainTheorems] (C27, C39).
    - [Conformance], [ConformanceNode] and [ConformanceDaemon] translate the unit
      tests of the sources and the integration tests of the daemon and the client
      library, and evaluate them on the model: every one passes.  [ExampleClient] is
      the example program over the client library, run on a daemon.
    - [Fsck], [SystemDemo], [RaftDemo] and [DaemonDemo] decide the invariants and
      instantiate every interface; the theorems are applied to these instances by
      the lemmas whose names end in [_witness].

    ** Bounds and fuel

    The only unbounded loop of the engine, in [consume], is modelled with fuel for
    two iterations; C26 shows that the first always returns.  Everything else is
    structural recursion.  Theorems about runs assume fewer than 2^64 generated ids,
    byte totals below 2^64, delivery counters below 2^32, times and durations whose
    milliseconds fit in 64 bits, and queue names without the reserved prefixes of
    tree names ([Keys.safe_name]); what happens outside the last bound is C35.

    ** Not modelled

    Input and output errors of sled outside C15, C22 and C25, that is while a
    cluster applies entries or transfers snapshots (the code paths are in the model);
    what a crash with unflushed writes leaves, beyond C21: the restarts of the other
    theorems follow a flush, which sled also does in the background; exhaustion of
    memory; sockets, codecs and logging; openraft's consensus;
    the interleaving of pollers of one connection inside the handling of a single
    packet; the survival of other tasks after a panic (C33 shows that none occurs);
    the SDKs in other languages with their examples, and the build scripts. *)

From Stdlib Require Import ZArith Lia.
From stdpp Require Import prelude gmap strings.

#[global] Open Scope Z_scope.

(** ** Results, outcomes and the state-and-error monad *)

(** Rust's [Result<A, E>], as a value (a stored response, an interface result). *)
Inductive Result (E A : Type) : Type :=
| Ok (a : A)
| Err (e : E).
Arguments Ok {E A} a.
Arguments Err {E A} e.

(** What a call produces: a value, an early return with an error ([?]), a panic
    (slice out of range, [unwrap] on [None], checked overflow), or the
    exhaustion of the fuel that bounds a [loop]. *)
Inductive Outcome (E A : Type) : Type :=
| Done (a : A)
| Fail (e : E)
| Panic
| OutOfFuel.
Arguments Done {E A} a.
Arguments Fail {E A} e.
Arguments Panic {E A}.
Arguments OutOfFuel {E A}.

(** Computations over a mutable state [S] that may fail with an [E]. *)
Definition M (S E A : Type) : Type := S -> Outcome E A * S.

Declare Scope pelican_scope.
Delimit Scope pelican_scope with pelican.
#[global] Open Scope pelican_scope.

Section Monad.
Context {S E : Type}.

Definition ret {A} (a : A) : M S E A := fun s => (Done a, s).

Definition bind {A B} (m : M S E A) (k : A -> M S E B) : M S E B :=
  fun s =>
    match m s with
    | (Done a, s') => k a s'
    | (Fail e, s') => (Fail e, s')
    | (Panic, s') => (Panic, s')
    | (OutOfFuel, s') => (OutOfFuel, s')
    end.

Definition fail {A} (e : E) : M S E A := fun s => (Fail e, s).
Definition panic {A} : M S E A := fun s => (Panic, s).
Definition out_of_fuel {A} : M S E A := fun s => (OutOfFuel, s).
Definition gets {A} (f : S -> A) : M S E A := fun s => (Done (f s), s).
Definition modify (f : S -> S) : M S E unit := fun s => (Done tt, f s).

(** [option]s whose [None] is a panic ([unwrap], slice indexing). *)
Definition or_panic {A} (o : option A) : M S E A :=
  match o with Some a => ret a | None => panic end.

(** [ok_or(e)?]. *)
Definition or_fail {A} (e : E) (o : option A) : M S E A :=
  match o with Some a => ret a | None => fail e end.

Definition of_result {A} (r : Result E A) : M S E A :=
  match r with Ok a => ret a | Err e => fail e end.

(** The result of a call as a value: [match f() { Ok(a) => .., Err(e) => .. }]. *)
Definition try {A} (m : M S E A) : M S E (Result E A) :=
  fun s =>
    match m s with
    | (Done a, s') => (Done (Ok a), s')
    | (Fail e, s') => (Done (Err e), s')
    | (Panic, s') => (Panic, s')
    | (OutOfFuel, s') => (OutOfFuel, s')
    end.

(** The same where the caller has another error type. *)
Definition attempt {E' A} (m : M S E A) : M S E' (Result E A) :=
  fun s =>
    match m s with
    | (Done a, s') => (Done (Ok a), s')
    | (Fail e, s') => (Done (Err e), s')
    | (Panic, s') => (Panic, s')
    | (OutOfFuel, s') => (OutOfFuel, s')
    end.

(** [for x in l { body }]. *)
Fixpoint for_each {A} (l : list A) (body : A -> M S E unit) : M S E unit :=
  match l with
  | [] => ret tt
  | x :: l' => bind (body x) (fun _ => for_each l' body)
  end.

(** [for x in l { acc = body(acc, x) }]. *)
Fixpoint for_fold {A B} (l : list A) (acc : B) (body : B -> A -> M S E B) : M S E B :=
  match l with
  | [] => ret acc
  | x :: l' => bind (body acc x) (fun acc' => for_fold l' acc' body)
  end.
End Monad.

Notation "'let*' x ':=' m 'in' k" := (bind m (fun x => k))
  (at level 10, x pattern, m at level 100, k at level 200,
   format "'[v' 'let*'  x  ':='  m  'in' '/' k ']'") : pelican_scope.
Notation "m ';;;' k" := (bind m (fun _ => k))
  (at level 199, right associativity, format "'[v' m ';;;' '/' k ']'") : pelican_scope.

(** ** Machine integers *)

Abbreviation u16_lim := 65536.
Abbreviation u32_lim := 4294967296.
Abbreviation i64_lim := 9223372036854775808.
Abbreviation u64_lim := 18446744073709551616.
Abbreviation u128_lim := 340282366920938463463374607431768211456.

Definition is_u8 (z : Z) : bool := (0 <=? z) && (z <? 256).
Definition is_u16 (z : Z) : bool := (0 <=? z) && (z <? u16_lim).
Definition is_u32 (z : Z) : bool := (0 <=? z) && (z <? u32_lim).
Definition is_u64 (z : Z) : bool := (0 <=? z) && (z <? u64_lim).
Definition is_i64 (z : Z) : bool := (- i64_lim <=? z) && (z <? i64_lim).

(** [as u8], [as u64], [as i64]: truncation to the width. *)
Definition as_u8 (z : Z) : Z := z mod 256.
Definition as_u16 (z : Z) : Z := z mod u16_lim.
Definition as_u32 (z : Z) : Z := z mod u32_lim.
Definition as_u64 (z : Z) : Z := z mod u64_lim.
Definition as_i64 (z : Z) : Z := (z + i64_lim) mod u64_lim - i64_lim.

(** Whether the crates are built with overflow checks (the [dev] profile panics
    on overflow, the [release] profile wraps). *)
Class BuildProfile := { overflow_checks : bool }.

Section Arith.
Context `{!BuildProfile}.

(** The result of a [+], [-] or [*] whose exact value is [z]; [None] is the
    panic of a checked build. *)
Definition checked (fits : Z -> bool) (wrap : Z -> Z) (z : Z) : option Z :=
  if fits z then Some z else if overflow_checks then None else Some (wrap z).

Definition arith_u32 : Z -> option Z := checked is_u32 as_u32.
Definition arith_u64 : Z -> option Z := checked is_u64 as_u64.
Definition arith_i64 : Z -> option Z := checked is_i64 as_i64.
End Arith.

(** [a.saturating_sub(b)] and [a.saturating_add(b)] on [u64]. *)
Definition saturating_sub (a b : Z) : Z := Z.max 0 (a - b).
Definition saturating_add_u64 (a b : Z) : Z := Z.min (u64_lim - 1) (a + b).

(** [l[a..b]]; [None] is the out-of-range panic. *)
Definition slice {A} (a b : nat) (l : list A) : option (list A) :=
  if bool_decide (a <= b /\ b <= length l)%nat then Some (take (b - a) (drop a l)) else None.

(** ** Weakest preconditions

    [wp m Q s]: running [m] from [s] ends in an outcome and a state that satisfy
    [Q].  Every computation of the development is a total function, so [wp] is
    total correctness: a panic or an exhausted fuel is an outcome like the
    others, which [Q] has to allow or exclude. *)
Definition wp {S E A} (m : M S E A) (Q : Outcome E A -> S -> Prop) (s : S) : Prop :=
  Q (m s).1 (m s).2.

(** The postcondition "returns a value satisfying [Q]". *)
Definition returns {E A S} (Q : A -> S -> Prop) : Outcome E A -> S -> Prop :=
  fun o s => match o with Done a => Q a s | _ => False end.

(** The postcondition "fails with the error [e]". *)
Definition fails {E A S} (e : E) (Q : S -> Prop) : Outcome E A -> S -> Prop :=
  fun o s => match o with Fail e' => e' = e /\ Q s | _ => False end.

Section Wp.
Context {S E : Type}.

Lemma wp_ret {A} (a : A) (Q : Outcome E A -> S -> Prop) s :
  Q (Done a) s -> wp (ret a) Q s.
Proof. intros H; exact H. Qed.

Lemma wp_fail {A} (e : E) (Q : Outcome E A -> S -> Prop) s :
  Q (Fail e) s -> wp (fail e) Q s.
Proof. intros H; exact H. Qed.

Lemma wp_gets {A} (f : S -> A) (Q : Outcome E A -> S -> Prop) s :
  Q (Done (f s)) s -> wp (gets f) Q s.
Proof. intros H; exact H. Qed.

Lemma wp_modify (f : S -> S) (Q : Outcome E unit -> S -> Prop) s :
  Q (Done tt) (f s) -> wp (modify f) Q s.
Proof. intros H; exact H. Qed.

Lemma wp_bind {A B} (m : M S E A) (k : A -> M S E B) (Q : Outcome E B -> S -> Prop) s :
  wp m (fun o s' => match o with
                    | Done a => wp (k a) Q s'
                    | Fail e => Q (Fail e) s'
                    | Panic => Q Panic s'
                    | OutOfFuel => Q OutOfFuel s'
                    end) s ->
  wp (bind m k) Q s.
Proof. unfold wp, bind. destruct (m s) as [[a|e| |] s']; auto. Qed.

Lemma wp_bind_inv {A B} (m : M S E A) (k : A -> M S E B) (Q : Outcome E B -> S -> Prop) s :
  wp (bind m k) Q s ->
  wp m (fun o s' => match o with
                    | Done a => wp (k a) Q s'
                    | Fail e => Q (Fail e) s'
                    | Panic => Q Panic s'
                    | OutOfFuel => Q OutOfFuel s'
                    end) s.
Proof. unfold wp, bind. destruct (m s) as [[a|e| |] s']; auto. Qed.

Lemma wp_mono {A} (m : M S E A) (Q R : Outcome E A -> S -> Prop) s :
  wp m Q s -> (forall o s', Q o s' -> R o s') -> wp m R s.
Proof. unfold wp; auto. Qed.

Lemma wp_try {A} (m : M S E A) (Q : Outcome E (Result E A) -> S -> Prop) s :
  wp m (fun o s' => match o with
                    | Done a => Q (Done (Ok a)) s'
                    | Fail e => Q (Done (Err e)) s'
                    | Panic => Q Panic s'
                    | OutOfFuel => Q OutOfFuel s'
                    end) s ->
  wp (try m) Q s.
Proof. unfold wp, try. destruct (m s) as [[a|e| |] s']; auto. Qed.

Lemma wp_done {A} (m : M S E A) (Q : A -> S -> Prop) s :
  wp m (returns Q) s <-> exists a s', m s = (Done a, s') /\ Q a s'.
Proof.
  unfold wp, returns. destruct (m s) as [[a|e| |] s']; cbn; split; try tauto; eauto;
    intros (? & ? & [=] & ?); subst; auto.
Qed.

Lemma wp_fails {A} (m : M S E A) e (Q : S -> Prop) s :
  wp m (fails e Q) s <-> exists s', m s = (Fail e, s') /\ Q s'.
Proof.
  unfold wp, fails. destruct (m s) as [[a|e'| |] s']; cbn; split; try tauto; eauto;
    try (intros (? & [=] & ?); subst; auto; fail).
  intros [-> ?]; eauto.
Qed.

(** Sequencing after a computation that is known to return. *)
Lemma wp_bind_done {A B} (m : M S E A) (k : A -> M S E B) Q s (P : A -> S -> Prop) :
  wp m (returns P) s -> (forall a s', P a s' -> wp (k a) Q s') -> wp (bind m k) Q s.
Proof.
  intros Hm Hk. apply wp_bind. eapply wp_mono; [exact Hm|].
  intros [a|e| |] s'; cbn; try tauto. apply Hk.
Qed.

(** Loop rules: an invariant over the elements still to be processed. *)
Lemma wp_for_each {A} (I : list A -> S -> Prop) (l : list A) (body : A -> M S E unit) s Q :
  I l s ->
  (forall x l' s', I (x :: l') s' -> wp (body x) (returns (fun _ s'' => I l' s'')) s') ->
  (forall s', I [] s' -> Q (Done tt) s') ->
  wp (for_each l body) Q s.
Proof.
  intros HI Hbody HQ. revert s HI. induction l as [|x l IH]; intros s HI; cbn.
  - apply wp_ret; auto.
  - eapply wp_bind_done; [apply Hbody, HI|]. intros [] s' HI'. apply IH, HI'.
Qed.

Lemma wp_for_fold {A B} (I : B -> list A -> S -> Prop) (l : list A) (acc : B)
    (body : B -> A -> M S E B) s Q :
  I acc l s ->
  (forall acc' x l' s', I acc' (x :: l') s' ->
    wp (body acc' x) (returns (fun acc'' s'' => I acc'' l' s'')) s') ->
  (forall acc' s', I acc' [] s' -> Q (Done acc') s') ->
  wp (for_fold l acc body) Q s.
Proof.
  intros HI Hbody HQ. revert s acc HI. induction l as [|x l IH]; intros s acc HI; cbn.
  - apply wp_ret; auto.
  - eapply wp_bind_done; [apply Hbody, HI|]. intros a s' HI'. apply IH, HI'.
Qed.
End Wp.

#[global] Arguments wp : simpl never.
#[global] Arguments bind : simpl never.
#[global] Arguments ret : simpl never.
#[global] Arguments fail : simpl never.
#[global] Arguments gets : simpl never.
#[global] Arguments modify : simpl never.
#[global] Arguments try : simpl never.
