(* ===== verification/Bytes.v ===== *)
(** * Bytes: big-endian integers, the byte-string order, and strings as bytes

    The engine stores everything in ordered trees of byte strings.  This file
    models [to_be_bytes]/[from_be_bytes] of the Rust standard library and the
    lexicographic order in which sled iterates, and proves that the big-endian
    encoding turns the numeric order into that order. *)

From Stdlib Require Import ZArith Lia Ascii.
From stdpp Require Import prelude gmap strings.
From S2P Require Import Prelude.

Abbreviation bytes := (list Z).

Definition is_bytes (b : bytes) : bool := forallb is_u8 b.

(** ** Big-endian encoding *)

(** [z.to_be_bytes()] for an [n]-byte unsigned integer. *)
Fixpoint be_bytes (n : nat) (z : Z) : bytes :=
  match n with
  | O => []
  | S n' => (z / 256 ^ Z.of_nat n') mod 256 :: be_bytes n' z
  end.

(** [uN::from_be_bytes]. *)
Definition from_be (b : bytes) : Z := foldl (fun acc x => acc * 256 + x) 0 b.

(** ** The order on byte strings *)

Fixpoint lex_cmp (a b : bytes) : comparison :=
  match a, b with
  | [], [] => Eq
  | [], _ :: _ => Lt
  | _ :: _, [] => Gt
  | x :: a', y :: b' => match x ?= y with Eq => lex_cmp a' b' | c => c end
  end.

Definition lex_lt (a b : bytes) : Prop := lex_cmp a b = Lt.

#[global] Instance lex_lt_dec a b : Decision (lex_lt a b).
Proof. unfold lex_lt; apply _. Defined.

(** ** Strings as UTF-8 byte strings *)

Definition str_bytes (s : string) : bytes :=
  map (fun c => Z.of_nat (nat_of_ascii c)) (String.list_ascii_of_string s).

Definition bytes_str (b : bytes) : string :=
  String.string_of_list_ascii (map (fun z => ascii_of_nat (Z.to_nat z)) b).

(** Well-formed UTF-8, as [String::from_utf8] checks it (Unicode 15, table 3-7). *)
Definition in_rng (lo hi x : Z) : bool := (lo <=? x) && (x <=? hi).

Fixpoint utf8_valid (b : bytes) : bool :=
  match b with
  | [] => true
  | x :: b1 =>
    if in_rng 0 127 x then utf8_valid b1 else
    match b1 with
    | [] => false
    | y :: b2 =>
      if in_rng 194 223 x && in_rng 128 191 y then utf8_valid b2 else
      match b2 with
      | [] => false
      | z :: b3 =>
        if (((x =? 224) && in_rng 160 191 y) ||
            ((in_rng 225 236 x || in_rng 238 239 x) && in_rng 128 191 y) ||
            ((x =? 237) && in_rng 128 159 y)) && in_rng 128 191 z
        then utf8_valid b3 else
        match b3 with
        | [] => false
        | t :: b4 =>
          if (((x =? 240) && in_rng 144 191 y) ||
              (in_rng 241 243 x && in_rng 128 191 y) ||
              ((x =? 244) && in_rng 128 143 y)) && in_rng 128 191 z && in_rng 128 191 t
          then utf8_valid b4 else false
        end
      end
    end
  end.

(** [String::from_utf8(b).ok()]. *)
Definition from_utf8 (b : bytes) : option string :=
  if utf8_valid b then Some (bytes_str b) else None.

(** ** Lemmas *)

Lemma be_bytes_length n z : length (be_bytes n z) = n.
Proof. induction n; cbn; congruence. Qed.

Lemma be_bytes_is_bytes n z : is_bytes (be_bytes n z) = true.
Proof.
  induction n as [|n IH]; [done|]. cbn. apply andb_true_intro. split; [|exact IH].
  unfold is_u8. pose proof (Z.mod_pos_bound (z / 256 ^ Z.of_nat n) 256). lia.
Qed.

Lemma mod_pow_split z n :
  z mod 256 ^ Z.of_nat (S n) =
  256 ^ Z.of_nat n * ((z / 256 ^ Z.of_nat n) mod 256) + z mod 256 ^ Z.of_nat n.
Proof.
  rewrite Nat2Z.inj_succ, Z.pow_succ_r, Z.mul_comm by lia.
  rewrite Z.rem_mul_r by lia. lia.
Qed.

Lemma from_be_acc b acc :
  foldl (fun acc x => acc * 256 + x) acc b = acc * 256 ^ Z.of_nat (length b) + from_be b.
Proof.
  unfold from_be. revert acc. induction b as [|x b IH]; intros acc; cbn [foldl length].
  - change (Z.of_nat 0) with 0. lia.
  - rewrite IH, (IH (0 * 256 + x)), Nat2Z.inj_succ, Z.pow_succ_r by lia. ring.
Qed.

Lemma from_be_be_bytes n z : from_be (be_bytes n z) = z mod 256 ^ Z.of_nat n.
Proof.
  induction n as [|n IH]; [by rewrite Z.mod_1_r|].
  unfold from_be; cbn [be_bytes foldl]. rewrite from_be_acc, be_bytes_length, IH, mod_pow_split.
  lia.
Qed.

Lemma be_bytes_inj n a b :
  0 <= a < 256 ^ Z.of_nat n -> 0 <= b < 256 ^ Z.of_nat n -> be_bytes n a = be_bytes n b -> a = b.
Proof.
  intros Ha Hb H. apply (f_equal from_be) in H.
  by rewrite !from_be_be_bytes, !Z.mod_small in H.
Qed.

Lemma lex_cmp_refl a : lex_cmp a a = Eq.
Proof. induction a as [|x a IH]; cbn; [done|]. by rewrite Z.compare_refl. Qed.

Lemma lex_cmp_eq a b : lex_cmp a b = Eq -> a = b.
Proof.
  revert b. induction a as [|x a IH]; intros [|y b]; cbn; try discriminate; [done|].
  destruct (Z.compare_spec x y); try discriminate. intros H'. by rewrite (IH b H'); subst.
Qed.

Lemma lex_cmp_antisym a b : lex_cmp b a = CompOpp (lex_cmp a b).
Proof.
  revert b. induction a as [|x a IH]; intros [|y b]; cbn; try done.
  rewrite (Z.compare_antisym x y). destruct (x ?= y); cbn; auto.
Qed.

Lemma lex_cmp_gt a b : lex_cmp a b = Gt -> lex_lt b a.
Proof. unfold lex_lt. rewrite lex_cmp_antisym. by destruct (lex_cmp b a). Qed.

Lemma lex_lt_irrefl a : ~ lex_lt a a.
Proof. unfold lex_lt. by rewrite lex_cmp_refl. Qed.

Lemma lex_lt_trans a b c : lex_lt a b -> lex_lt b c -> lex_lt a c.
Proof.
  unfold lex_lt. revert b c. induction a as [|x a IH]; intros [|y b] [|z c]; cbn; try done.
  destruct (Z.compare_spec x y), (Z.compare_spec y z); intros H1 H2; try discriminate; subst.
  - rewrite Z.compare_refl. eauto.
  - by rewrite (proj2 (Z.compare_lt_iff _ _)).
  - by rewrite (proj2 (Z.compare_lt_iff _ _)).
  - rewrite (proj2 (Z.compare_lt_iff _ _)); [done|lia].
Qed.

Lemma lex_lt_asym a b : lex_lt a b -> ~ lex_lt b a.
Proof. intros H1 H2. exact (lex_lt_irrefl _ (lex_lt_trans _ _ _ H1 H2)). Qed.

(** The byte order on big-endian encodings is the numeric order. *)
Lemma lex_cmp_be_bytes n a b :
  lex_cmp (be_bytes n a) (be_bytes n b) = (a mod 256 ^ Z.of_nat n ?= b mod 256 ^ Z.of_nat n).
Proof.
  induction n as [|n IH]; [by rewrite !Z.mod_1_r|].
  cbn [be_bytes lex_cmp]. rewrite IH, !mod_pow_split.
  assert (0 < 256 ^ Z.of_nat n) as Hp by (apply Z.pow_pos_nonneg; lia).
  pose proof (Z.mod_pos_bound a (256 ^ Z.of_nat n) Hp).
  pose proof (Z.mod_pos_bound b (256 ^ Z.of_nat n) Hp).
  set (p := 256 ^ Z.of_nat n) in *.
  set (x := (a / p) mod 256) in *. set (y := (b / p) mod 256) in *.
  destruct (Z.compare_spec x y) as [->|Hlt|Hgt]; symmetry.
  - destruct (Z.compare_spec (a mod p) (b mod p)) as [->|?|?];
      [apply Z.compare_refl|apply Z.compare_lt_iff|apply Z.compare_gt_iff]; lia.
  - apply Z.compare_lt_iff. nia.
  - apply Z.compare_gt_iff. nia.
Qed.

Lemma lex_lt_app_l p a b : lex_lt (p ++ a) (p ++ b) <-> lex_lt a b.
Proof. unfold lex_lt. induction p as [|x p IH]; cbn; [done|]. by rewrite Z.compare_refl. Qed.

Lemma lex_cmp_app_same_length a b a' b' :
  length a = length b ->
  lex_cmp (a ++ a') (b ++ b') = match lex_cmp a b with Eq => lex_cmp a' b' | c => c end.
Proof.
  revert b. induction a as [|x a IH]; intros [|y b] H; try discriminate; cbn; [done|].
  destruct (x ?= y); auto.
Qed.

Lemma bytes_str_bytes s : bytes_str (str_bytes s) = s.
Proof.
  unfold bytes_str, str_bytes. rewrite map_map.
  rewrite <- (String.string_of_list_ascii_of_string s) at 2. f_equal.
  induction (String.list_ascii_of_string s) as [|c l IH]; [done|]. cbn.
  by rewrite Nat2Z.id, ascii_nat_embedding, IH.
Qed.

#[global] Instance str_bytes_inj : Inj (=) (=) str_bytes.
Proof. intros s t H. by rewrite <- (bytes_str_bytes s), H, bytes_str_bytes. Qed.

Lemma from_utf8_str s : utf8_valid (str_bytes s) = true -> from_utf8 (str_bytes s) = Some s.
Proof. unfold from_utf8. intros ->. by rewrite bytes_str_bytes. Qed.

Lemma slice_app {A} (p l r : list A) :
  slice (length p) (length p + length l) (p ++ l ++ r) = Some l.
Proof.
  unfold slice. rewrite bool_decide_true; [|rewrite !length_app; lia].
  rewrite drop_app_length. replace (length p + length l - length p)%nat with (length l) by lia.
  by rewrite take_app_length.
Qed.

#[global] Opaque be_bytes.
