(* ===== verification/OrdMap.v ===== *)
(** * OrdMap: finite ordered maps of byte strings

    The contents of one sled tree: key/value pairs in strictly ascending key
    order, so that iteration is the list itself and the first entry is the
    smallest key. *)

From Stdlib Require Import ZArith Lia.
From stdpp Require Import prelude gmap strings.
From S2P Require Import Prelude Bytes.

Abbreviation tree := (list (bytes * bytes)).

Fixpoint o_get (k : bytes) (t : tree) : option bytes :=
  match t with
  | [] => None
  | (k', v) :: t' => if bool_decide (k = k') then Some v else o_get k t'
  end.

Fixpoint o_insert (k v : bytes) (t : tree) : tree :=
  match t with
  | [] => [(k, v)]
  | (k', v') :: t' =>
    match lex_cmp k k' with
    | Lt => (k, v) :: t
    | Eq => (k, v) :: t'
    | Gt => (k', v') :: o_insert k v t'
    end
  end.

Fixpoint o_remove (k : bytes) (t : tree) : tree :=
  match t with
  | [] => []
  | (k', v') :: t' => if bool_decide (k = k') then t' else (k', v') :: o_remove k t'
  end.

(** The entries with a key in [lo, hi). *)
Definition o_range (lo hi : bytes) (t : tree) : tree :=
  filter (fun kv => ~ lex_lt kv.1 lo /\ lex_lt kv.1 hi) t.

(** The entries with a key in [lo, hi]. *)
Definition o_range_incl (lo hi : bytes) (t : tree) : tree :=
  filter (fun kv => ~ lex_lt kv.1 lo /\ ~ lex_lt hi kv.1) t.

Definition keys (t : tree) : list bytes := map fst t.
Definition values (t : tree) : list bytes := map snd t.

(** The total length of the values. *)
Fixpoint val_bytes (t : tree) : Z :=
  match t with
  | [] => 0
  | (_, v) :: t' => Z.of_nat (length v) + val_bytes t'
  end.

(** Strictly ascending keys. *)
Fixpoint o_sorted (t : tree) : Prop :=
  match t with
  | [] => True
  | (k, _) :: t' => Forall (fun kv => lex_lt k kv.1) t' /\ o_sorted t'
  end.

Lemma o_sorted_tail e t : o_sorted (e :: t) -> o_sorted t.
Proof. destruct e; cbn; tauto. Qed.

Lemma Forall_o_insert P k v t : P (k, v) -> Forall P t -> Forall P (o_insert k v t).
Proof.
  intros Hp Ht. induction t as [|[k' v'] t IH]; cbn; [by constructor|].
  inversion Ht; subst. destruct (lex_cmp k k'); repeat constructor; auto.
Qed.

Lemma Forall_o_remove P k t : Forall P t -> Forall P (o_remove k t).
Proof.
  intros Ht. induction Ht as [|[k' v'] t Hx Ht IH]; cbn; [done|].
  case_bool_decide; [done|]. by constructor.
Qed.

Lemma o_sorted_insert k v t : o_sorted t -> o_sorted (o_insert k v t).
Proof.
  induction t as [|[k' v'] t IH]; cbn; [by repeat constructor|]. intros [Hall Hs].
  destruct (lex_cmp k k') eqn:E; cbn.
  - apply lex_cmp_eq in E as ->. auto.
  - repeat split; auto. constructor; [done|]. eapply Forall_impl; [exact Hall|].
    intros x Hx. exact (lex_lt_trans _ _ _ E Hx).
  - split; [|auto]. apply Forall_o_insert; [|done]. by apply lex_cmp_gt.
Qed.

Lemma o_sorted_remove k t : o_sorted t -> o_sorted (o_remove k t).
Proof.
  induction t as [|[k' v'] t IH]; cbn; [done|]. intros [Hall Hs].
  case_bool_decide; [done|]. cbn. split; [by apply Forall_o_remove|auto].
Qed.

Lemma o_get_Some_elem k v t : o_get k t = Some v -> (k, v) ∈ t.
Proof.
  induction t as [|[k' v'] t IH]; cbn; [done|]. case_bool_decide; subst.
  - intros [= ->]. left.
  - intros H'. right. auto.
Qed.

Lemma o_get_None_elem k t : o_get k t = None <-> k ∉ keys t.
Proof.
  induction t as [|[k' v'] t IH]; cbn; [set_solver|]. case_bool_decide; subst.
  - split; [done|]. intros H; destruct H; left.
  - rewrite IH, not_elem_of_cons. tauto.
Qed.

Lemma elem_o_get k v t : o_sorted t -> (k, v) ∈ t -> o_get k t = Some v.
Proof.
  induction t as [|[k' v'] t IH]; cbn; [by rewrite elem_of_nil|]. intros [Hall Hs].
  rewrite elem_of_cons. intros [[= -> ->]|Hin]; [by rewrite bool_decide_true|].
  rewrite bool_decide_false; [auto|]. intros ->.
  rewrite Forall_forall in Hall. by destruct (lex_lt_irrefl _ (Hall _ Hin)).
Qed.

Lemma o_get_insert k v t : o_get k (o_insert k v t) = Some v.
Proof.
  induction t as [|[k' v'] t IH]; cbn; [by rewrite bool_decide_true|].
  destruct (lex_cmp k k') eqn:E; cbn; [by rewrite bool_decide_true..|].
  rewrite bool_decide_false; [done|]. intros ->. by rewrite lex_cmp_refl in E.
Qed.

Lemma o_get_insert_ne k k' v t : k <> k' -> o_get k (o_insert k' v t) = o_get k t.
Proof.
  intros Hne. induction t as [|[k2 v2] t IH]; cbn; [by rewrite bool_decide_false|].
  destruct (lex_cmp k' k2) eqn:E; cbn.
  - apply lex_cmp_eq in E as ->. by rewrite !bool_decide_false.
  - by rewrite (bool_decide_false (k = k')).
  - by rewrite IH.
Qed.

Lemma o_get_remove_ne k k' t : k <> k' -> o_get k (o_remove k' t) = o_get k t.
Proof.
  intros Hne. induction t as [|[k2 v2] t IH]; cbn; [done|].
  case_bool_decide; subst; [by rewrite bool_decide_false|]. cbn. by rewrite IH.
Qed.

Lemma o_get_remove k t : o_sorted t -> o_get k (o_remove k t) = None.
Proof.
  induction t as [|[k' v'] t IH]; cbn; [done|]. intros [Hall Hs]. case_bool_decide; subst.
  - apply o_get_None_elem. unfold keys. rewrite list_elem_of_fmap. intros ([k v] & -> & Hin).
    rewrite Forall_forall in Hall. by destruct (lex_lt_irrefl _ (Hall _ Hin)).
  - cbn. rewrite bool_decide_false by done. auto.
Qed.

(** Inserting a fresh key adds exactly that entry. *)
Lemma o_insert_perm k v t : o_get k t = None -> o_insert k v t ≡ₚ (k, v) :: t.
Proof.
  induction t as [|[k' v'] t IH]; cbn; [done|]. case_bool_decide; [done|]. intros Hn.
  destruct (lex_cmp k k') eqn:E; [by apply lex_cmp_eq in E|done|].
  rewrite IH by done. by rewrite Permutation_swap.
Qed.

(** Removing a present key removes exactly that entry. *)
Lemma o_remove_perm k v t : o_get k t = Some v -> t ≡ₚ (k, v) :: o_remove k t.
Proof.
  induction t as [|[k' v'] t IH]; cbn; [done|]. case_bool_decide; subst; [by intros [= ->]|].
  intros H'. rewrite IH at 1 by done. by rewrite Permutation_swap.
Qed.

Lemma o_remove_absent k t : o_get k t = None -> o_remove k t = t.
Proof.
  induction t as [|[k' v'] t IH]; cbn; [done|]. case_bool_decide; [done|].
  intros H'. by rewrite IH.
Qed.

Lemma o_remove_head k v t : o_remove k ((k, v) :: t) = t.
Proof. cbn. by rewrite bool_decide_true. Qed.

(** A key above every other one is appended. *)
Lemma o_insert_last k v t : Forall (fun kv => lex_lt kv.1 k) t -> o_insert k v t = t ++ [(k, v)].
Proof.
  induction 1 as [|[k' v'] t Hk Ht IH]; [done|]. cbn in *. rewrite lex_cmp_antisym, Hk. cbn.
  by rewrite IH.
Qed.

#[global] Instance val_bytes_perm : Proper (Permutation ==> eq) val_bytes.
Proof. intros t t'. induction 1 as [|[] ??? IH|[] []|]; cbn; try lia. Qed.

Lemma val_bytes_nonneg t : 0 <= val_bytes t.
Proof. induction t as [|[] t IH]; cbn; lia. Qed.

Lemma val_bytes_app t t' : val_bytes (t ++ t') = val_bytes t + val_bytes t'.
Proof. induction t as [|[] t IH]; cbn; lia. Qed.

Lemma o_sorted_NoDup t : o_sorted t -> NoDup (keys t).
Proof.
  induction t as [|[k v] t IH]; cbn; [constructor|]. intros [Hall Hs]. constructor; [|auto].
  unfold keys. rewrite list_elem_of_fmap. intros ([k' v'] & -> & Hin).
  rewrite Forall_forall in Hall. by destruct (lex_lt_irrefl _ (Hall _ Hin)).
Qed.

Lemma o_sorted_app_r t t' : o_sorted (t ++ t') -> o_sorted t'.
Proof. induction t as [|[k v] t IH]; cbn; [done|]. intros [_ H]; auto. Qed.

Create HintDb ord.
#[export] Hint Resolve o_sorted_insert o_sorted_remove o_sorted_tail Forall_o_insert Forall_o_remove : ord.
