(* ===== verification/Sled.v ===== *)
(** * Sled: the interface of the embedded database

    sled is a third-party crate, so the engine is verified against an interface:
    the operations the sources call ([Sled]), the documented effect of those
    that succeed on the logical contents ([SledLaws]) and the assumption that no
    I/O error occurs ([SledReliable]).  [MemSled] is an in-memory instance that
    shows the interface can be implemented. *)

From Stdlib Require Import ZArith Lia.
From stdpp Require Import prelude gmap strings.
From S2P Require Import Prelude Bytes OrdMap.

(** ** Logical contents *)

(** The trees of a database by name, and a bound on the ids it has generated. *)
Record View := mkView { v_trees : gmap string tree; v_idgen : Z }.

Definition tree_of (v : View) (t : string) : tree := default [] (v_trees v !! t).

Definition v_set (t : string) (x : tree) (v : View) : View :=
  mkView (<[t := x]> (v_trees v)) (v_idgen v).

Definition v_open (t : string) (v : View) : View := v_set t (tree_of v t) v.
Definition v_insert (t : string) (k x : bytes) (v : View) : View :=
  v_set t (o_insert k x (tree_of v t)) v.
Definition v_remove (t : string) (k : bytes) (v : View) : View :=
  v_set t (o_remove k (tree_of v t)) v.

(** Every tree is kept in ascending key order. *)
Definition v_sorted (v : View) : Prop := forall t, o_sorted (tree_of v t).

(** ** Transactions *)

(** The body of a [(&t1, &t2, ..).transaction(|..| ..)] closure, as the sequence
    of the calls it makes on the transactional trees. *)
Inductive Tx (A : Type) : Type :=
| TxRet (a : A)
| TxAbort
| TxPanic
| TxRemove (t : string) (k : bytes) (c : option bytes -> Tx A)
| TxInsert (t : string) (k x : bytes) (c : Tx A).
Arguments TxRet {A} a.
Arguments TxAbort {A}.
Arguments TxPanic {A}.
Arguments TxRemove {A} t k c.
Arguments TxInsert {A} t k x c.

(** What a transaction reports: committed, aborted by the closure, a storage
    error, or a panic that unwound out of the closure. *)
Inductive TxResult (A : Type) : Type :=
| TOk (a : A)
| TAbort
| TStorage (msg : string)
| TPanic.
Arguments TOk {A} a.
Arguments TAbort {A}.
Arguments TStorage {A} msg.
Arguments TPanic {A}.

(** The body run alone against the contents; only a committed run keeps its
    writes. *)
Fixpoint run_tx {A} (b : Tx A) (v : View) : TxResult A * View :=
  match b with
  | TxRet a => (TOk a, v)
  | TxAbort => (TAbort, v)
  | TxPanic => (TPanic, v)
  | TxRemove t k c => run_tx (c (o_get k (tree_of v t))) (v_remove t k v)
  | TxInsert t k x c => run_tx c (v_insert t k x v)
  end.

Definition commit_tx {A} (b : Tx A) (v : View) : TxResult A * View :=
  match run_tx b v with
  | (TOk a, v') => (TOk a, v')
  | (r, _) => (r, v)
  end.

(** ** The interface *)

(** Errors are represented by the text their [Display] prints, the only use the
    sources make of them.  A tree handle is the tree's name: two handles
    opened with the same name share the tree. *)
Class Sled := {
  db_t : Type;
  open_tree : string -> db_t -> Result string unit * db_t;
  contains_key : string -> bytes -> db_t -> Result string bool;
  tree_get : string -> bytes -> db_t -> Result string (option bytes);
  tree_insert : string -> bytes -> bytes -> db_t -> Result string unit * db_t;
  tree_remove : string -> bytes -> db_t -> Result string (option bytes) * db_t;
  tree_iter : string -> db_t -> list (Result string (bytes * bytes));
  tree_range : string -> bytes -> bytes -> db_t -> list (Result string (bytes * bytes));
  tree_range_incl : string -> bytes -> bytes -> db_t -> list (Result string (bytes * bytes));
  tree_last : string -> db_t -> Result string (option (bytes * bytes));
  tree_len : string -> db_t -> nat;
  generate_id : db_t -> Result string Z * db_t;
  transaction : forall A, Tx A -> db_t -> TxResult A * db_t;
  flush : db_t -> Result string unit * db_t;
}.
Arguments transaction {_ A} b d.

(** The items of an iteration when none of them is an error. *)
Fixpoint all_ok {E A} (l : list (Result E A)) : option (list A) :=
  match l with
  | [] => Some []
  | Ok a :: l' => option_map (cons a) (all_ok l')
  | Err _ :: _ => None
  end.

(** Documented behaviour of the calls that succeed. *)
Class SledLaws `{Sled} := {
  view : db_t -> View;
  open_tree_law t d d' : open_tree t d = (Ok tt, d') -> view d' = v_open t (view d);
  contains_key_law t k d b :
    contains_key t k d = Ok b -> b = bool_decide (is_Some (o_get k (tree_of (view d) t)));
  tree_get_law t k d r : tree_get t k d = Ok r -> r = o_get k (tree_of (view d) t);
  tree_insert_law t k x d d' :
    tree_insert t k x d = (Ok tt, d') -> view d' = v_insert t k x (view d);
  tree_remove_law t k d r d' :
    tree_remove t k d = (Ok r, d') ->
    r = o_get k (tree_of (view d) t) /\ view d' = v_remove t k (view d);
  tree_iter_law t d l : all_ok (tree_iter t d) = Some l -> l = tree_of (view d) t;
  tree_range_law t lo hi d l :
    all_ok (tree_range t lo hi d) = Some l -> l = o_range lo hi (tree_of (view d) t);
  tree_range_incl_law t lo hi d l :
    all_ok (tree_range_incl t lo hi d) = Some l -> l = o_range_incl lo hi (tree_of (view d) t);
  tree_last_law t d r : tree_last t d = Ok r -> r = last (tree_of (view d) t);
  tree_len_law t d : tree_len t d = length (tree_of (view d) t);
  (** Ids are monotonic, not necessarily contiguous, and never issued twice. *)
  generate_id_law d id d' :
    generate_id d = (Ok id, d') ->
    v_trees (view d') = v_trees (view d) /\ 0 <= id /\ v_idgen (view d) <= id < v_idgen (view d');
  transaction_law A (b : Tx A) d r d' :
    transaction b d = (r, d') -> (forall msg, r <> TStorage msg) ->
    commit_tx b (view d) = (r, view d');
  flush_law d d' : flush d = (Ok tt, d') -> view d' = view d;
}.

(** No I/O error occurs. *)
Class SledReliable `{Sled} : Prop := {
  open_tree_rel t d : exists d', open_tree t d = (Ok tt, d');
  contains_key_rel t k d : exists b, contains_key t k d = Ok b;
  tree_get_rel t k d : exists r, tree_get t k d = Ok r;
  tree_insert_rel t k x d : exists d', tree_insert t k x d = (Ok tt, d');
  tree_remove_rel t k d : exists r d', tree_remove t k d = (Ok r, d');
  tree_iter_rel t d : is_Some (all_ok (tree_iter t d));
  tree_range_rel t lo hi d : is_Some (all_ok (tree_range t lo hi d));
  tree_range_incl_rel t lo hi d : is_Some (all_ok (tree_range_incl t lo hi d));
  tree_last_rel t d : exists r, tree_last t d = Ok r;
  generate_id_rel d : exists id d', generate_id d = (Ok id, d');
  transaction_rel A (b : Tx A) d : forall msg, (transaction b d).1 <> TStorage msg;
  flush_rel d : exists d', flush d = (Ok tt, d');
}.

(** ** Facts about the contents *)

Lemma tree_of_set t x v : tree_of (v_set t x v) t = x.
Proof. unfold tree_of, v_set; cbn. by rewrite lookup_insert_eq. Qed.

Lemma tree_of_set_ne t t' x v : t' <> t -> tree_of (v_set t x v) t' = tree_of v t'.
Proof. intros H. unfold tree_of, v_set; cbn. by rewrite lookup_insert_ne. Qed.

Lemma tree_of_open t t' v : tree_of (v_open t v) t' = tree_of v t'.
Proof.
  unfold v_open. destruct (decide (t' = t)) as [->|Hne]; [apply tree_of_set|by apply tree_of_set_ne].
Qed.

Lemma tree_of_insert t k x v : tree_of (v_insert t k x v) t = o_insert k x (tree_of v t).
Proof. apply tree_of_set. Qed.

Lemma tree_of_insert_ne t t' k x v : t' <> t -> tree_of (v_insert t k x v) t' = tree_of v t'.
Proof. apply tree_of_set_ne. Qed.

Lemma tree_of_remove t k v : tree_of (v_remove t k v) t = o_remove k (tree_of v t).
Proof. apply tree_of_set. Qed.

Lemma tree_of_remove_ne t t' k v : t' <> t -> tree_of (v_remove t k v) t' = tree_of v t'.
Proof. apply tree_of_set_ne. Qed.

Lemma v_sorted_set t x v : o_sorted x -> v_sorted v -> v_sorted (v_set t x v).
Proof.
  intros Hx Hv t'. destruct (decide (t' = t)) as [->|Hne].
  - by rewrite tree_of_set.
  - rewrite tree_of_set_ne by done. apply Hv.
Qed.

Lemma v_sorted_open t v : v_sorted v -> v_sorted (v_open t v).
Proof. intros H. apply v_sorted_set; auto. Qed.

Lemma v_sorted_insert t k x v : v_sorted v -> v_sorted (v_insert t k x v).
Proof. intros H. apply v_sorted_set; auto using o_sorted_insert. Qed.

Lemma v_sorted_remove t k v : v_sorted v -> v_sorted (v_remove t k v).
Proof. intros H. apply v_sorted_set; auto using o_sorted_remove. Qed.

#[export] Hint Resolve v_sorted_open v_sorted_insert v_sorted_remove : ord.

(** ** An in-memory instance *)

Module Mem.
Definition empty : View := mkView ∅ 0.

#[export] Instance MemSled : Sled := {|
  db_t := View;
  open_tree t v := (Ok tt, v_open t v);
  contains_key t k v := Ok (bool_decide (is_Some (o_get k (tree_of v t))));
  tree_get t k v := Ok (o_get k (tree_of v t));
  tree_insert t k x v := (Ok tt, v_insert t k x v);
  tree_remove t k v := (Ok (o_get k (tree_of v t)), v_remove t k v);
  tree_iter t v := map Ok (tree_of v t);
  tree_range t lo hi v := map Ok (o_range lo hi (tree_of v t));
  tree_range_incl t lo hi v := map Ok (o_range_incl lo hi (tree_of v t));
  tree_last t v := Ok (last (tree_of v t));
  tree_len t v := length (tree_of v t);
  generate_id v := (Ok (Z.max 0 (v_idgen v)), mkView (v_trees v) (Z.max 0 (v_idgen v) + 1));
  transaction A b v := commit_tx b v;
  flush v := (Ok tt, v);
|}.

Lemma all_ok_map_Ok {E A} (l : list A) : all_ok (map (@Ok E A) l) = Some l.
Proof. induction l as [|a l IH]; cbn; [done|]. by rewrite IH. Qed.

Lemma commit_tx_not_storage {A} (b : Tx A) v msg : (commit_tx b v).1 <> TStorage msg.
Proof.
  unfold commit_tx. assert (forall v, (run_tx b v).1 <> TStorage msg) as H.
  { clear v. induction b as [| | |t k c IH|t k x c IH]; cbn; intros v; try done.
    all: apply IH. }
  specialize (H v). by destruct (run_tx b v) as [[]].
Qed.

#[export] Instance MemSledLaws : SledLaws.
Proof.
  refine {| view := fun v : db_t => v |}.
  all: cbn; intros; simplify_eq; rewrite ?all_ok_map_Ok in *; simplify_eq; auto.
  cbn. repeat split; lia.
Defined.

#[export] Instance MemSledReliable : SledReliable.
Proof.
  split; cbn; intros; rewrite ?all_ok_map_Ok; eauto. apply commit_tx_not_storage.
Qed.
End Mem.
