(* ===== verification/Message.v ===== *)
(** * Message: the data model of pelicanq-core

    Messages, delivery tags, retention policies and errors
    (src/pelicanq-core/src/message.rs, retention.rs, error.rs), the in-memory
    [Queue] of queue.rs, and the environment the code reads: the system clock
    and the random UUID source. *)

From Stdlib Require Import ZArith Lia.
From stdpp Require Import prelude gmap strings pretty.
From S2P Require Import Prelude Bytes.

(** ** The environment *)

(** Readings of the system clock, in milliseconds since the Unix epoch ([None]
    when the clock is set before it), and of the random source, by call number. *)
Class Environment := {
  clock_read : nat -> option Z;
  uuid_v4 : nat -> Z;
}.

(** The clock is past the epoch and far from the end of its range; UUIDs are
    128-bit.  Nothing says that the clock is monotonic. *)
Class EnvironmentLaws `{Environment} : Prop := {
  clock_read_law n : exists ms, clock_read n = Some ms /\ 0 <= ms < i64_lim / 4;
  uuid_v4_law n : 0 <= uuid_v4 n < u128_lim;
}.

(** A time the clock shows at some reading. *)
Definition clock_value `{Environment} (t : Z) : Prop := exists n, clock_read n = Some t.

Lemma clock_value_range `{EnvironmentLaws} t : clock_value t -> 0 <= t < i64_lim / 4.
Proof. intros [n Hn]. destruct (clock_read_law n) as (ms & Hms & Hr). congruence. Qed.

Lemma clock_value_some `{EnvironmentLaws} : exists t, clock_value t.
Proof. destruct (clock_read_law 0) as (ms & Hms & _). by exists ms, 0%nat. Qed.

(** How many readings have been taken. *)
Record Env := mkEnv { clock_tick : nat; uuid_tick : nat }.

Class HasEnv (S : Type) := { env_of : S -> Env; set_env : Env -> S -> S }.

#[export] Instance HasEnv_Env : HasEnv Env := {| env_of e := e; set_env e _ := e |}.

Section Environment.
Context `{!Environment} {S E : Type} `{!HasEnv S}.

(** [Message::now_ms()]: milliseconds since the epoch, truncated to [i64]. *)
Definition now_ms : M S E Z :=
  fun s =>
    let e := env_of s in
    let s' := set_env (mkEnv (clock_tick e + 1) (uuid_tick e)) s in
    match clock_read (clock_tick e) with
    | Some ms => (Done (as_i64 ms), s')
    | None => (Panic, s')
    end.

(** [Uuid::new_v4()]. *)
Definition new_v4 : M S E Z :=
  fun s =>
    let e := env_of s in
    (Done (uuid_v4 (uuid_tick e)), set_env (mkEnv (clock_tick e) (uuid_tick e + 1)) s).
End Environment.

(** ** Messages *)

(** [DeliveryTag(pub u64)]. *)
Record DeliveryTag := mkTag { tag_u64 : Z }.

Record Message := mkMessage {
  id : Z;
  payload : bytes;
  headers : gmap string string;
  timestamp : Z;
  delivery_attempts : Z;
  priority : Z;
  deliver_at : option Z;
  dedup_key : option string;
}.

(** [Message::new]. *)
Definition Message_new `{!Environment} {S E} `{!HasEnv S}
    (payload : bytes) (headers : gmap string string) : M S E Message :=
  let* uuid := new_v4 in
  let* now := now_ms in
  ret {| id := uuid; payload := payload; headers := headers; timestamp := now;
         delivery_attempts := 0; priority := 0; deliver_at := None; dedup_key := None |}.

Definition with_priority (p : Z) (m : Message) : Message :=
  {| id := id m; payload := payload m; headers := headers m; timestamp := timestamp m;
     delivery_attempts := delivery_attempts m; priority := Z.min p 9;
     deliver_at := deliver_at m; dedup_key := dedup_key m |}.

Definition with_deliver_at (deliver_at_ms : Z) (m : Message) : Message :=
  {| id := id m; payload := payload m; headers := headers m; timestamp := timestamp m;
     delivery_attempts := delivery_attempts m; priority := priority m;
     deliver_at := Some deliver_at_ms; dedup_key := dedup_key m |}.

Definition with_dedup_key (key : string) (m : Message) : Message :=
  {| id := id m; payload := payload m; headers := headers m; timestamp := timestamp m;
     delivery_attempts := delivery_attempts m; priority := priority m;
     deliver_at := deliver_at m; dedup_key := Some key |}.

(** The assignment [msg.delivery_attempts = n]. *)
Definition set_attempts (n : Z) (m : Message) : Message :=
  {| id := id m; payload := payload m; headers := headers m; timestamp := timestamp m;
     delivery_attempts := n; priority := priority m;
     deliver_at := deliver_at m; dedup_key := dedup_key m |}.

(** The values the Rust types admit. *)
Definition fits_usize (n : nat) : bool := Z.of_nat n <? u64_lim.
Definition is_string (s : string) : bool := fits_usize (String.length s).
Definition opt_all {A} (f : A -> bool) (o : option A) : bool :=
  match o with Some a => f a | None => true end.

Definition wf_headers (h : gmap string string) : bool :=
  fits_usize (size h) && forallb (fun kv => is_string kv.1 && is_string kv.2) (map_to_list h).

Definition wf_message (m : Message) : bool :=
  ((0 <=? id m) && (id m <? u128_lim)) &&
  (is_bytes (payload m) && fits_usize (length (payload m))) &&
  wf_headers (headers m) &&
  is_i64 (timestamp m) && is_u32 (delivery_attempts m) && is_u8 (priority m) &&
  opt_all is_i64 (deliver_at m) && opt_all is_string (dedup_key m).

(** ** Retention policies *)

Record RetentionPolicy := mkPolicy {
  max_age_secs : option Z;
  max_messages : option Z;
  max_delivery_attempts : option Z;
  dedup_window_secs : option Z;
}.

(** [RetentionPolicy::default()]: no limits. *)
Definition default_policy : RetentionPolicy := mkPolicy None None None None.

(** [RetentionPolicy::new]. *)
Definition RetentionPolicy_new (age msgs attempts window : option Z) : RetentionPolicy :=
  mkPolicy age msgs attempts window.

Definition wf_policy (p : RetentionPolicy) : bool :=
  opt_all is_u64 (max_age_secs p) && opt_all is_u64 (max_messages p) &&
  opt_all is_u32 (max_delivery_attempts p) && opt_all is_u64 (dedup_window_secs p).

Record StorageWatermarks := mkWatermarks { warn_pct : Z; throttle_pct : Z; reject_pct : Z }.

(** [StorageWatermarks::default()]. *)
Definition default_watermarks : StorageWatermarks := mkWatermarks 75 90 95.

(** ** Errors and outcomes *)

Inductive PelicanError :=
| QueueNotFound (queue : string)
| QueueAlreadyExists (queue : string)
| Storage (message : string)
| Serialization (message : string)
| InvalidDeliveryTag (tag : DeliveryTag)
| StorageLimitExceeded (used_pct limit_pct : Z)
| MessageDeadLettered (queue dlq : string).

(** [Display] of an unsigned number and of an error. *)
Definition show (z : Z) : string := pretty (Z.to_N z).

Definition PelicanError_display (e : PelicanError) : string :=
  match e with
  | QueueNotFound queue => "queue not found: " +:+ queue
  | QueueAlreadyExists queue => "queue already exists: " +:+ queue
  | Storage message => "storage error: " +:+ message
  | Serialization message => "serialization error: " +:+ message
  | InvalidDeliveryTag tag => "invalid delivery tag: " +:+ show (tag_u64 tag)
  | StorageLimitExceeded used_pct limit_pct =>
    "storage watermark exceeded: disk usage at " +:+ show used_pct +:+ "%, limit is " +:+
    show limit_pct +:+ "%"
  | MessageDeadLettered queue dlq => "message dead-lettered: queue=" +:+ queue +:+ ", dlq=" +:+ dlq
  end.

Inductive PublishOutcome :=
| Stored (uuid : Z)
| Deduplicated.

#[export] Instance DeliveryTag_eq_dec : EqDecision DeliveryTag.
Proof. solve_decision. Defined.
#[export] Instance Message_eq_dec : EqDecision Message.
Proof. solve_decision. Defined.
#[export] Instance RetentionPolicy_eq_dec : EqDecision RetentionPolicy.
Proof. solve_decision. Defined.
#[export] Instance PelicanError_eq_dec : EqDecision PelicanError.
Proof. solve_decision. Defined.
#[export] Instance PublishOutcome_eq_dec : EqDecision PublishOutcome.
Proof. solve_decision. Defined.

(** ** The in-memory queue *)

Module Queue.
Record Queue := mkQueue { name : string; messages : list Message }.

Definition new (n : string) : Queue := mkQueue n [].

(** [push_back]. *)
Definition publish (m : Message) (q : Queue) : Queue := mkQueue (name q) (messages q ++ [m]).

(** [pop_front]. *)
Definition consume (q : Queue) : option Message * Queue :=
  match messages q with
  | [] => (None, q)
  | m :: ms => (Some m, mkQueue (name q) ms)
  end.

Definition depth (q : Queue) : nat := length (messages q).

(** [n] consecutive [consume] calls. *)
Fixpoint drain (n : nat) (q : Queue) : list (option Message) * Queue :=
  match n with
  | O => ([], q)
  | S n' => let '(r, q1) := consume q in let '(rs, q2) := drain n' q1 in (r :: rs, q2)
  end.

Definition publish_all (ms : list Message) (q : Queue) : Queue := fold_left (fun q m => publish m q) ms q.

Lemma publish_all_messages ms q : publish_all ms q = mkQueue (name q) (messages q ++ ms).
Proof.
  revert q. induction ms as [|m ms IH]; intros [n l]; cbn; [by rewrite app_nil_r|].
  unfold publish_all in IH. rewrite IH. cbn. by rewrite <- app_assoc.
Qed.
End Queue.

(** ** Lemmas *)

Lemma as_i64_id z : - i64_lim <= z < i64_lim -> as_i64 z = z.
Proof. unfold as_i64. intros H. rewrite Z.mod_small; lia. Qed.

Lemma wp_now_ms `{!Environment, !EnvironmentLaws} {S E} `{!HasEnv S}
    (Q : Outcome E Z -> S -> Prop) s :
  (forall now, clock_value now ->
    Q (Done now) (set_env (mkEnv (clock_tick (env_of s) + 1) (uuid_tick (env_of s))) s)) ->
  wp now_ms Q s.
Proof.
  intros HQ. unfold wp, now_ms.
  destruct (clock_read_law (clock_tick (env_of s))) as (ms & Hr & Hms). rewrite Hr. cbn.
  rewrite as_i64_id by (assert (i64_lim / 4 < i64_lim) by done; lia). apply HQ. by eexists.
Qed.

Lemma wf_message_fields m :
  wf_message m = true ->
  0 <= id m < u128_lim /\ is_bytes (payload m) = true /\
  fits_usize (length (payload m)) = true /\ wf_headers (headers m) = true /\
  is_i64 (timestamp m) = true /\ 0 <= delivery_attempts m < u32_lim /\
  0 <= priority m < 256 /\
  opt_all is_i64 (deliver_at m) = true /\ opt_all is_string (dedup_key m) = true.
Proof.
  unfold wf_message, is_u32, is_u8. rewrite !andb_true_iff, !Z.leb_le, !Z.ltb_lt. tauto.
Qed.

Lemma wf_set_attempts n m :
  wf_message m = true -> 0 <= n < u32_lim -> wf_message (set_attempts n m) = true.
Proof.
  unfold wf_message; cbn. unfold is_u32 at 2. rewrite !andb_true_iff, !Z.leb_le, !Z.ltb_lt. tauto.
Qed.
