(* ===== verification/Bincode.v ===== *)
(** * Bincode: the serialization interface

    bincode is a third-party crate: the engine is verified against the class
    [Bincode] and its documented laws (round trip, total on the values of the
    type, fixed-width integers).  [Ref] is an instance that follows the documented
    layout (little-endian fixed-width integers, [u64] length prefixes, one-byte
    option tags) and shows the laws can hold together. *)

From Stdlib Require Import ZArith Lia Ascii.
From stdpp Require Import prelude gmap strings.
From S2P Require Import Prelude Bytes Message.

(** Errors are represented by the text their [Display] prints. *)
Class Bincode := {
  ser_msg : Message -> Result string bytes;
  de_msg : bytes -> Result string Message;
  ser_pol : RetentionPolicy -> Result string bytes;
  de_pol : bytes -> Result string RetentionPolicy;
}.

Class BincodeLaws `{Bincode} : Prop := {
  ser_msg_total m : wf_message m = true -> exists b, ser_msg m = Ok b;
  de_ser_msg m b : wf_message m = true -> ser_msg m = Ok b -> de_msg b = Ok m;
  ser_msg_fixed m n b b' :
    ser_msg m = Ok b -> ser_msg (set_attempts n m) = Ok b' -> length b' = length b;
  ser_pol_total p : wf_policy p = true -> exists b, ser_pol p = Ok b;
  de_ser_pol p b : wf_policy p = true -> ser_pol p = Ok b -> de_pol b = Ok p;
}.

(** ** A reference instance *)

Module Ref.

(** A self-delimiting codec for the values accepted by [valid]. *)
Record Codec (A : Type) := mkCodec {
  valid : A -> bool;
  enc : A -> bytes;
  dec : bytes -> option (A * bytes);
}.
Arguments mkCodec {A} valid enc dec.
Arguments valid {A} c a.
Arguments enc {A} c a.
Arguments dec {A} c b.

Class CodecOk {A} (c : Codec A) : Prop :=
  dec_enc a r : valid c a = true -> dec c (enc c a ++ r) = Some (a, r).

Definition take_n (n : nat) (b : bytes) : option (bytes * bytes) :=
  if (n <=? length b)%nat then Some (take n b, drop n b) else None.

Definition c_uint (n : nat) : Codec Z := mkCodec
  (fun z => (0 <=? z) && (z <? 256 ^ Z.of_nat n))
  (fun z => rev (be_bytes n z))
  (fun b => '(x, r) ← take_n n b; Some (from_be (rev x), r)).

Definition c_i64 : Codec Z := mkCodec
  is_i64
  (fun z => enc (c_uint 8) (as_u64 z))
  (fun b => '(x, r) ← dec (c_uint 8) b; Some (as_i64 x, r)).

Definition c_bytes : Codec bytes := mkCodec
  (fun b => fits_usize (length b))
  (fun b => enc (c_uint 8) (Z.of_nat (length b)) ++ b)
  (fun b => '(n, r) ← dec (c_uint 8) b; take_n (Z.to_nat n) r).

Definition c_string : Codec string := mkCodec
  is_string
  (fun s => enc c_bytes (str_bytes s))
  (fun b => '(x, r) ← dec c_bytes b; Some (bytes_str x, r)).

Definition c_pair {A B} (c : Codec A) (d : Codec B) : Codec (A * B) := mkCodec
  (fun x => valid c x.1 && valid d x.2)
  (fun x => enc c x.1 ++ enc d x.2)
  (fun b => '(x, r) ← dec c b; '(y, r') ← dec d r; Some ((x, y), r')).

Definition c_option {A} (c : Codec A) : Codec (option A) := mkCodec
  (opt_all (valid c))
  (fun o => match o with Some a => 1 :: enc c a | None => [0] end)
  (fun b => match b with
            | t :: b' => if t =? 0 then Some (None, b')
                         else '(x, r) ← dec c b'; Some (Some x, r)
            | [] => None
            end).

Fixpoint dec_seq {A} (c : Codec A) (n : nat) (b : bytes) : option (list A * bytes) :=
  match n with
  | O => Some ([], b)
  | S n' => '(x, r) ← dec c b; '(xs, r') ← dec_seq c n' r; Some (x :: xs, r')
  end.

Definition c_list {A} (c : Codec A) : Codec (list A) := mkCodec
  (fun l => fits_usize (length l) && forallb (valid c) l)
  (fun l => enc (c_uint 8) (Z.of_nat (length l)) ++ flat_map (enc c) l)
  (fun b => '(n, r) ← dec (c_uint 8) b; dec_seq c (Z.to_nat n) r).

Definition c_map : Codec (gmap string string) := mkCodec
  wf_headers
  (fun h => enc (c_list (c_pair c_string c_string)) (map_to_list h))
  (fun b => '(l, r) ← dec (c_list (c_pair c_string c_string)) b; Some (list_to_map l, r)).

(** The fields of a [Message] in declaration order, as nested pairs; the UUID is
    serialized as a byte string. *)
Definition c_uuid : Codec Z := mkCodec
  (fun z => (0 <=? z) && (z <? u128_lim))
  (fun z => enc c_bytes (be_bytes 16 z))
  (fun b => '(x, r) ← dec c_bytes b; Some (from_be x, r)).

Definition c_fields := c_pair c_uuid (c_pair c_bytes (c_pair c_map (c_pair c_i64
  (c_pair (c_uint 4) (c_pair (c_uint 1) (c_pair (c_option c_i64) (c_option c_string))))))).

Definition c_message : Codec Message := mkCodec
  wf_message
  (fun m => enc c_fields (id m, (payload m, (headers m, (timestamp m,
     (delivery_attempts m, (priority m, (deliver_at m, dedup_key m))))))))
  (fun b => '(x, r) ← dec c_fields b;
     let '(i, (p, (h, (t, (d, (q, (a, k))))))) := x in Some (mkMessage i p h t d q a k, r)).

Definition c_pfields := c_pair (c_option (c_uint 8)) (c_pair (c_option (c_uint 8))
  (c_pair (c_option (c_uint 4)) (c_option (c_uint 8)))).

Definition c_policy : Codec RetentionPolicy := mkCodec
  wf_policy
  (fun p => enc c_pfields
     (max_age_secs p, (max_messages p, (max_delivery_attempts p, dedup_window_secs p))))
  (fun b => '(x, r) ← dec c_pfields b;
     let '(a, (m, (d, w))) := x in Some (mkPolicy a m d w, r)).

Definition serialize {A} (c : Codec A) (a : A) : Result string bytes :=
  if valid c a then Ok (enc c a) else Err "invalid value"%string.
Definition deserialize {A} (c : Codec A) (b : bytes) : Result string A :=
  match dec c b with Some (a, _) => Ok a | None => Err "unexpected end of input"%string end.

#[export] Instance RefBincode : Bincode := {|
  ser_msg := serialize c_message; de_msg := deserialize c_message;
  ser_pol := serialize c_policy; de_pol := deserialize c_policy;
|}.

(** *** Round trips *)

Lemma take_n_app x r : take_n (length x) (x ++ r) = Some (x, r).
Proof.
  unfold take_n. rewrite (proj2 (Nat.leb_le _ _)) by (rewrite length_app; lia).
  by rewrite take_app_length, drop_app_length.
Qed.

#[export] Instance c_uint_ok n : CodecOk (c_uint n).
Proof.
  intros z r. cbn. rewrite andb_true_iff, Z.leb_le, Z.ltb_lt. intros Hz.
  replace n with (length (rev (be_bytes n z))) at 1 by (rewrite length_rev; apply be_bytes_length).
  rewrite take_n_app; cbn. rewrite rev_involutive, from_be_be_bytes, Z.mod_small; done.
Qed.

#[export] Instance c_i64_ok : CodecOk c_i64.
Proof.
  intros z r Hz. unfold c_i64 in *. cbn [valid enc dec] in *. unfold is_i64 in Hz.
  rewrite (dec_enc (c := c_uint 8)); cbn [mbind option_bind valid c_uint].
  - f_equal. f_equal. unfold as_i64, as_u64.
    rewrite Zplus_mod_idemp_l. rewrite Z.mod_small; lia.
  - change (256 ^ Z.of_nat 8) with u64_lim. unfold as_u64.
    pose proof (Z.mod_pos_bound z u64_lim). lia.
Qed.

Lemma uint8_fits n : fits_usize n = true -> valid (c_uint 8) (Z.of_nat n) = true.
Proof. unfold fits_usize, c_uint. cbn [valid]. change (256 ^ Z.of_nat 8) with u64_lim. rewrite andb_true_iff, Z.leb_le, !Z.ltb_lt. lia. Qed.

#[export] Instance c_bytes_ok : CodecOk c_bytes.
Proof.
  intros b r Hb. unfold c_bytes in *. cbn [valid enc dec] in *.
  rewrite <- app_assoc, dec_enc by (by apply uint8_fits). cbn [mbind option_bind].
  rewrite Nat2Z.id. apply take_n_app.
Qed.

Lemma str_bytes_length s : length (str_bytes s) = String.length s.
Proof.
  unfold str_bytes. rewrite length_map. induction s as [|c s IH]; cbn; congruence.
Qed.

#[export] Instance c_string_ok : CodecOk c_string.
Proof.
  intros s r Hs. unfold c_string in *. cbn [valid enc dec] in *.
  rewrite dec_enc; cbn [mbind option_bind]; [by rewrite bytes_str_bytes|].
  cbn. by rewrite str_bytes_length.
Qed.

#[export] Instance c_pair_ok {A B} (c : Codec A) (d : Codec B) :
  CodecOk c -> CodecOk d -> CodecOk (c_pair c d).
Proof.
  intros Hc Hd [x y] r H. unfold c_pair in *. cbn [valid enc dec fst snd] in *.
  apply andb_true_iff in H as [Hx Hy].
  rewrite <- app_assoc, dec_enc by done. cbn [mbind option_bind]. by rewrite dec_enc.
Qed.

#[export] Instance c_option_ok {A} (c : Codec A) : CodecOk c -> CodecOk (c_option c).
Proof. intros Hc [a|] r H; cbn in *; [|done]. by rewrite dec_enc. Qed.

#[export] Instance c_list_ok {A} (c : Codec A) : CodecOk c -> CodecOk (c_list c).
Proof.
  intros Hc l r H. unfold c_list in *. cbn [valid enc dec] in *.
  apply andb_true_iff in H as [Hn Hl].
  rewrite <- app_assoc, dec_enc by (by apply uint8_fits). cbn [mbind option_bind].
  rewrite Nat2Z.id. clear Hn. induction l as [|x l IH]; cbn in *; [done|].
  apply andb_true_iff in Hl as [Hx Hl]. rewrite <- app_assoc, dec_enc by done. cbn.
  by rewrite IH.
Qed.

#[export] Instance c_map_ok : CodecOk c_map.
Proof.
  intros h r H. unfold c_map in *. cbn [valid enc dec] in *. unfold wf_headers in H.
  apply andb_true_iff in H as [Hs Hf]. rewrite dec_enc; cbn [mbind option_bind].
  - by rewrite list_to_map_to_list.
  - cbn [valid c_list c_pair c_string]. apply andb_true_iff. split; [|done].
    by rewrite length_map_to_list.
Qed.

#[export] Instance c_uuid_ok : CodecOk c_uuid.
Proof.
  intros z r Hz. unfold c_uuid in *. cbn [valid enc dec] in *.
  rewrite dec_enc; cbn [mbind option_bind].
  - rewrite from_be_be_bytes. change (256 ^ Z.of_nat 16) with u128_lim.
    rewrite Z.mod_small; [done|lia].
  - cbn. unfold fits_usize. by rewrite be_bytes_length.
Qed.

#[export] Instance c_message_ok : CodecOk c_message.
Proof.
  intros m r H. unfold c_message in *. cbn [valid enc dec] in *.
  rewrite (dec_enc (c := c_fields)); [by destruct m|].
  unfold wf_message in H. unfold c_fields.
  cbn [valid c_pair c_uuid c_bytes c_map c_i64 c_option c_string fst snd].
  unfold is_u8, is_u32 in H. cbn [valid c_uint].
  change (256 ^ Z.of_nat 4) with u32_lim. change (256 ^ Z.of_nat 1) with 256.
  rewrite !andb_true_iff in *. tauto.
Qed.

#[export] Instance c_policy_ok : CodecOk c_policy.
Proof.
  intros p r H. unfold c_policy in *. cbn [valid enc dec] in *.
  rewrite (dec_enc (c := c_pfields)); [by destruct p|].
  unfold wf_policy, is_u64, is_u32 in H. unfold c_pfields. cbn [valid c_pair c_option c_uint fst snd].
  change (256 ^ Z.of_nat 4) with u32_lim. change (256 ^ Z.of_nat 8) with u64_lim.
  rewrite !andb_true_iff in *. tauto.
Qed.

Lemma deserialize_serialize {A} (c : Codec A) a b :
  CodecOk c -> serialize c a = Ok b -> deserialize c b = Ok a.
Proof.
  intros Hc. unfold serialize, deserialize. destruct (valid c a) eqn:E; [|done].
  intros [= <-]. rewrite <- (app_nil_r (enc c a)). by rewrite dec_enc.
Qed.

#[export] Instance RefBincodeLaws : BincodeLaws.
Proof.
  split; cbn.
  - intros m Hm. unfold serialize; cbn [valid c_message]. rewrite Hm. eauto.
  - intros m b _. apply deserialize_serialize, _.
  - intros m n b b'. unfold serialize.
    destruct (valid _ m); [|done]. destruct (valid _ (set_attempts n m)); [|done].
    intros [= <-] [= <-]. cbn -[c_map c_bytes be_bytes c_i64 c_option c_uuid]. rewrite !length_app, !length_rev, !be_bytes_length. done.
  - intros p Hp. unfold serialize; cbn [valid c_policy]. rewrite Hp. eauto.
  - intros p b _. apply deserialize_serialize, _.
Qed.
End Ref.
