(* ===== verification/Keys.v ===== *)
(** * Keys: tree names and key encodings of the queue engine

    src/pelicanq-core/src/queue.rs, [inflight_tree_name] to [encode_key]. *)

From Stdlib Require Import ZArith Lia Ascii.
From stdpp Require Import prelude gmap strings.
From S2P Require Import Prelude Bytes.

Definition META_QUEUES_TREE : string := "__meta__queues".
Definition META_RETENTION_TREE : string := "__meta__retention".

Definition inflight_tree_name (name : string) : string := "inflight:" +:+ name.
Definition dlq_tree_name (name : string) : string := "dlq:" +:+ name.
Definition scheduled_tree_name (name : string) : string := "scheduled:" +:+ name.
Definition dedup_tree_name (name : string) : string := "dedup:" +:+ name.

(** 16 bytes: delivery time, then id. *)
Definition encode_scheduled_key (deliver_at_ms id : Z) : bytes :=
  be_bytes 8 (as_u64 deliver_at_ms) ++ be_bytes 8 id.

(** 9 bytes: inverted priority, then id. *)
Definition encode_key (priority id : Z) : bytes :=
  saturating_sub 9 (Z.min priority 9) :: be_bytes 8 id.

(** [u64::from_be_bytes(key[1..9])] and [u64::from_be_bytes(key[..8])], with the
    panic of an out-of-range slice as [None]. *)
Definition key_id_bytes (key : bytes) : option bytes := slice 1 9 key.
Definition key_prefix_u64 (key : bytes) : option Z := from_be <$> slice 0 8 key.

(** The queue names whose trees cannot coincide with another queue's trees or
    with the metadata trees.  The engine does not check this. *)
Definition safe_name (name : string) : bool :=
  negb (String.prefix "inflight:" name) && negb (String.prefix "dlq:" name) &&
  negb (String.prefix "scheduled:" name) && negb (String.prefix "dedup:" name) &&
  negb (String.eqb name META_QUEUES_TREE) && negb (String.eqb name META_RETENTION_TREE) &&
  utf8_valid (str_bytes name).

(** ** Key lemmas *)

Lemma pow8 : 256 ^ Z.of_nat 8 = u64_lim.
Proof. reflexivity. Qed.

Lemma from_be_8 z : 0 <= z < u64_lim -> from_be (be_bytes 8 z) = z.
Proof. intros H. rewrite from_be_be_bytes, pow8, Z.mod_small; done. Qed.

Lemma be8_inj a b :
  0 <= a < u64_lim -> 0 <= b < u64_lim -> be_bytes 8 a = be_bytes 8 b -> a = b.
Proof. rewrite <- pow8. apply be_bytes_inj. Qed.

Lemma be8_lt a b :
  0 <= a < u64_lim -> 0 <= b < u64_lim -> lex_lt (be_bytes 8 a) (be_bytes 8 b) <-> a < b.
Proof.
  intros Ha Hb. unfold lex_lt. by rewrite lex_cmp_be_bytes, pow8, !Z.mod_small.
Qed.

Lemma be8_fits l : slice 0 8 (be_bytes 8 l) = Some (be_bytes 8 l).
Proof.
  unfold slice. rewrite be_bytes_length, bool_decide_true by lia. 
  rewrite drop_0. by apply f_equal, take_ge; rewrite be_bytes_length.
Qed.

Lemma key_id_bytes_encode p i : key_id_bytes (encode_key p i) = Some (be_bytes 8 i).
Proof.
  unfold key_id_bytes, encode_key, slice. cbn [length].
  rewrite be_bytes_length, bool_decide_true by lia.
  change (drop 1 ?l) with (drop 0 (be_bytes 8 i)). rewrite drop_0.
  by apply f_equal, take_ge; rewrite be_bytes_length.
Qed.

Lemma encode_key_id_inj p i p' i' :
  0 <= i < u64_lim -> 0 <= i' < u64_lim -> encode_key p i = encode_key p' i' -> i = i'.
Proof.
  intros Hi Hi' H. apply (f_equal key_id_bytes) in H. rewrite !key_id_bytes_encode in H.
  apply (inj Some), be8_inj in H; auto.
Qed.

Lemma key_prefix_scheduled d i :
  key_prefix_u64 (encode_scheduled_key d i) = Some (as_u64 d).
Proof.
  unfold key_prefix_u64, encode_scheduled_key, slice.
  rewrite length_app, !be_bytes_length, bool_decide_true by lia. rewrite drop_0.
  rewrite (take_app_length' (be_bytes 8 (as_u64 d))) by (by rewrite be_bytes_length).
  cbn. f_equal. apply from_be_8. unfold as_u64. apply Z.mod_pos_bound. lia.
Qed.

(** ** Tree-name lemmas *)

Lemma prefix_app (p s : string) : String.prefix p (p +:+ s) = true.
Proof.
  induction p as [|c p IH]; [by destruct s|].
  change (String c p +:+ s) with (String c (p +:+ s)). cbn [String.prefix].
  destruct (ascii_dec c c); [apply IH|congruence].
Qed.

Lemma string_app_inj_l (p a b : string) : p +:+ a = p +:+ b -> a = b.
Proof.
  induction p as [|c p IH]; [done|].
  change (String c p +:+ a) with (String c (p +:+ a)).
  change (String c p +:+ b) with (String c (p +:+ b)). intros [= H]; auto.
Qed.

(** The trees that belong to one queue. *)
Inductive Slot := Main | Inflight | Dlq | Scheduled | Dedup.

Definition slot_tree (s : Slot) (q : string) : string :=
  match s with
  | Main => q
  | Inflight => inflight_tree_name q
  | Dlq => dlq_tree_name q
  | Scheduled => scheduled_tree_name q
  | Dedup => dedup_tree_name q
  end.

#[export] Instance Slot_eq_dec : EqDecision Slot.
Proof. solve_decision. Defined.

Lemma safe_name_spec q :
  safe_name q = true ->
  String.prefix "inflight:" q = false /\ String.prefix "dlq:" q = false /\
  String.prefix "scheduled:" q = false /\ String.prefix "dedup:" q = false /\
  q <> META_QUEUES_TREE /\ q <> META_RETENTION_TREE /\ utf8_valid (str_bytes q) = true.
Proof.
  unfold safe_name. rewrite !andb_true_iff, !negb_true_iff. intros H.
  destruct_and! H. repeat split; auto; by apply String.eqb_neq.
Qed.

(** Distinct (slot, queue) pairs of safe queues are distinct trees. *)
Lemma slot_tree_inj s1 q1 s2 q2 :
  safe_name q1 = true -> safe_name q2 = true ->
  slot_tree s1 q1 = slot_tree s2 q2 -> s1 = s2 /\ q1 = q2.
Proof.
  intros H1%safe_name_spec H2%safe_name_spec Heq. destruct_and! H1. destruct_and! H2.
  destruct s1, s2; cbn in Heq;
    unfold inflight_tree_name, dlq_tree_name, scheduled_tree_name, dedup_tree_name in Heq;
    try (split; [done|]; first [exact Heq | by apply string_app_inj_l in Heq]);
    try (subst; rewrite prefix_app in *; discriminate);
    try discriminate Heq.
Qed.

Lemma slot_tree_meta s q :
  safe_name q = true -> slot_tree s q <> META_QUEUES_TREE /\ slot_tree s q <> META_RETENTION_TREE.
Proof.
  intros H%safe_name_spec. destruct_and! H. destruct s; cbn; split; try done; discriminate.
Qed.

Lemma slot_tree_ne s1 q1 s2 q2 :
  safe_name q1 = true -> safe_name q2 = true -> (s1 <> s2 \/ q1 <> q2) ->
  slot_tree s1 q1 <> slot_tree s2 q2.
Proof. intros H1 H2 Hne Heq. destruct (slot_tree_inj _ _ _ _ H1 H2 Heq). tauto. Qed.
