(* ===== verification/QueueManager.v ===== *)
(** * QueueManager: the persistent queue engine

    src/pelicanq-core/src/queue.rs, [impl QueueManager].  One definition per
    method, over the database interface, the serialization interface and the
    environment.  The struct's two metadata tree handles are the constant tree
    names of [Keys]. *)

From Stdlib Require Import ZArith Lia.
From stdpp Require Import prelude gmap strings.
From S2P Require Import Prelude Bytes OrdMap Sled Message Bincode Keys.

Section QueueManager.
Context `{!Sled, !Bincode, !Environment, !BuildProfile}.

(** The manager's fields, and the environment it runs in. *)
Record QueueManager := mkQM { db : db_t; current_bytes : Z; max_bytes : option Z }.
Record World := mkWorld { qm : QueueManager; env : Env }.

#[global] Instance HasEnv_World : HasEnv World :=
  {| env_of := env; set_env e w := mkWorld (qm w) e |}.

Definition set_db (d : db_t) (w : World) : World :=
  mkWorld (mkQM d (current_bytes (qm w)) (max_bytes (qm w))) (env w).
Definition set_bytes (n : Z) (w : World) : World :=
  mkWorld (mkQM (db (qm w)) n (max_bytes (qm w))) (env w).

Abbreviation QM := (M World PelicanError).

(** [.map_err(|e| PelicanError::Storage { message: e.to_string() })?] after a
    database read, a database update, and on an item of an iteration. *)
Definition storage_err {A} (r : Result string A) : QM A :=
  match r with Ok a => ret a | Err e => fail (Storage e) end.
Definition db_read {A} (f : db_t -> Result string A) : QM A :=
  fun w => storage_err (f (db (qm w))) w.
Definition db_update {A} (f : db_t -> Result string A * db_t) : QM A :=
  fun w => let '(r, d) := f (db (qm w)) in storage_err r (set_db d w).

(** The same for bincode errors. *)
Definition serialization_err {A} (r : Result string A) : QM A :=
  match r with Ok a => ret a | Err e => fail (Serialization e) end.

Definition iter_tree (t : string) : QM (list (Result string (bytes * bytes))) :=
  gets (fun w => tree_iter t (db (qm w))).

(** ** Queue names and policies *)

Definition item_name (r : Result string (bytes * bytes)) : option string :=
  match r with Ok (k, _) => from_utf8 k | Err _ => None end.

Definition list_queues : QM (list string) :=
  gets (fun w => omap item_name (tree_iter META_QUEUES_TREE (db (qm w)))).

(** The check every method on a queue starts with. *)
Definition require_queue (queue : string) : QM unit :=
  let* declared := db_read (contains_key META_QUEUES_TREE (str_bytes queue)) in
  if negb declared then fail (QueueNotFound queue) else ret tt.

(** [retention_tree.get(queue)?.and_then(|b| deserialize(&b).ok()).unwrap_or_default()]. *)
Definition policy_of_bytes (o : option bytes) : RetentionPolicy :=
  match o with
  | Some b => match de_pol b with Ok p => p | Err _ => default_policy end
  | None => default_policy
  end.
Definition get_policy (queue : string) : QM RetentionPolicy :=
  let* o := db_read (tree_get META_RETENTION_TREE (str_bytes queue)) in
  ret (policy_of_bytes o).

(** ** Opening a store *)

(** [for entry in tree.iter() { total += value.len() as u64; }]. *)
Definition add_tree_bytes (t : string) (total : Z) : QM Z :=
  db_update (open_tree t) ;;;
  let* items := iter_tree t in
  for_fold items total (fun total entry =>
    let* kv := storage_err entry in
    or_panic (arith_u64 (total + Z.of_nat (length kv.2)))).

Definition recalculate_bytes : QM Z :=
  let* names := list_queues in
  for_fold names 0 (fun total name =>
    let* total := add_tree_bytes name total in
    let* total := add_tree_bytes (inflight_tree_name name) total in
    let* total := add_tree_bytes (dlq_tree_name name) total in
    let* total := add_tree_bytes (scheduled_tree_name name) total in
    add_tree_bytes (dedup_tree_name name) total).

(** [.iter().filter_map(|e| e.ok()).collect()]. *)
Definition ok_items (l : list (Result string (bytes * bytes))) : list (bytes * bytes) :=
  omap (fun r => match r with Ok kv => Some kv | Err _ => None end) l.

Definition requeue_entry (name : string) (kv : bytes * bytes) : QM unit :=
  let* msg := serialization_err (de_msg kv.2) in
  let* new_id := db_update generate_id in
  db_update (tree_insert name (encode_key (priority msg) new_id) kv.2).

Definition remove_key (t : string) (k : bytes) : QM unit :=
  db_update (tree_remove t k) ;;; ret tt.

Definition recover_queue (name : string) : QM unit :=
  db_update (open_tree (inflight_tree_name name)) ;;;
  db_update (open_tree name) ;;;
  let* items := iter_tree (inflight_tree_name name) in
  let entries := ok_items items in
  match entries with
  | [] => ret tt
  | _ =>
    for_each entries (requeue_entry name) ;;;
    for_each entries (fun kv => remove_key (inflight_tree_name name) kv.1)
  end.

Definition recover_inflight : QM unit :=
  let* names := list_queues in
  for_each names recover_queue.

(** [QueueManager::open], given what [sled::open] returned. *)
Definition open_body : QM unit :=
  db_update (open_tree META_QUEUES_TREE) ;;;
  db_update (open_tree META_RETENTION_TREE) ;;;
  let* n := recalculate_bytes in
  modify (set_bytes n) ;;;
  recover_inflight.

Definition open (opened : Result string db_t) (max : option Z) (e : Env) :
    Outcome PelicanError unit * option World :=
  match opened with
  | Err msg => (Fail (Storage msg), None)
  | Ok d => let '(o, w) := open_body (mkWorld (mkQM d 0 max) e) in (o, Some w)
  end.

(** ** Declaring queues *)

Definition declare_queue_with_retention (name : string) (policy : RetentionPolicy) : QM unit :=
  let* declared := db_read (contains_key META_QUEUES_TREE (str_bytes name)) in
  if (declared : bool) then fail (QueueAlreadyExists name) else
  db_update (tree_insert META_QUEUES_TREE (str_bytes name) []) ;;;
  db_update (open_tree name) ;;;
  db_update (open_tree (inflight_tree_name name)) ;;;
  db_update (open_tree (dlq_tree_name name)) ;;;
  db_update (open_tree (scheduled_tree_name name)) ;;;
  db_update (open_tree (dedup_tree_name name)) ;;;
  let* policy_bytes := serialization_err (ser_pol policy) in
  db_update (tree_insert META_RETENTION_TREE (str_bytes name) policy_bytes).

Definition declare_queue (name : string) : QM unit :=
  declare_queue_with_retention name default_policy.

(** ** Publishing *)

(** The deduplication check: whether the message is a duplicate. *)
Definition is_duplicate (queue : string) (message : Message) (policy : RetentionPolicy) : QM bool :=
  match dedup_window_secs policy with
  | Some window_secs =>
    if 0 <? window_secs then
      match dedup_key message with
      | Some key =>
        db_update (open_tree (dedup_tree_name queue)) ;;;
        let* recorded := db_read (tree_get (dedup_tree_name queue) (str_bytes key)) in
        match recorded with
        | Some r =>
          let* r8 := or_panic (slice 0 8 r) in
          let recorded_ms := as_i64 (from_be r8) in
          let* window_ms := or_panic (arith_i64 (as_i64 window_secs * 1000)) in
          let* now := now_ms in
          let* limit := or_panic (arith_i64 (now - window_ms)) in
          ret (limit <? recorded_ms)
        | None => ret false
        end
      | None => ret false
      end
    else ret false
  | None => ret false
  end.

(** The storage limit. *)
Definition check_limit (msg_len : Z) : QM unit :=
  let* cur := gets (fun w => current_bytes (qm w)) in
  let* lim := gets (fun w => max_bytes (qm w)) in
  match lim with
  | Some max =>
    let* sum := or_panic (arith_u64 (cur + msg_len)) in
    if max <? sum then
      let* used_pct :=
        (if 0 <? max then
           let* scaled := or_panic (arith_u64 (cur * 100)) in ret (as_u8 (scaled / max))
         else ret 100) in
      fail (StorageLimitExceeded used_pct 100)
    else ret tt
  | None => ret tt
  end.

(** [self.current_bytes += msg_len]. *)
Definition add_bytes (msg_len : Z) : QM unit :=
  let* cur := gets (fun w => current_bytes (qm w)) in
  let* sum := or_panic (arith_u64 (cur + msg_len)) in
  modify (set_bytes sum).

Definition record_dedup_key (queue : string) (message : Message) (policy : RetentionPolicy) : QM unit :=
  match dedup_window_secs policy with
  | Some _ =>
    match dedup_key message with
    | Some key =>
      db_update (open_tree (dedup_tree_name queue)) ;;;
      let* now := now_ms in
      db_update (tree_insert (dedup_tree_name queue) (str_bytes key) (be_bytes 8 (as_u64 now)))
    | None => ret tt
    end
  | None => ret tt
  end.

(** [if let Some(deliver_at) = message.deliver_at { if deliver_at > now_ms() .. } }]:
    the delivery time when it lies in the future. *)
Definition future_delivery (message : Message) : QM (option Z) :=
  match deliver_at message with
  | Some t => let* now := now_ms in ret (if now <? t then Some t else None)
  | None => ret None
  end.

Definition publish (queue : string) (message : Message) : QM PublishOutcome :=
  require_queue queue ;;;
  let* policy := get_policy queue in
  let* dup := is_duplicate queue message policy in
  if (dup : bool) then ret Deduplicated else
  let* value := serialization_err (ser_msg message) in
  let msg_len := Z.of_nat (length value) in
  check_limit msg_len ;;;
  let stored := Message.id message in
  let* id := db_update generate_id in
  let* future := future_delivery message in
  match future with
  | Some deliver_at =>
    db_update (open_tree (scheduled_tree_name queue)) ;;;
    db_update (tree_insert (scheduled_tree_name queue) (encode_scheduled_key deliver_at id) value) ;;;
    add_bytes msg_len ;;;
    record_dedup_key queue message policy ;;;
    ret (Stored stored)
  | None =>
    db_update (open_tree queue) ;;;
    db_update (tree_insert queue (encode_key (priority message) id) value) ;;;
    add_bytes msg_len ;;;
    record_dedup_key queue message policy ;;;
    ret (Stored stored)
  end.

(** ** Consuming *)

(** [tree.iter().next().and_then(|r| r.ok()).map(|(k, _)| k)]. *)
Definition first_key (l : list (Result string (bytes * bytes))) : option bytes :=
  match l with Ok (k, _) :: _ => Some k | _ => None end.

(** The closure that moves an entry to the in-flight tree. *)
Definition consume_tx (queue : string) (key id_bytes : bytes) : Tx bytes :=
  TxRemove queue key (fun r =>
    match r with
    | Some value => TxInsert (inflight_tree_name queue) id_bytes value (TxRet value)
    | None => TxAbort
    end).

Definition run_transaction {A} (b : Tx A) : QM (TxResult A) :=
  fun w => let '(r, d) := transaction b (db (qm w)) in
    match r with
    | TPanic => (Panic, set_db d w)
    | _ => (Done r, set_db d w)
    end.

(** The [loop]: one iteration per unit of fuel. *)
Fixpoint consume_loop (fuel : nat) (queue : string) : QM (option (DeliveryTag * Message)) :=
  match fuel with
  | O => out_of_fuel
  | S fuel' =>
    let* items := iter_tree queue in
    match first_key items with
    | None => ret None
    | Some key =>
      let* id_bytes := or_panic (key_id_bytes key) in
      let id := from_be id_bytes in
      let* result := run_transaction (consume_tx queue key id_bytes) in
      match result with
      | TOk val_bytes =>
        let* msg := serialization_err (de_msg val_bytes) in
        ret (Some (mkTag id, msg))
      | TAbort => consume_loop fuel' queue
      | TStorage e => fail (Storage e)
      | TPanic => panic
      end
    end
  end.

Definition consume (queue : string) : QM (option (DeliveryTag * Message)) :=
  require_queue queue ;;;
  db_update (open_tree queue) ;;;
  db_update (open_tree (inflight_tree_name queue)) ;;;
  consume_loop 2 queue.

(** ** Acknowledging *)

Definition ack (queue : string) (delivery_tag : DeliveryTag) : QM unit :=
  require_queue queue ;;;
  db_update (open_tree (inflight_tree_name queue)) ;;;
  let key := be_bytes 8 (tag_u64 delivery_tag) in
  let* removed := db_update (tree_remove (inflight_tree_name queue) key) in
  match removed with
  | Some value =>
    modify (fun w => set_bytes (saturating_sub (current_bytes (qm w)) (Z.of_nat (length value))) w)
  | None => fail (InvalidDeliveryTag delivery_tag)
  end.

(** The closure that requeues or dead-letters an in-flight entry. *)
Definition nack_tx (queue : string) (old_key : bytes) (new_id : Z) (max_attempts : option Z) : Tx unit :=
  TxRemove (inflight_tree_name queue) old_key (fun r =>
    match r with
    | None => TxAbort
    | Some value =>
      match de_msg value with
      | Err _ => TxAbort
      | Ok msg =>
        match arith_u32 (delivery_attempts msg + 1) with
        | None => TxPanic
        | Some n =>
          let msg := set_attempts n msg in
          match ser_msg msg with
          | Err _ => TxAbort
          | Ok new_value =>
            let new_key := encode_key (priority msg) new_id in
            let requeue := TxInsert queue new_key new_value (TxRet tt) in
            match max_attempts with
            | Some max =>
              if (0 <? max) && (max <=? delivery_attempts msg)
              then TxInsert (dlq_tree_name queue) new_key new_value (TxRet tt)
              else requeue
            | None => requeue
            end
          end
        end
      end
    end).

Definition nack (queue : string) (delivery_tag : DeliveryTag) : QM unit :=
  require_queue queue ;;;
  let* policy := get_policy queue in
  db_update (open_tree queue) ;;;
  db_update (open_tree (inflight_tree_name queue)) ;;;
  db_update (open_tree (dlq_tree_name queue)) ;;;
  let old_key := be_bytes 8 (tag_u64 delivery_tag) in
  let* new_id := db_update generate_id in
  let* result := run_transaction (nack_tx queue old_key new_id (max_delivery_attempts policy)) in
  match result with
  | TOk _ => ret tt
  | TAbort => fail (InvalidDeliveryTag delivery_tag)
  | TStorage e => fail (Storage e)
  | TPanic => panic
  end.

(** ** Counters *)

Definition tree_count (queue t : string) : QM nat :=
  require_queue queue ;;;
  db_update (open_tree t) ;;;
  gets (fun w => tree_len t (db (qm w))).

Definition dead_letter_count (queue : string) : QM nat := tree_count queue (dlq_tree_name queue).
Definition scheduled_depth (queue : string) : QM nat := tree_count queue (scheduled_tree_name queue).
Definition depth (queue : string) : QM nat := tree_count queue queue.

(** ** Scheduled messages *)

(** The entries before the first one that is not due. *)
Fixpoint collect_due (now : Z) (items : list (Result string (bytes * bytes))) : QM (list (bytes * bytes)) :=
  match items with
  | [] => ret []
  | entry :: rest =>
    let* kv := storage_err entry in
    let* deliver_at_u64 := or_panic (key_prefix_u64 kv.1) in
    let deliver_at_ms := as_i64 deliver_at_u64 in
    if now <? deliver_at_ms then ret []
    else let* tl := collect_due now rest in ret (kv :: tl)
  end.

Definition promote_tx (queue : string) (scheduled_key main_key value : bytes) : Tx unit :=
  TxRemove (scheduled_tree_name queue) scheduled_key (fun _ =>
    TxInsert queue main_key value (TxRet tt)).

Definition promote_entry (queue : string) (promoted : nat) (kv : bytes * bytes) : QM nat :=
  let* msg := serialization_err (de_msg kv.2) in
  let* new_id := db_update generate_id in
  let main_key := encode_key (priority msg) new_id in
  let* result := run_transaction (promote_tx queue kv.1 main_key kv.2) in
  match result with
  | TOk _ => ret (S promoted)
  | TAbort => ret promoted
  | TStorage e => fail (Storage e)
  | TPanic => panic
  end.

Definition promote_scheduled (queue : string) : QM nat :=
  require_queue queue ;;;
  db_update (open_tree (scheduled_tree_name queue)) ;;;
  db_update (open_tree queue) ;;;
  let* now := now_ms in
  let* items := iter_tree (scheduled_tree_name queue) in
  let* to_promote := collect_due now items in
  for_fold to_promote O (promote_entry queue).

(** ** Retention *)

(** The keys of the messages that reached the maximum age. *)
Fixpoint collect_expired (now max_age_ms : Z) (items : list (Result string (bytes * bytes))) : QM (list bytes) :=
  match items with
  | [] => ret []
  | entry :: rest =>
    let* kv := storage_err entry in
    let* msg := serialization_err (de_msg kv.2) in
    let* age_ms := or_panic (arith_i64 (now - timestamp msg)) in
    let* tl := collect_expired now max_age_ms rest in
    ret (if max_age_ms <=? age_ms then kv.1 :: tl else tl)
  end.

(** The first [excess] keys of the tree. *)
Fixpoint collect_front (excess : nat) (items : list (Result string (bytes * bytes))) : QM (list bytes) :=
  match excess, items with
  | O, _ => ret []
  | _, [] => ret []
  | S excess', entry :: rest =>
    let* kv := storage_err entry in
    let* tl := collect_front excess' rest in
    ret (kv.1 :: tl)
  end.

Definition expire_by_age (queue : string) (policy : RetentionPolicy) : QM nat :=
  match max_age_secs policy with
  | None => ret O
  | Some max_age_secs =>
    let* now := now_ms in
    let* max_age_ms := or_panic (arith_i64 (as_i64 max_age_secs * 1000)) in
    let* items := iter_tree queue in
    let* to_remove := collect_expired now max_age_ms items in
    for_each to_remove (remove_key queue) ;;;
    ret (length to_remove)
  end.

Definition trim_to_count (queue : string) (policy : RetentionPolicy) : QM nat :=
  match max_messages policy with
  | None => ret O
  | Some max_msgs =>
    let* current := gets (fun w => tree_len queue (db (qm w))) in
    if max_msgs <? Z.of_nat current then
      let excess := Z.to_nat (Z.of_nat current - max_msgs) in
      let* items := iter_tree queue in
      let* to_remove := collect_front excess items in
      for_each to_remove (remove_key queue) ;;;
      ret (length to_remove)
    else ret O
  end.

Definition apply_retention (queue : string) : QM nat :=
  require_queue queue ;;;
  let* policy := get_policy queue in
  if bool_decide (max_age_secs policy = None) && bool_decide (max_messages policy = None)
  then ret O else
  db_update (open_tree queue) ;;;
  let* by_age := expire_by_age queue policy in
  let* by_count := trim_to_count queue policy in
  let removed := (by_age + by_count)%nat in
  if (0 <? removed)%nat then
    let* n := recalculate_bytes in
    modify (set_bytes n) ;;;
    ret removed
  else ret removed.
End QueueManager.

(** Engine computations. *)
Abbreviation QM := (M World PelicanError).
