(* ===== verification/Store.v ===== *)
(** * Store: canonical database contents and proof rules for the engine

    [contents] forgets the difference between a missing and an empty tree, which
    no engine operation observes, so that opening a tree is the identity and
    every update is an equation.  The second part gives the weakest-precondition
    rule of each database call under the interface laws. *)

From Stdlib Require Import ZArith Lia.
From stdpp Require Import prelude gmap strings.
From S2P Require Import Prelude Bytes OrdMap Sled Message Bincode Keys QueueManager.

Abbreviation store_t := (gmap string tree).

Definition contents (v : View) : store_t := filter (fun kv => kv.2 <> []) (v_trees v).

Definition look (c : store_t) (t : string) : tree := default [] (c !! t).
Definition put (t : string) (x : tree) (c : store_t) : store_t :=
  match x with [] => delete t c | _ => <[t := x]> c end.

Definition c_insert (t : string) (k x : bytes) (c : store_t) : store_t :=
  put t (o_insert k x (look c t)) c.
Definition c_remove (t : string) (k : bytes) (c : store_t) : store_t :=
  put t (o_remove k (look c t)) c.

Definition c_sorted (c : store_t) : Prop := forall t, o_sorted (look c t).

Lemma look_contents v t : look (contents v) t = tree_of v t.
Proof.
  unfold look, contents, tree_of. destruct (v_trees v !! t) as [x|] eqn:E.
  - destruct x as [|e x].
    + rewrite map_lookup_filter_None_2; [done|]. right. intros y Hy. simplify_eq. cbn. by intros [].
    + by rewrite (map_lookup_filter_Some_2 _ _ _ (e :: x)).
  - rewrite map_lookup_filter_None_2; [done|]. by left.
Qed.

Lemma look_put t x c : look (put t x c) t = x.
Proof. unfold look, put. destruct x; by rewrite ?lookup_delete_eq, ?lookup_insert_eq. Qed.

Lemma look_put_ne t t' x c : t' <> t -> look (put t x c) t' = look c t'.
Proof. intros H. unfold look, put. destruct x; by rewrite ?lookup_delete_ne, ?lookup_insert_ne. Qed.

Lemma put_put t x y c : put t x (put t y c) = put t x c.
Proof.
  unfold put. destruct x, y; by rewrite ?delete_delete_eq, ?insert_insert_eq, ?delete_insert_eq, ?insert_delete_eq.
Qed.

Lemma put_comm t t' x y c : t <> t' -> put t x (put t' y c) = put t' y (put t x c).
Proof.
  intros H. unfold put. destruct x, y.
  - apply delete_delete.
  - by rewrite delete_insert_ne.
  - by rewrite delete_insert_ne.
  - by rewrite insert_insert_ne.
Qed.

Lemma contents_set t x v : contents (v_set t x v) = put t x (contents v).
Proof.
  unfold contents, v_set, put; cbn. destruct x as [|e x].
  - rewrite map_filter_insert_False by (cbn; tauto). by rewrite map_filter_delete.
  - by rewrite map_filter_insert_True.
Qed.

Lemma contents_open t v : contents (v_open t v) = contents v.
Proof.
  unfold v_open. rewrite contents_set. apply map_eq. intros t'.
  destruct (decide (t' = t)) as [->|Hne].
  - unfold put, tree_of, contents. destruct (v_trees v !! t) as [[|e x]|] eqn:E; cbn.
    + rewrite lookup_delete_eq. symmetry. apply map_lookup_filter_None_2. right.
      intros y Hy. simplify_eq. cbn. by intros [].
    + rewrite lookup_insert_eq. symmetry. by apply map_lookup_filter_Some_2.
    + rewrite lookup_delete_eq. symmetry. apply map_lookup_filter_None_2. by left.
  - unfold put. destruct (tree_of v t); by rewrite ?lookup_delete_ne, ?lookup_insert_ne.
Qed.

Lemma contents_insert t k x v : contents (v_insert t k x v) = c_insert t k x (contents v).
Proof. unfold v_insert, c_insert. by rewrite contents_set, look_contents. Qed.

Lemma contents_remove t k v : contents (v_remove t k v) = c_remove t k (contents v).
Proof. unfold v_remove, c_remove. by rewrite contents_set, look_contents. Qed.

Lemma look_c_insert t k x c : look (c_insert t k x c) t = o_insert k x (look c t).
Proof. apply look_put. Qed.
Lemma look_c_insert_ne t t' k x c : t' <> t -> look (c_insert t k x c) t' = look c t'.
Proof. apply look_put_ne. Qed.
Lemma look_c_remove t k c : look (c_remove t k c) t = o_remove k (look c t).
Proof. apply look_put. Qed.
Lemma look_c_remove_ne t t' k c : t' <> t -> look (c_remove t k c) t' = look c t'.
Proof. apply look_put_ne. Qed.

Lemma c_sorted_put t x c : o_sorted x -> c_sorted c -> c_sorted (put t x c).
Proof.
  intros Hx Hc t'. destruct (decide (t' = t)) as [->|Hne]; [by rewrite look_put|].
  rewrite look_put_ne by done. apply Hc.
Qed.
Lemma c_sorted_insert t k x c : c_sorted c -> c_sorted (c_insert t k x c).
Proof. intros H. apply c_sorted_put; auto using o_sorted_insert. Qed.
Lemma c_sorted_remove t k c : c_sorted c -> c_sorted (c_remove t k c).
Proof. intros H. apply c_sorted_put; auto using o_sorted_remove. Qed.
#[export] Hint Resolve c_sorted_insert c_sorted_remove : ord.

(** Transactions over canonical contents. *)
Fixpoint run_ctx {A} (b : Tx A) (c : store_t) : TxResult A * store_t :=
  match b with
  | TxRet a => (TOk a, c)
  | TxAbort => (TAbort, c)
  | TxPanic => (TPanic, c)
  | TxRemove t k cont => run_ctx (cont (o_get k (look c t))) (c_remove t k c)
  | TxInsert t k x cont => run_ctx cont (c_insert t k x c)
  end.

Definition commit_ctx {A} (b : Tx A) (c : store_t) : TxResult A * store_t :=
  match run_ctx b c with
  | (TOk a, c') => (TOk a, c')
  | (r, _) => (r, c)
  end.

Lemma run_tx_contents {A} (b : Tx A) v :
  run_ctx b (contents v) = ((run_tx b v).1, contents (run_tx b v).2) /\
  v_idgen (run_tx b v).2 = v_idgen v.
Proof.
  revert v. induction b as [| | |t k c IH|t k x c IH]; intros v; cbn; try done.
  - rewrite look_contents, <- contents_remove. destruct (IH (o_get k (tree_of v t)) (v_remove t k v)). auto.
  - rewrite <- contents_insert. destruct (IH (v_insert t k x v)). auto.
Qed.

Lemma commit_tx_contents {A} (b : Tx A) v :
  commit_ctx b (contents v) = ((commit_tx b v).1, contents (commit_tx b v).2) /\
  v_idgen (commit_tx b v).2 = v_idgen v.
Proof.
  destruct (run_tx_contents b v) as [H1 H2]. unfold commit_ctx, commit_tx. rewrite H1.
  destruct (run_tx b v) as [[a| |m|] v']; cbn in *; auto.
Qed.

(** ** Proof rules *)

Section Rules.
Context `{!Sled, !SledLaws, !SledReliable, !Bincode, !Environment, !BuildProfile}.
Implicit Types w : World.

(** The logical contents of the manager's database, and its id bound. *)
Definition store w : store_t := contents (view (db (qm w))).
Definition idgen w : Z := v_idgen (view (db (qm w))).

Lemma all_ok_Ok {E A} (l : list (Result E A)) l' : all_ok l = Some l' -> l = map Ok l'.
Proof.
  revert l'. induction l as [|[a|e] l IH]; intros l'; cbn; [by intros [= <-]| |done].
  destruct (all_ok l) as [x|]; [|done]. cbn. intros [= <-]. cbn. f_equal. auto.
Qed.

Lemma iter_ok t d : tree_iter t d = map Ok (look (contents (view d)) t).
Proof.
  destruct (tree_iter_rel t d) as [l Hl]. rewrite look_contents, <- (tree_iter_law _ _ _ Hl).
  by apply all_ok_Ok.
Qed.

Lemma wp_contains t k (R : Outcome PelicanError bool -> World -> Prop) w :
  R (Done (bool_decide (is_Some (o_get k (look (store w) t))))) w ->
  wp (db_read (contains_key t k)) R w.
Proof.
  intros HR. unfold wp, db_read. destruct (contains_key_rel t k (db (qm w))) as [b Hb].
  rewrite Hb. cbn. rewrite (contains_key_law _ _ _ _ Hb), <- look_contents. exact HR.
Qed.

Lemma wp_get t k (R : Outcome PelicanError (option bytes) -> World -> Prop) w :
  R (Done (o_get k (look (store w) t))) w -> wp (db_read (tree_get t k)) R w.
Proof.
  intros HR. unfold wp, db_read. destruct (tree_get_rel t k (db (qm w))) as [b Hb].
  rewrite Hb. cbn. rewrite (tree_get_law _ _ _ _ Hb), <- look_contents. exact HR.
Qed.

Lemma wp_iter t (R : Outcome PelicanError _ -> World -> Prop) w :
  R (Done (map Ok (look (store w) t))) w -> wp (iter_tree t) R w.
Proof. intros HR. unfold iter_tree. apply wp_gets. by rewrite iter_ok. Qed.

Lemma wp_open t (R : Outcome PelicanError unit -> World -> Prop) w :
  (forall d, contents (view d) = store w -> v_idgen (view d) = idgen w -> R (Done tt) (set_db d w)) ->
  wp (db_update (open_tree t)) R w.
Proof.
  intros HR. unfold wp, db_update. destruct (open_tree_rel t (db (qm w))) as [d Hd].
  rewrite Hd. cbn. apply open_tree_law in Hd. apply HR; rewrite Hd; [apply contents_open|done].
Qed.

Lemma wp_insert t k x (R : Outcome PelicanError unit -> World -> Prop) w :
  (forall d, contents (view d) = c_insert t k x (store w) -> v_idgen (view d) = idgen w ->
    R (Done tt) (set_db d w)) ->
  wp (db_update (tree_insert t k x)) R w.
Proof.
  intros HR. unfold wp, db_update. destruct (tree_insert_rel t k x (db (qm w))) as [d Hd].
  rewrite Hd. cbn. apply tree_insert_law in Hd. apply HR; rewrite Hd; [apply contents_insert|done].
Qed.

Lemma wp_remove t k (R : Outcome PelicanError (option bytes) -> World -> Prop) w :
  (forall d, contents (view d) = c_remove t k (store w) -> v_idgen (view d) = idgen w ->
    R (Done (o_get k (look (store w) t))) (set_db d w)) ->
  wp (db_update (tree_remove t k)) R w.
Proof.
  intros HR. unfold wp, db_update. destruct (tree_remove_rel t k (db (qm w))) as (r & d & Hd).
  rewrite Hd. cbn. apply tree_remove_law in Hd as [-> Hd]. unfold store in *.
  rewrite look_contents in HR. apply HR; rewrite Hd; [apply contents_remove|done].
Qed.

Lemma wp_generate_id (R : Outcome PelicanError Z -> World -> Prop) w :
  (forall i d, contents (view d) = store w -> 0 <= i -> idgen w <= i < v_idgen (view d) ->
    R (Done i) (set_db d w)) ->
  wp (db_update generate_id) R w.
Proof.
  intros HR. unfold wp, db_update. destruct (generate_id_rel (db (qm w))) as (i & d & Hd).
  rewrite Hd. cbn. apply generate_id_law in Hd as (Ht & Hi & Hlt).
  apply HR; auto. unfold store, contents. by rewrite Ht.
Qed.

Lemma wp_transaction {A} (b : Tx A) (R : Outcome PelicanError (TxResult A) -> World -> Prop) w :
  (forall d r, commit_ctx b (store w) = (r, contents (view d)) -> v_idgen (view d) = idgen w ->
    match r with TPanic => R Panic (set_db d w) | _ => R (Done r) (set_db d w) end) ->
  wp (run_transaction b) R w.
Proof.
  intros HR. unfold wp, run_transaction. pose proof (transaction_rel A b (db (qm w))) as Hr.
  destruct (transaction b (db (qm w))) as [r d] eqn:E. cbn in Hr.
  pose proof (transaction_law _ _ _ _ _ E Hr) as Hc.
  destruct (commit_tx_contents b (view (db (qm w)))) as [Hc1 Hc2]. rewrite Hc in Hc1, Hc2. cbn in *.
  specialize (HR d r Hc1 Hc2). by destruct r.
Qed.

Lemma wp_tree_len t (R : Outcome PelicanError nat -> World -> Prop) w :
  R (Done (length (look (store w) t))) w -> wp (gets (fun w => tree_len t (db (qm w)))) R w.
Proof. intros HR. apply wp_gets. by rewrite tree_len_law, <- look_contents. Qed.
End Rules.

Lemma store_set_db `{!Sled, !SledLaws} d w : store (set_db d w) = contents (view d).
Proof. done. Qed.
Lemma idgen_set_db `{!Sled, !SledLaws} d w : idgen (set_db d w) = v_idgen (view d).
Proof. done. Qed.
