(* ===== verification/Spec.v ===== *)
(** * Spec: what a queue promises, and how the stored trees represent it

    The abstract queue: the ready messages in delivery order, the in-flight
    messages by delivery tag, the dead letters and the scheduled messages.  The
    abstraction function decodes the trees of one queue; the lemmas relate the
    ordered-map updates of the engine to the abstract updates. *)

From Stdlib Require Import ZArith Lia.
From stdpp Require Import prelude gmap strings.
From S2P Require Import Prelude Bytes OrdMap Sled Message Bincode Keys QueueManager Store.

(** ** The abstract queue *)

(** Insertion before the first element of a greater rank: after every element of
    the same rank. *)
Fixpoint stable_insert {A} (rank : A -> Z) (x : A) (l : list A) : list A :=
  match l with
  | [] => [x]
  | y :: l' => if rank x <? rank y then x :: l else y :: stable_insert rank x l'
  end.

(** A stored message with the id it is filed under. *)
Abbreviation entry := (Z * Message)%type.

(** Priority 9 and above is served first. *)
Definition prio_rank (e : entry) : Z := 9 - Z.min (priority e.2) 9.

Definition enqueue (e : entry) (l : list entry) : list entry := stable_insert prio_rank e l.

(** A scheduled message with its due time. *)
Abbreviation sentry := (Z * entry)%type.
Definition schedule (e : sentry) (l : list sentry) : list sentry := stable_insert fst e l.

Record AQueue := mkAQ {
  a_ready : list entry;
  a_inflight : gmap Z Message;
  a_dead : list entry;
  a_sched : list sentry;
}.

(** Publishing a message that is already due. *)
Definition a_publish (e : entry) (a : AQueue) : AQueue :=
  mkAQ (enqueue e (a_ready a)) (a_inflight a) (a_dead a) (a_sched a).

(** Publishing a message for later. *)
Definition a_schedule (e : sentry) (a : AQueue) : AQueue :=
  mkAQ (a_ready a) (a_inflight a) (a_dead a) (schedule e (a_sched a)).

(** Consuming the head of the ready list. *)
Definition a_consume (a : AQueue) : option entry * AQueue :=
  match a_ready a with
  | [] => (None, a)
  | e :: l => (Some e, mkAQ l (<[e.1 := e.2]> (a_inflight a)) (a_dead a) (a_sched a))
  end.

Definition a_ack (tag : Z) (a : AQueue) : AQueue :=
  mkAQ (a_ready a) (delete tag (a_inflight a)) (a_dead a) (a_sched a).

(** Whether a message that was delivered [n] times goes to the dead letters. *)
Definition exhausted (max : option Z) (n : Z) : bool :=
  match max with Some m => (0 <? m) && (m <=? n) | None => false end.

(** Negative acknowledgement of [msg], filed again under [new_id]. *)
Definition a_nack (max : option Z) (tag new_id : Z) (msg : Message) (a : AQueue) : AQueue :=
  let msg' := set_attempts (delivery_attempts msg + 1) msg in
  let infl := delete tag (a_inflight a) in
  if exhausted max (delivery_attempts msg')
  then mkAQ (a_ready a) infl (enqueue (new_id, msg') (a_dead a)) (a_sched a)
  else mkAQ (enqueue (new_id, msg') (a_ready a)) infl (a_dead a) (a_sched a).

(** ** Decoding the trees *)

Section Decode.
Context `{!Bincode}.

Definition result_opt {E A} (r : Result E A) : option A :=
  match r with Ok a => Some a | Err _ => None end.

Definition dec_main (kv : bytes * bytes) : option entry :=
  idb ← key_id_bytes kv.1; m ← result_opt (de_msg kv.2); Some (from_be idb, m).

Definition dec_tag (kv : bytes * bytes) : option entry :=
  m ← result_opt (de_msg kv.2); Some (from_be kv.1, m).

Definition dec_sched (kv : bytes * bytes) : option sentry :=
  t ← key_prefix_u64 kv.1; idb ← slice 8 16 kv.1; m ← result_opt (de_msg kv.2);
  Some (as_i64 t, (from_be idb, m)).

Definition ready (c : store_t) (q : string) : list entry := omap dec_main (look c q).
Definition inflight (c : store_t) (q : string) : gmap Z Message :=
  list_to_map (omap dec_tag (look c (inflight_tree_name q))).
Definition dead (c : store_t) (q : string) : list entry := omap dec_main (look c (dlq_tree_name q)).
Definition sched (c : store_t) (q : string) : list sentry :=
  omap dec_sched (look c (scheduled_tree_name q)).

(** The abstraction function. *)
Definition abs (c : store_t) (q : string) : AQueue :=
  mkAQ (ready c q) (inflight c q) (dead c q) (sched c q).

(** ** Well-formed entries *)

(** [v] is the serialization of the well-formed message [m]. *)
Definition stores (m : Message) (v : bytes) : Prop := wf_message m = true /\ ser_msg m = Ok v.

Definition main_entry (n : Z) (kv : bytes * bytes) : Prop :=
  exists i m, kv.1 = encode_key (priority m) i /\ stores m kv.2 /\ 0 <= i < n.
Definition tag_entry (n : Z) (kv : bytes * bytes) : Prop :=
  exists i m, kv.1 = be_bytes 8 i /\ stores m kv.2 /\ 0 <= i < n.
Definition sched_entry (n : Z) (kv : bytes * bytes) : Prop :=
  exists t i m, kv.1 = encode_scheduled_key t i /\ stores m kv.2 /\ 0 <= i < n /\ 0 <= t < i64_lim /\
    deliver_at m = Some t.
End Decode.

(** ** Order of the keys *)

Lemma encode_key_cmp p i p' i' :
  0 <= i < u64_lim -> 0 <= i' < u64_lim -> 0 <= p -> 0 <= p' ->
  lex_cmp (encode_key p i) (encode_key p' i') =
  match 9 - Z.min p 9 ?= 9 - Z.min p' 9 with Eq => i ?= i' | c => c end.
Proof.
  intros Hi Hi' Hp Hp'. unfold encode_key, saturating_sub. cbn [lex_cmp].
  rewrite !(Z.max_r 0) by lia. rewrite lex_cmp_be_bytes, pow8, !Z.mod_small by lia. done.
Qed.

Lemma encode_scheduled_key_cmp t i t' i' :
  0 <= i < u64_lim -> 0 <= i' < u64_lim -> 0 <= t < i64_lim -> 0 <= t' < i64_lim ->
  lex_cmp (encode_scheduled_key t i) (encode_scheduled_key t' i') =
  match t ?= t' with Eq => i ?= i' | c => c end.
Proof.
  intros Hi Hi' Ht Ht'. unfold encode_scheduled_key, as_u64.
  rewrite lex_cmp_app_same_length by (by rewrite !be_bytes_length).
  rewrite !lex_cmp_be_bytes, pow8, !Z.mod_mod, !Z.mod_small by lia. done.
Qed.

(** ** Insertion into an ordered map is stable insertion *)

Lemma omap_o_insert {A} (dec : bytes * bytes -> option A) (rank : A -> Z) k v x t :
  dec (k, v) = Some x ->
  Forall (fun kv => exists y, dec kv = Some y /\
            lex_cmp k kv.1 = if rank x <? rank y then Lt else Gt) t ->
  omap dec (o_insert k v t) = stable_insert rank x (omap dec t).
Proof.
  intros Hx. induction 1 as [|[k' v'] t (y & Hy & Hc) Ht IH]; cbn in *; [by rewrite Hx|].
  rewrite Hc, Hy. cbn. destruct (rank x <? rank y); cbn; rewrite ?Hx, ?Hy, ?IH; done.
Qed.

Section DecodeLemmas.
Context `{!Bincode, !BincodeLaws}.

Lemma de_stores m v : stores m v -> de_msg v = Ok m.
Proof. intros [Hw Hs]. by eapply de_ser_msg. Qed.

Lemma stores_priority m v : stores m v -> 0 <= priority m < 256.
Proof. intros [Hw _]. apply wf_message_fields in Hw. tauto. Qed.

Lemma dec_main_encode m v i :
  stores m v -> 0 <= i < u64_lim -> dec_main (encode_key (priority m) i, v) = Some (i, m).
Proof.
  intros Hs Hi. unfold dec_main. cbn. rewrite key_id_bytes_encode; cbn.
  rewrite (de_stores _ _ Hs); cbn. by rewrite from_be_8.
Qed.

Lemma dec_tag_encode m v i :
  stores m v -> 0 <= i < u64_lim -> dec_tag (be_bytes 8 i, v) = Some (i, m).
Proof. intros Hs Hi. unfold dec_tag. cbn. rewrite (de_stores _ _ Hs); cbn. by rewrite from_be_8. Qed.

Lemma dec_sched_encode m v t i :
  stores m v -> 0 <= i < u64_lim -> 0 <= t < i64_lim ->
  dec_sched (encode_scheduled_key t i, v) = Some (t, (i, m)).
Proof.
  intros Hs Hi Ht. unfold dec_sched. cbn [fst snd]. rewrite key_prefix_scheduled. cbn.
  unfold encode_scheduled_key at 1.
  pose proof (slice_app (be_bytes 8 (as_u64 t)) (be_bytes 8 i) []) as Hsl.
  rewrite app_nil_r, !be_bytes_length in Hsl. cbn in Hsl. rewrite Hsl. cbn.
  rewrite (de_stores _ _ Hs); cbn. rewrite from_be_8 by done.
  unfold as_u64. rewrite Z.mod_small by lia. by rewrite as_i64_id by lia.
Qed.

Lemma main_entry_dec n kv :
  n <= u64_lim -> main_entry n kv ->
  exists i m, dec_main kv = Some (i, m) /\ kv.1 = encode_key (priority m) i /\ stores m kv.2 /\ 0 <= i < n.
Proof.
  destruct kv as [k v]. intros Hn (i & m & Hk & Hs & Hi). cbn in *. subst k.
  exists i, m. rewrite (dec_main_encode m v i) by (auto; lia). auto.
Qed.

Lemma tag_entry_dec n kv :
  n <= u64_lim -> tag_entry n kv ->
  exists i m, dec_tag kv = Some (i, m) /\ kv.1 = be_bytes 8 i /\ stores m kv.2 /\ 0 <= i < n.
Proof.
  destruct kv as [k v]. intros Hn (i & m & Hk & Hs & Hi). cbn in *. subst k.
  exists i, m. rewrite (dec_tag_encode m v i) by (auto; lia). auto.
Qed.

Lemma sched_entry_dec n kv :
  n <= u64_lim -> sched_entry n kv ->
  exists t i m, dec_sched kv = Some (t, (i, m)) /\ kv.1 = encode_scheduled_key t i /\
    stores m kv.2 /\ 0 <= i < n /\ 0 <= t < i64_lim /\ deliver_at m = Some t.
Proof.
  destruct kv as [k v]. intros Hn (t & i & m & Hk & Hs & Hi & Ht & Hat). cbn in *. subst k.
  exists t, i, m. rewrite (dec_sched_encode m v t i) by (auto; lia). split_and!; auto; lia.
Qed.

(** Inserting under a fresh id is [enqueue]. *)
Lemma omap_main_insert n m v i t :
  Forall (main_entry n) t -> stores m v -> 0 <= i -> n <= i < u64_lim ->
  omap dec_main (o_insert (encode_key (priority m) i) v t) = enqueue (i, m) (omap dec_main t).
Proof.
  intros Ht Hs Hi0 Hi. apply omap_o_insert; [apply dec_main_encode; auto; lia|].
  eapply Forall_impl; [exact Ht|]. intros kv Hkv.
  destruct (main_entry_dec n kv) as (i' & m' & Hd & Hk & Hs' & Hi'); [lia|done|].
  exists (i', m'). split; [done|]. rewrite Hk. unfold prio_rank; cbn [fst snd].
  pose proof (stores_priority _ _ Hs). pose proof (stores_priority _ _ Hs').
  rewrite encode_key_cmp by lia.
  destruct (Z.compare_spec (9 - Z.min (priority m) 9) (9 - Z.min (priority m') 9)) as [E|E|E].
  - rewrite (proj2 (Z.ltb_ge _ _)) by lia. apply Z.compare_gt_iff. lia.
  - by rewrite (proj2 (Z.ltb_lt _ _)).
  - by rewrite (proj2 (Z.ltb_ge _ _)) by lia.
Qed.

Lemma omap_sched_insert n m v d i t :
  Forall (sched_entry n) t -> stores m v -> 0 <= i -> n <= i < u64_lim -> 0 <= d < i64_lim ->
  omap dec_sched (o_insert (encode_scheduled_key d i) v t) = schedule (d, (i, m)) (omap dec_sched t).
Proof.
  intros Ht Hs Hi0 Hi Hd. apply omap_o_insert; [apply dec_sched_encode; auto; lia|].
  eapply Forall_impl; [exact Ht|]. intros kv Hkv.
  destruct (sched_entry_dec n kv) as (d' & i' & m' & Hdec & Hk & Hs' & Hi' & Hd' & _); [lia|done|].
  exists (d', (i', m')). split; [done|]. rewrite Hk; cbn [fst snd].
  rewrite encode_scheduled_key_cmp by lia.
  destruct (Z.compare_spec d d') as [E|E|E].
  - rewrite (proj2 (Z.ltb_ge _ _)) by lia. apply Z.compare_gt_iff. lia.
  - by rewrite (proj2 (Z.ltb_lt _ _)).
  - by rewrite (proj2 (Z.ltb_ge _ _)) by lia.
Qed.

(** The in-flight tree as a finite map. *)
Lemma infl_insert n m v i t :
  Forall (tag_entry n) t -> stores m v -> 0 <= i < u64_lim -> n <= u64_lim ->
  (list_to_map (omap dec_tag (o_insert (be_bytes 8 i) v t)) : gmap Z Message) =
  <[i := m]> (list_to_map (omap dec_tag t)).
Proof.
  intros Ht Hs Hi Hn. induction Ht as [|[k' v'] t Hkv Ht IH]; cbn.
  - by rewrite (dec_tag_encode _ _ _ Hs Hi).
  - destruct (tag_entry_dec n _ Hn Hkv) as (i' & m' & Hd & Hk & _ & Hi'). cbn in Hk. subst k'.
    destruct (lex_cmp (be_bytes 8 i) (be_bytes 8 i')) eqn:E; cbn; rewrite ?Hd; cbn.
    + apply lex_cmp_eq, be8_inj in E as ->; [|lia..].
      rewrite (dec_tag_encode _ _ _ Hs Hi). cbn. by rewrite insert_insert_eq.
    + by rewrite (dec_tag_encode _ _ _ Hs Hi).
    + rewrite IH. apply insert_insert_ne. intros ->. by rewrite lex_cmp_refl in E.
Qed.

Lemma infl_lookup n t i :
  Forall (tag_entry n) t -> n <= u64_lim -> 0 <= i < u64_lim ->
  (list_to_map (omap dec_tag t) : gmap Z Message) !! i =
  (v ← o_get (be_bytes 8 i) t; result_opt (de_msg v)).
Proof.
  intros Ht Hn Hi. induction Ht as [|[k' v'] t Hkv Ht IH]; cbn; [done|].
  destruct (tag_entry_dec n _ Hn Hkv) as (i' & m' & Hd & Hk & Hs & Hi'). cbn in Hk, Hs. subst k'.
  rewrite Hd; cbn. destruct (decide (i = i')) as [->|Hne].
  - rewrite lookup_insert_eq, bool_decide_true by done. cbn. by rewrite (de_stores _ _ Hs).
  - rewrite lookup_insert_ne, bool_decide_false by (try done; intros E; apply be8_inj in E; lia).
    apply IH.
Qed.

Lemma infl_remove n i t :
  Forall (tag_entry n) t -> o_sorted t -> 0 <= i < u64_lim -> n <= u64_lim ->
  (list_to_map (omap dec_tag (o_remove (be_bytes 8 i) t)) : gmap Z Message) =
  delete i (list_to_map (omap dec_tag t)).
Proof.
  intros Ht Hs Hi Hn. apply map_eq. intros j.
  destruct (decide (0 <= j < u64_lim)) as [Hj|Hj].
  - rewrite (infl_lookup n) by (auto with ord). destruct (decide (i = j)) as [->|Hne].
    + by rewrite lookup_delete_eq, o_get_remove.
    + rewrite lookup_delete_ne, (infl_lookup n), o_get_remove_ne by
        (auto; intros E; apply be8_inj in E; lia). done.
  - assert (forall t', Forall (tag_entry n) t' ->
      (list_to_map (omap dec_tag t') : gmap Z Message) !! j = None) as Hout.
    { induction 1 as [|kv t' Hkv _ IH]; cbn; [done|].
      destruct (tag_entry_dec n _ Hn Hkv) as (i' & m' & Hd & _ & _ & Hi'). rewrite Hd; cbn.
      rewrite lookup_insert_ne by lia. done. }
    rewrite (Hout (o_remove _ _)) by auto with ord. symmetry. apply lookup_delete_None. right. auto.
Qed.
End DecodeLemmas.
