(* ===== verification/Engine.v ===== *)
(** * Engine: what each operation does to the stored contents

    For every method of [QueueManager], the outcome on each branch and the exact
    effect on the contents, the id bound and the byte counter. *)

From Stdlib Require Import ZArith Lia.
From stdpp Require Import prelude gmap strings.
From S2P Require Import Prelude Bytes OrdMap Sled Message Bincode Keys QueueManager Store Spec.

(** ** Stepping through the engine *)

(** Normalize what is known about an updated world. *)
Ltac wsimp :=
  repeat match goal with
  | |- context [store (set_db ?d ?w)] => change (store (set_db d w)) with (contents (view d))
  | |- context [idgen (set_db ?d ?w)] => change (idgen (set_db d w)) with (v_idgen (view d))
  | |- context [store (set_bytes ?n ?w)] => change (store (set_bytes n w)) with (store w)
  | |- context [idgen (set_bytes ?n ?w)] => change (idgen (set_bytes n w)) with (idgen w)
  | |- context [store (set_env ?n ?w)] => change (store (set_env n w)) with (store w)
  | |- context [idgen (set_env ?n ?w)] => change (idgen (set_env n w)) with (idgen w)
  | |- context [current_bytes (qm (set_db ?d ?w))] =>
      change (current_bytes (qm (set_db d w))) with (current_bytes (qm w))
  | |- context [current_bytes (qm (set_bytes ?n ?w))] =>
      change (current_bytes (qm (set_bytes n w))) with n
  | |- context [current_bytes (qm (set_env ?e ?w))] =>
      change (current_bytes (qm (set_env e w))) with (current_bytes (qm w))
  | |- context [max_bytes (qm (set_db ?d ?w))] =>
      change (max_bytes (qm (set_db d w))) with (max_bytes (qm w))
  | |- context [max_bytes (qm (set_bytes ?n ?w))] =>
      change (max_bytes (qm (set_bytes n w))) with (max_bytes (qm w))
  | |- context [max_bytes (qm (set_env ?e ?w))] =>
      change (max_bytes (qm (set_env e w))) with (max_bytes (qm w))
  | H : contents (view ?d) = _ |- context [contents (view ?d)] => rewrite H
  | H : v_idgen (view ?d) = _ |- context [v_idgen (view ?d)] => rewrite H
  end.

(** One rule of the program logic. *)
Ltac wp_step :=
  lazymatch goal with
  | |- wp (bind _ _) _ _ => apply wp_bind
  | |- wp (ret _) _ _ => apply wp_ret
  | |- wp (fail _) _ _ => apply wp_fail
  | |- wp (modify _) _ _ => apply wp_modify
  | |- wp (db_read (contains_key _ _)) _ _ => apply wp_contains
  | |- wp (db_read (tree_get _ _)) _ _ => apply wp_get
  | |- wp (iter_tree _) _ _ => apply wp_iter
  | |- wp (gets (fun w => tree_len _ _)) _ _ => apply wp_tree_len
  | |- wp (gets _) _ _ => apply wp_gets
  | |- wp now_ms _ _ => let now := fresh "now" in let Hcv := fresh "Hcv" in
      let Hnow := fresh "Hnow" in
      apply wp_now_ms; intros now Hcv; pose proof (clock_value_range _ Hcv) as Hnow
  | |- wp (db_update (open_tree _)) _ _ => let d := fresh "d" in let Hc := fresh "Hc" in
      let Hg := fresh "Hg" in apply wp_open; wsimp; intros d Hc Hg
  | |- wp (db_update (tree_insert _ _ _)) _ _ => let d := fresh "d" in let Hc := fresh "Hc" in
      let Hg := fresh "Hg" in apply wp_insert; wsimp; intros d Hc Hg
  | |- wp (db_update (tree_remove _ _)) _ _ => let d := fresh "d" in let Hc := fresh "Hc" in
      let Hg := fresh "Hg" in apply wp_remove; wsimp; intros d Hc Hg
  | |- wp (db_update generate_id) _ _ => let d := fresh "d" in let Hc := fresh "Hc" in
      let i := fresh "i" in let Hi := fresh "Hi" in let Hg := fresh "Hg" in
      apply wp_generate_id; wsimp; intros i d Hc Hi Hg
  end; cbn beta iota.

Ltac wps := repeat (wp_step; wsimp).

(** ** Logical observations of the contents *)

Definition declared (c : store_t) (q : string) : bool :=
  bool_decide (is_Some (o_get (str_bytes q) (look c META_QUEUES_TREE))).

Definition policy `{!Bincode} (c : store_t) (q : string) : RetentionPolicy :=
  policy_of_bytes (o_get (str_bytes q) (look c META_RETENTION_TREE)).

(** Durations whose conversion to milliseconds stays within [i64]. *)
Definition sane_secs (s : Z) : bool := (0 <=? s) && (s * 1000 <? i64_lim / 4).
Definition sane_policy (p : RetentionPolicy) : bool :=
  opt_all sane_secs (dedup_window_secs p) && opt_all sane_secs (max_age_secs p).

Section Engine.
Context `{!Sled, !SledLaws, !SledReliable, !Bincode, !BincodeLaws,
          !Environment, !EnvironmentLaws, !BuildProfile}.
Implicit Types w : World.

(** ** Arithmetic *)

Lemma arith_u64_ok z : 0 <= z < u64_lim -> arith_u64 z = Some z.
Proof.
  intros Hz. unfold arith_u64, checked, is_u64.
  by rewrite (proj2 (Z.leb_le _ _)), (proj2 (Z.ltb_lt _ _)) by lia.
Qed.

Lemma arith_i64_ok z : - i64_lim <= z < i64_lim -> arith_i64 z = Some z.
Proof.
  intros Hz. unfold arith_i64, checked, is_i64.
  by rewrite (proj2 (Z.leb_le _ _)), (proj2 (Z.ltb_lt _ _)) by lia.
Qed.

Lemma arith_u32_ok z : 0 <= z < u32_lim -> arith_u32 z = Some z.
Proof.
  intros Hz. unfold arith_u32, checked, is_u32.
  by rewrite (proj2 (Z.leb_le _ _)), (proj2 (Z.ltb_lt _ _)) by lia.
Qed.

Lemma sane_secs_ms s :
  sane_secs s = true -> as_i64 s = s /\ arith_i64 (s * 1000) = Some (s * 1000) /\ 0 <= s * 1000 < i64_lim / 4.
Proof.
  unfold sane_secs. change (i64_lim / 4) with 2305843009213693952.
  rewrite andb_true_iff, Z.leb_le, Z.ltb_lt. intros Hs.
  split; [apply as_i64_id; lia|]. split; [apply arith_i64_ok; lia|lia].
Qed.

(** ** Shared checks *)

Lemma wp_require_queue q (R : Outcome PelicanError unit -> World -> Prop) w :
  (declared (store w) q = true -> R (Done tt) w) ->
  (declared (store w) q = false -> R (Fail (QueueNotFound q)) w) ->
  wp (require_queue q) R w.
Proof.
  intros Hyes Hno. unfold require_queue, declared in *. wps.
  destruct (bool_decide _); cbn; wps; auto.
Qed.

Lemma wp_get_policy q (R : Outcome PelicanError RetentionPolicy -> World -> Prop) w :
  R (Done (policy (store w) q)) w -> wp (get_policy q) R w.
Proof. intros HR. unfold get_policy. wps. exact HR. Qed.

(** Every operation on an undeclared queue reports it and changes nothing. *)
Definition rejects {A} (op : QM A) q w : Prop := op w = (Fail (QueueNotFound q), w).

Lemma require_queue_rejects {A} q (k : unit -> QM A) w :
  declared (store w) q = false -> rejects (bind (require_queue q) k) q w.
Proof.
  intros Hd. unfold rejects, bind.
  enough (require_queue q w = (Fail (QueueNotFound q), w)) as -> by done.
  assert (wp (require_queue q) (fun o w' => o = Fail (QueueNotFound q) /\ w' = w) w) as [Hyes Hno].
  { apply wp_require_queue; [congruence|auto]. }
  destruct (require_queue q w); cbn in *. by subst.
Qed.

(** ** Declaring *)

Definition declare_store (name : string) (pb : bytes) (c : store_t) : store_t :=
  c_insert META_RETENTION_TREE (str_bytes name) pb (c_insert META_QUEUES_TREE (str_bytes name) [] c).

Lemma wp_declare name p (R : Outcome PelicanError unit -> World -> Prop) w :
  wf_policy p = true ->
  (declared (store w) name = true -> R (Fail (QueueAlreadyExists name)) w) ->
  (forall w' pb, declared (store w) name = false -> ser_pol p = Ok pb ->
     store w' = declare_store name pb (store w) -> idgen w' = idgen w ->
     current_bytes (qm w') = current_bytes (qm w) -> max_bytes (qm w') = max_bytes (qm w) ->
     R (Done tt) w') ->
  wp (declare_queue_with_retention name p) R w.
Proof.
  intros Hp Hyes Hno. unfold declare_queue_with_retention, declared in *. wps.
  destruct (bool_decide _); wps; [auto|].
  destruct (ser_pol_total p Hp) as [pb Hpb]. rewrite Hpb. unfold serialization_err. wps.
  eapply Hno; eauto; by wsimp.
Qed.

(** ** Publishing *)

(** The record of a deduplication key at time [now]. *)
Definition record_store (q : string) (m : Message) (p : RetentionPolicy) (now : Z) (c : store_t) : store_t :=
  match dedup_window_secs p, dedup_key m with
  | Some _, Some key => c_insert (dedup_tree_name q) (str_bytes key) (be_bytes 8 (as_u64 now)) c
  | _, _ => c
  end.

(** The time recorded for the message's key, when the queue deduplicates. *)
Definition recorded_ms (q : string) (m : Message) (p : RetentionPolicy) (c : store_t) : option Z :=
  match dedup_window_secs p, dedup_key m with
  | Some s, Some key =>
    if 0 <? s then
      r ← o_get (str_bytes key) (look c (dedup_tree_name q)); r8 ← slice 0 8 r;
      Some (as_i64 (from_be r8))
    else None
  | _, _ => None
  end.

Definition window_ms (p : RetentionPolicy) : Z :=
  match dedup_window_secs p with Some s => s * 1000 | None => 0 end.

(** A duplicate at time [now]. *)
Definition duplicate_at (q : string) (m : Message) (p : RetentionPolicy) (c : store_t) (now : Z) : bool :=
  match recorded_ms q m p c with
  | Some t => now - window_ms p <? t
  | None => false
  end.

Definition dedup_values (c : store_t) (q : string) : Prop :=
  Forall (fun kv => (8 <= length kv.2)%nat) (look c (dedup_tree_name q)).

Lemma wp_is_duplicate q m p (R : Outcome PelicanError bool -> World -> Prop) w :
  sane_policy p = true -> dedup_values (store w) q ->
  (forall w' now, clock_value now ->
     store w' = store w -> idgen w' = idgen w ->
     current_bytes (qm w') = current_bytes (qm w) -> max_bytes (qm w') = max_bytes (qm w) ->
     R (Done (duplicate_at q m p (store w) now)) w') ->
  wp (is_duplicate q m p) R w.
Proof.
  intros Hsane Hdv HR. unfold is_duplicate, duplicate_at, recorded_ms, window_ms in *.
  apply andb_true_iff in Hsane as [Hsane _].
  destruct clock_value_some as [t0 Ht0].
  destruct (dedup_window_secs p) as [s|]; [|wps; by apply (HR w t0)].
  destruct (0 <? s); [|wps; destruct (dedup_key m); by apply (HR w t0)].
  destruct (dedup_key m) as [key|]; [|wps; by apply (HR w t0)].
  wps. destruct (o_get _ _) as [r|] eqn:Er; cbn.
  2: { wps. by apply (HR (set_db d w) t0). }
  apply o_get_Some_elem in Er. unfold dedup_values in Hdv. rewrite Forall_forall in Hdv.
  apply Hdv in Er; cbn in Er.
  assert (slice 0 8 r = Some (take 8 (drop 0 r))) as Hsl by (unfold slice; by rewrite bool_decide_true by lia).
  rewrite Hsl. cbn in HR. rewrite Hsl in HR.
  destruct (sane_secs_ms s Hsane) as (-> & -> & Hs). cbn in *. wps.
  change (i64_lim / 4) with 2305843009213693952 in *.
  rewrite arith_i64_ok by lia. cbn. wps. apply HR; auto.
Qed.

(** A time just recorded for the key of the message makes it a duplicate. *)
Lemma recorded_duplicate q m m2 k s p now now2 c c' :
  dedup_window_secs p = Some s -> 0 < s -> dedup_key m = Some k -> dedup_key m2 = Some k ->
  clock_value now -> now2 - now < s * 1000 ->
  look c' (dedup_tree_name q) = look (record_store q m p now c) (dedup_tree_name q) ->
  duplicate_at q m2 p c' now2 = true.
Proof.
  intros Hwin Hpos Hk Hk2 Hcv Hlt Hl. apply clock_value_range in Hcv.
  assert (i64_lim / 4 < i64_lim) as Hlim by done.
  unfold record_store in Hl. rewrite Hwin, Hk, look_c_insert in Hl.
  unfold duplicate_at, recorded_ms, window_ms. rewrite Hwin, Hk2, Hl, o_get_insert.
  rewrite (proj2 (Z.ltb_lt 0 s)) by done. cbn [mbind option_bind]. rewrite be8_fits. cbn [mbind option_bind].
  unfold as_u64. rewrite Z.mod_small, from_be_8, as_i64_id by lia. apply Z.ltb_lt. lia.
Qed.

(** The percentage reported with a storage-limit error. *)
Definition used_pct_of (cur max : Z) : Z := if 0 <? max then as_u8 (cur * 100 / max) else 100.

Definition over_limit (lim : option Z) (n : Z) : bool :=
  match lim with Some max => max <? n | None => false end.

Lemma wp_check_limit len (R : Outcome PelicanError unit -> World -> Prop) w :
  0 <= len -> 0 <= current_bytes (qm w) ->
  current_bytes (qm w) * 100 < u64_lim -> current_bytes (qm w) + len < u64_lim ->
  (over_limit (max_bytes (qm w)) (current_bytes (qm w) + len) = false -> R (Done tt) w) ->
  (forall max, max_bytes (qm w) = Some max -> max < current_bytes (qm w) + len ->
     R (Fail (StorageLimitExceeded (used_pct_of (current_bytes (qm w)) max) 100)) w) ->
  wp (check_limit len) R w.
Proof.
  intros Hl Hc Hb Hsum Hyes Hno. unfold check_limit, over_limit, used_pct_of in *. wps.
  destruct (max_bytes (qm w)) as [max|] eqn:Em; [|wps; auto].
  rewrite arith_u64_ok by lia. cbn. wps.
  destruct (max <? _) eqn:E; [|wps; auto]. apply Z.ltb_lt in E. wps.
  specialize (Hno max eq_refl E).
  destruct (0 <? max); wps; [|done]. rewrite arith_u64_ok by lia. cbn. by wps.
Qed.

Lemma wp_add_bytes len (R : Outcome PelicanError unit -> World -> Prop) w :
  0 <= current_bytes (qm w) + len < u64_lim ->
  R (Done tt) (set_bytes (current_bytes (qm w) + len) w) -> wp (add_bytes len) R w.
Proof.
  intros Hl HR. unfold add_bytes. wps. rewrite arith_u64_ok by lia. cbn. by wps.
Qed.

Lemma wp_record_dedup q m p (R : Outcome PelicanError unit -> World -> Prop) w :
  (forall w' now, clock_value now ->
     store w' = record_store q m p now (store w) -> idgen w' = idgen w ->
     current_bytes (qm w') = current_bytes (qm w) -> max_bytes (qm w') = max_bytes (qm w) ->
     R (Done tt) w') ->
  wp (record_dedup_key q m p) R w.
Proof.
  intros HR. unfold record_dedup_key, record_store in *.
  destruct clock_value_some as [t0 Ht0].
  destruct (dedup_window_secs p); [|wps; by apply (HR w t0)].
  destruct (dedup_key m); wps; [|by apply (HR w t0)].
  eapply HR; eauto; by wsimp.
Qed.

Lemma wp_future_delivery m (R : Outcome PelicanError (option Z) -> World -> Prop) w :
  (forall w' now, clock_value now ->
     store w' = store w -> idgen w' = idgen w ->
     current_bytes (qm w') = current_bytes (qm w) -> max_bytes (qm w') = max_bytes (qm w) ->
     R (Done (t ← deliver_at m; if now <? t then Some t else None)) w') ->
  wp (future_delivery m) R w.
Proof.
  intros HR. unfold future_delivery. destruct clock_value_some as [t0 Ht0].
  destruct (deliver_at m) as [t|]; wps; [|by apply (HR w t0)]. by apply HR.
Qed.

(** Nothing observable changed. *)
Definition unchanged w w' : Prop :=
  store w' = store w /\ idgen w' = idgen w /\
  current_bytes (qm w') = current_bytes (qm w) /\ max_bytes (qm w') = max_bytes (qm w).

(** The delivery time when it lies after [now]. *)
Definition future_at (m : Message) (now : Z) : option Z :=
  t ← deliver_at m; if now <? t then Some t else None.

(** The contents after storing [m], serialized as [v], under id [i]. *)
Definition publish_store (q : string) (m : Message) (p : RetentionPolicy) (future : option Z)
    (v : bytes) (i now : Z) (c : store_t) : store_t :=
  record_store q m p now
    match future with
    | Some t => c_insert (scheduled_tree_name q) (encode_scheduled_key t i) v c
    | None => c_insert q (encode_key (priority m) i) v c
    end.

Lemma wp_publish q m (R : Outcome PelicanError PublishOutcome -> World -> Prop) w v :
  stores m v ->
  sane_policy (policy (store w) q) = true -> dedup_values (store w) q ->
  0 <= current_bytes (qm w) -> current_bytes (qm w) * 100 < u64_lim ->
  current_bytes (qm w) + Z.of_nat (length v) < u64_lim ->
  (declared (store w) q = false -> R (Fail (QueueNotFound q)) w) ->
  (forall w' now, declared (store w) q = true -> clock_value now ->
     duplicate_at q m (policy (store w) q) (store w) now = true ->
     unchanged w w' -> R (Done Deduplicated) w') ->
  (forall w' now max, declared (store w) q = true -> clock_value now ->
     duplicate_at q m (policy (store w) q) (store w) now = false ->
     max_bytes (qm w) = Some max -> max < current_bytes (qm w) + Z.of_nat (length v) ->
     unchanged w w' ->
     R (Fail (StorageLimitExceeded (used_pct_of (current_bytes (qm w)) max) 100)) w') ->
  (forall w' now now' now'' i, declared (store w) q = true ->
     clock_value now -> clock_value now' -> clock_value now'' ->
     duplicate_at q m (policy (store w) q) (store w) now = false ->
     over_limit (max_bytes (qm w)) (current_bytes (qm w) + Z.of_nat (length v)) = false ->
     0 <= i -> idgen w <= i < idgen w' ->
     store w' = publish_store q m (policy (store w) q) (future_at m now') v i now'' (store w) ->
     current_bytes (qm w') = current_bytes (qm w) + Z.of_nat (length v) ->
     max_bytes (qm w') = max_bytes (qm w) ->
     R (Done (Stored (Message.id m))) w') ->
  wp (publish q m) R w.
Proof.
  intros [Hw Hv] Hsane Hdv Hc0 Hc1 Hc2 Hnf Hdup Hlim Hst. unfold publish. wp_step.
  apply wp_require_queue; [intros Hd|auto]. wp_step. apply wp_get_policy. wp_step.
  apply wp_is_duplicate; [done..|]. intros w1 now Hnow S1 G1 B1 M1.
  destruct (duplicate_at _ _ _ _ now) eqn:Edup; [wps; apply (Hdup w1 now); unfold unchanged; auto|].
  rewrite Hv. unfold serialization_err. wp_step. wp_step. wp_step.
  apply wp_check_limit; rewrite ?B1, ?M1; try (done || lia).
  2: { intros max Hm Hlt. apply (Hlim w1 now max); unfold unchanged; auto. }
  intros Hover. wp_step. wp_step. wp_step.
  apply wp_future_delivery. wsimp. intros w2 now' Hnow' S2 G2 B2 M2. fold (future_at m now').
  destruct (future_at m now') as [t|] eqn:Ef.
  all: wps; apply wp_add_bytes; wsimp; rewrite ?B2, ?B1; [lia|].
  all: wps; apply wp_record_dedup; wsimp; intros w3 now'' Hnow'' S3 G3 B3 M3; wps.
  all: eapply (Hst w3 now now' now'' i); eauto; try congruence.
  all: try (rewrite G3; wsimp; rewrite ?G2; wsimp; lia).
  all: rewrite S3; unfold publish_store; rewrite Ef; wsimp; by rewrite ?S2, ?S1.
Qed.

(** ** Consuming *)

(** The contents after delivering the entry [(k, v)] under tag [i]. *)
Definition consume_store (q : string) (k v : bytes) (i : Z) (c : store_t) : store_t :=
  c_insert (inflight_tree_name q) (be_bytes 8 i) v (c_remove q k c).

Lemma commit_consume q k v t idb c :
  look c q = (k, v) :: t ->
  commit_ctx (consume_tx q k idb) c = (TOk v, c_insert (inflight_tree_name q) idb v (c_remove q k c)).
Proof. intros Hl. unfold commit_ctx, consume_tx. cbn. rewrite Hl. cbn. by rewrite bool_decide_true. Qed.

(** One iteration of the loop suffices: whatever the fuel, the first iteration returns. *)
Lemma wp_consume_loop n q (R : Outcome PelicanError (option (DeliveryTag * Message)) -> World -> Prop) w :
  (look (store w) q = [] -> R (Done None) w) ->
  (forall w' k v t i m, look (store w) q = (k, v) :: t -> k = encode_key (priority m) i ->
     stores m v -> 0 <= i < u64_lim ->
     store w' = consume_store q k v i (store w) -> idgen w' = idgen w ->
     current_bytes (qm w') = current_bytes (qm w) -> max_bytes (qm w') = max_bytes (qm w) ->
     R (Done (Some (mkTag i, m))) w') ->
  Forall (main_entry u64_lim) (look (store w) q) ->
  wp (consume_loop (S n) q) R w.
Proof.
  intros Hemp Hne Hall. cbn [consume_loop]. wps.
  destruct (look (store w) q) as [|[k v] t] eqn:El; cbn; [wps; auto|].
  apply Forall_cons_1 in Hall as [(i & m & Hk & Hs & Hi) _]. cbn in Hk, Hs. subst k.
  rewrite key_id_bytes_encode. cbn. wp_step. wp_step. wp_step.
  apply wp_transaction. intros d r Hc Hg. rewrite (commit_consume _ _ _ _ _ _ El) in Hc.
  injection Hc as <- Hc. rewrite (de_stores _ _ Hs). unfold serialization_err. wps.
  rewrite from_be_8 by lia. eapply Hne; eauto; by wsimp.
Qed.

(** The extra fuel is never used: the transaction of the first iteration finds the key. *)
Lemma consume_loop_first n q w :
  Forall (main_entry u64_lim) (look (store w) q) ->
  consume_loop (S n) q w = consume_loop 1 q w /\
  exists r w', consume_loop (S n) q w = (Done r, w').
Proof.
  intros Hall. split.
  - cbn [consume_loop]. unfold bind, iter_tree, gets. rewrite !iter_ok.
    change (contents (view (db (qm w)))) with (store w).
    destruct (look (store w) q) as [|[k v] t] eqn:El; cbn [map first_key]; [done|].
    apply Forall_cons_1 in Hall as [(i & m & Hk & Hs & Hi) _]. cbn in Hk. subst k.
    rewrite key_id_bytes_encode. cbn [or_panic]. unfold ret.
    assert (wp (run_transaction (consume_tx q (encode_key (priority m) i) (be_bytes 8 i)))
      (fun o _ => o = Done (TOk v)) w) as Ht.
    { apply wp_transaction. intros d r Hc _. rewrite (commit_consume _ _ _ _ _ _ El) in Hc.
      injection Hc as <- _. done. }
    unfold wp in Ht. destruct (run_transaction _ w) as [o w']. cbn in Ht. by subst.
  - assert (wp (consume_loop (S n) q) (returns (fun _ _ => True)) w) as Hr.
    { apply wp_consume_loop; auto; done. }
    apply wp_done in Hr as (r & w' & Hr & _). eauto.
Qed.

Lemma wp_consume q (R : Outcome PelicanError (option (DeliveryTag * Message)) -> World -> Prop) w :
  (declared (store w) q = false -> R (Fail (QueueNotFound q)) w) ->
  (forall w', declared (store w) q = true -> look (store w) q = [] -> unchanged w w' -> R (Done None) w') ->
  (forall w' k v t i m, declared (store w) q = true ->
     look (store w) q = (k, v) :: t -> k = encode_key (priority m) i ->
     stores m v -> 0 <= i < u64_lim ->
     store w' = consume_store q k v i (store w) -> idgen w' = idgen w ->
     current_bytes (qm w') = current_bytes (qm w) -> max_bytes (qm w') = max_bytes (qm w) ->
     R (Done (Some (mkTag i, m))) w') ->
  (declared (store w) q = true -> Forall (main_entry u64_lim) (look (store w) q)) ->
  wp (consume q) R w.
Proof.
  intros Hnf Hemp Hne Hall. unfold consume. wp_step.
  apply wp_require_queue; [intros Hd|auto]. wps.
  apply wp_consume_loop; wsimp; [intros Hl|intros w' k v t i m Hl Hk Hs Hi HS HG HB HM|auto].
  - apply Hemp; auto. unfold unchanged. by wsimp.
  - eapply Hne; eauto.
Qed.

(** ** Acknowledging *)

Lemma store_put_look t w : put t (look (store w) t) (store w) = store w.
Proof. unfold store at 1 2. rewrite look_contents, <- contents_set. apply contents_open. Qed.

Lemma c_remove_absent t k w :
  o_get k (look (store w) t) = None -> c_remove t k (store w) = store w.
Proof. intros Hk. unfold c_remove. rewrite o_remove_absent by done. apply store_put_look. Qed.

Lemma wp_ack q tag (R : Outcome PelicanError unit -> World -> Prop) w :
  (declared (store w) q = false -> R (Fail (QueueNotFound q)) w) ->
  (forall w', declared (store w) q = true ->
     o_get (be_bytes 8 (tag_u64 tag)) (look (store w) (inflight_tree_name q)) = None ->
     unchanged w w' -> R (Fail (InvalidDeliveryTag tag)) w') ->
  (forall w' v, declared (store w) q = true ->
     o_get (be_bytes 8 (tag_u64 tag)) (look (store w) (inflight_tree_name q)) = Some v ->
     store w' = c_remove (inflight_tree_name q) (be_bytes 8 (tag_u64 tag)) (store w) ->
     idgen w' = idgen w ->
     current_bytes (qm w') = saturating_sub (current_bytes (qm w)) (Z.of_nat (length v)) ->
     max_bytes (qm w') = max_bytes (qm w) -> R (Done tt) w') ->
  wp (ack q tag) R w.
Proof.
  intros Hnf Hbad Hok. unfold ack. wp_step. apply wp_require_queue; [intros Hd|auto]. wps.
  destruct (o_get _ _) as [v|] eqn:E; wps.
  - eapply Hok; eauto; by wsimp.
  - apply Hbad; auto. unfold unchanged. wsimp. by rewrite c_remove_absent.
Qed.

(** The contents after [v], in flight under [tag], is filed again as [v'] under [i]. *)
Definition nack_store (q : string) (max : option Z) (tag i : Z) (m' : Message) (v' : bytes) (c : store_t) : store_t :=
  c_insert (if exhausted max (delivery_attempts m') then dlq_tree_name q else q)
    (encode_key (priority m') i) v'
    (c_remove (inflight_tree_name q) (be_bytes 8 tag) c).

Lemma stores_set_attempts m v n :
  stores m v -> 0 <= n < u32_lim ->
  exists v', stores (set_attempts n m) v' /\ length v' = length v.
Proof.
  intros [Hw Hs] Hn. pose proof (wf_set_attempts n m Hw Hn) as Hw'.
  destruct (ser_msg_total _ Hw') as [v' Hv']. exists v'. split; [done|]. by eapply ser_msg_fixed.
Qed.

Lemma commit_nack q tag i max c m v v' :
  o_get (be_bytes 8 tag) (look c (inflight_tree_name q)) = Some v -> stores m v ->
  delivery_attempts m + 1 < u32_lim ->
  ser_msg (set_attempts (delivery_attempts m + 1) m) = Ok v' ->
  commit_ctx (nack_tx q (be_bytes 8 tag) i max) c =
    (TOk tt, nack_store q max tag i (set_attempts (delivery_attempts m + 1) m) v' c).
Proof.
  intros Hg Hs Ha Hv'. unfold commit_ctx, nack_tx, nack_store. cbn. rewrite Hg.
  rewrite (de_stores _ _ Hs). destruct Hs as [Hw _]. apply wf_message_fields in Hw.
  rewrite arith_u32_ok by lia. cbn. rewrite Hv'. unfold exhausted.
  destruct max as [mx|]; [|done]. by destruct ((0 <? mx) && _).
Qed.

Lemma wp_nack q tag (R : Outcome PelicanError unit -> World -> Prop) w :
  (declared (store w) q = false -> R (Fail (QueueNotFound q)) w) ->
  (forall w', declared (store w) q = true ->
     o_get (be_bytes 8 (tag_u64 tag)) (look (store w) (inflight_tree_name q)) = None ->
     store w' = store w -> idgen w < idgen w' ->
     current_bytes (qm w') = current_bytes (qm w) -> max_bytes (qm w') = max_bytes (qm w) ->
     R (Fail (InvalidDeliveryTag tag)) w') ->
  (forall w' m v v' i, declared (store w) q = true ->
     o_get (be_bytes 8 (tag_u64 tag)) (look (store w) (inflight_tree_name q)) = Some v ->
     stores m v -> stores (set_attempts (delivery_attempts m + 1) m) v' -> length v' = length v ->
     0 <= i -> idgen w <= i < idgen w' ->
     store w' = nack_store q (max_delivery_attempts (policy (store w) q)) (tag_u64 tag) i
                  (set_attempts (delivery_attempts m + 1) m) v' (store w) ->
     current_bytes (qm w') = current_bytes (qm w) -> max_bytes (qm w') = max_bytes (qm w) ->
     R (Done tt) w') ->
  (declared (store w) q = true -> forall v,
     o_get (be_bytes 8 (tag_u64 tag)) (look (store w) (inflight_tree_name q)) = Some v ->
     exists m, stores m v /\ delivery_attempts m + 1 < u32_lim) ->
  wp (nack q tag) R w.
Proof.
  intros Hnf Hbad Hok Hwf. unfold nack. wp_step. apply wp_require_queue; [intros Hd|auto].
  wp_step. apply wp_get_policy. wps. apply wp_transaction. wsimp. intros d3 r Hc3 Hg3.
  specialize (Hwf Hd). destruct (o_get _ _) as [v|] eqn:E.
  - destruct (Hwf v eq_refl) as (m & Hs & Ha).
    destruct (stores_set_attempts m v (delivery_attempts m + 1) Hs) as (v' & Hs' & Hl).
    { pose proof (proj1 Hs) as Hw. apply wf_message_fields in Hw. lia. }
    rewrite (commit_nack _ _ _ _ _ m v v' E Hs Ha (proj2 Hs')) in Hc3. injection Hc3 as <- Hc3.
    wps. eapply (Hok _ m v v' i); eauto; wsimp; auto.
  - unfold commit_ctx, nack_tx in Hc3. cbn in Hc3. rewrite E in Hc3. injection Hc3 as <- Hc3.
    wps. apply Hbad; auto; wsimp; auto; lia.
Qed.

(** ** Counters *)

Lemma wp_tree_count q t (R : Outcome PelicanError nat -> World -> Prop) w :
  (declared (store w) q = false -> R (Fail (QueueNotFound q)) w) ->
  (forall w', declared (store w) q = true -> unchanged w w' ->
     R (Done (length (look (store w) t))) w') ->
  wp (tree_count q t) R w.
Proof.
  intros Hnf Hok. unfold tree_count. wp_step. apply wp_require_queue; [intros Hd|auto].
  wps. apply Hok; auto. unfold unchanged. by wsimp.
Qed.
End Engine.
