(* ===== verification/Invariant.v ===== *)
(** * Invariant: well-formed stores

    The representation invariant of the engine's database: which entries each
    tree of a declared queue may hold, and that a delivery tag never denotes two
    messages.  Every elementary update preserves it. *)

From Stdlib Require Import ZArith Lia.
From stdpp Require Import prelude gmap strings.
From S2P Require Import Prelude Bytes OrdMap Sled Message Bincode Keys QueueManager Store Spec.
From S2P Require Import Engine.

(** ** The trees of a queue by slot *)

Definition slot (c : store_t) (s : Slot) (q : string) : tree := look c (slot_tree s q).
Definition s_insert (s : Slot) (q : string) (k x : bytes) (c : store_t) : store_t :=
  c_insert (slot_tree s q) k x c.
Definition s_remove (s : Slot) (q : string) (k : bytes) (c : store_t) : store_t :=
  c_remove (slot_tree s q) k c.

Lemma slot_insert_eq s q k x c : slot (s_insert s q k x c) s q = o_insert k x (slot c s q).
Proof. apply look_c_insert. Qed.
Lemma slot_remove_eq s q k c : slot (s_remove s q k c) s q = o_remove k (slot c s q).
Proof. apply look_c_remove. Qed.

Lemma slot_insert_ne s q s' q' k x c :
  safe_name q = true -> safe_name q' = true -> (s' <> s \/ q' <> q) ->
  slot (s_insert s q k x c) s' q' = slot c s' q'.
Proof. intros Hq Hq' Hne. apply look_c_insert_ne. by apply slot_tree_ne. Qed.
Lemma slot_remove_ne s q s' q' k c :
  safe_name q = true -> safe_name q' = true -> (s' <> s \/ q' <> q) ->
  slot (s_remove s q k c) s' q' = slot c s' q'.
Proof. intros Hq Hq' Hne. apply look_c_remove_ne. by apply slot_tree_ne. Qed.

(** Lookups of other slots and other queues ignore an update. *)
Ltac slots :=
  repeat first
    [ rewrite slot_insert_eq | rewrite slot_remove_eq
    | rewrite slot_insert_ne by first [done | left; discriminate | right; congruence]
    | rewrite slot_remove_ne by first [done | left; discriminate | right; congruence] ].

Lemma look_meta_insert t s q k x c :
  safe_name q = true -> t = META_QUEUES_TREE \/ t = META_RETENTION_TREE ->
  look (s_insert s q k x c) t = look c t.
Proof.
  intros Hq Ht. apply look_c_insert_ne. destruct (slot_tree_meta s q Hq). destruct Ht; congruence.
Qed.
Lemma look_meta_remove t s q k c :
  safe_name q = true -> t = META_QUEUES_TREE \/ t = META_RETENTION_TREE ->
  look (s_remove s q k c) t = look c t.
Proof.
  intros Hq Ht. apply look_c_remove_ne. destruct (slot_tree_meta s q Hq). destruct Ht; congruence.
Qed.

Section Invariant.
Context `{!Bincode, !BincodeLaws}.
Implicit Types c : store_t.

Definition main_ids (t : tree) : list Z := map fst (omap dec_main t).
Definition tag_ids (t : tree) : list Z := map fst (omap dec_tag t).

(** The trees of one queue, when ids below [n] have been issued. *)
Record QInv c (n : Z) (q : string) : Prop := {
  qi_main : Forall (main_entry n) (slot c Main q);
  qi_tag : Forall (tag_entry n) (slot c Inflight q);
  qi_dlq : Forall (main_entry n) (slot c Dlq q);
  qi_sched : Forall (sched_entry n) (slot c Scheduled q);
  qi_dedup : Forall (fun kv => (8 <= length kv.2)%nat) (slot c Dedup q);
  (** a tag in flight is not the id of a ready message, and ids are unique *)
  qi_ids : NoDup (main_ids (slot c Main q) ++ tag_ids (slot c Inflight q));
}.

Record Inv c (n : Z) : Prop := {
  inv_sorted : c_sorted c;
  inv_gen : 0 <= n;
  inv_meta : Forall (fun kv => exists q, kv.1 = str_bytes q /\ safe_name q = true)
               (look c META_QUEUES_TREE);
  inv_queue : forall q, declared c q = true -> QInv c n q;
}.

Lemma inv_safe c n q : Inv c n -> declared c q = true -> safe_name q = true.
Proof.
  intros HI Hd. unfold declared in Hd. apply bool_decide_eq_true in Hd as [v Hv].
  apply o_get_Some_elem in Hv. pose proof (inv_meta _ _ HI) as Hm. rewrite Forall_forall in Hm.
  destruct (Hm _ Hv) as (q' & Hq & Hs). cbn in Hq. by apply str_bytes_inj in Hq as ->.
Qed.

Lemma declared_s_insert s q k x c q' :
  safe_name q = true -> declared (s_insert s q k x c) q' = declared c q'.
Proof. intros Hq. unfold declared. rewrite look_meta_insert by auto. done. Qed.
Lemma declared_s_remove s q k c q' :
  safe_name q = true -> declared (s_remove s q k c) q' = declared c q'.
Proof. intros Hq. unfold declared. rewrite look_meta_remove by auto. done. Qed.

(** ** Growing the id bound, and framing *)

Lemma main_entry_mono n n' kv : n <= n' -> main_entry n kv -> main_entry n' kv.
Proof. intros Hn (i & m & ? & ? & ?). exists i, m. split_and!; auto; lia. Qed.
Lemma tag_entry_mono n n' kv : n <= n' -> tag_entry n kv -> tag_entry n' kv.
Proof. intros Hn (i & m & ? & ? & ?). exists i, m. split_and!; auto; lia. Qed.
Lemma sched_entry_mono n n' kv : n <= n' -> sched_entry n kv -> sched_entry n' kv.
Proof. intros Hn (t & i & m & ? & ? & ? & ? & ?). exists t, i, m. split_and!; auto; lia. Qed.

Lemma QInv_mono c n n' q : n <= n' -> QInv c n q -> QInv c n' q.
Proof.
  intros Hn [Hm Ht Hd Hs Hdd Hids]. split; auto.
  - eapply Forall_impl; [exact Hm|]. intros; by eapply main_entry_mono.
  - eapply Forall_impl; [exact Ht|]. intros; by eapply tag_entry_mono.
  - eapply Forall_impl; [exact Hd|]. intros; by eapply main_entry_mono.
  - eapply Forall_impl; [exact Hs|]. intros; by eapply sched_entry_mono.
Qed.

Lemma QInv_ext c c' n q : (forall s, slot c' s q = slot c s q) -> QInv c n q -> QInv c' n q.
Proof. intros Heq [Hm Ht Hd Hs Hdd Hids]. split; rewrite !Heq; auto. Qed.

(** ** Updates of one queue *)

Lemma main_ids_lt n t i :
  n <= u64_lim -> Forall (main_entry n) t -> i ∈ main_ids t -> 0 <= i < n.
Proof.
  intros Hn Ht. unfold main_ids. induction Ht as [|kv t Hkv Ht IH]; cbn; [by intros ?%elem_of_nil|].
  destruct (main_entry_dec n kv Hn Hkv) as (j & m & -> & _ & _ & Hj). cbn.
  intros [->|Hin]%elem_of_cons; auto.
Qed.

Lemma tag_ids_lt n t i :
  n <= u64_lim -> Forall (tag_entry n) t -> i ∈ tag_ids t -> 0 <= i < n.
Proof.
  intros Hn Ht. unfold tag_ids. induction Ht as [|kv t Hkv Ht IH]; cbn; [by intros ?%elem_of_nil|].
  destruct (tag_entry_dec n kv Hn Hkv) as (j & m & -> & _ & _ & Hj). cbn.
  intros [->|Hin]%elem_of_cons; auto.
Qed.

#[global] Instance main_ids_perm : Proper (Permutation ==> Permutation) main_ids.
Proof. intros t t' Ht. unfold main_ids. by rewrite Ht. Qed.
#[global] Instance tag_ids_perm : Proper (Permutation ==> Permutation) tag_ids.
Proof. intros t t' Ht. unfold tag_ids. by rewrite Ht. Qed.

(** A key built from a fresh id is new to the tree. *)
Lemma main_key_fresh n t p i :
  Forall (main_entry n) t -> n <= i < u64_lim -> 0 <= i -> o_get (encode_key p i) t = None.
Proof.
  intros Ht Hi Hi0. apply o_get_None_elem. unfold keys. rewrite list_elem_of_fmap.
  intros ([k v] & Hk & Hin). rewrite Forall_forall in Ht. destruct (Ht _ Hin) as (j & m & Hk' & _ & Hj).
  cbn in *. subst k. apply encode_key_id_inj in Hk'; lia.
Qed.

Lemma sched_key_fresh n t d i :
  Forall (sched_entry n) t -> n <= i < u64_lim -> 0 <= i ->
  o_get (encode_scheduled_key d i) t = None.
Proof.
  intros Ht Hi Hi0. apply o_get_None_elem. unfold keys. rewrite list_elem_of_fmap.
  intros ([k v] & Hk & Hin). rewrite Forall_forall in Ht.
  destruct (Ht _ Hin) as (d' & j & m & Hk' & _ & Hj & _). cbn in *. subst k.
  unfold encode_scheduled_key in Hk'. apply app_inj_1 in Hk' as [_ Hb];
    [|by rewrite !be_bytes_length]. apply be8_inj in Hb; lia.
Qed.

Lemma main_ids_insert n t m v i :
  Forall (main_entry n) t -> stores m v -> n <= i < u64_lim -> 0 <= i ->
  main_ids (o_insert (encode_key (priority m) i) v t) ≡ₚ i :: main_ids t.
Proof.
  intros Ht Hs Hi Hi0. rewrite o_insert_perm by (by eapply main_key_fresh).
  unfold main_ids. cbn. rewrite dec_main_encode by (auto; lia). done.
Qed.

Ltac qinv_grow Hn := split; slots;
  try (eapply Forall_impl; [eassumption|]; intros; by eapply main_entry_mono);
  try (eapply Forall_impl; [eassumption|]; intros; by eapply tag_entry_mono);
  try (eapply Forall_impl; [eassumption|]; intros; by eapply sched_entry_mono); auto.

Lemma QInv_insert_main c n n' q m v i :
  QInv c n q -> safe_name q = true -> stores m v -> 0 <= i -> n <= i < n' -> n' <= u64_lim ->
  QInv (s_insert Main q (encode_key (priority m) i) v c) n' q.
Proof.
  intros HQ Hq Hs Hi0 Hi Hn. assert (n <= n') as Hle by lia.
  pose proof (QInv_mono _ _ _ _ Hle HQ) as [Hm Ht Hd Hsc Hdd Hids]. split; slots; auto.
  - apply Forall_o_insert; [|done]. exists i, m. split_and!; auto; lia.
  - destruct HQ as [Hm0 Ht0 _ _ _ _]. rewrite (main_ids_insert n) by (auto; lia). cbn.
    constructor; [|done]. rewrite elem_of_app. intros [Hin|Hin].
    + apply (main_ids_lt n) in Hin; auto; lia.
    + apply (tag_ids_lt n) in Hin; auto; lia.
Qed.

Lemma QInv_insert_dlq c n n' q m v i :
  QInv c n q -> safe_name q = true -> stores m v -> 0 <= i -> n <= i < n' -> n' <= u64_lim ->
  QInv (s_insert Dlq q (encode_key (priority m) i) v c) n' q.
Proof.
  intros HQ Hq Hs Hi0 Hi Hn. assert (n <= n') as Hle by lia.
  pose proof (QInv_mono _ _ _ _ Hle HQ) as [Hm Ht Hd Hsc Hdd Hids]. split; slots; auto.
  apply Forall_o_insert; [|done]. exists i, m. split_and!; auto; lia.
Qed.

Lemma QInv_insert_sched c n n' q m v d i :
  QInv c n q -> safe_name q = true -> stores m v -> 0 <= i -> n <= i < n' -> n' <= u64_lim ->
  0 <= d < i64_lim -> deliver_at m = Some d ->
  QInv (s_insert Scheduled q (encode_scheduled_key d i) v c) n' q.
Proof.
  intros HQ Hq Hs Hi0 Hi Hn Hd' Hat. assert (n <= n') as Hle by lia.
  pose proof (QInv_mono _ _ _ _ Hle HQ) as [Hm Ht Hd Hsc Hdd Hids]. split; slots; auto.
  apply Forall_o_insert; [|done]. exists d, i, m. split_and!; auto; lia.
Qed.

Lemma QInv_insert_dedup c n q k x :
  QInv c n q -> safe_name q = true -> (8 <= length x)%nat -> QInv (s_insert Dedup q k x c) n q.
Proof.
  intros [Hm Ht Hd Hsc Hdd Hids] Hq Hx. split; slots; auto. by apply Forall_o_insert.
Qed.

Lemma main_ids_remove_sub t k : main_ids (o_remove k t) `sublist_of` main_ids t.
Proof.
  unfold main_ids. induction t as [|[k' v'] t IH]; cbn; [done|].
  case_bool_decide; cbn; [destruct (dec_main _); cbn; [by apply sublist_cons|done]|].
  destruct (dec_main _); cbn; [by apply sublist_skip|done].
Qed.
Lemma tag_ids_remove_sub t k : tag_ids (o_remove k t) `sublist_of` tag_ids t.
Proof.
  unfold tag_ids. induction t as [|[k' v'] t IH]; cbn; [done|].
  case_bool_decide; cbn; [destruct (dec_tag _); cbn; [by apply sublist_cons|done]|].
  destruct (dec_tag _); cbn; [by apply sublist_skip|done].
Qed.

Lemma QInv_remove c n q s k :
  QInv c n q -> safe_name q = true -> QInv (s_remove s q k c) n q.
Proof.
  intros [Hm Ht Hd Hsc Hdd Hids] Hq.
  destruct s; split; slots; auto using Forall_o_remove;
    (eapply sublist_NoDup; [exact Hids|]);
    auto using sublist_app, main_ids_remove_sub, tag_ids_remove_sub.
Qed.

(** Delivering the first ready entry. *)
Lemma QInv_consume c n q m v i t :
  QInv c n q -> safe_name q = true -> n <= u64_lim -> c_sorted c ->
  slot c Main q = (encode_key (priority m) i, v) :: t -> stores m v -> 0 <= i < u64_lim ->
  QInv (s_insert Inflight q (be_bytes 8 i) v (s_remove Main q (encode_key (priority m) i) c)) n q.
Proof.
  intros [Hm Ht Hd Hsc Hdd Hids] Hq Hn Hso Hl Hs Hi. rewrite Hl in Hm, Hids.
  assert (i < n) as Hin.
  { apply Forall_cons_1 in Hm as [(j & m' & Hk & _ & Hj) _]. cbn in Hk.
    apply encode_key_id_inj in Hk; lia. }
  unfold main_ids in Hids. cbn in Hids. rewrite dec_main_encode in Hids by done. cbn in Hids.
  apply NoDup_cons in Hids as [Hni Hids]. rewrite elem_of_app in Hni.
  split; slots; rewrite ?Hl, ?o_remove_head; auto.
  - by apply Forall_cons_1 in Hm as [_ ?].
  - apply Forall_o_insert; [|done]. exists i, m. split_and!; auto; lia.
  - rewrite o_insert_perm.
    + unfold tag_ids. cbn. rewrite (dec_tag_encode m) by done. cbn.
      rewrite <- Permutation_middle. constructor; [rewrite elem_of_app; tauto|done].
    + apply o_get_None_elem. unfold keys. rewrite list_elem_of_fmap. intros ([k x] & Hk & Hin').
      cbn in Hk. subst k. apply Hni. right. unfold tag_ids. rewrite list_elem_of_fmap.
      rewrite Forall_forall in Ht. pose proof (Ht _ Hin') as He.
      destruct (tag_entry_dec n _ Hn He) as (j & m' & Hdec & Hj & _ & Hjn). cbn in Hj.
      apply be8_inj in Hj as <-; [|lia..]. exists (i, m'). split; [done|].
      rewrite list_elem_of_omap. eauto.
Qed.
End Invariant.
