(* ===== verification/Refinement.v ===== *)
(** * Refinement: the engine implements the abstract queue

    Each operation of [QueueManager], run on a well-formed store, returns what
    the abstract queue of [Spec] prescribes, leaves a store that represents the
    abstract result, keeps the invariant, and does not touch other queues. *)

From Stdlib Require Import ZArith Lia.
From stdpp Require Import prelude gmap strings.
From S2P Require Import Prelude Bytes OrdMap Sled Message Bincode Keys QueueManager Store Spec.
From S2P Require Import Engine Invariant.

(** ** Locality *)

(** [c'] differs from [c] only in the trees of queue [q]. *)
Record Local (q : string) (c c' : store_t) : Prop := {
  loc_meta : forall t, t = META_QUEUES_TREE \/ t = META_RETENTION_TREE -> look c' t = look c t;
  loc_slot : forall s q', safe_name q' = true -> q' <> q -> slot c' s q' = slot c s q';
  loc_sorted : c_sorted c -> c_sorted c';
}.

Lemma Local_refl q c : Local q c c.
Proof. by split. Qed.

Lemma Local_trans q c1 c2 c3 : Local q c1 c2 -> Local q c2 c3 -> Local q c1 c3.
Proof.
  intros [Hm1 Hs1 Ho1] [Hm2 Hs2 Ho2]. split; auto.
  - intros t Ht. rewrite Hm2; auto.
  - intros s q' Hq Hne. rewrite Hs2; auto.
Qed.

Lemma Local_insert s q k x c : safe_name q = true -> Local q c (s_insert s q k x c).
Proof.
  intros Hq. split.
  - intros t Ht. by apply look_meta_insert.
  - intros s' q' Hq' Hne. by slots.
  - unfold s_insert. auto with ord.
Qed.

Lemma Local_remove s q k c : safe_name q = true -> Local q c (s_remove s q k c).
Proof.
  intros Hq. split.
  - intros t Ht. by apply look_meta_remove.
  - intros s' q' Hq' Hne. by slots.
  - unfold s_remove. auto with ord.
Qed.

Lemma Local_declared q c c' q' : Local q c c' -> declared c' q' = declared c q'.
Proof. intros HL. unfold declared. rewrite (loc_meta _ _ _ HL); auto. Qed.

Create HintDb pelican.
#[export] Hint Resolve Local_refl Local_insert Local_remove : pelican.

Section Refinement.
Context `{!Sled, !SledLaws, !SledReliable, !Bincode, !BincodeLaws,
          !Environment, !EnvironmentLaws, !BuildProfile}.
Implicit Types w : World.

Lemma Local_policy q c c' q' : Local q c c' -> policy c' q' = policy c q'.
Proof. intros HL. unfold policy. rewrite (loc_meta _ _ _ HL); auto. Qed.

(** A local update keeps the invariant when the queue's own trees are well formed. *)
Lemma Inv_local q c c' n n' :
  Inv c n -> Local q c c' -> n <= n' -> QInv c' n' q -> Inv c' n'.
Proof.
  intros HI HL Hn HQ. pose proof HI as [Hs Hg Hm Hq]. split; [by apply HL|lia| |].
  - rewrite (loc_meta _ _ _ HL) by auto. done.
  - intros q' Hd. rewrite (Local_declared _ _ _ _ HL) in Hd.
    destruct (decide (q' = q)) as [->|Hne]; [done|].
    apply QInv_mono with n; [done|]. apply QInv_ext with c; [|auto].
    intros s. apply (loc_slot _ _ _ HL); [|done]. by eapply inv_safe.
Qed.

Lemma abs_ext c c' q : (forall s, slot c' s q = slot c s q) -> abs c' q = abs c q.
Proof.
  intros Heq. unfold abs, ready, inflight, dead, sched.
  pose proof (Heq Main) as E1. pose proof (Heq Inflight) as E2. pose proof (Heq Dlq) as E3.
  pose proof (Heq Scheduled) as E4. unfold slot in *. cbn in *. congruence.
Qed.

Lemma abs_local q c c' n q' :
  Inv c n -> Local q c c' -> q' <> q -> declared c q' = true -> abs c' q' = abs c q'.
Proof.
  intros HI HL Hne Hd. apply abs_ext. intros s. apply (loc_slot _ _ _ HL); [|done].
  by eapply inv_safe.
Qed.

(** ** Abstract effect of the elementary updates *)

Lemma abs_slots c q :
  abs c q = mkAQ (omap dec_main (slot c Main q)) (list_to_map (omap dec_tag (slot c Inflight q)))
              (omap dec_main (slot c Dlq q)) (omap dec_sched (slot c Scheduled q)).
Proof. done. Qed.

Lemma abs_insert_main c n q m v i :
  QInv c n q -> safe_name q = true -> stores m v -> 0 <= i -> n <= i < u64_lim ->
  abs (s_insert Main q (encode_key (priority m) i) v c) q = a_publish (i, m) (abs c q).
Proof.
  intros HQ Hq Hs Hi0 Hi. rewrite !abs_slots. slots. unfold a_publish. cbn [a_ready a_inflight a_dead a_sched].
  f_equal. eapply omap_main_insert; eauto. apply HQ.
Qed.

Lemma abs_insert_sched c n q m v d i :
  QInv c n q -> safe_name q = true -> stores m v -> 0 <= i -> n <= i < u64_lim -> 0 <= d < i64_lim ->
  abs (s_insert Scheduled q (encode_scheduled_key d i) v c) q = a_schedule (d, (i, m)) (abs c q).
Proof.
  intros HQ Hq Hs Hi0 Hi Hd. rewrite !abs_slots. slots. unfold a_schedule. cbn [a_ready a_inflight a_dead a_sched].
  f_equal. eapply omap_sched_insert; eauto. apply HQ.
Qed.

Lemma abs_insert_dedup c q k x :
  safe_name q = true -> abs (s_insert Dedup q k x c) q = abs c q.
Proof. intros Hq. rewrite !abs_slots. by slots. Qed.

Lemma abs_consume c n q m v i t :
  QInv c n q -> safe_name q = true -> n <= u64_lim ->
  slot c Main q = (encode_key (priority m) i, v) :: t -> stores m v -> 0 <= i < u64_lim ->
  a_consume (abs c q) = (Some (i, m),
    abs (s_insert Inflight q (be_bytes 8 i) v (s_remove Main q (encode_key (priority m) i) c)) q).
Proof.
  intros HQ Hq Hn Hl Hs Hi. rewrite !abs_slots. slots. rewrite Hl, o_remove_head.
  unfold a_consume. cbn [a_ready a_inflight a_dead a_sched omap list_omap].
  rewrite dec_main_encode by done. f_equal. f_equal. cbn [fst snd].
  symmetry. eapply infl_insert; eauto. apply HQ.
Qed.

Lemma abs_remove_tag c n q i :
  QInv c n q -> safe_name q = true -> n <= u64_lim -> c_sorted c -> 0 <= i < u64_lim ->
  abs (s_remove Inflight q (be_bytes 8 i) c) q = a_ack i (abs c q).
Proof.
  intros HQ Hq Hn Hso Hi. rewrite !abs_slots. slots. unfold a_ack. cbn [a_ready a_inflight a_dead a_sched].
  f_equal. eapply infl_remove; eauto; first [apply HQ|apply Hso].
Qed.

Lemma abs_insert_dlq c n q m v i :
  QInv c n q -> safe_name q = true -> stores m v -> 0 <= i -> n <= i < u64_lim ->
  abs (s_insert Dlq q (encode_key (priority m) i) v c) q =
  mkAQ (a_ready (abs c q)) (a_inflight (abs c q)) (enqueue (i, m) (a_dead (abs c q))) (a_sched (abs c q)).
Proof.
  intros HQ Hq Hs Hi0 Hi. rewrite !abs_slots. slots. cbn [a_ready a_inflight a_dead a_sched].
  f_equal. eapply omap_main_insert; eauto. apply HQ.
Qed.

Lemma inflight_lookup c n q i :
  QInv c n q -> n <= u64_lim -> 0 <= i < u64_lim ->
  a_inflight (abs c q) !! i = (v ← o_get (be_bytes 8 i) (slot c Inflight q); result_opt (de_msg v)).
Proof. intros HQ Hn Hi. apply (infl_lookup n); auto. apply HQ. Qed.

(** ** Publishing *)

Lemma record_store_local q m p now c : safe_name q = true -> Local q c (record_store q m p now c).
Proof.
  intros Hq. unfold record_store. destruct (dedup_window_secs p), (dedup_key m); auto with pelican.
  by apply (Local_insert Dedup).
Qed.

Lemma record_store_abs q m p now c : safe_name q = true -> abs (record_store q m p now c) q = abs c q.
Proof.
  intros Hq. unfold record_store. destruct (dedup_window_secs p), (dedup_key m); auto.
  by apply abs_insert_dedup.
Qed.

Lemma record_store_QInv q m p now c n :
  safe_name q = true -> QInv c n q -> QInv (record_store q m p now c) n q.
Proof.
  intros Hq HQ. unfold record_store. destruct (dedup_window_secs p), (dedup_key m); auto.
  by apply QInv_insert_dedup; [..|rewrite be_bytes_length].
Qed.

(** The abstract effect of storing a message. *)
Definition a_store (future : option Z) (i : Z) (m : Message) (a : AQueue) : AQueue :=
  match future with
  | Some t => a_schedule (t, (i, m)) a
  | None => a_publish (i, m) a
  end.

Lemma future_at_range m now t :
  wf_message m = true -> 0 <= now -> future_at m now = Some t -> 0 <= t < i64_lim.
Proof.
  intros Hw Hn. unfold future_at. destruct (deliver_at m) as [t'|] eqn:E; cbn; [|done].
  destruct (now <? t') eqn:El; [|done]. intros [= <-]. apply Z.ltb_lt in El.
  apply wf_message_fields in Hw. rewrite E in Hw. cbn in Hw. unfold is_i64 in Hw. lia.
Qed.

Lemma publish_store_spec q m p fut v i now c n n' :
  Inv c n -> declared c q = true -> stores m v -> 0 <= i -> n <= i < n' -> n' <= u64_lim ->
  opt_all (fun t => (0 <=? t) && (t <? i64_lim)) fut = true -> (fut = None \/ fut = deliver_at m) ->
  let c' := publish_store q m p fut v i now c in
  Local q c c' /\ QInv c' n' q /\ abs c' q = a_store fut i m (abs c q).
Proof.
  intros HI Hd Hs Hi0 Hi Hn Hf Hat. cbn. pose proof (inv_safe _ _ _ HI Hd) as Hq.
  pose proof (inv_queue _ _ HI _ Hd) as HQ. unfold publish_store.
  destruct fut as [t|]; cbn in Hf.
  - change (c_insert (scheduled_tree_name q) ?k ?x c) with (s_insert Scheduled q k x c).
    apply andb_true_iff in Hf. rewrite Z.leb_le, Z.ltb_lt in Hf. split_and!.
    + eapply Local_trans; [by apply Local_insert|by apply record_store_local].
    + apply record_store_QInv; auto. destruct Hat as [|Hat]; [done|]. by eapply QInv_insert_sched.
    + rewrite record_store_abs by done. eapply abs_insert_sched; eauto; lia.
  - change (c_insert q ?k ?x c) with (s_insert Main q k x c). split_and!.
    + eapply Local_trans; [by apply Local_insert|by apply record_store_local].
    + apply record_store_QInv; auto. by eapply QInv_insert_main.
    + rewrite record_store_abs by done. eapply abs_insert_main; eauto; lia.
Qed.

(** Storing a message updates the deduplication index by its own record only. *)
Lemma publish_store_dedup q m p fut v i now c :
  safe_name q = true ->
  slot (publish_store q m p fut v i now c) Dedup q = slot (record_store q m p now c) Dedup q.
Proof.
  intros Hq. unfold publish_store, record_store.
  assert (slot (match fut with
    | Some t => c_insert (scheduled_tree_name q) (encode_scheduled_key t i) v c
    | None => c_insert q (encode_key (priority m) i) v c end) Dedup q = slot c Dedup q) as Heq.
  { destruct fut; [apply (slot_insert_ne Scheduled)|apply (slot_insert_ne Main)]; auto. }
  destruct (dedup_window_secs p), (dedup_key m); auto.
  change (c_insert (dedup_tree_name q) ?k ?x ?c') with (s_insert Dedup q k x c').
  rewrite !slot_insert_eq. by rewrite Heq.
Qed.

(** ** Simulation *)

(** [w'] is well formed, represents [a'] for queue [q], and agrees with [w] on
    every other queue, on the declared queues and on the policies. *)
Record Effect (q : string) w w' (a' : AQueue) : Prop := {
  eff_inv : Inv (store w') (idgen w');
  eff_abs : abs (store w') q = a';
  eff_others : forall q', q' <> q -> declared (store w) q' = true ->
    abs (store w') q' = abs (store w) q';
  eff_declared : forall q', declared (store w') q' = declared (store w) q';
  eff_policy : forall q', policy (store w') q' = policy (store w) q';
  (** also the trees of queues not declared yet are untouched *)
  eff_local : Local q (store w) (store w');
}.

Lemma Effect_local q w w' a' :
  Inv (store w) (idgen w) -> Local q (store w) (store w') -> idgen w <= idgen w' ->
  QInv (store w') (idgen w') q -> abs (store w') q = a' -> Effect q w w' a'.
Proof.
  intros HI HL Hn HQ Ha. split; auto.
  - by apply Inv_local with q (store w) (idgen w).
  - intros q' Hne Hd. by eapply abs_local.
  - intros q'. by eapply Local_declared.
  - intros q'. by eapply Local_policy.
Qed.

Lemma Inv_mono c n n' : n <= n' -> Inv c n -> Inv c n'.
Proof.
  intros Hn [Hs Hg Hm Hq]. split; auto; [lia|]. intros q Hd. eapply QInv_mono; eauto.
Qed.

Lemma Effect_unchanged q w w' :
  Inv (store w) (idgen w) -> store w' = store w -> idgen w <= idgen w' ->
  Effect q w w' (abs (store w) q).
Proof. intros HI HS HG. split; rewrite ?HS; auto with pelican. by eapply Inv_mono. Qed.

(** The byte counter leaves room for [n] more bytes. *)
Definition room w (n : Z) : Prop :=
  0 <= current_bytes (qm w) /\ current_bytes (qm w) * 100 < u64_lim /\
  current_bytes (qm w) + n < u64_lim.

Lemma dedup_values_inv c n q : Inv c n -> declared c q = true -> dedup_values c q.
Proof. intros HI Hd. exact (qi_dedup _ _ _ (inv_queue _ _ HI _ Hd)). Qed.

(** What a call of [publish] on a declared queue may do. *)
Definition publish_post q m (v : bytes) w (o : Outcome PelicanError PublishOutcome) w' : Prop :=
  let p := policy (store w) q in
  let n := current_bytes (qm w) + Z.of_nat (length v) in
  max_bytes (qm w') = max_bytes (qm w) /\ idgen w <= idgen w' /\
  match o with
  | Done (Stored u) =>
    u = Message.id m /\ over_limit (max_bytes (qm w)) n = false /\ current_bytes (qm w') = n /\
    (exists now, clock_value now /\ duplicate_at q m p (store w) now = false) /\
    (exists now, clock_value now /\ slot (store w') Dedup q =
       slot (record_store q m p now (store w)) Dedup q) /\
    (idgen w' <= u64_lim -> exists i now, idgen w <= i < idgen w' /\ clock_value now /\
       Effect q w w' (a_store (future_at m now) i m (abs (store w) q)))
  | Done Deduplicated =>
    (exists now, clock_value now /\ duplicate_at q m p (store w) now = true) /\
    store w' = store w /\ current_bytes (qm w') = current_bytes (qm w)
  | Fail (StorageLimitExceeded pct lim) =>
    (exists max, max_bytes (qm w) = Some max /\ max < n /\
       pct = used_pct_of (current_bytes (qm w)) max /\ lim = 100) /\
    (exists now, clock_value now /\ duplicate_at q m p (store w) now = false) /\
    store w' = store w /\ current_bytes (qm w') = current_bytes (qm w)
  | _ => False
  end.

Lemma publish_sim q m v w :
  Inv (store w) (idgen w) -> declared (store w) q = true -> stores m v ->
  sane_policy (policy (store w) q) = true -> room w (Z.of_nat (length v)) ->
  wp (publish q m) (publish_post q m v w) w.
Proof.
  intros HI Hd Hs Hsane (Hr0 & Hr1 & Hr2).
  apply wp_publish with v; auto; try congruence; [by eapply dedup_values_inv|..].
  - intros w' now _ Hnow Hdup (HS & HG & HB & HM). split_and!; eauto. lia.
  - intros w' now max _ Hnow Hdup Hmax Hlt (HS & HG & HB & HM). split_and!; eauto. lia.
  - intros w' now now' now'' i _ Hnow Hnow' Hnow'' Hdup Hov Hi0 Hi HS HB HM.
    split_and!; eauto; [lia|exists now''; split; [done|rewrite HS; apply publish_store_dedup; by eapply inv_safe]|].
    intros Hn. exists i, now'. split_and!; [lia..|done|].
    pose proof (publish_store_spec q m (policy (store w) q) (future_at m now') v i now''
      (store w) (idgen w) (idgen w') HI Hd Hs Hi0 Hi Hn) as Hspec. cbn in Hspec. rewrite <- HS in Hspec.
    destruct Hspec as (HL & HQ & Ha).
    { destruct (future_at m now') as [t|] eqn:E; cbn; [|done].
      apply clock_value_range in Hnow'. apply future_at_range in E; [|apply Hs|lia].
      by rewrite (proj2 (Z.leb_le _ _)), (proj2 (Z.ltb_lt _ _)) by lia. }
    { unfold future_at. destruct (deliver_at m); cbn; [destruct (_ <? _)|]; auto. }
    apply Effect_local; auto. lia.
Qed.

(** What a call of [consume] on a declared queue does. *)
Definition consume_post q w (o : Outcome PelicanError (option (DeliveryTag * Message))) w' : Prop :=
  idgen w' = idgen w /\ current_bytes (qm w') = current_bytes (qm w) /\
  max_bytes (qm w') = max_bytes (qm w) /\
  o = Done ((fun e => (mkTag e.1, e.2)) <$> (a_consume (abs (store w) q)).1) /\
  Effect q w w' (a_consume (abs (store w) q)).2.

Lemma main_entries_u64 c n q :
  Inv c n -> n <= u64_lim -> declared c q = true -> Forall (main_entry u64_lim) (look c q).
Proof.
  intros HI Hn Hd. eapply Forall_impl; [exact (qi_main _ _ _ (inv_queue _ _ HI _ Hd))|].
  intros kv. by apply main_entry_mono.
Qed.

Lemma consume_sim q w :
  Inv (store w) (idgen w) -> declared (store w) q = true -> idgen w <= u64_lim ->
  wp (consume q) (consume_post q w) w.
Proof.
  intros HI Hd Hn. pose proof (inv_safe _ _ _ HI Hd) as Hq. pose proof (inv_queue _ _ HI _ Hd) as HQ.
  apply wp_consume; [congruence| | |intros _; by eapply main_entries_u64].
  - intros w' _ Hl (HS & HG & HB & HM).
    assert (a_consume (abs (store w) q) = (None, abs (store w) q)) as Ha.
    { unfold a_consume, abs, ready. cbn. by rewrite Hl. }
    unfold consume_post. rewrite Ha. split_and!; auto. apply Effect_unchanged; auto. lia.
  - intros w' k v t i m _ Hl -> Hs Hi HS HG HB HM.
    pose proof (abs_consume _ _ _ m v i t HQ Hq Hn Hl Hs Hi) as Ha.
    unfold consume_post. rewrite Ha. split_and!; auto. cbn [fst snd].
    change (consume_store q (encode_key (priority m) i) v i (store w)) with
      (s_insert Inflight q (be_bytes 8 i) v (s_remove Main q (encode_key (priority m) i) (store w))) in HS.
    apply Effect_local; rewrite ?HS, ?HG; auto; try lia.
    + eapply Local_trans; [by apply Local_remove|by apply Local_insert].
    + eapply QInv_consume; eauto. apply HI.
Qed.

Definition ack_post q tag w (o : Outcome PelicanError unit) w' : Prop :=
  let a := abs (store w) q in
  max_bytes (qm w') = max_bytes (qm w) /\ idgen w' = idgen w /\
  match a_inflight a !! tag_u64 tag with
  | Some m => o = Done tt /\ Effect q w w' (a_ack (tag_u64 tag) a) /\
      (forall v, stores m v ->
        current_bytes (qm w') = saturating_sub (current_bytes (qm w)) (Z.of_nat (length v)))
  | None => o = Fail (InvalidDeliveryTag tag) /\ store w' = store w /\
      current_bytes (qm w') = current_bytes (qm w)
  end.

Lemma inflight_get c n q i :
  Inv c n -> declared c q = true -> n <= u64_lim -> 0 <= i < u64_lim ->
  match o_get (be_bytes 8 i) (look c (inflight_tree_name q)) with
  | Some v => exists m, stores m v /\ a_inflight (abs c q) !! i = Some m
  | None => a_inflight (abs c q) !! i = None
  end.
Proof.
  intros HI Hd Hn Hi. pose proof (inv_queue _ _ HI _ Hd) as HQ.
  rewrite (inflight_lookup _ _ _ _ HQ Hn Hi). unfold slot. cbn [slot_tree].
  destruct (o_get _ _) as [v|] eqn:E; [|done]. apply o_get_Some_elem in E.
  pose proof (qi_tag _ _ _ HQ) as Ht. rewrite Forall_forall in Ht.
  destruct (Ht _ E) as (j & m & _ & Hs & _). cbn in Hs. exists m. split; [done|]. cbn.
  by rewrite (de_stores _ _ Hs).
Qed.

Lemma ack_sim q tag w :
  Inv (store w) (idgen w) -> declared (store w) q = true -> idgen w <= u64_lim ->
  0 <= tag_u64 tag < u64_lim ->
  wp (ack q tag) (ack_post q tag w) w.
Proof.
  intros HI Hd Hn Ht. pose proof (inv_safe _ _ _ HI Hd) as Hq. pose proof (inv_queue _ _ HI _ Hd) as HQ.
  pose proof (inflight_get _ _ _ _ HI Hd Hn Ht) as Hg. unfold ack_post.
  apply wp_ack; [congruence| |].
  - intros w' _ E (HS & HG & HB & HM). rewrite E in Hg. rewrite Hg. auto.
  - intros w' v _ E HS HG HB HM. rewrite E in Hg. destruct Hg as (m & Hs & ->).
    change (c_remove (inflight_tree_name q) ?k (store w)) with (s_remove Inflight q k (store w)) in HS.
    split_and!; auto.
    + apply Effect_local; rewrite ?HS, ?HG; auto with pelican; try lia.
      * by apply QInv_remove.
      * eapply abs_remove_tag; eauto. apply HI.
    + intros v' Hs'. destruct Hs as [_ Hs], Hs' as [_ Hs']. congruence.
Qed.

Definition nack_post q tag w (o : Outcome PelicanError unit) w' : Prop :=
  let a := abs (store w) q in
  current_bytes (qm w') = current_bytes (qm w) /\ max_bytes (qm w') = max_bytes (qm w) /\
  idgen w < idgen w' /\
  match a_inflight a !! tag_u64 tag with
  | Some m => o = Done tt /\ (idgen w' <= u64_lim -> exists i, idgen w <= i < idgen w' /\
      Effect q w w' (a_nack (max_delivery_attempts (policy (store w) q)) (tag_u64 tag) i m a))
  | None => o = Fail (InvalidDeliveryTag tag) /\ store w' = store w
  end.

Lemma nack_sim q tag w :
  Inv (store w) (idgen w) -> declared (store w) q = true -> idgen w <= u64_lim ->
  0 <= tag_u64 tag < u64_lim ->
  (forall m, a_inflight (abs (store w) q) !! tag_u64 tag = Some m -> delivery_attempts m + 1 < u32_lim) ->
  wp (nack q tag) (nack_post q tag w) w.
Proof.
  intros HI Hd Hn Ht Hatt. pose proof (inv_safe _ _ _ HI Hd) as Hq.
  pose proof (inv_queue _ _ HI _ Hd) as HQ.
  pose proof (inflight_get _ _ _ _ HI Hd Hn Ht) as Hg. unfold nack_post.
  apply wp_nack; [congruence| | |].
  - intros w' _ E HS HG HB HM. rewrite E in Hg. rewrite Hg. auto.
  - intros w' m v v' i _ E Hs Hs' Hl Hi0 Hi HS HB HM. rewrite E in Hg. destruct Hg as (m0 & Hs0 & ->).
    assert (m0 = m) as ->.
    { pose proof (de_stores _ _ Hs). pose proof (de_stores _ _ Hs0). congruence. }
    split_and!; auto; [lia|]. intros Hn'. exists i. split; [lia|].
    pose proof (QInv_remove _ _ _ Inflight (be_bytes 8 (tag_u64 tag)) HQ Hq) as HQ'.
    pose proof (abs_remove_tag _ _ _ _ HQ Hq Hn (inv_sorted _ _ HI) Ht) as Ha.
    unfold nack_store in HS. unfold a_nack.
    set (m' := set_attempts (delivery_attempts m + 1) m) in *.
    change (c_remove (inflight_tree_name q) ?k (store w)) with (s_remove Inflight q k (store w)) in HS.
    change (priority m) with (priority m') in HS.
    destruct (exhausted _ _).
    + change (c_insert (dlq_tree_name q) ?k ?x ?c) with (s_insert Dlq q k x c) in HS.
      apply Effect_local; rewrite ?HS; auto with pelican; try lia.
      * eapply Local_trans; [by apply Local_remove|by apply Local_insert].
      * eapply QInv_insert_dlq; eauto.
      * erewrite abs_insert_dlq; eauto; [by rewrite Ha|lia].
    + change (c_insert q ?k ?x ?c) with (s_insert Main q k x c) in HS.
      apply Effect_local; rewrite ?HS; auto with pelican; try lia.
      * eapply Local_trans; [by apply Local_remove|by apply Local_insert].
      * eapply QInv_insert_main; eauto.
      * erewrite abs_insert_main; eauto; [by rewrite Ha|lia].
  - intros _ v E. rewrite E in Hg. destruct Hg as (m & Hs & Hm). eauto.
Qed.
End Refinement.
