(* ===== verification/Maintenance.v ===== *)
(** * Maintenance: declaring, promoting, recovering, accounting and retention

    The operations of [QueueManager] that loop over trees or over queues:
    [list_queues], [recalculate_bytes], [promote_scheduled], [recover_inflight]
    with [open], and [apply_retention]. *)

From Stdlib Require Import ZArith Lia.
From stdpp Require Import prelude gmap strings.
From S2P Require Import Prelude Bytes OrdMap Sled Message Bincode Keys QueueManager Store Spec.
From S2P Require Import Engine Invariant Refinement.

(** The declared names, in the order [list_queues] gives them. *)
Definition queue_names (c : store_t) : list string :=
  omap (fun kv => from_utf8 kv.1) (look c META_QUEUES_TREE).

(** The bytes of all messages of a queue, and of its deduplication index. *)
Definition queue_bytes (c : store_t) (q : string) : Z :=
  val_bytes (slot c Main q) + val_bytes (slot c Inflight q) + val_bytes (slot c Dlq q) +
  val_bytes (slot c Scheduled q).
Definition dedup_bytes (c : store_t) (q : string) : Z := val_bytes (slot c Dedup q).

Fixpoint sum_over {A} (f : A -> Z) (l : list A) : Z :=
  match l with [] => 0 | x :: l' => f x + sum_over f l' end.

Definition total_bytes (c : store_t) : Z :=
  sum_over (fun q => queue_bytes c q + dedup_bytes c q) (queue_names c).

Lemma sum_over_nonneg {A} (f : A -> Z) l : (forall x, 0 <= f x) -> 0 <= sum_over f l.
Proof. intros Hf. induction l as [|x l IH]; cbn; [lia|]. specialize (Hf x). lia. Qed.

Section Maintenance.
Context `{!Sled, !SledLaws, !SledReliable, !Bincode, !BincodeLaws,
          !Environment, !EnvironmentLaws, !BuildProfile}.
Implicit Types w : World.

(** ** Queue names *)

Lemma wp_list_queues (R : Outcome PelicanError (list string) -> World -> Prop) w :
  R (Done (queue_names (store w))) w -> wp list_queues R w.
Proof.
  intros HR. unfold list_queues. apply wp_gets. rewrite iter_ok.
  replace (omap item_name (map Ok (look (contents (view (db (qm w)))) META_QUEUES_TREE)))
    with (queue_names (store w)); [done|]. unfold queue_names, store.
  induction (look _ META_QUEUES_TREE) as [|[k v] t IH]; cbn; [done|]. by rewrite IH.
Qed.

Lemma queue_names_declared c n q :
  Inv c n -> q ∈ queue_names c <-> declared c q = true.
Proof.
  intros HI. unfold queue_names, declared. rewrite list_elem_of_omap, bool_decide_eq_true.
  pose proof (inv_meta _ _ HI) as Hm. rewrite Forall_forall in Hm.
  assert (forall q, safe_name q = true -> from_utf8 (str_bytes q) = Some q) as Hu.
  { intros q' Hs. apply from_utf8_str. apply safe_name_spec in Hs. tauto. }
  split.
  - intros ([k v] & Hin & Hk). destruct (Hm _ Hin) as (q' & Hq & Hs). cbn in *. subst k.
    rewrite Hu in Hk by done. injection Hk as ->.
    exists v. apply elem_o_get; [apply HI|done].
  - intros [v Hv]. apply o_get_Some_elem in Hv. exists (str_bytes q, v). split; [done|].
    destruct (Hm _ Hv) as (q' & Hq & Hs). cbn in *. apply str_bytes_inj in Hq as ->. auto.
Qed.

Lemma queue_names_NoDup c n : Inv c n -> NoDup (queue_names c).
Proof.
  intros HI. unfold queue_names. pose proof (inv_meta _ _ HI) as Hm.
  pose proof (o_sorted_NoDup _ (inv_sorted _ _ HI META_QUEUES_TREE)) as Hnd. revert Hm Hnd.
  induction (look c META_QUEUES_TREE) as [|[k v] t IH]; cbn; [constructor|].
  intros [(q & Hq & Hs) Hm]%Forall_cons_1 [Hni Hnd]%NoDup_cons. cbn in Hq. subst k.
  rewrite from_utf8_str by (apply safe_name_spec in Hs; tauto). constructor; [|auto].
  rewrite list_elem_of_omap. intros ([k v'] & Hin & Hk). apply Hni. unfold keys.
  rewrite list_elem_of_fmap. exists (k, v'). split; [|done]. cbn in *.
  rewrite Forall_forall in Hm. destruct (Hm _ Hin) as (q' & Hq' & Hs'). cbn in Hq'. subst k.
  rewrite from_utf8_str in Hk by (apply safe_name_spec in Hs'; tauto). by injection Hk as ->.
Qed.

Lemma queue_names_local q c c' : Local q c c' -> queue_names c' = queue_names c.
Proof. intros HL. unfold queue_names. rewrite (loc_meta _ _ _ HL); auto. Qed.

(** ** Byte accounting *)

Lemma wp_add_tree_bytes t total (R : Outcome PelicanError Z -> World -> Prop) w :
  0 <= total -> total + val_bytes (look (store w) t) < u64_lim ->
  (forall w', unchanged w w' -> R (Done (total + val_bytes (look (store w) t))) w') ->
  wp (add_tree_bytes t total) R w.
Proof.
  intros Ht Hlt HR. unfold add_tree_bytes. wps.
  assert (unchanged w (set_db d w)) as Hu by (unfold unchanged; by wsimp).
  set (w1 := set_db d w) in *. clearbody w1.
  apply wp_for_fold with (I := fun acc l w' =>
    w' = w1 /\ 0 <= acc /\ exists t', l = map Ok t' /\
    acc + val_bytes t' = total + val_bytes (look (store w) t)).
  - split_and!; eauto.
  - intros acc x l' w' (-> & Ha & [|[k v] t'] & Hl & Hsum); [done|]. cbn in Hl.
    injection Hl as -> ->. unfold storage_err. wps. cbn in Hsum. cbn [snd]. pose proof (val_bytes_nonneg t').
    rewrite arith_u64_ok by lia. cbn. wps. cbn. split_and!; [done|lia|]. exists t'. split; [done|lia].
  - intros acc w' (-> & Ha & [|] & Hl & Hsum); [|done]. cbn in Hsum.
    replace acc with (total + val_bytes (look (store w) t)) by lia. auto.
Qed.

Lemma unchanged_trans w1 w2 w3 : unchanged w1 w2 -> unchanged w2 w3 -> unchanged w1 w3.
Proof. unfold unchanged. intros (?&?&?&?) (?&?&?&?). split_and!; congruence. Qed.

Lemma wp_recalculate_bytes (R : Outcome PelicanError Z -> World -> Prop) w :
  total_bytes (store w) < u64_lim ->
  (forall w', unchanged w w' -> R (Done (total_bytes (store w))) w') ->
  wp recalculate_bytes R w.
Proof.
  intros Hlt HR. unfold recalculate_bytes. wp_step. apply wp_list_queues.
  set (f := fun q => queue_bytes (store w) q + dedup_bytes (store w) q).
  assert (forall q, 0 <= f q) as Hf.
  { intros q. unfold f, queue_bytes, dedup_bytes.
    pose proof (val_bytes_nonneg (slot (store w) Main q)). pose proof (val_bytes_nonneg (slot (store w) Inflight q)).
    pose proof (val_bytes_nonneg (slot (store w) Dlq q)). pose proof (val_bytes_nonneg (slot (store w) Scheduled q)).
    pose proof (val_bytes_nonneg (slot (store w) Dedup q)). lia. }
  apply wp_for_fold with (I := fun acc l w' =>
    unchanged w w' /\ 0 <= acc /\ acc + sum_over f l = total_bytes (store w)).
  - split_and!; [by unfold unchanged|lia|done].
  - intros acc q l' w' (Hu & Ha & Hsum). cbn in Hsum. pose proof (sum_over_nonneg f l' Hf).
    unfold f at 1, queue_bytes, dedup_bytes, slot in Hsum. cbn [slot_tree] in Hsum.
    pose proof (val_bytes_nonneg (look (store w) q)).
    pose proof (val_bytes_nonneg (look (store w) (inflight_tree_name q))).
    pose proof (val_bytes_nonneg (look (store w) (dlq_tree_name q))).
    pose proof (val_bytes_nonneg (look (store w) (scheduled_tree_name q))).
    pose proof (val_bytes_nonneg (look (store w) (dedup_tree_name q))).
    wp_step. apply wp_add_tree_bytes; rewrite ?(proj1 Hu); [lia..|]. intros w1 Hu1.
    pose proof (unchanged_trans _ _ _ Hu Hu1) as Hv1.
    wp_step. apply wp_add_tree_bytes; rewrite ?(proj1 Hv1); [lia..|]. intros w2 Hu2.
    pose proof (unchanged_trans _ _ _ Hv1 Hu2) as Hv2.
    wp_step. apply wp_add_tree_bytes; rewrite ?(proj1 Hv2); [lia..|]. intros w3 Hu3.
    pose proof (unchanged_trans _ _ _ Hv2 Hu3) as Hv3.
    wp_step. apply wp_add_tree_bytes; rewrite ?(proj1 Hv3); [lia..|]. intros w4 Hu4.
    pose proof (unchanged_trans _ _ _ Hv3 Hu4) as Hv4.
    apply wp_add_tree_bytes; rewrite ?(proj1 Hv4); [lia..|]. intros w5 Hu5.
    pose proof (unchanged_trans _ _ _ Hv4 Hu5) as Hv5. cbn. split_and!; [done|lia|lia].
  - intros acc w' (Hu & Ha & Hsum). cbn in Hsum. replace acc with (total_bytes (store w)) by lia. auto.
Qed.

(** ** Filing messages again under fresh ids *)

Definition refile (es : list entry) (l : list entry) : list entry := foldl (fun l e => enqueue e l) l es.

(** From [w0] to [w'], the messages [ms] were added to the ready messages of [q]
    one after the other under ids issued in between. *)
Definition Refiled q w0 w' (ms : list Message) : Prop :=
  idgen w0 <= idgen w' /\ Local q (store w0) (store w') /\
  current_bytes (qm w') = current_bytes (qm w0) /\ max_bytes (qm w') = max_bytes (qm w0) /\
  (idgen w' <= u64_lim -> QInv (store w') (idgen w') q /\
   exists ids, length ids = length ms /\ Forall (fun i => idgen w0 <= i < idgen w') ids /\
     ready (store w') q = refile (zip ids ms) (ready (store w0) q)).

Lemma Refiled_refl q w : QInv (store w) (idgen w) q -> Refiled q w w [].
Proof.
  intros HQ. split_and!; auto with pelican; [lia|]. intros _. split; [done|]. by exists [].
Qed.

Lemma Refiled_step q w0 w1 w2 c1 ms m v i :
  safe_name q = true -> Refiled q w0 w1 ms -> stores m v -> 0 <= i -> idgen w1 <= i < idgen w2 ->
  Local q (store w1) c1 -> (forall n, QInv (store w1) n q -> QInv c1 n q) ->
  slot c1 Main q = slot (store w1) Main q ->
  store w2 = s_insert Main q (encode_key (priority m) i) v c1 ->
  current_bytes (qm w2) = current_bytes (qm w1) -> max_bytes (qm w2) = max_bytes (qm w1) ->
  Refiled q w0 w2 (ms ++ [m]).
Proof.
  intros Hq (Hg & HL & HB & HM & Hab) Hs Hi0 Hi HL1 HQ1 Hm1 HS HB2 HM2.
  split_and!; [lia| |congruence..|].
  - rewrite HS. eapply Local_trans; [exact HL|]. eapply Local_trans; [exact HL1|by apply Local_insert].
  - intros Hn. destruct Hab as (HQ & ids & Hlen & Hids & Hr); [lia|]. rewrite HS. split.
    + eapply QInv_insert_main; eauto.
    + exists (ids ++ [i]). split_and!.
      * rewrite !length_app. cbn. lia.
      * apply Forall_app. split; [|apply Forall_singleton; lia].
        eapply Forall_impl; [exact Hids|]. intros j Hj. cbn in Hj. lia.
      * change (ready ?c q) with (omap dec_main (slot c Main q)). slots. rewrite Hm1.
        erewrite (omap_main_insert _ m v i); [|exact (qi_main _ _ _ HQ)|done..|lia].
        change (omap dec_main (slot (store w1) Main q)) with (ready (store w1) q). rewrite Hr.
        rewrite zip_with_app by done. unfold refile. by rewrite foldl_app.
Qed.

(** ** Scheduled messages *)

Fixpoint take_while {A} (f : A -> bool) (l : list A) : list A :=
  match l with [] => [] | x :: l' => if f x then x :: take_while f l' else [] end.

Definition due (now : Z) (e : sentry) : bool := e.1 <=? now.

Lemma wp_collect_due n now t (R : Outcome PelicanError (list (bytes * bytes)) -> World -> Prop) w :
  n <= u64_lim -> Forall (sched_entry n) t ->
  (forall l tl, t = l ++ tl -> omap dec_sched l = take_while (due now) (omap dec_sched t) ->
     R (Done l) w) ->
  wp (collect_due now (map Ok t)) R w.
Proof.
  intros Hn Ht. revert R. induction Ht as [|kv t Hkv Ht IH]; intros R HR; cbn [map collect_due].
  - wps. by apply (HR [] []).
  - destruct (sched_entry_dec n kv Hn Hkv) as (d & i & m & Hdec & Hk & Hs & Hi & Hd & _).
    unfold storage_err. wp_step. wp_step. rewrite Hk, key_prefix_scheduled. cbn. wp_step. wp_step.
    replace (as_i64 (as_u64 d)) with d by (unfold as_u64; rewrite Z.mod_small, as_i64_id by lia; done).
    destruct (now <? d) eqn:E.
    + apply Z.ltb_lt in E. wps. apply (HR [] (kv :: t)); [done|]. cbn. rewrite Hdec. cbn.
      unfold due at 1; cbn. by rewrite (proj2 (Z.leb_gt _ _)) by lia.
    + apply Z.ltb_ge in E. wp_step. apply IH. intros l tl Hl Hom. wps.
      apply (HR (kv :: l) tl); [by rewrite Hl|]. cbn. rewrite Hdec. cbn.
      unfold due at 1; cbn. rewrite (proj2 (Z.leb_le _ _)) by lia. by rewrite Hom.
Qed.

Definition smsg (e : sentry) : Message := e.2.2.

(** The messages in a list of raw entries. *)
Definition raw_msgs (l : list (bytes * bytes)) : list Message := omap (fun kv => result_opt (de_msg kv.2)) l.

Lemma raw_msgs_sched n l :
  n <= u64_lim -> Forall (sched_entry n) l -> raw_msgs l = map smsg (omap dec_sched l).
Proof.
  intros Hn. unfold raw_msgs. induction 1 as [|kv l Hkv Hl IH]; cbn; [done|].
  destruct (sched_entry_dec n kv Hn Hkv) as (d & i & m & Hdec & _ & Hs & _).
  rewrite Hdec, (de_stores _ _ Hs). cbn. by rewrite IH.
Qed.

Lemma commit_promote q k mk v c :
  commit_ctx (promote_tx q k mk v) c = (TOk tt, c_insert q mk v (c_remove (scheduled_tree_name q) k c)).
Proof. done. Qed.

Lemma wp_promote_loop q l tl w :
  safe_name q = true -> QInv (store w) (idgen w) q -> idgen w <= u64_lim ->
  slot (store w) Scheduled q = l ++ tl ->
  wp (for_fold l O (promote_entry q))
    (returns (fun k w' => k = length l /\ Refiled q w w' (raw_msgs l) /\
       (forall s, s <> Main -> s <> Scheduled -> slot (store w') s q = slot (store w) s q) /\
       slot (store w') Scheduled q = tl)) w.
Proof.
  intros Hq HQ Hn Hl.
  assert (Forall (sched_entry (idgen w)) l) as Hall.
  { pose proof (qi_sched _ _ _ HQ) as Hs. rewrite Hl in Hs. by apply Forall_app in Hs as [? _]. }
  apply wp_for_fold with (I := fun k l' w' => exists done_, l = done_ ++ l' /\ k = length done_ /\
    Refiled q w w' (raw_msgs done_) /\
    (forall s, s <> Main -> s <> Scheduled -> slot (store w') s q = slot (store w) s q) /\
    slot (store w') Scheduled q = l' ++ tl).
  - exists []. split_and!; auto. by apply Refiled_refl.
  - intros k [key v] l' w1 (dn & -> & -> & HR & Hfr & Hsl).
    apply Forall_app in Hall as [_ [Hkv _]%Forall_cons_1].
    destruct Hkv as (d & i & m & _ & Hs & _). cbn [snd] in Hs.
    unfold promote_entry. cbn [fst snd]. rewrite (de_stores _ _ Hs). unfold serialization_err.
    wp_step. wp_step. wp_step. wp_step. wp_step. apply wp_transaction. wsimp. intros d1 r Hc1 Hg1.
    rewrite commit_promote in Hc1. injection Hc1 as <- Hc1. wps. cbn.
    change (c_remove (scheduled_tree_name q) ?k ?c) with (s_remove Scheduled q k c) in Hc1.
    change (c_insert q ?k ?x ?c) with (s_insert Main q k x c) in Hc1.
    exists (dn ++ [(key, v)]). split_and!.
    + by rewrite <- app_assoc.
    + rewrite length_app. cbn. lia.
    + unfold raw_msgs. rewrite omap_app. cbn. rewrite (de_stores _ _ Hs). cbn.
      eapply Refiled_step with (w1 := w1) (c1 := s_remove Scheduled q key (store w1)); eauto;
        wsimp; auto with pelican.
      * intros n HQ1. by apply QInv_remove.
      * by slots.
    + intros s Hsm Hss. wsimp. rewrite <- Hc1. rewrite slot_insert_ne, slot_remove_ne by auto. auto.
    + wsimp. rewrite <- Hc1. slots. rewrite Hsl. cbn. by rewrite bool_decide_true.
  - intros k w' (dn & Hdn & -> & HR & Hfr & Hsl). rewrite app_nil_r in Hdn. subst dn.
    cbn. auto.
Qed.

(** The abstract queue after promoting the messages due at [now] under [ids]. *)
Definition a_promote (now : Z) (ids : list Z) (a : AQueue) : AQueue :=
  let l := take_while (due now) (a_sched a) in
  mkAQ (refile (zip ids (map smsg l)) (a_ready a)) (a_inflight a) (a_dead a)
    (drop (length l) (a_sched a)).

Definition promote_post q w (o : Outcome PelicanError nat) w' : Prop :=
  let a := abs (store w) q in
  current_bytes (qm w') = current_bytes (qm w) /\ max_bytes (qm w') = max_bytes (qm w) /\
  idgen w <= idgen w' /\
  exists now, clock_value now /\
  o = Done (length (take_while (due now) (a_sched a))) /\
  (idgen w' <= u64_lim -> exists ids, length ids = length (take_while (due now) (a_sched a)) /\
     Forall (fun i => idgen w <= i < idgen w') ids /\ Effect q w w' (a_promote now ids a)).

Lemma omap_sched_length n l :
  n <= u64_lim -> Forall (sched_entry n) l -> length (omap dec_sched l) = length l.
Proof.
  intros Hn. induction 1 as [|kv l Hkv Hl IH]; cbn; [done|].
  destruct (sched_entry_dec n kv Hn Hkv) as (d & i & m & -> & _). cbn. by rewrite IH.
Qed.

Lemma promote_sim q w :
  Inv (store w) (idgen w) -> declared (store w) q = true -> idgen w <= u64_lim ->
  wp (promote_scheduled q) (promote_post q w) w.
Proof.
  intros HI Hd Hn. pose proof (inv_safe _ _ _ HI Hd) as Hq. pose proof (inv_queue _ _ HI _ Hd) as HQ.
  unfold promote_scheduled. wp_step. apply wp_require_queue; [intros _|congruence].
  wps. apply wp_collect_due with (idgen w); [done|exact (qi_sched _ _ _ HQ)|]. intros l tl Hl Hom.
  set (w1 := set_env _ _). assert (unchanged w w1) as (HS1 & HG1 & HB1 & HM1)
    by (unfold unchanged, w1; by wsimp). clearbody w1.
  change (look (store w) (scheduled_tree_name q)) with (slot (store w) Scheduled q) in *.
  assert (Forall (sched_entry (idgen w)) l) as Hall.
  { pose proof (qi_sched _ _ _ HQ) as Hs. rewrite Hl in Hs. by apply Forall_app in Hs as [? _]. }
  eapply wp_mono; [apply (wp_promote_loop q l tl); rewrite ?HS1, ?HG1; auto|].
  intros [k| | |] w2 Hp; try done. destruct Hp as (-> & (Hgg & HL & HB & HM & Hab) & Hfr & Hsl).
  rewrite HS1, HG1 in *. unfold promote_post. split_and!; [congruence..|lia|].
  change (a_sched (abs (store w) q)) with (omap dec_sched (slot (store w) Scheduled q)).
  exists now. rewrite <- Hom. rewrite (omap_sched_length _ _ Hn Hall). split_and!; [done..|].
  intros Hn2. destruct (Hab Hn2) as (HQ2 & ids & Hlen & Hids & Hr).
  rewrite (raw_msgs_sched _ _ Hn Hall) in *. rewrite length_map, (omap_sched_length _ _ Hn Hall) in Hlen.
  exists ids. split_and!; [done|done|]. apply Effect_local; auto.
  rewrite abs_slots. change (omap dec_main (slot (store w2) Main q)) with (ready (store w2) q).
  rewrite Hr, Hsl, !Hfr by done. unfold a_promote.
  change (a_sched (abs (store w) q)) with (omap dec_sched (slot (store w) Scheduled q)).
  rewrite <- Hom. f_equal. rewrite Hl, omap_app, drop_app_length. done.
Qed.

(** ** Crash recovery *)

Lemma Refiled_remove q w0 w1 w2 ms s k :
  safe_name q = true -> s <> Main -> Refiled q w0 w1 ms ->
  store w2 = s_remove s q k (store w1) -> idgen w2 = idgen w1 ->
  current_bytes (qm w2) = current_bytes (qm w1) -> max_bytes (qm w2) = max_bytes (qm w1) ->
  Refiled q w0 w2 ms.
Proof.
  intros Hq Hsm (Hg & HL & HB & HM & Hab) HS HG HB2 HM2. unfold Refiled. rewrite HS, HG.
  split_and!; [lia| |congruence..|].
  - eapply Local_trans; [exact HL|by apply Local_remove].
  - intros Hn. destruct (Hab Hn) as (HQ & ids & Hlen & Hids & Hr). split; [by apply QInv_remove|].
    exists ids. split_and!; auto. rewrite <- Hr. change (ready ?c q) with (omap dec_main (slot c Main q)).
    by rewrite slot_remove_ne by auto.
Qed.

Lemma wp_requeue_loop q l w :
  safe_name q = true -> QInv (store w) (idgen w) q -> slot (store w) Inflight q = l ->
  wp (for_each l (requeue_entry q))
    (returns (fun _ w' => Refiled q w w' (raw_msgs l) /\
       (forall s, s <> Main -> slot (store w') s q = slot (store w) s q))) w.
Proof.
  intros Hq HQ Hl. pose proof (qi_tag _ _ _ HQ) as Hall. rewrite Hl in Hall. clear Hl.
  apply wp_for_each with (I := fun l' w' => exists dn, l = dn ++ l' /\ Refiled q w w' (raw_msgs dn) /\
    (forall s, s <> Main -> slot (store w') s q = slot (store w) s q)).
  - exists []. split_and!; auto. by apply Refiled_refl.
  - intros [k v] l' w1 (dn & -> & HR & Hfr). apply Forall_app in Hall as [_ [Hkv _]%Forall_cons_1].
    destruct Hkv as (i & m & _ & Hs & _). cbn [snd] in Hs. unfold requeue_entry. cbn [snd].
    rewrite (de_stores _ _ Hs). unfold serialization_err. wps. cbn.
    change (c_insert q ?k ?x ?c) with (s_insert Main q k x c) in Hc0.
    exists (dn ++ [(k, v)]). split_and!.
    + by rewrite <- app_assoc.
    + unfold raw_msgs. rewrite omap_app. cbn. rewrite (de_stores _ _ Hs). cbn.
      eapply Refiled_step with (w1 := w1) (c1 := store w1); eauto; wsimp; auto with pelican.
    + intros s Hsm. wsimp. rewrite slot_insert_ne by auto. auto.
  - intros w' (dn & Hdn & HR & Hfr). rewrite app_nil_r in Hdn. subst dn. cbn. auto.
Qed.

Lemma wp_clear_loop q l w w0 ms :
  safe_name q = true -> slot (store w) Inflight q = l -> Refiled q w0 w ms ->
  wp (for_each l (fun kv => remove_key (inflight_tree_name q) kv.1))
    (returns (fun _ w' => Refiled q w0 w' ms /\ slot (store w') Inflight q = [] /\
       (forall s, s <> Inflight -> slot (store w') s q = slot (store w) s q))) w.
Proof.
  intros Hq Hl HR.
  apply wp_for_each with (I := fun l' w' => Refiled q w0 w' ms /\ slot (store w') Inflight q = l' /\
    (forall s, s <> Inflight -> slot (store w') s q = slot (store w) s q)).
  - auto.
  - intros [k v] l' w1 (HR1 & Hsl & Hfr). unfold remove_key. cbn [fst]. wps. cbn.
    change (c_remove (inflight_tree_name q) ?k ?c) with (s_remove Inflight q k c) in *.
    split_and!.
    + by eapply (Refiled_remove q w0 w1 _ ms Inflight).
    + wsimp. slots. rewrite Hsl. cbn. by rewrite bool_decide_true.
    + intros s Hs. wsimp. rewrite slot_remove_ne by auto. auto.
  - intros w' (HR1 & Hsl & Hfr). cbn. auto.
Qed.

Lemma ok_items_map t : ok_items (map Ok t) = t.
Proof. unfold ok_items. induction t as [|kv t IH]; cbn; [done|]. by rewrite IH. Qed.

Lemma wp_recover_queue q w :
  safe_name q = true -> QInv (store w) (idgen w) q ->
  wp (recover_queue q)
    (returns (fun _ w' => Refiled q w w' (raw_msgs (slot (store w) Inflight q)) /\
       slot (store w') Inflight q = [] /\
       (forall s, s <> Main -> s <> Inflight -> slot (store w') s q = slot (store w) s q))) w.
Proof.
  intros Hq HQ. unfold recover_queue. wps. rewrite ok_items_map.
  change (look (store w) (inflight_tree_name q)) with (slot (store w) Inflight q).
  set (w1 := set_db d0 _). assert (unchanged w w1) as (HS & HG & HB & HM)
    by (unfold unchanged, w1; by wsimp). clearbody w1.
  assert (Refiled q w w1 []) as HR0.
  { unfold Refiled. rewrite HS, HG. split_and!; auto with pelican; [lia|]. intros _.
    split; [done|]. by exists []. }
  destruct (slot (store w) Inflight q) as [|kv l] eqn:El.
  - wps. cbn. rewrite HS. auto.
  - wp_step. eapply wp_mono; [apply (wp_requeue_loop q (kv :: l) w1); rewrite ?HS, ?HG; auto|].
    intros [[]| | |] w2 Hp; try done. destruct Hp as [HR Hfr].
    eapply wp_mono; [apply (wp_clear_loop q (kv :: l) w2 w1); [done| |exact HR]|].
    { rewrite Hfr, HS by done. done. }
    intros [[]| | |] w3 Hp; try done. destruct Hp as (HR3 & Hsl & Hfr3). cbn. split_and!; auto.
    + unfold Refiled in *. by rewrite HS, HG, HB, HM in HR3.
    + intros s Hs1 Hs2. rewrite Hfr3, Hfr, HS by done. done.
Qed.

(** The in-flight messages in ascending tag order. *)
Definition inflight_list (c : store_t) (q : string) : list entry := omap dec_tag (slot c Inflight q).

(** The abstract queue after its in-flight messages [ms] were requeued under [ids]. *)
Definition a_recover (ids : list Z) (ms : list Message) (a : AQueue) : AQueue :=
  mkAQ (refile (zip ids ms) (a_ready a)) ∅ (a_dead a) (a_sched a).

(** Queue [q] of [w'] is queue [q] of [w] after recovery. *)
Definition Recovered q w w' : Prop :=
  exists ids, length ids = length (inflight_list (store w) q) /\
    Forall (fun i => idgen w <= i < idgen w') ids /\
    abs (store w') q = a_recover ids (map snd (inflight_list (store w) q)) (abs (store w) q).

Lemma raw_msgs_tag n l :
  n <= u64_lim -> Forall (tag_entry n) l -> raw_msgs l = map snd (omap dec_tag l).
Proof.
  intros Hn. unfold raw_msgs. induction 1 as [|kv l Hkv Hl IH]; cbn; [done|].
  destruct (tag_entry_dec n kv Hn Hkv) as (i & m & Hdec & _ & Hs & _).
  rewrite Hdec, (de_stores _ _ Hs). cbn. by rewrite IH.
Qed.

Lemma Refiled_Recovered q w0 w1 w2 :
  QInv (store w0) (idgen w0) q -> idgen w0 <= idgen w1 -> idgen w2 <= u64_lim ->
  (forall s, slot (store w1) s q = slot (store w0) s q) ->
  Refiled q w1 w2 (raw_msgs (slot (store w1) Inflight q)) -> slot (store w2) Inflight q = [] ->
  (forall s, s <> Main -> s <> Inflight -> slot (store w2) s q = slot (store w1) s q) ->
  Recovered q w0 w2.
Proof.
  intros HQ Hle Hn Heq (Hg & HL & HB & HM & Hab) Hsl Hfr.
  destruct (Hab Hn) as (HQ2 & ids & Hlen & Hids & Hr).
  rewrite Heq, (raw_msgs_tag (idgen w0)) in * by (try apply HQ; lia).
  unfold Recovered, inflight_list. exists ids. split_and!.
  - by rewrite Hlen, length_map.
  - eapply Forall_impl; [exact Hids|]. intros i Hi. cbn in *. lia.
  - rewrite !abs_slots. change (omap dec_main (slot (store w2) Main q)) with (ready (store w2) q).
    rewrite Hr, Hsl, !Hfr, !Heq by done. unfold a_recover. cbn [a_ready a_dead a_sched]. f_equal.
    change (ready ?c q) with (omap dec_main (slot c Main q)). by rewrite Heq.
Qed.

Lemma Recovered_frame q w0 w1 w2 :
  idgen w1 <= idgen w2 -> (forall s, slot (store w2) s q = slot (store w1) s q) ->
  Recovered q w0 w1 -> Recovered q w0 w2.
Proof.
  intros Hg Heq (ids & Hlen & Hids & Ha). exists ids. split_and!; auto.
  - eapply Forall_impl; [exact Hids|]. intros i Hi. cbn in *. lia.
  - by rewrite (abs_ext _ _ _ Heq).
Qed.

Definition undeclared_kept w w' : Prop :=
  forall q, safe_name q = true -> declared (store w) q = false ->
  forall s, slot (store w') s q = slot (store w) s q.

Definition recover_post w (o : Outcome PelicanError unit) w' : Prop :=
  o = Done tt /\ idgen w <= idgen w' /\
  current_bytes (qm w') = current_bytes (qm w) /\ max_bytes (qm w') = max_bytes (qm w) /\
  (forall q, declared (store w') q = declared (store w) q) /\
  (forall q, policy (store w') q = policy (store w) q) /\ undeclared_kept w w' /\
  (idgen w' <= u64_lim -> Inv (store w') (idgen w') /\
     forall q, declared (store w) q = true -> Recovered q w w').

(** The state of the loop over the queue names: [l] are the queues still to be
    recovered, the others are. *)
Definition recovering w (l : list string) w' : Prop :=
  NoDup l /\ (forall q, q ∈ l -> q ∈ queue_names (store w)) /\ idgen w <= idgen w' /\
  current_bytes (qm w') = current_bytes (qm w) /\ max_bytes (qm w') = max_bytes (qm w) /\
  (forall t, t = META_QUEUES_TREE \/ t = META_RETENTION_TREE -> look (store w') t = look (store w) t) /\
  c_sorted (store w') /\ undeclared_kept w w' /\
  (forall q, q ∈ l -> forall s, slot (store w') s q = slot (store w) s q) /\
  (idgen w' <= u64_lim -> forall q, q ∈ queue_names (store w) -> q ∉ l ->
     QInv (store w') (idgen w') q /\ Recovered q w w').

Lemma recovering_step q l w w1 :
  Inv (store w) (idgen w) -> recovering w (q :: l) w1 ->
  wp (recover_queue q) (returns (fun _ w2 => recovering w l w2)) w1.
Proof.
  intros HI (Hnd' & Hsub & Hg & HB & HM & Hmeta & Hso & Hun & Hrem & Hdone).
  assert (forall q, q ∈ queue_names (store w) -> safe_name q = true /\ QInv (store w) (idgen w) q) as Hall.
  { intros q' Hin. apply (queue_names_declared _ _ _ HI) in Hin. split; [by eapply inv_safe|by apply HI]. }
  apply NoDup_cons in Hnd' as [Hni Hnd']. destruct (Hall q) as [Hq HQ]; [apply Hsub; left|].
  assert (forall s, slot (store w1) s q = slot (store w) s q) as Heq by (apply Hrem; left).
  assert (QInv (store w1) (idgen w1) q) as HQ1
    by (eapply QInv_mono; [exact Hg|]; by eapply QInv_ext).
  eapply wp_mono; [by apply wp_recover_queue|]. intros [[]| | |] w2 Hp; try done. cbn in *.
  destruct Hp as (HR & Hsl & Hfr). pose proof HR as (Hg2 & HL & HB2 & HM2 & Hab).
  assert (forall q' s, q' ∈ queue_names (store w) -> q' <> q ->
    slot (store w2) s q' = slot (store w1) s q') as Hother.
  { intros q' s Hin Hne. apply (loc_slot _ _ _ HL); [by apply Hall|done]. }
  split_and!; auto; try lia; try congruence.
  - intros q' Hin. apply Hsub. by right.
  - intros t Ht. rewrite (loc_meta _ _ _ HL) by done. auto.
  - by apply HL.
  - intros q' Hq' Hnd1 s. rewrite <- Hun by done. apply (loc_slot _ _ _ HL); [done|].
    intros ->. specialize (Hsub q ltac:(left)). apply (queue_names_declared _ _ _ HI) in Hsub. congruence.
  - intros q' Hin s. rewrite Hother; [by apply Hrem; right|apply Hsub; by right|congruence].
  - intros Hn q' Hin Hni'. destruct (decide (q' = q)) as [->|Hne].
    + split; [by apply Hab|]. by eapply (Refiled_Recovered q w w1 w2).
    + destruct (Hdone ltac:(lia) q' Hin) as [HQd HRd]; [by rewrite not_elem_of_cons|].
      split; [|apply (Recovered_frame q' w w1 w2); auto].
      eapply QInv_mono; [exact Hg2|]. eapply QInv_ext; [|exact HQd]. auto.
Qed.

Lemma recovered_all w w' : Inv (store w) (idgen w) -> recovering w [] w' -> recover_post w (Done tt) w'.
Proof.
  intros HI (_ & _ & Hg & HB & HM & Hmeta & Hso & Hun & _ & Hdone).
  assert (forall q, declared (store w') q = declared (store w) q) as Hd
    by (intros q; unfold declared; rewrite Hmeta by auto; done).
  unfold recover_post. split_and!; auto.
  - intros q. unfold policy. rewrite Hmeta by auto. done.
  - intros Hn. specialize (Hdone Hn). split.
    + split; auto; [pose proof (inv_gen _ _ HI); lia|rewrite Hmeta by auto; apply HI|].
      intros q Hdq. rewrite Hd in Hdq. apply (queue_names_declared _ _ _ HI) in Hdq.
      apply Hdone; [done|]. apply not_elem_of_nil.
    + intros q Hdq. apply (queue_names_declared _ _ _ HI) in Hdq.
      apply Hdone; [done|]. apply not_elem_of_nil.
Qed.

Lemma recover_sim w : Inv (store w) (idgen w) -> wp recover_inflight (recover_post w) w.
Proof.
  intros HI. unfold recover_inflight. wp_step. apply wp_list_queues.
  apply wp_for_each with (I := recovering w).
  - split_and!; auto; [by eapply queue_names_NoDup|lia|apply HI|done|]. intros _ q Hin Hni. by destruct Hni.
  - intros q l w1. by apply recovering_step.
  - intros w'. by apply recovered_all.
Qed.

(** ** Opening *)

(** The state [open] leaves, from the database of [w]. *)
Definition open_post max w w' : Prop :=
  current_bytes (qm w') = total_bytes (store w) /\ max_bytes (qm w') = max /\
  (forall q, declared (store w') q = declared (store w) q) /\
  (forall q, policy (store w') q = policy (store w) q) /\ idgen w <= idgen w' /\
  undeclared_kept w w' /\
  (idgen w' <= u64_lim -> Inv (store w') (idgen w') /\
     forall q, declared (store w) q = true -> Recovered q w w').

Lemma open_sim d max e :
  Inv (contents (view d)) (v_idgen (view d)) -> total_bytes (contents (view d)) < u64_lim ->
  let w := mkWorld (mkQM d 0 max) e in
  exists w', open (Ok d) max e = (Done tt, Some w') /\ open_post max w w'.
Proof.
  intros HI Hb w. unfold open. fold w.
  assert (wp open_body (fun o w' => o = Done tt /\ open_post max w w') w) as Hwp.
  { unfold open_body. wps. apply wp_recalculate_bytes; wsimp; [done|].
    intros w1 (HS & HG & HB & HM). wps.
    assert (store w1 = store w /\ idgen w1 = idgen w) as [HS' HG'] by (rewrite HS, HG; by wsimp).
    eapply wp_mono; [apply recover_sim; wsimp; rewrite HS', HG'; done|].
    intros o w2 (-> & Hg2 & HB2 & HM2 & Hd & Hp & Hun & Hrec). unfold open_post. revert Hg2 HB2 HM2 Hd Hp Hun Hrec. wsimp.
    unfold Recovered, inflight_list, undeclared_kept. wsimp. rewrite HS', HG'. intros Hg2 HB2 HM2 Hd Hp Hun Hrec.
    split_and!; auto. by rewrite HM2, HM. }
  unfold wp in Hwp. destruct (open_body w) as [o w']. cbn in Hwp. destruct Hwp as (-> & Hrest).
  exists w'. auto.
Qed.
End Maintenance.
