(* ===== verification/Retention.v ===== *)
(** * Retention: [apply_retention] and [declare_queue]

    Age-based expiry, trimming to a message count, and the recomputation of the
    byte counter that follows; the creation of a queue. *)

From Stdlib Require Import ZArith Lia.
From stdpp Require Import prelude gmap strings.
From S2P Require Import Prelude Bytes OrdMap Sled Message Bincode Keys QueueManager Store Spec.
From S2P Require Import Engine Invariant Refinement Maintenance.

(** ** Removing a set of keys from a tree *)

Lemma remove_keys_cons ks kv t :
  kv.1 ∉ ks -> foldl (fun t k => o_remove k t) (kv :: t) ks = kv :: foldl (fun t k => o_remove k t) t ks.
Proof.
  revert t. induction ks as [|k ks IH]; intros t Hni; [done|]. cbn [foldl].
  apply not_elem_of_cons in Hni as [Hne Hni]. destruct kv as [k' v]. cbn in *.
  rewrite bool_decide_false by done. by apply IH.
Qed.

Lemma remove_filtered (f : bytes * bytes -> bool) t :
  o_sorted t ->
  foldl (fun t k => o_remove k t) t (map fst (List.filter f t)) = List.filter (fun kv => negb (f kv)) t.
Proof.
  induction t as [|kv t IH]; intros Hs; [done|]. pose proof (o_sorted_NoDup _ Hs) as Hnd.
  apply o_sorted_tail in Hs. cbn. destruct (f kv) eqn:E; cbn.
  - destruct kv as [k v]. cbn. rewrite bool_decide_true by done. by apply IH.
  - rewrite remove_keys_cons; [by rewrite IH|]. unfold keys in Hnd. cbn in Hnd.
    apply NoDup_cons in Hnd as [Hni _]. rewrite list_elem_of_fmap in *. intros (x & Hx & Hin).
    apply Hni. exists x. split; [done|]. apply list_elem_of_In. apply list_elem_of_In in Hin.
    by apply List.filter_In in Hin as [? _].
Qed.

Lemma remove_front n t :
  foldl (fun t k => o_remove k t) t (map fst (take n t)) = drop n t.
Proof.
  revert n. induction t as [|[k v] t IH]; intros [|n]; cbn; try done.
  rewrite bool_decide_true by done. apply IH.
Qed.

Lemma val_bytes_remove_le t k : val_bytes (o_remove k t) <= val_bytes t.
Proof.
  induction t as [|[k' v] t IH]; cbn; [lia|]. case_bool_decide; cbn; lia.
Qed.

Lemma sum_over_le {A} (f g : A -> Z) l :
  (forall x, x ∈ l -> f x <= g x) -> sum_over f l <= sum_over g l.
Proof.
  induction l as [|x l IH]; intros Hle; cbn; [lia|].
  pose proof (Hle x ltac:(left)). assert (sum_over f l <= sum_over g l); [|lia].
  apply IH. intros y Hy. apply Hle. by right.
Qed.

(** ** Abstract retention *)

Definition expired_entry (now max_age_ms : Z) (m : Message) : bool := max_age_ms <=? now - timestamp m.

Definition keep_young (p : RetentionPolicy) (now : Z) (l : list entry) : list entry :=
  match max_age_secs p with
  | Some s => List.filter (fun e => negb (expired_entry now (s * 1000) e.2)) l
  | None => l
  end.

Definition keep_count (p : RetentionPolicy) (l : list entry) : list entry :=
  match max_messages p with
  | Some k => drop (Z.to_nat (Z.of_nat (length l) - k)) l
  | None => l
  end.

(** Expired messages go first, then the excess at the front of the delivery order. *)
Definition retained (p : RetentionPolicy) (now : Z) (l : list entry) : list entry :=
  keep_count p (keep_young p now l).

Definition a_retain (p : RetentionPolicy) (now : Z) (a : AQueue) : AQueue :=
  mkAQ (retained p now (a_ready a)) (a_inflight a) (a_dead a) (a_sched a).

Section Retention.
Context `{!Sled, !SledLaws, !SledReliable, !Bincode, !BincodeLaws,
          !Environment, !EnvironmentLaws, !BuildProfile}.
Implicit Types w : World.

(** Timestamps whose age can be computed within [i64]. *)
Definition sane_time (kv : bytes * bytes) : Prop :=
  forall m, de_msg kv.2 = Ok m -> - (i64_lim / 4) <= timestamp m < i64_lim.

Definition raw_expired (now age : Z) (kv : bytes * bytes) : bool :=
  match de_msg kv.2 with Ok m => expired_entry now age m | Err _ => false end.

Lemma wp_collect_expired n now age t (R : Outcome PelicanError (list bytes) -> World -> Prop) w :
  0 <= now < i64_lim / 4 -> Forall (main_entry n) t -> Forall sane_time t ->
  R (Done (map fst (List.filter (raw_expired now age) t))) w ->
  wp (collect_expired now age (map Ok t)) R w.
Proof.
  intros Hnow Ht. change (i64_lim / 4) with 2305843009213693952 in *. revert R.
  induction Ht as [|kv t Hkv Ht IH]; intros R Hst HR; cbn [map collect_expired].
  - by wps.
  - apply Forall_cons_1 in Hst as [Hsk Hst]. destruct Hkv as (i & m & _ & Hs & _).
    pose proof (de_stores _ _ Hs) as Hde. specialize (Hsk m Hde).
    change (i64_lim / 4) with 2305843009213693952 in *.
    unfold storage_err. wp_step. wp_step. rewrite Hde. unfold serialization_err. wp_step. wp_step.
    rewrite arith_i64_ok by lia. cbn. wp_step. wp_step. wp_step. apply IH; [done|]. wps.
    cbn in HR. unfold raw_expired at 1, expired_entry in HR. rewrite Hde in HR.
    by destruct (age <=? _).
Qed.

Lemma wp_collect_front n t (R : Outcome PelicanError (list bytes) -> World -> Prop) w :
  R (Done (map fst (take n t))) w -> wp (collect_front n (map Ok t)) R w.
Proof.
  revert n R. induction t as [|kv t IH]; intros [|n] R HR; cbn [map collect_front]; try by wps.
  unfold storage_err. wp_step. wp_step. wp_step. apply IH. by wps.
Qed.

(** From [w] to [w'], entries were removed from the ready tree of [q] only. *)
Definition Trimmed q w w' : Prop :=
  Local q (store w) (store w') /\ idgen w' = idgen w /\
  current_bytes (qm w') = current_bytes (qm w) /\ max_bytes (qm w') = max_bytes (qm w) /\
  (forall s, s <> Main -> slot (store w') s q = slot (store w) s q) /\
  val_bytes (slot (store w') Main q) <= val_bytes (slot (store w) Main q) /\
  (forall n, QInv (store w) n q -> QInv (store w') n q).

Lemma Trimmed_unchanged q w w' : unchanged w w' -> Trimmed q w w'.
Proof.
  intros (HS & HG & HB & HM). unfold Trimmed. rewrite HS. split_and!; auto with pelican. lia.
Qed.

Lemma Trimmed_trans q w1 w2 w3 : Trimmed q w1 w2 -> Trimmed q w2 w3 -> Trimmed q w1 w3.
Proof.
  intros (HL & HG & HB & HM & Hs & Hv & HQ) (HL' & HG' & HB' & HM' & Hs' & Hv' & HQ').
  split_and!; try congruence; try lia; auto.
  - by eapply Local_trans.
  - intros s Hne. rewrite Hs', Hs; auto.
Qed.

Lemma wp_remove_keys q ks w :
  safe_name q = true ->
  wp (for_each ks (remove_key q))
    (returns (fun _ w' => Trimmed q w w' /\
       slot (store w') Main q = foldl (fun t k => o_remove k t) (slot (store w) Main q) ks)) w.
Proof.
  intros Hq.
  apply wp_for_each with (I := fun l w' => Trimmed q w w' /\
    foldl (fun t k => o_remove k t) (slot (store w') Main q) l =
    foldl (fun t k => o_remove k t) (slot (store w) Main q) ks).
  - split; [|done]. apply Trimmed_unchanged. by unfold unchanged.
  - intros k l' w1 [HT Hf]. unfold remove_key. wps. cbn.
    change (c_remove q ?k ?c) with (s_remove Main q k c) in *. split.
    + eapply Trimmed_trans; [exact HT|]. unfold Trimmed. wsimp. split_and!; auto with pelican.
      * intros s Hs. by rewrite slot_remove_ne by auto.
      * slots. apply val_bytes_remove_le.
      * intros n HQ. by apply QInv_remove.
    + wsimp. by slots.
  - intros w' [HT Hf]. cbn in *. auto.
Qed.

Definition age_filter (p : RetentionPolicy) (now : Z) (t : tree) : tree :=
  match max_age_secs p with
  | Some s => List.filter (fun kv => negb (raw_expired now (s * 1000) kv)) t
  | None => t
  end.
Definition count_filter (p : RetentionPolicy) (t : tree) : tree :=
  match max_messages p with
  | Some k => drop (Z.to_nat (Z.of_nat (length t) - k)) t
  | None => t
  end.

Lemma filter_negb_length {A} (f : A -> bool) (l : list A) :
  (length (List.filter f l) + length (List.filter (fun x => negb (f x)) l))%nat = length l.
Proof. induction l as [|x l IH]; cbn; [done|]. destruct (f x); cbn; lia. Qed.

Lemma wp_expire_by_age q p w :
  safe_name q = true -> sane_policy p = true -> c_sorted (store w) ->
  Forall (main_entry (idgen w)) (slot (store w) Main q) -> Forall sane_time (slot (store w) Main q) ->
  wp (expire_by_age q p) (returns (fun k w' => Trimmed q w w' /\ exists now, clock_value now /\
    slot (store w') Main q = age_filter p now (slot (store w) Main q) /\
    (k + length (slot (store w') Main q))%nat = length (slot (store w) Main q))) w.
Proof.
  intros Hq Hsane Hso Hall Hst. unfold expire_by_age, age_filter.
  apply andb_true_iff in Hsane as [_ Hsane]. destruct (max_age_secs p) as [s|]; cbn in Hsane.
  - destruct (sane_secs_ms s Hsane) as (-> & -> & _). wps. cbn [or_panic]. wps.
    set (w1 := set_env _ _). assert (unchanged w w1) as Hu by (by unfold unchanged, w1).
    eapply wp_collect_expired; [exact Hnow|exact Hall|exact Hst|]. wp_step.
    eapply wp_mono; [by apply wp_remove_keys|]. intros [[]| | |] w2 Hp; try done.
    destruct Hp as [HT Hf]. rewrite (proj1 Hu) in Hf.
    change (look (store w) q) with (slot (store w) Main q) in Hf.
    rewrite remove_filtered in Hf by apply Hso. wps. cbn. split.
    + eapply Trimmed_trans; [|exact HT]. by apply Trimmed_unchanged.
    + exists now. split_and!; [done..|]. rewrite Hf, length_map. apply filter_negb_length.
  - wps. cbn. split; [apply Trimmed_unchanged; by unfold unchanged|].
    destruct clock_value_some as [t0 Ht0]. by exists t0.
Qed.

Lemma wp_trim_to_count q p w :
  safe_name q = true ->
  wp (trim_to_count q p) (returns (fun k w' => Trimmed q w w' /\
    slot (store w') Main q = count_filter p (slot (store w) Main q) /\
    (k + length (slot (store w') Main q))%nat = length (slot (store w) Main q))) w.
Proof.
  intros Hq. unfold trim_to_count, count_filter. assert (unchanged w w) as Hu by (by unfold unchanged).
  destruct (max_messages p) as [mx|].
  2: { wps. cbn. split_and!; auto. by apply Trimmed_unchanged. }
  wps. change (look (store w) q) with (slot (store w) Main q).
  set (t := slot (store w) Main q). destruct (mx <? _) eqn:E.
  - wps. change (look (store w) q) with t. apply wp_collect_front. wp_step.
    eapply wp_mono; [by apply wp_remove_keys|]. intros [[]| | |] w2 Hp; try done.
    destruct Hp as [HT Hf]. fold t in Hf. rewrite remove_front in Hf. wps. cbn.
    split_and!; auto. rewrite Hf, length_map, length_take, length_drop. lia.
  - apply Z.ltb_ge in E. wps. cbn. split_and!; auto; [by apply Trimmed_unchanged|].
    fold t. replace (Z.to_nat (Z.of_nat (length t) - mx)) with O by lia. done.
Qed.

(** ** Decoding commutes with filtering *)

Lemma omap_main_drop n k t :
  n <= u64_lim -> Forall (main_entry n) t -> omap dec_main (drop k t) = drop k (omap dec_main t).
Proof.
  intros Hn Ht. revert k. induction Ht as [|kv t Hkv Ht IH]; intros [|k]; cbn; try done.
  destruct (main_entry_dec n kv Hn Hkv) as (i & m & -> & _). cbn. apply IH.
Qed.

Lemma omap_main_length n t :
  n <= u64_lim -> Forall (main_entry n) t -> length (omap dec_main t) = length t.
Proof.
  intros Hn. induction 1 as [|kv t Hkv Ht IH]; cbn; [done|].
  destruct (main_entry_dec n kv Hn Hkv) as (i & m & -> & _). cbn. by rewrite IH.
Qed.

Lemma omap_main_age n p now t :
  n <= u64_lim -> Forall (main_entry n) t ->
  omap dec_main (age_filter p now t) = keep_young p now (omap dec_main t).
Proof.
  intros Hn Ht. unfold age_filter, keep_young. destruct (max_age_secs p) as [s|]; [|done].
  induction Ht as [|kv t Hkv Ht IH]; cbn; [done|].
  destruct (main_entry_dec n kv Hn Hkv) as (i & m & Hd & _ & Hs & _). rewrite Hd. cbn.
  unfold raw_expired at 1. rewrite (de_stores _ _ Hs).
  destruct (expired_entry now (s * 1000) m); cbn; rewrite ?Hd; cbn; by rewrite IH.
Qed.

Lemma total_bytes_trimmed q w w' n :
  Inv (store w) n -> Trimmed q w w' -> total_bytes (store w') <= total_bytes (store w).
Proof.
  intros HI (HL & _ & _ & _ & Hs & Hv & _). unfold total_bytes.
  rewrite (queue_names_local _ _ _ HL). apply sum_over_le. intros q' Hin.
  apply (queue_names_declared _ _ _ HI) in Hin. pose proof (inv_safe _ _ _ HI Hin) as Hq'.
  unfold queue_bytes, dedup_bytes. destruct (decide (q' = q)) as [->|Hne].
  - rewrite (Hs Inflight), (Hs Dlq), (Hs Scheduled), (Hs Dedup) by done. lia.
  - rewrite !(loc_slot _ _ _ HL) by done. lia.
Qed.

(** ** [apply_retention] *)

Definition retention_post q w (o : Outcome PelicanError nat) w' : Prop :=
  let p := policy (store w) q in let a := abs (store w) q in
  idgen w' = idgen w /\ max_bytes (qm w') = max_bytes (qm w) /\
  exists now k, clock_value now /\ o = Done k /\
    (k + length (retained p now (a_ready a)))%nat = length (a_ready a) /\
    Effect q w w' (a_retain p now a) /\
    current_bytes (qm w') = (if (0 <? k)%nat then total_bytes (store w') else current_bytes (qm w)).

Lemma retained_none p now l : max_age_secs p = None -> max_messages p = None -> retained p now l = l.
Proof. intros Ha Hm. unfold retained, keep_count, keep_young. by rewrite Ha, Hm. Qed.

(** What the two passes leave of the ready messages, and how many they drop. *)
Lemma trimmed_ready q p now k1 k2 w w2 w3 n :
  n <= u64_lim -> Forall (main_entry n) (slot (store w) Main q) -> Forall (main_entry n) (slot (store w2) Main q) ->
  Forall (main_entry n) (slot (store w3) Main q) ->
  slot (store w2) Main q = age_filter p now (slot (store w) Main q) ->
  slot (store w3) Main q = count_filter p (slot (store w2) Main q) ->
  (k1 + length (slot (store w2) Main q))%nat = length (slot (store w) Main q) ->
  (k2 + length (slot (store w3) Main q))%nat = length (slot (store w2) Main q) ->
  ready (store w3) q = retained p now (ready (store w) q) /\
  (k1 + k2 + length (retained p now (ready (store w) q)))%nat = length (ready (store w) q).
Proof.
  intros Hn Hall Hall2 Hall3 Hf1 Hf2 Hk1 Hk2.
  assert (ready (store w3) q = retained p now (ready (store w) q)) as Hready.
  { change (ready ?c q) with (omap dec_main (slot c Main q)). rewrite Hf2. unfold retained, count_filter, keep_count.
    rewrite <- (omap_main_age n) by done. rewrite <- Hf1.
    destruct (max_messages p) as [mx|]; [|done].
    rewrite (omap_main_length n) by done. by rewrite (omap_main_drop n). }
  split; [done|]. rewrite <- Hready. change (ready ?c q) with (omap dec_main (slot c Main q)).
  rewrite !(omap_main_length n) by done. lia.
Qed.

Lemma retention_sim q w :
  Inv (store w) (idgen w) -> declared (store w) q = true -> idgen w <= u64_lim ->
  sane_policy (policy (store w) q) = true -> Forall sane_time (slot (store w) Main q) ->
  total_bytes (store w) < u64_lim ->
  wp (apply_retention q) (retention_post q w) w.
Proof.
  intros HI Hd Hn Hsane Hst Hb. pose proof (inv_safe _ _ _ HI Hd) as Hq.
  pose proof (inv_queue _ _ HI _ Hd) as HQ. unfold apply_retention. wp_step.
  apply wp_require_queue; [intros _|congruence]. wp_step. apply wp_get_policy.
  set (p := policy (store w) q) in *.
  destruct (bool_decide (max_age_secs p = None) && bool_decide (max_messages p = None)) eqn:Enone.
  { apply andb_true_iff in Enone as [?%bool_decide_eq_true ?%bool_decide_eq_true]. wps.
    unfold retention_post. fold p. destruct clock_value_some as [t0 Ht0].
    split_and!; auto. exists t0, 0%nat.
    unfold a_retain. rewrite !retained_none by done. split_and!; auto.
    apply Effect_unchanged; auto. lia. }
  wp_step. wp_step. wsimp. set (w1 := set_db d w).
  assert (unchanged w w1) as Hu by (unfold unchanged, w1; by wsimp). clearbody w1.
  wp_step. eapply wp_mono.
  { apply wp_expire_by_age; auto; rewrite ?(proj1 Hu); [apply HI| |done].
    rewrite (proj1 (proj2 Hu)). apply HQ. }
  intros [k1| | |] w2 Hp1; try done. destruct Hp1 as (HT1 & now & Hnow & Hf1 & Hk1). cbn in Hf1, Hk1.
  wp_step. eapply wp_mono; [by apply wp_trim_to_count|].
  intros [k2| | |] w3 Hp2; try done. destruct Hp2 as (HT2 & Hf2 & Hk2). cbn in Hf2, Hk2.
  assert (Trimmed q w w3) as HT.
  { eapply Trimmed_trans; [|exact HT2]. eapply Trimmed_trans; [|exact HT1]. by apply Trimmed_unchanged. }
  rewrite (proj1 Hu) in *. pose proof HT as (HL & HG & HB & HM & Hs & Hv & HQ3).
  pose proof (HQ3 _ HQ) as HQ3'. pose proof (qi_main _ _ _ HQ) as Hall.
  assert (Forall (main_entry (idgen w)) (slot (store w2) Main q)) as Hall2.
  { eapply Trimmed_trans in HT1; [|by apply Trimmed_unchanged, Hu].
    destruct HT1 as (_ & _ & _ & _ & _ & _ & HQ2). apply HQ2 in HQ. apply HQ. }
  destruct (trimmed_ready q p now k1 k2 w w2 w3 (idgen w)) as [Hready Hcount]; auto; [apply HQ3'|].
  assert (Effect q w w3 (a_retain p now (abs (store w) q))) as Heff.
  { apply Effect_local; auto; rewrite ?HG; auto; [lia|]. rewrite abs_slots.
    change (omap dec_main (slot (store w3) Main q)) with (ready (store w3) q).
    rewrite Hready, !Hs by done. done. }
  destruct (0 <? k1 + k2)%nat eqn:Ek.
  - wp_step. apply wp_recalculate_bytes; [pose proof (total_bytes_trimmed q w w3 _ HI HT); lia|].
    intros w4 (HS4 & HG4 & HB4 & HM4). wps. unfold retention_post. fold p. wsimp. rewrite HG4, HM4.
    split_and!; auto. exists now, (k1 + k2)%nat. rewrite Ek. split_and!; auto; [|by rewrite HS4].
    destruct Heff as [E1 E2 E3 E4 E5]. split; wsimp; rewrite ?HS4, ?HG4; auto.
  - wps. unfold retention_post. fold p. split_and!; auto. exists now, (k1 + k2)%nat. rewrite Ek.
    split_and!; auto.
Qed.

(** ** [declare_queue] *)

Definition fresh_name (c : store_t) (q : string) : Prop := forall s, slot c s q = [].

Lemma look_declare name pb c t :
  t <> META_QUEUES_TREE -> t <> META_RETENTION_TREE -> look (declare_store name pb c) t = look c t.
Proof.
  intros Hq Hr. unfold declare_store. by rewrite !look_c_insert_ne.
Qed.

Lemma declared_declare name pb c q :
  declared (declare_store name pb c) q = bool_decide (q = name) || declared c q.
Proof.
  unfold declared, declare_store. rewrite look_c_insert_ne, look_c_insert by done.
  destruct (decide (q = name)) as [->|Hne].
  - rewrite o_get_insert. rewrite (bool_decide_true (name = name)) by done. by apply bool_decide_true.
  - rewrite o_get_insert_ne by (intros ?%str_bytes_inj; done).
    by rewrite (bool_decide_false (q = name)).
Qed.

Lemma Inv_declare name pb c n :
  Inv c n -> safe_name name = true -> fresh_name c name -> declared c name = false ->
  Inv (declare_store name pb c) n.
Proof.
  intros [Hs Hg Hm Hq] Hsafe Hfr Hnd. split; auto.
  - unfold declare_store. auto with ord.
  - unfold declare_store. rewrite look_c_insert_ne, look_c_insert by done.
    apply Forall_o_insert; [|done]. eauto.
  - intros q Hd. rewrite declared_declare in Hd.
    assert (safe_name q = true) as Hsq.
    { apply orb_true_iff in Hd as [->%bool_decide_eq_true|Hd]; [done|].
      by apply (inv_safe c n q). }
    assert (forall s, slot (declare_store name pb c) s q = slot c s q) as Heq.
    { intros s. destruct (slot_tree_meta s q Hsq). by apply look_declare. }
    apply QInv_ext with c; [done|]. apply orb_true_iff in Hd as [->%bool_decide_eq_true|Hd]; [|auto].
    split; rewrite ?Hfr; constructor.
Qed.
End Retention.
