(* ===== verification/Fsck.v ===== *)
(** * Fsck: deciding the invariant, and a concrete instance

    [inv_check] decides the representation invariant of [Invariant] by decoding
    every entry of a store; it is used to establish the invariant of concrete
    databases.  [Demo] fixes concrete instances of the interfaces and some
    databases on which the theorems are exercised. *)

From Stdlib Require Import ZArith Lia.
From stdpp Require Import prelude gmap strings.
From S2P Require Import Prelude Bytes OrdMap Sled Message Bincode Keys QueueManager Store Spec.
From S2P Require Import Engine Invariant Refinement Maintenance Retention.

Section Fsck.
Context `{!Bincode}.

Definition stores_b (m : Message) (v : bytes) : bool :=
  wf_message m && match ser_msg m with Ok b => bool_decide (b = v) | Err _ => false end.

Definition below (n i : Z) : bool := (0 <=? i) && (i <? n).

Definition main_entry_b (n : Z) (kv : bytes * bytes) : bool :=
  match dec_main kv with
  | Some (i, m) => bool_decide (kv.1 = encode_key (priority m) i) && stores_b m kv.2 && below n i
  | None => false
  end.

Definition tag_entry_b (n : Z) (kv : bytes * bytes) : bool :=
  match dec_tag kv with
  | Some (i, m) => bool_decide (kv.1 = be_bytes 8 i) && stores_b m kv.2 && below n i
  | None => false
  end.

Definition sched_entry_b (n : Z) (kv : bytes * bytes) : bool :=
  match dec_sched kv with
  | Some (t, (i, m)) => bool_decide (kv.1 = encode_scheduled_key t i) && stores_b m kv.2 &&
      below n i && below i64_lim t && bool_decide (deliver_at m = Some t)
  | None => false
  end.

Fixpoint o_sorted_b (t : tree) : bool :=
  match t with
  | [] => true
  | (k, _) :: t' => forallb (fun kv => bool_decide (lex_lt k kv.1)) t' && o_sorted_b t'
  end.

Definition queue_check (c : store_t) (n : Z) (q : string) : bool :=
  forallb (main_entry_b n) (slot c Main q) && forallb (tag_entry_b n) (slot c Inflight q) &&
  forallb (main_entry_b n) (slot c Dlq q) && forallb (sched_entry_b n) (slot c Scheduled q) &&
  forallb (fun kv => (8 <=? length kv.2)%nat) (slot c Dedup q) &&
  bool_decide (NoDup (main_ids (slot c Main q) ++ tag_ids (slot c Inflight q))).

Definition meta_check (kv : bytes * bytes) : bool :=
  match from_utf8 kv.1 with
  | Some q => bool_decide (kv.1 = str_bytes q) && safe_name q
  | None => false
  end.

Definition inv_check (c : store_t) (n : Z) : bool :=
  forallb (fun tx => o_sorted_b tx.2) (map_to_list c) && (0 <=? n) &&
  forallb meta_check (look c META_QUEUES_TREE) && forallb (queue_check c n) (queue_names c).

Lemma stores_b_spec m v : stores_b m v = true -> stores m v.
Proof.
  unfold stores_b, stores. rewrite andb_true_iff. intros [Hw Hs]. split; [done|].
  destruct (ser_msg m); [|done]. apply bool_decide_eq_true in Hs. by subst.
Qed.

Lemma below_spec n i : below n i = true -> 0 <= i < n.
Proof. unfold below. rewrite andb_true_iff, Z.leb_le, Z.ltb_lt. done. Qed.

Lemma main_entry_b_spec n kv : main_entry_b n kv = true -> main_entry n kv.
Proof.
  unfold main_entry_b. destruct (dec_main kv) as [[i m]|]; [|done].
  rewrite !andb_true_iff. intros [[Hk%bool_decide_eq_true Hs%stores_b_spec] Hi%below_spec].
  by exists i, m.
Qed.

Lemma tag_entry_b_spec n kv : tag_entry_b n kv = true -> tag_entry n kv.
Proof.
  unfold tag_entry_b. destruct (dec_tag kv) as [[i m]|]; [|done].
  rewrite !andb_true_iff. intros [[Hk%bool_decide_eq_true Hs%stores_b_spec] Hi%below_spec].
  by exists i, m.
Qed.

Lemma sched_entry_b_spec n kv : sched_entry_b n kv = true -> sched_entry n kv.
Proof.
  unfold sched_entry_b. destruct (dec_sched kv) as [[t [i m]]|]; [|done]. rewrite !andb_true_iff.
  intros [[[[Hk%bool_decide_eq_true Hs%stores_b_spec] Hi%below_spec] Ht%below_spec] Hat%bool_decide_eq_true].
  by exists t, i, m.
Qed.

Lemma o_sorted_b_spec t : o_sorted_b t = true -> o_sorted t.
Proof.
  induction t as [|[k v] t IH]; cbn; [done|]. rewrite andb_true_iff, forallb_forall.
  intros [Hall Hs]. split; [|auto]. apply Forall_forall. intros kv Hin%list_elem_of_In.
  specialize (Hall kv Hin). by apply bool_decide_eq_true in Hall.
Qed.

Lemma forallb_Forall_impl {A} (f : A -> bool) (P : A -> Prop) l :
  (forall x, f x = true -> P x) -> forallb f l = true -> Forall P l.
Proof. intros Hf. rewrite forallb_forall, Forall_forall. intros Hl x Hx%list_elem_of_In. auto. Qed.

Lemma queue_check_spec c n q : queue_check c n q = true -> QInv c n q.
Proof.
  unfold queue_check. rewrite !andb_true_iff. intros [[[[[Hm Ht] Hd] Hs] Hdd] Hids].
  split; try (eapply forallb_Forall_impl; [|eassumption]; cbn beta);
    auto using main_entry_b_spec, tag_entry_b_spec, sched_entry_b_spec.
  - intros x. apply Nat.leb_le.
  - by apply bool_decide_eq_true in Hids.
Qed.

Lemma inv_check_spec c n : inv_check c n = true -> Inv c n.
Proof.
  unfold inv_check. rewrite !andb_true_iff, Z.leb_le. intros [[[Hs Hg] Hm] Hq].
  assert (c_sorted c) as Hso.
  { intros t. unfold look. destruct (c !! t) as [x|] eqn:E; cbn; [|done].
    rewrite forallb_forall in Hs. apply o_sorted_b_spec. apply (Hs (t, x)).
    apply list_elem_of_In. by apply elem_of_map_to_list. }
  assert (Forall (fun kv => exists q, kv.1 = str_bytes q /\ safe_name q = true)
            (look c META_QUEUES_TREE)) as Hmeta.
  { eapply forallb_Forall_impl; [|exact Hm]. intros kv. unfold meta_check.
    destruct (from_utf8 kv.1) as [q|]; [|done]. rewrite andb_true_iff.
    intros [->%bool_decide_eq_true ?]. eauto. }
  split; auto. intros q Hd. apply queue_check_spec. rewrite forallb_forall in Hq. apply Hq.
  apply list_elem_of_In. unfold declared in Hd. apply bool_decide_eq_true in Hd as [v Hv].
  apply o_get_Some_elem in Hv. unfold queue_names. rewrite list_elem_of_omap.
  exists (str_bytes q, v). split; [done|]. rewrite Forall_forall in Hmeta.
  destruct (Hmeta _ Hv) as (q' & Hq' & Hs'). cbn in *. apply str_bytes_inj in Hq' as <-.
  apply from_utf8_str. apply safe_name_spec in Hs'. tauto.
Qed.

(** Deciding that every timestamp of a tree is within the range retention handles. *)
Definition sane_time_check (t : tree) : bool :=
  forallb (fun kv => match de_msg kv.2 with
                     | Ok m => (- (i64_lim / 4) <=? timestamp m) && (timestamp m <? i64_lim)
                     | Err _ => true
                     end) t.

Lemma sane_time_check_spec t : sane_time_check t = true -> Forall sane_time t.
Proof.
  apply forallb_Forall_impl. intros kv Hkv m Hm. rewrite Hm in Hkv.
  apply andb_true_iff in Hkv as [Ha%Z.leb_le Hb%Z.ltb_lt]. done.
Qed.
End Fsck.

(** ** A concrete instance *)

Module Demo.
Export Mem Ref.

(** A clock that advances one millisecond per reading. *)
#[export] Instance DemoEnv : Environment :=
  {| clock_read n := Some (1700000000000 + Z.of_nat (n mod 1000)); uuid_v4 n := Z.of_nat (n mod 1000) |}.
#[export] Instance DemoEnvLaws : EnvironmentLaws.
Proof.
  split; intros n; pose proof (Nat.mod_upper_bound n 1000) as Hn.
  - eexists. split; [reflexivity|]. change (i64_lim / 4) with 2305843009213693952. lia.
  - cbn. lia.
Qed.

(** A checked build. *)
#[export] Instance DemoProfile : BuildProfile := {| overflow_checks := true |}.

Definition world_of (v : View) (max : option Z) : World := mkWorld (mkQM (v : db_t) 0 max) (mkEnv 0 0).

Definition exec {A} (m : QM A) (w : World) : World := (m w).2.

Lemma exec_run {A} (m : QM A) w o : (m w).1 = o -> m w = (o, exec m w).
Proof. intros <-. apply surjective_pairing. Qed.

Definition msg (uuid prio : Z) : Message := mkMessage uuid [uuid] ∅ 1700000000000 0 prio None None.
Definition at_msg (uuid t : Z) : Message := with_deliver_at t (msg uuid 0).
Definition keyed (uuid : Z) (k : string) : Message := with_dedup_key k (msg uuid 0).

(** Two queues, one with limits; three ready messages, one in flight, two scheduled. *)
Definition limits : RetentionPolicy := RetentionPolicy_new (Some 3600) (Some 1) (Some 2) (Some 60).
Definition w_empty : World := world_of Mem.empty (Some 10000).
Definition w_declared : World :=
  exec (declare_queue "plain" ;;; declare_queue_with_retention "orders" limits) w_empty.
Definition w_busy : World :=
  exec (publish "orders" (msg 1 3) ;;; publish "orders" (msg 2 9) ;;; publish "orders" (msg 3 3) ;;;
        publish "orders" (keyed 4 "k") ;;; publish "orders" (at_msg 5 1700000000005) ;;;
        publish "orders" (at_msg 6 1800000000000) ;;; publish "plain" (msg 7 0) ;;;
        consume "orders") w_declared.

Lemma w_declared_inv : Inv (store w_declared) (idgen w_declared).
Proof. apply inv_check_spec. vm_compute. reflexivity. Qed.
Lemma w_busy_inv : Inv (store w_busy) (idgen w_busy).
Proof. apply inv_check_spec. vm_compute. reflexivity. Qed.
End Demo.
