(* ===== verification/EngineTheorems.v ===== *)
(** * EngineTheorems: what the queue engine guarantees

    The properties of the engine's methods, each followed by its witness: the
    theorem applied to a database of [Fsck.Demo]. *)

From Stdlib Require Import ZArith Lia.
From stdpp Require Import prelude gmap strings.
From S2P Require Import Prelude Bytes OrdMap Sled Message Bincode Keys QueueManager Store Spec.
From S2P Require Import Engine Invariant Refinement Maintenance Retention Fsck.

Lemma wp_run {S E A} (m : M S E A) (Q : Outcome E A -> S -> Prop) s :
  wp m Q s -> exists o s', m s = (o, s') /\ Q o s'.
Proof. unfold wp. intros HQ. destruct (m s) as [o s'] eqn:E0. eauto. Qed.

Section Claims.
Context `{!Sled, !SledLaws, !SledReliable, !Bincode, !BincodeLaws,
          !Environment, !EnvironmentLaws, !BuildProfile}.

(** C1: Publishing to a declared queue of a well-formed store either stores the
    message or reports a duplicate or an exhausted storage limit, never panics,
    and does so exactly when it should: stored means the abstract queue gains the
    message at its place in delivery order (or in the schedule when its delivery
    time is in the future) under a fresh id, the byte counter grows by the
    serialized size and stays within the limit, and no other queue changes;
    rejected means the store and the counter are unchanged. *)
Theorem publish_refines q m v w :
  Inv (store w) (idgen w) -> declared (store w) q = true -> stores m v ->
  sane_policy (policy (store w) q) = true -> room w (Z.of_nat (length v)) ->
  exists o w', publish q m w = (o, w') /\ publish_post q m v w o w'.
Proof. intros. apply wp_run. by apply publish_sim. Qed.

(** C2: Consuming from a declared queue returns the head of the delivery order
    with its id as the delivery tag and moves exactly that message in flight, or
    returns nothing when no message is ready; it never fails or panics, changes
    no other queue and no byte count. *)
Theorem consume_refines q w :
  Inv (store w) (idgen w) -> declared (store w) q = true -> idgen w <= u64_lim ->
  exists o w', consume q w = (o, w') /\ consume_post q w o w'.
Proof. intros. apply wp_run. by apply consume_sim. Qed.

(** C3: Acknowledging a tag in flight removes exactly that message and subtracts
    its serialized size from the byte counter; any other tag is reported as
    invalid and leaves the store unchanged. *)
Theorem ack_refines q tag w :
  Inv (store w) (idgen w) -> declared (store w) q = true -> idgen w <= u64_lim ->
  0 <= tag_u64 tag < u64_lim ->
  exists o w', ack q tag w = (o, w') /\ ack_post q tag w o w'.
Proof. intros. apply wp_run. by apply ack_sim. Qed.

(** C4: A negative acknowledgement of a tag in flight counts one more delivery
    attempt and moves the message, under a fresh id, behind the ready messages of
    its priority, or to the dead letters once the attempts reach the policy's
    positive maximum (a maximum of 0 is no limit); any other tag is reported as
    invalid with the store unchanged.  The documentation disagrees with the code
    twice: delivery-semantics.md dead-letters only when the attempts exceed the
    maximum, and dead-letter-queues.md has no exception for a maximum of 0. *)
Theorem nack_refines q tag w :
  Inv (store w) (idgen w) -> declared (store w) q = true -> idgen w <= u64_lim ->
  0 <= tag_u64 tag < u64_lim ->
  (forall m, a_inflight (abs (store w) q) !! tag_u64 tag = Some m -> delivery_attempts m + 1 < u32_lim) ->
  exists o w', nack q tag w = (o, w') /\ nack_post q tag w o w'.
Proof. intros. apply wp_run. by apply nack_sim. Qed.

(** C5: Promotion moves exactly the scheduled messages due at the time of the
    call, in due order, behind the ready messages of their priority under fresh
    ids, and returns how many it moved. *)
Theorem promote_refines q w :
  Inv (store w) (idgen w) -> declared (store w) q = true -> idgen w <= u64_lim ->
  exists o w', promote_scheduled q w = (o, w') /\ promote_post q w o w'.
Proof. intros. apply wp_run. by apply promote_sim. Qed.

(** C6: A retention pass keeps, of the ready messages only, those younger than
    the maximum age, and of these drops the excess over the maximum count at the
    front of the delivery order; it returns how many it dropped and, if any,
    recomputes the byte counter from the stored values.  Messages in flight, dead
    letters and scheduled messages stay whatever their age, although retention.md
    says that expired messages are purged from all trees. *)
Theorem retention_refines q w :
  Inv (store w) (idgen w) -> declared (store w) q = true -> idgen w <= u64_lim ->
  sane_policy (policy (store w) q) = true -> Forall sane_time (slot (store w) Main q) ->
  total_bytes (store w) < u64_lim ->
  exists o w', apply_retention q w = (o, w') /\ retention_post q w o w'.
Proof. intros. apply wp_run. by apply retention_sim. Qed.

(** C7: Opening an existing well-formed database succeeds, sets the byte counter
    to the bytes stored, keeps queues, policies, ready, dead and scheduled
    messages, and requeues every message that was in flight, in tag order and
    with its attempts unchanged, leaving nothing in flight. *)
Theorem open_recovers d max e :
  Inv (contents (view d)) (v_idgen (view d)) -> total_bytes (contents (view d)) < u64_lim ->
  let w := mkWorld (mkQM d 0 max) e in
  exists w', open (Ok d) max e = (Done tt, Some w') /\ open_post max w w'.
Proof. apply open_sim. Qed.

(** C26: The unbounded [loop] of [consume] returns in its first iteration whatever
    the number of iterations allowed, with the same result. *)
Theorem consume_loop_terminates n q w :
  Inv (store w) (idgen w) -> declared (store w) q = true -> idgen w <= u64_lim ->
  consume_loop (S n) q w = consume_loop 1 q w /\
  exists r w', consume_loop (S n) q w = (Done r, w').
Proof.
  intros HI Hd Hn. pose proof (main_entries_u64 _ _ _ HI Hn Hd) as Hall.
  apply (consume_loop_first n q w Hall).
Qed.
End Claims.

(** ** Witnesses *)

Import Demo.

(** The claims' hypotheses on a concrete world. *)
Ltac demo :=
  first [ exact w_busy_inv | exact w_declared_inv
        | vm_compute; reflexivity | vm_compute; split; [discriminate|reflexivity]
        | vm_compute; discriminate ].

Definition bytes_of (m : Message) : bytes := match ser_msg m with Ok v => v | Err _ => [] end.

Lemma publish_refines_witness :
  exists o w', publish "orders" (msg 8 5) w_busy = (o, w') /\
    publish_post "orders" (msg 8 5) (bytes_of (msg 8 5)) w_busy o w'.
Proof.
  apply (publish_refines "orders" (msg 8 5) (bytes_of (msg 8 5)) w_busy); try demo.
  - split; vm_compute; reflexivity.
  - unfold room. split_and!; demo.
Defined.

Lemma consume_refines_witness :
  exists o w', consume "orders" w_busy = (o, w') /\ consume_post "orders" w_busy o w'.
Proof. apply (consume_refines "orders" w_busy); demo. Defined.

Lemma ack_refines_witness :
  exists o w', ack "orders" (mkTag 1) w_busy = (o, w') /\ ack_post "orders" (mkTag 1) w_busy o w'.
Proof. apply (ack_refines "orders" (mkTag 1) w_busy); try demo. Defined.

Lemma nack_refines_witness :
  exists o w', nack "orders" (mkTag 1) w_busy = (o, w') /\ nack_post "orders" (mkTag 1) w_busy o w'.
Proof.
  apply (nack_refines "orders" (mkTag 1) w_busy); [demo|demo|demo|demo|].
  intros m Hm. assert (m = msg 2 9) as ->; [|reflexivity].
  vm_compute in Hm. injection Hm as <-. reflexivity.
Defined.

Lemma promote_refines_witness :
  exists o w', promote_scheduled "orders" w_busy = (o, w') /\ promote_post "orders" w_busy o w'.
Proof. apply (promote_refines "orders" w_busy); demo. Defined.

Lemma retention_refines_witness :
  exists o w', apply_retention "orders" w_busy = (o, w') /\ retention_post "orders" w_busy o w'.
Proof.
  apply (retention_refines "orders" w_busy); [demo|demo|demo|demo| |demo].
  apply sane_time_check_spec. vm_compute. reflexivity.
Defined.

(** The database of [w_busy] after a crash: what a new process opens. *)
Definition w_crashed : World := mkWorld (mkQM (db (qm w_busy)) 0 (Some 10000)) (mkEnv 0 0).

Lemma open_recovers_witness :
  exists w', open (Ok (db (qm w_busy))) (Some 10000) (mkEnv 0 0) = (Done tt, Some w') /\
    open_post (Some 10000) w_crashed w'.
Proof.
  apply (open_recovers (db (qm w_busy)) (Some 10000) (mkEnv 0 0)); [exact w_busy_inv|demo].
Defined.

Lemma consume_loop_terminates_witness :
  consume_loop 7 "orders" w_busy = consume_loop 1 "orders" w_busy /\
  exists r w', consume_loop 7 "orders" w_busy = (Done r, w').
Proof. apply (consume_loop_terminates 6 "orders" w_busy); demo. Defined.
