(* ===== verification/Holdings.v ===== *)
(** * Holdings: the messages a queue holds, and their size

    The multiset of the messages of an abstract queue, up to the delivery
    counter that redelivery changes, and how each abstract operation changes it.
    The stored bytes of a queue are a function of it. *)

From Stdlib Require Import ZArith Lia.
From stdpp Require Import prelude gmap strings.
From S2P Require Import Prelude Bytes OrdMap Sled Message Bincode Keys QueueManager Store Spec.
From S2P Require Import Engine Invariant Refinement Maintenance Retention.

(** All messages of a queue: ready, in flight, dead and scheduled. *)
Definition holdings (a : AQueue) : list Message :=
  map snd (a_ready a) ++ map snd (map_to_list (a_inflight a)) ++ map snd (a_dead a) ++ map smsg (a_sched a).

(** The message without its delivery counter. *)
Definition strip (m : Message) : Message := set_attempts 0 m.
Definition content (a : AQueue) : list Message := map strip (holdings a).

Definition empty_queue : AQueue := mkAQ [] ∅ [] [].

Lemma stable_insert_perm {A} (rank : A -> Z) x l : stable_insert rank x l ≡ₚ x :: l.
Proof.
  induction l as [|y l IH]; cbn; [done|]. destruct (_ <? _); [done|].
  rewrite IH. apply Permutation_swap.
Qed.

Lemma refile_perm es l : refile es l ≡ₚ es ++ l.
Proof.
  revert l. induction es as [|e es IH]; intros l; cbn; [done|].
  change (foldl (fun l e => enqueue e l) (enqueue e l) es) with (refile es (enqueue e l)).
  rewrite IH. unfold enqueue. rewrite stable_insert_perm. by rewrite Permutation_middle.
Qed.

(** Moves a part of one permutation's side to where the other has it. *)
Ltac perm := unfold holdings; cbn [a_ready a_inflight a_dead a_sched]; rewrite ?map_app;
  cbn [map]; try solve_Permutation.

Lemma holdings_publish e a : holdings (a_publish e a) ≡ₚ e.2 :: holdings a.
Proof. unfold a_publish, enqueue. perm. by rewrite stable_insert_perm. Qed.

Lemma holdings_schedule e a : holdings (a_schedule e a) ≡ₚ smsg e :: holdings a.
Proof.
  unfold a_schedule, schedule. perm. rewrite stable_insert_perm. cbn.
  rewrite !app_assoc. by rewrite <- Permutation_middle.
Qed.

Lemma holdings_store fut i m a : holdings (a_store fut i m a) ≡ₚ m :: holdings a.
Proof. destruct fut as [t|]; cbn; [apply (holdings_schedule (t, (i, m)))|apply (holdings_publish (i, m))]. Qed.

Lemma inflight_delete (f : gmap Z Message) t m :
  f !! t = Some m -> map snd (map_to_list f) ≡ₚ m :: map snd (map_to_list (delete t f)).
Proof. intros Hf. by rewrite <- (map_to_list_delete f t m) by done. Qed.

Lemma inflight_insert (f : gmap Z Message) t m :
  f !! t = None -> map snd (map_to_list (<[t := m]> f)) ≡ₚ m :: map snd (map_to_list f).
Proof. intros Hf. by rewrite map_to_list_insert by done. Qed.

Lemma holdings_consume a :
  (forall e, e ∈ a_ready a -> a_inflight a !! e.1 = None) ->
  holdings (a_consume a).2 ≡ₚ holdings a.
Proof.
  intros Hfr. unfold a_consume. destruct (a_ready a) as [|e l] eqn:E; [done|]. cbn [snd].
  unfold holdings. rewrite E. cbn [a_ready a_inflight a_dead a_sched].
  rewrite inflight_insert by (apply Hfr; left). cbn. by rewrite <- Permutation_middle.
Qed.

Lemma holdings_ack t m a :
  a_inflight a !! t = Some m -> holdings a ≡ₚ m :: holdings (a_ack t a).
Proof.
  intros Hm. unfold holdings, a_ack. cbn [a_ready a_inflight a_dead a_sched].
  rewrite (inflight_delete _ _ _ Hm). cbn. by rewrite <- Permutation_middle.
Qed.

Lemma strip_attempts n m : strip (set_attempts n m) = strip m.
Proof. done. Qed.

Lemma content_nack max t i m a :
  a_inflight a !! t = Some m -> content (a_nack max t i m a) ≡ₚ content a.
Proof.
  intros Hm. unfold content. rewrite (holdings_ack _ _ _ Hm). cbn [map].
  rewrite <- (strip_attempts (delivery_attempts m + 1) m). rewrite <- map_cons. f_equiv.
  unfold a_nack. destruct (exhausted _ _); unfold enqueue, holdings, a_ack;
    cbn [a_ready a_inflight a_dead a_sched]; rewrite stable_insert_perm; cbn; [|done].
  rewrite !app_assoc. by rewrite <- Permutation_middle, !app_assoc.
Qed.

Lemma zip_snd (ids : list Z) (ms : list Message) : length ids = length ms -> map snd (zip ids ms) = ms.
Proof. revert ms. induction ids as [|i ids IH]; intros [|m ms]; cbn; try done. intros [=]. f_equal. auto. Qed.

Lemma holdings_promote now ids a :
  length ids = length (take_while (due now) (a_sched a)) -> holdings (a_promote now ids a) ≡ₚ holdings a.
Proof.
  intros Hlen. unfold a_promote, holdings. cbn [a_ready a_inflight a_dead a_sched].
  rewrite refile_perm, map_app, zip_snd by (by rewrite length_map).
  set (l := take_while _ _).
  assert (a_sched a = l ++ drop (length l) (a_sched a)) as Hs.
  { clear. subst l. induction (a_sched a) as [|e s IH]; cbn; [done|].
    destruct (due now e); cbn; [by rewrite <- IH|done]. }
  rewrite Hs at 2. rewrite map_app. solve_Permutation.
Qed.

(** What a retention pass drops. *)
Definition dropped (kept l : list entry) : list entry := filter (fun e => e ∉ kept) l.

Lemma dropped_self l : dropped l l = [].
Proof.
  destruct (dropped l l) as [|e t] eqn:E; [done|].
  assert (e ∈ dropped l l) as He by (rewrite E; left).
  unfold dropped in He. apply list_elem_of_filter in He. tauto.
Qed.

Lemma dropped_perm (kept l : list entry) :
  NoDup l -> sublist kept l -> l ≡ₚ kept ++ dropped kept l.
Proof.
  intros Hnd Hsub. apply NoDup_Permutation; [done|..].
  - apply NoDup_app. split_and!; [by eapply sublist_NoDup| |by apply NoDup_filter].
    unfold dropped. intros e Hin Hd. apply list_elem_of_filter in Hd. tauto.
  - intros e. unfold dropped. rewrite elem_of_app, list_elem_of_filter.
    destruct (decide (e ∈ kept)) as [Hin|]; [|tauto]. split; [tauto|]. intros _.
    by eapply elem_of_sublist.
Qed.

Lemma retained_sublist p now l : sublist (retained p now l) l.
Proof.
  unfold retained. transitivity (keep_young p now l).
  - unfold keep_count. destruct (max_messages p); [apply sublist_drop|done].
  - unfold keep_young. destruct (max_age_secs p); [|done]. clear.
    induction l as [|e l IH]; cbn; [done|]. destruct (negb _); by constructor.
Qed.

Lemma holdings_retain p now a :
  NoDup (a_ready a) ->
  holdings a ≡ₚ holdings (a_retain p now a) ++ map snd (dropped (retained p now (a_ready a)) (a_ready a)).
Proof.
  intros Hnd. pose proof (dropped_perm _ _ Hnd (retained_sublist p now (a_ready a))) as Hp.
  unfold holdings, a_retain. cbn [a_ready a_inflight a_dead a_sched].
  rewrite Hp at 1. rewrite map_app. solve_Permutation.
Qed.

Section Holdings.
Context `{!Bincode, !BincodeLaws}.
Implicit Types c : store_t.

(** ** Ids are unique among the ready and the in-flight messages *)

Lemma ready_NoDup c n q : QInv c n q -> NoDup (a_ready (abs c q)).
Proof.
  intros HQ. pose proof (qi_ids _ _ _ HQ) as Hnd. apply NoDup_app in Hnd as (Hnd & _ & _).
  by apply (NoDup_fmap_1 fst).
Qed.

(** The form of a queue's entries, without the freshness of the tags. *)
Record QForm c (n : Z) (q : string) : Prop := {
  qf_main : Forall (main_entry n) (slot c Main q);
  qf_tag : Forall (tag_entry n) (slot c Inflight q);
  qf_dlq : Forall (main_entry n) (slot c Dlq q);
  qf_sched : Forall (sched_entry n) (slot c Scheduled q);
  qf_tags : NoDup (tag_ids (slot c Inflight q));
}.

Lemma QInv_QForm c n q : QInv c n q -> QForm c n q.
Proof.
  intros [Hm Ht Hd Hs _ Hids]. split; auto. by apply NoDup_app in Hids as (_ & _ & ?).
Qed.

Lemma inflight_perm c n q : QForm c n q -> map_to_list (a_inflight (abs c q)) ≡ₚ inflight_list c q.
Proof. intros HQ. by apply map_to_list_to_map, HQ. Qed.

Lemma ready_not_inflight c n q e :
  QInv c n q -> e ∈ a_ready (abs c q) -> a_inflight (abs c q) !! e.1 = None.
Proof.
  intros HQ Hin. pose proof (qi_ids _ _ _ HQ) as Hnd. apply NoDup_app in Hnd as (_ & Hdis & _).
  apply not_elem_of_list_to_map_1. apply (Hdis e.1). by apply (list_elem_of_fmap_2 fst).
Qed.

Lemma holdings_recover c n q ids :
  QInv c n q -> length ids = length (inflight_list c q) ->
  holdings (a_recover ids (map snd (inflight_list c q)) (abs c q)) ≡ₚ holdings (abs c q).
Proof.
  intros HQ Hlen. unfold holdings, a_recover. cbn [a_ready a_dead a_sched a_inflight].
  rewrite (inflight_perm c n q (QInv_QForm _ _ _ HQ)), map_to_list_empty. cbn [map app].
  rewrite refile_perm, map_app, zip_snd by (by rewrite length_map). solve_Permutation.
Qed.

(** ** Bytes *)

(** The serialized size of a message. *)
Definition msg_size (m : Message) : Z :=
  match ser_msg m with Ok v => Z.of_nat (length v) | Err _ => 0 end.

Definition content_bytes (l : list Message) : Z := sum_over msg_size l.

#[export] Instance content_bytes_perm : Proper (Permutation ==> eq) content_bytes.
Proof. intros l l' Hp. unfold content_bytes. induction Hp; cbn; lia. Qed.

Lemma content_bytes_cons m l : content_bytes (m :: l) = msg_size m + content_bytes l.
Proof. done. Qed.

Lemma content_bytes_app l l' : content_bytes (l ++ l') = content_bytes l + content_bytes l'.
Proof. unfold content_bytes. induction l as [|m l IH]; cbn; lia. Qed.

Lemma stores_size m v : stores m v -> msg_size m = Z.of_nat (length v).
Proof. intros [_ Hs]. unfold msg_size. by rewrite Hs. Qed.

(** The delivery counter has a fixed width. *)
Lemma stores_strip m v : stores m v -> msg_size (strip m) = Z.of_nat (length v).
Proof.
  intros [Hw Hs]. destruct (ser_msg_total (strip m)) as [v' Hv'].
  { apply wf_set_attempts; [done|lia]. }
  unfold msg_size. rewrite Hv'. by rewrite (ser_msg_fixed m 0 v v' Hs Hv').
Qed.

(** Decoding a tree whose entries all decode to a stored message. *)
Lemma tree_content {A} (dec : bytes * bytes -> option A) (msg_of : A -> Message) t :
  Forall (fun kv => exists x, dec kv = Some x /\ stores (msg_of x) kv.2) t ->
  content_bytes (map strip (map msg_of (omap dec t))) = val_bytes t.
Proof.
  induction 1 as [|[k v] t (x & Hd & Hs) Ht IH]; cbn; [done|]. rewrite Hd. cbn.
  unfold content_bytes in *. cbn. rewrite IH. cbn in Hs. by rewrite (stores_strip _ _ Hs).
Qed.

(** The bytes of a queue's four message trees are the sizes of its messages. *)
Lemma queue_bytes_content c n q :
  QForm c n q -> n <= u64_lim -> queue_bytes c q = content_bytes (content (abs c q)).
Proof.
  intros HQ Hn. unfold content, holdings.
  rewrite (inflight_perm c n q HQ), !map_app, !content_bytes_app.
  unfold queue_bytes, inflight_list. change (a_ready (abs c q)) with (omap dec_main (slot c Main q)).
  change (a_dead (abs c q)) with (omap dec_main (slot c Dlq q)).
  change (a_sched (abs c q)) with (omap dec_sched (slot c Scheduled q)).
  rewrite !tree_content; [lia|..].
  - eapply Forall_impl; [apply HQ|]. intros kv Hkv.
    destruct (sched_entry_dec n kv Hn Hkv) as (t & i & m & Hd & _ & Hs & _). by exists (t, (i, m)).
  - eapply Forall_impl; [apply HQ|]. intros kv Hkv.
    destruct (main_entry_dec n kv Hn Hkv) as (i & m & Hd & _ & Hs & _). by exists (i, m).
  - eapply Forall_impl; [apply HQ|]. intros kv Hkv.
    destruct (tag_entry_dec n kv Hn Hkv) as (i & m & Hd & _ & Hs & _). by exists (i, m).
  - eapply Forall_impl; [apply HQ|]. intros kv Hkv.
    destruct (main_entry_dec n kv Hn Hkv) as (i & m & Hd & _ & Hs & _). by exists (i, m).
Qed.
End Holdings.
