(* ===== verification/Frames.v ===== *)
(** * Frames: what the calls of the engine leave alone

    A small logic for relations between the first and the last state of a
    computation ([keeps]), and its use on the engine: which trees every call leaves
    as they are, and that ids and readings of the clock only go forward. *)

From Stdlib Require Import ZArith Lia.
From stdpp Require Import prelude gmap strings.
From S2P Require Import Prelude Bytes OrdMap Sled Message Bincode Keys QueueManager Store Spec Engine.
From S2P Require Import Invariant Refinement Maintenance.

(** ** What a computation keeps *)

(** A computation that returns went through its first part. *)
Lemma bind_Done {S E A B} (m : M S E A) (k : A -> M S E B) s b s' :
  bind m k s = (Done b, s') -> exists a s1, m s = (Done a, s1) /\ k a s1 = (Done b, s').
Proof. unfold bind. destruct (m s) as [[a|e| |] s1]; try done. eauto. Qed.

Section Keeps.
Context {S E : Type} (R : S -> S -> Prop) `{!PreOrder R}.

(** However it ends, the state is related to the initial one. *)
Definition keeps {A} (m : M S E A) : Prop := forall s, R s (m s).2.

Lemma keeps_ret {A} (a : A) : keeps (ret a).
Proof. by intros s. Qed.
Lemma keeps_fail {A} e : keeps (A := A) (fail e).
Proof. by intros s. Qed.
Lemma keeps_panic {A} : keeps (A := A) panic.
Proof. by intros s. Qed.
Lemma keeps_or_panic {A} (o : option A) : keeps (or_panic o).
Proof. by destruct o; intros s. Qed.
Lemma keeps_out_of_fuel {A} : keeps (A := A) out_of_fuel.
Proof. by intros s. Qed.
Lemma keeps_gets {A} (f : S -> A) : keeps (gets f).
Proof. by intros s. Qed.

Lemma keeps_bind {A B} (m : M S E A) (k : A -> M S E B) : keeps m -> (forall a, keeps (k a)) -> keeps (bind m k).
Proof.
  intros Hm Hk s. unfold bind. specialize (Hm s). destruct (m s) as [[a|e| |] s']; try done.
  etrans; [exact Hm|apply Hk].
Qed.

Lemma keeps_try {A} (m : M S E A) : keeps m -> keeps (try m).
Proof. intros Hm s. unfold try. specialize (Hm s). by destruct (m s) as [[]]. Qed.

Lemma keeps_for_each {A} (l : list A) (body : A -> M S E unit) : (forall x, keeps (body x)) -> keeps (for_each l body).
Proof. intros Hb. induction l as [|x l IH]; cbn; [apply keeps_ret|]. apply keeps_bind; auto. Qed.

Lemma keeps_for_each_in {A} (l : list A) (body : A -> M S E unit) :
  (forall x, x ∈ l -> keeps (body x)) -> keeps (for_each l body).
Proof.
  induction l as [|x l IH]; intros Hb; cbn; [apply keeps_ret|]. apply keeps_bind; [apply Hb; left|].
  intros _. apply IH. intros y Hy. apply Hb. by right.
Qed.

Lemma keeps_for_fold {A B} (l : list A) (acc : B) (body : B -> A -> M S E B) :
  (forall acc x, keeps (body acc x)) -> keeps (for_fold l acc body).
Proof. intros Hb. revert acc. induction l as [|x l IH]; intros acc; cbn; [apply keeps_ret|]. apply keeps_bind; auto. Qed.
End Keeps.

Create HintDb frame.
#[export] Hint Resolve keeps_ret keeps_fail keeps_panic keeps_or_panic keeps_out_of_fuel keeps_gets : frame.

(** Decompose a computation that keeps a relation along its structure. *)
Ltac keeps :=
  repeat first
    [ progress intros
    | solve [auto with frame typeclass_instances]
    | apply keeps_bind; [apply _|..]
    | apply keeps_try
    | apply keeps_for_each; [apply _|..]
    | apply keeps_for_fold; [apply _|..]
    | match goal with
      | |- keeps _ (match ?x with _ => _ end) => destruct x
      | |- keeps _ (if ?b then _ else _) => destruct b
      end ].

(** ** Transactions *)

(** The transaction writes no tree of [T]. *)
Inductive tx_avoids (T : string -> Prop) {A} : Tx A -> Prop :=
| avoids_ret a : tx_avoids T (TxRet a)
| avoids_abort : tx_avoids T TxAbort
| avoids_panic : tx_avoids T TxPanic
| avoids_remove t k c : ~ T t -> (forall r, tx_avoids T (c r)) -> tx_avoids T (TxRemove t k c)
| avoids_insert t k x c : ~ T t -> tx_avoids T c -> tx_avoids T (TxInsert t k x c).
#[export] Hint Constructors tx_avoids : frame.

Lemma run_tx_avoids (T : string -> Prop) {A} (b : Tx A) v t :
  tx_avoids T b -> T t -> tree_of (run_tx b v).2 t = tree_of v t.
Proof.
  intros Hb Ht. revert v. induction Hb as [a| | |t' k c Hn _ IH|t' k x c Hn _ IH]; intros v; cbn; try done.
  - rewrite IH. apply tree_of_remove_ne. congruence.
  - rewrite IH. apply tree_of_insert_ne. congruence.
Qed.

Lemma commit_tx_avoids (T : string -> Prop) {A} (b : Tx A) v t :
  tx_avoids T b -> T t -> tree_of (commit_tx b v).2 t = tree_of v t.
Proof.
  intros Hb Ht. pose proof (run_tx_avoids T b v t Hb Ht) as Hr. unfold commit_tx. by destruct (run_tx b v) as [[] v'].
Qed.

(** ** The calls of the engine *)

Section Calls.
Context `{!Sled, !Bincode, !Environment, !BuildProfile}.
Implicit Types w : World.

(** [R] relates the states before and after every primitive call of the engine that
    writes no tree of [T]. *)
Class Leaves (R : World -> World -> Prop) (T : string -> Prop) : Prop := {
  leaves_preorder : PreOrder R;
  leaves_open t : keeps (E := PelicanError) R (db_update (open_tree t));
  leaves_insert t k x : ~ T t -> keeps (E := PelicanError) R (db_update (tree_insert t k x));
  leaves_remove t k : ~ T t -> keeps (E := PelicanError) R (db_update (tree_remove t k));
  leaves_generate : keeps (E := PelicanError) R (db_update generate_id);
  leaves_transaction A (b : Tx A) : tx_avoids T b -> keeps (E := PelicanError) R (run_transaction b);
  leaves_now : keeps (E := PelicanError) R now_ms;
  leaves_bytes f : keeps (E := PelicanError) R (modify (fun w => set_bytes (f w) w));
}.

Context {R : World -> World -> Prop} {T : string -> Prop} `{!Leaves R T}.

#[local] Instance kept_preorder : PreOrder R := leaves_preorder.

Abbreviation kept := (keeps (E := PelicanError) R).

Lemma kept_storage_err {A} (r : Result string A) : kept (storage_err r).
Proof. by destruct r; intros w. Qed.
Lemma kept_serialization_err {A} (r : Result string A) : kept (serialization_err r).
Proof. by destruct r; intros w. Qed.
Lemma kept_read {A} (f : db_t -> Result string A) : kept (db_read f).
Proof. intros w. apply kept_storage_err. Qed.
Lemma kept_set_bytes n : kept (modify (set_bytes n)).
Proof. exact (leaves_bytes (fun _ => n)). Qed.

Lemma kept_open t : kept (db_update (open_tree t)).
Proof. apply leaves_open. Qed.
Lemma kept_insert t k x : ~ T t -> kept (db_update (tree_insert t k x)).
Proof. apply leaves_insert. Qed.
Lemma kept_remove t k : ~ T t -> kept (db_update (tree_remove t k)).
Proof. apply leaves_remove. Qed.
Lemma kept_generate : kept (db_update generate_id).
Proof. apply leaves_generate. Qed.
Lemma kept_transaction {A} (b : Tx A) : tx_avoids T b -> kept (run_transaction b).
Proof. apply leaves_transaction. Qed.
Lemma kept_now : kept now_ms.
Proof. apply leaves_now. Qed.
Lemma kept_bytes f : kept (modify (fun w => set_bytes (f w) w)).
Proof. apply leaves_bytes. Qed.

#[local] Hint Resolve kept_storage_err kept_serialization_err kept_read kept_set_bytes kept_open kept_insert
  kept_remove kept_generate kept_transaction kept_now kept_bytes : frame.


Lemma kept_require_queue q : kept (require_queue q).
Proof. unfold require_queue. keeps. Qed.
Lemma kept_get_policy q : kept (get_policy q).
Proof. unfold get_policy. keeps. Qed.
Lemma kept_iter t : kept (iter_tree t).
Proof. unfold iter_tree. keeps. Qed.
Lemma kept_remove_key t k : ~ T t -> kept (remove_key t k).
Proof. intros Hn. unfold remove_key. keeps. Qed.
#[local] Hint Resolve kept_require_queue kept_get_policy kept_iter kept_remove_key : frame.

(** ** The engine's calls *)

Lemma kept_consume q : ~ T q -> ~ T (inflight_tree_name q) -> kept (consume q).
Proof.
  intros Hq Hi. assert (forall k i, tx_avoids T (consume_tx q k i)) as Htx.
  { intros k i. constructor; [done|]. intros [v|]; auto with frame. }
  assert (forall n, kept (consume_loop n q)) as Hl by (induction n; cbn [consume_loop]; keeps).
  unfold consume. keeps.
Qed.

Lemma kept_ack q t : ~ T (inflight_tree_name q) -> kept (ack q t).
Proof. intros Hi. unfold ack. keeps. Qed.

Lemma kept_nack q t : ~ T q -> ~ T (inflight_tree_name q) -> ~ T (dlq_tree_name q) -> kept (nack q t).
Proof.
  intros Hq Hi Hd. assert (forall k i m, tx_avoids T (nack_tx q k i m)) as Htx.
  { intros k i m. constructor; [done|]. intros [v|]; [|constructor]. cbn. repeat case_match; repeat constructor; auto. }
  unfold nack. keeps.
Qed.

Lemma kept_collect_due now l : kept (collect_due now l).
Proof. induction l; cbn [collect_due]; keeps. Qed.
#[local] Hint Resolve kept_collect_due : frame.

Lemma kept_promote q : ~ T q -> ~ T (scheduled_tree_name q) -> kept (promote_scheduled q).
Proof.
  intros Hq Hs. assert (forall k mk v, tx_avoids T (promote_tx q k mk v)) as Htx.
  { intros k mk v. constructor; [done|]. auto with frame. }
  unfold promote_scheduled, promote_entry. keeps.
Qed.

Lemma kept_recalculate : kept recalculate_bytes.
Proof. unfold recalculate_bytes, add_tree_bytes, list_queues. keeps. Qed.
Lemma kept_collect_expired now a l : kept (collect_expired now a l).
Proof. induction l; cbn [collect_expired]; keeps. Qed.
Lemma kept_collect_front n l : kept (collect_front n l).
Proof. revert n. induction l; intros [|n]; cbn [collect_front]; keeps. Qed.
#[local] Hint Resolve kept_recalculate kept_collect_expired kept_collect_front : frame.

Lemma kept_retention q : ~ T q -> kept (apply_retention q).
Proof. intros Hq. unfold apply_retention, expire_by_age, trim_to_count. keeps. Qed.

Lemma kept_is_duplicate q m p : kept (is_duplicate q m p).
Proof. unfold is_duplicate. keeps. Qed.
Lemma kept_check_limit n : kept (check_limit n).
Proof. unfold check_limit. keeps. Qed.
Lemma kept_add_bytes n : kept (add_bytes n).
Proof. unfold add_bytes. keeps. Qed.
Lemma kept_future m : kept (future_delivery m).
Proof. unfold future_delivery. keeps. Qed.
Lemma kept_record q m p : ~ T (dedup_tree_name q) -> kept (record_dedup_key q m p).
Proof. intros Hd. unfold record_dedup_key. keeps. Qed.
#[local] Hint Resolve kept_is_duplicate kept_check_limit kept_add_bytes kept_future kept_record : frame.

Lemma kept_publish q m :
  ~ T q -> ~ T (scheduled_tree_name q) -> ~ T (dedup_tree_name q) -> kept (publish q m).
Proof. intros Hq Hs Hd. unfold publish. keeps. Qed.

Lemma kept_declare q p :
  ~ T META_QUEUES_TREE -> ~ T META_RETENTION_TREE -> kept (declare_queue_with_retention q p).
Proof. intros Hq Hp. unfold declare_queue_with_retention. keeps. Qed.

Lemma kept_recover_queue q : ~ T q -> ~ T (inflight_tree_name q) -> kept (recover_queue q).
Proof. intros Hq Hi. unfold recover_queue, requeue_entry. keeps. Qed.
End Calls.

(** ** Trees left alone *)

Section Frames.
Context `{!Sled, !SledLaws, !SledReliable, !Bincode, !Environment, !BuildProfile}.
Implicit Types w : World.

(** The trees of [T] are the same, and ids and clock readings went forward. *)
Record frame (T : string -> Prop) w w' : Prop := {
  fr_trees : forall t, T t -> look (store w') t = look (store w) t;
  fr_idgen : idgen w <= idgen w';
  fr_clock : (clock_tick (env w) <= clock_tick (env w'))%nat;
}.

Context (T : string -> Prop).

#[export] Instance frame_preorder : PreOrder (frame T).
Proof.
  split; [by intros w|]. intros w1 w2 w3 [T1 G1 C1] [T2 G2 C2]. split; [|lia..].
  intros t Ht. by rewrite T2, T1.
Qed.

Abbreviation framed := (keeps (E := PelicanError) (frame T)).

Lemma frame_db d w :
  (forall t, T t -> tree_of (view d) t = tree_of (view (db (qm w))) t) -> idgen w <= v_idgen (view d) ->
  frame T w (set_db d w).
Proof. intros Ht Hg. split; [|exact Hg|done]. intros t Hin. unfold store. rewrite !look_contents. by apply Ht. Qed.

Lemma framed_open t : framed (db_update (open_tree t)).
Proof.
  intros w. unfold db_update. destruct (open_tree_rel t (db (qm w))) as [d Hd]. rewrite Hd. cbn.
  apply open_tree_law in Hd. apply frame_db; rewrite Hd; [intros; by rewrite tree_of_open|done].
Qed.

Lemma framed_insert t k x : ~ T t -> framed (db_update (tree_insert t k x)).
Proof.
  intros Hn w. unfold db_update. destruct (tree_insert_rel t k x (db (qm w))) as [d Hd]. rewrite Hd. cbn.
  apply tree_insert_law in Hd. apply frame_db; rewrite Hd; [|done]. intros t' Ht'. apply tree_of_insert_ne. congruence.
Qed.

Lemma framed_remove t k : ~ T t -> framed (db_update (tree_remove t k)).
Proof.
  intros Hn w. unfold db_update. destruct (tree_remove_rel t k (db (qm w))) as (r & d & Hd). rewrite Hd. cbn.
  apply tree_remove_law in Hd as [_ Hd]. apply frame_db; rewrite Hd; [|done]. intros t' Ht'. apply tree_of_remove_ne. congruence.
Qed.

Lemma framed_generate : framed (db_update generate_id).
Proof.
  intros w. unfold db_update. destruct (generate_id_rel (db (qm w))) as (i & d & Hd). rewrite Hd. cbn.
  apply generate_id_law in Hd as (Hd & _ & Hi). apply frame_db; [|unfold idgen; lia]. intros t _. unfold tree_of. by rewrite Hd.
Qed.

Lemma framed_transaction {A} (b : Tx A) : tx_avoids T b -> framed (run_transaction b).
Proof.
  intros Hb w. unfold run_transaction. pose proof (transaction_rel A b (db (qm w))) as Hr.
  destruct (transaction b (db (qm w))) as [r d] eqn:E. cbn in Hr. pose proof (transaction_law _ _ _ _ _ E Hr) as Hl.
  assert (frame T w (set_db d w)) as Hf; [|by destruct r].
  apply frame_db; replace (view d) with (commit_tx b (view (db (qm w)))).2 by (by rewrite Hl).
  - intros t Ht. by apply (commit_tx_avoids T).
  - destruct (commit_tx_contents b (view (db (qm w)))) as [_ Hg]. unfold idgen. lia.
Qed.

Lemma framed_now : framed now_ms.
Proof. intros w. unfold now_ms. destruct (clock_read _); (split; [done|done|cbn; lia]). Qed.

Lemma framed_bytes f : framed (modify (fun w => set_bytes (f w) w)).
Proof. by intros w. Qed.
#[export] Instance frame_leaves : Leaves (frame T) T.
Proof.
  split; auto using framed_open, framed_insert, framed_remove, framed_generate, framed_now, framed_bytes; [apply _|].
  intros A b. apply framed_transaction.
Qed.

(** Opening touches the main and in-flight trees of the declared queues. *)
Definition names_clear w : Prop :=
  forall q, q ∈ queue_names (store w) -> ~ T q /\ ~ T (inflight_tree_name q).

Definition frame_if w w' : Prop := names_clear w -> frame T w w'.

Lemma names_clear_frame w w' : T META_QUEUES_TREE -> frame T w w' -> names_clear w -> names_clear w'.
Proof. intros Hm Hf Hn q. unfold queue_names. rewrite (fr_trees _ _ _ Hf) by done. apply Hn. Qed.

Lemma frame_open_body w : T META_QUEUES_TREE -> names_clear w -> frame T w (open_body w).2.
Proof.
  intros Hm. assert (PreOrder frame_if) as HP.
  { split; [by intros w0 ?|]. intros w1 w2 w3 F1 F2 Hn. pose proof (F1 Hn) as Hf. etrans; [exact Hf|].
    apply F2. by eapply names_clear_frame. }
  assert (forall A (m : QM A), framed m -> keeps frame_if m) as Hk by (intros A m Hf w0 _; apply Hf).
  assert (keeps (E := PelicanError) frame_if recover_inflight) as Hr.
  { intros w0 Hn. unfold recover_inflight.
    assert (wp list_queues (fun o w' => o = Done (queue_names (store w0)) /\ w' = w0) w0) as Hl by (by apply wp_list_queues).
    unfold wp in Hl. unfold bind. destruct (list_queues w0) as [o w1]. cbn [fst snd] in Hl. destruct Hl as [-> ->].
    revert w0 Hn. enough (forall l, (forall q, q ∈ l -> ~ T q /\ ~ T (inflight_tree_name q)) -> framed (for_each l recover_queue)) as Hf
      by (intros w0 Hn; apply Hf, Hn).
    intros l Hn. apply keeps_for_each_in; [apply _|]. intros q Hq. destruct (Hn q Hq) as [Hq' Hi].
    by apply kept_recover_queue. }
  revert w. enough (keeps frame_if open_body) as Ho by (intros w Hn; by apply Ho).
  unfold open_body. repeat (first [exact Hr|apply keeps_bind; [apply _|apply Hk|intros ?]]);
    first [apply kept_open|apply kept_recalculate|apply kept_set_bytes].
Qed.
End Frames.

(** ** The deduplication index *)

(** The deduplication tree of [q], the declared queues and the policies. *)
Definition protected (q t : string) : Prop :=
  t = dedup_tree_name q \/ t = META_QUEUES_TREE \/ t = META_RETENTION_TREE.

Lemma slot_unprotected q q' sl :
  safe_name q = true -> safe_name q' = true -> sl <> Dedup \/ q' <> q -> ~ protected q (slot_tree sl q').
Proof.
  intros Hq Hq' Hne. destruct (slot_tree_meta sl q' Hq') as [M1 M2]. intros [Ht|[Ht|Ht]]; [|done..].
  apply (slot_tree_inj sl q' Dedup q) in Ht as [-> ->]; [|done..]. by destruct Hne.
Qed.
