(* ===== verification/System.v ===== *)
(** * System: sequences of engine operations and restarts

    A state machine whose steps are the engine's methods and restarts on the
    flushed database.  The system invariant holds along every run, and a
    ledger of accepted, settled and dropped messages balances with what the
    queues hold. *)

From Stdlib Require Import ZArith Lia.
From stdpp Require Import prelude gmap strings.
From S2P Require Import Prelude Bytes OrdMap Sled Message Bincode Keys QueueManager Store Spec.
From S2P Require Import Engine Invariant Refinement Maintenance Retention Holdings.

(** ** Operations and the ledger *)

Inductive Op :=
| OpDeclare (queue : string) (policy : RetentionPolicy)
| OpPublish (queue : string) (message : Message)
| OpConsume (queue : string)
| OpAck (queue : string) (tag : DeliveryTag)
| OpNack (queue : string) (tag : DeliveryTag)
| OpPromote (queue : string)
| OpRetain (queue : string)
| OpReopen (e : Env).

(** What an operation did to the messages a queue answers for. *)
Inductive Event :=
| Accepted (queue : string) (message : Message)
| Settled (queue : string) (message : Message)
| Dropped (queue : string) (message : Message).

Definition accepted_at (q : string) (ev : Event) : option Message :=
  match ev with Accepted q' m => if bool_decide (q' = q) then Some m else None | _ => None end.
Definition removed_at (q : string) (ev : Event) : option Message :=
  match ev with
  | Settled q' m | Dropped q' m => if bool_decide (q' = q) then Some m else None
  | Accepted _ _ => None
  end.

(** The messages that entered, and that left, queue [q]. *)
Definition accepted (q : string) (tr : list Event) : list Message := omap (accepted_at q) tr.
Definition removed (q : string) (tr : list Event) : list Message := omap (removed_at q) tr.

Section System.
Context `{!Sled, !SledLaws, !SledReliable, !Bincode, !BincodeLaws,
          !Environment, !EnvironmentLaws, !BuildProfile}.
Implicit Types w : World.

(** A restart: sled has flushed the database, the process stops and opens it
    again.  sled promises that everything written before a flush that succeeded is
    recovered; it flushes in the background, the engine itself never asks for it.
    Nothing is assumed of a process that dies with unflushed writes (see
    [Durability]): while the flush fails there is no restart. *)
Definition reopen (e : Env) w : World :=
  match flush (db (qm w)) with
  | (Ok _, d) =>
    match open (Ok d) (max_bytes (qm w)) e with
    | (_, Some w') => w'
    | (_, None) => set_db d w
    end
  | (Err _, d) => set_db d w
  end.

(** One call of the engine, with the ledger entries of its result. *)
Definition run_op (op : Op) w : list Event * World :=
  match op with
  | OpDeclare q p => ([], (declare_queue_with_retention q p w).2)
  | OpPublish q m =>
    let '(o, w') := publish q m w in
    (match o with Done (Stored _) => [Accepted q m] | _ => [] end, w')
  | OpConsume q => ([], (consume q w).2)
  | OpAck q t =>
    let '(o, w') := ack q t w in
    (match o, a_inflight (abs (store w) q) !! tag_u64 t with
     | Done _, Some m => [Settled q m]
     | _, _ => []
     end, w')
  | OpNack q t => ([], (nack q t w).2)
  | OpPromote q => ([], (promote_scheduled q w).2)
  | OpRetain q =>
    let w' := (apply_retention q w).2 in
    (map (fun e => Dropped q e.2) (dropped (ready (store w') q) (ready (store w) q)), w')
  | OpReopen e => ([], reopen e w)
  end.

Definition sane_stamp (m : Message) : Prop := - (i64_lim / 4) <= timestamp m < i64_lim.

(** What the callers and the machine are assumed to respect: well-typed
    arguments, usable queue names, durations and times within range, and
    counters that do not overflow. *)
Definition admissible (op : Op) w : Prop :=
  match op with
  | OpDeclare q p => safe_name q = true /\ wf_policy p = true /\ sane_policy p = true
  | OpPublish q m => wf_message m = true /\ sane_stamp m /\ room w (msg_size m)
  | OpAck q t => 0 <= tag_u64 t < u64_lim
  | OpNack q t => 0 <= tag_u64 t < u64_lim /\
      forall m, a_inflight (abs (store w) q) !! tag_u64 t = Some m -> delivery_attempts m + 1 < u32_lim
  | OpRetain _ | OpReopen _ => total_bytes (store w) < u64_lim
  | OpConsume _ | OpPromote _ => True
  end.

(** Runs with their ledger; fewer than 2^64 ids are issued. *)
Inductive steps : World -> list Event -> World -> Prop :=
| steps_nil w : steps w [] w
| steps_cons w op ev w1 tr w' :
    admissible op w -> run_op op w = (ev, w1) -> idgen w1 <= u64_lim ->
    steps w1 tr w' -> steps w (ev ++ tr) w'.

(** ** The system invariant *)

(** The serialized size of all messages held. *)
Definition message_bytes (c : store_t) : Z := sum_over (queue_bytes c) (queue_names c).

Record SysInv w : Prop := {
  sys_inv : Inv (store w) (idgen w);
  sys_gen : idgen w <= u64_lim;
  sys_fresh : forall q, safe_name q = true -> declared (store w) q = false -> fresh_name (store w) q;
  sys_policy : forall q, declared (store w) q = true ->
    sane_policy (policy (store w) q) = true /\ wf_policy (policy (store w) q) = true;
  sys_stamp : forall q, safe_name q = true -> Forall sane_stamp (content (abs (store w) q));
  sys_bytes : message_bytes (store w) <= current_bytes (qm w);
}.

(** The ledger entries of a step balance with the contents of every queue. *)
Definition balanced w (ev : list Event) w' : Prop :=
  forall q, safe_name q = true ->
  content (abs (store w) q) ++ map strip (accepted q ev) ≡ₚ
  content (abs (store w') q) ++ map strip (removed q ev).

Definition within_limit w : Prop :=
  match max_bytes (qm w) with Some max => message_bytes (store w) <= max | None => True end.

(** What every admissible step guarantees. *)
Record StepOk w (ev : list Event) w' : Prop := {
  ok_inv : SysInv w';
  ok_balance : balanced w ev w';
  ok_max : max_bytes (qm w') = max_bytes (qm w);
  ok_limit : within_limit w -> within_limit w';
}.

(** ** Sums over the queues *)

Lemma sum_over_ext {A} (f g : A -> Z) l : (forall x, x ∈ l -> f x = g x) -> sum_over f l = sum_over g l.
Proof.
  induction l as [|x l IH]; intros Heq; cbn; [done|]. rewrite (Heq x) by left.
  rewrite IH; [done|]. intros y Hy. apply Heq. by right.
Qed.

Lemma sum_over_perm {A} (f : A -> Z) l l' : l ≡ₚ l' -> sum_over f l = sum_over f l'.
Proof. induction 1; cbn; lia. Qed.

Lemma sum_over_update (f g : string -> Z) l q :
  NoDup l -> q ∈ l -> (forall x, x ∈ l -> x <> q -> f x = g x) ->
  sum_over f l = sum_over g l + (f q - g q).
Proof.
  induction 1 as [|x l Hni Hnd IH]; intros Hin Heq; [by apply elem_of_nil in Hin|]. cbn.
  destruct (decide (x = q)) as [->|Hne].
  - rewrite (sum_over_ext f g l); [lia|]. intros y Hy. apply Heq; [by right|congruence].
  - rewrite (Heq x) by (done || left). apply elem_of_cons in Hin as [->|Hin]; [done|].
    rewrite IH; [lia|done|]. intros y Hy. apply Heq. by right.
Qed.

Lemma content_bytes_nonneg l : 0 <= content_bytes l.
Proof. apply sum_over_nonneg. intros m. unfold msg_size. destruct (ser_msg m); lia. Qed.

Lemma message_bytes_total c : message_bytes c <= total_bytes c.
Proof.
  unfold message_bytes, total_bytes. induction (queue_names c) as [|q l IH]; cbn; [lia|].
  pose proof (val_bytes_nonneg (slot c Dedup q)). unfold dedup_bytes in *. lia.
Qed.

Lemma Effect_bytes q w w' a' :
  Inv (store w) (idgen w) -> declared (store w) q = true -> idgen w <= u64_lim -> idgen w' <= u64_lim ->
  Effect q w w' a' ->
  message_bytes (store w') =
  message_bytes (store w) + (content_bytes (content a') - content_bytes (content (abs (store w) q))).
Proof.
  intros HI Hd Hn Hn' HE. pose proof (eff_local _ _ _ _ HE) as HL.
  unfold message_bytes. rewrite (queue_names_local _ _ _ HL).
  rewrite (sum_over_update (queue_bytes (store w')) (queue_bytes (store w)) _ q).
  - pose proof (inv_queue _ _ HI _ Hd) as HQ.
    assert (declared (store w') q = true) as Hd' by (rewrite (eff_declared _ _ _ _ HE); done).
    pose proof (inv_queue _ _ (eff_inv _ _ _ _ HE) _ Hd') as HQ'.
    rewrite (queue_bytes_content _ _ _ (QInv_QForm _ _ _ HQ) Hn), (queue_bytes_content _ _ _ (QInv_QForm _ _ _ HQ') Hn').
    by rewrite (eff_abs _ _ _ _ HE).
  - by eapply queue_names_NoDup.
  - by eapply queue_names_declared.
  - intros q' Hin Hne. apply (queue_names_declared _ _ _ HI) in Hin.
    assert (safe_name q' = true) as Hs by (by eapply inv_safe).
    unfold queue_bytes. by rewrite !(loc_slot _ _ _ HL).
Qed.

(** ** Steps that affect one queue *)

(** The ledger entries [ev] concern queue [q] only. *)
Definition about (q : string) (ev : list Event) : Prop :=
  forall q', q' <> q -> accepted q' ev = [] /\ removed q' ev = [].

Lemma content_slots c c' q : (forall s, slot c' s q = slot c s q) -> content (abs c' q) = content (abs c q).
Proof. intros Heq. by rewrite (abs_ext c c' q Heq). Qed.

Lemma balanced_effect q w w' a' ev :
  Effect q w w' a' -> about q ev ->
  content (abs (store w) q) ++ map strip (accepted q ev) ≡ₚ content a' ++ map strip (removed q ev) ->
  balanced w ev w'.
Proof.
  intros HE Hab Hp q' Hq'. destruct (decide (q' = q)) as [->|Hne].
  - by rewrite (eff_abs _ _ _ _ HE).
  - destruct (Hab _ Hne) as [-> ->]. rewrite (content_slots (store w) (store w') q'); [done|].
    intros s. by apply (loc_slot _ _ _ (eff_local _ _ _ _ HE)).
Qed.

Lemma balanced_stamps w ev w' q :
  balanced w ev w' -> safe_name q = true -> Forall sane_stamp (content (abs (store w) q)) ->
  Forall sane_stamp (map strip (accepted q ev)) -> Forall sane_stamp (content (abs (store w') q)).
Proof.
  intros Hb Hq Hw Ha. assert (Forall sane_stamp (content (abs (store w') q) ++ map strip (removed q ev))) as Hall.
  { rewrite <- (Hb q Hq). by apply Forall_app. }
  by apply Forall_app in Hall as [? _].
Qed.

(** The general shape of a step on one declared queue. *)
Lemma StepOk_effect q w w' a' ev :
  SysInv w -> declared (store w) q = true -> idgen w' <= u64_lim -> Effect q w w' a' -> about q ev ->
  content (abs (store w) q) ++ map strip (accepted q ev) ≡ₚ content a' ++ map strip (removed q ev) ->
  Forall sane_stamp (map strip (accepted q ev)) ->
  max_bytes (qm w') = max_bytes (qm w) ->
  message_bytes (store w') <= current_bytes (qm w') ->
  (within_limit w -> within_limit w') ->
  StepOk w ev w'.
Proof.
  intros HS Hd Hn HE Hab Hp Hst Hm Hb Hl. pose proof (balanced_effect _ _ _ _ _ HE Hab Hp) as Hbal.
  split; auto. pose proof HS as [HI Hg Hf Hpol Hts Hby]. split; auto.
  - apply HE.
  - intros q' Hq' Hnd s. rewrite (eff_declared _ _ _ _ HE) in Hnd.
    rewrite (loc_slot _ _ _ (eff_local _ _ _ _ HE)); [by apply Hf|done|congruence].
  - intros q' Hd'. rewrite (eff_declared _ _ _ _ HE) in Hd'. rewrite (eff_policy _ _ _ _ HE). auto.
  - intros q' Hq'. eapply balanced_stamps; eauto. destruct (decide (q' = q)) as [->|Hne]; [done|].
    destruct (Hab q' Hne) as [-> _]. constructor.
Qed.

Lemma about_nil q : about q [].
Proof. by intros. Qed.

(** A step that keeps the messages of the queue and the byte counter. *)
Lemma StepOk_keep q w w' a' :
  SysInv w -> declared (store w) q = true -> idgen w' <= u64_lim -> Effect q w w' a' ->
  content a' ≡ₚ content (abs (store w) q) ->
  current_bytes (qm w') = current_bytes (qm w) -> max_bytes (qm w') = max_bytes (qm w) ->
  StepOk w [] w'.
Proof.
  intros HS Hd Hn HE Hp Hb Hm. pose proof HS as [HI Hg _ _ _ Hby].
  assert (message_bytes (store w') = message_bytes (store w)) as Hmb.
  { rewrite (Effect_bytes q w w' a') by done. rewrite Hp. lia. }
  eapply StepOk_effect; eauto using about_nil.
  - cbn. by rewrite !app_nil_r.
  - lia.
  - unfold within_limit. by rewrite Hm, Hmb.
Qed.

(** A step that leaves the contents alone. *)
Lemma StepOk_unchanged w w' :
  SysInv w -> store w' = store w -> idgen w <= idgen w' <= u64_lim ->
  current_bytes (qm w') = current_bytes (qm w) -> max_bytes (qm w') = max_bytes (qm w) ->
  StepOk w [] w'.
Proof.
  intros [HI Hg Hf Hpol Hts Hby] HS Hn Hb Hm. split; auto.
  - split; rewrite ?HS; auto; [|lia|lia]. eapply Inv_mono; [|exact HI]. lia.
  - intros q Hq. by rewrite HS.
  - unfold within_limit. by rewrite HS, Hm.
Qed.

(** ** Declaring *)

Definition declare_post q p w (o : Outcome PelicanError unit) w' : Prop :=
  current_bytes (qm w') = current_bytes (qm w) /\ max_bytes (qm w') = max_bytes (qm w) /\
  idgen w' = idgen w /\
  if declared (store w) q then o = Fail (QueueAlreadyExists q) /\ store w' = store w
  else o = Done tt /\
    (forall q', declared (store w') q' = bool_decide (q' = q) || declared (store w) q') /\
    (forall q', policy (store w') q' = if bool_decide (q' = q) then p else policy (store w) q') /\
    (forall s q', safe_name q' = true -> slot (store w') s q' = slot (store w) s q').

Lemma declare_sim q p w :
  wf_policy p = true -> wp (declare_queue_with_retention q p) (declare_post q p w) w.
Proof.
  intros Hp. unfold declare_post. apply wp_declare; [done|intros ->; auto|].
  intros w' pb -> Hpb HS HG HB HM. split_and!; auto; rewrite HS.
  - intros q'. apply declared_declare.
  - intros q'. unfold policy, declare_store. rewrite look_c_insert. case_bool_decide as Hq.
    + subst. rewrite o_get_insert. cbn. by rewrite (de_ser_pol _ _ Hp Hpb).
    + by rewrite o_get_insert_ne, look_c_insert_ne by (done || intros ?%str_bytes_inj; done).
  - intros s q' Hq'. destruct (slot_tree_meta s q' Hq'). by apply look_declare.
Qed.

(** ** Each operation *)

(** An operation on an undeclared queue changes nothing. *)
Lemma rejects_ok {A} (op : QM A) q w : SysInv w -> rejects op q w -> StepOk w [] (op w).2.
Proof.
  intros HS Hr. unfold rejects in Hr. rewrite Hr. cbn. apply StepOk_unchanged; auto.
  pose proof (sys_gen _ HS). lia.
Qed.

Lemma publish_ok q m w :
  SysInv w -> admissible (OpPublish q m) w -> idgen (run_op (OpPublish q m) w).2 <= u64_lim ->
  StepOk w (run_op (OpPublish q m) w).1 (run_op (OpPublish q m) w).2.
Proof.
  intros HS (Hw & Hts & Hroom). destruct (declared (store w) q) eqn:Hd.
  2: { intros _. pose proof (rejects_ok (publish q m) q w HS (require_queue_rejects _ _ _ Hd)) as Hok.
       pose proof (require_queue_rejects q _ _ Hd : rejects (publish q m) q w) as Hr.
       cbn. unfold rejects in Hr. rewrite Hr in *. done. }
  destruct (ser_msg_total m Hw) as [v Hv]. assert (stores m v) as Hs by done.
  rewrite (stores_size _ _ Hs) in Hroom.
  pose proof (publish_sim q m v w (sys_inv _ HS) Hd Hs (proj1 (sys_policy _ HS _ Hd)) Hroom) as Hsim.
  unfold wp in Hsim. cbn. destruct (publish q m w) as [o w']. cbn in *. intros Hn.
  destruct Hsim as (Hmax & Hg & Hpost).
  destruct o as [[u|]|[]| |]; try done; try (destruct_and! Hpost; by apply StepOk_unchanged).
  destruct Hpost as (_ & Hov & Hb & _ & _ & HE). destruct (HE Hn) as (i & now & _ & _ & HE').
  assert (content (a_store (future_at m now) i m (abs (store w) q)) ≡ₚ strip m :: content (abs (store w) q)) as Hc.
  { unfold content. by rewrite holdings_store. }
  pose proof (Effect_bytes q w w' _ (sys_inv _ HS) Hd (sys_gen _ HS) Hn HE') as Hmb.
  rewrite Hc, content_bytes_cons, (stores_strip _ _ Hs) in Hmb.
  pose proof (sys_bytes _ HS).
  eapply StepOk_effect; eauto; cbn; rewrite ?bool_decide_true by done; cbn.
  - intros q' Hne. cbn. by rewrite bool_decide_false.
  - rewrite app_nil_r, Hc. by rewrite Permutation_app_comm.
  - constructor; [exact Hts|constructor].
  - lia.
  - unfold within_limit, over_limit in *. rewrite Hmax. destruct (max_bytes (qm w)); [|done].
    apply Z.ltb_ge in Hov. lia.
Qed.

Lemma consume_ok q w : SysInv w -> StepOk w [] (consume q w).2.
Proof.
  intros HS. destruct (declared (store w) q) eqn:Hd.
  2: { apply (rejects_ok _ q); auto. by apply require_queue_rejects. }
  pose proof (consume_sim q w (sys_inv _ HS) Hd (sys_gen _ HS)) as (Hg & Hb & Hm & _ & HE).
  pose proof (sys_gen _ HS). pose proof (inv_queue _ _ (sys_inv _ HS) _ Hd) as HQ.
  eapply StepOk_keep; eauto; [lia|]. unfold content.
  rewrite holdings_consume; [done|]. intros e. by eapply ready_not_inflight.
Qed.

Lemma ack_ok q t w :
  SysInv w -> admissible (OpAck q t) w -> StepOk w (run_op (OpAck q t) w).1 (run_op (OpAck q t) w).2.
Proof.
  intros HS Ht. cbn in Ht. destruct (declared (store w) q) eqn:Hd.
  2: { pose proof (rejects_ok (ack q t) q w HS (require_queue_rejects _ _ _ Hd)) as Hok.
       pose proof (require_queue_rejects q _ _ Hd : rejects (ack q t) q w) as Hr.
       cbn. unfold rejects in Hr. rewrite Hr in *. done. }
  pose proof (sys_gen _ HS) as Hn. pose proof (ack_sim q t w (sys_inv _ HS) Hd Hn Ht) as Hsim.
  unfold wp in Hsim. cbn [run_op]. destruct (ack q t w) as [o w']. cbn [fst snd] in *.
  destruct Hsim as (Hm & Hg & Hpost). destruct (a_inflight _ !! _) as [m|] eqn:Em.
  2: { destruct Hpost as (-> & HSt & Hb). apply StepOk_unchanged; auto. lia. }
  destruct Hpost as (-> & HE & Hb).
  pose proof (inflight_get _ _ _ _ (sys_inv _ HS) Hd Hn Ht) as Hget.
  destruct (o_get _ _) as [v|]; [|congruence]. destruct Hget as (m' & Hs & Em').
  assert (m' = m) as -> by congruence. specialize (Hb _ Hs).
  assert (content (abs (store w) q) ≡ₚ strip m :: content (a_ack (tag_u64 t) (abs (store w) q))) as Hc.
  { unfold content. by rewrite (holdings_ack _ _ _ Em) at 1. }
  assert (idgen w' <= u64_lim) as Hn' by lia.
  pose proof (Effect_bytes q w w' _ (sys_inv _ HS) Hd Hn Hn' HE) as Hmb.
  rewrite Hc, content_bytes_cons, (stores_strip _ _ Hs) in Hmb.
  pose proof (sys_bytes _ HS). unfold saturating_sub in Hb.
  eapply StepOk_effect; eauto; cbn; rewrite ?bool_decide_true by done; cbn.
  - intros q' Hne. cbn. by rewrite bool_decide_false.
  - rewrite app_nil_r, Hc. by rewrite Permutation_app_comm.
  - lia.
  - unfold within_limit. rewrite Hm. destruct (max_bytes (qm w)); [lia|done].
Qed.

Lemma nack_ok q t w :
  SysInv w -> admissible (OpNack q t) w -> idgen (nack q t w).2 <= u64_lim -> StepOk w [] (nack q t w).2.
Proof.
  intros HS (Ht & Hatt) Hn'. destruct (declared (store w) q) eqn:Hd.
  2: { apply (rejects_ok _ q); auto. by apply require_queue_rejects. }
  pose proof (nack_sim q t w (sys_inv _ HS) Hd (sys_gen _ HS) Ht Hatt) as (Hb & Hm & Hg & Hpost).
  destruct (a_inflight _ !! _) as [m|] eqn:Em.
  - destruct Hpost as (_ & HE). destruct (HE Hn') as (i & _ & HE').
    eapply StepOk_keep; eauto. by apply content_nack.
  - destruct Hpost as (_ & HSt). apply StepOk_unchanged; auto. lia.
Qed.

Lemma promote_ok q w :
  SysInv w -> idgen (promote_scheduled q w).2 <= u64_lim -> StepOk w [] (promote_scheduled q w).2.
Proof.
  intros HS Hn'. destruct (declared (store w) q) eqn:Hd.
  2: { apply (rejects_ok _ q); auto. by apply require_queue_rejects. }
  pose proof (promote_sim q w (sys_inv _ HS) Hd (sys_gen _ HS)) as (Hb & Hm & Hg & now & _ & _ & HE).
  destruct (HE Hn') as (ids & Hlen & _ & HE'). eapply StepOk_keep; eauto.
  unfold content. by rewrite holdings_promote.
Qed.

(** Times of ready messages are within the range retention computes with. *)
Lemma stamps_sane_time c n q :
  QInv c n q -> n <= u64_lim -> Forall sane_stamp (content (abs c q)) -> Forall sane_time (slot c Main q).
Proof.
  intros HQ Hn Hc. unfold content, holdings in Hc. rewrite map_app in Hc.
  apply Forall_app in Hc as [Hc _]. change (a_ready (abs c q)) with (omap dec_main (slot c Main q)) in Hc.
  revert Hc. induction (qi_main _ _ _ HQ) as [|kv t Hkv Ht IH]; [constructor|].
  destruct (main_entry_dec n kv Hn Hkv) as (i & m & Hd & _ & Hs & _). cbn. rewrite Hd. cbn.
  intros Hc. apply Forall_cons_1 in Hc as [Hm Hc]. constructor; [|auto].
  intros m' Hm'. rewrite (de_stores _ _ Hs) in Hm'. injection Hm' as <-. exact Hm.
Qed.

Lemma accepted_dropped q q' (l : list entry) : accepted q' (map (fun e => Dropped q e.2) l) = [].
Proof. induction l as [|e l IH]; cbn; done. Qed.

Lemma removed_dropped q q' (l : list entry) :
  removed q' (map (fun e => Dropped q e.2) l) = if bool_decide (q = q') then map snd l else [].
Proof.
  induction l as [|e l IH]; cbn; [by destruct (bool_decide _)|].
  unfold removed in IH. rewrite IH. by destruct (bool_decide _).
Qed.

Lemma retain_ok q w :
  SysInv w -> total_bytes (store w) < u64_lim ->
  StepOk w (run_op (OpRetain q) w).1 (run_op (OpRetain q) w).2.
Proof.
  intros HS Htot. destruct (declared (store w) q) eqn:Hd.
  2: { pose proof (rejects_ok (apply_retention q) q w HS (require_queue_rejects _ _ _ Hd)) as Hok.
       pose proof (require_queue_rejects q _ _ Hd : rejects (apply_retention q) q w) as Hr.
       cbn. unfold rejects in Hr. rewrite Hr in *. cbn in *.
       by rewrite dropped_self. }
  pose proof (sys_gen _ HS) as Hn. pose proof (inv_queue _ _ (sys_inv _ HS) _ Hd) as HQ.
  pose proof (inv_safe _ _ _ (sys_inv _ HS) Hd) as Hq.
  assert (Forall sane_time (slot (store w) Main q)) as Hst
    by (eapply stamps_sane_time; eauto; by apply HS).
  pose proof (retention_sim q w (sys_inv _ HS) Hd Hn (proj1 (sys_policy _ HS _ Hd)) Hst Htot)
    as (Hg & Hm & now & k & _ & _ & Hk & HE & Hb).
  cbn [run_op fst snd]. set (w' := (apply_retention q w).2) in *. set (p := policy (store w) q) in *.
  change (ready (store w') q) with (a_ready (abs (store w') q)). rewrite (eff_abs _ _ _ _ HE).
  cbn [a_ready a_retain]. change (ready (store w) q) with (a_ready (abs (store w) q)).
  set (l := a_ready (abs (store w) q)) in *. set (gone := dropped (retained p now l) l).
  assert (content (abs (store w) q) ≡ₚ content (a_retain p now (abs (store w) q)) ++ map strip (map snd gone)) as Hc.
  { unfold content. rewrite <- map_app. f_equiv. apply holdings_retain. by eapply ready_NoDup. }
  assert (idgen w' <= u64_lim) as Hn' by lia.
  pose proof (Effect_bytes q w w' _ (sys_inv _ HS) Hd Hn Hn' HE) as Hmb.
  rewrite Hc, content_bytes_app in Hmb. pose proof (content_bytes_nonneg (map strip (map snd gone))).
  pose proof (sys_bytes _ HS). pose proof (message_bytes_total (store w')).
  eapply StepOk_effect; eauto; rewrite ?accepted_dropped, ?removed_dropped.
  - intros q' Hne. by rewrite accepted_dropped, removed_dropped, bool_decide_false.
  - rewrite bool_decide_true by done. cbn. rewrite app_nil_r. exact Hc.
  - cbn. constructor.
  - rewrite Hb. destruct (0 <? k)%nat; lia.
  - unfold within_limit. rewrite Hm. destruct (max_bytes (qm w)); [lia|done].
Qed.

(** Reopening keeps the messages of every queue. *)
Lemma recovered_content w w' :
  Inv (store w) (idgen w) -> undeclared_kept w w' ->
  (forall q, declared (store w) q = true -> Recovered q w w') ->
  forall q, safe_name q = true -> content (abs (store w') q) ≡ₚ content (abs (store w) q).
Proof.
  intros HI Hun Hrec q Hq. destruct (declared (store w) q) eqn:Hdq.
  - destruct (Hrec q Hdq) as (ids & Hlen & _ & Ha). rewrite Ha. unfold content. f_equiv.
    eapply holdings_recover; [by apply HI|done].
  - rewrite (content_slots (store w) (store w') q); [done|]. by apply Hun.
Qed.

(** Stores with the same queues and the same messages hold the same bytes. *)
Lemma message_bytes_content c n c' n' :
  Inv c n -> Inv c' n' -> n <= u64_lim -> n' <= u64_lim ->
  (forall q, declared c' q = declared c q) ->
  (forall q, safe_name q = true -> content (abs c' q) ≡ₚ content (abs c q)) ->
  message_bytes c' = message_bytes c.
Proof.
  intros HI HI' Hn Hn' Hd Hc. unfold message_bytes.
  assert (queue_names c' ≡ₚ queue_names c) as Hnames.
  { apply NoDup_Permutation; [by eapply queue_names_NoDup..|]. intros q.
    by rewrite (queue_names_declared _ _ _ HI'), (queue_names_declared _ _ _ HI), Hd. }
  rewrite (sum_over_perm _ _ _ Hnames). apply sum_over_ext. intros q Hin.
  apply (queue_names_declared _ _ _ HI) in Hin. pose proof (inv_safe _ _ _ HI Hin) as Hq.
  rewrite (queue_bytes_content _ _ _ (QInv_QForm _ _ _ (inv_queue _ _ HI _ Hin)) Hn).
  rewrite <- Hd in Hin. rewrite (queue_bytes_content _ _ _ (QInv_QForm _ _ _ (inv_queue _ _ HI' _ Hin)) Hn').
  by rewrite (Hc q Hq).
Qed.

(** A reliable database is flushed, which changes nothing it holds. *)
Lemma flush_done w : exists d, flush (db (qm w)) = (Ok tt, d) /\ view d = view (db (qm w)).
Proof. destruct (flush_rel (db (qm w))) as [d Hd]. exists d. split; [done|]. by apply flush_law. Qed.

(** Opening a database that holds what [w] holds. *)
Lemma opened_ok e d w :
  SysInv w -> view d = view (db (qm w)) -> total_bytes (store w) < u64_lim ->
  exists w', open (Ok d) (max_bytes (qm w)) e = (Done tt, Some w') /\ (idgen w' <= u64_lim -> StepOk w [] w').
Proof.
  intros HS Hv Htot. pose proof HS as [HI Hgen Hf Hpol Hts Hby].
  assert (contents (view d) = store w) as HSt by (unfold store; by rewrite Hv).
  assert (v_idgen (view d) = idgen w) as Hgt by (unfold idgen; by rewrite Hv).
  destruct (open_sim d (max_bytes (qm w)) e) as (w' & Ho & Hpost); [by rewrite HSt, Hgt|by rewrite HSt|].
  exists w'. split; [done|]. intros Hn. destruct Hpost as (Hb & Hm & Hd & Hp & Hg & Hun & Hrec).
  destruct (Hrec Hn) as [HI' Hrec'].
  set (w0 := mkWorld (mkQM d 0 (max_bytes (qm w))) e) in *.
  change (store w0) with (contents (view d)) in *. change (idgen w0) with (v_idgen (view d)) in *.
  assert (Inv (store w0) (idgen w0)) as HI0 by (change (store w0) with (contents (view d));
    change (idgen w0) with (v_idgen (view d)); by rewrite HSt, Hgt).
  pose proof (recovered_content w0 w' HI0 Hun Hrec') as Hc.
  unfold undeclared_kept in Hun.
  change (store w0) with (contents (view d)) in *. rewrite HSt in *. rewrite Hgt in *.
  pose proof (message_bytes_content _ _ _ _ HI HI' Hgen Hn Hd Hc) as Hmb.
  pose proof (message_bytes_total (store w)).
  assert (balanced w [] w') as Hbal.
  { intros q Hq. change (map strip (accepted q [])) with (@nil Message).
    change (map strip (removed q [])) with (@nil Message). rewrite !app_nil_r. symmetry. auto. }
  split; auto; [|unfold within_limit; by rewrite Hm, Hmb].
  split; auto.
  - intros q Hq Hdq s. rewrite Hd in Hdq. rewrite Hun by done. by apply Hf.
  - intros q Hdq. rewrite Hd in Hdq. rewrite Hp. auto.
  - intros q Hq. eapply balanced_stamps; eauto.
  - lia.
Qed.

Lemma reopen_ok e w :
  SysInv w -> total_bytes (store w) < u64_lim -> idgen (reopen e w) <= u64_lim -> StepOk w [] (reopen e w).
Proof.
  intros HS Htot. destruct (flush_done w) as (d & Hfl & Hv). unfold reopen. rewrite Hfl.
  destruct (opened_ok e d w HS Hv Htot) as (w' & -> & Hok). exact Hok.
Qed.

(** The new name is appended to the sum with an empty queue. *)
Lemma message_bytes_declare q w w' n' :
  Inv (store w) (idgen w) -> Inv (store w') n' -> declared (store w) q = false ->
  fresh_name (store w) q ->
  (forall q', declared (store w') q' = bool_decide (q' = q) || declared (store w) q') ->
  (forall s q', safe_name q' = true -> slot (store w') s q' = slot (store w) s q') ->
  message_bytes (store w') = message_bytes (store w).
Proof.
  intros HI HI' Hnd Hf Hd Hs. unfold message_bytes.
  assert (queue_names (store w') ≡ₚ q :: queue_names (store w)) as Hnames.
  { apply NoDup_Permutation; [by eapply queue_names_NoDup| |].
    - constructor; [|by eapply queue_names_NoDup]. rewrite (queue_names_declared _ _ _ HI). congruence.
    - intros q'. rewrite (queue_names_declared _ _ _ HI'), Hd, elem_of_cons.
      rewrite (queue_names_declared _ _ _ HI), orb_true_iff, bool_decide_eq_true. done. }
  rewrite (sum_over_perm _ _ _ Hnames). cbn.
  assert (forall q', declared (store w') q' = true -> queue_bytes (store w') q' = queue_bytes (store w) q') as Heq.
  { intros q' Hq'. pose proof (inv_safe _ _ _ HI' Hq') as Hsq. unfold queue_bytes. by rewrite !Hs. }
  rewrite Heq by (rewrite Hd, bool_decide_true; done).
  unfold queue_bytes at 1. rewrite !Hf. cbn. apply sum_over_ext. intros q' Hin.
  apply Heq. rewrite Hd. apply (queue_names_declared _ _ _ HI) in Hin. rewrite Hin. apply orb_true_r.
Qed.

Lemma declare_ok q p w :
  SysInv w -> admissible (OpDeclare q p) w -> StepOk w [] (declare_queue_with_retention q p w).2.
Proof.
  intros HS (Hq & Hp & Hsane). pose proof HS as [HI Hgen Hf Hpol Hts Hby].
  pose proof (declare_sim q p w Hp) as (Hb & Hm & Hg & Hpost).
  set (w' := (declare_queue_with_retention q p w).2) in *.
  destruct (declared (store w) q) eqn:Hnd.
  { destruct Hpost as [_ HSt]. apply StepOk_unchanged; auto. lia. }
  destruct Hpost as (_ & Hd & Hpl & Hs).
  assert (Inv (store w') (idgen w')) as HI'.
  { pose proof (wp_declare q p (fun _ w' => Inv (store w') (idgen w')) w Hp) as Hwp.
    apply Hwp; [congruence|]. intros w1 pb _ _ -> -> _ _. apply Inv_declare; auto. }
  pose proof (message_bytes_declare q w w' _ HI HI' Hnd (Hf _ Hq Hnd) Hd Hs) as Hmb.
  assert (forall q', safe_name q' = true -> content (abs (store w') q') = content (abs (store w) q')) as Hc.
  { intros q' Hq'. apply content_slots. intros s. auto. }
  split; [|intros q' Hq'; by rewrite Hc|done|unfold within_limit; by rewrite Hm, Hmb].
  split; auto; [lia|..|lia].
  - intros q' Hq' Hd' s. rewrite Hs by done. apply Hf; [done|]. rewrite Hd in Hd'.
    by apply orb_false_iff in Hd' as [_ ?].
  - intros q' Hd'. rewrite Hpl. rewrite Hd in Hd'. case_bool_decide; [done|]. auto.
  - intros q' Hq'. rewrite Hc by done. auto.
Qed.

(** ** Runs *)

Lemma run_op_ok op w ev w' :
  SysInv w -> admissible op w -> run_op op w = (ev, w') -> idgen w' <= u64_lim -> StepOk w ev w'.
Proof.
  intros HS Ha Hr Hn. assert (ev = (run_op op w).1) as -> by (by rewrite Hr).
  assert (w' = (run_op op w).2) as -> by (by rewrite Hr). clear Hr. destruct op.
  - by apply declare_ok.
  - by apply publish_ok.
  - by apply consume_ok.
  - by apply ack_ok.
  - by apply nack_ok.
  - by apply promote_ok.
  - by apply retain_ok.
  - by apply reopen_ok.
Qed.

Lemma run_op_step op w :
  SysInv w -> admissible op w -> idgen (run_op op w).2 <= u64_lim -> StepOk w (run_op op w).1 (run_op op w).2.
Proof. intros HS Ha Hn. eapply run_op_ok; eauto. apply surjective_pairing. Qed.

Lemma accepted_app q tr tr' : accepted q (tr ++ tr') = accepted q tr ++ accepted q tr'.
Proof. apply omap_app. Qed.
Lemma removed_app q tr tr' : removed q (tr ++ tr') = removed q tr ++ removed q tr'.
Proof. apply omap_app. Qed.

Lemma balanced_trans w ev w1 tr w' : balanced w ev w1 -> balanced w1 tr w' -> balanced w (ev ++ tr) w'.
Proof.
  intros Hb1 Hb2 q Hq. rewrite accepted_app, removed_app, !map_app.
  rewrite app_assoc, (Hb1 q Hq), <- app_assoc, (Permutation_app_comm (map strip (removed q ev))).
  rewrite app_assoc, (Hb2 q Hq). solve_Permutation.
Qed.

(** Guarantees compose, and readings of the clock and the random source are free. *)
Lemma StepOk_trans w ev w1 tr w' : StepOk w ev w1 -> StepOk w1 tr w' -> StepOk w (ev ++ tr) w'.
Proof.
  intros [HS1 Hb1 Hm1 Hl1] [HS2 Hb2 Hm2 Hl2]. split; auto; [|congruence]. by eapply balanced_trans.
Qed.

Lemma StepOk_refl w : SysInv w -> StepOk w [] w.
Proof. intros HS. apply StepOk_unchanged; auto. pose proof (sys_gen _ HS). lia. Qed.

Lemma StepOk_env e w ev w' : StepOk (set_env e w) ev w' -> StepOk w ev w'.
Proof. by intros []. Qed.

Lemma steps_ok w tr w' : SysInv w -> steps w tr w' -> StepOk w tr w'.
Proof.
  intros HS Hst. induction Hst as [w|w op ev w1 tr w' Ha Hr Hn _ IH]; [by apply StepOk_refl|].
  pose proof (run_op_ok _ _ _ _ HS Ha Hr Hn) as Hok. apply (StepOk_trans _ _ w1); [done|]. apply IH, Hok.
Qed.

(** An empty database. *)
Lemma SysInv_empty w :
  store w = ∅ -> 0 <= idgen w <= u64_lim -> 0 <= current_bytes (qm w) -> SysInv w.
Proof.
  intros HS Hg Hb.
  assert (forall t, look (store w) t = []) as Hl by (intros t; unfold look; rewrite HS; by rewrite lookup_empty).
  assert (forall q, declared (store w) q = false) as Hd
    by (intros q; unfold declared; rewrite Hl; by apply bool_decide_false, is_Some_None).
  assert (forall q, abs (store w) q = empty_queue) as Ha
    by (intros q; unfold abs, ready, inflight, dead, sched; by rewrite !Hl).
  split; try lia.
  - split; [|lia| |]; [intros t; by rewrite Hl|by rewrite Hl|intros q; by rewrite Hd].
  - intros q _ _ s. apply Hl.
  - intros q. by rewrite Hd.
  - intros q _. rewrite Ha. constructor.
  - unfold message_bytes, queue_names. rewrite Hl. exact Hb.
Qed.

(** ** Executing a list of operations *)

Definition room_b w (n : Z) : bool :=
  (0 <=? current_bytes (qm w)) && (current_bytes (qm w) * 100 <? u64_lim) &&
  (current_bytes (qm w) + n <? u64_lim).

Definition admissible_b (op : Op) w : bool :=
  match op with
  | OpDeclare q p => safe_name q && wf_policy p && sane_policy p
  | OpPublish q m => wf_message m && ((- (i64_lim / 4) <=? timestamp m) && (timestamp m <? i64_lim)) &&
      room_b w (msg_size m)
  | OpAck q t => (0 <=? tag_u64 t) && (tag_u64 t <? u64_lim)
  | OpNack q t => ((0 <=? tag_u64 t) && (tag_u64 t <? u64_lim)) &&
      match a_inflight (abs (store w) q) !! tag_u64 t with
      | Some m => delivery_attempts m + 1 <? u32_lim
      | None => true
      end
  | OpRetain _ | OpReopen _ => total_bytes (store w) <? u64_lim
  | OpConsume _ | OpPromote _ => true
  end.

(** Run the operations as long as they are admissible. *)
Fixpoint run_ops (ops : list Op) w : option (list Event * World) :=
  match ops with
  | [] => Some ([], w)
  | op :: ops' =>
    let '(ev, w1) := run_op op w in
    if admissible_b op w && (idgen w1 <=? u64_lim) then
      r ← run_ops ops' w1; Some (ev ++ r.1, r.2)
    else None
  end.

Lemma admissible_b_spec op w : admissible_b op w = true -> admissible op w.
Proof.
  destruct op; cbn [admissible_b admissible]; unfold room_b, room, sane_stamp;
    rewrite ?andb_true_iff, ?Z.leb_le, ?Z.ltb_lt; try tauto.
  intros [Ht Hm]. split; [done|]. intros m Hlook. rewrite Hlook in Hm. by apply Z.ltb_lt.
Qed.

Lemma run_ops_steps ops w r : run_ops ops w = Some r -> steps w r.1 r.2.
Proof.
  revert w r. induction ops as [|op ops IH]; intros w r; cbn [run_ops].
  { intros [= <-]. constructor. }
  destruct (run_op op w) as [ev w1] eqn:Hr. destruct (_ && _) eqn:E; [|done].
  apply andb_true_iff in E as [Ha%admissible_b_spec Hn%Z.leb_le].
  destruct (run_ops ops w1) as [r1|] eqn:E1; [|done]. cbn. intros [= <-]. cbn.
  by eapply steps_cons, IH.
Qed.
End System.
