(* ===== verification/SystemDemo.v ===== *)
(** * SystemDemo: a concrete run of the engine

    A world reached from the empty database by engine operations, on which the
    theorems about runs, snapshots and the Raft store are exercised. *)

From Stdlib Require Import ZArith Lia.
From stdpp Require Import prelude gmap strings.
From S2P Require Import Prelude Bytes OrdMap Sled Message Bincode Keys QueueManager Store Spec.
From S2P Require Import Engine Invariant Refinement Maintenance Retention Fsck Holdings System.

Module SysDemo.
Export Demo.

Lemma w_empty_sys : SysInv w_empty.
Proof. apply SysInv_empty; [vm_compute; reflexivity|split; vm_compute; discriminate|vm_compute; discriminate]. Qed.

Definition snap_ops : list Op :=
  [OpDeclare "orders" limits; OpPublish "orders" (msg 1 3); OpPublish "orders" (msg 2 9);
   OpPublish "orders" (msg 3 3); OpPublish "orders" (msg 4 0);
   OpPublish "orders" (at_msg 6 1800000000000); OpConsume "orders"].

(** One queue with three ready messages, one in flight and one scheduled. *)
Definition w_snap : World := (default ([], w_empty) (run_ops snap_ops w_empty)).2.

Lemma w_snap_sys : SysInv w_snap.
Proof.
  unfold w_snap. assert (match run_ops snap_ops w_empty with Some _ => true | None => false end = true) as Hs
    by (vm_compute; reflexivity).
  destruct (run_ops snap_ops w_empty) as [r|] eqn:E; [|discriminate]. cbn [default].
  apply (ok_inv _ _ _ (steps_ok _ _ _ w_empty_sys (run_ops_steps _ _ _ E))).
Qed.
End SysDemo.
