(* ===== verification/Delivery.v ===== *)
(** * Delivery: the order in which a consumer receives messages

    Publishing a batch and consuming it back yields the messages by descending
    priority class, and in publication order within a class. *)

From Stdlib Require Import ZArith Lia Sorted.
From stdpp Require Import prelude gmap strings.
From S2P Require Import Prelude Bytes OrdMap Sled Message Bincode Keys QueueManager Store Spec.
From S2P Require Import Engine Invariant Refinement Maintenance Holdings.

(** ** The reference order *)

(** Priorities above 9 count as 9; class 0 is served first. *)
Definition class_of (m : Message) : Z := 9 - Z.min (priority m) 9.

Definition in_class (r : Z) (ms : list Message) : list Message :=
  List.filter (fun m => class_of m =? r) ms.

Definition by_priority (ms : list Message) : list Message :=
  concat (map (fun r => in_class r ms) [0; 1; 2; 3; 4; 5; 6; 7; 8; 9]).

Lemma stable_insert_skip m l l' :
  Forall (fun x => class_of x <= class_of m) l ->
  stable_insert class_of m (l ++ l') = l ++ stable_insert class_of m l'.
Proof.
  induction 1 as [|x l Hx Hl IH]; cbn; [done|]. rewrite (proj2 (Z.ltb_ge _ _)) by lia. by rewrite IH.
Qed.

Lemma stable_insert_head m l :
  Forall (fun x => class_of m < class_of x) l -> stable_insert class_of m l = m :: l.
Proof. destruct 1 as [|x l Hx Hl]; cbn; [done|]. by rewrite (proj2 (Z.ltb_lt _ _)) by lia. Qed.

Lemma in_class_all r ms : Forall (fun x => class_of x = r) (in_class r ms).
Proof.
  unfold in_class. induction ms as [|x ms IH]; cbn; [constructor|].
  destruct (_ =? r) eqn:E; [|done]. constructor; [by apply Z.eqb_eq|done].
Qed.

Lemma in_class_app r ms ms' : in_class r (ms ++ ms') = in_class r ms ++ in_class r ms'.
Proof. apply List.filter_app. Qed.

Lemma in_class_ne r m ms : class_of m <> r -> in_class r (ms ++ [m]) = in_class r ms.
Proof.
  intros Hne. rewrite in_class_app. cbn. rewrite (proj2 (Z.eqb_neq _ _)) by done. apply app_nil_r.
Qed.

Lemma in_class_eq m ms : in_class (class_of m) (ms ++ [m]) = in_class (class_of m) ms ++ [m].
Proof. rewrite in_class_app. cbn. by rewrite Z.eqb_refl. Qed.

Lemma concat_classes_ext m ms rs :
  Forall (fun r => class_of m <> r) rs ->
  map (fun r => in_class r (ms ++ [m])) rs = map (fun r => in_class r ms) rs.
Proof. induction 1 as [|r rs Hr _ IH]; cbn; [done|]. by rewrite in_class_ne, IH. Qed.

Lemma concat_classes_gt m ms rs :
  Forall (fun r => class_of m < r) rs ->
  Forall (fun x => class_of m < class_of x) (concat (map (fun r => in_class r ms) rs)).
Proof.
  induction 1 as [|r rs Hr _ IH]; cbn; [constructor|]. apply Forall_app. split; [|done].
  eapply Forall_impl; [apply in_class_all|]. intros x Hx. cbn in Hx. lia.
Qed.

(** Inserting a message into the classes in [rs] puts it at the end of its own class. *)
Lemma insert_classes m ms rs :
  StronglySorted Z.lt rs -> class_of m ∈ rs ->
  stable_insert class_of m (concat (map (fun r => in_class r ms) rs)) =
  concat (map (fun r => in_class r (ms ++ [m])) rs).
Proof.
  induction 1 as [|r rs Hs IH Hr]; [by intros ?%elem_of_nil|]. intros Hin. cbn.
  destruct (decide (class_of m = r)) as [<-|Hne].
  - rewrite in_class_eq, (concat_classes_ext m ms rs), <- app_assoc by
      (eapply Forall_impl; [exact Hr|]; intros x Hx; cbn in Hx; lia).
    rewrite stable_insert_skip by (eapply Forall_impl; [apply in_class_all|]; intros x Hx; cbn in Hx; lia).
    by rewrite stable_insert_head by (by apply concat_classes_gt).
  - apply elem_of_cons in Hin as [Heq|Hin]; [congruence|].
    assert (r < class_of m) as Hlt by (rewrite Forall_forall in Hr; by apply Hr).
    rewrite in_class_ne by done.
    rewrite stable_insert_skip by (eapply Forall_impl; [apply in_class_all|]; intros x Hx; cbn in Hx; lia).
    by rewrite IH.
Qed.

Lemma by_priority_snoc m ms :
  0 <= priority m -> stable_insert class_of m (by_priority ms) = by_priority (ms ++ [m]).
Proof.
  intros Hp. apply insert_classes.
  - repeat (constructor; [|repeat (constructor; [lia|]); constructor]). constructor.
  - unfold class_of. assert (0 <= Z.min (priority m) 9 <= 9) as Hr by lia.
    revert Hr. generalize (Z.min (priority m) 9). intros z Hz.
    assert (z = 0 \/ z = 1 \/ z = 2 \/ z = 3 \/ z = 4 \/ z = 5 \/ z = 6 \/ z = 7 \/ z = 8 \/ z = 9) as Hc by lia. clear Hz.
    repeat (destruct Hc as [->|Hc]; [cbn; set_solver|]). subst. cbn. set_solver.
Qed.

Lemma by_priority_perm ms : Forall (fun m => 0 <= priority m) ms -> ms ≡ₚ by_priority ms.
Proof.
  intros Hall. induction ms as [|m ms IH] using rev_ind; [done|].
  apply Forall_app in Hall as [Hall Hm]. apply Forall_cons_1 in Hm as [Hm _].
  rewrite <- by_priority_snoc by done. rewrite stable_insert_perm, <- IH by done.
  by rewrite Permutation_app_comm.
Qed.

Lemma enqueue_snd i m l : map snd (enqueue (i, m) l) = stable_insert class_of m (map snd l).
Proof.
  unfold enqueue. induction l as [|[j x] l IH]; cbn; [done|]. unfold prio_rank, class_of in *. cbn.
  destruct (_ <? _); cbn; [done|]. by rewrite IH.
Qed.

(** ** Publishing and draining through the engine *)

Section Delivery.
Context `{!Sled, !SledLaws, !SledReliable, !Bincode, !BincodeLaws,
          !Environment, !EnvironmentLaws, !BuildProfile}.
Implicit Types w : World.

Definition publish_all (q : string) (ms : list Message) : QM unit :=
  for_each ms (fun m => publish q m ;;; ret tt).

(** [n] consecutive calls of [consume]. *)
Fixpoint drain (n : nat) (q : string) : QM (list (option (DeliveryTag * Message))) :=
  match n with
  | O => ret []
  | S n' => let* d := consume q in let* ds := drain n' q in ret (d :: ds)
  end.

(** A message for immediate delivery that is not deduplicated. *)
Definition plain (m : Message) : Prop :=
  wf_message m = true /\ deliver_at m = None /\ dedup_key m = None.

Lemma publish_plain q m w :
  Inv (store w) (idgen w) -> declared (store w) q = true -> plain m ->
  sane_policy (policy (store w) q) = true -> max_bytes (qm w) = None -> room w (msg_size m) ->
  wp (publish q m) (returns (fun u w' => u = Stored (Message.id m) /\ idgen w <= idgen w' /\
    max_bytes (qm w') = None /\ current_bytes (qm w') = current_bytes (qm w) + msg_size m /\
    (idgen w' <= u64_lim -> exists i, idgen w <= i < idgen w' /\
       Effect q w w' (a_publish (i, m) (abs (store w) q))))) w.
Proof.
  intros HI Hd (Hw & Hat & Hk) Hp Hmax Hroom. destruct (ser_msg_total m Hw) as [v Hv].
  assert (stores m v) as Hs by done. rewrite (stores_size _ _ Hs) in *.
  eapply wp_mono; [by apply (publish_sim q m v)|].
  intros [[u|]|[]| |] w' Hpost; destruct Hpost as (Hm & Hg & Hpost); cbn in *; try done.
  - destruct Hpost as (-> & _ & Hb & _ & _ & HE). split_and!; auto; [congruence|].
    intros Hn. destruct (HE Hn) as (i & now & Hi & _ & HE'). exists i. split; [done|].
    unfold future_at in HE'. rewrite Hat in HE'. exact HE'.
  - destruct Hpost as ((now & _ & Hdup) & _). unfold duplicate_at, recorded_ms in Hdup.
    rewrite Hk in Hdup. by destruct (dedup_window_secs _).
  - destruct Hpost as ((max & Hmax' & _) & _). congruence.
Qed.

Lemma publish_all_cons q m ms w u w1 :
  publish q m w = (Done u, w1) -> publish_all q (m :: ms) w = publish_all q ms w1.
Proof. intros Hp. unfold publish_all. cbn [for_each]. unfold bind at 1 2. by rewrite Hp. Qed.

Lemma drain_cons n q w d w1 ds w2 :
  consume q w = (Done d, w1) -> drain n q w1 = (Done ds, w2) -> drain (S n) q w = (Done (d :: ds), w2).
Proof. intros Hc Hd. cbn [drain]. unfold bind. by rewrite Hc, Hd. Qed.

(** The ids issued while publishing any prefix of the batch are below 2^64. *)
Definition ids_suffice q ms w : Prop :=
  forall k, (k <= length ms)%nat -> idgen (publish_all q (take k ms) w).2 <= u64_lim.

Lemma publish_all_ready q ms w :
  Inv (store w) (idgen w) -> declared (store w) q = true -> Forall plain ms ->
  sane_policy (policy (store w) q) = true -> max_bytes (qm w) = None ->
  0 <= current_bytes (qm w) -> (current_bytes (qm w) + content_bytes ms) * 100 < u64_lim ->
  ids_suffice q ms w ->
  exists w', publish_all q ms w = (Done tt, w') /\
    Inv (store w') (idgen w') /\ declared (store w') q = true /\ idgen w' <= u64_lim /\
    map snd (a_ready (abs (store w') q)) =
      foldl (fun l m => stable_insert class_of m l) (map snd (a_ready (abs (store w) q))) ms.
Proof.
  intros HI Hd Hall. revert w HI Hd.
  induction Hall as [|m ms Hm Hall IH]; intros w HI Hd Hp Hmax Hc Hb Hids.
  { exists w. split_and!; auto. exact (Hids 0%nat ltac:(lia)). }
  rewrite content_bytes_cons in Hb.
  assert (0 <= msg_size m) as Hm0 by (unfold msg_size; destruct (ser_msg m); lia).
  assert (0 <= content_bytes ms) as Hms0
    by (apply sum_over_nonneg; intros x; unfold msg_size; destruct (ser_msg x); lia).
  assert (room w (msg_size m)) as Hroom by (unfold room; lia).
  pose proof (publish_plain q m w HI Hd Hm Hp Hmax Hroom) as Hwp.
  apply wp_done in Hwp as (u & w1 & Hrun & -> & Hg & Hmax1 & Hb1 & HE).
  assert (forall k, (k <= length ms)%nat -> idgen (publish_all q (take k ms) w1).2 <= u64_lim) as Hids1.
  { intros k Hk. specialize (Hids (S k)). cbn [take length] in Hids.
    rewrite (publish_all_cons _ _ _ _ _ _ Hrun) in Hids. apply Hids. lia. }
  destruct HE as (i & _ & HE); [exact (Hids1 0%nat ltac:(lia))|].
  destruct (IH w1) as (w' & Hrun' & HI' & Hd' & Hn' & Hr');
    rewrite ?(eff_policy _ _ _ _ HE), ?(eff_declared _ _ _ _ HE); auto; try lia; [apply HE|].
  exists w'. rewrite (publish_all_cons _ _ _ _ _ _ Hrun). split_and!; auto.
  rewrite Hr', (eff_abs _ _ _ _ HE). cbn [a_publish a_ready foldl]. by rewrite enqueue_snd.
Qed.

Lemma drain_ready n q w :
  Inv (store w) (idgen w) -> declared (store w) q = true -> idgen w <= u64_lim ->
  n = length (a_ready (abs (store w) q)) ->
  exists w', drain n q w = (Done (map (fun e => Some (mkTag e.1, e.2)) (a_ready (abs (store w) q))), w') /\
    a_ready (abs (store w') q) = [].
Proof.
  revert w. induction n as [|n IH]; intros w HI Hd Hn Hlen.
  { destruct (a_ready _) eqn:E; [|done]. by exists w. }
  destruct (a_ready (abs (store w) q)) as [|e l] eqn:E; [done|]. injection Hlen as Hlen.
  pose proof (consume_sim q w HI Hd Hn) as Hsim. unfold wp in Hsim.
  destruct (consume q w) as [o w1] eqn:Hrun. cbn [fst snd] in Hsim.
  destruct Hsim as (Hg & _ & _ & -> & HE).
  assert (a_consume (abs (store w) q) =
    (Some e, mkAQ l (<[e.1 := e.2]> (a_inflight (abs (store w) q))) (a_dead (abs (store w) q))
       (a_sched (abs (store w) q)))) as Ha by (unfold a_consume; by rewrite E).
  rewrite Ha in *. cbn [fst snd fmap option_fmap option_map] in *.
  assert (a_ready (abs (store w1) q) = l) as Hl by (by rewrite (eff_abs _ _ _ _ HE)).
  destruct (IH w1) as (w' & Hrun' & Hr'); rewrite ?(eff_declared _ _ _ _ HE), ?Hl; auto; [apply HE|lia|].
  rewrite Hl in Hrun'. exists w'. split; [by eapply drain_cons|done].
Qed.

Lemma foldl_by_priority ms l :
  Forall (fun m => 0 <= priority m) ms ->
  foldl (fun l m => stable_insert class_of m l) (by_priority l) ms = by_priority (l ++ ms).
Proof.
  intros Hall. revert l. induction Hall as [|m ms Hm Hall IH]; intros l; cbn [foldl]; [by rewrite app_nil_r|].
  rewrite by_priority_snoc by done. rewrite IH. by rewrite <- app_assoc.
Qed.
End Delivery.
