(* ===== verification/SystemTheorems.v ===== *)
(** * SystemTheorems: what the engine guarantees over whole runs

    Properties of sequences of operations and restarts on the flushed database, and
    of the data encodings the engine relies on, each followed by its witness. *)

From Stdlib Require Import ZArith Lia.
From stdpp Require Import prelude gmap strings.
From S2P Require Import Prelude Bytes OrdMap Sled Message Bincode Keys QueueManager Store Spec.
From S2P Require Import Engine Invariant Refinement Maintenance Retention Fsck Holdings System.
From S2P Require Import SystemDemo Delivery.

Section Claims.
Context `{!Sled, !SledLaws, !SledReliable, !Bincode, !BincodeLaws,
          !Environment, !EnvironmentLaws, !BuildProfile}.

(** C9: Along every run of engine operations and restarts on the flushed database
    the store stays well formed: every tree of a declared queue holds only
    decodable entries under keys the engine wrote, no delivery tag denotes two
    messages, names not declared have empty trees, and the byte counter covers
    the bytes of all messages held. *)
Theorem runs_keep_invariant w tr w' : SysInv w -> steps w tr w' -> SysInv w'.
Proof. intros HS Hst. apply (steps_ok _ _ _ HS Hst). Qed.

(** C10: No message is lost or duplicated: along every run of engine operations and
    restarts, each on a database that was flushed while no operation was under way,
    the messages a queue held plus those it accepted are, as a multiset and up to the
    delivery counter, the messages it holds plus those that were acknowledged or
    dropped by a retention pass.  (For failing calls see [FaultTheorems], for a
    process that dies with writes not flushed [Durability].) *)
Theorem no_message_lost w tr w' q :
  SysInv w -> steps w tr w' -> safe_name q = true ->
  content (abs (store w) q) ++ map strip (accepted q tr) ≡ₚ
  content (abs (store w') q) ++ map strip (removed q tr).
Proof. intros HS Hst Hq. by apply (steps_ok _ _ _ HS Hst). Qed.

(** C11: The storage limit is never exceeded: along every run the serialized size
    of all messages held stays within [max_bytes] once it is. *)
Theorem storage_limit_respected w tr w' max :
  SysInv w -> steps w tr w' -> max_bytes (qm w) = Some max -> message_bytes (store w) <= max ->
  max_bytes (qm w') = Some max /\ message_bytes (store w') <= max.
Proof.
  intros HS Hst Hm Hb. destruct (steps_ok _ _ _ HS Hst) as [_ _ Hmax Hl].
  unfold within_limit in Hl. rewrite Hmax, Hm in Hl. rewrite Hmax. auto.
Qed.


(** Declaring a new queue makes exactly that queue declared, with the given
    policy readable back and no effect on the trees of any queue; declaring an
    existing queue is an error that changes nothing. *)
Theorem declare_refines q p w :
  wf_policy p = true ->
  exists o w', declare_queue_with_retention q p w = (o, w') /\ declare_post q p w o w'.
Proof.
  intros Hp. pose proof (declare_sim q p w Hp) as Hsim. unfold wp in Hsim.
  destruct (declare_queue_with_retention q p w) as [o w']. eauto.
Qed.

(** Every operation on a queue that is not declared reports [QueueNotFound]
    and leaves the whole state as it was. *)
Theorem undeclared_rejected q m tag w :
  declared (store w) q = false ->
  rejects (publish q m) q w /\ rejects (consume q) q w /\ rejects (ack q tag) q w /\
  rejects (nack q tag) q w /\ rejects (promote_scheduled q) q w /\ rejects (apply_retention q) q w /\
  rejects (depth q) q w /\ rejects (dead_letter_count q) q w /\ rejects (scheduled_depth q) q w.
Proof. intros Hd. split_and!; by apply require_queue_rejects. Qed.
End Claims.

(** The byte order of the main-tree keys is the delivery order: by descending
    priority, with all priorities above 9 equal, then by ascending id. *)
Theorem key_order p i p' i' :
  0 <= i < u64_lim -> 0 <= i' < u64_lim -> 0 <= p -> 0 <= p' ->
  lex_lt (encode_key p i) (encode_key p' i') <->
  Z.min p' 9 < Z.min p 9 \/ (Z.min p 9 = Z.min p' 9 /\ i < i').
Proof.
  intros Hi Hi' Hp Hp'. unfold lex_lt. rewrite encode_key_cmp by done.
  destruct (Z.compare_spec (9 - Z.min p 9) (9 - Z.min p' 9)); split; intros Hlt; try done;
    rewrite ?Z.compare_lt_iff in *; lia.
Qed.

(** The byte order of the scheduled-tree keys is the order of the due times,
    then of the ids, and a key determines both. *)
Theorem scheduled_key_order t i t' i' :
  0 <= i < u64_lim -> 0 <= i' < u64_lim -> 0 <= t < i64_lim -> 0 <= t' < i64_lim ->
  (lex_lt (encode_scheduled_key t i) (encode_scheduled_key t' i') <-> t < t' \/ (t = t' /\ i < i')) /\
  (encode_scheduled_key t i = encode_scheduled_key t' i' -> t = t' /\ i = i').
Proof.
  intros Hi Hi' Ht Ht'. pose proof (encode_scheduled_key_cmp t i t' i' Hi Hi' Ht Ht') as Hc. split.
  - unfold lex_lt. rewrite Hc. destruct (Z.compare_spec t t'); split; intros Hlt; try done;
      rewrite ?Z.compare_lt_iff in *; lia.
  - intros Heq. rewrite Heq, lex_cmp_refl in Hc.
    destruct (Z.compare_spec t t'); try done. symmetry in Hc. apply Z.compare_eq_iff in Hc. auto.
Qed.

(** The trees of different queues, the different trees of a queue and the
    metadata trees never share a name, for names without a reserved prefix. *)
Theorem trees_disjoint s1 q1 s2 q2 :
  safe_name q1 = true -> safe_name q2 = true ->
  (slot_tree s1 q1 = slot_tree s2 q2 -> s1 = s2 /\ q1 = q2) /\
  slot_tree s1 q1 <> META_QUEUES_TREE /\ slot_tree s1 q1 <> META_RETENTION_TREE.
Proof. intros Hq1 Hq2. split; [by apply slot_tree_inj|by apply slot_tree_meta]. Qed.

(** The in-memory queue is first in, first out: after publishing a batch, as
    many consumes return what was waiting and then the batch, in order, and one
    more returns nothing. *)
Theorem memory_queue_fifo ms q :
  Queue.drain (S (length (Queue.messages q) + length ms)) (Queue.publish_all ms q) =
  (map Some (Queue.messages q ++ ms) ++ [None], Queue.mkQueue (Queue.name q) []).
Proof.
  rewrite Queue.publish_all_messages. destruct q as [n l]. cbn [Queue.messages Queue.name].
  rewrite <- length_app. generalize (l ++ ms). clear. intros l.
  induction l as [|m l IH]; [done|]. cbn [length].
  change (Queue.drain (S (S (length l))) (Queue.mkQueue n (m :: l))) with
    (let '(rs, q2) := Queue.drain (S (length l)) (Queue.mkQueue n l) in (Some m :: rs, q2)).
  by rewrite IH.
Qed.

(** ** Witnesses *)

Import SysDemo.

(** A run with redelivery, a crash, acknowledgements, promotion and retention. *)
Definition demo_ops : list Op :=
  [OpDeclare "orders" limits; OpPublish "orders" (msg 1 3); OpPublish "orders" (msg 2 9);
   OpPublish "orders" (keyed 3 "k"); OpPublish "orders" (keyed 4 "k"); OpPublish "other" (msg 5 0);
   OpPublish "orders" (at_msg 6 1700000000050); OpConsume "orders"; OpReopen (mkEnv 100 0);
   OpConsume "orders"; OpNack "orders" (mkTag 4); OpConsume "orders"; OpNack "orders" (mkTag 5);
   OpConsume "orders"; OpAck "orders" (mkTag 0); OpAck "orders" (mkTag 0); OpPromote "orders";
   OpRetain "orders"].

Definition demo_run : list Event * World := default ([], w_empty) (run_ops demo_ops w_empty).

Lemma demo_run_steps : steps w_empty demo_run.1 demo_run.2.
Proof.
  unfold demo_run. assert (match run_ops demo_ops w_empty with Some _ => true | None => false end = true) as Hs
    by (vm_compute; reflexivity).
  destruct (run_ops demo_ops w_empty) as [r|] eqn:E; [|discriminate]. exact (run_ops_steps _ _ _ E).
Qed.

(** The ledger of the run: three messages accepted after the duplicate and the
    unknown queue were refused, one settled, one dropped. *)
Lemma demo_run_ledger :
  accepted "orders" demo_run.1 = [msg 1 3; msg 2 9; keyed 3 "k"; at_msg 6 1700000000050] /\
  removed "orders" demo_run.1 = [msg 1 3; keyed 3 "k"].
Proof. split; vm_compute; reflexivity. Qed.

Lemma runs_keep_invariant_witness : SysInv demo_run.2.
Proof. exact (runs_keep_invariant w_empty demo_run.1 demo_run.2 w_empty_sys demo_run_steps). Defined.

Lemma no_message_lost_witness :
  content (abs (store w_empty) "orders") ++ map strip (accepted "orders" demo_run.1) ≡ₚ
  content (abs (store demo_run.2) "orders") ++ map strip (removed "orders" demo_run.1).
Proof.
  apply (no_message_lost w_empty demo_run.1 demo_run.2 "orders" w_empty_sys demo_run_steps). reflexivity.
Defined.

Lemma storage_limit_respected_witness :
  max_bytes (qm demo_run.2) = Some 10000 /\ message_bytes (store demo_run.2) <= 10000.
Proof.
  apply (storage_limit_respected w_empty demo_run.1 demo_run.2 10000 w_empty_sys demo_run_steps);
    vm_compute; [reflexivity|discriminate].
Defined.

Definition w_unlimited : World := exec (declare_queue "orders") (world_of Mem.empty None).


Lemma by_priority_demo :
  by_priority [msg 1 3; msg 2 9; msg 3 3; msg 4 200] = [msg 2 9; msg 4 200; msg 1 3; msg 3 3].
Proof. reflexivity. Qed.

Lemma declare_refines_witness :
  exists o w', declare_queue_with_retention "fresh" limits w_busy = (o, w') /\
    declare_post "fresh" limits w_busy o w'.
Proof. apply (declare_refines "fresh" limits w_busy). reflexivity. Defined.

Lemma undeclared_rejected_witness :
  rejects (publish "absent" (msg 1 0)) "absent" w_busy /\ rejects (consume "absent") "absent" w_busy.
Proof.
  destruct (undeclared_rejected "absent" (msg 1 0) (mkTag 0) w_busy) as (Hp & Hc & _);
    [vm_compute; reflexivity|].
  split; [exact Hp|exact Hc].
Defined.

Lemma key_order_witness :
  lex_lt (encode_key 9 7) (encode_key 3 1) <-> Z.min 3 9 < Z.min 9 9 \/ (Z.min 9 9 = Z.min 3 9 /\ 7 < 1).
Proof. apply (key_order 9 7 3 1); lia. Defined.

Lemma scheduled_key_order_witness :
  (lex_lt (encode_scheduled_key 5 9) (encode_scheduled_key 6 1) <-> 5 < 6 \/ (5 = 6 /\ 9 < 1)) /\
  (encode_scheduled_key 5 9 = encode_scheduled_key 6 1 -> 5 = 6 /\ 9 = 1).
Proof. apply (scheduled_key_order 5 9 6 1); lia. Defined.

Lemma trees_disjoint_witness :
  (slot_tree Inflight "a" = slot_tree Dlq "b" -> Inflight = Dlq /\ "a"%string = "b"%string) /\
  slot_tree Inflight "a" <> META_QUEUES_TREE /\ slot_tree Inflight "a" <> META_RETENTION_TREE.
Proof. apply (trees_disjoint Inflight "a" Dlq "b"); reflexivity. Defined.
