(* ===== verification/Dedup.v ===== *)
(** * Dedup: the deduplication window across whole runs

    src/pelicanq-core/src/queue.rs, the deduplication part of [publish].  The time
    recorded for a key is the clock reading of the publish that stored its message.
    No other call of the engine, and no restart, changes it while the window is
    open, and it decides every publish with that key: refused before the window
    ends, not refused after. *)

From Stdlib Require Import ZArith Lia.
From stdpp Require Import prelude gmap strings.
From S2P Require Import Prelude Bytes OrdMap Sled Message Bincode Keys QueueManager Store Spec.
From S2P Require Import Engine Invariant Refinement Maintenance Retention Fsck Holdings Frames.
From S2P Require Import System SystemDemo.

Section Dedup.
Context `{!Sled, !SledLaws, !SledReliable, !Bincode, !BincodeLaws,
          !Environment, !EnvironmentLaws, !BuildProfile}.
Implicit Types w : World.

(** Queue [q] has a window of [s] seconds, and time [t] on record for key [k]. *)
Record remembers (q k : string) (s t : Z) w : Prop := {
  rm_declared : declared (store w) q = true;
  rm_window : dedup_window_secs (policy (store w) q) = Some s;
  rm_time : o_get (str_bytes k) (look (store w) (dedup_tree_name q)) = Some (be_bytes 8 t);
}.

(** The reading the clock gives next. *)
Definition next_reading w : option Z := clock_read (clock_tick (env w)).

(** ** One publish *)

Lemma wp_now_exact now (Q : Outcome PelicanError Z -> World -> Prop) w :
  next_reading w = Some now -> 0 <= now < i64_lim ->
  Q (Done now) (set_env (mkEnv (clock_tick (env w) + 1) (uuid_tick (env w))) w) -> wp now_ms Q w.
Proof.
  unfold next_reading, wp, now_ms. intros Hr Hn HQ. change (env_of w) with (env w). rewrite Hr. cbn.
  by rewrite as_i64_id by lia.
Qed.

Lemma wp_open_env t (Q : Outcome PelicanError unit -> World -> Prop) w :
  (forall w', store w' = store w -> env w' = env w -> Q (Done tt) w') -> wp (db_update (open_tree t)) Q w.
Proof. intros HQ. apply wp_open. intros d Hd _. apply HQ; [|done]. by rewrite store_set_db, Hd. Qed.

(** The check, with the reading it takes. *)
Lemma is_duplicate_exact q m p k s t now w :
  sane_policy p = true -> dedup_window_secs p = Some s -> 0 < s -> dedup_key m = Some k ->
  o_get (str_bytes k) (look (store w) (dedup_tree_name q)) = Some (be_bytes 8 t) -> 0 <= t < i64_lim / 4 ->
  next_reading w = Some now ->
  wp (is_duplicate q m p) (fun o w' => o = Done (now <? t + s * 1000) /\ store w' = store w) w.
Proof.
  intros Hsane Hwin Hpos Hk Hrec Ht Hnow. unfold is_duplicate. rewrite Hwin, Hk, (proj2 (Z.ltb_lt 0 s)) by done.
  apply andb_true_iff in Hsane as [Hsane _]. rewrite Hwin in Hsane. cbn in Hsane.
  destruct (sane_secs_ms s Hsane) as (Hs1 & Hs2 & Hs). change (i64_lim / 4) with 2305843009213693952 in *.
  assert (0 <= now < 2305843009213693952) as Hr.
  { unfold next_reading in Hnow. destruct (clock_read_law (clock_tick (env w))) as (ms & Hms & Hr).
    change (i64_lim / 4) with 2305843009213693952 in Hr. congruence. }
  apply wp_bind, wp_open_env. intros w1 S1 E1. apply wp_bind, wp_get. rewrite S1, Hrec, be8_fits. cbn [or_panic].
  apply wp_bind, wp_ret. rewrite Hs1, Hs2. cbn [or_panic]. apply wp_bind, wp_ret, wp_bind.
  apply (wp_now_exact now); [unfold next_reading; by rewrite E1|lia|]. rewrite arith_i64_ok by lia. cbn [or_panic].
  apply wp_bind, wp_ret, wp_ret. split; [|exact S1]. rewrite from_be_8, as_i64_id by lia.
  f_equal. apply eq_true_iff_eq. rewrite !Z.ltb_lt. lia.
Qed.

(** The part of [publish] after the check never reports a duplicate. *)
Definition publish_fresh (queue : string) (message : Message) (policy : RetentionPolicy) : QM PublishOutcome :=
  let* value := serialization_err (ser_msg message) in
  let msg_len := Z.of_nat (length value) in
  check_limit msg_len ;;;
  let* id := db_update generate_id in
  let* future := future_delivery message in
  match future with
  | Some deliver_at =>
    db_update (open_tree (scheduled_tree_name queue)) ;;;
    db_update (tree_insert (scheduled_tree_name queue) (encode_scheduled_key deliver_at id) value) ;;;
    add_bytes msg_len ;;;
    record_dedup_key queue message policy ;;;
    ret (Stored (Message.id message))
  | None =>
    db_update (open_tree queue) ;;;
    db_update (tree_insert queue (encode_key (priority message) id) value) ;;;
    add_bytes msg_len ;;;
    record_dedup_key queue message policy ;;;
    ret (Stored (Message.id message))
  end.

Lemma publish_split q m :
  publish q m = (require_queue q ;;; let* p := get_policy q in let* dup := is_duplicate q m p in
    if (dup : bool) then ret Deduplicated else publish_fresh q m p).
Proof. reflexivity. Qed.

(** A stored message went through the recording of its key last. *)
Lemma publish_fresh_Done q m p w o w' :
  publish_fresh q m p w = (Done o, w') ->
  o = Stored (Message.id m) /\ exists w1, frame (fun _ => False) w w1 /\ record_dedup_key q m p w1 = (Done tt, w').
Proof.
  assert (forall A (n : QM A), keeps (frame (fun _ => False)) n -> forall w0 a w1,
    n w0 = (Done a, w1) -> frame (fun _ => False) w0 w1) as Hf.
  { intros A n Hn w0 a w1 E. specialize (Hn w0). by rewrite E in Hn. }
  unfold publish_fresh. intros (v & w1 & E1 & (u2 & w2 & E2 & (i & w3 & E3 & (f & w4 & E4 & E5)%bind_Done)%bind_Done)%bind_Done)%bind_Done.
  apply Hf in E1; [|apply kept_serialization_err]. apply Hf in E2; [|apply kept_check_limit].
  apply Hf in E3; [|apply kept_generate]. apply Hf in E4; [|apply kept_future].
  assert (frame (fun _ => False) w w4) as F4 by (do 3 (etrans; [eassumption|]); eassumption).
  destruct f as [t|]; apply bind_Done in E5 as (u5 & w5 & E5 & (u6 & w6 & E6 & (u7 & w7 & E7 & ([] & w8 & E8 & E9)%bind_Done)%bind_Done)%bind_Done);
    apply Hf in E5; [|apply kept_open| |apply kept_open];
    (apply Hf in E6; [|by apply kept_insert; auto]); (apply Hf in E7; [|apply kept_add_bytes]);
    injection E9 as <- <-; (split; [done|]); exists w7; (split; [|exact E8]);
    (etrans; [exact F4|]; etrans; [exact E5|]; etrans; [exact E6|exact E7]).
Qed.

(** What is recorded is the reading taken. *)
Lemma record_exact q m p k s w w' :
  dedup_window_secs p = Some s -> dedup_key m = Some k -> record_dedup_key q m p w = (Done tt, w') ->
  exists t, next_reading w = Some t /\ clock_value t /\ clock_tick (env w') = (clock_tick (env w) + 1)%nat /\
    o_get (str_bytes k) (look (store w') (dedup_tree_name q)) = Some (be_bytes 8 t).
Proof.
  intros Hwin Hk Hrun. destruct (clock_read_law (clock_tick (env w))) as (t & Ht & Hr).
  assert (wp (record_dedup_key q m p) (fun _ w' => clock_tick (env w') = (clock_tick (env w) + 1)%nat /\
    o_get (str_bytes k) (look (store w') (dedup_tree_name q)) = Some (be_bytes 8 t)) w) as Hwp.
  { change (i64_lim / 4) with 2305843009213693952 in Hr. unfold record_dedup_key. rewrite Hwin, Hk.
    apply wp_bind, wp_open_env. intros w1 S1 E1. apply wp_bind, (wp_now_exact t); [unfold next_reading; by rewrite E1|lia|].
    apply wp_insert. intros d Hd _. cbn. rewrite E1. split; [done|].
    rewrite store_set_db, Hd, look_c_insert, o_get_insert. unfold as_u64. by rewrite Z.mod_small by lia. }
  unfold wp in Hwp. rewrite Hrun in Hwp. exists t. split; [done|]. split; [by exists (clock_tick (env w))|exact Hwp].
Qed.

(** A publish with a key on record: the reading it takes decides. *)
Lemma publish_decided q m k s t now w :
  remembers q k s t w -> sane_policy (policy (store w) q) = true -> 0 < s -> 0 <= t < i64_lim / 4 ->
  dedup_key m = Some k -> next_reading w = Some now ->
  if now <? t + s * 1000 then exists w', publish q m w = (Done Deduplicated, w') /\ store w' = store w
  else forall w', publish q m w <> (Done Deduplicated, w').
Proof.
  intros [Hd Hwin Hrec] Hsane Hpos Ht Hk Hnow.
  assert (wp (publish q m) (fun o w' => if now <? t + s * 1000 then o = Done Deduplicated /\ store w' = store w
    else o <> Done Deduplicated) w) as Hwp.
  { rewrite publish_split. apply wp_bind, wp_require_queue; [intros _|congruence]. apply wp_bind, wp_get_policy, wp_bind.
    eapply wp_mono; [by apply (is_duplicate_exact q m _ k s t now)|]. intros o w' [-> Hst].
    destruct (now <? t + s * 1000); [by apply wp_ret|]. unfold wp.
    destruct (publish_fresh q m _ w') as [[o|e| |] w2] eqn:E; try done. by apply publish_fresh_Done in E as [-> _]. }
  unfold wp in Hwp. destruct (publish q m w) as [o w']. cbn [fst snd] in Hwp. destruct (now <? t + s * 1000).
  - destruct Hwp as [-> Hst]. eauto.
  - intros w2 [= -> _]. by apply Hwp.
Qed.

(** A message stored with a key: the time of its last reading is on record. *)
Lemma publish_recorded q m k s w u w' :
  declared (store w) q = true -> dedup_window_secs (policy (store w) q) = Some s -> dedup_key m = Some k ->
  publish q m w = (Done (Stored u), w') ->
  exists t n, (clock_tick (env w) <= n < clock_tick (env w'))%nat /\ clock_read n = Some t /\ clock_value t /\
    o_get (str_bytes k) (look (store w') (dedup_tree_name q)) = Some (be_bytes 8 t).
Proof.
  intros Hd Hwin Hk Hrun.
  assert (wp (publish q m) (fun o w' => o = Done (Stored u) ->
    exists t n, (clock_tick (env w) <= n < clock_tick (env w'))%nat /\ clock_read n = Some t /\ clock_value t /\
      o_get (str_bytes k) (look (store w') (dedup_tree_name q)) = Some (be_bytes 8 t)) w) as Hwp.
  { rewrite publish_split. apply wp_bind, wp_require_queue; [intros _|congruence]. apply wp_bind, wp_get_policy, wp_bind.
    pose proof (kept_is_duplicate (R := frame (fun _ => False)) q m (policy (store w) q) w) as F1. unfold wp.
    destruct (is_duplicate q m _ w) as [[[]|e| |] w1]; try done. cbn [fst snd] in *.
    destruct (publish_fresh q m _ w1) as [[o|e| |] w2] eqn:E; try done.
    apply publish_fresh_Done in E as [-> (w3 & F3 & Hrec)]. intros _.
    destruct (record_exact q m _ k s _ _ Hwin Hk Hrec) as (t & Hnow & Hcv & Htick & Hget).
    exists t, (clock_tick (env w3)). split_and!; [| |exact Hnow|exact Hcv|exact Hget]; cbn.
    - pose proof (fr_clock _ _ _ F1). pose proof (fr_clock _ _ _ F3). lia.
    - rewrite Htick. lia. }
  unfold wp in Hwp. rewrite Hrun in Hwp. by apply Hwp.
Qed.

(** ** What runs leave alone *)

Lemma remembers_frame q k s t w w' : frame (protected q) w w' -> remembers q k s t w -> remembers q k s t w'.
Proof.
  intros [Hf _ _] [Hd Hwin Hrec]. unfold protected in Hf. split.
  - unfold declared in *. rewrite Hf by auto. exact Hd.
  - unfold policy in *. rewrite Hf by auto. exact Hwin.
  - rewrite Hf by auto. exact Hrec.
Qed.

Lemma remembers_store q k s t w w' : store w' = store w -> remembers q k s t w -> remembers q k s t w'.
Proof. intros HS [Hd Hwin Hrec]. by split; rewrite HS. Qed.

(** A call on one queue: rejected, or a frame that may use the safety of the name. *)
Lemma remembers_call {A} (op : QM A) q' q k s t w :
  Inv (store w) (idgen w) -> (declared (store w) q' = false -> rejects op q' w) ->
  (safe_name q' = true -> keeps (frame (protected q)) op) -> remembers q k s t w -> remembers q k s t (op w).2.
Proof.
  intros HI Hrej Hk Hr. destruct (declared (store w) q') eqn:Hd.
  - eapply remembers_frame; [apply Hk; by eapply inv_safe|done].
  - by rewrite (Hrej eq_refl).
Qed.

Lemma remembers_publish q q' m k s t w :
  SysInv w -> admissible (OpPublish q' m) w -> 0 < s -> 0 <= t < i64_lim / 4 ->
  (forall now, next_reading w = Some now -> now < t + s * 1000) ->
  idgen (publish q' m w).2 <= u64_lim -> remembers q k s t w -> remembers q k s t (publish q' m w).2.
Proof.
  intros HS Ha Hpos Ht Hclock Hn Hr. pose proof HS as [HI _ _ Hpol _ _]. pose proof Hr as [Hd Hwin Hrec].
  pose proof (inv_safe _ _ _ HI Hd) as Hq. destruct (decide (q' = q)) as [->|Hne].
  2: { apply (remembers_call _ q'); [done|by apply require_queue_rejects| |done]. intros Hq'.
       apply kept_publish; [apply (slot_unprotected q q' Main)|apply (slot_unprotected q q' Scheduled)|
         apply (slot_unprotected q q' Dedup)]; auto. }
  destruct (decide (dedup_key m = Some k)) as [Hk|Hk].
  - destruct (clock_read_law (clock_tick (env w))) as (now & Hnow & _).
    pose proof (publish_decided q m k s t now w Hr (proj1 (Hpol _ Hd)) Hpos Ht Hk Hnow) as Hdec.
    rewrite (proj2 (Z.ltb_lt _ _)) in Hdec by (by apply Hclock). destruct Hdec as (w' & -> & Hst).
    by eapply remembers_store.
  - destruct Ha as (Hw & _ & Hroom). destruct (ser_msg_total m Hw) as [v Hv]. assert (stores m v) as Hs by done.
    rewrite (stores_size _ _ Hs) in Hroom.
    pose proof (publish_sim q m v w HI Hd Hs (proj1 (Hpol _ Hd)) Hroom) as Hsim. unfold wp in Hsim.
    destruct (publish q m w) as [o w']. cbn [fst snd] in *. destruct Hsim as (_ & _ & Hpost).
    destruct o as [[u|]|[]| |]; try done; try (destruct_and! Hpost; by eapply remembers_store).
    destruct Hpost as (_ & _ & _ & _ & (now & _ & Hslot) & HE).
    destruct (HE Hn) as (i & now' & _ & _ & HE'). split.
    + by rewrite (eff_declared _ _ _ _ HE').
    + by rewrite (eff_policy _ _ _ _ HE').
    + change (look ?c (dedup_tree_name q)) with (slot c Dedup q) in *. rewrite Hslot. unfold record_store. rewrite Hwin.
      destruct (dedup_key m) as [k2|]; [|exact Hrec]. change (slot ?c Dedup q) with (look c (dedup_tree_name q)).
      rewrite look_c_insert, o_get_insert_ne; [exact Hrec|]. intros E%str_bytes_inj. congruence.
Qed.

Lemma remembers_declare q q' p k s t w :
  wf_policy p = true -> safe_name q = true -> remembers q k s t w ->
  remembers q k s t (declare_queue_with_retention q' p w).2.
Proof.
  intros Hp Hq Hr. pose proof Hr as [Hd Hwin Hrec]. pose proof (declare_sim q' p w Hp) as (_ & _ & _ & Hpost).
  destruct (declared (store w) q') eqn:Hd'; [destruct Hpost as [_ HS]; by eapply remembers_store|].
  destruct Hpost as (_ & Hdecl & Hpol & Hslot). split.
  - rewrite Hdecl, Hd. apply orb_true_r.
  - rewrite Hpol, bool_decide_false by congruence. exact Hwin.
  - change (look ?c (dedup_tree_name q)) with (slot c Dedup q). by rewrite Hslot.
Qed.

Lemma remembers_reopen q e k s t w :
  Inv (store w) (idgen w) -> safe_name q = true -> remembers q k s t w -> remembers q k s t (reopen e w).
Proof.
  intros HI Hq Hr. unfold reopen. destruct (flush_done w) as (d & Hfl & Hv). rewrite Hfl. unfold open.
  set (w0 := mkWorld (mkQM d 0 (max_bytes (qm w))) e).
  assert (store w0 = store w) as HS by (unfold store; cbn; by rewrite Hv).
  pose proof (frame_open_body (protected q) w0) as Hf. destruct (open_body w0) as [o w'] eqn:E. cbn [snd] in Hf.
  enough (remembers q k s t w') as Hr' by exact Hr'. apply (remembers_frame q k s t w0); [|by apply (remembers_store q k s t w)].
  apply Hf; [by right; left|]. intros q' Hin. rewrite HS in Hin. apply (queue_names_declared _ _ _ HI) in Hin.
  pose proof (inv_safe _ _ _ HI Hin) as Hq'.
  split; [apply (slot_unprotected q q' Main)|apply (slot_unprotected q q' Inflight)]; auto.
Qed.

Lemma remembers_op q k s t op ev w w' :
  SysInv w -> admissible op w -> run_op op w = (ev, w') -> idgen w' <= u64_lim -> 0 < s -> 0 <= t < i64_lim / 4 ->
  (forall now, next_reading w = Some now -> now < t + s * 1000) -> remembers q k s t w -> remembers q k s t w'.
Proof.
  intros HS Ha Hr Hn Hpos Ht Hclock Hrm. assert (w' = (run_op op w).2) as -> by (by rewrite Hr). clear Hr.
  pose proof HS as [HI _ _ _ _ _]. pose proof (inv_safe _ _ _ HI (rm_declared _ _ _ _ _ Hrm)) as Hq.
  assert (forall q' sl, sl <> Dedup -> safe_name q' = true -> ~ protected q (slot_tree sl q')) as Hun
    by (intros q' sl Hsl Hq'; apply slot_unprotected; auto).
  destruct op as [q' p|q' m|q'|q' tg|q' tg|q'|q'|e]; cbn [run_op snd] in *.
  - destruct Ha as (_ & Hp & _). by apply remembers_declare.
  - pose proof (remembers_publish q q' m k s t w HS Ha Hpos Ht Hclock) as Hp. destruct (publish q' m w). by apply Hp.
  - apply (remembers_call _ q'); [done|by apply require_queue_rejects| |done]. intros Hq'.
    apply kept_consume; [by apply (Hun q' Main)|by apply (Hun q' Inflight)].
  - assert (remembers q k s t (ack q' tg w).2) as Hk; [|by destruct (ack q' tg w)].
    apply (remembers_call _ q'); [done|by apply require_queue_rejects| |done]. intros Hq'.
    apply kept_ack. by apply (Hun q' Inflight).
  - apply (remembers_call _ q'); [done|by apply require_queue_rejects| |done]. intros Hq'.
    apply kept_nack; [by apply (Hun q' Main)|by apply (Hun q' Inflight)|by apply (Hun q' Dlq)].
  - apply (remembers_call _ q'); [done|by apply require_queue_rejects| |done]. intros Hq'.
    apply kept_promote; [by apply (Hun q' Main)|by apply (Hun q' Scheduled)].
  - apply (remembers_call _ q'); [done|by apply require_queue_rejects| |done]. intros Hq'.
    apply kept_retention. by apply (Hun q' Main).
  - by apply remembers_reopen.
Qed.

(** Runs of operations and restarts during which the clock, read at the start of
    each operation, stays below [limit]. *)
Inductive steps_before (limit : Z) : World -> World -> Prop :=
| before_nil w : steps_before limit w w
| before_cons w op ev w1 w' :
    (forall now, next_reading w = Some now -> now < limit) ->
    admissible op w -> run_op op w = (ev, w1) -> idgen w1 <= u64_lim ->
    steps_before limit w1 w' -> steps_before limit w w'.

Lemma remembers_steps q k s t w w' :
  SysInv w -> 0 < s -> 0 <= t < i64_lim / 4 -> steps_before (t + s * 1000) w w' ->
  remembers q k s t w -> SysInv w' /\ remembers q k s t w'.
Proof.
  intros HS Hpos Ht Hst. induction Hst as [w|w op ev w1 w' Hclock Ha Hr Hn _ IH]; [done|]. intros Hrm.
  apply IH; [by eapply run_op_ok|]. by eapply remembers_op.
Qed.

Lemma publish_effect q m u w w1 :
  SysInv w -> declared (store w) q = true -> admissible (OpPublish q m) w ->
  publish q m w = (Done (Stored u), w1) -> idgen w1 <= u64_lim ->
  declared (store w1) q = true /\ policy (store w1) q = policy (store w) q.
Proof.
  intros HS Hd (Hw & _ & Hroom) Hrun Hn. destruct (ser_msg_total m Hw) as [v Hv]. assert (stores m v) as Hs by done.
  rewrite (stores_size _ _ Hs) in Hroom.
  pose proof (publish_sim q m v w (sys_inv _ HS) Hd Hs (proj1 (sys_policy _ HS _ Hd)) Hroom) as Hsim. unfold wp in Hsim.
  rewrite Hrun in Hsim. destruct Hsim as (_ & _ & _ & _ & _ & _ & _ & HE). destruct (HE Hn) as (i & now & _ & _ & HE').
  by rewrite (eff_declared _ _ _ _ HE'), (eff_policy _ _ _ _ HE').
Qed.

(** C13: Deduplication.  When a message with a deduplication key is stored, the
    queue remembers a time [t] the clock showed during that publish.  After any run
    of admissible engine calls (also on the same queue: deliveries,
    acknowledgements, retention passes, further publishes) and restarts on the
    flushed database, started while the clock showed less than [t] plus the window, a
    publish with the same key is refused as a duplicate, with the store unchanged,
    if the clock then still shows less than [t] plus the window, and is not refused
    as a duplicate otherwise, whatever else the message contains. *)
Theorem duplicate_suppressed q m k s u w w1 :
  SysInv w -> declared (store w) q = true -> admissible (OpPublish q m) w ->
  dedup_window_secs (policy (store w) q) = Some s -> 0 < s -> dedup_key m = Some k ->
  publish q m w = (Done (Stored u), w1) -> idgen w1 <= u64_lim ->
  exists t n, (clock_tick (env w) <= n < clock_tick (env w1))%nat /\ clock_read n = Some t /\
    forall w2 m2 now, steps_before (t + s * 1000) w1 w2 -> dedup_key m2 = Some k -> next_reading w2 = Some now ->
      if now <? t + s * 1000
      then exists w3, publish q m2 w2 = (Done Deduplicated, w3) /\ store w3 = store w2
      else forall w3, publish q m2 w2 <> (Done Deduplicated, w3).
Proof.
  intros HS Hd Ha Hwin Hpos Hk Hrun Hn.
  destruct (publish_recorded q m k s w u w1 Hd Hwin Hk Hrun) as (t & n & Hticks & Hread & Hcv & Hget).
  exists t, n. split; [done|]. split; [done|]. apply clock_value_range in Hcv. intros w2 m2 now Hst Hk2 Hnow.
  assert (run_op (OpPublish q m) w = ([Accepted q m], w1)) as Hop by (cbn; by rewrite Hrun).
  pose proof (ok_inv _ _ _ (run_op_ok _ _ _ _ HS Ha Hop Hn)) as HS1.
  destruct (publish_effect q m u w w1 HS Hd Ha Hrun Hn) as [Hd1 Hp1].
  destruct (remembers_steps q k s t w1 w2) as [HS2 Hrm]; auto; [split; auto; by rewrite Hp1|].
  apply (publish_decided q m2 k s t now w2); auto. apply (sys_policy _ HS2), Hrm.
Qed.
End Dedup.

(** ** Witness *)

Import SysDemo.

Lemma run_ops_before limit ops w r :
  (forall now, clock_value now -> now < limit) -> run_ops ops w = Some r -> steps_before limit w r.2.
Proof.
  intros Hc. revert w r. induction ops as [|op ops IH]; intros w r; cbn [run_ops].
  { intros [= <-]. constructor. }
  destruct (run_op op w) as [ev w1] eqn:Hr. destruct (_ && _) eqn:E; [|done].
  apply andb_true_iff in E as [Ha%admissible_b_spec Hn%Z.leb_le].
  destruct (run_ops ops w1) as [r1|] eqn:E1; [|done]. cbn. intros [= <-]. cbn.
  eapply before_cons; eauto. intros now Hnow. apply Hc. by eexists.
Qed.

(** The message is delivered, acknowledged and the process restarted before the
    second publish. *)
Definition w_keyed : World := (publish "orders" (keyed 8 "fresh") w_snap).2.
Definition keyed_ops : list Op :=
  [OpConsume "orders"; OpConsume "orders"; OpConsume "orders"; OpConsume "orders";
   OpAck "orders" (mkTag (idgen w_keyed - 1)); OpRetain "orders"; OpReopen (mkEnv 40 9);
   OpPublish "orders" (keyed 11 "other")].
Definition w_later : World := (default ([], w_keyed) (run_ops keyed_ops w_keyed)).2.

Lemma duplicate_suppressed_witness :
  exists w3, publish "orders" (keyed 9 "fresh") w_later = (Done Deduplicated, w3) /\ store w3 = store w_later.
Proof.
  destruct (duplicate_suppressed "orders" (keyed 8 "fresh") "fresh" 60 8 w_snap w_keyed) as (t & n & _ & Hread & Hdup).
  - exact w_snap_sys.
  - vm_compute. reflexivity.
  - apply admissible_b_spec. vm_compute. reflexivity.
  - vm_compute. reflexivity.
  - reflexivity.
  - reflexivity.
  - assert ((publish "orders" (keyed 8 "fresh") w_snap).1 = Done (Stored 8)) as Ho by (vm_compute; reflexivity).
    rewrite <- Ho. apply surjective_pairing.
  - vm_compute. discriminate.
  - assert (forall now, clock_value now -> now < t + 60 * 1000) as Hc.
    { intros now [n' Hn']. cbn in Hread, Hn'. injection Hread as <-. injection Hn' as <-.
      pose proof (Nat.mod_upper_bound n' 1000). lia. }
    assert (exists now, next_reading w_later = Some now) as [now Hnow] by (eexists; vm_compute; reflexivity).
    specialize (Hdup w_later (keyed 9 "fresh") now). rewrite (proj2 (Z.ltb_lt _ _)) in Hdup by (apply Hc; by eexists).
    apply Hdup; [|reflexivity|exact Hnow]. unfold w_later.
    assert (match run_ops keyed_ops w_keyed with Some _ => true | None => false end = true) as Hs by (vm_compute; reflexivity).
    destruct (run_ops keyed_ops w_keyed) as [r|] eqn:E; [|discriminate]. exact (run_ops_before _ _ _ _ Hc E).
Defined.
