(* ===== verification/Snapshot.v ===== *)
(** * Snapshot: exporting and restoring all queues

    src/pelicanq-core/src/snapshot.rs.  The export lists the messages of every
    queue; the restore files them again in a freshly opened manager.  The round
    trip keeps, for every queue, the policy, the order of the ready messages, the
    in-flight messages by tag, the schedule and the dead letters. *)

From Stdlib Require Import ZArith Lia Sorted.
From stdpp Require Import prelude gmap strings sorting.
From S2P Require Import Prelude Bytes OrdMap Sled Message Bincode Keys QueueManager Store Spec.
From S2P Require Import Engine Invariant Refinement Maintenance Retention Holdings System Delivery.

(** ** Data *)

Record QueueSnapshot := mkQS {
  qs_policy : RetentionPolicy;
  qs_messages : list Message;
  qs_scheduled : list Message;
  qs_inflight : list (Z * Message);
  qs_dead_letter : list Message;
}.

(** [BTreeMap<String, QueueSnapshot>]: the entries in ascending key order. *)
Definition QueueManagerSnapshot : Type := list (string * QueueSnapshot).

(** [BTreeMap::insert]. *)
Fixpoint bt_insert {A} (k : string) (x : A) (l : list (string * A)) : list (string * A) :=
  match l with
  | [] => [(k, x)]
  | (k', x') :: l' =>
    match lex_cmp (str_bytes k) (str_bytes k') with
    | Lt => (k, x) :: l
    | Eq => (k, x) :: l'
    | Gt => (k', x') :: bt_insert k x l'
    end
  end.

Section Snapshot.
Context `{!Sled, !Bincode, !Environment, !BuildProfile}.

(** ** Export *)

(** The loop over a tree that collects its messages. *)
Definition export_tree (t : string) : QM (list Message) :=
  db_update (open_tree t) ;;;
  let* items := iter_tree t in
  for_fold items [] (fun messages entry =>
    let* kv := storage_err entry in
    let* msg := serialization_err (de_msg kv.2) in
    ret (messages ++ [msg])).

(** The loop over the in-flight tree, which keeps the delivery tags. *)
Definition export_inflight (t : string) : QM (list (Z * Message)) :=
  db_update (open_tree t) ;;;
  let* items := iter_tree t in
  for_fold items [] (fun inflight entry =>
    let* kv := storage_err entry in
    let* tag := or_panic (key_prefix_u64 kv.1) in
    let* msg := serialization_err (de_msg kv.2) in
    ret (inflight ++ [(tag, msg)])).

Definition export_queue (name : string) : QM QueueSnapshot :=
  let* policy := get_policy name in
  let* messages := export_tree name in
  let* scheduled := export_tree (scheduled_tree_name name) in
  let* inflight := export_inflight (inflight_tree_name name) in
  let* dead_letter := export_tree (dlq_tree_name name) in
  ret (mkQS policy messages scheduled inflight dead_letter).

Definition export_snapshot : QM QueueManagerSnapshot :=
  let* names := list_queues in
  for_fold names [] (fun queues name =>
    let* qs := export_queue name in
    ret (bt_insert name qs queues)).

(** ** Restore *)

(** Main and dead-letter messages are filed under new ids. *)
Definition restore_messages (t : string) (ms : list Message) : QM unit :=
  db_update (open_tree t) ;;;
  for_each ms (fun msg =>
    let* value := serialization_err (ser_msg msg) in
    let* id := db_update generate_id in
    db_update (tree_insert t (encode_key (priority msg) id) value)).

(** Scheduled messages under their delivery time, or the current time. *)
Definition restore_scheduled (t : string) (ms : list Message) : QM unit :=
  db_update (open_tree t) ;;;
  for_each ms (fun msg =>
    let* value := serialization_err (ser_msg msg) in
    let* id := db_update generate_id in
    let* deliver_at :=
      match deliver_at msg with Some t => ret t | None => now_ms end in
    db_update (tree_insert t (encode_scheduled_key deliver_at id) value)).

(** In-flight messages under their original tags. *)
Definition restore_inflight (t : string) (ms : list (Z * Message)) : QM unit :=
  db_update (open_tree t) ;;;
  for_each ms (fun tm =>
    let* value := serialization_err (ser_msg tm.2) in
    db_update (tree_insert t (be_bytes 8 tm.1) value)).

Definition restore_queue (name : string) (qs : QueueSnapshot) : QM unit :=
  db_update (tree_insert META_QUEUES_TREE (str_bytes name) []) ;;;
  let* policy_bytes := serialization_err (ser_pol (qs_policy qs)) in
  db_update (tree_insert META_RETENTION_TREE (str_bytes name) policy_bytes) ;;;
  db_update (open_tree name) ;;;
  db_update (open_tree (inflight_tree_name name)) ;;;
  db_update (open_tree (dlq_tree_name name)) ;;;
  db_update (open_tree (scheduled_tree_name name)) ;;;
  db_update (open_tree (dedup_tree_name name)) ;;;
  restore_messages name (qs_messages qs) ;;;
  restore_scheduled (scheduled_tree_name name) (qs_scheduled qs) ;;;
  restore_inflight (inflight_tree_name name) (qs_inflight qs) ;;;
  restore_messages (dlq_tree_name name) (qs_dead_letter qs).

Definition restore_from_snapshot (snapshot : QueueManagerSnapshot) : QM unit :=
  for_each snapshot (fun nq => restore_queue nq.1 nq.2) ;;;
  let* n := recalculate_bytes in
  modify (set_bytes n).
End Snapshot.

(** ** What the export contains *)

Section Exporting.
Context `{!Sled, !SledLaws, !SledReliable, !Bincode, !BincodeLaws,
          !Environment, !EnvironmentLaws, !BuildProfile}.
Implicit Types w : World.

(** The snapshot of one queue, from the stored contents. *)
Definition queue_snapshot (c : store_t) (q : string) : QueueSnapshot :=
  mkQS (policy c q) (map snd (ready c q)) (map smsg (sched c q)) (inflight_list c q) (map snd (dead c q)).

Lemma unchanged_refl w : unchanged w w.
Proof. by unfold unchanged. Qed.

Lemma wp_export_tree t w :
  Forall (fun kv => is_Some (result_opt (de_msg kv.2))) (look (store w) t) ->
  wp (export_tree t) (returns (fun l w' => l = raw_msgs (look (store w) t) /\ unchanged w w')) w.
Proof.
  intros Hall. unfold export_tree. wps.
  apply wp_for_fold with (I := fun acc l w' => unchanged w w' /\ exists tl, l = map Ok tl /\
    Forall (fun kv : bytes * bytes => is_Some (result_opt (de_msg kv.2))) tl /\
    acc ++ raw_msgs tl = raw_msgs (look (store w) t)).
  - split; [unfold unchanged; by wsimp|]. exists (look (store w) t). auto.
  - intros acc r l w' (Hu & [|kv tl] & Hl & Htl & Hacc); [done|]. injection Hl as -> ->.
    apply Forall_cons_1 in Htl as [[m Hm] Htl]. cbn [storage_err]. wps.
    unfold raw_msgs in Hacc. cbn in Hacc. rewrite Hm in Hacc. cbn in Hacc.
    destruct (de_msg kv.2) as [m'|]; [|done]. injection Hm as ->. cbn [serialization_err]. wps. cbn.
    split; [done|]. exists tl. split_and!; auto. by rewrite <- app_assoc.
  - intros acc w' (Hu & [|kv tl] & Hl & _ & Hacc); [|done]. cbn in *. rewrite app_nil_r in Hacc. auto.
Qed.

Lemma wp_export_inflight n t w :
  n <= u64_lim -> Forall (tag_entry n) (look (store w) t) ->
  wp (export_inflight t) (returns (fun l w' => l = omap dec_tag (look (store w) t) /\ unchanged w w')) w.
Proof.
  intros Hn Hall. unfold export_inflight. wps.
  apply wp_for_fold with (I := fun acc l w' => unchanged w w' /\ exists tl, l = map Ok tl /\
    Forall (tag_entry n) tl /\ acc ++ omap dec_tag tl = omap dec_tag (look (store w) t)).
  - split; [unfold unchanged; by wsimp|]. exists (look (store w) t). auto.
  - intros acc r l w' (Hu & [|kv tl] & Hl & Htl & Hacc); [done|]. injection Hl as -> ->.
    apply Forall_cons_1 in Htl as [Hkv Htl].
    destruct (tag_entry_dec n kv Hn Hkv) as (i & m & Hd & Hk & Hs & Hi).
    cbn in Hacc. rewrite Hd in Hacc. cbn in Hacc. cbn [storage_err]. wps.
    unfold key_prefix_u64. rewrite Hk, be8_fits. cbn. wps. rewrite (de_stores _ _ Hs).
    cbn [serialization_err]. wps. cbn. rewrite from_be_8 by lia.
    split; [done|]. exists tl. split_and!; auto. by rewrite <- app_assoc.
  - intros acc w' (Hu & [|kv tl] & Hl & _ & Hacc); [|done]. cbn in *. rewrite app_nil_r in Hacc. auto.
Qed.

Lemma raw_msgs_main n l :
  n <= u64_lim -> Forall (main_entry n) l -> raw_msgs l = map snd (omap dec_main l).
Proof.
  intros Hn. unfold raw_msgs. induction 1 as [|kv l Hkv Hl IH]; cbn; [done|].
  destruct (main_entry_dec n kv Hn Hkv) as (i & m & Hdec & _ & Hs & _).
  rewrite Hdec, (de_stores _ _ Hs). cbn. by rewrite IH.
Qed.

Lemma main_decodes n t :
  Forall (main_entry n) t -> Forall (fun kv => is_Some (result_opt (de_msg kv.2))) t.
Proof.
  intros Ht. eapply Forall_impl; [exact Ht|]. intros kv (i & m & _ & Hs & _).
  rewrite (de_stores _ _ Hs). by eexists.
Qed.

Lemma sched_decodes n t :
  Forall (sched_entry n) t -> Forall (fun kv => is_Some (result_opt (de_msg kv.2))) t.
Proof.
  intros Ht. eapply Forall_impl; [exact Ht|]. intros kv (d & i & m & _ & Hs & _).
  rewrite (de_stores _ _ Hs). by eexists.
Qed.

Lemma wp_export_queue q w :
  QForm (store w) (idgen w) q -> idgen w <= u64_lim ->
  wp (export_queue q) (returns (fun qs w' => qs = queue_snapshot (store w) q /\ unchanged w w')) w.
Proof.
  intros [Hm Ht Hd Hs _] Hn. unfold export_queue. wp_step. apply wp_get_policy.
  eapply wp_bind_done; [apply wp_export_tree; by eapply main_decodes|].
  intros ms w1 [-> Hu1]. pose proof Hu1 as (HS1 & HG1 & _).
  eapply wp_bind_done; [apply wp_export_tree; rewrite HS1; by eapply sched_decodes|].
  intros sc w2 [-> Hu2]. rewrite HS1. pose proof (unchanged_trans _ _ _ Hu1 Hu2) as Hu. pose proof Hu as (HS2 & HG2 & _).
  eapply wp_bind_done; [apply (wp_export_inflight (idgen w)); [done|rewrite HS2; exact Ht]|].
  intros fl w3 [-> Hu3]. rewrite HS2. pose proof (unchanged_trans _ _ _ Hu Hu3) as Hu'. pose proof Hu' as (HS3 & HG3 & _).
  eapply wp_bind_done; [apply wp_export_tree; rewrite HS3; by eapply main_decodes|].
  intros dl w4 [-> Hu4]. rewrite HS3. wp_step. cbn. split; [|by eapply unchanged_trans].
  unfold queue_snapshot, ready, sched, dead. unfold slot in *. cbn [slot_tree] in *.
  by rewrite (raw_msgs_main (idgen w) (look (store w) q)), (raw_msgs_main (idgen w) (look (store w) (dlq_tree_name q))),
    (raw_msgs_sched (idgen w)).
Qed.

(** Names in ascending byte order. *)
Definition names_sorted (l : list string) : Prop :=
  StronglySorted (fun a b => lex_lt (str_bytes a) (str_bytes b)) l.

Lemma queue_names_sorted c n : Inv c n -> names_sorted (queue_names c).
Proof.
  intros HI. unfold queue_names, names_sorted. pose proof (inv_sorted _ _ HI META_QUEUES_TREE) as Hs.
  pose proof (inv_meta _ _ HI) as Hm. revert Hs Hm.
  induction (look c META_QUEUES_TREE) as [|[k v] t IH]; cbn; [constructor|].
  intros [Hk Hs] Hm. apply Forall_cons_1 in Hm as [(q & E & Hq) Hm]. cbn in E. subst k. cbn.
  rewrite from_utf8_str by (apply safe_name_spec in Hq; tauto). constructor; [auto|].
  apply Forall_forall. intros q' Hin. apply list_elem_of_omap in Hin as ([k' v'] & Hin & Hq'). cbn in Hq'.
  rewrite Forall_forall in Hk, Hm. specialize (Hk _ Hin). specialize (Hm _ Hin) as (q'' & E & Hs'').
  cbn in *. subst k'. rewrite from_utf8_str in Hq' by (apply safe_name_spec in Hs''; tauto).
  by injection Hq' as ->.
Qed.

Lemma bt_insert_last {A} k (x : A) l :
  Forall (fun kx => lex_lt (str_bytes kx.1) (str_bytes k)) l -> bt_insert k x l = l ++ [(k, x)].
Proof.
  induction 1 as [|[k' x'] l Hk Hl IH]; cbn [bt_insert]; [done|]. cbn [fst] in Hk. unfold lex_lt in Hk.
  rewrite (lex_cmp_antisym (str_bytes k')), Hk. cbn [CompOpp]. by rewrite IH.
Qed.

Definition snapshot_of (c : store_t) : QueueManagerSnapshot :=
  map (fun q => (q, queue_snapshot c q)) (queue_names c).

Lemma export_sim w :
  Inv (store w) (idgen w) -> idgen w <= u64_lim ->
  wp export_snapshot (returns (fun s w' => s = snapshot_of (store w) /\ unchanged w w')) w.
Proof.
  intros HI Hn. unfold export_snapshot. wp_step. apply wp_list_queues.
  pose proof (queue_names_sorted _ _ HI) as Hso.
  apply wp_for_fold with (I := fun acc l w' => unchanged w w' /\ exists pre, queue_names (store w) = pre ++ l /\
    acc = map (fun q => (q, queue_snapshot (store w) q)) pre).
  - split; [apply unchanged_refl|]. by exists [].
  - intros acc q l w1 (Hu & pre & Hpre & ->). pose proof Hu as (HS & HG & _).
    assert (declared (store w) q = true) as Hd.
    { apply (queue_names_declared _ _ _ HI). rewrite Hpre. apply elem_of_app. right. left. }
    eapply wp_bind_done.
    { apply wp_export_queue; rewrite ?HS, ?HG; [|done]. apply QInv_QForm. by apply HI. }
    intros qs w2 [-> Hu2]. rewrite HS. wp_step. cbn [returns]. split; [by eapply unchanged_trans|].
    exists (pre ++ [q]). rewrite <- app_assoc. split; [done|]. rewrite map_app. cbn [map].
    apply bt_insert_last. apply Forall_forall. intros [k x] Hin. cbn.
    apply list_elem_of_In, in_map_iff in Hin as (q' & [= <- _] & Hin%list_elem_of_In).
    rewrite Hpre in Hso. unfold names_sorted in Hso. apply StronglySorted_app in Hso as (Hx & _). apply Hx; [done|left].
  - intros acc w' (Hu & pre & Hpre & ->). rewrite app_nil_r in Hpre. cbn. unfold snapshot_of. by rewrite Hpre.
Qed.
End Exporting.

(** ** What the restore writes *)

(** Filing the messages in the given order. *)
Definition file_all (l ms : list Message) : list Message :=
  foldl (fun l m => stable_insert class_of m l) l ms.

(** A scheduled message with its delivery time; scheduling them in the given order. *)
Definition due_msg (e : sentry) : Z * Message := (e.1, smsg e).
Definition stamped (m : Message) : Z * Message := (default 0 (deliver_at m), m).
Definition schedule_all (l : list (Z * Message)) (ms : list Message) : list (Z * Message) :=
  foldl (fun l m => stable_insert fst (stamped m) l) l ms.

Section Restoring.
Context `{!Sled, !SledLaws, !SledReliable, !Bincode, !BincodeLaws,
          !Environment, !EnvironmentLaws, !BuildProfile}.
Implicit Types w : World.

(** Only tree [t] was written. *)
Definition Wrote t w w' : Prop :=
  idgen w <= idgen w' /\ current_bytes (qm w') = current_bytes (qm w) /\
  max_bytes (qm w') = max_bytes (qm w) /\
  (forall t', t' <> t -> look (store w') t' = look (store w) t') /\
  (c_sorted (store w) -> c_sorted (store w')).

Lemma Wrote_unchanged t w w' : unchanged w w' -> Wrote t w w'.
Proof. intros (HS & HG & HB & HM). unfold Wrote. rewrite HS. split_and!; auto. lia. Qed.

Lemma Wrote_trans t w1 w2 w3 : Wrote t w1 w2 -> Wrote t w2 w3 -> Wrote t w1 w3.
Proof.
  intros (G1 & B1 & M1 & L1 & O1) (G2 & B2 & M2 & L2 & O2). unfold Wrote.
  split_and!; [lia|congruence..| |auto]. intros t' Hne. rewrite L2, L1; auto.
Qed.

Lemma Wrote_insert t k x w w' :
  store w' = c_insert t k x (store w) -> idgen w <= idgen w' ->
  current_bytes (qm w') = current_bytes (qm w) -> max_bytes (qm w') = max_bytes (qm w) -> Wrote t w w'.
Proof.
  intros HS HG HB HM. unfold Wrote. rewrite HS. split_and!; auto with ord.
  intros t' Hne. by rewrite look_c_insert_ne.
Qed.

(** Restoring into a main or dead-letter tree. *)
Definition restored_main t ms w w' : Prop :=
  Wrote t w w' /\ Forall (main_entry (idgen w')) (look (store w') t) /\
  (idgen w' <= u64_lim ->
     map snd (omap dec_main (look (store w') t)) = file_all (map snd (omap dec_main (look (store w) t))) ms).

Lemma wp_restore_loop t ms w :
  Forall (fun m => wf_message m = true) ms -> Forall (main_entry (idgen w)) (look (store w) t) ->
  wp (for_each ms (fun msg =>
    let* value := serialization_err (ser_msg msg) in
    let* id := db_update generate_id in
    db_update (tree_insert t (encode_key (priority msg) id) value)))
    (returns (fun _ => restored_main t ms w)) w.
Proof.
  intros Hms. revert w. induction Hms as [|m ms Hm Hms IH]; intros w Hall; cbn [for_each].
  { wp_step. split; [by apply Wrote_unchanged|]. auto. }
  destruct (ser_msg_total m Hm) as [v Hv]. rewrite Hv. cbn [serialization_err].
  assert (stores m v) as Hs by done. wps. set (w1 := set_db d0 (set_db d w)).
  assert (store w1 = c_insert t (encode_key (priority m) i) v (store w)) as HS1 by (unfold w1; by wsimp).
  assert (idgen w1 = v_idgen (view d)) as HG1 by (unfold w1; by wsimp).
  assert (Forall (main_entry (idgen w1)) (look (store w1) t)) as Hall1.
  { rewrite HS1, look_c_insert. apply Forall_o_insert.
    - exists i, m. split_and!; auto; lia.
    - eapply Forall_impl; [exact Hall|]. intros kv. apply main_entry_mono. lia. }
  assert (Wrote t w w1) as HW1 by (apply (Wrote_insert t _ _ w w1 HS1); [lia|done..]).
  clearbody w1. eapply wp_mono; [by apply IH|]. intros [[]| | |] w2 Hp; try done.
  destruct Hp as (HW2 & Hall2 & Heq). split; [by eapply Wrote_trans|]. split; [done|].
  intros Hn. rewrite Heq by done. cbn [file_all foldl]. unfold file_all. f_equal.
  rewrite HS1, look_c_insert, (omap_main_insert (idgen w)); auto; [apply enqueue_snd|].
  destruct HW2 as (HG2 & _). lia.
Qed.

Lemma wp_restore_messages t ms w :
  Forall (fun m => wf_message m = true) ms -> Forall (main_entry (idgen w)) (look (store w) t) ->
  wp (restore_messages t ms) (returns (fun _ => restored_main t ms w)) w.
Proof.
  intros Hms Hall. unfold restore_messages. wps. set (w0 := set_db d w).
  assert (unchanged w w0) as Hu by (unfold w0, unchanged; by wsimp). clearbody w0.
  pose proof Hu as (HS & HG & _).
  eapply wp_mono; [apply wp_restore_loop; [done|by rewrite HS, HG]|].
  intros [[]| | |] w1 Hp; try done. destruct Hp as (HW & Hall1 & Heq). rewrite HS in Heq.
  split; [|done]. eapply Wrote_trans; [by apply Wrote_unchanged|done].
Qed.

(** Restoring the schedule. *)
Definition schedulable (m : Message) : Prop :=
  wf_message m = true /\ exists t, deliver_at m = Some t /\ 0 <= t < i64_lim.

Lemma schedule_due_msg d i m l :
  deliver_at m = Some d ->
  map due_msg (schedule (d, (i, m)) l) = stable_insert fst (stamped m) (map due_msg l).
Proof.
  intros Hd. unfold schedule, stamped, due_msg, smsg. rewrite Hd. cbn [default].
  induction l as [|e l IH]; cbn; [done|]. destruct (d <? e.1); cbn; [done|]. by rewrite IH.
Qed.

Definition restored_sched t ms w w' : Prop :=
  Wrote t w w' /\ Forall (sched_entry (idgen w')) (look (store w') t) /\
  (idgen w' <= u64_lim ->
     map due_msg (omap dec_sched (look (store w') t)) =
     schedule_all (map due_msg (omap dec_sched (look (store w) t))) ms).

Lemma wp_restore_sched_loop t ms w :
  Forall schedulable ms -> Forall (sched_entry (idgen w)) (look (store w) t) ->
  wp (for_each ms (fun msg =>
    let* value := serialization_err (ser_msg msg) in
    let* id := db_update generate_id in
    let* deliver_at := match deliver_at msg with Some t => ret t | None => now_ms end in
    db_update (tree_insert t (encode_scheduled_key deliver_at id) value)))
    (returns (fun _ => restored_sched t ms w)) w.
Proof.
  intros Hms. revert w. induction Hms as [|m ms [Hm (dt & Hdt & Hr)] Hms IH]; intros w Hall; cbn [for_each].
  { wp_step. split; [by apply Wrote_unchanged|]. auto. }
  destruct (ser_msg_total m Hm) as [v Hv]. rewrite Hv, Hdt. cbn [serialization_err].
  assert (stores m v) as Hs by done. wps. set (w1 := set_db d0 (set_db d w)).
  assert (store w1 = c_insert t (encode_scheduled_key dt i) v (store w)) as HS1 by (unfold w1; by wsimp).
  assert (idgen w1 = v_idgen (view d)) as HG1 by (unfold w1; by wsimp).
  assert (Forall (sched_entry (idgen w1)) (look (store w1) t)) as Hall1.
  { rewrite HS1, look_c_insert. apply Forall_o_insert.
    - exists dt, i, m. split_and!; auto; lia.
    - eapply Forall_impl; [exact Hall|]. intros kv. apply sched_entry_mono. lia. }
  assert (Wrote t w w1) as HW1 by (apply (Wrote_insert t _ _ w w1 HS1); [lia|done..]).
  clearbody w1. eapply wp_mono; [by apply IH|]. intros [[]| | |] w2 Hp; try done.
  destruct Hp as (HW2 & Hall2 & Heq). split; [by eapply Wrote_trans|]. split; [done|].
  intros Hn. rewrite Heq by done. unfold schedule_all. cbn [foldl]. f_equal.
  rewrite HS1, look_c_insert, (omap_sched_insert (idgen w) m); auto; [by apply schedule_due_msg|].
  destruct HW2 as (HG2 & _). lia.
Qed.

Lemma wp_restore_scheduled t ms w :
  Forall schedulable ms -> Forall (sched_entry (idgen w)) (look (store w) t) ->
  wp (restore_scheduled t ms) (returns (fun _ => restored_sched t ms w)) w.
Proof.
  intros Hms Hall. unfold restore_scheduled. wps. set (w0 := set_db d w).
  assert (unchanged w w0) as Hu by (unfold w0, unchanged; by wsimp). clearbody w0.
  pose proof Hu as (HS & HG & _).
  eapply wp_mono; [apply wp_restore_sched_loop; [done|by rewrite HS, HG]|].
  intros [[]| | |] w1 Hp; try done. destruct Hp as (HW & Hall1 & Heq). rewrite HS in Heq.
  split; [|done]. eapply Wrote_trans; [by apply Wrote_unchanged|done].
Qed.

(** Restoring the in-flight messages under their tags. *)
Definition tagged (e : Z * Message) : Prop := wf_message e.2 = true /\ 0 <= e.1 < u64_lim.

Definition tag_all (f : gmap Z Message) (ms : list (Z * Message)) : gmap Z Message :=
  foldl (fun f e => <[e.1 := e.2]> f) f ms.

Definition restored_tags t ms w w' : Prop :=
  Wrote t w w' /\ idgen w' = idgen w /\ Forall (tag_entry u64_lim) (look (store w') t) /\
  list_to_map (omap dec_tag (look (store w') t)) = tag_all (list_to_map (omap dec_tag (look (store w) t))) ms.

Lemma wp_restore_tags_loop t ms w :
  Forall tagged ms -> Forall (tag_entry u64_lim) (look (store w) t) ->
  wp (for_each ms (fun tm =>
    let* value := serialization_err (ser_msg tm.2) in
    db_update (tree_insert t (be_bytes 8 tm.1) value)))
    (returns (fun _ => restored_tags t ms w)) w.
Proof.
  intros Hms. revert w. induction Hms as [|[tag m] ms [Hm Htag] Hms IH]; intros w Hall; cbn [for_each].
  { wp_step. split; [by apply Wrote_unchanged|]. auto. }
  cbn [fst snd] in *. destruct (ser_msg_total m Hm) as [v Hv]. rewrite Hv. cbn [serialization_err].
  assert (stores m v) as Hs by done. wps. set (w1 := set_db d w).
  assert (store w1 = c_insert t (be_bytes 8 tag) v (store w)) as HS1 by (unfold w1; by wsimp).
  assert (idgen w1 = idgen w) as HG1 by (unfold w1; by wsimp).
  assert (Forall (tag_entry u64_lim) (look (store w1) t)) as Hall1.
  { rewrite HS1, look_c_insert. apply Forall_o_insert; [|done]. by exists tag, m. }
  assert (Wrote t w w1) as HW1 by (apply (Wrote_insert t _ _ w w1 HS1); [lia|done..]).
  clearbody w1. eapply wp_mono; [by apply IH|]. intros [[]| | |] w2 Hp; try done.
  destruct Hp as (HW2 & HG2 & Hall2 & Heq). split; [by eapply Wrote_trans|]. split; [lia|]. split; [done|].
  rewrite Heq. unfold tag_all. cbn [foldl fst snd]. f_equal.
  by rewrite HS1, look_c_insert, (infl_insert u64_lim m).
Qed.

Lemma wp_restore_inflight t ms w :
  Forall tagged ms -> Forall (tag_entry u64_lim) (look (store w) t) ->
  wp (restore_inflight t ms) (returns (fun _ => restored_tags t ms w)) w.
Proof.
  intros Hms Hall. unfold restore_inflight. wps. set (w0 := set_db d w).
  assert (unchanged w w0) as Hu by (unfold w0, unchanged; by wsimp). clearbody w0.
  pose proof Hu as (HS & HG & _).
  eapply wp_mono; [apply wp_restore_tags_loop; [done|by rewrite HS]|].
  intros [[]| | |] w1 Hp; try done. destruct Hp as (HW & HG1 & Hall1 & Heq). rewrite HS in Heq.
  split; [|split; [lia|done]]. eapply Wrote_trans; [by apply Wrote_unchanged|done].
Qed.

Lemma tag_all_list f ms :
  NoDup ms.*1 -> (forall t, t ∈ ms.*1 -> f !! t = None) -> tag_all f ms = list_to_map ms ∪ f.
Proof.
  revert f. induction ms as [|[t m] ms IH]; intros f Hnd Hf; cbn; [by rewrite (left_id_L ∅ _)|].
  apply NoDup_cons in Hnd as [Hni Hnd]. unfold tag_all in *. rewrite IH; [|done|].
  - rewrite <- insert_union_l, <- insert_union_r; [done|]. by apply not_elem_of_list_to_map_1.
  - intros t' Ht'. rewrite lookup_insert_ne by (intros ->; done). apply Hf. by right.
Qed.

(** Distinct keys are distinct tags. *)
Lemma tag_ids_NoDup n t :
  n <= u64_lim -> o_sorted t -> Forall (tag_entry n) t -> NoDup (tag_ids t).
Proof.
  intros Hn Hs Ht. apply o_sorted_NoDup in Hs. unfold tag_ids. revert Hs.
  induction Ht as [|kv t Hkv Ht IH]; intros Hnd; cbn; [constructor|].
  destruct (tag_entry_dec n kv Hn Hkv) as (i & m & Hd & Hk & _ & Hi). rewrite Hd. cbn.
  apply NoDup_cons in Hnd as [Hni Hnd]. constructor; [|auto]. intros Hin. apply Hni.
  apply list_elem_of_fmap in Hin as ([j m'] & Hij & Hin). cbn in Hij. subst j.
  apply list_elem_of_omap in Hin as (kv' & Hin & Hd'). rewrite Forall_forall in Ht.
  destruct (tag_entry_dec n kv' Hn (Ht _ Hin)) as (j & m'' & Hd'' & Hk' & _).
  rewrite Hd' in Hd''. injection Hd'' as <- <-. rewrite Hk, <- Hk'.
  unfold keys. by apply (list_elem_of_fmap_2 fst).
Qed.

(** ** Restoring one queue *)

(** What a snapshot entry must satisfy to be written back. *)
Record Restorable (qs : QueueSnapshot) : Prop := {
  rs_policy : wf_policy (qs_policy qs) = true;
  rs_messages : Forall (fun m => wf_message m = true) (qs_messages qs);
  rs_scheduled : Forall schedulable (qs_scheduled qs);
  rs_inflight : Forall tagged (qs_inflight qs);
  rs_tags : NoDup (qs_inflight qs).*1;
  rs_dead : Forall (fun m => wf_message m = true) (qs_dead_letter qs);
}.

(** The trees of queue [q] hold what the snapshot entry lists. *)
Record Restored (c : store_t) (q : string) (qs : QueueSnapshot) : Prop := {
  rd_form : QForm c u64_lim q;
  rd_ready : map snd (a_ready (abs c q)) = file_all [] (qs_messages qs);
  rd_sched : map due_msg (a_sched (abs c q)) = schedule_all [] (qs_scheduled qs);
  rd_inflight : a_inflight (abs c q) = list_to_map (qs_inflight qs);
  rd_dead : map snd (a_dead (abs c q)) = file_all [] (qs_dead_letter qs);
  rd_dedup : slot c Dedup q = [];
}.

Lemma Restored_ext c c' q qs : (forall s, slot c' s q = slot c s q) -> Restored c q qs -> Restored c' q qs.
Proof.
  intros Heq [[Hm Ht Hd Hs Hids] Hr Hsc Hi Hdd Hde]. rewrite <- (abs_ext c c' q Heq) in Hr, Hsc, Hi, Hdd.
  split; auto; [split|]; rewrite !Heq; done.
Qed.

(** The metadata is that of a declaration; other queues are untouched. *)
Definition restore_queue_post q qs w w' : Prop :=
  idgen w <= idgen w' /\ current_bytes (qm w') = current_bytes (qm w) /\
  max_bytes (qm w') = max_bytes (qm w) /\ c_sorted (store w') /\
  look (store w') META_QUEUES_TREE = o_insert (str_bytes q) [] (look (store w) META_QUEUES_TREE) /\
  (exists pb, ser_pol (qs_policy qs) = Ok pb /\
     look (store w') META_RETENTION_TREE = o_insert (str_bytes q) pb (look (store w) META_RETENTION_TREE)) /\
  (forall s q', safe_name q' = true -> q' <> q -> slot (store w') s q' = slot (store w) s q') /\
  (idgen w' <= u64_lim -> Restored (store w') q qs).

Lemma Forall_main_u64 n t : n <= u64_lim -> Forall (main_entry n) t -> Forall (main_entry u64_lim) t.
Proof. intros Hn Ht. eapply Forall_impl; [exact Ht|]. intros kv. by apply main_entry_mono. Qed.
Lemma Forall_sched_u64 n t : n <= u64_lim -> Forall (sched_entry n) t -> Forall (sched_entry u64_lim) t.
Proof. intros Hn Ht. eapply Forall_impl; [exact Ht|]. intros kv. by apply sched_entry_mono. Qed.

Lemma Wrote_slot s q w w' s' q' :
  Wrote (slot_tree s q) w w' -> safe_name q = true -> safe_name q' = true -> (s' <> s \/ q' <> q) ->
  slot (store w') s' q' = slot (store w) s' q'.
Proof. intros (_ & _ & _ & Hl & _) Hq Hq' Hne. apply Hl. by apply slot_tree_ne. Qed.

Lemma Wrote_meta s q w w' t :
  Wrote (slot_tree s q) w w' -> safe_name q = true -> t = META_QUEUES_TREE \/ t = META_RETENTION_TREE ->
  look (store w') t = look (store w) t.
Proof.
  intros (_ & _ & _ & Hl & _) Hq Ht. apply Hl. destruct (slot_tree_meta s q Hq). destruct Ht; congruence.
Qed.

(** The four loops, on a queue whose trees are empty. *)
Lemma wp_restore_trees q qs w :
  safe_name q = true -> (forall s, slot (store w) s q = []) -> c_sorted (store w) -> Restorable qs ->
  wp (restore_messages q (qs_messages qs) ;;;
      restore_scheduled (scheduled_tree_name q) (qs_scheduled qs) ;;;
      restore_inflight (inflight_tree_name q) (qs_inflight qs) ;;;
      restore_messages (dlq_tree_name q) (qs_dead_letter qs))
    (returns (fun _ w' => exists w1 w2 w3,
       restored_main (slot_tree Main q) (qs_messages qs) w w1 /\
       restored_sched (slot_tree Scheduled q) (qs_scheduled qs) w1 w2 /\
       restored_tags (slot_tree Inflight q) (qs_inflight qs) w2 w3 /\
       restored_main (slot_tree Dlq q) (qs_dead_letter qs) w3 w')) w.
Proof.
  intros Hq Hemp Hso [_ Hms Hsc Hfl _ Hdl].
  eapply wp_bind_done; [apply wp_restore_messages; [done|]|].
  { change (look (store w) q) with (slot (store w) Main q). by rewrite Hemp. }
  intros [] w1 HR1. pose proof HR1 as (HW1 & _).
  eapply wp_bind_done; [apply wp_restore_scheduled; [done|]|].
  { change (look (store w1) (scheduled_tree_name q)) with (slot (store w1) Scheduled q).
    rewrite (Wrote_slot Main q w w1) by auto. by rewrite Hemp. }
  intros [] w2 HR2. pose proof HR2 as (HW2 & _).
  eapply wp_bind_done; [apply wp_restore_inflight; [done|]|].
  { change (look (store w2) (inflight_tree_name q)) with (slot (store w2) Inflight q).
    rewrite (Wrote_slot Scheduled q w1 w2), (Wrote_slot Main q w w1) by auto. by rewrite Hemp. }
  intros [] w3 HR3. pose proof HR3 as (HW3 & _).
  eapply wp_mono; [apply wp_restore_messages; [done|]|].
  { change (look (store w3) (dlq_tree_name q)) with (slot (store w3) Dlq q).
    rewrite (Wrote_slot Inflight q w2 w3), (Wrote_slot Scheduled q w1 w2), (Wrote_slot Main q w w1) by auto.
    by rewrite Hemp. }
  intros [[]| | |] w4 HR4; try done. cbn. exists w1, w2, w3. auto.
Qed.

(** The final trees from the four phases. *)
Lemma phases_restored q qs w w1 w2 w3 w4 :
  safe_name q = true -> (forall s, slot (store w) s q = []) -> c_sorted (store w) -> Restorable qs ->
  restored_main (slot_tree Main q) (qs_messages qs) w w1 ->
  restored_sched (slot_tree Scheduled q) (qs_scheduled qs) w1 w2 ->
  restored_tags (slot_tree Inflight q) (qs_inflight qs) w2 w3 ->
  restored_main (slot_tree Dlq q) (qs_dead_letter qs) w3 w4 ->
  c_sorted (store w4) /\ (idgen w4 <= u64_lim -> Restored (store w4) q qs).
Proof.
  intros Hq Hemp Hso Hrs (HW1 & F1 & E1) (HW2 & F2 & E2) (HW3 & G3 & F3 & E3) (HW4 & F4 & E4).
  pose proof HW1 as (G1 & _ & _ & _ & O1). pose proof HW2 as (G2 & _ & _ & _ & O2).
  pose proof HW3 as (_ & _ & _ & _ & O3). pose proof HW4 as (G4 & _ & _ & _ & O4).
  assert (c_sorted (store w4)) as Hso4 by auto. split; [done|]. intros Hn.
  change (look ?c (slot_tree ?s q)) with (slot c s q) in *.
  assert (slot (store w4) Main q = slot (store w1) Main q) as M4
    by (by rewrite (Wrote_slot Dlq q w3 w4), (Wrote_slot Inflight q w2 w3), (Wrote_slot Scheduled q w1 w2) by auto).
  assert (slot (store w4) Scheduled q = slot (store w2) Scheduled q) as S4
    by (by rewrite (Wrote_slot Dlq q w3 w4), (Wrote_slot Inflight q w2 w3) by auto).
  assert (slot (store w4) Inflight q = slot (store w3) Inflight q) as I4
    by (by rewrite (Wrote_slot Dlq q w3 w4) by auto).
  assert (slot (store w4) Dedup q = []) as D4
    by (by rewrite (Wrote_slot Dlq q w3 w4), (Wrote_slot Inflight q w2 w3), (Wrote_slot Scheduled q w1 w2),
      (Wrote_slot Main q w w1) by auto).
  rewrite Hemp in E1. rewrite (Wrote_slot Main q w w1), Hemp in E2 by auto.
  rewrite (Wrote_slot Scheduled q w1 w2), (Wrote_slot Main q w w1), Hemp in E3 by auto.
  rewrite (Wrote_slot Inflight q w2 w3), (Wrote_slot Scheduled q w1 w2), (Wrote_slot Main q w w1), Hemp in E4 by auto.
  cbn [omap list_omap map list_to_map foldr] in E1, E2, E3, E4.
  split; rewrite ?abs_slots; cbn [a_ready a_sched a_inflight a_dead]; rewrite ?M4, ?S4, ?I4; auto.
  - split; rewrite ?M4, ?S4, ?I4; auto.
    + apply (Forall_main_u64 (idgen w1)); [lia|done].
    + apply (Forall_main_u64 (idgen w4)); [lia|done].
    + apply (Forall_sched_u64 (idgen w2)); [lia|done].
    + apply (tag_ids_NoDup u64_lim); [lia| |done]. rewrite <- I4. apply Hso4.
  - apply E1. lia.
  - apply E2. lia.
  - rewrite E3, tag_all_list; [apply (right_id_L ∅ _)|apply Hrs|intros; apply lookup_empty].
Qed.

Lemma wp_restore_queue q qs w :
  safe_name q = true -> (forall s, slot (store w) s q = []) -> c_sorted (store w) -> Restorable qs ->
  wp (restore_queue q qs) (returns (fun _ => restore_queue_post q qs w)) w.
Proof.
  intros Hq Hemp Hso Hrs. unfold restore_queue. destruct (ser_pol_total _ (rs_policy _ Hrs)) as [pb Hpb].
  rewrite Hpb. unfold serialization_err. wps. apply wp_bind_inv. set (w0 := set_db _ _).
  assert (store w0 = declare_store q pb (store w)) as HS0 by (unfold w0, declare_store; by wsimp).
  assert (idgen w0 = idgen w) as HG0 by (unfold w0; by wsimp).
  assert (current_bytes (qm w0) = current_bytes (qm w) /\ max_bytes (qm w0) = max_bytes (qm w)) as [HB0 HM0]
    by done. clearbody w0.
  assert (forall s q', safe_name q' = true -> slot (store w0) s q' = slot (store w) s q') as Hsl.
  { intros s q' Hq'. rewrite HS0. destruct (slot_tree_meta s q' Hq'). by apply look_declare. }
  assert (c_sorted (store w0)) as Hso0 by (rewrite HS0; unfold declare_store; auto with ord).
  eapply wp_mono; [apply wp_restore_trees; auto; intros s; by rewrite Hsl|].
  intros [[]| | |] w4 Hp; try done. destruct Hp as (w1 & w2 & w3 & HR1 & HR2 & HR3 & HR4).
  destruct (phases_restored q qs w0 w1 w2 w3 w4) as [Hso4 Hrd]; auto; [intros s; by rewrite Hsl|].
  destruct HR1 as [HW1 _], HR2 as [HW2 _], HR3 as [HW3 _], HR4 as [HW4 _].
  assert (forall t, t = META_QUEUES_TREE \/ t = META_RETENTION_TREE -> look (store w4) t = look (store w0) t) as Hmeta.
  { intros t Ht. by rewrite (Wrote_meta Dlq q w3 w4), (Wrote_meta Inflight q w2 w3),
      (Wrote_meta Scheduled q w1 w2), (Wrote_meta Main q w0 w1) by auto. }
  cbn. unfold restore_queue_post. rewrite !Hmeta, !HS0 by auto.
  pose proof HW1 as (? & ? & ? & _). pose proof HW2 as (? & ? & ? & _).
  pose proof HW3 as (? & ? & ? & _). pose proof HW4 as (? & ? & ? & _).
  split_and!; auto; try lia; try congruence.
  - unfold declare_store. by rewrite look_c_insert_ne, look_c_insert.
  - exists pb. split; [done|]. unfold declare_store. by rewrite look_c_insert, look_c_insert_ne.
  - intros s q' Hq' Hne. by rewrite (Wrote_slot Dlq q w3 w4), (Wrote_slot Inflight q w2 w3),
      (Wrote_slot Scheduled q w1 w2), (Wrote_slot Main q w0 w1), Hsl by auto.
Qed.

(** ** Restoring all queues *)

Definition meta_all (t : tree) (names : list string) : tree :=
  foldl (fun t q => o_insert (str_bytes q) [] t) t names.

Definition restore_all_post (s : QueueManagerSnapshot) w w' : Prop :=
  idgen w <= idgen w' /\ max_bytes (qm w') = max_bytes (qm w) /\
  look (store w') META_QUEUES_TREE = meta_all (look (store w) META_QUEUES_TREE) s.*1 /\
  (forall q, q ∉ s.*1 -> policy (store w') q = policy (store w) q) /\
  (forall q qs, (q, qs) ∈ s -> policy (store w') q = qs_policy qs) /\
  (forall sl q, safe_name q = true -> q ∉ s.*1 -> slot (store w') sl q = slot (store w) sl q) /\
  (idgen w' <= u64_lim -> forall q qs, (q, qs) ∈ s -> Restored (store w') q qs).

Lemma policy_insert c c' q pb p q' :
  wf_policy p = true -> ser_pol p = Ok pb ->
  look c' META_RETENTION_TREE = o_insert (str_bytes q) pb (look c META_RETENTION_TREE) ->
  policy c' q' = if bool_decide (q' = q) then p else policy c q'.
Proof.
  intros Hp Hpb Hl. unfold policy. rewrite Hl. case_bool_decide as Hq.
  - subst. rewrite o_get_insert. cbn. by rewrite (de_ser_pol _ _ Hp Hpb).
  - by rewrite o_get_insert_ne by (intros ?%str_bytes_inj; done).
Qed.

Lemma wp_restore_all s w :
  Forall (fun nq => safe_name nq.1 = true /\ Restorable nq.2) s -> NoDup s.*1 -> c_sorted (store w) ->
  (forall q sl, q ∈ s.*1 -> slot (store w) sl q = []) ->
  wp (for_each s (fun nq => restore_queue nq.1 nq.2)) (returns (fun _ => restore_all_post s w)) w.
Proof.
  intros Hall. revert w. induction Hall as [|[q qs] s [Hq Hrs] Hall IH]; intros w Hnd Hso Hemp; cbn [for_each].
  { wp_step. unfold restore_all_post. split_and!; auto; try lia; intros; by set_solver. }
  cbn [fmap list_fmap fst snd] in *. apply NoDup_cons in Hnd as [Hni Hnd].
  eapply wp_bind_done; [apply wp_restore_queue; auto; intros sl; apply Hemp; left|].
  intros [] w1 (G1 & _ & M1 & O1 & L1 & (pb & Hpb & R1) & S1 & E1).
  assert (forall nq, nq ∈ s -> safe_name nq.1 = true) as Hsafe.
  { intros nq Hin. rewrite Forall_forall in Hall. by apply Hall. }
  eapply wp_mono; [apply IH; auto|].
  { intros q' sl Hin. pose proof Hin as Hin'. apply list_elem_of_fmap in Hin as (nq & -> & Hin).
    rewrite S1; [|by apply Hsafe|congruence]. apply Hemp. by right. }
  intros [[]| | |] w2 Hp; try done. destruct Hp as (G2 & M2 & L2 & P2 & Q2 & S2 & E2). cbn.
  pose proof (fun q' => policy_insert _ _ q pb _ q' (rs_policy _ Hrs) Hpb R1) as P1.
  unfold restore_all_post. cbn [fmap list_fmap fst snd]. split_and!; [lia|congruence|..].
  - by rewrite L2, L1.
  - intros q' Hn. apply not_elem_of_cons in Hn as [Hne Hn]. by rewrite P2, P1, bool_decide_false.
  - intros q' qs' Hin. apply elem_of_cons in Hin as [[= -> ->]|Hin]; [|by apply Q2].
    by rewrite P2, P1, bool_decide_true.
  - intros sl q' Hq' Hn. apply not_elem_of_cons in Hn as [Hne Hn]. by rewrite S2, S1.
  - intros Hn q' qs' Hin. apply elem_of_cons in Hin as [[= -> ->]|Hin]; [|by apply E2].
    apply (Restored_ext (store w1)); [intros sl; by apply S2|]. apply E1. lia.
Qed.

(** ** Snapshots of well-formed stores *)

Lemma meta_all_sorted names t :
  names_sorted names -> (forall kv q, kv ∈ t -> q ∈ names -> lex_lt kv.1 (str_bytes q)) ->
  meta_all t names = t ++ map (fun q => (str_bytes q, [])) names.
Proof.
  intros Hs. revert t. induction Hs as [|q names Hs IH Hq]; intros t Ht; cbn; [by rewrite app_nil_r|].
  unfold meta_all in IH. rewrite o_insert_last.
  2: { apply Forall_forall. intros kv Hin. apply Ht; [done|left]. }
  rewrite IH; [by rewrite <- app_assoc|]. intros kv q' Hin Hin'.
  apply elem_of_app in Hin as [Hin|Hin]; [apply Ht; [done|by right]|].
  apply list_elem_of_singleton in Hin as ->. rewrite Forall_forall in Hq. by apply Hq.
Qed.

Lemma queue_names_meta c names :
  look c META_QUEUES_TREE = map (fun q => (str_bytes q, [])) names ->
  Forall (fun q => safe_name q = true) names -> queue_names c = names.
Proof.
  intros Hl Hn. unfold queue_names. rewrite Hl. clear Hl.
  induction Hn as [|q names Hq Hn IH]; cbn; [done|].
  rewrite from_utf8_str by (apply safe_name_spec in Hq; tauto). by rewrite IH.
Qed.

(** Filing a list that is already in order gives the list back. *)
Lemma stable_insert_end {A} (rank : A -> Z) x l :
  Forall (fun y => rank y <= rank x) l -> stable_insert rank x l = l ++ [x].
Proof.
  induction 1 as [|y l Hy Hl IH]; cbn; [done|]. rewrite (proj2 (Z.ltb_ge _ _)) by lia. by rewrite IH.
Qed.

Lemma insert_all_sorted {A B} (rank : A -> Z) (f : B -> A) (l : list B) l0 :
  StronglySorted (fun a b => rank a <= rank b) (l0 ++ map f l) ->
  foldl (fun acc b => stable_insert rank (f b) acc) l0 l = l0 ++ map f l.
Proof.
  revert l0. induction l as [|b l IH]; intros l0 Hs; cbn in *; [by rewrite app_nil_r|].
  rewrite stable_insert_end.
  2: { apply Forall_forall. intros y Hy. apply StronglySorted_app in Hs as (Hx & _). apply Hx; [done|left]. }
  rewrite IH; rewrite <- app_assoc; done.
Qed.

Lemma decoded_sorted {A} (dec : bytes * bytes -> option A) (rank : A -> Z) t :
  o_sorted t ->
  (forall kv kv' x y, kv ∈ t -> kv' ∈ t -> dec kv = Some x -> dec kv' = Some y ->
     lex_lt kv.1 kv'.1 -> rank x <= rank y) ->
  StronglySorted (fun a b => rank a <= rank b) (omap dec t).
Proof.
  induction t as [|[k v] t IH]; intros Hs Hr; cbn; [constructor|]. destruct Hs as [Hk Hs].
  assert (StronglySorted (fun a b => rank a <= rank b) (omap dec t)) as Htl.
  { apply IH; [done|]. intros kv kv' x y Hin Hin'. apply Hr; by right. }
  destruct (dec (k, v)) as [x|] eqn:E; [|done]. constructor; [done|]. apply Forall_forall.
  intros y Hy. apply list_elem_of_omap in Hy as (kv & Hin & Hd). rewrite Forall_forall in Hk.
  eapply (Hr (k, v) kv); eauto; [left|by right].
Qed.

Lemma main_sorted n t :
  n <= u64_lim -> o_sorted t -> Forall (main_entry n) t ->
  StronglySorted (fun a b => prio_rank a <= prio_rank b) (omap dec_main t).
Proof.
  intros Hn Hs Ht. apply decoded_sorted; [done|]. rewrite Forall_forall in Ht.
  intros kv kv' x y Hin Hin' Hd Hd' Hlt.
  destruct (main_entry_dec n kv Hn (Ht _ Hin)) as (i & m & E & Hk & Hst & Hi).
  destruct (main_entry_dec n kv' Hn (Ht _ Hin')) as (i' & m' & E' & Hk' & Hst' & Hi').
  rewrite Hd in E. injection E as ->. rewrite Hd' in E'. injection E' as ->.
  pose proof (stores_priority _ _ Hst). pose proof (stores_priority _ _ Hst').
  rewrite Hk, Hk' in Hlt. unfold lex_lt in Hlt. rewrite encode_key_cmp in Hlt by lia.
  unfold prio_rank. cbn [snd].
  destruct (Z.compare_spec (9 - Z.min (priority m) 9) (9 - Z.min (priority m') 9)); [lia|lia|done].
Qed.

Lemma sched_sorted n t :
  n <= u64_lim -> o_sorted t -> Forall (sched_entry n) t ->
  StronglySorted (fun a b => a.1 <= b.1) (omap dec_sched t).
Proof.
  intros Hn Hs Ht. apply decoded_sorted; [done|]. rewrite Forall_forall in Ht.
  intros kv kv' x y Hin Hin' Hd Hd' Hlt.
  destruct (sched_entry_dec n kv Hn (Ht _ Hin)) as (d & i & m & E & Hk & _ & Hi & Hr & _).
  destruct (sched_entry_dec n kv' Hn (Ht _ Hin')) as (d' & i' & m' & E' & Hk' & _ & Hi' & Hr' & _).
  rewrite Hd in E. injection E as ->. rewrite Hd' in E'. injection E' as ->.
  rewrite Hk, Hk' in Hlt. unfold lex_lt in Hlt. rewrite encode_scheduled_key_cmp in Hlt by lia. cbn.
  destruct (Z.compare_spec d d'); [lia|lia|done].
Qed.

Lemma StronglySorted_map {A B} (f : A -> B) (rank : B -> Z) l :
  StronglySorted (fun a b => rank (f a) <= rank (f b)) l ->
  StronglySorted (fun a b => rank a <= rank b) (map f l).
Proof.
  induction 1 as [|x l Hs IH Hx]; cbn; constructor; [done|]. by apply Forall_map.
Qed.

Lemma file_all_sorted (l : list entry) :
  StronglySorted (fun a b => prio_rank a <= prio_rank b) l -> file_all [] (map snd l) = map snd l.
Proof.
  intros Hs. unfold file_all. etransitivity; [apply (insert_all_sorted class_of (fun m => m))|].
  - cbn. rewrite map_id. by apply (StronglySorted_map snd class_of).
  - cbn. apply map_id.
Qed.

Lemma schedule_all_sorted (l : list sentry) :
  StronglySorted (fun a b => a.1 <= b.1) l -> Forall (fun e => deliver_at (smsg e) = Some e.1) l ->
  schedule_all [] (map smsg l) = map due_msg l.
Proof.
  intros Hs Hat. unfold schedule_all.
  assert (map stamped (map smsg l) = map due_msg l) as Heq.
  { rewrite map_map. apply map_ext_in. intros e Hin%list_elem_of_In. rewrite Forall_forall in Hat.
    unfold stamped, due_msg. by rewrite (Hat _ Hin). }
  etransitivity; [apply (insert_all_sorted fst stamped)|by rewrite Heq].
  cbn. rewrite Heq. by apply (StronglySorted_map due_msg fst).
Qed.

Lemma Forall_omap_dec {A} (dec : bytes * bytes -> option A) (P : A -> Prop) (E : bytes * bytes -> Prop) t :
  (forall kv x, E kv -> dec kv = Some x -> P x) -> Forall E t -> Forall P (omap dec t).
Proof.
  intros Hd Ht. apply Forall_forall. intros x Hx. apply list_elem_of_omap in Hx as (kv & Hin & Hx).
  rewrite Forall_forall in Ht. eauto.
Qed.

Lemma main_wf n t :
  n <= u64_lim -> Forall (main_entry n) t -> Forall (fun m => wf_message m = true) (map snd (omap dec_main t)).
Proof.
  intros Hn Ht. apply Forall_map. eapply Forall_omap_dec; [|exact Ht]. intros kv x Hkv Hx.
  destruct (main_entry_dec n kv Hn Hkv) as (i & m & E & _ & [Hw _] & _). by simplify_eq.
Qed.

Lemma sched_times n t :
  n <= u64_lim -> Forall (sched_entry n) t ->
  Forall (fun e => deliver_at (smsg e) = Some e.1 /\ wf_message (smsg e) = true /\ 0 <= e.1 < i64_lim)
    (omap dec_sched t).
Proof.
  intros Hn Ht. eapply Forall_omap_dec; [|exact Ht]. intros kv x Hkv Hx.
  destruct (sched_entry_dec n kv Hn Hkv) as (d & i & m & E & _ & [Hw _] & _ & Hr & Hat). by simplify_eq.
Qed.

Lemma snapshot_restorable c n q :
  QInv c n q -> n <= u64_lim -> wf_policy (policy c q) = true -> Restorable (queue_snapshot c q).
Proof.
  intros HQ Hn Hp. pose proof (QInv_QForm _ _ _ HQ) as [Hm Ht Hd Hs Hids].
  split; cbn; auto; try by eapply main_wf.
  - apply Forall_map. eapply Forall_impl; [by eapply sched_times|]. intros e (Hat & Hw & Hr). by split; eauto.
  - eapply Forall_omap_dec; [|exact Ht]. intros kv x Hkv Hx.
    destruct (tag_entry_dec n kv Hn Hkv) as (i & m & E & _ & [Hw _] & Hi). simplify_eq. split; [done|]. cbn. lia.
Qed.

(** ** The round trip *)

(** Queue [q] of [c'] is a copy of queue [q] of [c]: the same policy, the same
    messages in the same order, the same tags in flight, the same due times. *)
Record Copied (c c' : store_t) (q : string) : Prop := {
  cp_declared : declared c' q = true;
  cp_policy : policy c' q = policy c q;
  cp_ready : map snd (a_ready (abs c' q)) = map snd (a_ready (abs c q));
  cp_inflight : a_inflight (abs c' q) = a_inflight (abs c q);
  cp_dead : map snd (a_dead (abs c' q)) = map snd (a_dead (abs c q));
  cp_sched : map due_msg (a_sched (abs c' q)) = map due_msg (a_sched (abs c q));
}.

Lemma Copied_content c c' q : Copied c c' q -> content (abs c' q) = content (abs c q).
Proof.
  intros [_ _ Hr Hi Hd Hs]. unfold content, holdings. rewrite Hr, Hi, Hd. do 4 f_equal.
  apply (f_equal (map snd)) in Hs. by rewrite !map_map in Hs.
Qed.

Lemma Restored_Copied c n c' q :
  QInv c n q -> n <= u64_lim -> c_sorted c -> Restored c' q (queue_snapshot c q) ->
  declared c' q = true -> policy c' q = policy c q -> Copied c c' q.
Proof.
  intros HQ Hn Hso [_ Hr Hsc Hi Hdd _] Hd Hp. pose proof (QInv_QForm _ _ _ HQ) as [Fm Ft Fd Fs _].
  split; auto; rewrite ?Hr, ?Hsc, ?Hi, ?Hdd;
    cbn [queue_snapshot qs_messages qs_scheduled qs_inflight qs_dead_letter].
  - apply file_all_sorted. eapply main_sorted; [exact Hn|apply Hso|done].
  - apply file_all_sorted. eapply main_sorted; [exact Hn|apply Hso|done].
  - apply schedule_all_sorted; [eapply sched_sorted; [exact Hn|apply Hso|done]|].
    eapply Forall_impl; [by eapply sched_times|]. cbn. by intros e (? & _).
Qed.

Lemma snapshot_of_names c : (snapshot_of c).*1 = queue_names c.
Proof.
  unfold snapshot_of. induction (queue_names c) as [|q l IH]; cbn; [done|]. f_equal. exact IH.
Qed.

Lemma snapshot_of_elem c q qs : (q, qs) ∈ snapshot_of c -> q ∈ queue_names c /\ qs = queue_snapshot c q.
Proof. intros Hin%list_elem_of_In%in_map_iff. destruct Hin as (q' & [= -> <-] & Hin). by rewrite list_elem_of_In. Qed.

(** Everything but the byte counter is in place after the loop over the queues. *)
Lemma restore_all_copied w w0 w1 :
  SysInv w -> store w0 = ∅ -> restore_all_post (snapshot_of (store w)) w0 w1 -> idgen w1 <= u64_lim ->
  queue_names (store w1) = queue_names (store w) /\
  (forall q, declared (store w1) q = declared (store w) q) /\
  (forall q, declared (store w) q = true ->
     Restored (store w1) q (queue_snapshot (store w) q) /\ Copied (store w) (store w1) q).
Proof.
  intros HS Hempty (_ & _ & HL & _ & HP & _ & HR) Hn. pose proof HS as [HI Hg Hf Hpol _ _].
  assert (forall t, look (store w0) t = []) as Hl0 by (intros t; unfold look; by rewrite Hempty, lookup_empty).
  rewrite Hl0, snapshot_of_names, meta_all_sorted in HL;
    [|by eapply queue_names_sorted|by intros ? ? ?%elem_of_nil].
  assert (queue_names (store w1) = queue_names (store w)) as Hnames.
  { apply queue_names_meta; [exact HL|]. apply Forall_forall. intros q Hin.
    apply (queue_names_declared _ _ _ HI) in Hin. by eapply inv_safe. }
  assert (forall q, declared (store w1) q = declared (store w) q) as Hd.
  { intros q. apply eq_true_iff_eq. rewrite <- (queue_names_declared _ _ _ HI).
    unfold declared. rewrite bool_decide_eq_true, HL. cbn [app]. split.
    - intros [v Hv]. apply o_get_Some_elem, list_elem_of_In, in_map_iff in Hv as (q' & [= E _] & Hin).
      apply str_bytes_inj in E as ->. by apply list_elem_of_In.
    - intros Hin. destruct (o_get (str_bytes q) _) eqn:E; [by eexists|].
      apply o_get_None_elem in E. destruct E. unfold keys. rewrite <- list_fmap_compose.
      by apply (list_elem_of_fmap_2 (fst ∘ (fun q => (str_bytes q, [])))). }
  split_and!; auto. intros q Hdq.
  assert ((q, queue_snapshot (store w) q) ∈ snapshot_of (store w)) as Hin.
  { apply list_elem_of_In, in_map_iff. exists q. split; [done|]. apply list_elem_of_In.
    by eapply queue_names_declared. }
  specialize (HR Hn _ _ Hin). split; [done|].
  apply (Restored_Copied _ (idgen w)); [by apply HI|done|apply HI|done|by rewrite Hd|by apply (HP _ _ Hin)].
Qed.

Lemma restored_total w w1 :
  SysInv w -> queue_names (store w1) = queue_names (store w) ->
  (forall q, declared (store w) q = true ->
     Restored (store w1) q (queue_snapshot (store w) q) /\ Copied (store w) (store w1) q) ->
  total_bytes (store w1) = message_bytes (store w).
Proof.
  intros HS Hn Hall. pose proof HS as [HI Hg _ _ _ _]. unfold total_bytes, message_bytes. rewrite Hn.
  apply sum_over_ext. intros q Hin. apply (queue_names_declared _ _ _ HI) in Hin.
  destruct (Hall q Hin) as [HR HC]. unfold dedup_bytes. rewrite (rd_dedup _ _ _ HR). cbn [val_bytes].
  rewrite (queue_bytes_content _ _ _ (rd_form _ _ _ HR)) by lia.
  rewrite (queue_bytes_content _ _ _ (QInv_QForm _ _ _ (inv_queue _ _ HI _ Hin)) Hg).
  rewrite (Copied_content _ _ _ HC). lia.
Qed.

(** The snapshot of a well-formed store can be written to an empty one. *)
Lemma restore_loop_sim w w0 :
  SysInv w -> store w0 = ∅ ->
  wp (for_each (snapshot_of (store w)) (fun nq => restore_queue nq.1 nq.2))
    (returns (fun _ => restore_all_post (snapshot_of (store w)) w0)) w0.
Proof.
  intros HS Hempty. pose proof HS as [HI Hg Hf Hpol _ _].
  assert (forall t, look (store w0) t = []) as Hl0 by (intros t; unfold look; by rewrite Hempty, lookup_empty).
  apply wp_restore_all.
  - apply Forall_forall. intros [q qs] Hin. apply snapshot_of_elem in Hin as [Hin ->]. cbn [fst snd].
    apply (queue_names_declared _ _ _ HI) in Hin. split; [by eapply inv_safe|].
    eapply snapshot_restorable; [by apply HI|done|]. by apply Hpol.
  - rewrite snapshot_of_names. by eapply queue_names_NoDup.
  - intros t. by rewrite Hl0.
  - intros q sl _. apply Hl0.
Qed.

Lemma restore_sim w w0 :
  SysInv w -> store w0 = ∅ -> total_bytes (store w) < u64_lim ->
  (forall w1, for_each (snapshot_of (store w)) (fun nq => restore_queue nq.1 nq.2) w0 = (Done tt, w1) ->
     idgen w1 <= u64_lim) ->
  wp (restore_from_snapshot (snapshot_of (store w)))
    (returns (fun _ w' => max_bytes (qm w') = max_bytes (qm w0) /\
       current_bytes (qm w') = message_bytes (store w) /\
       (forall q, declared (store w') q = declared (store w) q) /\
       (forall q, declared (store w) q = true -> Copied (store w) (store w') q))) w0.
Proof.
  intros HS Hempty Htot Hids. pose proof (restore_loop_sim w w0 HS Hempty) as Hloop.
  apply wp_done in Hloop as ([] & w1 & Hrun & Hpost). specialize (Hids _ Hrun).
  destruct (restore_all_copied w w0 w1 HS Hempty Hpost Hids) as (Hnames & Hd & Hc).
  pose proof (restored_total w w1 HS Hnames Hc) as Ht. pose proof (message_bytes_total (store w)).
  unfold restore_from_snapshot. apply wp_bind_done with (P := fun _ s' => s' = w1).
  { apply wp_done. by exists tt, w1. }
  intros [] s' ->. wp_step. apply wp_recalculate_bytes; [lia|].
  intros w2 (HS2 & HG2 & HB2 & HM2). wps. cbn [returns]. wsimp. destruct Hpost as (_ & HM & _).
  split_and!; [congruence|congruence|..]; rewrite HS2; auto. intros q Hq. by apply Hc.
Qed.
End Restoring.
