(* ===== verification/SnapshotTheorems.v ===== *)
(** * SnapshotTheorems: the export/restore round trip *)

From Stdlib Require Import ZArith Lia.
From stdpp Require Import prelude gmap strings.
From S2P Require Import Prelude Bytes OrdMap Sled Message Bincode Keys QueueManager Store Spec.
From S2P Require Import Engine Invariant Refinement Maintenance Retention Fsck Holdings System.
From S2P Require Import SystemDemo Delivery Snapshot.

Section Claims.
Context `{!Sled, !SledLaws, !SledReliable, !Bincode, !BincodeLaws,
          !Environment, !EnvironmentLaws, !BuildProfile}.

(** C20: Round trip: exporting a well-formed store does not change it, and
    restoring the export into an empty database yields exactly the same declared
    queues, each with the same policy, the same ready and dead messages in the
    same order, the same messages in flight under the same delivery tags and the
    same schedule, with the byte counter equal to the bytes of the messages. *)
Theorem snapshot_roundtrip w w0 :
  SysInv w -> store w0 = ∅ -> total_bytes (store w) < u64_lim ->
  (forall w1, for_each (snapshot_of (store w)) (fun nq => restore_queue nq.1 nq.2) w0 = (Done tt, w1) ->
     idgen w1 <= u64_lim) ->
  exists s w1 w', export_snapshot w = (Done s, w1) /\ store w1 = store w /\
    restore_from_snapshot s w0 = (Done tt, w') /\
    current_bytes (qm w') = message_bytes (store w) /\
    (forall q, declared (store w') q = declared (store w) q) /\
    (forall q, declared (store w) q = true -> Copied (store w) (store w') q).
Proof.
  intros HS Hempty Htot Hids. pose proof (export_sim w (sys_inv _ HS) (sys_gen _ HS)) as Hex.
  apply wp_done in Hex as (s & w1 & Hrun & -> & (HS1 & _)).
  pose proof (restore_sim w w0 HS Hempty Htot Hids) as Hre.
  apply wp_done in Hre as ([] & w' & Hrun' & _ & Hb & Hd & Hc).
  exists (snapshot_of (store w)), w1, w'. by split_and!.
Qed.
End Claims.

(** ** Witnesses *)

Import SysDemo.

Lemma snapshot_roundtrip_witness :
  exists s w1 w', export_snapshot w_snap = (Done s, w1) /\ store w1 = store w_snap /\
    restore_from_snapshot s w_empty = (Done tt, w') /\
    current_bytes (qm w') = message_bytes (store w_snap) /\
    (forall q, declared (store w') q = declared (store w_snap) q) /\
    (forall q, declared (store w_snap) q = true -> Copied (store w_snap) (store w') q).
Proof.
  apply (snapshot_roundtrip w_snap w_empty).
  - exact w_snap_sys.
  - vm_compute. reflexivity.
  - vm_compute. reflexivity.
  - intros w1 Hrun. apply (f_equal (fun r => idgen r.2)) in Hrun. cbn [snd] in Hrun. rewrite <- Hrun.
    vm_compute. discriminate.
Defined.

(** ** Reuse of restored tags *)

Definition snap_taken : QueueManagerSnapshot :=
  match (export_snapshot w_snap).1 with Done s => s | _ => [] end.
Definition w_restored : World := exec (restore_from_snapshot snap_taken) w_empty.
Definition w_delivered : World := exec (drain 2 "orders") w_restored.

(** An example: a restore keeps the delivery tags but not the id generator that made them
    unique: in a freshly opened database the restored ready messages are filed
    under ids that are also tags in flight, and delivering one of them replaces
    the in-flight message of that tag, so that a message disappears although
    nothing was acknowledged or dropped. *)
Example restored_tag_collision :
  a_inflight (abs (store w_restored) "orders") = {[ 1 := msg 2 9 ]} /\
  map fst (a_ready (abs (store w_restored) "orders")) = [0; 1; 2] /\
  length (content (abs (store w_restored) "orders")) = 5%nat /\
  msg 2 9 ∈ holdings (abs (store w_restored) "orders") /\
  length (content (abs (store w_delivered) "orders")) = 4%nat /\
  msg 2 9 ∉ holdings (abs (store w_delivered) "orders").
Proof.
  split_and!; try (vm_compute; reflexivity).
  - refine (proj1 (bool_decide_eq_true _) _). vm_compute. reflexivity.
  - refine (proj1 (bool_decide_eq_false _) _). vm_compute. reflexivity.
Qed.
