(* ===== verification/Faults.v ===== *)
(** * Faults: the engine under input and output errors

    Every call of the database may report an error, and whether it took effect is
    then unknown: sled's calls and transactions are atomic, so either all of it did
    or nothing ([SledFaults]).  The rules below replace those of [Store], and the
    accounting of messages is done on the trees themselves. *)

From Stdlib Require Import ZArith Lia.
From stdpp Require Import prelude gmap strings.
From S2P Require Import Prelude Bytes OrdMap Sled Message Bincode Keys QueueManager Store Spec.
From S2P Require Import Engine Invariant Refinement Maintenance Retention Holdings System.

(** ** The fault model *)

(** The database holds the trees [c]; its id counter is where it was. *)
Definition holds_now `{!Sled, !SledLaws} (c : store_t) (d d' : db_t) : Prop :=
  contents (view d') = c /\ v_idgen (view d') = v_idgen (view d).

Definition same_contents `{!Sled, !SledLaws} (d d' : db_t) : Prop := holds_now (contents (view d)) d d'.

(** Atomicity: a call that reports an error has taken effect or has not; nothing
    else changes.  An iterator yields entries of its tree in key order. *)
Class SledFaults `{!Sled, !SledLaws} : Prop := {
  open_tree_fault t d e d' : open_tree t d = (Err e, d') -> same_contents d d';
  tree_insert_fault t k x d e d' :
    tree_insert t k x d = (Err e, d') -> same_contents d d' \/ holds_now (c_insert t k x (contents (view d))) d d';
  tree_remove_fault t k d e d' :
    tree_remove t k d = (Err e, d') -> same_contents d d' \/ holds_now (c_remove t k (contents (view d))) d d';
  generate_id_fault d e d' : generate_id d = (Err e, d') ->
    contents (view d') = contents (view d) /\ v_idgen (view d) <= v_idgen (view d');
  transaction_fault A (b : Tx A) d msg d' :
    transaction b d = (TStorage msg, d') ->
    same_contents d d' \/ holds_now (commit_ctx b (contents (view d))).2 d d';
  tree_iter_fault t d : sublist (ok_items (tree_iter t d)) (look (contents (view d)) t);
  flush_fault d e d' : flush d = (Err e, d') -> same_contents d d';
}.

(** ** Computations that may fail *)

Section Wpe.
Context {S E : Type}.

(** [wpe m Q F s]: [m] returns a value with [Q] or fails with [F]; it does not
    panic and does not run out of fuel. *)
Definition wpe {A} (m : M S E A) (Q : A -> S -> Prop) (F : E -> S -> Prop) : S -> Prop :=
  wp m (fun o s => match o with Done a => Q a s | Fail e => F e s | _ => False end).

Lemma wpe_ret {A} (a : A) Q F s : Q a s -> wpe (ret a) Q F s.
Proof. done. Qed.
Lemma wpe_fail {A} (e : E) (Q : A -> S -> Prop) (F : E -> S -> Prop) s : F e s -> wpe (fail e) Q F s.
Proof. done. Qed.
Lemma wpe_gets {A} (f : S -> A) (Q : A -> S -> Prop) F s : Q (f s) s -> wpe (gets f) Q F s.
Proof. done. Qed.
Lemma wpe_modify f (Q : unit -> S -> Prop) F s : Q tt (f s) -> wpe (modify f) Q F s.
Proof. done. Qed.

Lemma wpe_bind {A B} (m : M S E A) (k : A -> M S E B) Q F s :
  wpe m (fun a s' => wpe (k a) Q F s') F s -> wpe (bind m k) Q F s.
Proof. intros Hm. apply wp_bind. unfold wpe, wp in *. by destruct (m s) as [[] s']. Qed.

Lemma wpe_mono {A} (m : M S E A) (Q Q' : A -> S -> Prop) (F F' : E -> S -> Prop) s :
  wpe m Q F s -> (forall a s', Q a s' -> Q' a s') -> (forall e s', F e s' -> F' e s') -> wpe m Q' F' s.
Proof. unfold wpe, wp. destruct (m s) as [[] s']; cbn; auto. Qed.

Lemma wpe_for_each {A} (I : list A -> S -> Prop) (l : list A) (body : A -> M S E unit) (Q : unit -> S -> Prop) F s :
  I l s -> (forall x l' s', I (x :: l') s' -> wpe (body x) (fun _ s'' => I l' s'') F s') ->
  (forall s', I [] s' -> Q tt s') -> wpe (for_each l body) Q F s.
Proof.
  intros HI Hb HQ. revert s HI. induction l as [|x l IH]; intros s HI; cbn [for_each]; [by apply wpe_ret, HQ|].
  apply wpe_bind. eapply wpe_mono; [by apply Hb| |done]. intros [] s' HI'. by apply IH.
Qed.

Lemma wpe_for_fold {A B} (I : B -> list A -> S -> Prop) (l : list A) acc (body : B -> A -> M S E B)
    (Q : B -> S -> Prop) F s :
  I acc l s -> (forall acc x l' s', I acc (x :: l') s' -> wpe (body acc x) (fun acc' s'' => I acc' l' s'') F s') ->
  (forall acc s', I acc [] s' -> Q acc s') -> wpe (for_fold l acc body) Q F s.
Proof.
  intros HI Hb HQ. revert acc s HI. induction l as [|x l IH]; intros acc s HI; cbn [for_fold]; [by apply wpe_ret, HQ|].
  apply wpe_bind. eapply wpe_mono; [by apply Hb| |done]. intros acc' s' HI'. by apply IH.
Qed.
End Wpe.

Lemma ok_items_In (l : list (Result string (bytes * bytes))) kv : Ok kv ∈ l -> kv ∈ ok_items l.
Proof. intros Hin. apply list_elem_of_omap. by exists (Ok kv). Qed.

Section Faults.
Context `{!Sled, !SledLaws, !SledFaults, !Bincode, !BincodeLaws,
          !Environment, !EnvironmentLaws, !BuildProfile}.
Implicit Types w : World.

(** ** Rules *)

(** Only ids may have been used up. *)
Definition quiet w w' : Prop :=
  store w' = store w /\ idgen w <= idgen w' /\ current_bytes (qm w') = current_bytes (qm w) /\
  max_bytes (qm w') = max_bytes (qm w).

#[export] Instance quiet_preorder : PreOrder quiet.
Proof.
  split; [intros w; unfold quiet; split_and!; auto; lia|].
  intros w1 w2 w3 (S1 & G1 & B1 & M1) (S2 & G2 & B2 & M2). unfold quiet. split_and!; [congruence|lia|congruence..].
Qed.

(** What a failing call leaves: nothing but ids changed. *)
Definition faults (F : PelicanError -> World -> Prop) w : Prop := forall e w', quiet w w' -> F (Storage e) w'.

Lemma faults_quiet F w w' : faults F w -> quiet w w' -> faults F w'.
Proof. intros HF Hq e w'' Hq'. apply HF. by etrans. Qed.

Lemma quiet_db d w :
  contents (view d) = store w -> idgen w <= v_idgen (view d) -> quiet w (set_db d w).
Proof. intros Hc Hg. by split_and!. Qed.
Lemma quiet_env e w : quiet w (set_env e w).
Proof. unfold quiet. by split_and!. Qed.

(** A call that updates the database. *)
Lemma wpe_update {A} (f : db_t -> Result string A * db_t) (Q : A -> World -> Prop) (F : PelicanError -> World -> Prop) w :
  (forall e d, f (db (qm w)) = (Err e, d) -> F (Storage e) (set_db d w)) ->
  (forall a d, f (db (qm w)) = (Ok a, d) -> Q a (set_db d w)) ->
  wpe (db_update f) Q F w.
Proof.
  intros He HQ. unfold wpe, wp, db_update. destruct (f (db (qm w))) as [[a|e] d] eqn:E; cbn; [by apply HQ|by apply He].
Qed.

Lemma wpe_open t (Q : unit -> World -> Prop) F w :
  faults F w -> (forall w', quiet w w' -> Q tt w') -> wpe (db_update (open_tree t)) Q F w.
Proof.
  intros HF HQ. apply wpe_update.
  - intros e d [Hc Hg]%open_tree_fault. apply HF, quiet_db; [done|]. by rewrite Hg.
  - intros [] d Hd%open_tree_law. apply HQ, quiet_db; rewrite Hd; [apply contents_open|done].
Qed.

(** A write that succeeds has taken effect, one that fails may have. *)
Lemma wpe_insert t k x (Q : unit -> World -> Prop) F w :
  faults F w ->
  (forall d, contents (view d) = c_insert t k x (store w) -> idgen w <= v_idgen (view d) ->
     (forall e, F (Storage e) (set_db d w)) /\ Q tt (set_db d w)) ->
  wpe (db_update (tree_insert t k x)) Q F w.
Proof.
  intros HF HQ. apply wpe_update.
  - intros e d [[Hc Hg]|[Hc Hg]]%tree_insert_fault; [apply HF, quiet_db|apply HQ]; rewrite ?Hg; done.
  - intros [] d Hd%tree_insert_law. apply HQ; rewrite Hd; [apply contents_insert|done].
Qed.

Lemma wpe_remove t k (Q : option bytes -> World -> Prop) F w :
  faults F w ->
  (forall d, contents (view d) = c_remove t k (store w) -> idgen w <= v_idgen (view d) ->
     (forall e, F (Storage e) (set_db d w)) /\ Q (o_get k (look (store w) t)) (set_db d w)) ->
  wpe (db_update (tree_remove t k)) Q F w.
Proof.
  intros HF HQ. apply wpe_update.
  - intros e d [[Hc Hg]|[Hc Hg]]%tree_remove_fault; [apply HF, quiet_db|apply HQ]; rewrite ?Hg; done.
  - intros r d [-> Hd]%tree_remove_law. unfold store in *. rewrite look_contents in HQ.
    apply HQ; rewrite Hd; [apply contents_remove|done].
Qed.

Lemma wpe_generate (Q : Z -> World -> Prop) F w :
  faults F w ->
  (forall i w', quiet w w' -> 0 <= i -> idgen w <= i < idgen w' -> Q i w') ->
  wpe (db_update generate_id) Q F w.
Proof.
  intros HF HQ. apply wpe_update.
  - intros e d [Hc Hg]%generate_id_fault. by apply HF, quiet_db.
  - intros i d (Ht & Hi & Hlt)%generate_id_law. apply HQ; [|done|done].
    apply quiet_db; [unfold store, contents; by rewrite Ht|unfold idgen; lia].
Qed.

(** A transaction that fails may have been committed. *)
Lemma wpe_transaction {A} (b : Tx A) (Q : TxResult A -> World -> Prop) F w :
  (forall msg w', quiet w w' -> Q (TStorage msg) w') ->
  (forall d, contents (view d) = (commit_ctx b (store w)).2 -> idgen w <= v_idgen (view d) ->
     (forall msg, Q (TStorage msg) (set_db d w)) /\
     match (commit_ctx b (store w)).1 with TPanic => False | r => Q r (set_db d w) end) ->
  wpe (run_transaction b) Q F w.
Proof.
  intros HF HQ. unfold wpe, wp, run_transaction.
  destruct (transaction b (db (qm w))) as [r d] eqn:E.
  assert ((exists msg, r = TStorage msg) \/ forall msg, r <> TStorage msg) as [[msg ->]|Hr] by (destruct r; eauto).
  - apply transaction_fault in E as [[Hc Hg]|[Hc Hg]]; [apply HF, quiet_db|apply HQ]; rewrite ?Hg; done.
  - pose proof (transaction_law _ _ _ _ _ E Hr) as Hc.
    destruct (commit_tx_contents b (view (db (qm w)))) as [Hc1 Hc2]. rewrite Hc in Hc1, Hc2. cbn in *.
    specialize (HQ d). unfold store in HQ. rewrite Hc1 in HQ. cbn in HQ.
    destruct HQ as [_ HQ]; [done|unfold idgen; lia|]. by destruct r.
Qed.

Lemma wpe_read {A} (f : db_t -> Result string A) (Q : A -> World -> Prop) F w :
  faults F w -> (forall a, f (db (qm w)) = Ok a -> Q a w) -> wpe (db_read f) Q F w.
Proof.
  intros HF HQ. unfold wpe, wp, db_read. destruct (f (db (qm w))) as [a|e]; cbn; [by apply HQ|]. by apply HF.
Qed.

Lemma wpe_get t k (Q : option bytes -> World -> Prop) F w :
  faults F w -> Q (o_get k (look (store w) t)) w -> wpe (db_read (tree_get t k)) Q F w.
Proof.
  intros HF HQ. apply wpe_read; [done|]. intros r ->%tree_get_law. unfold store in HQ. by rewrite look_contents in HQ.
Qed.

Lemma wpe_contains t k (Q : bool -> World -> Prop) F w :
  faults F w -> Q (bool_decide (is_Some (o_get k (look (store w) t)))) w -> wpe (db_read (contains_key t k)) Q F w.
Proof.
  intros HF HQ. apply wpe_read; [done|]. intros r ->%contains_key_law. unfold store in HQ. by rewrite look_contents in HQ.
Qed.

Lemma wpe_storage_err {A} (r : Result string A) (Q : A -> World -> Prop) F w :
  faults F w -> (forall a, r = Ok a -> Q a w) -> wpe (storage_err r) Q F w.
Proof. intros HF HQ. destruct r as [a|e]; cbn; [apply wpe_ret; by apply HQ|]. apply wpe_fail. by apply HF. Qed.

(** Items of an iteration are entries of the tree. *)
Lemma iter_elem t kv w : Ok kv ∈ tree_iter t (db (qm w)) -> kv ∈ look (store w) t.
Proof. intros Hin. eapply elem_of_sublist; [by apply ok_items_In|]. apply tree_iter_fault. Qed.

Lemma wpe_now_ms (Q : Z -> World -> Prop) F w :
  (forall now w', clock_value now -> quiet w w' -> Q now w') -> wpe (E := PelicanError) now_ms Q F w.
Proof. intros HQ. apply wp_now_ms. intros now Hnow. apply HQ; [done|]. apply quiet_env. Qed.

Lemma wpe_require_queue q (Q : unit -> World -> Prop) (F : PelicanError -> World -> Prop) w :
  faults F w -> (declared (store w) q = true -> Q tt w) -> F (QueueNotFound q) w -> wpe (require_queue q) Q F w.
Proof.
  intros HF Hyes Hno. unfold require_queue, declared in *. apply wpe_bind, wpe_contains; [done|].
  destruct (bool_decide _); [by apply wpe_ret, Hyes|by apply wpe_fail].
Qed.

Lemma wpe_get_policy q (Q : RetentionPolicy -> World -> Prop) F w :
  faults F w -> Q (policy (store w) q) w -> wpe (get_policy q) Q F w.
Proof. intros HF HQ. apply wpe_bind, wpe_get; [done|]. by apply wpe_ret. Qed.

(** ** What survives a fault *)

(** The invariant of [System] without the byte counter, which an error during a
    recount leaves too low; the policy of every name is usable. *)
Record Sound w : Prop := {
  so_inv : Inv (store w) (idgen w);
  so_gen : idgen w <= u64_lim;
  so_fresh : forall q, safe_name q = true -> declared (store w) q = false -> fresh_name (store w) q;
  so_policy : forall q, sane_policy (policy (store w) q) = true;
  so_stamp : forall q, safe_name q = true -> Forall sane_stamp (content (abs (store w) q));
}.

Record Kept w (ev : list Event) w' : Prop := {
  kp_sound : Sound w';
  kp_balance : balanced w ev w';
  kp_max : max_bytes (qm w') = max_bytes (qm w);
}.

(** As long as the ids last. *)
Definition flow w (ev : list Event) w' : Prop := idgen w <= idgen w' /\ (idgen w' <= u64_lim -> Kept w ev w').

Lemma Kept_trans w ev w1 tr w' : Kept w ev w1 -> Kept w1 tr w' -> Kept w (ev ++ tr) w'.
Proof. intros [S1 B1 M1] [S2 B2 M2]. split; [done|by eapply balanced_trans|congruence]. Qed.

Lemma flow_trans w ev w1 tr w' : flow w ev w1 -> flow w1 tr w' -> flow w (ev ++ tr) w'.
Proof.
  intros [G1 K1] [G2 K2]. split; [lia|]. intros Hn. eapply Kept_trans; [apply K1; lia|by apply K2].
Qed.

Lemma flow_quiet w w' : Sound w -> quiet w w' -> flow w [] w'.
Proof.
  intros [HI Hg Hf Hp Hs] (S & G & B & MX). split; [done|]. intros Hn. split; [|intros q Hq; by rewrite S|done].
  split; rewrite ?S; auto. by eapply Inv_mono.
Qed.

Lemma flow_sound w ev w' : flow w ev w' -> idgen w' <= u64_lim -> Sound w'.
Proof. intros [_ HK] Hn. apply (HK Hn). Qed.

Lemma flow_then w ev w1 tr w' :
  flow w ev w1 -> idgen w1 <= idgen w' -> (Sound w1 -> flow w1 tr w') -> flow w (ev ++ tr) w'.
Proof.
  intros Hf Hg Hs. split; [destruct Hf; lia|]. intros Hn. assert (idgen w1 <= u64_lim) as Hn1 by lia.
  pose proof (flow_sound _ _ _ Hf Hn1) as HS. eapply Kept_trans; [by apply Hf|]. by apply (Hs HS).
Qed.

Lemma flow_quiet_r w ev w1 w' : flow w ev w1 -> quiet w1 w' -> flow w ev w'.
Proof.
  intros Hf Hq. rewrite <- (app_nil_r ev). eapply flow_then; [exact Hf|apply Hq|]. intros HS. by apply flow_quiet.
Qed.

(** What enters and leaves again need not be written down. *)
Lemma flow_ledger w ev ev' w' :
  flow w ev w' -> (forall q, accepted q ev ++ removed q ev' ≡ₚ accepted q ev' ++ removed q ev) -> flow w ev' w'.
Proof.
  intros [G K] Hev. split; [done|]. intros Hn. destruct (K Hn) as [HS Hb Hm]. split; [done| |done].
  intros q Hq. apply (Permutation_app_inv_r (map strip (removed q ev))).
  rewrite <- !app_assoc, (Permutation_app_comm (map strip (removed q ev'))), <- map_app, <- (Hev q), map_app.
  rewrite !app_assoc, (Hb q Hq). done.
Qed.

(** The byte counter does not matter. *)
Lemma flow_bytes w ev w1 n : flow w ev w1 -> flow w ev (set_bytes n w1).
Proof. intros [G K]. split; [done|]. intros Hn. by destruct (K Hn) as [[] ? ?]. Qed.

(** The messages of a queue, read off its trees. *)
Definition raw_content (c : store_t) (q : string) : list Message :=
  map strip (raw_msgs (slot c Main q) ++ raw_msgs (slot c Inflight q) ++ raw_msgs (slot c Dlq q) ++
             raw_msgs (slot c Scheduled q)).

#[export] Instance raw_msgs_perm : Proper (Permutation ==> Permutation) raw_msgs.
Proof. intros l l' Hl. unfold raw_msgs. by rewrite Hl. Qed.

Lemma raw_msgs_insert k v m t :
  o_get k t = None -> stores m v -> raw_msgs (o_insert k v t) ≡ₚ m :: raw_msgs t.
Proof. intros Hk Hs. rewrite o_insert_perm by done. unfold raw_msgs. cbn. by rewrite (de_stores _ _ Hs). Qed.

Lemma raw_msgs_remove k v m t :
  o_get k t = Some v -> stores m v -> raw_msgs t ≡ₚ m :: raw_msgs (o_remove k t).
Proof. intros Hk Hs. rewrite (o_remove_perm k v t) at 1 by done. unfold raw_msgs. cbn. by rewrite (de_stores _ _ Hs). Qed.

Lemma raw_main n t : n <= u64_lim -> Forall (main_entry n) t -> raw_msgs t = map snd (omap dec_main t).
Proof.
  intros Hn. unfold raw_msgs. induction 1 as [|kv l Hkv Hl IH]; cbn; [done|].
  destruct (main_entry_dec n kv Hn Hkv) as (i & m & Hdec & _ & Hs & _).
  rewrite Hdec, (de_stores _ _ Hs). cbn. by rewrite IH.
Qed.

Lemma content_raw c n q : QInv c n q -> n <= u64_lim -> content (abs c q) ≡ₚ raw_content c q.
Proof.
  intros HQ Hn. unfold content, holdings, raw_content. f_equiv.
  rewrite (inflight_perm c n q (QInv_QForm _ _ _ HQ)). unfold inflight_list.
  rewrite (raw_main n _ Hn (qi_main _ _ _ HQ)), (raw_main n _ Hn (qi_dlq _ _ _ HQ)).
  rewrite (raw_msgs_tag n _ Hn (qi_tag _ _ _ HQ)), (raw_msgs_sched n _ Hn (qi_sched _ _ _ HQ)). done.
Qed.

(** The general shape of a step on one declared queue. *)
Lemma flow_local q w w' ev :
  Sound w -> declared (store w) q = true -> idgen w <= idgen w' -> Local q (store w) (store w') ->
  (idgen w' <= u64_lim -> QInv (store w') (idgen w') q /\
     raw_content (store w) q ++ map strip (accepted q ev) ≡ₚ raw_content (store w') q ++ map strip (removed q ev)) ->
  about q ev -> Forall sane_stamp (map strip (accepted q ev)) ->
  max_bytes (qm w') = max_bytes (qm w) -> flow w ev w'.
Proof.
  intros HS Hd Hle HL Hdo Hab Hst Hm. split; [done|]. intros Hn. destruct (Hdo Hn) as [HQ Hp].
  pose proof HS as [HI Hg Hf Hpol Hts].
  assert (Effect q w w' (abs (store w') q)) as HE by (by apply Effect_local).
  assert (balanced w ev w') as Hbal.
  { eapply balanced_effect; [exact HE|done|].
    by rewrite (content_raw _ _ _ (inv_queue _ _ HI _ Hd) Hg), (content_raw _ _ _ HQ Hn). }
  split; [|done|done]. split; auto.
  - apply HE.
  - intros q' Hq' Hnd s. rewrite (eff_declared _ _ _ _ HE) in Hnd. rewrite (loc_slot _ _ _ HL); [by apply Hf|done|congruence].
  - intros q'. by rewrite (eff_policy _ _ _ _ HE).
  - intros q' Hq'. eapply balanced_stamps; eauto. destruct (decide (q' = q)) as [->|Hne]; [done|].
    destruct (Hab q' Hne) as [-> _]. constructor.
Qed.
End Faults.
