(* ===== verification/FaultSteps.v ===== *)
(** * FaultSteps: every operation of the engine under input and output errors

    For each method of [QueueManager]: whatever calls of the database fail, it
    returns or reports an error, keeps the trees well formed, and its effect on the
    messages of the queues is the one its answer tells, or for an error one of the
    few the ledger lists. *)

From Stdlib Require Import ZArith Lia.
From stdpp Require Import prelude gmap strings.
From S2P Require Import Prelude Bytes OrdMap Sled Message Bincode Keys QueueManager Store Spec.
From S2P Require Import Engine Invariant Refinement Maintenance Retention Holdings System Snapshot Faults.

Section FaultSteps.
Context `{!Sled, !SledLaws, !SledFaults, !Bincode, !BincodeLaws,
          !Environment, !EnvironmentLaws, !BuildProfile}.
Implicit Types w : World.

(** ** Elementary changes of the trees *)

Lemma raw_insert s q k v m c :
  safe_name q = true -> s <> Dedup -> o_get k (slot c s q) = None -> stores m v ->
  raw_content (s_insert s q k v c) q ≡ₚ strip m :: raw_content c q.
Proof.
  intros Hq Hs Hk Hm. unfold raw_content. rewrite <- map_cons. f_equiv.
  destruct s; try done; slots; rewrite (raw_msgs_insert _ _ _ _ Hk Hm); solve_Permutation.
Qed.

Lemma raw_remove s q k v m c :
  safe_name q = true -> s <> Dedup -> o_get k (slot c s q) = Some v -> stores m v ->
  raw_content c q ≡ₚ strip m :: raw_content (s_remove s q k c) q.
Proof.
  intros Hq Hs Hk Hm. unfold raw_content. rewrite <- map_cons. f_equiv.
  destruct s; try done; slots; rewrite (raw_msgs_remove _ _ _ _ Hk Hm); solve_Permutation.
Qed.

Lemma raw_dedup q k x c : safe_name q = true -> raw_content (s_insert Dedup q k x c) q = raw_content c q.
Proof. intros Hq. unfold raw_content. by slots. Qed.

(** Delivering any ready entry. *)
Lemma QInv_deliver c n q m v i :
  QInv c n q -> safe_name q = true -> n <= u64_lim -> c_sorted c ->
  (encode_key (priority m) i, v) ∈ slot c Main q -> stores m v -> 0 <= i < u64_lim ->
  QInv (s_insert Inflight q (be_bytes 8 i) v (s_remove Main q (encode_key (priority m) i) c)) n q /\
  o_get (be_bytes 8 i) (slot c Inflight q) = None.
Proof.
  intros [Hm Ht Hd Hsc Hdd Hids] Hq Hn Hso Hin Hs Hi.
  pose proof (elem_o_get _ _ _ (Hso _) Hin) as Hget. change (look c (slot_tree Main q)) with (slot c Main q) in Hget.
  assert (i < n) as Hlt.
  { rewrite Forall_forall in Hm. destruct (Hm _ Hin) as (j & m' & Hk & _ & Hj). cbn in Hk.
    apply encode_key_id_inj in Hk; lia. }
  rewrite (main_ids_perm _ _ (o_remove_perm _ _ _ Hget)) in Hids.
  unfold main_ids in Hids. cbn in Hids. rewrite dec_main_encode in Hids by done. cbn in Hids.
  apply NoDup_cons in Hids as [Hni Hids]. rewrite elem_of_app in Hni.
  assert (o_get (be_bytes 8 i) (slot c Inflight q) = None) as Hnone.
  { apply o_get_None_elem. unfold keys. rewrite list_elem_of_fmap. intros ([k x] & Hk & Hin').
    cbn in Hk. subst k. apply Hni. right. unfold tag_ids. rewrite list_elem_of_fmap.
    rewrite Forall_forall in Ht. pose proof (Ht _ Hin') as He.
    destruct (tag_entry_dec n _ Hn He) as (j & m' & Hdec & Hj & _ & Hjn). cbn in Hj.
    apply be8_inj in Hj as <-; [|lia..]. exists (i, m'). split; [done|]. rewrite list_elem_of_omap. eauto. }
  split; [|done]. split; slots; auto using Forall_o_remove.
  - apply Forall_o_insert; [|done]. exists i, m. split_and!; auto; lia.
  - rewrite o_insert_perm by done. unfold tag_ids. cbn. rewrite (dec_tag_encode m) by done. cbn.
    rewrite <- Permutation_middle. constructor; [rewrite elem_of_app; tauto|done].
Qed.

(** ** Steps on one queue *)

Section Step.
Context (q : string) (w w' : World) (HS : Sound w) (Hd : declared (store w) q = true)
        (Hle : idgen w <= idgen w') (Hmax : max_bytes (qm w') = max_bytes (qm w)).

Lemma step_safe : safe_name q = true.
Proof. eapply inv_safe; [apply HS|done]. Qed.

Lemma step_queue : QInv (store w) (idgen w) q.
Proof. by apply HS. Qed.

Lemma flow_accept s k v m :
  s <> Dedup -> stores m v -> sane_stamp m -> store w' = s_insert s q k v (store w) ->
  (idgen w' <= u64_lim -> o_get k (slot (store w) s q) = None /\ QInv (store w') (idgen w') q) ->
  flow w [Accepted q m] w'.
Proof.
  intros Hs Hm Hst HSt HQ. apply (flow_local q); auto.
  - rewrite HSt. apply Local_insert, step_safe.
  - intros Hn. destruct (HQ Hn) as [Hk HQ']. split; [done|]. cbn. rewrite bool_decide_true by done. cbn.
    rewrite HSt, (raw_insert _ _ _ _ m) by (auto using step_safe).
    rewrite app_nil_r. by rewrite Permutation_app_comm.
  - intros q' Hne. cbn. by rewrite bool_decide_false.
  - cbn. rewrite bool_decide_true by done. constructor; [exact Hst|constructor].
Qed.

(** Taking an entry out of a tree. *)
Lemma flow_remove s k v m ev :
  s <> Dedup -> o_get k (slot (store w) s q) = Some v -> stores m v ->
  store w' = s_remove s q k (store w) -> about q ev -> accepted q ev = [] -> removed q ev = [m] -> flow w ev w'.
Proof.
  intros Hs Hk Hm HSt Hab Ha Hr. pose proof step_safe as Hq. apply (flow_local q); auto; rewrite ?Ha; [| |constructor].
  - rewrite HSt. by apply Local_remove.
  - intros _. split; [rewrite HSt; apply QInv_remove; [|done]; eapply QInv_mono; [exact Hle|apply step_queue]|].
    rewrite Hr, HSt, (raw_remove s q k v m (store w)) by done. cbn. rewrite app_nil_r. by rewrite Permutation_app_comm.
Qed.

(** Moving an entry from one tree to another, its delivery counter aside. *)
Lemma flow_move s k v m s' k' v' m' :
  s <> Dedup -> s' <> Dedup -> s' <> s -> o_get k (slot (store w) s q) = Some v -> stores m v ->
  stores m' v' -> strip m' = strip m -> store w' = s_insert s' q k' v' (s_remove s q k (store w)) ->
  (idgen w' <= u64_lim -> o_get k' (slot (store w) s' q) = None /\ QInv (store w') (idgen w') q) -> flow w [] w'.
Proof.
  intros Hs Hs' Hne Hk Hm Hm' Hst HSt HQ. pose proof step_safe as Hq. apply (flow_local q); auto using about_nil.
  - rewrite HSt. eapply Local_trans; [by apply Local_remove|by apply Local_insert].
  - intros Hn. destruct (HQ Hn) as [Hk' HQ']. split; [done|]. cbn. rewrite !app_nil_r, HSt, (raw_remove s q k v m (store w)) by done.
    rewrite (raw_insert s' q k' v' m') by (rewrite ?slot_remove_ne by auto; auto). by rewrite Hst.
Qed.

Lemma flow_dedup k x :
  (8 <= length x)%nat -> store w' = s_insert Dedup q k x (store w) -> flow w [] w'.
Proof.
  intros Hx HSt. pose proof step_safe as Hq. apply (flow_local q); auto using about_nil.
  - rewrite HSt. by apply Local_insert.
  - intros _. split; [rewrite HSt; apply QInv_insert_dedup; [|done..]; eapply QInv_mono; [exact Hle|apply step_queue]|].
    cbn. by rewrite !app_nil_r, HSt, raw_dedup.
Qed.
End Step.

(** ** Publishing *)

Lemma wpe_is_duplicate q m p (F : PelicanError -> World -> Prop) w :
  faults F w -> sane_policy p = true -> dedup_values (store w) q ->
  wpe (is_duplicate q m p) (fun _ w' => quiet w w') F w.
Proof.
  intros HF Hsane Hdv. unfold is_duplicate. apply andb_true_iff in Hsane as [Hsane _].
  destruct (dedup_window_secs p) as [s|]; [|by apply wpe_ret]. destruct (0 <? s); [|by apply wpe_ret].
  destruct (dedup_key m) as [key|]; [|by apply wpe_ret]. cbn in Hsane.
  destruct (sane_secs_ms s Hsane) as (-> & -> & Hms).
  apply wpe_bind, wpe_open; [done|]. intros w1 Q1. pose proof (faults_quiet _ _ _ HF Q1) as HF1.
  apply wpe_bind, wpe_get; [done|]. rewrite (proj1 Q1). destruct (o_get _ _) as [r|] eqn:E; [|by apply wpe_ret].
  apply o_get_Some_elem in E. unfold dedup_values in Hdv. rewrite Forall_forall in Hdv. specialize (Hdv _ E). cbn in Hdv.
  apply wpe_bind. unfold slice. rewrite bool_decide_true by lia. apply wpe_ret, wpe_bind, wpe_ret, wpe_bind, wpe_now_ms.
  intros now w2 Hnow Q2. apply clock_value_range in Hnow. change (i64_lim / 4) with 2305843009213693952 in *.
  apply wpe_bind. rewrite arith_i64_ok by lia. apply wpe_ret, wpe_ret. by etrans.
Qed.

(** What a failed publish may have done: nothing, or everything but the record of
    the deduplication key. *)
Definition publish_faults q m w (e : PelicanError) w' : Prop :=
  match e with Storage _ => flow w [] w' \/ flow w [Accepted q m] w' | _ => flow w [] w' end.

(** The message is filed: the rest of the call. *)
Lemma wpe_after_filing q m p w w1 :
  Sound w -> declared (store w1) q = true -> flow w [Accepted q m] w1 -> 0 <= current_bytes (qm w1) + msg_size m < u64_lim ->
  wpe (add_bytes (msg_size m) ;;; record_dedup_key q m p ;;; ret (Stored (Message.id m)))
    (fun o w' => o = Stored (Message.id m) /\ flow w [Accepted q m] w') (publish_faults q m w) w1.
Proof.
  intros HS Hd Hf Hb. apply wpe_bind, wp_add_bytes; [done|]. cbn beta iota.
  set (w2 := set_bytes _ w1). assert (flow w [Accepted q m] w2) as Hf2 by (by apply flow_bytes).
  assert (declared (store w2) q = true) as Hd2 by done. clearbody w2. clear Hd Hf Hb w1.
  assert (faults (publish_faults q m w) w2) as HF by (intros e w' Hq; right; by eapply flow_quiet_r).
  apply wpe_bind. unfold record_dedup_key. destruct (dedup_window_secs p); [|by apply wpe_ret, wpe_ret].
  destruct (dedup_key m) as [key|]; [|by apply wpe_ret, wpe_ret].
  apply wpe_bind, wpe_open; [done|]. intros w3 Q3. apply wpe_bind, wpe_now_ms. intros now w4 _ Q4.
  assert (quiet w2 w4) as Q by (by etrans). apply wpe_insert; [by eapply faults_quiet|]. intros d Hc Hg.
  assert (flow w [Accepted q m] (set_db d w4)) as Hfd; [|split; [intros e; by right|by apply wpe_ret]].
  change [Accepted q m] with ([Accepted q m] ++ []). eapply (flow_then _ _ w4); [by eapply flow_quiet_r|done|].
  intros HS4. eapply (flow_dedup q w4); try done.
  - by rewrite (proj1 Q).
  - by rewrite be_bytes_length.
Qed.

(** Filing the message under a new key. *)
Lemma wpe_file s q k v m p w w1 :
  Sound w -> declared (store w) q = true -> s <> Dedup -> stores m v -> sane_stamp m -> quiet w w1 ->
  0 <= current_bytes (qm w) + msg_size m < u64_lim ->
  (idgen w1 <= u64_lim -> o_get k (slot (store w) s q) = None /\ QInv (s_insert s q k v (store w)) (idgen w1) q) ->
  wpe (db_update (open_tree (slot_tree s q)) ;;; db_update (tree_insert (slot_tree s q) k v) ;;;
       add_bytes (msg_size m) ;;; record_dedup_key q m p ;;; ret (Stored (Message.id m)))
    (fun o w' => o = Stored (Message.id m) /\ flow w [Accepted q m] w') (publish_faults q m w) w1.
Proof.
  intros HS Hd Hs Hm Hst Q1 Hb Hk.
  assert (faults (publish_faults q m w) w) as HF by (intros e w' Hq; left; by apply flow_quiet).
  apply wpe_bind, wpe_open; [by eapply faults_quiet|]. intros w2 Q2. assert (quiet w w2) as Q by (by etrans).
  apply wpe_bind, wpe_insert; [by eapply faults_quiet|]. intros d Hc Hg. pose proof Q as (S2 & G2 & B2 & M2).
  rewrite S2 in Hc. change (c_insert (slot_tree s q) k v (store w)) with (s_insert s q k v (store w)) in Hc.
  pose proof (inv_safe _ _ _ (so_inv _ HS) Hd) as Hq.
  assert (flow w [Accepted q m] (set_db d w2)) as Hfd.
  { apply (flow_accept q w (set_db d w2) HS Hd) with (s := s) (k := k) (v := v); auto.
    - change (idgen (set_db d w2)) with (v_idgen (view d)). lia.
    - change (idgen (set_db d w2)) with (v_idgen (view d)). change (store (set_db d w2)) with (contents (view d)).
      rewrite Hc. intros Hn. pose proof Q2 as (_ & G2' & _). destruct Hk as [Hk HQ]; [lia|]. split; [done|].
      eapply QInv_mono; [|exact HQ]. lia. }
  split; [intros e; by right|]. apply wpe_after_filing; auto.
  - change (store (set_db d w2)) with (contents (view d)). rewrite Hc. by rewrite declared_s_insert.
  - cbn. by rewrite B2.
Qed.

Lemma wpe_publish q m w :
  Sound w -> wf_message m = true -> sane_stamp m -> room w (msg_size m) ->
  wpe (publish q m)
    (fun o w' => match o with Stored _ => flow w [Accepted q m] w' | Deduplicated => flow w [] w' end)
    (publish_faults q m w) w.
Proof.
  intros HS Hw Hst (Hr0 & Hr1 & Hr2). destruct (ser_msg_total m Hw) as [v Hv]. assert (stores m v) as Hm by done.
  pose proof (stores_size _ _ Hm) as Hsz.
  assert (forall w', quiet w w' -> flow w [] w') as Hquiet by (intros w'; by apply flow_quiet).
  assert (faults (publish_faults q m w) w) as HF by (intros e w' Hq; left; auto).
  unfold publish. apply wpe_bind, wpe_require_queue; [done| |apply Hquiet; reflexivity]. intros Hd.
  apply wpe_bind, wpe_get_policy; [done|]. apply wpe_bind.
  eapply wpe_mono; [apply wpe_is_duplicate; [done|apply HS|]| |done].
  { eapply dedup_values_inv; [apply HS|done]. }
  intros [] w1 Q1; [by apply wpe_ret, Hquiet|]. cbn beta. rewrite Hv. apply wpe_bind, wpe_ret, wpe_bind.
  pose proof Q1 as (S1 & G1 & B1 & M1). rewrite <- Hsz.
  apply wp_check_limit; rewrite ?B1; [pose proof (content_bytes_nonneg [m]); cbn in *; lia|lia..| |].
  2: { intros max _ _. by apply Hquiet. }
  intros _. cbn beta iota. apply wpe_bind, wpe_generate; [by eapply faults_quiet|]. intros i w2 Q2 Hi0 Hi.
  apply wpe_bind, wp_future_delivery. intros w3 now Hnow S3 G3 B3 M3. cbn beta iota. fold (future_at m now).
  assert (quiet w w3) as Q3.
  { etrans; [exact Q1|]. etrans; [exact Q2|]. unfold quiet. rewrite S3, G3, B3, M3. split_and!; auto; lia. }
  pose proof (inv_queue _ _ (so_inv _ HS) _ Hd) as HQ. pose proof (inv_safe _ _ _ (so_inv _ HS) Hd) as Hq.
  assert (0 <= current_bytes (qm w) + msg_size m < u64_lim) as Hb
    by (pose proof (content_bytes_nonneg [m]); cbn in *; lia).
  destruct (future_at m now) as [t|] eqn:Ef.
  - eapply (wpe_mono _ (fun o w' => o = Stored (Message.id m) /\ flow w [Accepted q m] w'));
      [|by intros o w' [-> Hf]|done].
    { apply (wpe_file Scheduled q _ v m _ w w3); auto. intros Hn. split.
      - eapply sched_key_fresh; [apply HQ|lia|done].
      - apply clock_value_range in Hnow. eapply (QInv_insert_sched _ (idgen w) _ _ m); auto; [lia|..].
        + apply (future_at_range m now t); auto. lia.
        + unfold future_at in Ef. destruct (deliver_at m); [|done]. cbn in Ef. by destruct (_ <? _). }
  - eapply (wpe_mono _ (fun o w' => o = Stored (Message.id m) /\ flow w [Accepted q m] w'));
      [|by intros o w' [-> Hf]|done].
    { apply (wpe_file Main q _ v m _ w w3); auto. intros Hn. split.
      - eapply main_key_fresh; [apply HQ|lia|done].
      - eapply (QInv_insert_main _ (idgen w)); auto. lia. }
Qed.

(** ** Consuming *)

Lemma first_key_elem l k : first_key l = Some k -> exists v, Ok (k, v) ∈ l.
Proof. destruct l as [|[[k' v]|e] l]; cbn; try done. intros [= ->]. exists v. left. Qed.

Lemma commit_deliver q k v idb c :
  o_get k (look c q) = Some v ->
  commit_ctx (consume_tx q k idb) c = (TOk v, c_insert (inflight_tree_name q) idb v (c_remove q k c)).
Proof. intros Hk. unfold commit_ctx, consume_tx. cbn. by rewrite Hk. Qed.

Abbreviation kept w := (fun _ w' => flow w [] w').

(** What a consumer is handed was ready. *)
Definition handed (q : string) w (d : option (DeliveryTag * Message)) : Prop :=
  match d with
  | Some (t, m) => (tag_u64 t, m) ∈ a_ready (abs (store w) q) /\ 0 <= tag_u64 t < u64_lim
  | None => True
  end.

Lemma wpe_consume q w :
  Sound w -> wpe (consume q) (fun d w' => handed q w d /\ flow w [] w') (kept w) w.
Proof.
  intros HS. assert (forall w', quiet w w' -> flow w [] w') as Hquiet by (intros w'; by apply flow_quiet).
  assert (faults (kept w) w) as HF by (intros e; auto).
  unfold consume. apply wpe_bind, wpe_require_queue; [done| |apply Hquiet; reflexivity]. intros Hd.
  apply wpe_bind, wpe_open; [done|]. intros w1 Q1. apply wpe_bind, wpe_open; [by eapply faults_quiet|]. intros w2 Q2.
  assert (quiet w w2) as Q by (by etrans). pose proof Q as (S2 & G2 & B2 & M2).
  cbn [consume_loop]. apply wpe_bind, wpe_gets. destruct (first_key _) as [k|] eqn:Ek; [|by apply wpe_ret; split; [|apply Hquiet]].
  apply first_key_elem in Ek as [v Hin]. apply iter_elem in Hin. rewrite S2 in Hin.
  change (look (store w) q) with (slot (store w) Main q) in Hin.
  pose proof HS as [HI Hg _ _ _]. pose proof (inv_queue _ _ HI _ Hd) as HQ. pose proof (inv_safe _ _ _ HI Hd) as Hq.
  pose proof (qi_main _ _ _ HQ) as Hall. rewrite Forall_forall in Hall. destruct (Hall _ Hin) as (i & m & Hk & Hm & Hi).
  cbn in Hk, Hm. subst k. rewrite key_id_bytes_encode. apply wpe_bind, wpe_ret, wpe_bind.
  pose proof (elem_o_get _ _ _ (inv_sorted _ _ HI _) Hin) as Hget.
  apply wpe_transaction.
  - intros msg w' Q'. apply wpe_fail. apply Hquiet. by etrans.
  - intros d Hc Hgd. pose proof (commit_deliver q (encode_key (priority m) i) v (be_bytes 8 i) (store w) Hget) as Hcm.
    rewrite S2, Hcm in Hc |- *. cbn [fst snd] in Hc |- *.
    assert (flow w [] (set_db d w2)) as Hfd.
    { destruct (QInv_deliver _ _ _ m v i HQ Hq Hg (inv_sorted _ _ HI) Hin Hm ltac:(lia)) as [HQ' Hnone].
      eapply (flow_move q w (set_db d w2) HS Hd) with (s := Main) (s' := Inflight); try done.
      - change (idgen (set_db d w2)) with (v_idgen (view d)). lia.
      - intros _. split; [done|]. change (store (set_db d w2)) with (contents (view d)). rewrite Hc.
        eapply QInv_mono; [|exact HQ']. change (idgen (set_db d w2)) with (v_idgen (view d)). lia. }
    split; [intros msg; by apply wpe_fail|].
    rewrite (de_stores _ _ Hm). apply wpe_bind, wpe_ret, wpe_ret. cbn [handed tag_u64].
    rewrite from_be_8 by lia. split; [split; [|lia]|done].
    cbn [a_ready abs]. apply list_elem_of_omap. exists (encode_key (priority m) i, v). split; [exact Hin|].
    apply dec_main_encode; [done|lia].
Qed.

(** ** Acknowledging *)

(** A tag that is found is the one of a message in flight. *)
Lemma tag_get c n q i v :
  QInv c n q -> o_get (be_bytes 8 i) (slot c Inflight q) = Some v -> exists m, stores m v.
Proof.
  intros HQ Hv. apply o_get_Some_elem in Hv. pose proof (qi_tag _ _ _ HQ) as Ht. rewrite Forall_forall in Ht.
  destruct (Ht _ Hv) as (j & m & _ & Hs & _). eauto.
Qed.

(** What a failed acknowledgement may have done: nothing, or its work. *)
Definition ack_faults q t w (e : PelicanError) w' : Prop :=
  flow w [] w' \/
  (exists msg, e = Storage msg) /\
  exists m, a_inflight (abs (store w) q) !! tag_u64 t = Some m /\ flow w [Settled q m] w'.

Lemma wpe_ack q t w :
  Sound w -> 0 <= tag_u64 t < u64_lim ->
  wpe (ack q t)
    (fun _ w' => exists m, a_inflight (abs (store w) q) !! tag_u64 t = Some m /\ flow w [Settled q m] w')
    (ack_faults q t w) w.
Proof.
  intros HS Ht. assert (forall w', quiet w w' -> flow w [] w') as Hquiet by (intros w'; by apply flow_quiet).
  assert (faults (ack_faults q t w) w) as HF by (intros e w' Q; left; auto).
  unfold ack. apply wpe_bind, wpe_require_queue; [done| |left; apply Hquiet; reflexivity]. intros Hd.
  apply wpe_bind, wpe_open; [done|]. intros w1 Q1. pose proof Q1 as (S1 & G1 & B1 & M1).
  apply wpe_bind, wpe_remove; [by eapply faults_quiet|]. intros d Hc Hg. rewrite S1 in *.
  pose proof HS as [HI _ _ _ _]. pose proof (inv_queue _ _ HI _ Hd) as HQ.
  change (look (store w) (inflight_tree_name q)) with (slot (store w) Inflight q).
  pose proof (inflight_get _ _ _ _ HI Hd (so_gen _ HS) Ht) as Hget.
  change (look (store w) (inflight_tree_name q)) with (slot (store w) Inflight q) in Hget.
  destruct (o_get _ _) as [v|] eqn:E.
  - destruct Hget as (m & Hm & Hget). assert (flow w [Settled q m] (set_db d w1)) as Hfd.
    { eapply (flow_remove q w (set_db d w1) HS Hd) with (s := Inflight); try done.
      - change (idgen (set_db d w1)) with (v_idgen (view d)). lia.
      - intros q' Hne. cbn. by rewrite bool_decide_false.
      - cbn. by rewrite bool_decide_true. }
    split; [intros e; right; split; [by exists e|by exists m]|].
    apply wpe_modify. exists m. split; [done|]. by apply flow_bytes.
  - assert (flow w [] (set_db d w1)) as Hfd.
    { apply flow_quiet; [done|]. unfold quiet. change (store (set_db d w1)) with (contents (view d)).
      change (idgen (set_db d w1)) with (v_idgen (view d)). rewrite Hc. split_and!; auto; [|lia].
      by apply (c_remove_absent (inflight_tree_name q)). }
    split; [intros e; by left|]. apply wpe_fail. by left.
Qed.

Lemma nack_none q tag i max c :
  o_get (be_bytes 8 tag) (look c (inflight_tree_name q)) = None ->
  commit_ctx (nack_tx q (be_bytes 8 tag) i max) c = (TAbort, c).
Proof. intros Hk. unfold commit_ctx, nack_tx. cbn. by rewrite Hk. Qed.

(** An entry in flight is filed again under a fresh id, ready or dead. *)
Lemma flow_refile q s k v m m' v' i w w' :
  Sound w -> declared (store w) q = true -> s = Main \/ s = Dlq -> o_get k (slot (store w) Inflight q) = Some v ->
  stores m v -> stores m' v' -> strip m' = strip m -> 0 <= i -> idgen w <= i < idgen w' ->
  max_bytes (qm w') = max_bytes (qm w) ->
  store w' = s_insert s q (encode_key (priority m') i) v' (s_remove Inflight q k (store w)) -> flow w [] w'.
Proof.
  intros HS Hd Hs Hk Hm Hm' Hst Hi0 Hi Hmax HSt. pose proof HS as [HI _ _ _ _].
  pose proof (inv_queue _ _ HI _ Hd) as HQ. pose proof (inv_safe _ _ _ HI Hd) as Hq.
  pose proof (QInv_remove _ _ _ Inflight k HQ Hq) as HQ'.
  eapply (flow_move q w w' HS Hd) with (s := Inflight) (s' := s); eauto; [lia|by destruct Hs as [->| ->]..|].
  rewrite HSt. intros Hn. destruct Hs as [->| ->]; (split; [eapply main_key_fresh; [apply HQ|lia|done]|]).
  - by eapply (QInv_insert_main _ (idgen w) _ _ m').
  - by eapply (QInv_insert_dlq _ (idgen w) _ _ m').
Qed.

Lemma wpe_nack q t w :
  Sound w -> 0 <= tag_u64 t < u64_lim ->
  (forall m, a_inflight (abs (store w) q) !! tag_u64 t = Some m -> delivery_attempts m + 1 < u32_lim) ->
  wpe (nack q t) (kept w) (kept w) w.
Proof.
  intros HS Ht Hatt. assert (forall w', quiet w w' -> flow w [] w') as Hquiet by (intros w'; by apply flow_quiet).
  assert (faults (kept w) w) as HF by (intros e; auto).
  unfold nack. apply wpe_bind, wpe_require_queue; [done| |apply Hquiet; reflexivity]. intros Hd.
  apply wpe_bind, wpe_get_policy; [done|]. apply wpe_bind, wpe_open; [done|]. intros w1 Q1.
  apply wpe_bind, wpe_open; [by eapply faults_quiet|]. intros w2 Q2. assert (quiet w w2) as Q12 by (by etrans).
  apply wpe_bind, wpe_open; [by eapply faults_quiet|]. intros w3 Q3. assert (quiet w w3) as Q13 by (by etrans).
  apply wpe_bind, wpe_generate; [by eapply faults_quiet|]. intros i w4 Q4 Hi0 Hi. assert (quiet w w4) as Q by (by etrans).
  pose proof Q as (S4 & G4 & B4 & M4). pose proof Q13 as (_ & G3 & _). pose proof HS as [HI Hgen _ _ _].
  pose proof (inv_queue _ _ HI _ Hd) as HQ. pose proof (inv_safe _ _ _ HI Hd) as Hq.
  pose proof (inflight_get _ _ _ _ HI Hd Hgen Ht) as Hg. apply wpe_bind, wpe_transaction.
  { intros msg w' Q'. apply wpe_fail. apply Hquiet. by etrans. }
  intros d Hc Hgd. rewrite S4 in Hc |- *. destruct (o_get _ (look (store w) _)) as [v|] eqn:E.
  2: { rewrite nack_none in Hc |- * by done. cbn [fst snd] in Hc |- *.
       assert (flow w [] (set_db d w4)) as Hfd by (apply Hquiet; etrans; [exact Q|]; apply quiet_db; [congruence|done]).
       split; [intros msg|]; by apply wpe_fail. }
  destruct Hg as (m & Hm & Hf). specialize (Hatt m Hf).
  destruct (stores_set_attempts m v (delivery_attempts m + 1)) as (v' & Hm' & _); [done|..].
  { pose proof (proj1 Hm) as Hw. apply wf_message_fields in Hw. lia. }
  rewrite (commit_nack _ _ _ _ _ m v v' E Hm Hatt (proj2 Hm')) in Hc |- *. cbn [fst snd] in Hc |- *.
  assert (flow w [] (set_db d w4)) as Hfd; [|split; [intros msg; by apply wpe_fail|by apply wpe_ret]].
  unfold nack_store in Hc. change (c_remove (inflight_tree_name q) ?k ?c) with (s_remove Inflight q k c) in Hc.
  set (m' := set_attempts _ m) in *.
  assert (exists s, (s = Main \/ s = Dlq) /\ store (set_db d w4) =
    s_insert s q (encode_key (priority m') i) v' (s_remove Inflight q (be_bytes 8 (tag_u64 t)) (store w))) as (s & Hs & HSt).
  { change (store (set_db d w4)) with (contents (view d)). rewrite Hc.
    destruct (exhausted _ _); [exists Dlq|exists Main]; auto. }
  eapply (flow_refile q s _ v m m' v' i w); eauto. change (idgen (set_db d w4)) with (v_idgen (view d)). lia.
Qed.

(** ** Scheduled messages *)

Lemma wpe_collect_due now items n (F : PelicanError -> World -> Prop) w :
  faults F w -> n <= u64_lim -> Forall (sched_entry n) (ok_items items) ->
  wpe (collect_due now items) (fun l w' => w' = w /\ exists tl, ok_items items = l ++ tl) F w.
Proof.
  intros HF Hn. induction items as [|[kv|e] items IH]; cbn [collect_due]; intros Hall.
  - apply wpe_ret. split; [done|]. by exists [].
  - change (ok_items (Ok kv :: items)) with (kv :: ok_items items) in *. apply Forall_cons in Hall as [Hkv Hall].
    destruct (sched_entry_dec n kv Hn Hkv) as (t & i & m & _ & Hk & _).
    apply wpe_bind, wpe_ret, wpe_bind. rewrite Hk, key_prefix_scheduled. apply wpe_ret.
    destruct (now <? _); [apply wpe_ret; split; [done|]; by exists (kv :: ok_items items)|].
    apply wpe_bind. eapply wpe_mono; [by apply IH| |done]. intros l w' [-> [tl ->]]. apply wpe_ret. split; [done|]. by exists tl.
  - apply wpe_bind, wpe_fail. apply HF. reflexivity.
Qed.

Lemma Forall_sub {A} (P : A -> Prop) l l' : sublist l l' -> Forall P l' -> Forall P l.
Proof. rewrite !Forall_forall. intros Hl HP x Hx. apply HP. by eapply elem_of_sublist. Qed.

Lemma sublist_keys (l t : list (bytes * bytes)) : sublist l t -> o_sorted t -> NoDup (map fst l).
Proof.
  intros Hl Ht%o_sorted_NoDup. eapply sublist_NoDup; [exact Ht|]. unfold keys.
  by apply (fmap_sublist fst).
Qed.

(** Entries that are still to be handled, each under its own key. *)
Definition pending s q (l : list (bytes * bytes)) w : Prop :=
  declared (store w) q = true /\ NoDup (map fst l) /\
  Forall (fun kv => o_get kv.1 (slot (store w) s q) = Some kv.2 /\ exists m, stores m kv.2) l.

Lemma pending_quiet s q l w w' : pending s q l w -> quiet w w' -> pending s q l w'.
Proof. intros Hp [HS _]. unfold pending. by rewrite HS. Qed.

(** The first of them is taken out of its tree, and possibly filed in another. *)
Lemma pending_step s q kv l w w' c' :
  safe_name q = true -> pending s q (kv :: l) w ->
  (forall q', declared (store w') q' = declared (store w) q') ->
  slot (store w') s q = slot (s_remove s q kv.1 c') s q -> slot c' s q = slot (store w) s q -> pending s q l w'.
Proof.
  intros Hq (Hd & Hnd & Hall) Hd' Hsl Hc. apply NoDup_cons in Hnd as [Hni Hnd]. apply Forall_cons in Hall as [_ Hall].
  split; [by rewrite Hd'|]. split; [done|]. rewrite Hsl, slot_remove_eq, Hc. rewrite Forall_forall in *.
  intros kv' Hin. destruct (Hall _ Hin) as [Hg Hm]. split; [|done]. rewrite o_get_remove_ne; [done|].
  intros E. apply Hni. apply list_elem_of_fmap. by exists kv'.
Qed.

Lemma wpe_promote_entry q k kv l w w1 :
  Sound w -> flow w [] w1 -> pending Scheduled q (kv :: l) w1 -> safe_name q = true ->
  wpe (promote_entry q k kv) (fun _ w' => flow w [] w' /\ pending Scheduled q l w') (kept w) w1.
Proof.
  intros HS Hf Hp Hq. assert (faults (kept w) w1) as HF by (intros e w' Q; by eapply flow_quiet_r).
  pose proof Hp as (Hd & _ & Hall). apply Forall_cons in Hall as [[Hget [m Hm]] _]. unfold promote_entry.
  rewrite (de_stores _ _ Hm). apply wpe_bind, wpe_ret, wpe_bind, wpe_generate; [done|]. intros i w2 Q2 Hi0 Hi.
  apply wpe_bind, wpe_transaction.
  { intros msg w' Q'. apply wpe_fail. eapply flow_quiet_r; [exact Hf|]. by etrans. }
  intros d Hc Hg. rewrite commit_promote, (proj1 Q2) in Hc |- *. cbn [fst snd] in Hc |- *.
  change (c_insert q ?a ?x (c_remove (scheduled_tree_name q) ?b ?c)) with (s_insert Main q a x (s_remove Scheduled q b c)) in Hc.
  assert (store (set_db d w2) = contents (view d)) as HSt by done. assert (idgen (set_db d w2) = v_idgen (view d)) as HGt by done.
  assert (flow w [] (set_db d w2) /\ pending Scheduled q l (set_db d w2)) as Hfd;
    [|split; [intros msg; by apply wpe_fail, Hfd|by apply wpe_ret]].
  split.
  - change [] with ([] ++ [] : list Event). eapply flow_then; [exact Hf|lia|]. intros HS1.
    pose proof (inv_queue _ _ (so_inv _ HS1) _ Hd) as HQ.
    eapply (flow_move q w1 (set_db d w2) HS1 Hd) with (s := Scheduled) (s' := Main) (m := m) (m' := m); eauto; try done.
    + lia.
    + apply Q2.
    + rewrite HSt, Hc, HGt. intros Hn. split; [eapply main_key_fresh; [apply HQ|lia|done]|].
      apply (QInv_insert_main _ (idgen w1)); [by apply QInv_remove|done|done|done|lia|lia].
  - eapply (pending_step Scheduled q kv l w1 _ (store w1)); eauto; rewrite HSt, Hc.
    + intros q'. by rewrite declared_s_insert, declared_s_remove.
    + by slots.
Qed.

Lemma wpe_promote q w : Sound w -> wpe (promote_scheduled q) (kept w) (kept w) w.
Proof.
  intros HS. assert (forall w', quiet w w' -> flow w [] w') as Hquiet by (intros w'; by apply flow_quiet).
  assert (faults (kept w) w) as HF by (intros e; auto).
  unfold promote_scheduled. apply wpe_bind, wpe_require_queue; [done| |apply Hquiet; reflexivity]. intros Hd.
  apply wpe_bind, wpe_open; [done|]. intros w1 Q1. apply wpe_bind, wpe_open; [by eapply faults_quiet|]. intros w2 Q2.
  apply wpe_bind, wpe_now_ms. intros now w3 _ Q3. assert (quiet w w3) as Q by (etrans; [exact Q1|]; by etrans).
  apply wpe_bind, wpe_gets, wpe_bind. pose proof (tree_iter_fault (scheduled_tree_name q) (db (qm w3))) as Hsub.
  change (contents (view (db (qm w3)))) with (store w3) in Hsub. rewrite (proj1 Q) in Hsub.
  change (look (store w) (scheduled_tree_name q)) with (slot (store w) Scheduled q) in Hsub.
  pose proof HS as [HI Hgen _ _ _]. pose proof (inv_queue _ _ HI _ Hd) as HQ. pose proof (inv_safe _ _ _ HI Hd) as Hq.
  assert (Forall (sched_entry (idgen w)) (ok_items (tree_iter (scheduled_tree_name q) (db (qm w3))))) as Hall
    by (eapply Forall_sub; [exact Hsub|]; apply HQ).
  eapply wpe_mono; [eapply wpe_collect_due; [by eapply faults_quiet|exact Hgen|exact Hall]| |done].
  intros l w' [-> [tl Hl]]. apply wpe_for_fold with (I := fun _ l' w' => flow w [] w' /\ pending Scheduled q l' w').
  - split; [by apply Hquiet|]. eapply pending_quiet; [|exact Q]. split; [done|].
    rewrite Hl in *. assert (sublist l (slot (store w) Scheduled q)) as Hsl by (etrans; [by apply sublist_inserts_r|exact Hsub]).
    split; [eapply sublist_keys; [exact Hsl|apply HI]|]. rewrite Forall_forall. intros [k v] Hin. split.
    + apply elem_o_get; [apply HI|]. by eapply elem_of_sublist.
    + apply Forall_app in Hall as [Hall _]. rewrite Forall_forall in Hall. destruct (Hall _ Hin) as (t & i & m & _ & Hm & _). eauto.
  - intros k kv l' w' [Hf Hp]. by apply wpe_promote_entry.
  - by intros k w' [Hf _].
Qed.

(** ** Counting the bytes *)

Lemma val_bytes_sub l t : sublist l t -> val_bytes l <= val_bytes t.
Proof. induction 1 as [|[k v] l t _ IH|[k v] l t _ IH]; cbn; lia. Qed.

Lemma sum_over_sub {A} (f : A -> Z) l l' : (forall x, 0 <= f x) -> sublist l l' -> sum_over f l <= sum_over f l'.
Proof. intros Hf. induction 1 as [|x l l' _ IH|x l l' _ IH]; cbn; [lia|lia|]. specialize (Hf x). lia. Qed.

Lemma omap_sub {A B} (f : A -> option B) l l' : sublist l l' -> sublist (omap f l) (omap f l').
Proof. induction 1 as [|x l l' _ IH|x l l' _ IH]; cbn; [done|..]; destruct (f x); try done; by constructor. Qed.

Lemma wpe_add_tree_bytes t total (F : PelicanError -> World -> Prop) w :
  faults F w -> 0 <= total -> total + val_bytes (look (store w) t) < u64_lim ->
  wpe (add_tree_bytes t total) (fun n w' => quiet w w' /\ 0 <= n <= total + val_bytes (look (store w) t)) F w.
Proof.
  intros HF Ht Hlt. unfold add_tree_bytes. apply wpe_bind, wpe_open; [done|]. intros w1 Q1. apply wpe_bind, wpe_gets.
  pose proof (tree_iter_fault t (db (qm w1))) as Hsub%val_bytes_sub. change (contents (view (db (qm w1)))) with (store w1) in Hsub.
  rewrite (proj1 Q1) in Hsub. generalize (tree_iter t (db (qm w1))) Hsub. clear Hsub. intros items Hsub.
  apply wpe_for_fold with (I := fun acc l w' => w' = w1 /\ 0 <= acc /\
    acc + val_bytes (ok_items l) <= total + val_bytes (look (store w) t)).
  - split_and!; [done|done|lia].
  - intros acc [kv|e] l' w' (-> & Ha & Hb).
    + change (ok_items (Ok kv :: l')) with (kv :: ok_items l') in Hb. destruct kv as [k v]. cbn in Hb.
      apply wpe_bind, wpe_ret. pose proof (val_bytes_nonneg (ok_items l')). cbn [snd]. rewrite arith_u64_ok by lia. apply wpe_ret.
      split_and!; [done|lia|lia].
    + apply wpe_bind, wpe_fail. by apply HF.
  - intros acc w' (-> & Ha & Hb). split; [done|]. change (val_bytes (ok_items [])) with 0 in Hb. lia.
Qed.

Lemma list_queues_names w :
  sublist (omap item_name (tree_iter META_QUEUES_TREE (db (qm w)))) (queue_names (store w)).
Proof.
  pose proof (omap_sub (fun kv => from_utf8 kv.1) _ _ (tree_iter_fault META_QUEUES_TREE (db (qm w)))) as Hsub.
  change (contents (view (db (qm w)))) with (store w) in Hsub. unfold queue_names. etrans; [|exact Hsub].
  apply reflexive_eq. generalize (tree_iter META_QUEUES_TREE (db (qm w))). intros l.
  induction l as [|[[k v]|e] l IH]; cbn; [done| |done]. destruct (from_utf8 k); by rewrite IH.
Qed.

Definition tree_bytes (c : store_t) (q : string) : Z := queue_bytes c q + dedup_bytes c q.

Lemma tree_bytes_nonneg c q : 0 <= tree_bytes c q.
Proof.
  unfold tree_bytes, queue_bytes, dedup_bytes.
  pose proof (val_bytes_nonneg (slot c Main q)). pose proof (val_bytes_nonneg (slot c Inflight q)).
  pose proof (val_bytes_nonneg (slot c Dlq q)). pose proof (val_bytes_nonneg (slot c Scheduled q)).
  pose proof (val_bytes_nonneg (slot c Dedup q)). lia.
Qed.

Lemma wpe_count_queue q total (F : PelicanError -> World -> Prop) w :
  faults F w -> 0 <= total -> total + tree_bytes (store w) q < u64_lim ->
  wpe (let* total := add_tree_bytes q total in
       let* total := add_tree_bytes (inflight_tree_name q) total in
       let* total := add_tree_bytes (dlq_tree_name q) total in
       let* total := add_tree_bytes (scheduled_tree_name q) total in
       add_tree_bytes (dedup_tree_name q) total)
    (fun n w' => quiet w w' /\ 0 <= n <= total + tree_bytes (store w) q) F w.
Proof.
  intros HF Ht. unfold tree_bytes, queue_bytes, dedup_bytes, slot. cbn [slot_tree]. intros Hlt.
  pose proof (val_bytes_nonneg (look (store w) q)). pose proof (val_bytes_nonneg (look (store w) (inflight_tree_name q))).
  pose proof (val_bytes_nonneg (look (store w) (dlq_tree_name q))).
  pose proof (val_bytes_nonneg (look (store w) (scheduled_tree_name q))).
  pose proof (val_bytes_nonneg (look (store w) (dedup_tree_name q))).
  assert (forall t n w1 (Q : Z -> World -> Prop), quiet w w1 -> 0 <= n -> n + val_bytes (look (store w) t) < u64_lim ->
    (forall n' w2, quiet w w2 -> 0 <= n' <= n + val_bytes (look (store w) t) -> Q n' w2) ->
    wpe (add_tree_bytes t n) Q F w1) as Hadd.
  { intros t n w1 Q Q1 Hn Hl HQ. eapply wpe_mono; [apply wpe_add_tree_bytes; [by eapply faults_quiet|done|by rewrite (proj1 Q1)]| |done].
    intros n' w2 [Q2 Hn']. rewrite (proj1 Q1) in Hn'. apply HQ; [by etrans|done]. }
  apply wpe_bind, Hadd; [reflexivity|lia..|]. intros n1 w1 Q1 H1'.
  apply wpe_bind, Hadd; [done|lia..|]. intros n2 w2 Q2 H2'.
  apply wpe_bind, Hadd; [done|lia..|]. intros n3 w3 Q3 H3'.
  apply wpe_bind, Hadd; [done|lia..|]. intros n4 w4 Q4 H4'.
  apply Hadd; [done|lia..|]. intros n5 w5 Q5 H5'. split; [done|lia].
Qed.

Lemma wpe_recalculate (F : PelicanError -> World -> Prop) w :
  faults F w -> total_bytes (store w) < u64_lim -> wpe recalculate_bytes (fun _ w' => quiet w w') F w.
Proof.
  intros HF Hlt. unfold recalculate_bytes. apply wpe_bind, wpe_gets.
  apply wpe_for_fold with (I := fun acc l w' => quiet w w' /\ 0 <= acc /\ acc + sum_over (tree_bytes (store w)) l < u64_lim).
  - split_and!; [reflexivity|lia|]. pose proof (sum_over_sub (tree_bytes (store w)) _ _ (tree_bytes_nonneg _) (list_queues_names w)) as Hs.
    unfold total_bytes in Hlt. fold (tree_bytes (store w)) in *. unfold tree_bytes in *. lia.
  - intros acc q l w' (Q & Ha & Hb). cbn in Hb. pose proof (sum_over_nonneg _ l (tree_bytes_nonneg (store w))).
    pose proof (tree_bytes_nonneg (store w) q).
    eapply wpe_mono; [apply wpe_count_queue; [by eapply faults_quiet|done|rewrite (proj1 Q); lia]| |done].
    intros n w'' [Q' Hn]. rewrite (proj1 Q) in Hn. split_and!; [by etrans|lia|lia].
  - by intros acc w' [Q _].
Qed.

(** ** Retention *)

(** From [w] to [w'] ready messages of [q] were dropped, and nothing else. *)
Record Cut q w w' : Prop := {
  cut_flow : exists ms, flow w (map (Dropped q) ms) w';
  cut_local : Local q (store w) (store w');
  cut_slots : forall s, s <> Main -> slot (store w') s q = slot (store w) s q;
  cut_main : sublist (slot (store w') Main q) (slot (store w) Main q);
}.

Lemma Cut_quiet q w w1 w' : Cut q w w1 -> quiet w1 w' -> Cut q w w'.
Proof.
  intros [[ms Hf] HL Hs Hm] Q. pose proof Q as [HS _]. split; rewrite ?HS; auto. exists ms. by eapply flow_quiet_r.
Qed.

Lemma Cut_bytes q w w1 n : Cut q w w1 -> Cut q w (set_bytes n w1).
Proof. intros [[ms Hf] HL Hs Hm]. split; auto. exists ms. by apply flow_bytes. Qed.

Lemma Cut_refl q w : Sound w -> Cut q w w.
Proof. intros HS. split; [exists []; by apply flow_quiet|by split|done|done]. Qed.

Lemma about_dropped q ms : about q (map (Dropped q) ms).
Proof. intros q' Hne. induction ms as [|m ms IH]; cbn; [done|]. by rewrite bool_decide_false. Qed.

Lemma o_remove_sub k t : sublist (o_remove k t) t.
Proof. induction t as [|[k' v'] t IH]; cbn; [done|]. case_bool_decide; by constructor. Qed.

(** Removing a pending entry. *)
Lemma Cut_remove q kv l w w1 w' :
  safe_name q = true -> Cut q w w1 -> pending Main q (kv :: l) w1 ->
  store w' = s_remove Main q kv.1 (store w1) -> idgen w1 <= idgen w' -> max_bytes (qm w') = max_bytes (qm w1) ->
  Cut q w w' /\ pending Main q l w'.
Proof.
  intros Hq [[ms Hf] HL Hs Hm] Hp HSt HG HM. pose proof Hp as (Hd & _ & Hall).
  apply Forall_cons in Hall as [[Hget [m Hst]] _]. split; [split|].
  - exists (ms ++ [m]). rewrite map_app. eapply flow_then; [exact Hf|lia|]. intros HS1.
    eapply (flow_remove q w1 w' HS1 Hd) with (s := Main) (k := kv.1) (v := kv.2) (m := m); try done; [apply (about_dropped q [m])|].
    cbn. by rewrite bool_decide_true.
  - rewrite HSt. eapply Local_trans; [exact HL|by apply Local_remove].
  - intros s Hne. rewrite HSt, slot_remove_ne by auto. auto.
  - rewrite HSt, slot_remove_eq. etrans; [apply o_remove_sub|done].
  - eapply (pending_step Main q kv l w1 w' (store w1)); eauto; [|by rewrite HSt].
    intros q'. rewrite HSt. by apply declared_s_remove.
Qed.

Definition cuts q w : PelicanError -> World -> Prop := fun _ w' => Cut q w w'.

Lemma Cut_faults q w w1 : Cut q w w1 -> faults (cuts q w) w1.
Proof. intros HC e w' Q. by eapply Cut_quiet. Qed.

Lemma wpe_remove_keys q l w w1 :
  safe_name q = true -> Cut q w w1 -> pending Main q l w1 ->
  wpe (for_each (map fst l) (remove_key q)) (fun _ w' => Cut q w w') (cuts q w) w1.
Proof.
  intros Hq HC Hp. apply wpe_for_each with (I := fun ks w' => Cut q w w' /\ exists l', ks = map fst l' /\ pending Main q l' w').
  - eauto.
  - intros k ks w2 (HC2 & [|kv l'] & Hks & Hp2); [done|]. injection Hks as -> ->. unfold remove_key.
    apply wpe_bind, wpe_remove; [by apply Cut_faults|]. intros d Hc Hg.
    destruct (Cut_remove q kv l' w w2 (set_db d w2)) as [HC' Hp']; [done..|].
    split; [by intros e|]. apply wpe_ret. eauto.
  - by intros w' [HC' _].
Qed.

(** The collected keys are those of entries of the tree. *)
Definition keys_of (items : list (Result string (bytes * bytes))) w (ks : list bytes) w' : Prop :=
  w' = w /\ exists l, ks = map fst l /\ sublist l (ok_items items).

Lemma wpe_collect_front n items (F : PelicanError -> World -> Prop) w :
  faults F w -> wpe (collect_front n items) (keys_of items w) F w.
Proof.
  intros HF. revert items. induction n as [|n IH]; intros [|[kv|e] items]; cbn [collect_front];
    try (apply wpe_ret; split; [done|]; exists []; split; [done|apply sublist_nil_l]).
  - apply wpe_bind, wpe_ret, wpe_bind. eapply wpe_mono; [apply IH| |done]. intros ks w' (-> & l & -> & Hl). apply wpe_ret.
    split; [done|]. exists (kv :: l). split; [done|]. by constructor.
  - apply wpe_bind, wpe_fail. by apply HF.
Qed.

Lemma wpe_collect_expired now age n items (F : PelicanError -> World -> Prop) w :
  faults F w -> 0 <= now < i64_lim / 4 -> Forall (main_entry n) (ok_items items) -> Forall sane_time (ok_items items) ->
  wpe (collect_expired now age items) (keys_of items w) F w.
Proof.
  intros HF Hnow. change (i64_lim / 4) with 2305843009213693952 in *.
  induction items as [|[kv|e] items IH]; intros Hall Hst; cbn [collect_expired].
  - apply wpe_ret. split; [done|]. by exists [].
  - change (ok_items (Ok kv :: items)) with (kv :: ok_items items) in *.
    apply Forall_cons in Hall as [(i & m & _ & Hm & _) Hall]. apply Forall_cons in Hst as [Hs Hst].
    pose proof (de_stores _ _ Hm) as Hde. specialize (Hs m Hde). change (i64_lim / 4) with 2305843009213693952 in *.
    apply wpe_bind, wpe_ret, wpe_bind. rewrite Hde. apply wpe_ret, wpe_bind. rewrite arith_i64_ok by lia.
    apply wpe_ret, wpe_bind. eapply wpe_mono; [by apply IH| |done]. intros ks w' (-> & l & -> & Hl). apply wpe_ret.
    split; [done|]. destruct (age <=? _); [exists (kv :: l)|exists l]; (split; [done|]); by constructor.
  - apply wpe_bind, wpe_fail. by apply HF.
Qed.

Section Retain.
Context (q : string) (w : World) (HS : Sound w) (Hd : declared (store w) q = true).

(** What is known of the ready entries after some of them were dropped. *)
Lemma cut_facts w1 :
  Cut q w w1 -> safe_name q = true /\ declared (store w1) q = true /\ o_sorted (slot (store w1) Main q) /\
  Forall (main_entry (idgen w)) (slot (store w1) Main q) /\ Forall sane_time (slot (store w1) Main q).
Proof.
  intros [_ HL _ Hm]. pose proof HS as [HI Hgen _ _ Hst]. pose proof (inv_queue _ _ HI _ Hd) as HQ.
  pose proof (inv_safe _ _ _ HI Hd) as Hq. split_and!.
  - done.
  - by rewrite (Local_declared _ _ _ _ HL).
  - apply HL, HI.
  - eapply Forall_sub; [exact Hm|apply HQ].
  - eapply Forall_sub; [exact Hm|]. eapply stamps_sane_time; [exact HQ|done|by apply Hst].
Qed.

Lemma keys_pending w1 w2 ks :
  Cut q w w1 -> keys_of (tree_iter q (db (qm w1))) w1 ks w2 -> exists l, ks = map fst l /\ w2 = w1 /\ pending Main q l w1.
Proof.
  intros HC (-> & l & -> & Hl). destruct (cut_facts w1 HC) as (Hq & Hd1 & Hso & Hall & _).
  assert (sublist l (slot (store w1) Main q)) as Hsub by (etrans; [exact Hl|apply tree_iter_fault]).
  exists l. split; [done|]. split; [done|]. split; [done|]. split; [by eapply sublist_keys|].
  rewrite Forall_forall in *. intros [k v] Hin.
  assert ((k, v) ∈ slot (store w1) Main q) as Hin' by (by eapply elem_of_sublist). split; [by apply elem_o_get|].
  destruct (Hall _ Hin') as (i & m & _ & Hm & _). eauto.
Qed.

Lemma wpe_expire p w1 :
  sane_policy p = true -> Cut q w w1 -> wpe (expire_by_age q p) (fun _ w' => Cut q w w') (cuts q w) w1.
Proof.
  intros Hp HC. unfold expire_by_age. apply andb_true_iff in Hp as [_ Hp].
  destruct (max_age_secs p) as [s|]; [|by apply wpe_ret]. cbn in Hp. destruct (sane_secs_ms s Hp) as (-> & -> & _).
  apply wpe_bind, wpe_now_ms. intros now w2 Hnow Q2. apply clock_value_range in Hnow.
  assert (Cut q w w2) as HC2 by (by eapply Cut_quiet). destruct (cut_facts w2 HC2) as (Hq & Hd2 & Hso & Hall & Hst).
  apply wpe_bind, wpe_ret, wpe_bind, wpe_gets, wpe_bind.
  eapply wpe_mono; [eapply wpe_collect_expired; [by eapply (Cut_faults q w)|exact Hnow|..]| |done].
  - eapply Forall_sub; [apply tree_iter_fault|exact Hall].
  - eapply Forall_sub; [apply tree_iter_fault|exact Hst].
  - intros ks w3 Hk. apply (keys_pending w2 w3) in Hk as (l & -> & -> & Hpd); [|done].
    apply wpe_bind. eapply wpe_mono; [by apply wpe_remove_keys| |done]. intros [] w4 HC4. by apply wpe_ret.
Qed.

Lemma wpe_trim p w1 : Cut q w w1 -> wpe (trim_to_count q p) (fun _ w' => Cut q w w') (cuts q w) w1.
Proof.
  intros HC. unfold trim_to_count. destruct (max_messages p) as [mx|]; [|by apply wpe_ret].
  apply wpe_bind, wpe_gets. destruct (mx <? _); [|by apply wpe_ret]. apply wpe_bind, wpe_gets, wpe_bind.
  eapply wpe_mono; [apply wpe_collect_front; by eapply (Cut_faults q w)| |done].
  intros ks w3 Hk. apply (keys_pending w1 w3) in Hk as (l & -> & -> & Hpd); [|done].
  apply wpe_bind. eapply wpe_mono; [apply wpe_remove_keys; [by eapply cut_facts|done|done]| |done]. intros [] w4 HC4. by apply wpe_ret.
Qed.

Lemma total_bytes_cut w1 : Cut q w w1 -> total_bytes (store w1) <= total_bytes (store w).
Proof.
  intros [_ HL Hs Hm]. unfold total_bytes. rewrite (queue_names_local _ _ _ HL). apply sum_over_le. intros q' Hin.
  apply (queue_names_declared _ _ _ (so_inv _ HS)) in Hin. pose proof (inv_safe _ _ _ (so_inv _ HS) Hin) as Hq'.
  unfold queue_bytes, dedup_bytes. destruct (decide (q' = q)) as [->|Hne].
  - rewrite (Hs Inflight), (Hs Dlq), (Hs Scheduled), (Hs Dedup) by done. apply val_bytes_sub in Hm. lia.
  - rewrite !(loc_slot _ _ _ HL) by done. lia.
Qed.
End Retain.

Lemma wpe_retention q w :
  Sound w -> total_bytes (store w) < u64_lim -> wpe (apply_retention q) (fun _ w' => Cut q w w') (cuts q w) w.
Proof.
  intros HS Hb. assert (faults (cuts q w) w) as HF by (intros e w' Q; eapply Cut_quiet; [by apply Cut_refl|done]).
  unfold apply_retention. apply wpe_bind, wpe_require_queue; [done| |by apply Cut_refl]. intros Hd.
  apply wpe_bind, wpe_get_policy; [done|]. destruct (_ && _); [apply wpe_ret; by apply Cut_refl|].
  apply wpe_bind, wpe_open; [done|]. intros w1 Q1. assert (Cut q w w1) as HC1 by (eapply Cut_quiet; [by apply Cut_refl|done]).
  apply wpe_bind. eapply wpe_mono; [apply (wpe_expire q w HS Hd); [apply HS|done]| |done]. intros n1 w2 HC2.
  apply wpe_bind. eapply wpe_mono; [by apply (wpe_trim q w HS Hd)| |done]. intros n2 w3 HC3.
  destruct (0 <? _)%nat; [|by apply wpe_ret]. apply wpe_bind.
  eapply wpe_mono; [apply wpe_recalculate; [by eapply (Cut_faults q w)|]| |done].
  - pose proof (total_bytes_cut q w HS w3 HC3). lia.
  - intros n w4 Q4. apply wpe_bind, wpe_modify, wpe_ret. apply Cut_bytes. eapply Cut_quiet; [exact HC3|exact Q4].
Qed.

(** ** Opening a store *)

(** An interrupted recovery leaves messages of one queue both ready and in flight. *)
Definition copies w (_ : PelicanError) w' : Prop :=
  exists q ms, sublist ms (raw_msgs (slot (store w) Inflight q)) /\ flow w (map (Accepted q) ms) w'.

Lemma copies_none w e w' : flow w [] w' -> copies w e w'.
Proof. intros Hf. exists ""%string, []. split; [apply sublist_nil_l|done]. Qed.

Lemma accepted_one q q' ms : accepted q' (map (Accepted q) ms) = if bool_decide (q = q') then ms else [].
Proof.
  induction ms as [|m ms IH]; [by destruct (bool_decide _)|]. unfold accepted in *. cbn. rewrite IH. by destruct (bool_decide _).
Qed.
Lemma removed_one q q' ms : removed q' (map (Settled q) ms) = if bool_decide (q = q') then ms else [].
Proof.
  induction ms as [|m ms IH]; [by destruct (bool_decide _)|]. unfold removed in *. cbn. rewrite IH. by destruct (bool_decide _).
Qed.
Lemma accepted_settled q q' ms : accepted q' (map (Settled q) ms) = [].
Proof. by induction ms. Qed.
Lemma removed_accepted q q' ms : removed q' (map (Accepted q) ms) = [].
Proof. by induction ms. Qed.

(** Of the messages filed again, those taken out of flight are back where they were. *)
Lemma flow_refiled q ms ms' w w' :
  flow w (map (Accepted q) (ms ++ ms') ++ map (Settled q) ms) w' -> flow w (map (Accepted q) ms') w'.
Proof.
  intros Hf. eapply flow_ledger; [exact Hf|]. intros q'.
  rewrite accepted_app, removed_app, !accepted_one, !removed_one, accepted_settled, !removed_accepted.
  destruct (bool_decide _); cbn; [|done]. rewrite !app_nil_r. apply Permutation_app_comm.
Qed.

Section Recover.
Context (q : string) (w w1 : World) (HS : Sound w) (Hd : declared (store w) q = true)
        (Hf1 : flow w [] w1) (Hd1 : declared (store w1) q = true)
        (Hsl : forall s, slot (store w1) s q = slot (store w) s q).

Let Hq : safe_name q = true := inv_safe _ _ _ (so_inv _ HS) Hd.

(** The messages of raw entries. *)
Definition msgs_of (l : list (bytes * bytes)) (ms : list Message) : Prop :=
  Forall2 (fun kv m => stores m kv.2 /\ sane_stamp m) l ms.

Lemma msgs_raw l ms : msgs_of l ms -> raw_msgs l = ms.
Proof.
  unfold raw_msgs. induction 1 as [|kv m l ms [Hm _] _ IH]; cbn; [done|]. by rewrite (de_stores _ _ Hm), <- IH.
Qed.

Lemma inflight_msgs l : sublist l (slot (store w) Inflight q) -> exists ms, msgs_of l ms.
Proof.
  intros Hl. pose proof HS as [HI Hgen _ _ Hst]. pose proof (inv_queue _ _ HI _ Hd) as HQ.
  assert (Forall (tag_entry (idgen w)) l) as Hall by (eapply Forall_sub; [exact Hl|apply HQ]).
  assert (Forall (fun m => sane_stamp m) (map strip (raw_msgs (slot (store w) Inflight q)))) as Hs.
  { specialize (Hst q Hq). rewrite (content_raw _ _ _ HQ Hgen) in Hst. unfold raw_content in Hst. rewrite !map_app in Hst.
    apply Forall_app in Hst as [_ Hst]. by apply Forall_app in Hst as [Hst _]. }
  exists (raw_msgs l). unfold msgs_of. induction Hall as [|kv l (i & m & _ & Hm & _) Hall IH]; [constructor|].
  unfold raw_msgs. cbn. rewrite (de_stores _ _ Hm). cbn. constructor.
  - split; [done|]. assert (strip m ∈ map strip (raw_msgs (slot (store w) Inflight q))) as Hin.
    { apply (list_elem_of_fmap_2 strip). apply list_elem_of_omap. exists kv. rewrite (de_stores _ _ Hm). split; [|done].
      eapply elem_of_sublist; [left|exact Hl]. }
    rewrite Forall_forall in Hs. exact (Hs _ Hin).
  - apply IH. etrans; [|exact Hl]. by constructor.
Qed.

(** The first loop: [dn] has been filed again. *)
Definition refiling (dn : list Message) w' : Prop :=
  flow w (map (Accepted q) dn) w' /\ Local q (store w1) (store w') /\
  forall s, s <> Main -> slot (store w') s q = slot (store w) s q.

Lemma wpe_requeue_entry kv m dn w2 :
  stores m kv.2 -> sane_stamp m -> refiling dn w2 -> sublist (dn ++ [m]) (raw_msgs (slot (store w) Inflight q)) ->
  wpe (requeue_entry q kv) (fun _ w' => refiling (dn ++ [m]) w') (copies w) w2.
Proof.
  intros Hm Hst (Hf & HL & Hs) Hdn.
  assert (faults (copies w) w2) as HF.
  { intros e w' Q. exists q, dn. split; [etrans; [|exact Hdn]; by apply sublist_inserts_r|by eapply flow_quiet_r]. }
  unfold requeue_entry. rewrite (de_stores _ _ Hm). apply wpe_bind, wpe_ret, wpe_bind, wpe_generate; [done|].
  intros i w3 Q3 Hi0 Hi. apply wpe_insert; [by eapply faults_quiet|]. intros d Hc Hg. rewrite (proj1 Q3) in Hc.
  change (c_insert q ?a ?x ?c) with (s_insert Main q a x c) in Hc.
  assert (store (set_db d w3) = contents (view d)) as HSt by done. assert (idgen (set_db d w3) = v_idgen (view d)) as HGt by done.
  assert (declared (store w2) q = true) as Hd2 by (by rewrite (Local_declared _ _ _ _ HL)).
  assert (refiling (dn ++ [m]) (set_db d w3)) as Hfd; [|split; [intros e; exists q, (dn ++ [m]); split; [done|apply Hfd]|done]].
  split_and!.
  - rewrite map_app. eapply flow_then; [exact Hf|lia|]. intros HS2. pose proof (inv_queue _ _ (so_inv _ HS2) _ Hd2) as HQ.
    apply (flow_accept q w2 (set_db d w3) HS2 Hd2) with (s := Main) (k := encode_key (priority m) i) (v := kv.2); try done; [lia|apply Q3|].
    rewrite HSt, Hc, HGt. intros Hn. split; [eapply main_key_fresh; [apply HQ|lia|done]|].
    apply (QInv_insert_main _ (idgen w2)); [done..|lia|lia].
  - rewrite HSt, Hc. eapply Local_trans; [exact HL|]. by apply Local_insert.
  - intros s Hne. rewrite HSt, Hc, slot_insert_ne by auto. auto.
Qed.

Lemma wpe_requeue_loop l ms w2 :
  msgs_of l ms -> sublist ms (raw_msgs (slot (store w) Inflight q)) -> refiling [] w2 ->
  wpe (for_each l (requeue_entry q)) (fun _ w' => refiling ms w') (copies w) w2.
Proof.
  intros Hms Hsub HR. apply wpe_for_each with (I := fun l' w' => exists dn ms', ms = dn ++ ms' /\ msgs_of l' ms' /\ refiling dn w').
  - by exists [], ms.
  - intros kv l' w3 (dn & ms' & -> & Hl & HR3). inversion Hl as [|? m ? ms'' [Hm Hst] Hl']; subst.
    eapply wpe_mono; [apply (wpe_requeue_entry kv m dn w3); auto| |done].
    + etrans; [|exact Hsub]. apply sublist_app; [done|]. constructor. apply sublist_nil_l.
    + intros [] w4 HR4. exists (dn ++ [m]), ms''. by rewrite <- app_assoc.
  - intros w3 (dn & ms' & -> & Hl & HR3). inversion Hl; subst. by rewrite app_nil_r.
Qed.

(** The second loop: of the messages [ms] filed again, [dn] are no longer in flight. *)
Definition clearing (ms dn : list Message) (l : list (bytes * bytes)) w' : Prop :=
  flow w (map (Accepted q) ms ++ map (Settled q) dn) w' /\ Local q (store w1) (store w') /\ pending Inflight q l w'.

Lemma wpe_clear_loop l ms w2 :
  msgs_of l ms -> sublist ms (raw_msgs (slot (store w) Inflight q)) -> clearing ms [] l w2 ->
  wpe (for_each l (fun kv => remove_key (inflight_tree_name q) kv.1))
    (fun _ w' => flow w [] w' /\ Local q (store w1) (store w')) (copies w) w2.
Proof.
  intros Hms Hsub HR.
  apply wpe_for_each with (I := fun l' w' => exists dn ms', ms = dn ++ ms' /\ msgs_of l' ms' /\ clearing ms dn l' w').
  - by exists [], ms.
  - intros kv l' w3 (dn & ms' & -> & Hl & Hf & HL & Hp). inversion Hl as [|? m ? ms'' [Hm Hst] Hl']; subst.
    assert (faults (copies w) w3) as HF.
    { intros e w' Q. exists q, (m :: ms''). split; [etrans; [|exact Hsub]; by apply sublist_inserts_l|].
      eapply flow_refiled, flow_quiet_r; [exact Hf|done]. }
    pose proof Hp as (Hd3 & _ & Hall). apply Forall_cons in Hall as [[Hget _] _].
    unfold remove_key. apply wpe_bind, wpe_remove; [done|]. intros d Hc Hg.
    change (c_remove (inflight_tree_name q) ?k ?c) with (s_remove Inflight q k c) in Hc.
    assert (clearing (dn ++ m :: ms'') (dn ++ [m]) l' (set_db d w3)) as Hfd.
    2: { split; [|apply wpe_ret; exists (dn ++ [m]), ms''; split; [by rewrite <- app_assoc|by split]].
         intros e. exists q, ms''. split; [etrans; [|exact Hsub]; apply sublist_inserts_l; by constructor|].
         eapply (flow_refiled q (dn ++ [m])). rewrite <- app_assoc. apply Hfd. }
    split_and!.
    + rewrite (map_app (Settled q) dn), app_assoc. eapply flow_then; [exact Hf|done|]. intros HS3.
      eapply (flow_remove q w3 (set_db d w3) HS3 Hd3) with (s := Inflight) (k := kv.1) (v := kv.2) (m := m); try done.
      * intros q' Hne. cbn. by rewrite bool_decide_false.
      * cbn. by rewrite bool_decide_true.
    + change (store (set_db d w3)) with (contents (view d)). rewrite Hc. eapply Local_trans; [exact HL|]. by apply Local_remove.
    + eapply (pending_step Inflight q kv l' w3 _ (store w3)); eauto; change (store (set_db d w3)) with (contents (view d));
        rewrite Hc; [|done]. intros q'. by apply declared_s_remove.
  - intros w3 (dn & ms' & -> & Hl & Hf & HL & _). inversion Hl; subst. split; [|done].
    apply (flow_refiled q dn []). done.
Qed.

Lemma wpe_recover_queue :
  wpe (recover_queue q) (fun _ w' => flow w [] w' /\ Local q (store w1) (store w')) (copies w) w1.
Proof.
  assert (faults (copies w) w1) as HF by (intros e w' Q; apply copies_none; by eapply flow_quiet_r).
  unfold recover_queue. apply wpe_bind, wpe_open; [done|]. intros w2 Q2.
  apply wpe_bind, wpe_open; [by eapply faults_quiet|]. intros w3 Q3. assert (quiet w1 w3) as Q by (by etrans).
  apply wpe_bind, wpe_gets. set (l := ok_items _).
  assert (sublist l (slot (store w) Inflight q)) as Hl.
  { unfold l. rewrite <- (Hsl Inflight). pose proof (tree_iter_fault (inflight_tree_name q) (db (qm w3))) as Hsub.
    change (contents (view (db (qm w3)))) with (store w3) in Hsub. by rewrite (proj1 Q) in Hsub. }
  clearbody l. destruct (inflight_msgs l Hl) as [ms Hms].
  assert (sublist ms (raw_msgs (slot (store w) Inflight q))) as Hsub
    by (rewrite <- (msgs_raw _ _ Hms); by apply omap_sub).
  assert (flow w [] w3) as Hf3 by (by eapply flow_quiet_r).
  destruct l as [|kv l']; [apply wpe_ret; split; [done|]; rewrite (proj1 Q); by split|]. set (l := kv :: l') in *.
  apply wpe_bind. eapply wpe_mono; [apply (wpe_requeue_loop l ms w3); auto| |done].
  { split; [done|]. rewrite (proj1 Q). split; [by split|auto]. }
  intros [] w4 (Hf4 & HL4 & Hs4). apply (wpe_clear_loop l ms w4); auto. split; [by rewrite app_nil_r|]. split; [done|].
  split; [by rewrite (Local_declared _ _ _ _ HL4)|]. pose proof (inv_sorted _ _ (so_inv _ HS)) as Hso.
  split; [eapply sublist_keys; [exact Hl|apply Hso]|]. rewrite Hs4 by done. rewrite Forall_forall. intros [k v] Hin. split.
  - apply elem_o_get; [apply Hso|]. by eapply elem_of_sublist.
  - clear - Hin Hms. induction Hms as [|? m ? ? [Hm _] _ IH]; [by apply elem_of_nil in Hin|].
    apply elem_of_cons in Hin as [<-|Hin]; eauto.
Qed.
End Recover.

(** The queues that are still to be recovered are as they were. *)
Definition waiting w (l : list string) w' : Prop :=
  flow w [] w' /\ NoDup l /\
  forall q, q ∈ l -> declared (store w) q = true /\ declared (store w') q = true /\
    forall s, slot (store w') s q = slot (store w) s q.

Lemma wpe_recover w w1 :
  Sound w -> flow w [] w1 -> store w1 = store w -> wpe recover_inflight (kept w) (copies w) w1.
Proof.
  intros HS Hf1 HSt. pose proof HS as [HI _ _ _ _]. unfold recover_inflight. apply wpe_bind, wpe_gets.
  pose proof (list_queues_names w1) as Hsub. rewrite HSt in Hsub.
  apply wpe_for_each with (I := waiting w).
  - split; [done|]. split; [eapply sublist_NoDup; [by eapply queue_names_NoDup|done]|]. intros q Hin. rewrite HSt.
    assert (declared (store w) q = true) as Hd by (apply (queue_names_declared _ _ _ HI); by eapply elem_of_sublist). done.
  - intros q l w2 (Hf & Hnd & Hw). apply NoDup_cons in Hnd as [Hni Hnd]. destruct (Hw q) as (Hd & Hd2 & Hsl); [left|].
    eapply wpe_mono; [by apply (wpe_recover_queue q w w2)| |done]. intros [] w3 [Hf3 HL].
    split; [done|]. split; [done|]. intros q' Hin. destruct (Hw q') as (Hd' & Hd2' & Hsl'); [by right|].
    split; [done|]. split; [by rewrite (Local_declared _ _ _ _ HL)|]. intros s. rewrite (loc_slot _ _ _ HL); [done|by eapply inv_safe|].
    by intros ->.
  - by intros w2 [Hf _].
Qed.

Lemma wpe_open_body w :
  Sound w -> total_bytes (store w) < u64_lim -> wpe open_body (kept w) (copies w) w.
Proof.
  intros HS Hb. assert (faults (copies w) w) as HF by (intros e w' Q; apply copies_none; by apply flow_quiet).
  unfold open_body. apply wpe_bind, wpe_open; [done|]. intros w1 Q1.
  apply wpe_bind, wpe_open; [by eapply faults_quiet|]. intros w2 Q2. assert (quiet w w2) as Q by (by etrans).
  apply wpe_bind. eapply wpe_mono; [apply wpe_recalculate; [by eapply faults_quiet|by rewrite (proj1 Q)]| |done].
  intros n w3 Q3. assert (quiet w w3) as Q' by (by etrans). apply wpe_bind, wpe_modify.
  apply wpe_recover; [done|apply flow_bytes; by apply flow_quiet|apply Q'].
Qed.

(** ** Declaring *)

(** A name was entered among the queues; policies may have changed. *)
Record Named name w w' : Prop := {
  nm_names : look (store w') META_QUEUES_TREE = o_insert (str_bytes name) [] (look (store w) META_QUEUES_TREE);
  nm_trees : forall t, t <> META_QUEUES_TREE -> t <> META_RETENTION_TREE -> look (store w') t = look (store w) t;
  nm_sorted : c_sorted (store w) -> c_sorted (store w');
  nm_policy : forall q, sane_policy (policy (store w') q) = true;
  nm_ids : idgen w <= idgen w';
  nm_max : max_bytes (qm w') = max_bytes (qm w);
}.

Lemma Named_declared name w w' q :
  Named name w w' -> declared (store w') q = bool_decide (q = name) || declared (store w) q.
Proof.
  intros HN. unfold declared. rewrite (nm_names _ _ _ HN). destruct (decide (q = name)) as [->|Hne].
  - rewrite o_get_insert. rewrite (bool_decide_true (name = name)) by done. by apply bool_decide_true.
  - rewrite o_get_insert_ne by (intros ?%str_bytes_inj; done). by rewrite (bool_decide_false (q = name)).
Qed.

Lemma flow_named name w w' :
  Sound w -> safe_name name = true -> declared (store w) name = false -> Named name w w' -> flow w [] w'.
Proof.
  intros [HI Hg Hf Hp Hst] Hsafe Hnd HN. pose proof (fun q => Named_declared name w w' q HN) as Hd.
  pose proof HN as [Hnames Htrees Hso Hpol Hids Hmax].
  assert (forall s q, safe_name q = true -> slot (store w') s q = slot (store w) s q) as Hsl.
  { intros s q Hq. destruct (slot_tree_meta s q Hq). by apply Htrees. }
  assert (forall q, safe_name q = true -> content (abs (store w') q) = content (abs (store w) q)) as Hc
    by (intros q Hq; apply content_slots; intros s; auto).
  split; [done|]. intros Hn. split; [|intros q Hq; by rewrite Hc|done]. split; auto.
  - destruct HI as [Hs Hg0 Hm HQ]. split; [auto|lia|rewrite Hnames; apply Forall_o_insert; [|done]; eauto|].
    intros q Hdq. rewrite Hd in Hdq. eapply QInv_mono; [exact Hids|]. case_bool_decide as Hq.
    + subst. apply QInv_ext with (store w); [auto|]. specialize (Hf _ Hsafe Hnd). split; rewrite ?Hf; constructor.
    + assert (safe_name q = true) by (eapply (inv_safe (store w)); [by split|done]). apply QInv_ext with (store w); auto.
  - intros q Hq Hdq s. rewrite Hsl by done. rewrite Hd in Hdq. apply orb_false_iff in Hdq as [_ Hdq]. by apply Hf.
  - intros q Hq. rewrite Hc by done. auto.
Qed.

Lemma wpe_declare name p w :
  Sound w -> safe_name name = true -> wf_policy p = true -> sane_policy p = true ->
  wpe (declare_queue_with_retention name p) (kept w) (kept w) w.
Proof.
  intros HS Hsafe Hwf Hsane. assert (forall w', quiet w w' -> flow w [] w') as Hquiet by (intros w'; by apply flow_quiet).
  assert (faults (kept w) w) as HF by (intros e; auto).
  unfold declare_queue_with_retention. apply wpe_bind, wpe_contains; [done|]. fold (declared (store w) name).
  destruct (declared (store w) name) eqn:Hnd; [apply wpe_fail, Hquiet; reflexivity|].
  apply wpe_bind, wpe_insert; [done|]. intros d Hc Hg. set (w1 := set_db d w).
  assert (store w1 = c_insert META_QUEUES_TREE (str_bytes name) [] (store w)) as HS1 by done.
  assert (Named name w w1) as HN.
  { split; rewrite ?HS1; try done.
    - by rewrite look_c_insert.
    - intros t H1' H2'. by rewrite look_c_insert_ne.
    - auto with ord.
    - intros q. unfold policy. rewrite look_c_insert_ne by done. apply HS.
    }
  clearbody w1. pose proof (flow_named _ _ _ HS Hsafe Hnd HN) as Hf1. split; [by intros e|].
  assert (forall w', quiet w1 w' -> flow w [] w') as Hquiet1 by (intros w' Q; by eapply flow_quiet_r).
  assert (faults (kept w) w1) as HF1 by (intros e; auto).
  apply wpe_bind, wpe_open; [done|]. intros w2 Q2.
  apply wpe_bind, wpe_open; [by eapply faults_quiet|]. intros w3 Q3. assert (quiet w1 w3) as Q13 by (by etrans).
  apply wpe_bind, wpe_open; [by eapply faults_quiet|]. intros w4 Q4. assert (quiet w1 w4) as Q14 by (by etrans).
  apply wpe_bind, wpe_open; [by eapply faults_quiet|]. intros w5 Q5. assert (quiet w1 w5) as Q15 by (by etrans).
  apply wpe_bind, wpe_open; [by eapply faults_quiet|]. intros w6 Q6. assert (quiet w1 w6) as Q by (by etrans).
  destruct (ser_pol_total p Hwf) as [pb Hpb]. rewrite Hpb. apply wpe_bind, wpe_ret, wpe_insert; [by eapply faults_quiet|].
  intros d' Hc' Hg'. pose proof Q as (S6 & G6 & _ & M6). rewrite S6 in Hc'. set (w7 := set_db d' w6).
  assert (store w7 = c_insert META_RETENTION_TREE (str_bytes name) pb (store w1)) as HS7 by done.
  assert (flow w [] w7) as Hfd; [|by split]. eapply flow_named; [done..|]. destruct HN as [N1 N2 N3 N4 N5 N6]. split; rewrite ?HS7.
  - by rewrite look_c_insert_ne.
  - intros t H1' H2'. rewrite look_c_insert_ne by done. auto.
  - auto with ord.
  - intros q. rewrite (policy_insert (store w1) _ name pb p q) by (rewrite ?look_c_insert; done). by case_bool_decide.
  - change (idgen w7) with (v_idgen (view d')). lia.
  - unfold w7. cbn. congruence.
Qed.
End FaultSteps.
