(* ===== verification/FaultTheorems.v ===== *)
(** * FaultTheorems: what holds when the disk fails

    Runs in which any call of the database may fail, the recovery of a restart
    included: the trees stay well formed and no message is lost.  The disk of the
    witness stops working after a given number of calls. *)

From Stdlib Require Import ZArith Lia.
From stdpp Require Import prelude gmap strings.
From S2P Require Import Prelude Bytes OrdMap Sled Message Bincode Keys QueueManager Store Spec.
From S2P Require Import Engine Invariant Refinement Maintenance Retention Fsck Holdings System.
From S2P Require Import SystemDemo Snapshot Faults FaultSteps.

(** What the caller of an operation is told. *)
Inductive Answer :=
| ADeclared
| APublished (o : PublishOutcome)
| ADelivered (d : option (DeliveryTag * Message))
| AAcked
| ARequeued
| APromoted (n : nat)
| ARetained (n : nat)
| AOpened.

Section FaultRuns.
Context `{!Sled, !SledLaws, !SledFaults, !Bincode, !BincodeLaws,
          !Environment, !EnvironmentLaws, !BuildProfile}.
Implicit Types w : World.

Definition report {A} (f : A -> Answer) (m : QM A) w : Outcome PelicanError Answer * World :=
  let '(o, w') := m w in
  (match o with Done a => Done (f a) | Fail e => Fail e | Panic => Panic | OutOfFuel => OutOfFuel end, w').

(** A world whose process was started again on the database [d]. *)
Definition reborn (e : Env) (d : db_t) w : World := mkWorld (mkQM d 0 (max_bytes (qm w))) e.

Definition attempt_op (op : Op) w : Outcome PelicanError Answer * World :=
  match op with
  | OpDeclare q p => report (fun _ => ADeclared) (declare_queue_with_retention q p) w
  | OpPublish q m => report APublished (publish q m) w
  | OpConsume q => report ADelivered (consume q) w
  | OpAck q t => report (fun _ => AAcked) (ack q t) w
  | OpNack q t => report (fun _ => ARequeued) (nack q t) w
  | OpPromote q => report APromoted (promote_scheduled q) w
  | OpRetain q => report ARetained (apply_retention q) w
  | OpReopen e =>
    match flush (db (qm w)) with
    | (Ok _, d) =>
      match open (Ok d) (max_bytes (qm w)) e with
      | (o, Some w') => report (fun _ => AOpened) (fun _ => (o, w')) w
      | (_, None) => (Panic, w)
      end
    | (Err msg, d) => (Fail (Storage msg), set_db d w)
    end
  end.

Lemma attempt_reopen e w :
  attempt_op (OpReopen e) w =
  match flush (db (qm w)) with
  | (Ok _, d) => report (fun _ => AOpened) open_body (reborn e d w)
  | (Err msg, d) => (Fail (Storage msg), set_db d w)
  end.
Proof. cbn. destruct (flush _) as [[[]|msg] d]; [|done]. unfold open, report, reborn. by destruct (open_body _). Qed.

(** The ledgers an answer admits.  An error of a publish leaves open whether the
    message was stored, one of an acknowledgement whether it was settled; an error
    while opening may leave messages of one queue both ready and in flight, which
    counts as accepting them once more. *)
Definition told (op : Op) w (o : Outcome PelicanError Answer) (ev : list Event) : Prop :=
  match o with
  | Done a =>
    match op, a with
    | OpPublish q m, APublished (Stored _) => ev = [Accepted q m]
    | OpConsume q, ADelivered d => ev = [] /\ handed q w d
    | OpAck q t, _ => exists m, a_inflight (abs (store w) q) !! tag_u64 t = Some m /\ ev = [Settled q m]
    | OpRetain q, _ => exists ms, ev = map (Dropped q) ms
    | _, _ => ev = []
    end
  | Fail e =>
    match op with
    | OpPublish q m => ev = [] \/ ((exists msg, e = Storage msg) /\ ev = [Accepted q m])
    | OpAck q t => ev = [] \/ ((exists msg, e = Storage msg) /\
        exists m, a_inflight (abs (store w) q) !! tag_u64 t = Some m /\ ev = [Settled q m])
    | OpRetain q => exists ms, ev = map (Dropped q) ms
    | OpReopen _ => exists q ms, sublist ms (raw_msgs (slot (store w) Inflight q)) /\ ev = map (Accepted q) ms
    | _ => ev = []
    end
  | _ => False
  end.

(** Runs: the operations with what their callers were told. *)
Inductive fault_run : World -> list (Op * Outcome PelicanError Answer) -> World -> Prop :=
| fr_nil w : fault_run w [] w
| fr_cons w op o w1 h w' :
    admissible op w -> attempt_op op w = (o, w1) -> idgen w1 <= u64_lim -> fault_run w1 h w' ->
    fault_run w ((op, o) :: h) w'.

(** A ledger that agrees with every answer of a run. *)
Inductive truthful : World -> list (Op * Outcome PelicanError Answer) -> list Event -> Prop :=
| tr_nil w : truthful w [] []
| tr_cons w op o ev h tr :
    told op w o ev -> truthful (attempt_op op w).2 h tr -> truthful w ((op, o) :: h) (ev ++ tr).

Lemma report_step {A} (f : A -> Answer) (m : QM A) (Q : A -> World -> Prop) F w (P : Outcome PelicanError Answer -> World -> Prop) :
  wpe m Q F w -> (forall a w', Q a w' -> P (Done (f a)) w') -> (forall e w', F e w' -> P (Fail e) w') ->
  P (report f m w).1 (report f m w).2.
Proof. unfold wpe, wp, report. destruct (m w) as [[a|e| |] w']; cbn; auto; done. Qed.

Lemma Sound_reborn e d w : Sound w -> view d = view (db (qm w)) -> Sound (reborn e d w).
Proof.
  intros [HI Hg Hf Hp Hs] Hv. assert (store (reborn e d w) = store w) as HS by (unfold store; cbn; by rewrite Hv).
  assert (idgen (reborn e d w) = idgen w) as HG by (unfold idgen; cbn; by rewrite Hv).
  split; rewrite ?HS, ?HG; auto.
Qed.

Lemma flow_reborn e d w ev w' : view d = view (db (qm w)) -> flow (reborn e d w) ev w' -> flow w ev w'.
Proof.
  intros Hv [G K]. assert (store (reborn e d w) = store w) as HS by (unfold store; cbn; by rewrite Hv).
  assert (idgen (reborn e d w) = idgen w) as HG by (unfold idgen; cbn; by rewrite Hv). rewrite HG in G.
  split; [done|]. intros Hn. destruct (K Hn) as [? Hb ?]. split; [done| |done]. intros q Hq. specialize (Hb q Hq).
  by rewrite HS in Hb.
Qed.

Lemma quiet_flush w e d : flush (db (qm w)) = (Err e, d) -> quiet w (set_db d w).
Proof. intros [Hc Hg]%flush_fault. apply quiet_db; [done|]. by rewrite Hg. Qed.

Lemma fault_step op w :
  Sound w -> admissible op w ->
  exists ev, told op w (attempt_op op w).1 ev /\ flow w ev (attempt_op op w).2.
Proof.
  intros HS Ha. pose (P := fun (o : Outcome PelicanError Answer) w' => exists ev, told op w o ev /\ flow w ev w').
  change (P (attempt_op op w).1 (attempt_op op w).2). destruct op as [q p|q m|q|q t|q t|q|q|e]; rewrite ?attempt_reopen; cbn [attempt_op].
  - destruct Ha as (Hq & Hp & Hs). eapply report_step; [by apply wpe_declare|..]; intros a w' Hf; exists []; by split.
  - destruct Ha as (Hw & Hst & Hr). eapply report_step; [by apply wpe_publish|..].
    + intros [u|] w' Hf; [exists [Accepted q m]|exists []]; by split.
    + intros er w' Hf. unfold publish_faults in Hf.
      assert (flow w [] w' \/ (exists msg, er = Storage msg) /\ flow w [Accepted q m] w') as [Hf'|[He Hf']]
        by (destruct er; try (by left); destruct Hf; eauto).
      * exists []. split; [by left|done].
      * exists [Accepted q m]. split; [right; by split|done].
  - eapply report_step; [by apply wpe_consume|..]; [intros a w' [Hh Hf]|intros a w' Hf]; exists []; by split.
  - eapply report_step; [by apply wpe_ack|..].
    + intros [] w' (m & Hg & Hf). exists [Settled q m]. split; [by exists m|done].
    + intros er w' [Hf|[He (m & Hg & Hf)]].
      * exists []. split; [by left|done].
      * exists [Settled q m]. split; [right; split; [done|by exists m]|done].
  - destruct Ha as (Ht & Hm). eapply report_step; [by apply wpe_nack|..]; intros a w' Hf; exists []; by split.
  - eapply report_step; [by apply wpe_promote|..]; intros a w' Hf; exists []; by split.
  - eapply report_step; [by apply wpe_retention|..]; intros a w' [[ms Hf] _ _ _]; exists (map (Dropped q) ms); (split; [by exists ms|done]).
  - destruct (flush (db (qm w))) as [[[]|msg] d] eqn:Hfl.
    + apply flush_law in Hfl. pose proof (Sound_reborn e d w HS Hfl) as HSd.
      assert (store (reborn e d w) = store w) as HSt by (unfold store; cbn; by rewrite Hfl).
      pose proof (wpe_open_body (reborn e d w) HSd) as Hop. rewrite HSt in Hop. specialize (Hop Ha).
      eapply report_step; [exact Hop|..].
      * intros [] w' Hf. exists []. split; [done|by eapply flow_reborn].
      * intros er w' (q & ms & Hsub & Hf). rewrite HSt in Hsub. exists (map (Accepted q) ms).
        split; [by exists q, ms|by eapply flow_reborn].
    + exists []. split; [exists ""%string, []; split; [apply sublist_nil_l|done]|]. apply flow_quiet; [done|].
      by eapply quiet_flush.
Qed.

(** C15: Input and output errors lose no message: in every run of engine
    operations and of restarts on the flushed database in which any calls of the
    database may fail, with or without having taken effect, at any point of any
    operation and of the recovery, no operation panics, the store stays sound, and
    there is a ledger that agrees with every answer (a publish reported as stored is
    accepted, one that failed may be, what a consumer is handed was ready, only the
    message in flight under an acknowledged tag is settled, and it may be when the
    acknowledgement failed, only retention drops, a recovery that fails may repeat
    messages in flight) by which the messages of every queue add up. *)
Theorem io_errors_lose_nothing w h w' :
  Sound w -> fault_run w h w' ->
  exists tr, truthful w h tr /\ Sound w' /\ max_bytes (qm w') = max_bytes (qm w) /\
    forall q, safe_name q = true ->
      content (abs (store w) q) ++ map strip (accepted q tr) ≡ₚ
      content (abs (store w') q) ++ map strip (removed q tr).
Proof.
  intros HS Hrun. assert (exists tr, truthful w h tr /\ Kept w tr w') as (tr & Ht & [HS' Hb Hm]); [|eauto].
  revert HS. induction Hrun as [w|w op o w1 h w' Ha Hop Hn _ IH]; intros HS.
  - exists []. split; [constructor|]. split; [done|by intros q Hq|done].
  - destruct (fault_step op w HS Ha) as (ev & Hev & Hf). rewrite Hop in Hev, Hf. cbn [fst snd] in *.
    pose proof (proj2 Hf Hn) as HK. destruct (IH (kp_sound _ _ _ HK)) as (tr & Ht & HK').
    exists (ev ++ tr). split; [constructor; [done|by rewrite Hop]|]. by eapply Kept_trans.
Qed.
End FaultRuns.

(** ** A disk that stops working *)

Module Flaky.

(** The contents, how many more calls succeed, and whether a call that reports an
    error takes effect all the same. *)
Record disk := mkFlaky { held : View; left : nat; torn : bool }.

Definition call {A} (f : View -> Result string A * View) (d : disk) : Result string A * disk :=
  match left d with
  | O => (Err "disk failure"%string, if torn d then mkFlaky (f (held d)).2 O true else d)
  | S n => let '(r, v) := f (held d) in (r, mkFlaky v n (torn d))
  end.
Definition query {A} (f : View -> Result string A) (d : disk) : Result string A :=
  match left d with O => Err "disk failure"%string | S _ => f (held d) end.
Definition scan (f : View -> list (bytes * bytes)) (d : disk) : list (Result string (bytes * bytes)) :=
  match left d with O => [Err "disk failure"%string] | S _ => map Ok (f (held d)) end.

#[export] Instance FlakySled : Sled := {|
  db_t := disk;
  open_tree t := call (fun v => (Ok tt, v_open t v));
  contains_key t k := query (fun v => Ok (bool_decide (is_Some (o_get k (tree_of v t)))));
  tree_get t k := query (fun v => Ok (o_get k (tree_of v t)));
  tree_insert t k x := call (fun v => (Ok tt, v_insert t k x v));
  tree_remove t k := call (fun v => (Ok (o_get k (tree_of v t)), v_remove t k v));
  tree_iter t := scan (fun v => tree_of v t);
  tree_range t lo hi := scan (fun v => o_range lo hi (tree_of v t));
  tree_range_incl t lo hi := scan (fun v => o_range_incl lo hi (tree_of v t));
  tree_last t := query (fun v => Ok (last (tree_of v t)));
  tree_len t d := length (tree_of (held d) t);
  generate_id := call (fun v => (Ok (Z.max 0 (v_idgen v)), mkView (v_trees v) (Z.max 0 (v_idgen v) + 1)));
  transaction A b d :=
    match left d with
    | O => (TStorage "disk failure"%string, if torn d then mkFlaky (commit_tx b (held d)).2 O true else d)
    | S n => let '(r, v) := commit_tx b (held d) in (r, mkFlaky v n (torn d))
    end;
  flush := call (fun v => (Ok tt, v));
|}.

#[export] Instance FlakyLaws : SledLaws.
Proof.
  refine {| view := fun d : db_t => held d |}.
  all: cbn; unfold call, query, scan; intros; repeat match goal with d : disk |- _ => destruct d as [? [|?] ?] end;
    cbn in *; simplify_eq; rewrite ?Mem.all_ok_map_Ok in *; simplify_eq; auto.
  all: try (cbn; repeat split; lia).
  all: try match goal with Hm : forall msg, _ <> _ |- _ => by destruct (Hm _ eq_refl) end.
  all: destruct (commit_tx _ _); by simplify_eq.
Defined.

#[export] Instance FlakyFaults : SledFaults.
Proof.
  split; cbn; unfold call, scan, same_contents, holds_now.
  - intros t [v [|n] [|]] e d' [= <- <-]; cbn; [by rewrite contents_open|done].
  - intros t k x [v [|n] [|]] e d' [= <- <-]; cbn; [right|by left]. by rewrite contents_insert.
  - intros t k [v [|n] [|]] e d' [= <- <-]; cbn; [right|by left]. by rewrite contents_remove.
  - intros [v [|n] [|]] e d' [= <- <-]; cbn; [|done]. split; [done|lia].
  - intros A b [v [|n] tr] msg d' E; cbn in *; [|destruct (commit_tx b v) as [r v'] eqn:Ec; simplify_eq;
      pose proof (Mem.commit_tx_not_storage b v msg) as Hr; by rewrite Ec in Hr].
    destruct tr; simplify_eq; cbn; [right|by left]. destruct (commit_tx_contents b v) as [Hc Hg]. rewrite Hc. cbn. by rewrite Hg.
  - intros t [v [|n] tr]; cbn; [apply sublist_nil_l|].
    change (sublist (ok_items (map Ok (tree_of v t))) (look (contents v) t)). by rewrite ok_items_map, look_contents.
  - intros [v [|n] [|]] e d' [= <- <-]; done.
Qed.
End Flaky.

(** ** Witness *)

Module FaultDemo.
Import Demo Flaky.

(** The database of [SysDemo.w_snap] on a disk that serves [n] more calls; the
    writes that then fail take effect all the same. *)
Definition on_disk (n : nat) : @World FlakySled :=
  mkWorld (mkQM (mkFlaky (db (qm SysDemo.w_snap) : View) n true : @db_t FlakySled) (current_bytes (qm SysDemo.w_snap)) (Some 10000)) (mkEnv 0 0).

(** The only policy stored is the one of the queue "orders". *)
Definition orders_policy : bytes := from_option snd [] (head (look (store (on_disk 0)) META_RETENTION_TREE)).

Lemma on_disk_sound n : Sound (on_disk n).
Proof.
  assert (store (on_disk n) = @store Mem.MemSled Mem.MemSledLaws SysDemo.w_snap) as HS by (vm_compute; reflexivity).
  assert (idgen (on_disk n) = @idgen Mem.MemSled Mem.MemSledLaws SysDemo.w_snap) as Hn by (vm_compute; reflexivity).
  destruct SysDemo.w_snap_sys as [HI Hg Hf Hp Hs _].
  split; [rewrite HS, Hn; exact HI|rewrite Hn; exact Hg|rewrite HS; exact Hf| |rewrite HS; exact Hs].
  intros q. assert (look (store (on_disk n)) META_RETENTION_TREE = [(str_bytes "orders", orders_policy)]) as Hl
    by (vm_compute; reflexivity).
  assert (sane_policy (policy_of_bytes (Some orders_policy)) = true) as Hpb by (vm_compute; reflexivity).
  unfold policy. rewrite Hl. cbn [o_get]. case_bool_decide; [exact Hpb|reflexivity].
Qed.

Fixpoint history (ops : list Op) (w : World) : list (Op * Outcome PelicanError Answer) * World :=
  match ops with
  | [] => ([], w)
  | op :: ops' =>
    let '(o, w1) := attempt_op op w in let '(h, w') := history ops' w1 in ((op, o) :: h, w')
  end.

Fixpoint history_ok (ops : list Op) (w : World) : bool :=
  match ops with
  | [] => true
  | op :: ops' => admissible_b op w && (idgen (attempt_op op w).2 <=? u64_lim) && history_ok ops' (attempt_op op w).2
  end.

Lemma history_run ops w : history_ok ops w = true -> fault_run w (history ops w).1 (history ops w).2.
Proof.
  revert w. induction ops as [|op ops IH]; intros w; cbn [history history_ok]; [constructor|].
  rewrite !andb_true_iff, Z.leb_le. intros [[Ha Hn] Hr]. specialize (IH _ Hr).
  destruct (attempt_op op w) as [o w1] eqn:E. cbn [snd] in *. destruct (history ops w1) as [h w']. cbn [fst snd] in *.
  econstructor; [by apply admissible_b_spec|exact E|done|done].
Qed.

(** A delivery; a publish whose last call fails; a restart that finds the disk dead. *)
Definition failing_ops : list Op := [OpConsume "orders"; OpPublish "orders" (keyed 7 "k"); OpReopen (mkEnv 9 0)].

Lemma failing_answers :
  match (history failing_ops (on_disk 7)).1 with
  | [(_, Done (ADelivered (Some _))); (_, Fail (Storage _)); (_, Fail (Storage _))] => True
  | _ => False
  end.
Proof. vm_compute. exact I. Qed.

(** A consumer is told that a queue with ready messages is empty when the
    iterator over it fails. *)
Lemma swallowed_error :
  (attempt_op (OpConsume "orders") (on_disk 2)).1 = Done (ADelivered None) /\
  a_ready (abs (store (on_disk 2)) "orders") <> [].
Proof. split; [vm_compute; reflexivity|]. vm_compute. discriminate. Qed.
End FaultDemo.

Import FaultDemo Flaky Demo.

Lemma io_errors_lose_nothing_witness :
  exists tr, truthful (on_disk 7) (history failing_ops (on_disk 7)).1 tr /\ Sound (history failing_ops (on_disk 7)).2 /\
    content (abs (store (on_disk 7)) "orders") ++ map strip (accepted "orders" tr) ≡ₚ
    content (abs (store (history failing_ops (on_disk 7)).2) "orders") ++ map strip (removed "orders" tr).
Proof.
  destruct (io_errors_lose_nothing (on_disk 7) (history failing_ops (on_disk 7)).1 (history failing_ops (on_disk 7)).2)
    as (tr & Ht & HS & _ & Hq).
  - exact (on_disk_sound 7).
  - apply history_run. vm_compute. reflexivity.
  - exists tr. split; [exact Ht|]. split; [exact HS|]. apply Hq. vm_compute. reflexivity.
Defined.
