(* ===== verification/StateMachine.v ===== *)
(** * StateMachine: the replicated queue operations

    src/pelicanq-raft/src/requests.rs and state_machine.rs.  A log entry carries a
    [QueueOperation]; applying it runs the engine and wraps the result.  Every
    application is a run of [System], so that the engine's guarantees extend to
    the replicated state machine. *)

From Stdlib Require Import ZArith Lia.
From stdpp Require Import prelude gmap strings.
From S2P Require Import Prelude Bytes OrdMap Sled Message Bincode Keys QueueManager Store Spec.
From S2P Require Import Engine Invariant Refinement Maintenance Retention Holdings System Delivery.
From S2P Require Import Snapshot.

(** ** Requests and responses *)

Inductive QueueOperation :=
| DeclareQueue (name : string) (policy : RetentionPolicy)
| Publish (queue : string) (message : Message)
| PublishBatch (queue : string) (messages : list Message)
| Consume (queue : string)
| ConsumeBatch (queue : string) (max : nat)
| Ack (queue : string) (tag : DeliveryTag)
| Nack (queue : string) (tag : DeliveryTag)
| ApplyRetention (queue : string)
| PromoteScheduled (queue : string).

Inductive QueueOperationResponse :=
| RDeclareQueue (r : Result PelicanError unit)
| RPublish (r : Result PelicanError PublishOutcome)
| RPublishBatch (r : Result PelicanError (list PublishOutcome))
| RConsume (r : Result PelicanError (option (DeliveryTag * Message)))
| RConsumeBatch (r : Result PelicanError (list (DeliveryTag * Message)))
| RAck (r : Result PelicanError unit)
| RNack (r : Result PelicanError unit)
| RApplyRetention (r : Result PelicanError nat)
| RPromoteScheduled (r : Result PelicanError nat).

(** [Display] of an operation: never the contents of messages. *)
Definition QueueOperation_display (op : QueueOperation) : string :=
  match op with
  | DeclareQueue name _ => "DeclareQueue(" +:+ name +:+ ")"
  | Publish queue _ => "Publish(" +:+ queue +:+ ")"
  | PublishBatch queue messages =>
    "PublishBatch(" +:+ queue +:+ ", count=" +:+ show (Z.of_nat (length messages)) +:+ ")"
  | Consume queue => "Consume(" +:+ queue +:+ ")"
  | ConsumeBatch queue max => "ConsumeBatch(" +:+ queue +:+ ", max=" +:+ show (Z.of_nat max) +:+ ")"
  | Ack queue tag => "Ack(" +:+ queue +:+ ", " +:+ show (tag_u64 tag) +:+ ")"
  | Nack queue tag => "Nack(" +:+ queue +:+ ", " +:+ show (tag_u64 tag) +:+ ")"
  | ApplyRetention queue => "ApplyRetention(" +:+ queue +:+ ")"
  | PromoteScheduled queue => "PromoteScheduled(" +:+ queue +:+ ")"
  end.

Section StateMachine.
Context `{!Sled, !Bincode, !Environment, !BuildProfile}.

(** [for msg in messages { match qm.publish(..) { .. } }]. *)
Fixpoint publish_batch (queue : string) (messages : list Message) (outcomes : list PublishOutcome) :
    QM (Result PelicanError (list PublishOutcome)) :=
  match messages with
  | [] => ret (Ok outcomes)
  | msg :: rest =>
    let* r := try (publish queue msg) in
    match r with
    | Ok outcome => publish_batch queue rest (outcomes ++ [outcome])
    | Err e => ret (Err e)
    end
  end.

(** [for _ in 0..max { match qm.consume(..) { .. } }]. *)
Fixpoint consume_batch (queue : string) (max : nat) (results : list (DeliveryTag * Message)) :
    QM (Result PelicanError (list (DeliveryTag * Message))) :=
  match max with
  | O => ret (Ok results)
  | S max' =>
    let* r := try (consume queue) in
    match r with
    | Ok (Some delivered) => consume_batch queue max' (results ++ [delivered])
    | Ok None => ret (Ok results)
    | Err e => ret (Err e)
    end
  end.

Definition apply_operation (op : QueueOperation) : QM QueueOperationResponse :=
  match op with
  | DeclareQueue name policy =>
    let* result := try (if bool_decide (policy = default_policy) then declare_queue name
                        else declare_queue_with_retention name policy) in
    ret (RDeclareQueue result)
  | Publish queue message => let* result := try (publish queue message) in ret (RPublish result)
  | PublishBatch queue messages =>
    let* result := publish_batch queue messages [] in ret (RPublishBatch result)
  | Consume queue => let* result := try (consume queue) in ret (RConsume result)
  | ConsumeBatch queue max => let* result := consume_batch queue max [] in ret (RConsumeBatch result)
  | Ack queue tag => let* result := try (ack queue tag) in ret (RAck result)
  | Nack queue tag => let* result := try (nack queue tag) in ret (RNack result)
  | ApplyRetention queue => let* result := try (apply_retention queue) in ret (RApplyRetention result)
  | PromoteScheduled queue => let* result := try (promote_scheduled queue) in ret (RPromoteScheduled result)
  end.
End StateMachine.

(** The response constructor each operation is answered with. *)
Definition answers (op : QueueOperation) (r : QueueOperationResponse) : bool :=
  match op, r with
  | DeclareQueue _ _, RDeclareQueue _ | Publish _ _, RPublish _ | PublishBatch _ _, RPublishBatch _
  | Consume _, RConsume _ | ConsumeBatch _ _, RConsumeBatch _ | Ack _ _, RAck _ | Nack _ _, RNack _
  | ApplyRetention _, RApplyRetention _ | PromoteScheduled _, RPromoteScheduled _ => true
  | _, _ => false
  end.

(** ** Applying an operation is a run of the engine *)

Section Runs.
Context `{!Sled, !SledLaws, !SledReliable, !Bincode, !BincodeLaws,
          !Environment, !EnvironmentLaws, !BuildProfile}.
Implicit Types w : World.

(** The engine calls an operation may make, in order. *)
Definition engine_ops (op : QueueOperation) : list Op :=
  match op with
  | DeclareQueue name policy => [OpDeclare name policy]
  | Publish queue message => [OpPublish queue message]
  | PublishBatch queue messages => map (OpPublish queue) messages
  | Consume queue => [OpConsume queue]
  | ConsumeBatch queue max => repeat (OpConsume queue) max
  | Ack queue tag => [OpAck queue tag]
  | Nack queue tag => [OpNack queue tag]
  | ApplyRetention queue => [OpRetain queue]
  | PromoteScheduled queue => [OpPromote queue]
  end.

(** Every call [ops] makes, run one after the other, is admissible and stays
    within the id space. *)
Fixpoint admissible_run (ops : list Op) w : Prop :=
  match ops with
  | [] => True
  | op :: ops' => admissible op w /\ idgen (run_op op w).2 <= u64_lim /\ admissible_run ops' (run_op op w).2
  end.

Fixpoint admissible_run_b (ops : list Op) w : bool :=
  match ops with
  | [] => true
  | op :: ops' => admissible_b op w && (idgen (run_op op w).2 <=? u64_lim) && admissible_run_b ops' (run_op op w).2
  end.

Lemma admissible_run_b_spec ops w : admissible_run_b ops w = true -> admissible_run ops w.
Proof.
  revert w. induction ops as [|op ops IH]; intros w; cbn [admissible_run_b admissible_run]; [done|].
  rewrite !andb_true_iff, Z.leb_le. intros [[Ha Hn] Hr]. auto using admissible_b_spec.
Qed.

(** No engine call made under the system invariant panics. *)
Definition returned {A} (o : Outcome PelicanError A) : Prop :=
  match o with Done _ | Fail _ => True | _ => False end.

Lemma rejects_returned {A} (op : QM A) q w : rejects op q w -> returned (op w).1.
Proof. unfold rejects. by intros ->. Qed.

Lemma publish_returned q m w : SysInv w -> admissible (OpPublish q m) w -> returned (publish q m w).1.
Proof.
  intros HS (Hw & _ & Hroom). destruct (declared (store w) q) eqn:Hd.
  2: { eapply rejects_returned. by apply require_queue_rejects. }
  destruct (ser_msg_total m Hw) as [v Hv]. assert (stores m v) as Hs by done.
  rewrite (stores_size _ _ Hs) in Hroom.
  pose proof (publish_sim q m v w (sys_inv _ HS) Hd Hs (proj1 (sys_policy _ HS _ Hd)) Hroom) as Hsim.
  unfold wp in Hsim. destruct (publish q m w) as [[o|e| |] w']; try done;
    by destruct Hsim as (_ & _ & []).
Qed.

Lemma consume_returned q w : SysInv w -> returned (consume q w).1.
Proof.
  intros HS. destruct (declared (store w) q) eqn:Hd.
  2: { eapply rejects_returned. by apply require_queue_rejects. }
  pose proof (consume_sim q w (sys_inv _ HS) Hd (sys_gen _ HS)) as (_ & _ & _ & -> & _). done.
Qed.

Lemma ack_returned q t w : SysInv w -> admissible (OpAck q t) w -> returned (ack q t w).1.
Proof.
  intros HS Ht. destruct (declared (store w) q) eqn:Hd.
  2: { eapply rejects_returned. by apply require_queue_rejects. }
  pose proof (ack_sim q t w (sys_inv _ HS) Hd (sys_gen _ HS) Ht) as (_ & _ & Hp).
  destruct (_ !! _); by destruct Hp as (-> & _).
Qed.

Lemma nack_returned q t w : SysInv w -> admissible (OpNack q t) w -> returned (nack q t w).1.
Proof.
  intros HS (Ht & Ha). destruct (declared (store w) q) eqn:Hd.
  2: { eapply rejects_returned. by apply require_queue_rejects. }
  pose proof (nack_sim q t w (sys_inv _ HS) Hd (sys_gen _ HS) Ht Ha) as (_ & _ & _ & Hp).
  destruct (_ !! _); by destruct Hp as (-> & _).
Qed.

Lemma promote_returned q w : SysInv w -> returned (promote_scheduled q w).1.
Proof.
  intros HS. destruct (declared (store w) q) eqn:Hd.
  2: { eapply rejects_returned. by apply require_queue_rejects. }
  pose proof (promote_sim q w (sys_inv _ HS) Hd (sys_gen _ HS)) as (_ & _ & _ & now & _ & -> & _). done.
Qed.

Lemma retention_returned q w :
  SysInv w -> total_bytes (store w) < u64_lim -> returned (apply_retention q w).1.
Proof.
  intros HS Ht. destruct (declared (store w) q) eqn:Hd.
  2: { eapply rejects_returned. by apply require_queue_rejects. }
  pose proof (inv_queue _ _ (sys_inv _ HS) _ Hd) as HQ.
  assert (Forall sane_time (slot (store w) Main q)) as Hst.
  { eapply stamps_sane_time; [exact HQ|apply HS|]. apply HS. by eapply inv_safe; [apply HS|]. }
  pose proof (retention_sim q w (sys_inv _ HS) Hd (sys_gen _ HS) (proj1 (sys_policy _ HS _ Hd)) Hst Ht)
    as (_ & _ & now & k & _ & -> & _). done.
Qed.

Lemma declare_returned q p w : wf_policy p = true -> returned (declare_queue_with_retention q p w).1.
Proof.
  intros Hp. pose proof (declare_sim q p w Hp) as (_ & _ & _ & Hpost).
  destruct (declared (store w) q); by destruct Hpost as (-> & _).
Qed.

(** [try] on a call that returns is a value, in the state the call left. *)
Lemma try_run {A} (m : QM A) w :
  returned (m w).1 -> exists r, try m w = (Done r, (m w).2).
Proof. unfold try, returned. destruct (m w) as [[a|e| |] w']; cbn; try done; eauto. Qed.

(** Whether a batch goes on after a call: a failed publish ends it, and so does a
    consume that fails or finds nothing. *)
Definition goes_on (op : Op) w : bool :=
  match op with
  | OpPublish q m => match (publish q m w).1 with Done _ => true | _ => false end
  | OpConsume q => match (consume q w).1 with Done (Some _) => true | _ => false end
  | _ => true
  end.

(** Engine calls one after the other until one ends the batch, with their ledger. *)
Fixpoint run_until (ops : list Op) w : list Event * World :=
  match ops with
  | [] => ([], w)
  | op :: ops' =>
    let '(ev, w1) := run_op op w in
    if goes_on op w then let '(tr, w') := run_until ops' w1 in (ev ++ tr, w') else (ev, w1)
  end.

Lemma run_until_steps ops w :
  admissible_run ops w -> steps w (run_until ops w).1 (run_until ops w).2.
Proof.
  revert w. induction ops as [|op ops IH]; intros w Ha; cbn [run_until]; [constructor|].
  destruct Ha as (Ha & Hn & Hr). specialize (IH _ Hr). destruct (run_op op w) as [ev w1] eqn:E. cbn [snd] in *.
  destruct (goes_on op w).
  - destruct (run_until ops w1) as [tr w']. by eapply steps_cons.
  - cbn [fst snd]. rewrite <- (app_nil_r ev). eapply steps_cons; eauto. constructor.
Qed.

Lemma run_until_one op w : run_until [op] w = run_op op w.
Proof. cbn [run_until]. destruct (run_op op w). destruct (goes_on op w); by rewrite ?app_nil_r. Qed.

Lemma SysInv_step op w :
  SysInv w -> admissible op w -> idgen (run_op op w).2 <= u64_lim -> SysInv (run_op op w).2.
Proof. intros HS Ha Hn. by apply (ok_inv _ _ _ (run_op_step op w HS Ha Hn)). Qed.

(** What an application guarantees: it returns an answer of the right kind after
    its engine calls. *)
Definition applied (op : QueueOperation) (m : QM QueueOperationResponse) w : Prop :=
  exists r, m w = (Done r, (run_until (engine_ops op) w).2) /\ answers op r = true.

Lemma applied_single {A} op (call : QM A) eop wrap w :
  engine_ops op = [eop] -> (run_op eop w).2 = (call w).2 -> returned (call w).1 ->
  (forall r, answers op (wrap r) = true) ->
  applied op (let* r := try call in ret (wrap r)) w.
Proof.
  intros Heo Hrun Hret Hw. destruct (try_run call w Hret) as [r Hr]. exists (wrap r).
  rewrite Heo, run_until_one, Hrun. split; [|done]. unfold bind. by rewrite Hr.
Qed.

Lemma publish_batch_run q ms acc w :
  SysInv w -> admissible_run (map (OpPublish q) ms) w ->
  exists r, publish_batch q ms acc w = (Done r, (run_until (map (OpPublish q) ms) w).2).
Proof.
  revert acc w. induction ms as [|m ms IH]; intros acc w HS Ha; [by exists (Ok acc)|].
  destruct Ha as (Ha & Hn & Hr). pose proof (SysInv_step _ _ HS Ha Hn) as HS1.
  pose proof (publish_returned q m w HS Ha) as Hret.
  cbn [publish_batch map run_until goes_on]. cbn [run_op] in *. unfold bind at 1, try.
  destruct (publish q m w) as [[o|e| |] w1]; try done; cbn [fst snd] in *; [|by exists (Err e)].
  destruct (IH (acc ++ [o]) w1 HS1 Hr) as (r & Hrun). exists r. rewrite Hrun.
  by destruct (run_until (map (OpPublish q) ms) w1).
Qed.

Lemma consume_batch_run q n acc w :
  SysInv w -> admissible_run (repeat (OpConsume q) n) w ->
  exists r, consume_batch q n acc w = (Done r, (run_until (repeat (OpConsume q) n) w).2).
Proof.
  revert acc w. induction n as [|n IH]; intros acc w HS Ha; [by exists (Ok acc)|].
  destruct Ha as (Ha & Hn & Hr). pose proof (SysInv_step _ _ HS Ha Hn) as HS1.
  pose proof (consume_returned q w HS) as Hret.
  cbn [consume_batch repeat run_until goes_on]. cbn [run_op fst snd] in *. unfold bind at 1, try.
  destruct (consume q w) as [[[d|]|e| |] w1]; try done; cbn [fst snd] in *; [|by exists (Ok acc)|by exists (Err e)].
  destruct (IH (acc ++ [d]) w1 HS1 Hr) as (r & Hrun). exists r. rewrite Hrun.
  by destruct (run_until (repeat (OpConsume q) n) w1).
Qed.

Lemma apply_applied op w : SysInv w -> admissible_run (engine_ops op) w -> applied op (apply_operation op) w.
Proof.
  intros HS Ha. destruct op as [name p|q m|q ms|q|q n|q t|q t|q|q]; cbn [apply_operation].
  - destruct Ha as ((Hq & Hp & Hsane) & _).
    replace (if bool_decide (p = default_policy) then declare_queue name else declare_queue_with_retention name p)
      with (declare_queue_with_retention name p)
      by (case_bool_decide; [by subst|done]).
    by eapply applied_single; [..|apply declare_returned|].
  - destruct Ha as (Ha & _). eapply applied_single; [done| |by apply publish_returned|done].
    cbn. by destruct (publish q m w).
  - destruct (publish_batch_run q ms [] w HS Ha) as (r & Hrun). exists (RPublishBatch r).
    unfold bind. by rewrite Hrun.
  - by eapply applied_single; [..|apply consume_returned|].
  - destruct (consume_batch_run q n [] w HS Ha) as (r & Hrun). exists (RConsumeBatch r).
    unfold bind. by rewrite Hrun.
  - destruct Ha as (Ha & _). eapply applied_single; [done| |by apply ack_returned|done].
    cbn. by destruct (ack q t w).
  - destruct Ha as (Ha & _). by eapply applied_single; [..|apply nack_returned|].
  - destruct Ha as (Ha & _). by eapply applied_single; [..|apply retention_returned|].
  - by eapply applied_single; [..|apply promote_returned|].
Qed.

(** ** The batch consume *)

Lemma consume_batch_take q n acc w :
  Inv (store w) (idgen w) -> declared (store w) q = true -> idgen w <= u64_lim ->
  exists w', consume_batch q n acc w =
      (Done (Ok (acc ++ map (fun e => (mkTag e.1, e.2)) (take n (a_ready (abs (store w) q))))), w') /\
    a_ready (abs (store w') q) = drop n (a_ready (abs (store w) q)).
Proof.
  revert acc w. induction n as [|n IH]; intros acc w HI Hd Hn.
  { exists w. cbn. by rewrite app_nil_r. }
  pose proof (consume_sim q w HI Hd Hn) as Hsim. unfold wp in Hsim.
  cbn [consume_batch]. unfold bind at 1, try.
  destruct (consume q w) as [o w1]. cbn [fst snd] in Hsim. destruct Hsim as (Hg & _ & _ & -> & HE).
  destruct (a_ready (abs (store w) q)) as [|e l] eqn:E.
  - assert (a_consume (abs (store w) q) = (None, abs (store w) q)) as Ha by (unfold a_consume; by rewrite E).
    rewrite Ha in *. cbn [fst snd fmap option_fmap option_map] in *. exists w1.
    pose proof (eff_abs _ _ _ _ HE) as Hab. rewrite Hab, E. cbn [take drop map]. by rewrite app_nil_r.
  - assert (a_consume (abs (store w) q) =
      (Some e, mkAQ l (<[e.1 := e.2]> (a_inflight (abs (store w) q))) (a_dead (abs (store w) q))
         (a_sched (abs (store w) q)))) as Ha by (unfold a_consume; by rewrite E).
    rewrite Ha in *. cbn [fst snd fmap option_fmap option_map] in *.
    assert (a_ready (abs (store w1) q) = l) as Hl by (by rewrite (eff_abs _ _ _ _ HE)).
    destruct (IH (acc ++ [(mkTag e.1, e.2)]) w1) as (w' & Hrun & Hr);
      rewrite ?(eff_declared _ _ _ _ HE); auto; [apply HE|lia|].
    exists w'. rewrite Hl in *. rewrite Hrun. cbn [take map drop]. by rewrite <- app_assoc.
Qed.
End Runs.
