(* ===== verification/RaftStore.v ===== *)
(** * RaftStore: the persistent Raft log and the replicated state machine

    src/pelicanq-raft/src/storage.rs and the snapshot functions of
    state_machine.rs.  The log lives in its own database, in a tree "log" keyed by
    the big-endian index and a tree "meta"; the state machine is the queue engine
    of [QueueManager].  openraft's types and serde_json are parameters. *)

From Stdlib Require Import ZArith Lia.
From stdpp Require Import prelude gmap strings pretty.
From S2P Require Import Prelude Bytes OrdMap Sled Message Bincode Keys QueueManager Snapshot.
From S2P Require Import StateMachine.

(** ** openraft and serde_json *)

(** The types of openraft whose contents the store does not look at. *)
Class RaftTypes := {
  leader_id : Type;
  Vote : Type;
  Membership : Type;
  leader_display : leader_id -> string;
  default_membership : Membership;
}.

(** [serde_json::to_vec] and [serde_json::from_slice] at a type; an error is the
    text its [Display] prints. *)
Class Json (A : Type) := {
  to_vec : A -> Result string bytes;
  from_slice : bytes -> Result string A;
}.

(** A value that serde_json writes and reads back. *)
Definition json_ok `{!Json A} (a : A) : Prop := exists b, to_vec a = Ok b /\ from_slice b = Ok a.

Section Types.
Context `{!RaftTypes}.

Record LogId := mkLogId { leader : leader_id; index : Z }.

Inductive EntryPayload :=
| Blank
| Normal (op : QueueOperation)
| MembershipChange (mem : Membership).

Record Entry := mkEntry { log_id : LogId; payload : EntryPayload }.

Record StoredMembership := mkStored { sm_log_id : option LogId; sm_membership : Membership }.

(** [StoredMembership::default()]. *)
Definition default_stored : StoredMembership := mkStored None default_membership.

Record SnapshotMeta := mkMeta {
  last_log_id : option LogId;
  last_membership : StoredMembership;
  snapshot_id : string;
}.

Record StoredSnapshot := mkSnap { meta : SnapshotMeta; data : bytes }.
Record LogState := mkLogState { last_purged_log_id : option LogId; ls_last_log_id : option LogId }.
End Types.

(** The verb of a [StorageError]; its subject is always the state machine. *)
Inductive ErrorVerb := Read | Write.
Record StorageError := mkSE { verb : ErrorVerb; message : string }.

(** The bounds of a range of log indices. *)
Inductive Bound := Included (i : Z) | Excluded (i : Z) | Unbounded.

(** [be64]. *)
Definition be64 (i : Z) : bytes := be_bytes 8 i.

Definition LOG_TREE : string := "log".
Definition META_TREE : string := "meta".

Section RaftStore.
Context `{!Sled, !Bincode, !Environment, !BuildProfile, !RaftTypes}.
Context `{!Json Entry, !Json LogId, !Json (option LogId), !Json Vote, !Json StoredMembership,
          !Json Z, !Json QueueManagerSnapshot}.

(** The Raft database (the tree handles are the constant names above), the engine
    with its environment, and the snapshot built or received last. *)
Record RaftStoreInner := mkInner {
  r_db : db_t;
  state_machine : World;
  current_snapshot : option StoredSnapshot;
}.

Abbreviation RM := (M RaftStoreInner StorageError).

Definition set_r_db (d : db_t) (s : RaftStoreInner) : RaftStoreInner :=
  mkInner d (state_machine s) (current_snapshot s).
Definition set_state_machine (w : World) (s : RaftStoreInner) : RaftStoreInner :=
  mkInner (r_db s) w (current_snapshot s).
Definition set_current_snapshot (x : option StoredSnapshot) (s : RaftStoreInner) : RaftStoreInner :=
  mkInner (r_db s) (state_machine s) x.

(** [.map_err(|e| to_storage_err(ErrorSubject::StateMachine, verb, e))?]. *)
Definition to_storage_err {A} (v : ErrorVerb) (r : Result string A) : RM A :=
  match r with Ok a => ret a | Err e => fail (mkSE v e) end.

Definition r_read {A} (v : ErrorVerb) (f : db_t -> Result string A) : RM A :=
  fun s => to_storage_err v (f (r_db s)) s.
Definition r_update {A} (v : ErrorVerb) (f : db_t -> Result string A * db_t) : RM A :=
  fun s => let '(r, d) := f (r_db s) in to_storage_err v r (set_r_db d s).

(** A call of the engine whose error becomes a storage error. *)
Definition with_engine {A} (v : ErrorVerb) (m : QM A) : RM A :=
  fun s =>
    let '(o, w) := m (state_machine s) in
    (match o with
     | Done a => Done a
     | Fail e => Fail (mkSE v (PelicanError_display e))
     | Panic => Panic
     | OutOfFuel => OutOfFuel
     end, set_state_machine w s).

(** ** Metadata *)

Definition meta_set `{!Json T} (key : string) (value : T) : RM unit :=
  let* data := to_storage_err Write (to_vec value) in
  r_update Write (tree_insert META_TREE (str_bytes key) data) ;;;
  r_update Write flush.

Definition meta_get_single (T : Type) `{!Json T} (key : string) : RM (option T) :=
  let* found := r_read Read (tree_get META_TREE (str_bytes key)) in
  match found with
  | Some val => let* t := to_storage_err Read (from_slice val) in ret (Some t)
  | None => ret None
  end.

Definition save_vote (v : Vote) : RM unit := meta_set "vote" v.
Definition read_vote : RM (option Vote) := meta_get_single Vote "vote".

(** ** The log *)

Definition range_start (b : Bound) : Z :=
  match b with Included i => i | Excluded i => saturating_add_u64 i 1 | Unbounded => 0 end.
Definition range_end (b : Bound) : Z :=
  match b with Included i => saturating_add_u64 i 1 | Excluded i => i | Unbounded => u64_lim - 1 end.

Definition try_get_log_entries (lo hi : Bound) : RM (list Entry) :=
  let start_u64 := range_start lo in
  let end_u64 := range_end hi in
  if end_u64 <=? start_u64 then ret [] else
  let* items := gets (fun s => tree_range LOG_TREE (be64 start_u64) (be64 end_u64) (r_db s)) in
  for_fold items [] (fun entries result =>
    let* kv := to_storage_err Read result in
    let* entry := to_storage_err Read (from_slice kv.2) in
    ret (entries ++ [entry])).

Definition get_log_state : RM LogState :=
  let* last_purged := meta_get_single LogId "last_purged" in
  let* last := r_read Read (tree_last LOG_TREE) in
  let* last_id :=
    match last with
    | Some kv => let* entry := to_storage_err Read (from_slice kv.2) in ret (Some (log_id entry))
    | None => ret last_purged
    end in
  ret (mkLogState last_purged last_id).

Definition append_to_log (entries : list Entry) : RM unit :=
  for_each entries (fun entry =>
    let* value := to_storage_err Write (to_vec entry) in
    r_update Write (tree_insert LOG_TREE (be64 (index (log_id entry))) value)) ;;;
  r_update Write flush.

(** [.keys().collect::<Result<Vec<_>, _>>()]: the first error, or all keys. *)
Fixpoint collect_keys (items : list (Result string (bytes * bytes))) : Result string (list bytes) :=
  match items with
  | [] => Ok []
  | Ok kv :: rest => match collect_keys rest with Ok ks => Ok (kv.1 :: ks) | Err e => Err e end
  | Err e :: _ => Err e
  end.

(** The entries whose keys lie between two indices are removed one by one. *)
Definition remove_range (lo hi : Z) : RM unit :=
  let* items := gets (fun s => tree_range_incl LOG_TREE (be64 lo) (be64 hi) (r_db s)) in
  let* keys := to_storage_err Write (collect_keys items) in
  for_each keys (fun key => r_update Write (tree_remove LOG_TREE key) ;;; ret tt).

Definition delete_conflict_logs_since (id : LogId) : RM unit :=
  remove_range (index id) (u64_lim - 1) ;;;
  r_update Write flush.

Definition purge_logs_upto (id : LogId) : RM unit :=
  remove_range 0 (index id) ;;;
  meta_set "last_purged" id ;;;
  r_update Write flush.

(** ** The state machine *)

Definition last_applied_state : RM (option LogId * StoredMembership) :=
  let* last_applied := meta_get_single LogId "last_applied" in
  let* last_membership := meta_get_single StoredMembership "last_membership" in
  ret (last_applied, default default_stored last_membership).

Definition apply_entry (entry : Entry) : RM QueueOperationResponse :=
  let* resp :=
    match payload entry with
    | Blank => ret (RAck (Ok tt))
    | Normal op => with_engine Write (apply_operation op)
    | MembershipChange mem =>
      meta_set "last_membership" (mkStored (Some (log_id entry)) mem) ;;;
      ret (RAck (Ok tt))
    end in
  meta_set "last_applied" (log_id entry) ;;;
  ret resp.

Definition apply_to_state_machine (entries : list Entry) : RM (list QueueOperationResponse) :=
  for_fold entries [] (fun resps entry => let* r := apply_entry entry in ret (resps ++ [r])).

(** ** Snapshots *)

(** [state_machine::build_snapshot] and [state_machine::install_snapshot]. *)
Definition sm_build_snapshot : QM bytes :=
  let* snapshot := export_snapshot in
  serialization_err (to_vec snapshot).

Definition sm_install_snapshot (data : bytes) : QM unit :=
  let* snapshot := serialization_err (from_slice data) in
  restore_from_snapshot snapshot.

(** The counter stored under "snapshot_idx", plus one. *)
Definition next_snapshot_idx : RM Z :=
  let* found := r_read Read (tree_get META_TREE (str_bytes "snapshot_idx")) in
  let* old := match found with Some v => or_panic (key_prefix_u64 v) | None => ret 0 end in
  or_panic (arith_u64 (old + 1)).

Definition snapshot_name (last_applied : option LogId) (idx : Z) : string :=
  match last_applied with
  | Some last => leader_display (leader last) +:+ "-" +:+ show (index last) +:+ "-" +:+ show idx
  | None => "--" +:+ show idx
  end.

Definition build_snapshot : RM (SnapshotMeta * bytes) :=
  let* data := with_engine Write sm_build_snapshot in
  let* last_applied := meta_get_single LogId "last_applied" in
  let* membership := meta_get_single StoredMembership "last_membership" in
  let last_membership := default default_stored membership in
  let* snapshot_idx := next_snapshot_idx in
  meta_set "snapshot_idx" snapshot_idx ;;;
  let meta := mkMeta last_applied last_membership (snapshot_name last_applied snapshot_idx) in
  modify (set_current_snapshot (Some (mkSnap meta data))) ;;;
  ret (meta, data).

Definition install_snapshot (m : SnapshotMeta) (data : bytes) : RM unit :=
  with_engine Write (sm_install_snapshot data) ;;;
  meta_set "last_applied" (last_log_id m) ;;;
  meta_set "last_membership" (last_membership m) ;;;
  modify (set_current_snapshot (Some (mkSnap m data))) ;;;
  r_update Write flush.

Definition get_current_snapshot : RM (option (SnapshotMeta * bytes)) :=
  gets (fun s => (fun x => (meta x, data x)) <$> current_snapshot s).

(** ** Opening a store *)

(** [db.open_tree(name).map_err(PelicanError::Storage)?]. *)
Definition open_raft_tree (name : string) (d : db_t) : Outcome PelicanError db_t :=
  match open_tree name d with
  | (Ok _, d') => Done d'
  | (Err e, _) => Fail (Storage e)
  end.

(** [RaftStore::open], given what the two [sled::open] calls return: the one of
    the engine, in the data directory, and the one of the log, in its "raft"
    subdirectory. *)
Definition open_store (opened raft_opened : Result string db_t) (e : Env) :
    Outcome PelicanError RaftStoreInner :=
  match open opened None e with
  | (Done _, Some w) =>
    match raft_opened with
    | Err msg => Fail (Storage msg)
    | Ok d0 =>
      match open_raft_tree LOG_TREE d0 with
      | Done d1 =>
        match open_raft_tree META_TREE d1 with
        | Done d2 => Done (mkInner d2 w None)
        | Fail e => Fail e | Panic => Panic | OutOfFuel => OutOfFuel
        end
      | Fail e => Fail e | Panic => Panic | OutOfFuel => OutOfFuel
      end
    end
  | (Fail e, _) => Fail e
  | (OutOfFuel, _) => OutOfFuel
  | (Panic, _) | (Done _, None) => Panic
  end.
End RaftStore.

Abbreviation RM := (M RaftStoreInner StorageError).
