(* ===== verification/RaftLog.v ===== *)
(** * RaftLog: the Raft store implements an indexed log

    The log tree of [RaftStore] represents a list of entries in ascending index
    order; the storage operations are the list operations Raft expects of them. *)

From Stdlib Require Import ZArith Lia Sorted.
From stdpp Require Import prelude gmap strings sorting.
From S2P Require Import Prelude Bytes OrdMap Sled Message Bincode Keys QueueManager Store Spec.
From S2P Require Import Engine Maintenance Retention Snapshot StateMachine RaftStore.

Section RaftLog.
Context `{!Sled, !SledLaws, !SledReliable, !Bincode, !Environment, !BuildProfile, !RaftTypes}.
Context `{!Json Entry, !Json LogId, !Json (option LogId), !Json Vote, !Json StoredMembership,
          !Json Z, !Json QueueManagerSnapshot}.
Implicit Types s : RaftStoreInner.

(** ** The abstract log *)

Definition idx (e : Entry) : Z := index (log_id e).

(** The logical contents of the Raft database. *)
Definition r_store s : store_t := contents (view (r_db s)).

Definition log_tree s : tree := look (r_store s) LOG_TREE.
Definition meta_tree s : tree := look (r_store s) META_TREE.

Definition dec_entry (kv : bytes * bytes) : option Entry := result_opt (from_slice kv.2).

(** The entries of the log in key order. *)
Definition log_of s : list Entry := omap dec_entry (log_tree s).

(** Entries are filed under their own index and can be read back. *)
Definition filed (kv : bytes * bytes) : Prop :=
  exists e, kv.1 = be64 (idx e) /\ from_slice kv.2 = Ok e /\ 0 <= idx e < u64_lim.

Record LogInv s : Prop := {
  li_sorted : c_sorted (r_store s);
  li_filed : Forall filed (log_tree s);
}.

(** Filing an entry: it replaces the entry with the same index. *)
Fixpoint log_put (e : Entry) (l : list Entry) : list Entry :=
  match l with
  | [] => [e]
  | x :: l' =>
    match idx e ?= idx x with
    | Lt => e :: l
    | Eq => e :: l'
    | Gt => x :: log_put e l'
    end
  end.

(** ** Rules for the Raft database *)

Lemma wp_r_insert v t k x (R : Outcome StorageError unit -> RaftStoreInner -> Prop) s :
  (forall d, contents (view d) = c_insert t k x (r_store s) -> R (Done tt) (set_r_db d s)) ->
  wp (r_update v (tree_insert t k x)) R s.
Proof.
  intros HR. unfold wp, r_update. destruct (tree_insert_rel t k x (r_db s)) as [d Hd].
  rewrite Hd. cbn. apply tree_insert_law in Hd. apply HR. rewrite Hd. apply contents_insert.
Qed.

Lemma wp_r_remove v t k (R : Outcome StorageError (option bytes) -> RaftStoreInner -> Prop) s :
  (forall d r, contents (view d) = c_remove t k (r_store s) -> R (Done r) (set_r_db d s)) ->
  wp (r_update v (tree_remove t k)) R s.
Proof.
  intros HR. unfold wp, r_update. destruct (tree_remove_rel t k (r_db s)) as (r & d & Hd).
  rewrite Hd. cbn. apply tree_remove_law in Hd as [_ Hd]. apply HR. rewrite Hd. apply contents_remove.
Qed.

Lemma wp_r_flush v (R : Outcome StorageError unit -> RaftStoreInner -> Prop) s :
  (forall d, contents (view d) = r_store s -> R (Done tt) (set_r_db d s)) -> wp (r_update v flush) R s.
Proof.
  intros HR. unfold wp, r_update. destruct (flush_rel (r_db s)) as [d Hd].
  rewrite Hd. cbn. apply flush_law in Hd. apply HR. by rewrite Hd.
Qed.

Lemma wp_r_get v t k (R : Outcome StorageError (option bytes) -> RaftStoreInner -> Prop) s :
  R (Done (o_get k (look (r_store s) t))) s -> wp (r_read v (tree_get t k)) R s.
Proof.
  intros HR. unfold wp, r_read. destruct (tree_get_rel t k (r_db s)) as [b Hb].
  rewrite Hb. cbn. rewrite (tree_get_law _ _ _ _ Hb), <- look_contents. exact HR.
Qed.

Lemma wp_r_last v t (R : Outcome StorageError (option (bytes * bytes)) -> RaftStoreInner -> Prop) s :
  R (Done (last (look (r_store s) t))) s -> wp (r_read v (tree_last t)) R s.
Proof.
  intros HR. unfold wp, r_read. destruct (tree_last_rel t (r_db s)) as [b Hb].
  rewrite Hb. cbn. rewrite (tree_last_law _ _ _ Hb), <- look_contents. exact HR.
Qed.

Lemma range_ok t lo hi d : tree_range t lo hi d = map Ok (o_range lo hi (look (contents (view d)) t)).
Proof.
  destruct (tree_range_rel t lo hi d) as [l Hl].
  rewrite look_contents, <- (tree_range_law _ _ _ _ _ Hl). by apply all_ok_Ok.
Qed.

Lemma range_incl_ok t lo hi d :
  tree_range_incl t lo hi d = map Ok (o_range_incl lo hi (look (contents (view d)) t)).
Proof.
  destruct (tree_range_incl_rel t lo hi d) as [l Hl].
  rewrite look_contents, <- (tree_range_incl_law _ _ _ _ _ Hl). by apply all_ok_Ok.
Qed.

(** ** Metadata *)

(** Only the metadata under [key] changed, to [x]. *)
Definition meta_written (key : string) (x : bytes) s s' : Prop :=
  r_store s' = c_insert META_TREE (str_bytes key) x (r_store s) /\
  state_machine s' = state_machine s /\ current_snapshot s' = current_snapshot s.

Lemma wp_meta_set `{!Json T} key (a : T) x (R : Outcome StorageError unit -> RaftStoreInner -> Prop) s :
  to_vec a = Ok x -> (forall s', meta_written key x s s' -> R (Done tt) s') -> wp (meta_set key a) R s.
Proof.
  intros Hx HR. unfold meta_set. rewrite Hx. cbn [to_storage_err]. apply wp_bind, wp_ret.
  apply wp_bind, wp_r_insert. intros d Hd. apply wp_r_flush. intros d' Hd'.
  apply HR. unfold meta_written, r_store in *. cbn in *. by rewrite Hd'.
Qed.

Lemma wp_meta_get (T : Type) `{!Json T} key (R : Outcome StorageError (option T) -> RaftStoreInner -> Prop) s :
  match o_get (str_bytes key) (meta_tree s) with
  | Some x => match from_slice x with
              | Ok a => R (Done (Some a)) s
              | Err e => R (Fail (mkSE Read e)) s
              end
  | None => R (Done None) s
  end -> wp (meta_get_single T key) R s.
Proof.
  intros HR. unfold meta_get_single. apply wp_bind, wp_r_get. unfold meta_tree in HR.
  destruct (o_get _ _) as [x|]; [|by apply wp_ret]. apply wp_bind.
  destruct (from_slice x); cbn [to_storage_err]; [apply wp_ret; by apply wp_ret|by apply wp_fail].
Qed.

Lemma meta_written_get key x s s' : meta_written key x s s' -> o_get (str_bytes key) (meta_tree s') = Some x.
Proof. intros (HS & _). unfold meta_tree. rewrite HS, look_c_insert. apply o_get_insert. Qed.

Lemma meta_written_ne key x s s' key' :
  meta_written key x s s' -> key' <> key ->
  o_get (str_bytes key') (meta_tree s') = o_get (str_bytes key') (meta_tree s).
Proof.
  intros (HS & _) Hne. unfold meta_tree. rewrite HS, look_c_insert.
  apply o_get_insert_ne. intros ?%str_bytes_inj. done.
Qed.

Lemma meta_written_log key x s s' : meta_written key x s s' -> log_tree s' = log_tree s.
Proof. intros (HS & _). unfold log_tree. rewrite HS. by apply look_c_insert_ne. Qed.

Lemma meta_written_inv key x s s' : meta_written key x s s' -> LogInv s -> LogInv s'.
Proof.
  intros Hw [Hs Hf]. split; [|by rewrite (meta_written_log _ _ _ _ Hw)].
  destruct Hw as (-> & _). auto with ord.
Qed.

(** ** Keys and indices *)

Lemma be64_cmp i j : 0 <= i < u64_lim -> 0 <= j < u64_lim -> lex_cmp (be64 i) (be64 j) = (i ?= j).
Proof. intros Hi Hj. unfold be64. rewrite lex_cmp_be_bytes, pow8, !Z.mod_small; done. Qed.

Lemma be64_lt i j : 0 <= i < u64_lim -> 0 <= j < u64_lim -> lex_lt (be64 i) (be64 j) <-> i < j.
Proof. intros Hi Hj. unfold lex_lt. by rewrite be64_cmp. Qed.

Lemma filed_dec kv : filed kv -> exists e, dec_entry kv = Some e /\ kv.1 = be64 (idx e) /\ 0 <= idx e < u64_lim.
Proof. intros (e & Hk & Hv & He). exists e. unfold dec_entry. by rewrite Hv. Qed.

Lemma dec_insert e v t :
  Forall filed t -> from_slice v = Ok e -> 0 <= idx e < u64_lim ->
  omap dec_entry (o_insert (be64 (idx e)) v t) = log_put e (omap dec_entry t).
Proof.
  intros Ht Hv He. assert (dec_entry (be64 (idx e), v) = Some e) as Hd by (unfold dec_entry; cbn; by rewrite Hv).
  induction Ht as [|[k x] t Hkv Ht IH]; cbn [o_insert omap list_omap]; [by rewrite Hd|].
  destruct (filed_dec _ Hkv) as (e' & Hd' & Hk & He'). cbn [fst] in Hk. subst k.
  rewrite be64_cmp, Hd' by done. cbn [log_put].
  destruct (idx e ?= idx e'); cbn [omap list_omap]; rewrite ?Hd, ?Hd'; try done. f_equal. exact IH.
Qed.

(** Selecting entries by key is selecting them by index. *)
Lemma dec_filter (f : bytes * bytes -> bool) (g : Entry -> bool) t :
  Forall filed t -> (forall kv e, filed kv -> dec_entry kv = Some e -> f kv = g e) ->
  omap dec_entry (List.filter f t) = List.filter g (omap dec_entry t).
Proof.
  intros Ht Hfg. induction Ht as [|kv t Hkv Ht IH]; cbn; [done|].
  destruct (filed_dec _ Hkv) as (e & Hd & _). rewrite Hd. cbn. rewrite (Hfg kv e Hkv Hd).
  destruct (g e); cbn; [rewrite Hd; cbn; by rewrite <- IH|exact IH].
Qed.

Lemma filter_bool {A} (P : A -> Prop) `{forall x, Decision (P x)} l :
  filter P l = List.filter (fun x => bool_decide (P x)) l.
Proof.
  induction l as [|x l IH]; [done|]. rewrite filter_cons. cbn [List.filter].
  destruct (decide (P x)) as [Hp|Hp].
  - rewrite bool_decide_true by done. by rewrite IH.
  - rewrite bool_decide_false by done. by rewrite IH.
Qed.

Definition in_range (lo hi : Z) (e : Entry) : bool := (lo <=? idx e) && (idx e <? hi).
Definition in_range_incl (lo hi : Z) (e : Entry) : bool := (lo <=? idx e) && (idx e <=? hi).

Lemma filed_idx kv e : filed kv -> dec_entry kv = Some e -> kv.1 = be64 (idx e) /\ 0 <= idx e < u64_lim.
Proof. intros Hf Hd. destruct (filed_dec _ Hf) as (e' & Hd' & ? & ?). by simplify_eq. Qed.

Lemma dec_range lo hi t :
  Forall filed t -> 0 <= lo < u64_lim -> 0 <= hi < u64_lim ->
  omap dec_entry (o_range (be64 lo) (be64 hi) t) = List.filter (in_range lo hi) (omap dec_entry t).
Proof.
  intros Ht Hlo Hhi. unfold o_range. rewrite filter_bool. apply dec_filter; [done|].
  intros kv e Hf Hd. destruct (filed_idx _ _ Hf Hd) as [-> He]. apply eq_true_iff_eq.
  rewrite bool_decide_eq_true, !be64_lt by done. unfold in_range.
  rewrite andb_true_iff, Z.leb_le, Z.ltb_lt. lia.
Qed.

(** ** Appending and reading *)

(** The entry can be written to the log. *)
Definition loggable (e : Entry) : Prop := json_ok e /\ 0 <= idx e < u64_lim.

(** Only the log tree changed; it now represents [l]. *)
Definition log_written (l : list Entry) s s' : Prop :=
  LogInv s' /\ log_of s' = l /\ meta_tree s' = meta_tree s /\
  state_machine s' = state_machine s /\ current_snapshot s' = current_snapshot s.

Lemma log_flush v l s s0 :
  log_written l s0 s -> wp (r_update v flush) (returns (fun _ => log_written l s0)) s.
Proof.
  intros ([Hs Hf] & Hl & Hm & Hsm & Hc). apply wp_r_flush. intros d Hd.
  assert (r_store (set_r_db d s) = r_store s) as HS by (unfold r_store in *; cbn; by rewrite Hd).
  assert (log_tree (set_r_db d s) = log_tree s) as HT by (unfold log_tree; by rewrite HS).
  cbn. split_and!; auto.
  - split; [by rewrite HS|by rewrite HT].
  - unfold log_of. by rewrite HT.
  - unfold meta_tree in *. by rewrite HS.
Qed.

Lemma append_loop es s :
  LogInv s -> Forall loggable es ->
  wp (for_each es (fun entry =>
    let* value := to_storage_err Write (to_vec entry) in
    r_update Write (tree_insert LOG_TREE (be64 (index (log_id entry))) value)))
    (returns (fun _ => log_written (foldl (fun l e => log_put e l) (log_of s) es) s)) s.
Proof.
  intros HI Hall. revert s HI. induction Hall as [|e es [(x & Hx & Hv) He] Hall IH]; intros s HI.
  { apply wp_ret. by split_and!. }
  cbn [for_each]. rewrite Hx. cbn [to_storage_err]. apply wp_bind, wp_bind, wp_ret, wp_r_insert.
  intros d Hd. set (s1 := set_r_db d s). change (index (log_id e)) with (idx e) in Hd.
  assert (log_tree s1 = o_insert (be64 (idx e)) x (log_tree s)) as HT.
  { unfold log_tree, r_store, s1. cbn. rewrite Hd. apply look_c_insert. }
  assert (LogInv s1) as HI1.
  { split; [unfold r_store, s1; cbn; rewrite Hd; apply c_sorted_insert, HI|].
    rewrite HT. apply Forall_o_insert; [by exists e|apply HI]. }
  assert (meta_tree s1 = meta_tree s) as HM.
  { unfold meta_tree, r_store, s1. cbn. rewrite Hd. by apply look_c_insert_ne. }
  eapply wp_mono; [by apply IH|]. intros [[]| | |] s2 Hp; try done.
  destruct Hp as (HI2 & Hl & HM2 & Hsm & Hc). cbn [foldl]. split_and!; auto; [|congruence].
  rewrite Hl. f_equal. unfold log_of. rewrite HT. apply dec_insert; auto. apply HI.
Qed.

Lemma append_sim es s :
  LogInv s -> Forall loggable es ->
  wp (append_to_log es) (returns (fun _ => log_written (foldl (fun l e => log_put e l) (log_of s) es) s)) s.
Proof.
  intros HI Hall. unfold append_to_log. eapply wp_bind_done; [by apply append_loop|].
  intros [] s1 Hw. by apply log_flush.
Qed.

Lemma read_loop t acc (s : RaftStoreInner) :
  Forall filed t ->
  wp (for_fold (map Ok t) acc (fun entries result =>
    let* kv := to_storage_err Read result in
    let* entry := to_storage_err Read (from_slice kv.2) in
    ret (entries ++ [entry])))
    (returns (fun l s' => l = acc ++ omap dec_entry t /\ s' = s)) s.
Proof.
  intros Ht. revert acc. induction Ht as [|kv t (e & Hk & Hv & He) Ht IH]; intros acc; cbn [map for_fold].
  { apply wp_ret. cbn. by rewrite app_nil_r. }
  cbn [to_storage_err]. apply wp_bind, wp_bind, wp_ret, wp_bind. rewrite Hv. apply wp_ret, wp_ret.
  eapply wp_mono; [apply IH|]. intros [l| | |] s' Hp; try done. destruct Hp as [-> ->]. cbn.
  unfold dec_entry at 2. rewrite Hv. cbn. by rewrite <- app_assoc.
Qed.

Definition u64_bound (b : Bound) : Prop :=
  match b with Included i | Excluded i => 0 <= i < u64_lim | Unbounded => True end.

Lemma range_bounds lo hi :
  u64_bound lo -> u64_bound hi -> 0 <= range_start lo < u64_lim /\ 0 <= range_end hi < u64_lim.
Proof. destruct lo, hi; cbn; unfold saturating_add_u64; lia. Qed.

Lemma read_sim lo hi s :
  LogInv s -> u64_bound lo -> u64_bound hi ->
  wp (try_get_log_entries lo hi) (returns (fun l s' => s' = s /\
    l = List.filter (in_range (range_start lo) (range_end hi)) (log_of s))) s.
Proof.
  intros HI Hlo Hhi. destruct (range_bounds lo hi Hlo Hhi) as [Hs He]. unfold try_get_log_entries.
  destruct (range_end hi <=? range_start lo) eqn:E.
  - apply Z.leb_le in E. apply wp_ret. cbn. split; [done|]. symmetry.
    induction (log_of s) as [|e l IH]; cbn; [done|].
    replace (in_range (range_start lo) (range_end hi) e) with false; [done|].
    symmetry. unfold in_range. apply not_true_iff_false. rewrite andb_true_iff, Z.leb_le, Z.ltb_lt. lia.
  - apply wp_bind, wp_gets. rewrite range_ok. change (contents (view (r_db s))) with (r_store s).
    eapply wp_mono; [apply read_loop|].
    + apply Forall_forall. intros kv Hin. apply list_elem_of_filter in Hin as [_ Hin].
      pose proof (li_filed _ HI) as Hf. rewrite Forall_forall in Hf. auto.
    + intros [l| | |] s' Hp; try done. destruct Hp as [-> ->]. cbn. split; [done|].
      apply dec_range; auto. apply HI.
Qed.

Lemma log_put_end e l : Forall (fun x => idx x < idx e) l -> log_put e l = l ++ [e].
Proof.
  induction 1 as [|x l Hx Hl IH]; cbn; [done|].
  rewrite (proj2 (Z.compare_gt_iff _ _)) by lia. by rewrite IH.
Qed.

(** Ascending entries beyond the end are appended. *)
Lemma log_put_all es l :
  StronglySorted (fun a b => idx a < idx b) es -> (forall x e, x ∈ l -> e ∈ es -> idx x < idx e) ->
  foldl (fun l e => log_put e l) l es = l ++ es.
Proof.
  intros Hs. revert l. induction Hs as [|e es Hs IH He]; intros l Hl; cbn [foldl]; [by rewrite app_nil_r|].
  rewrite log_put_end.
  2: { apply Forall_forall. intros x Hx. apply Hl; [done|left]. }
  rewrite IH; [by rewrite <- app_assoc|]. intros x e' Hx He'. apply elem_of_app in Hx as [Hx|Hx].
  - apply Hl; [done|by right].
  - apply list_elem_of_singleton in Hx as ->. rewrite Forall_forall in He. auto.
Qed.

(** ** Truncating *)

Lemma dec_range_incl_neg lo hi t :
  Forall filed t -> 0 <= lo < u64_lim -> 0 <= hi < u64_lim ->
  omap dec_entry (List.filter (fun kv => negb (bool_decide
    (~ lex_lt kv.1 (be64 lo) /\ ~ lex_lt (be64 hi) kv.1))) t) =
  List.filter (fun e => negb (in_range_incl lo hi e)) (omap dec_entry t).
Proof.
  intros Ht Hlo Hhi. apply dec_filter; [done|]. intros kv e Hf Hd. f_equal.
  destruct (filed_idx _ _ Hf Hd) as [-> He]. apply eq_true_iff_eq.
  rewrite bool_decide_eq_true, !be64_lt by done. unfold in_range_incl.
  rewrite andb_true_iff, !Z.leb_le. lia.
Qed.

Lemma collect_keys_ok t : collect_keys (map Ok t) = Ok (map fst t).
Proof. induction t as [|kv t IH]; cbn; [done|]. by rewrite IH. Qed.

Lemma remove_loop ks s :
  c_sorted (r_store s) ->
  wp (for_each ks (fun key => r_update Write (tree_remove LOG_TREE key) ;;; ret tt))
    (returns (fun _ s' => c_sorted (r_store s') /\
       log_tree s' = foldl (fun t k => o_remove k t) (log_tree s) ks /\
       meta_tree s' = meta_tree s /\ state_machine s' = state_machine s /\
       current_snapshot s' = current_snapshot s)) s.
Proof.
  revert s. induction ks as [|k ks IH]; intros s Hs; cbn [for_each]; [by apply wp_ret|].
  apply wp_bind, wp_bind, wp_r_remove. intros d r Hd. apply wp_ret. set (s1 := set_r_db d s).
  assert (r_store s1 = c_remove LOG_TREE k (r_store s)) as HS by done.
  eapply wp_mono; [apply IH; rewrite HS; auto with ord|].
  intros [[]| | |] s2 Hp; try done. destruct Hp as (Hs2 & Ht & Hm & Hsm & Hc). cbn [foldl].
  split_and!; auto.
  - rewrite Ht. f_equal. unfold log_tree. by rewrite HS, look_c_remove.
  - rewrite Hm. unfold meta_tree. rewrite HS. by apply look_c_remove_ne.
Qed.

Lemma remove_range_sim lo hi s :
  LogInv s -> 0 <= lo < u64_lim -> 0 <= hi < u64_lim ->
  wp (remove_range lo hi) (returns (fun _ =>
    log_written (List.filter (fun e => negb (in_range_incl lo hi e)) (log_of s)) s)) s.
Proof.
  intros HI Hlo Hhi. pose proof HI as [Hs Hf]. unfold remove_range. apply wp_bind, wp_gets.
  rewrite range_incl_ok. change (contents (view (r_db s))) with (r_store s).
  rewrite collect_keys_ok. cbn [to_storage_err]. apply wp_bind, wp_ret.
  eapply wp_mono; [by apply remove_loop|]. intros [[]| | |] s' Hp; try done.
  destruct Hp as (Hs' & Ht & Hm & Hsm & Hc). fold (log_tree s) in Ht.
  unfold o_range_incl in Ht. rewrite filter_bool, remove_filtered in Ht by apply Hs.
  cbn. split_and!; auto.
  - split; [done|]. rewrite Ht. apply Forall_forall. intros kv Hin.
    rewrite Forall_forall in Hf. apply Hf. apply list_elem_of_In. apply list_elem_of_In in Hin.
    by apply List.filter_In in Hin as [? _].
  - unfold log_of. rewrite Ht. by apply dec_range_incl_neg.
Qed.

Lemma filter_keep_below lo l :
  Forall (fun e => idx e < u64_lim) l ->
  List.filter (fun e => negb (in_range_incl lo (u64_lim - 1) e)) l = List.filter (fun e => idx e <? lo) l.
Proof.
  induction 1 as [|e l He Hl IH]; cbn; [done|]. rewrite <- IH.
  replace (negb (in_range_incl lo (u64_lim - 1) e)) with (idx e <? lo); [done|].
  unfold in_range_incl. apply eq_true_iff_eq. rewrite negb_true_iff, andb_false_iff, Z.ltb_lt, !Z.leb_gt. lia.
Qed.

Lemma filter_keep_above hi l :
  Forall (fun e => 0 <= idx e) l ->
  List.filter (fun e => negb (in_range_incl 0 hi e)) l = List.filter (fun e => hi <? idx e) l.
Proof.
  induction 1 as [|e l He Hl IH]; cbn; [done|]. rewrite <- IH.
  replace (negb (in_range_incl 0 hi e)) with (hi <? idx e); [done|].
  unfold in_range_incl. apply eq_true_iff_eq. rewrite negb_true_iff, andb_false_iff, Z.ltb_lt, !Z.leb_gt. lia.
Qed.

Lemma log_idx s : LogInv s -> Forall (fun e => 0 <= idx e < u64_lim) (log_of s).
Proof.
  intros HI. apply Forall_forall. intros e Hin. apply list_elem_of_omap in Hin as (kv & Hin & Hd).
  pose proof (li_filed _ HI) as Hf. rewrite Forall_forall in Hf. by destruct (filed_idx _ _ (Hf _ Hin) Hd).
Qed.

(** ** Ranges by their meaning *)

(** Whether an index lies between two bounds. *)
Definition in_bounds (lo hi : Bound) (i : Z) : bool :=
  match lo with Included a => a <=? i | Excluded a => a <? i | Unbounded => true end &&
  match hi with Included b => i <=? b | Excluded b => i <? b | Unbounded => true end.

(** The half-open range the store scans is the range asked for, less the index
    [u64::MAX]. *)
Lemma in_range_bounds lo hi e :
  u64_bound lo -> u64_bound hi -> 0 <= idx e < u64_lim ->
  in_range (range_start lo) (range_end hi) e = in_bounds lo hi (idx e) && (idx e <? u64_lim - 1).
Proof.
  intros Hlo Hhi He. unfold in_range, in_bounds. apply eq_true_iff_eq. rewrite !andb_true_iff.
  destruct lo, hi; cbn in *; unfold saturating_add_u64; rewrite ?Z.leb_le, ?Z.ltb_lt; lia.
Qed.

Lemma filter_in_bounds lo hi l :
  u64_bound lo -> u64_bound hi -> Forall (fun e => 0 <= idx e < u64_lim) l ->
  List.filter (in_range (range_start lo) (range_end hi)) l =
  List.filter (fun e => in_bounds lo hi (idx e) && (idx e <? u64_lim - 1)) l.
Proof.
  intros Hlo Hhi. induction 1 as [|e l He Hl IH]; cbn; [done|]. by rewrite in_range_bounds, IH by done.
Qed.

Lemma truncate_sim id s :
  LogInv s -> 0 <= index id < u64_lim ->
  wp (delete_conflict_logs_since id) (returns (fun _ =>
    log_written (List.filter (fun e => idx e <? index id) (log_of s)) s)) s.
Proof.
  intros HI Hid. unfold delete_conflict_logs_since.
  eapply wp_bind_done; [apply remove_range_sim; auto; lia|]. intros [] s1 Hw. rewrite filter_keep_below in Hw.
  - by apply log_flush.
  - eapply Forall_impl; [by apply log_idx|]. cbn. lia.
Qed.

Definition purged (id : LogId) x s s' : Prop :=
  LogInv s' /\ log_of s' = List.filter (fun e => index id <? idx e) (log_of s) /\
  meta_tree s' = o_insert (str_bytes "last_purged") x (meta_tree s) /\
  state_machine s' = state_machine s /\ current_snapshot s' = current_snapshot s.

Lemma purge_sim id x s :
  LogInv s -> 0 <= index id < u64_lim -> to_vec id = Ok x ->
  wp (purge_logs_upto id) (returns (fun _ => purged id x s)) s.
Proof.
  intros HI Hid Hx. unfold purge_logs_upto.
  eapply wp_bind_done; [apply remove_range_sim; auto; lia|]. intros [] s1 Hw. rewrite filter_keep_above in Hw.
  2: { eapply Forall_impl; [by apply log_idx|]. cbn. lia. }
  destruct Hw as (HI1 & Hl1 & Hm1 & Hsm1 & Hc1). apply wp_bind. eapply wp_meta_set; [exact Hx|].
  intros s2 Hw2. pose proof (meta_written_inv _ _ _ _ Hw2 HI1) as HI2.
  pose proof (meta_written_log _ _ _ _ Hw2) as Hl2. destruct Hw2 as (HS2 & Hsm2 & Hc2).
  eapply wp_mono.
  { apply (log_flush Write (log_of s2) s2 s2). by split_and!. }
  intros [[]| | |] s3 Hp; try done. destruct Hp as (HI3 & Hl3 & Hm3 & Hsm3 & Hc3). cbn.
  split_and!; auto; try congruence.
  - rewrite Hl3. unfold log_of. rewrite Hl2. exact Hl1.
  - rewrite Hm3. unfold meta_tree at 1. rewrite HS2, look_c_insert. fold (meta_tree s1). by rewrite Hm1.
Qed.

(** ** The state of the log *)

Lemma omap_last t : Forall filed t -> last (omap dec_entry t) = (kv ← last t; dec_entry kv).
Proof.
  intros Ht. induction t as [|kv t IH] using rev_ind; [done|].
  apply Forall_app in Ht as [Ht Hkv]. apply Forall_cons_1 in Hkv as [Hkv _].
  destruct (filed_dec _ Hkv) as (e & Hd & _). rewrite omap_app, last_snoc. cbn. rewrite Hd.
  by rewrite last_snoc.
Qed.

Lemma log_state_sim s purged_id :
  LogInv s ->
  (o_get (str_bytes "last_purged") (meta_tree s) = None /\ purged_id = None \/
   exists x id, o_get (str_bytes "last_purged") (meta_tree s) = Some x /\ from_slice x = Ok id /\
     purged_id = Some id) ->
  wp get_log_state (returns (fun r s' => s' = s /\ r = mkLogState purged_id
    (match last (log_of s) with Some e => Some (log_id e) | None => purged_id end))) s.
Proof.
  intros HI Hp. unfold get_log_state.
  apply wp_bind_done with (P := fun o s' => o = purged_id /\ s' = s).
  { apply wp_meta_get. destruct Hp as [[-> ->]|(x & id & -> & -> & ->)]; by split. }
  intros o s' [-> ->]. apply wp_bind, wp_r_last. fold (log_tree s).
  unfold log_of. rewrite omap_last by apply HI.
  destruct (last (log_tree s)) as [kv|] eqn:El.
  - assert (kv ∈ log_tree s) as Hin by (by apply last_Some_elem_of).
    pose proof (li_filed _ HI) as Hf. rewrite Forall_forall in Hf. destruct (Hf _ Hin) as (e & _ & Hv & _).
    cbn [mbind option_bind]. unfold dec_entry. rewrite Hv. cbn. apply wp_bind, wp_bind, wp_ret, wp_ret.
    by apply wp_ret.
  - cbn. apply wp_bind, wp_ret. by apply wp_ret.
Qed.
End RaftLog.
