(* ===== verification/RaftMachine.v ===== *)
(** * RaftMachine: applying the log and transferring snapshots

    Applying committed entries runs their operations on the engine in log order
    and records the last applied id; building a snapshot and installing it on a
    fresh node copies the queues and the position in the log. *)

From Stdlib Require Import ZArith Lia.
From stdpp Require Import prelude gmap strings.
From S2P Require Import Prelude Bytes OrdMap Sled Message Bincode Keys QueueManager Store Spec.
From S2P Require Import Engine Invariant Refinement Maintenance Retention Holdings System Delivery.
From S2P Require Import Snapshot StateMachine RaftStore RaftLog.

Section RaftMachine.
Context `{!Sled, !SledLaws, !SledReliable, !Bincode, !BincodeLaws,
          !Environment, !EnvironmentLaws, !BuildProfile, !RaftTypes}.
Context `{!Json Entry, !Json LogId, !Json (option LogId), !Json Vote, !Json StoredMembership,
          !Json Z, !Json QueueManagerSnapshot}.
Implicit Types s : RaftStoreInner.

Lemma wp_engine {A} v (m : QM A) (R : Outcome StorageError A -> RaftStoreInner -> Prop) s :
  wp m (returns (fun a w => R (Done a) (set_state_machine w s))) (state_machine s) ->
  wp (with_engine v m) R s.
Proof.
  unfold wp, with_engine. destruct (m (state_machine s)) as [[a|e| |] w]; cbn; done.
Qed.

(** ** Applying entries *)

(** What an entry does to the engine. *)
Definition entry_effect (e : Entry) (w : World) : World :=
  match RaftStore.payload e with Normal op => (apply_operation op w).2 | _ => w end.

Definition log_effect (es : list Entry) (w : World) : World := foldl (fun w e => entry_effect e w) w es.

(** The response of an entry applied to [w] is that of its operation. *)
Definition entry_answer (e : Entry) (w : World) (r : QueueOperationResponse) : Prop :=
  match RaftStore.payload e with Normal op => (apply_operation op w).1 = Done r | _ => r = RAck (Ok tt) end.

(** One response per entry, each in the state the entries before it left. *)
Fixpoint log_answers (es : list Entry) (w : World) (rs : list QueueOperationResponse) : Prop :=
  match es, rs with
  | [], [] => True
  | e :: es', r :: rs' => entry_answer e w r /\ log_answers es' (entry_effect e w) rs'
  | _, _ => False
  end.

(** Every engine call made while applying the entries is admissible. *)
Fixpoint admissible_log (es : list Entry) (w : World) : Prop :=
  match es with
  | [] => True
  | e :: es' =>
    match RaftStore.payload e with Normal op => admissible_run (engine_ops op) w | _ => True end /\
    admissible_log es' (entry_effect e w)
  end.

(** The metadata an entry causes to be written can be serialized. *)
Definition recordable (e : Entry) : Prop :=
  json_ok (log_id e) /\
  match RaftStore.payload e with
  | MembershipChange mem => json_ok (mkStored (Some (log_id e)) mem)
  | _ => True
  end.

(** Reading back the metadata under a key. *)
Definition meta_is `{!Json T} (key : string) (a : T) s : Prop :=
  exists x, o_get (str_bytes key) (meta_tree s) = Some x /\ from_slice x = Ok a.

Definition entry_post (e : Entry) s (r : QueueOperationResponse) s' : Prop :=
  entry_answer e (state_machine s) r /\ state_machine s' = entry_effect e (state_machine s) /\
  meta_is "last_applied" (log_id e) s' /\ log_tree s' = log_tree s /\
  (c_sorted (r_store s) -> c_sorted (r_store s')).

Lemma meta_written_is `{!Json T} key (a : T) x s s' :
  meta_written key x s s' -> from_slice x = Ok a -> meta_is key a s'.
Proof. intros Hw Hx. exists x. split; [by eapply meta_written_get|done]. Qed.

Lemma meta_written_sorted key x s s' :
  meta_written key x s s' -> c_sorted (r_store s) -> c_sorted (r_store s').
Proof. intros (-> & _). auto with ord. Qed.

Lemma apply_entry_sim e s :
  SysInv (state_machine s) -> recordable e ->
  match RaftStore.payload e with Normal op => admissible_run (engine_ops op) (state_machine s) | _ => True end ->
  wp (apply_entry e) (returns (entry_post e s)) s.
Proof.
  intros HS [(x & Hx & Hv) Hmem] Ha. unfold apply_entry, entry_post, entry_answer, entry_effect in *.
  assert (forall s1 (r : QueueOperationResponse), log_tree s1 = log_tree s -> (c_sorted (r_store s) -> c_sorted (r_store s1)) ->
    wp (meta_set "last_applied" (log_id e) ;;; ret r) (returns (fun r' s' => r' = r /\
      state_machine s' = state_machine s1 /\ meta_is "last_applied" (log_id e) s' /\ log_tree s' = log_tree s /\
      (c_sorted (r_store s) -> c_sorted (r_store s')))) s1) as Htail.
  { intros s1 r Hl Hso. apply wp_bind. eapply wp_meta_set; [exact Hx|]. intros s2 Hw. apply wp_ret.
    pose proof (meta_written_log _ _ _ _ Hw). pose proof (meta_written_sorted _ _ _ _ Hw).
    pose proof Hw as (_ & Hsm & _). cbn. split_and!; auto; [by eapply meta_written_is|congruence]. }
  destruct (RaftStore.payload e) as [|op|mem].
  - apply wp_bind, wp_ret. eapply wp_mono; [apply Htail; done|].
    by intros [r| | |] s' Hp.
  - destruct (apply_applied op _ HS Ha) as (r & Hrun & Hans).
    apply wp_bind, wp_engine, wp_done. eexists r, _. split; [exact Hrun|].
    eapply wp_mono; [apply Htail; auto|].
    intros [r'| | |] s' Hp; try done. destruct Hp as (-> & Hsm & Hrest). split_and!; try tauto.
    + by rewrite Hrun.
    + rewrite Hsm. cbn. by rewrite Hrun.
  - destruct Hmem as (y & Hy & _). apply wp_bind, wp_bind. eapply wp_meta_set; [exact Hy|].
    intros s1 Hw. apply wp_ret. pose proof (meta_written_log _ _ _ _ Hw).
    pose proof (meta_written_sorted _ _ _ _ Hw). destruct Hw as (_ & Hsm1 & _).
    eapply wp_mono; [apply Htail; auto|]. intros [r| | |] s' Hp; try done.
    destruct Hp as (-> & Hsm & Hrest). split_and!; try tauto. congruence.
Qed.

Lemma entry_effect_inv e w :
  SysInv w ->
  match RaftStore.payload e with Normal op => admissible_run (engine_ops op) w | _ => True end ->
  SysInv (entry_effect e w).
Proof.
  intros HS Ha. unfold entry_effect. destruct (RaftStore.payload e) as [|op|]; auto.
  destruct (apply_applied op w HS Ha) as (r & Hrun & _). rewrite Hrun.
  apply (ok_inv _ _ _ (steps_ok _ _ _ HS (run_until_steps _ _ Ha))).
Qed.

(** The id recorded as last applied after [es]. *)
Definition last_id (es : list Entry) : option LogId := log_id <$> last es.

Definition apply_post (es : list Entry) s (acc rs : list QueueOperationResponse) s' : Prop :=
  (exists rs', rs = acc ++ rs' /\ log_answers es (state_machine s) rs') /\
  state_machine s' = log_effect es (state_machine s) /\ SysInv (state_machine s') /\
  log_tree s' = log_tree s /\ (c_sorted (r_store s) -> c_sorted (r_store s')) /\
  (forall id, last_id es = Some id -> meta_is "last_applied" id s') /\ (es = [] -> s' = s).

Lemma apply_loop es acc s :
  SysInv (state_machine s) -> Forall recordable es -> admissible_log es (state_machine s) ->
  wp (for_fold es acc (fun resps entry => let* r := apply_entry entry in ret (resps ++ [r])))
    (returns (apply_post es s acc)) s.
Proof.
  intros HS Hrec. revert acc s HS. induction Hrec as [|e es He Hrec IH]; intros acc s HS Ha; cbn [for_fold].
  { apply wp_ret. unfold apply_post. split_and!; auto; [|done]. exists []. by rewrite app_nil_r. }
  destruct Ha as [Ha Htl]. apply wp_bind. eapply wp_bind_done; [by apply apply_entry_sim|].
  intros r s1 (Hans & Hsm & Hm & Hl & Hso). apply wp_ret.
  assert (SysInv (state_machine s1)) as HS1 by (rewrite Hsm; by apply entry_effect_inv).
  eapply wp_mono; [apply IH; [done|by rewrite Hsm]|]. intros [rs| | |] s2 Hp; try done.
  destruct Hp as ((rs' & -> & Hall) & Hsm2 & HS2 & Hl2 & Hso2 & Hm2 & Hnil). cbn. split_and!; auto.
  - exists (r :: rs'). rewrite <- app_assoc. split; [done|]. cbn [log_answers]. by rewrite <- Hsm.
  - by rewrite Hsm2, Hsm.
  - congruence.
  - intros id Hid. destruct es as [|e' es']; [|by apply Hm2].
    injection Hid as <-. by rewrite Hnil.
  - done.
Qed.

(** Applying two batches one after the other is applying their concatenation. *)
Lemma for_fold_app {X Y} (l1 l2 : list X) (acc : Y) (f : Y -> X -> RM Y) s :
  for_fold (l1 ++ l2) acc f s = bind (for_fold l1 acc f) (fun acc' => for_fold l2 acc' f) s.
Proof.
  revert acc s. induction l1 as [|x l1 IH]; intros acc s; cbn [app for_fold]; [done|].
  unfold bind in *. destruct (f acc x s) as [[a|e| |] s']; auto.
Qed.

(** ** Snapshots *)

Lemma build_data_sim (w : World) x :
  SysInv w -> to_vec (snapshot_of (store w)) = Ok x ->
  wp sm_build_snapshot (returns (fun d w' => d = x /\ unchanged w w')) w.
Proof.
  intros HS Hx. unfold sm_build_snapshot.
  eapply wp_bind_done; [apply export_sim; apply HS|]. intros sn w' [-> Hu]. rewrite Hx.
  cbn [serialization_err]. by apply wp_ret.
Qed.

(** What is recorded in the metadata under a key that may be absent. *)
Definition meta_opt `{!Json T} (key : string) (o : option T) s : Prop :=
  match o with
  | Some a => meta_is key a s
  | None => o_get (str_bytes key) (meta_tree s) = None
  end.

Lemma meta_opt_get `{!Json T} key (o : option T) s (R : Outcome StorageError (option T) -> RaftStoreInner -> Prop) :
  meta_opt key o s -> R (Done o) s -> wp (meta_get_single T key) R s.
Proof.
  intros Ho HR. apply wp_meta_get. destruct o as [a|]; cbn in Ho.
  - destruct Ho as (x & -> & ->). done.
  - by rewrite Ho.
Qed.

Lemma SysInv_unchanged (w w' : World) : SysInv w -> unchanged w w' -> SysInv w'.
Proof. intros [HI Hg Hf Hp Ht Hb] (HS & HG & HB & _). split; rewrite ?HS, ?HG, ?HB; auto. Qed.

Definition built (last : option LogId) (mem : option StoredMembership) (x : bytes) s
    (r : SnapshotMeta * bytes) s' : Prop :=
  r = (mkMeta last (default default_stored mem) (snapshot_name last 1), x) /\
  unchanged (state_machine s) (state_machine s') /\
  current_snapshot s' = Some (mkSnap r.1 r.2) /\ log_tree s' = log_tree s /\
  (forall y, to_vec 1 = Ok y -> o_get (str_bytes "snapshot_idx") (meta_tree s') = Some y) /\
  (forall key, key <> "snapshot_idx"%string ->
     o_get (str_bytes key) (meta_tree s') = o_get (str_bytes key) (meta_tree s)).

(** The first snapshot of a node. *)
Lemma build_sim last mem x y s :
  SysInv (state_machine s) -> to_vec (snapshot_of (store (state_machine s))) = Ok x ->
  meta_opt "last_applied" last s -> meta_opt "last_membership" mem s ->
  o_get (str_bytes "snapshot_idx") (meta_tree s) = None -> to_vec 1 = Ok y ->
  wp build_snapshot (returns (built last mem x s)) s.
Proof.
  intros HS Hx Hla Hmem Hidx Hy. unfold build_snapshot. apply wp_bind, wp_engine.
  eapply wp_mono; [by apply build_data_sim|]. intros [d| | |] w1 Hp; try done. destruct Hp as [-> Hu].
  set (s1 := set_state_machine w1 s). cbn [returns].
  assert (meta_tree s1 = meta_tree s) as Hm1 by done.
  apply wp_bind. apply (meta_opt_get "last_applied" last s1); [by destruct last|].
  apply wp_bind. apply (meta_opt_get "last_membership" mem s1); [by destruct mem|].
  apply wp_bind. unfold next_snapshot_idx. apply wp_bind, wp_r_get. fold (meta_tree s1). rewrite Hm1, Hidx.
  apply wp_bind, wp_ret. rewrite arith_u64_ok by lia. cbn [or_panic]. apply wp_ret.
  change (0 + 1) with 1. apply wp_bind. eapply wp_meta_set; [exact Hy|]. intros s2 Hw.
  apply wp_bind, wp_modify, wp_ret. cbn. pose proof (meta_written_log _ _ _ _ Hw) as Hl.
  unfold built. split_and!; auto.
  - destruct Hw as (_ & Hsm & _). cbn. rewrite Hsm. exact Hu.
  - intros y' Hy'. assert (y' = y) as -> by congruence. by apply (meta_written_get _ _ _ _ Hw).
  - intros key Hne. by apply (meta_written_ne _ _ _ _ _ Hw).
Qed.

(** Once the counter is recorded in fewer than eight bytes, no further snapshot
    can be built. *)
Lemma build_panics (last : option LogId) (mem : option StoredMembership) x y s :
  SysInv (state_machine s) -> to_vec (snapshot_of (store (state_machine s))) = Ok x ->
  meta_opt "last_applied" last s -> meta_opt "last_membership" mem s ->
  o_get (str_bytes "snapshot_idx") (meta_tree s) = Some y -> (length y < 8)%nat ->
  wp build_snapshot (fun o _ => o = Panic) s.
Proof.
  intros HS Hx Hla Hmem Hidx Hy. unfold build_snapshot. apply wp_bind, wp_engine.
  eapply wp_mono; [by apply build_data_sim|]. intros [d| | |] w1 Hp; try done. destruct Hp as [-> Hu].
  set (s1 := set_state_machine w1 s). cbn [returns].
  assert (meta_tree s1 = meta_tree s) as Hm1 by done.
  apply wp_bind. apply (meta_opt_get "last_applied" last s1); [by destruct last|].
  apply wp_bind. apply (meta_opt_get "last_membership" mem s1); [by destruct mem|].
  apply wp_bind. unfold next_snapshot_idx. apply wp_bind, wp_r_get. fold (meta_tree s1). rewrite Hm1, Hidx.
  apply wp_bind. unfold key_prefix_u64, slice. rewrite bool_decide_false by lia. done.
Qed.

(** Installing the snapshot of a well-formed node on an empty one. *)
Lemma install_sim (w : World) m x ya ym s :
  SysInv w -> store (state_machine s) = ∅ -> total_bytes (store w) < u64_lim ->
  (forall w1, for_each (snapshot_of (store w)) (fun nq => restore_queue nq.1 nq.2) (state_machine s) = (Done tt, w1) ->
     idgen w1 <= u64_lim) ->
  from_slice x = Ok (snapshot_of (store w)) ->
  to_vec (last_log_id m) = Ok ya -> to_vec (last_membership m) = Ok ym ->
  wp (install_snapshot m x) (returns (fun _ s' =>
    (forall q, declared (store (state_machine s')) q = declared (store w) q) /\
    (forall q, declared (store w) q = true -> Copied (store w) (store (state_machine s')) q) /\
    o_get (str_bytes "last_applied") (meta_tree s') = Some ya /\
    o_get (str_bytes "last_membership") (meta_tree s') = Some ym /\
    current_snapshot s' = Some (mkSnap m x) /\ log_tree s' = log_tree s)) s.
Proof.
  intros HS Hempty Htot Hids Hx Hya Hym. unfold install_snapshot, sm_install_snapshot.
  apply wp_bind, wp_engine. apply wp_bind. rewrite Hx. cbn [serialization_err]. apply wp_ret.
  eapply wp_mono; [by apply restore_sim|]. intros [[]| | |] w1 Hp; try done.
  destruct Hp as (_ & _ & Hd & Hc). set (s1 := set_state_machine w1 s).
  apply wp_bind. eapply wp_meta_set; [exact Hya|]. intros s2 Hw2.
  apply wp_bind. eapply wp_meta_set; [exact Hym|]. intros s3 Hw3.
  apply wp_bind, wp_modify. apply wp_r_flush. intros d Hfl. cbn [returns].
  pose proof (meta_written_get _ _ _ _ Hw2) as G2. pose proof (meta_written_get _ _ _ _ Hw3) as G3.
  pose proof (meta_written_ne _ _ _ _ "last_applied" Hw3 ltac:(done)) as N3.
  pose proof (meta_written_log _ _ _ _ Hw2) as L2. pose proof (meta_written_log _ _ _ _ Hw3) as L3.
  destruct Hw2 as (_ & Hsm2 & _), Hw3 as (_ & Hsm3 & _).
  assert (forall s4, r_db s4 = d -> r_store s4 = r_store s3) as HS4 by (intros s4 <-; exact Hfl).
  change (state_machine (set_r_db d ?x)) with (state_machine s3). rewrite Hsm3, Hsm2.
  split_and!; auto.
  - unfold meta_tree in *. rewrite HS4 by done. by rewrite N3.
  - unfold meta_tree in *. by rewrite HS4.
  - unfold log_tree in *. rewrite HS4 by done. by rewrite L3, L2.
Qed.

(** ** Restarting a node *)

Lemma open_raft_tree_ok name d : exists d', open_raft_tree name d = Done d' /\ contents (view d') = contents (view d).
Proof.
  destruct (open_tree_rel name d) as [d' Hd]. exists d'. unfold open_raft_tree. rewrite Hd. split; [done|].
  rewrite (open_tree_law _ _ _ Hd). apply contents_open.
Qed.

Lemma open_store_sim d dr e :
  Inv (contents (view d)) (v_idgen (view d)) -> total_bytes (contents (view d)) < u64_lim ->
  exists s, open_store (Ok d) (Ok dr) e = Done s /\ r_store s = contents (view dr) /\ current_snapshot s = None /\
    open_post None (mkWorld (mkQM d 0 None) e) (state_machine s).
Proof.
  intros HI Hb. destruct (open_sim d None e HI Hb) as (w & Hop & Hpost). unfold open_store. rewrite Hop.
  destruct (open_raft_tree_ok LOG_TREE dr) as (d1 & -> & H1'). destruct (open_raft_tree_ok META_TREE d1) as (d2 & -> & H2').
  exists (mkInner d2 w None). split_and!; auto. unfold r_store. cbn. by rewrite H2', H1'.
Qed.

(** Reading metadata depends only on the contents of the database. *)
Lemma meta_get_ext (T : Type) `{!Json T} key s s' :
  r_store s' = r_store s -> (meta_get_single T key s').1 = (meta_get_single T key s).1.
Proof.
  intros HS.
  assert (forall s0, (meta_get_single T key s0).1 =
    match o_get (str_bytes key) (meta_tree s0) with
    | Some x => match from_slice x with Ok a => Done (Some a) | Err e => Fail (mkSE Read e) end
    | None => Done None
    end) as Hget.
  { intros s0. apply (wp_meta_get T key (fun o _ => o = _) s0). by repeat case_match. }
  rewrite !Hget. unfold meta_tree. by rewrite HS.
Qed.

Lemma last_applied_ext s s' :
  r_store s' = r_store s -> (last_applied_state s').1 = (last_applied_state s).1.
Proof.
  intros HS. unfold last_applied_state, bind.
  pose proof (meta_get_ext LogId "last_applied" s s' HS) as Hl.
  assert (forall s0 o s1, meta_get_single LogId "last_applied" s0 = (o, s1) -> r_store s1 = r_store s0) as Hkeep.
  { intros s0 o s1 Hg. assert (wp (meta_get_single LogId "last_applied") (fun _ s2 => s2 = s0) s0) as Hwp
      by (apply wp_meta_get; by repeat case_match). unfold wp in Hwp. rewrite Hg in Hwp. cbn in Hwp. by subst. }
  destruct (meta_get_single LogId "last_applied" s') as [o1 s1] eqn:E1.
  destruct (meta_get_single LogId "last_applied" s) as [o2 s2] eqn:E2. cbn [fst] in Hl. subst o2.
  apply Hkeep in E1, E2. destruct o1 as [l| | |]; try done.
  pose proof (meta_get_ext StoredMembership "last_membership" s2 s1 ltac:(congruence)) as Hm.
  destruct (meta_get_single StoredMembership "last_membership" s1) as [o3 s3].
  destruct (meta_get_single StoredMembership "last_membership" s2) as [o4 s4]. cbn [fst] in Hm. subst o4.
  by destruct o3.
Qed.
End RaftMachine.
