(* ===== verification/RaftDemo.v ===== *)
(** * RaftDemo: a concrete instance of the Raft store's parameters

    Codecs for log entries, log ids, memberships and snapshots in place of
    serde_json, and stores on which the theorems are exercised. *)

From Stdlib Require Import ZArith Lia.
From stdpp Require Import prelude gmap strings.
From S2P Require Import Prelude Bytes OrdMap Sled Message Bincode Keys QueueManager Store Spec.
From S2P Require Import Engine Invariant Retention Fsck Holdings System SystemDemo Snapshot.
From S2P Require Import StateMachine RaftStore RaftLog RaftMachine.

Module RaftDemo.
Export SysDemo.

(** ** Codec combinators *)

Definition c_sum {A B} (c : Codec A) (d : Codec B) : Codec (A + B) := mkCodec
  (fun x => match x with inl a => valid c a | inr b => valid d b end)
  (fun x => match x with inl a => 0 :: enc c a | inr b => 1 :: enc d b end)
  (fun b => match b with
            | t :: b' => if t =? 0 then '(x, r) ← dec c b'; Some (inl x, r)
                         else '(x, r) ← dec d b'; Some (inr x, r)
            | [] => None
            end).

Definition c_iso {A B} (c : Codec B) (f : A -> B) (g : B -> A) : Codec A := mkCodec
  (fun a => valid c (f a)) (fun a => enc c (f a)) (fun b => '(x, r) ← dec c b; Some (g x, r)).

Definition c_unit : Codec unit := mkCodec (fun _ => true) (fun _ => []) (fun b => Some (tt, b)).
Definition c_nat : Codec nat := c_iso (c_uint 8) Z.of_nat Z.to_nat.

#[export] Instance c_sum_ok {A B} (c : Codec A) (d : Codec B) :
  CodecOk c -> CodecOk d -> CodecOk (c_sum c d).
Proof. intros Hc Hd [a|b] r Hv; cbn in *; by rewrite dec_enc. Qed.

#[export] Instance c_unit_ok : CodecOk c_unit.
Proof. by intros [] r. Qed.

Lemma c_iso_ok {A B} (c : Codec B) (f : A -> B) (g : B -> A) :
  CodecOk c -> (forall a, g (f a) = a) -> CodecOk (c_iso c f g).
Proof. intros Hc Hfg a r Hv. cbn in *. rewrite dec_enc by done. cbn. by rewrite Hfg. Qed.

#[export] Instance c_nat_ok : CodecOk c_nat.
Proof. apply c_iso_ok; [apply _|apply Nat2Z.id]. Qed.

(** ** openraft's types *)

#[export] Instance DemoRaft : RaftTypes :=
  {| leader_id := Z; Vote := Z * Z; Membership := list Z; leader_display := show; default_membership := [] |}.

Definition c_logid : Codec LogId :=
  c_iso (c_pair (c_uint 8) (c_uint 8)) (fun l => (leader l : Z, index l)) (fun p => mkLogId (p.1 : leader_id) p.2).

Definition c_tag : Codec DeliveryTag := c_iso (c_uint 8) tag_u64 mkTag.

(** The operations as nested sums, in declaration order. *)
Definition op_sum : Type :=
  (string * RetentionPolicy) + (string * Message) + (string * list Message) + string + (string * nat) +
  (string * DeliveryTag) + (string * DeliveryTag) + string + string.

Definition of_op (o : QueueOperation) : op_sum :=
  match o with
  | DeclareQueue n p => inl (inl (inl (inl (inl (inl (inl (inl (n, p))))))))
  | Publish q m => inl (inl (inl (inl (inl (inl (inl (inr (q, m))))))))
  | PublishBatch q ms => inl (inl (inl (inl (inl (inl (inr (q, ms)))))))
  | Consume q => inl (inl (inl (inl (inl (inr q)))))
  | ConsumeBatch q n => inl (inl (inl (inl (inr (q, n)))))
  | Ack q t => inl (inl (inl (inr (q, t))))
  | Nack q t => inl (inl (inr (q, t)))
  | ApplyRetention q => inl (inr q)
  | PromoteScheduled q => inr q
  end.

Definition to_op (x : op_sum) : QueueOperation :=
  match x with
  | inl (inl (inl (inl (inl (inl (inl (inl (n, p)))))))) => DeclareQueue n p
  | inl (inl (inl (inl (inl (inl (inl (inr (q, m)))))))) => Publish q m
  | inl (inl (inl (inl (inl (inl (inr (q, ms))))))) => PublishBatch q ms
  | inl (inl (inl (inl (inl (inr q))))) => Consume q
  | inl (inl (inl (inl (inr (q, n))))) => ConsumeBatch q n
  | inl (inl (inl (inr (q, t)))) => Ack q t
  | inl (inl (inr (q, t))) => Nack q t
  | inl (inr q) => ApplyRetention q
  | inr q => PromoteScheduled q
  end.

Definition c_op : Codec QueueOperation :=
  c_iso (c_sum (c_sum (c_sum (c_sum (c_sum (c_sum (c_sum (c_sum
    (c_pair c_string c_policy) (c_pair c_string c_message)) (c_pair c_string (c_list c_message)))
    c_string) (c_pair c_string c_nat)) (c_pair c_string c_tag)) (c_pair c_string c_tag)) c_string) c_string)
    of_op to_op.

Definition c_payload : Codec EntryPayload :=
  c_iso (c_sum c_unit (c_sum c_op (c_list (c_uint 8))))
    (fun p => match p with Blank => inl tt | Normal op => inr (inl op) | MembershipChange m => inr (inr m) end)
    (fun x => match x with inl _ => Blank | inr (inl op) => Normal op | inr (inr m) => MembershipChange (m : Membership) end).

Definition c_entry : Codec Entry :=
  c_iso (c_pair c_logid c_payload) (fun e => (log_id e, RaftStore.payload e)) (fun p => mkEntry p.1 p.2).

Definition c_stored : Codec StoredMembership :=
  c_iso (c_pair (c_option c_logid) (c_list (c_uint 8))) (fun m => (sm_log_id m, sm_membership m : list Z))
    (fun p => mkStored p.1 (p.2 : Membership)).

Definition c_qs : Codec QueueSnapshot :=
  c_iso (c_pair c_policy (c_pair (c_list c_message) (c_pair (c_list c_message)
          (c_pair (c_list (c_pair (c_uint 8) c_message)) (c_list c_message)))))
    (fun q => (qs_policy q, (qs_messages q, (qs_scheduled q, (qs_inflight q, qs_dead_letter q)))))
    (fun p => mkQS p.1 p.2.1 p.2.2.1 p.2.2.2.1 p.2.2.2.2).

Definition c_snapshot : Codec QueueManagerSnapshot := c_list (c_pair c_string c_qs).

#[export] Instance c_logid_ok : CodecOk c_logid.
Proof. apply c_iso_ok; [apply _|by intros []]. Qed.
#[export] Instance c_tag_ok : CodecOk c_tag.
Proof. apply c_iso_ok; [apply _|by intros []]. Qed.
#[export] Instance c_op_ok : CodecOk c_op.
Proof. apply c_iso_ok; [apply _|by intros []]. Qed.
#[export] Instance c_payload_ok : CodecOk c_payload.
Proof. apply c_iso_ok; [apply _|by intros []]. Qed.
#[export] Instance c_entry_ok : CodecOk c_entry.
Proof. apply c_iso_ok; [apply _|by intros []]. Qed.
#[export] Instance c_stored_ok : CodecOk c_stored.
Proof. apply c_iso_ok; [apply _|by intros []]. Qed.
#[export] Instance c_qs_ok : CodecOk c_qs.
Proof. apply c_iso_ok; [apply _|by intros []]. Qed.
#[export] Instance c_snapshot_ok : CodecOk c_snapshot.
Proof. apply _. Qed.

(** ** JSON *)

Definition codec_json {A} (c : Codec A) : Json A :=
  {| to_vec := serialize c; from_slice := deserialize c |}.

#[export] Instance json_entry : Json Entry := codec_json c_entry.
#[export] Instance json_logid : Json LogId := codec_json c_logid.
#[export] Instance json_vote : Json Vote := codec_json (c_pair (c_uint 8) (c_uint 8)).
#[export] Instance json_stored : Json StoredMembership := codec_json c_stored.
#[export] Instance json_snapshot : Json QueueManagerSnapshot := codec_json c_snapshot.

(** An optional value is written like the value, or as the word null. *)
#[export] Instance json_opt_logid : Json (option LogId) := {|
  to_vec o := match o with Some l => to_vec l | None => Ok (str_bytes "null") end;
  from_slice b := if bool_decide (b = str_bytes "null") then Ok None
                  else match from_slice b with Ok l => Ok (Some l) | Err e => Err e end |}.

(** A number is written in decimal. *)
#[export] Instance json_u64 : Json Z := {|
  to_vec z := Ok (str_bytes (show z));
  from_slice b := Ok (foldl (fun acc c => acc * 10 + (c - 48)) 0 b) |}.

Lemma codec_json_ok {A} (c : Codec A) (a : A) :
  CodecOk c -> valid c a = true -> @json_ok A (codec_json c) a.
Proof.
  intros Hc Hv. exists (enc c a). cbn. unfold serialize. rewrite Hv. split; [done|].
  apply (deserialize_serialize c a); [done|]. unfold serialize. by rewrite Hv.
Qed.

(** ** Stores *)

Definition store_with (w : World) : RaftStoreInner := mkInner (Mem.empty : db_t) w None.
Definition s_fresh : RaftStoreInner := store_with w_empty.

Definition r_exec {A} (m : RM A) (s : RaftStoreInner) : RaftStoreInner := (m s).2.

Definition id_at (term i : Z) : LogId := mkLogId (term : leader_id) i.
Definition blank (term i : Z) : Entry := mkEntry (id_at term i) Blank.
Definition command (term i : Z) (op : QueueOperation) : Entry := mkEntry (id_at term i) (Normal op).

Definition s_log : RaftStoreInner := r_exec (append_to_log [blank 1 1; blank 1 2; blank 1 3]) s_fresh.

Lemma s_fresh_inv : LogInv s_fresh.
Proof.
  assert (r_store s_fresh = ∅) as HS by (vm_compute; reflexivity).
  split; [intros t; unfold look; by rewrite HS, lookup_empty|].
  unfold log_tree, look. rewrite HS, lookup_empty. constructor.
Qed.

Lemma blank_loggable term i :
  valid c_entry (blank term i) = true -> 0 <= i < u64_lim -> loggable (blank term i).
Proof. intros Hv Hi. split; [apply (codec_json_ok c_entry); [apply _|done]|done]. Qed.

Lemma s_log_inv : LogInv s_log.
Proof.
  pose proof (append_sim [blank 1 1; blank 1 2; blank 1 3] s_fresh s_fresh_inv) as Hsim.
  assert (Forall loggable [blank 1 1; blank 1 2; blank 1 3]) as Hall
    by (repeat (constructor; [apply blank_loggable; [reflexivity|lia]|]); constructor).
  specialize (Hsim Hall). apply wp_done in Hsim as ([] & s' & Hrun & HI & _).
  unfold s_log, r_exec. by rewrite Hrun.
Qed.
End RaftDemo.
