(* ===== verification/RaftTheorems.v ===== *)
(** * RaftTheorems: what the Raft store guarantees

    The properties of the replicated state machine, of the persistent log and of
    snapshot transfer, each followed by its witness. *)

From Stdlib Require Import ZArith Lia Sorted.
From stdpp Require Import prelude gmap strings sorting.
From S2P Require Import Prelude Bytes OrdMap Sled Message Bincode Keys QueueManager Store Spec.
From S2P Require Import Engine Invariant Refinement Maintenance Retention Fsck Holdings System.
From S2P Require Import SystemDemo Delivery Snapshot StateMachine RaftStore RaftLog RaftMachine.
From S2P Require Import RaftDemo.

Section Claims.
Context `{!Sled, !SledLaws, !SledReliable, !Bincode, !BincodeLaws,
          !Environment, !EnvironmentLaws, !BuildProfile, !RaftTypes}.
Context `{!Json Entry, !Json LogId, !Json (option LogId), !Json Vote, !Json StoredMembership,
          !Json Z, !Json QueueManagerSnapshot}.

(** Applying a replicated operation to a well-formed state machine never
    panics, is answered with the response variant of that operation, and its
    whole effect is the run of the engine calls the operation stands for, in
    order: all of them, except that a batch ends with the first publish that fails
    and with the first consume that fails or finds nothing; so every guarantee on
    runs holds of the replicated state machine. *)
Theorem apply_operation_runs op w :
  SysInv w -> admissible_run (engine_ops op) w ->
  exists r tr w', apply_operation op w = (Done r, w') /\ answers op r = true /\
    run_until (engine_ops op) w = (tr, w') /\ steps w tr w' /\ SysInv w'.
Proof.
  intros HS Ha. destruct (apply_applied op w HS Ha) as (r & Hrun & Hans).
  pose proof (run_until_steps _ _ Ha) as Hst.
  exists r, (run_until (engine_ops op) w).1, (run_until (engine_ops op) w).2.
  split_and!; auto; [apply surjective_pairing|]. apply (steps_ok _ _ _ HS Hst).
Qed.

(** A batch consume of [n] returns exactly the first [n] ready messages in
    delivery order with their tags (fewer when fewer are ready), reports no
    error, and leaves the others ready. *)
Theorem consume_batch_prefix q n w :
  Inv (store w) (idgen w) -> declared (store w) q = true -> idgen w <= u64_lim ->
  exists w', apply_operation (ConsumeBatch q n) w =
      (Done (RConsumeBatch (Ok (map (fun e => (mkTag e.1, e.2)) (take n (a_ready (abs (store w) q)))))), w') /\
    a_ready (abs (store w') q) = drop n (a_ready (abs (store w) q)).
Proof.
  intros HI Hd Hn. destruct (consume_batch_take q n [] w HI Hd Hn) as (w' & Hrun & Hr).
  exists w'. cbn [apply_operation]. unfold bind. by rewrite Hrun.
Qed.

(** C24: The persistent log: appending entries files each under its index,
    replacing an entry with the same index, and reading any range of indices
    afterwards returns exactly the entries whose index lies between the bounds, in
    ascending order; the one index no range returns is [u64::MAX]. *)
Theorem append_then_read es lo hi s :
  LogInv s -> Forall loggable es -> u64_bound lo -> u64_bound hi ->
  exists s', append_to_log es s = (Done tt, s') /\
    LogInv s' /\ log_of s' = foldl (fun l e => log_put e l) (log_of s) es /\
    state_machine s' = state_machine s /\
    try_get_log_entries lo hi s' =
      (Done (List.filter (fun e => in_bounds lo hi (idx e) && (idx e <? u64_lim - 1)) (log_of s')), s').
Proof.
  intros HI Hall Hlo Hhi. pose proof (append_sim es s HI Hall) as Hsim.
  apply wp_done in Hsim as ([] & s' & Hrun & HI' & Hl & _ & Hsm & _).
  pose proof (read_sim lo hi s' HI' Hlo Hhi) as Hrd. apply wp_done in Hrd as (l & s'' & Hrun' & -> & ->).
  rewrite filter_in_bounds in Hrun' by (try done; by apply log_idx). exists s'. by split_and!.
Qed.

(** Conflict resolution: deleting the log from an index and appending
    ascending entries from there on leaves exactly the entries below the index
    followed by the new ones. *)
Theorem conflict_resolution id es s :
  LogInv s -> 0 <= index id < u64_lim -> Forall loggable es ->
  StronglySorted (fun a b => idx a < idx b) es -> Forall (fun e => index id <= idx e) es ->
  exists s1 s2, delete_conflict_logs_since id s = (Done tt, s1) /\ append_to_log es s1 = (Done tt, s2) /\
    LogInv s2 /\ log_of s2 = List.filter (fun e => idx e <? index id) (log_of s) ++ es.
Proof.
  intros HI Hid Hall Hso Hge. pose proof (truncate_sim id s HI Hid) as Hsim.
  apply wp_done in Hsim as ([] & s1 & Hrun & HI1 & Hl1 & _).
  pose proof (append_sim es s1 HI1 Hall) as Hsim2.
  apply wp_done in Hsim2 as ([] & s2 & Hrun2 & HI2 & Hl2 & _).
  exists s1, s2. split_and!; auto. rewrite Hl2, Hl1. apply log_put_all; [done|].
  intros x e Hx He. apply list_elem_of_In, List.filter_In in Hx as [_ Hx%Z.ltb_lt].
  rewrite Forall_forall in Hge. specialize (Hge _ He). cbn in Hge. lia.
Qed.

(** Purging up to an index removes exactly the entries up to it and records
    the purge point: the log state then reports it as last purged, and as the
    last log id when no entry remains. *)
Theorem purge_then_state id s :
  LogInv s -> 0 <= index id < u64_lim -> json_ok id ->
  exists s', purge_logs_upto id s = (Done tt, s') /\ LogInv s' /\
    log_of s' = List.filter (fun e => index id <? idx e) (log_of s) /\
    state_machine s' = state_machine s /\
    get_log_state s' = (Done (mkLogState (Some id)
      (match last (log_of s') with Some e => Some (log_id e) | None => Some id end)), s').
Proof.
  intros HI Hid (x & Hx & Hv). pose proof (purge_sim id x s HI Hid Hx) as Hsim.
  apply wp_done in Hsim as ([] & s' & Hrun & HI' & Hl & Hm & Hsm & _).
  pose proof (log_state_sim s' (Some id) HI') as Hls.
  assert (o_get (str_bytes "last_purged") (meta_tree s') = Some x) as Hg
    by (rewrite Hm; apply o_get_insert).
  specialize (Hls (or_intror (ex_intro _ x (ex_intro _ id (conj Hg (conj Hv eq_refl)))))).
  apply wp_done in Hls as (r & s'' & Hrun' & -> & ->). exists s'. by split_and!.
Qed.

(** A saved vote is read back, and saving it leaves the log and the state
    machine alone. *)
Theorem vote_roundtrip (v : Vote) s :
  json_ok v ->
  exists s', save_vote v s = (Done tt, s') /\ read_vote s' = (Done (Some v), s') /\
    log_of s' = log_of s /\ state_machine s' = state_machine s.
Proof.
  intros (x & Hx & Hv).
  assert (wp (save_vote v) (returns (fun _ => meta_written "vote" x s)) s) as Hsv
    by (by eapply wp_meta_set).
  apply wp_done in Hsv as ([] & s' & Hrun & Hw).
  assert (wp read_vote (returns (fun r s'' => r = Some v /\ s'' = s')) s') as Hrd.
  { apply wp_meta_get. rewrite (meta_written_get _ _ _ _ Hw), Hv. done. }
  apply wp_done in Hrd as (r & s'' & Hrun' & -> & ->). exists s'. split_and!; auto.
  - unfold log_of. by rewrite (meta_written_log _ _ _ _ Hw).
  - apply Hw.
Qed.

(** C28: Applying committed entries runs their operations on the engine in log
    order, answers each with the response its operation gives in the state the
    entries before it left, keeps the system invariant,
    and leaves the id of the last entry readable as last applied; the log itself
    does not change. *)
Theorem apply_log es e s :
  SysInv (state_machine s) -> Forall recordable (es ++ [e]) ->
  admissible_log (es ++ [e]) (state_machine s) ->
  exists rs s', apply_to_state_machine (es ++ [e]) s = (Done rs, s') /\
    log_answers (es ++ [e]) (state_machine s) rs /\
    state_machine s' = log_effect (es ++ [e]) (state_machine s) /\ SysInv (state_machine s') /\
    log_tree s' = log_tree s /\
    meta_get_single LogId "last_applied" s' = (Done (Some (log_id e)), s').
Proof.
  intros HS Hrec Ha. pose proof (apply_loop (es ++ [e]) [] s HS Hrec Ha) as Hwp.
  apply wp_done in Hwp as (rs & s' & Hrun & (rs' & -> & Hall) & Hsm & HS' & Hl & _ & Hm & _).
  destruct (Hm (log_id e)) as (x & Hx & Hv); [unfold last_id; by rewrite last_snoc|].
  assert (wp (meta_get_single LogId "last_applied") (returns (fun r s'' => r = Some (log_id e) /\ s'' = s')) s') as Hrd.
  { apply wp_meta_get. by rewrite Hx, Hv. }
  apply wp_done in Hrd as (r & s'' & Hrun' & -> & ->). exists rs', s'. by split_and!.
Qed.

(** C29: Snapshot transfer: the first snapshot a node builds, installed on a node
    with an empty database, gives that node a copy of every queue of the builder
    (policy, order, tags and schedule included) and the builder's position in the
    log and membership. *)
Theorem snapshot_transfer (last : LogId) (mem : option StoredMembership) x ya ym y s t :
  SysInv (state_machine s) -> total_bytes (store (state_machine s)) < u64_lim ->
  to_vec (snapshot_of (store (state_machine s))) = Ok x ->
  from_slice x = Ok (snapshot_of (store (state_machine s))) ->
  meta_opt "last_applied" (Some last) s -> meta_opt "last_membership" mem s ->
  o_get (str_bytes "snapshot_idx") (meta_tree s) = None -> to_vec 1 = Ok y ->
  to_vec (Some last) = Ok ya -> from_slice ya = Ok last ->
  to_vec (default default_stored mem) = Ok ym -> from_slice ym = Ok (default default_stored mem) ->
  store (state_machine t) = ∅ ->
  (forall w1, for_each (snapshot_of (store (state_machine s))) (fun nq => restore_queue nq.1 nq.2)
     (state_machine t) = (Done tt, w1) -> idgen w1 <= u64_lim) ->
  exists m s' t', build_snapshot s = (Done (m, x), s') /\ install_snapshot m x t = (Done tt, t') /\
    (forall q, declared (store (state_machine t')) q = declared (store (state_machine s)) q) /\
    (forall q, declared (store (state_machine s)) q = true ->
       Copied (store (state_machine s)) (store (state_machine t')) q) /\
    last_applied_state t' = (Done (Some last, default default_stored mem), t') /\
    current_snapshot t' = Some (mkSnap m x).
Proof.
  intros HS Htot Hx Hx' Hla Hmem Hidx Hy Hya Hya' Hym Hym' Hempty Hids.
  pose proof (build_sim (Some last) mem x y s HS Hx Hla Hmem Hidx Hy) as Hb.
  apply wp_done in Hb as (r & s' & Hrun & -> & _).
  set (m := mkMeta (Some last) (default default_stored mem) (snapshot_name (Some last) 1)).
  pose proof (install_sim (state_machine s) m x ya ym t HS Hempty Htot Hids Hx' Hya Hym) as Hi.
  apply wp_done in Hi as ([] & t' & Hrun' & Hd & Hc & Ga & Gm & Hcs & _).
  assert (wp last_applied_state (returns (fun r s'' => r = (Some last, default default_stored mem) /\ s'' = t')) t') as Hrd.
  { apply wp_bind, wp_meta_get. rewrite Ga, Hya'. apply wp_bind, wp_meta_get. rewrite Gm, Hym'.
    by apply wp_ret. }
  apply wp_done in Hrd as (r & s'' & Hrun'' & -> & ->).
  exists m, s', t'. by split_and!.
Qed.

(** C30: A node can build only one snapshot: the counter is written as JSON text
    but read back as eight big-endian bytes, so when the first number takes fewer
    than eight bytes of JSON, the second call panics. *)
Theorem second_snapshot_panics (last : option LogId) (mem : option StoredMembership) x y s :
  SysInv (state_machine s) -> to_vec (snapshot_of (store (state_machine s))) = Ok x ->
  meta_opt "last_applied" last s -> meta_opt "last_membership" mem s ->
  o_get (str_bytes "snapshot_idx") (meta_tree s) = None -> to_vec 1 = Ok y -> (length y < 8)%nat ->
  exists m s', build_snapshot s = (Done (m, x), s') /\ (build_snapshot s').1 = Panic.
Proof.
  intros HS Hx Hla Hmem Hidx Hy Hlen.
  pose proof (build_sim last mem x y s HS Hx Hla Hmem Hidx Hy) as Hb.
  apply wp_done in Hb as (r & s' & Hrun & -> & Hu & _ & _ & Gy & Gne).
  eexists _, s'. split; [exact Hrun|]. pose proof Hu as (HSt & _).
  apply (build_panics last mem x y s'); auto.
  - by eapply SysInv_unchanged.
  - by rewrite HSt.
  - unfold meta_opt, meta_is in *. by rewrite Gne.
  - unfold meta_opt, meta_is in *. by rewrite Gne.
Qed.

(** Restarting a node from its two databases keeps the log, the vote, the
    purge point, the membership and the last applied id, drops the cached
    snapshot, and recovers the engine as a Solo restart does: messages in flight
    are ready again, without an entry of the log saying so. *)
Theorem node_restart s e :
  LogInv s -> Inv (store (state_machine s)) (idgen (state_machine s)) ->
  total_bytes (store (state_machine s)) < u64_lim ->
  exists s', open_store (Ok (db (qm (state_machine s)))) (Ok (r_db s)) e = Done s' /\
    LogInv s' /\ log_of s' = log_of s /\ (read_vote s').1 = (read_vote s).1 /\
    (meta_get_single LogId "last_purged" s').1 = (meta_get_single LogId "last_purged" s).1 /\
    (last_applied_state s').1 = (last_applied_state s).1 /\ get_current_snapshot s' = (Done None, s') /\
    open_post None (mkWorld (mkQM (db (qm (state_machine s))) 0 None) e) (state_machine s').
Proof.
  intros HL HI Hb. destruct (open_store_sim (db (qm (state_machine s))) (r_db s) e HI Hb)
    as (s' & Hop & HS & Hsnap & Hpost).
  exists s'. split_and!; auto.
  - destruct HL as [Hso Hf]. unfold log_tree in Hf. split; unfold log_tree; by rewrite HS.
  - unfold log_of, log_tree. by rewrite HS.
  - by apply meta_get_ext.
  - by apply meta_get_ext.
  - by apply last_applied_ext.
  - unfold get_current_snapshot, gets. by rewrite Hsnap.
Qed.
End Claims.

(** ** Witnesses *)

Import RaftDemo.

Lemma apply_operation_runs_witness :
  exists r tr w', apply_operation (PublishBatch "orders" [msg 7 1; msg 8 2]) w_snap = (Done r, w') /\
    answers (PublishBatch "orders" [msg 7 1; msg 8 2]) r = true /\
    run_until (engine_ops (PublishBatch "orders" [msg 7 1; msg 8 2])) w_snap = (tr, w') /\
    steps w_snap tr w' /\ SysInv w'.
Proof.
  apply (apply_operation_runs (PublishBatch "orders" [msg 7 1; msg 8 2]) w_snap); [exact w_snap_sys|].
  apply admissible_run_b_spec. vm_compute. reflexivity.
Defined.

Lemma consume_batch_prefix_witness :
  exists w', apply_operation (ConsumeBatch "orders" 2) w_busy =
      (Done (RConsumeBatch (Ok (map (fun e => (mkTag e.1, e.2)) (take 2 (a_ready (abs (store w_busy) "orders")))))), w') /\
    a_ready (abs (store w') "orders") = drop 2 (a_ready (abs (store w_busy) "orders")).
Proof.
  apply (consume_batch_prefix "orders" 2 w_busy);
    [exact w_busy_inv|vm_compute; reflexivity|vm_compute; discriminate].
Defined.

Lemma append_then_read_witness :
  exists s', append_to_log [blank 2 3; blank 2 4] s_log = (Done tt, s') /\
    LogInv s' /\ log_of s' = foldl (fun l e => log_put e l) (log_of s_log) [blank 2 3; blank 2 4] /\
    state_machine s' = state_machine s_log /\
    try_get_log_entries (Included 2) (Excluded 5) s' =
      (Done (List.filter (fun e => in_bounds (Included 2) (Excluded 5) (idx e) && (idx e <? u64_lim - 1)) (log_of s')), s').
Proof.
  apply (append_then_read [blank 2 3; blank 2 4] (Included 2) (Excluded 5) s_log).
  - exact s_log_inv.
  - repeat (constructor; [apply blank_loggable; [reflexivity|lia]|]). constructor.
  - cbn. lia.
  - cbn. lia.
Defined.

Lemma conflict_resolution_witness :
  exists s1 s2, delete_conflict_logs_since (id_at 1 2) s_log = (Done tt, s1) /\
    append_to_log [blank 2 2; blank 2 3] s1 = (Done tt, s2) /\
    LogInv s2 /\ log_of s2 = List.filter (fun e => idx e <? 2) (log_of s_log) ++ [blank 2 2; blank 2 3].
Proof.
  apply (conflict_resolution (id_at 1 2) [blank 2 2; blank 2 3] s_log).
  - exact s_log_inv.
  - cbn. lia.
  - repeat (constructor; [apply blank_loggable; [reflexivity|lia]|]). constructor.
  - repeat constructor.
  - repeat (constructor; [cbn; lia|]). constructor.
Defined.

Lemma purge_then_state_witness :
  exists s', purge_logs_upto (id_at 1 3) s_log = (Done tt, s') /\ LogInv s' /\
    log_of s' = List.filter (fun e => 3 <? idx e) (log_of s_log) /\
    state_machine s' = state_machine s_log /\
    get_log_state s' = (Done (mkLogState (Some (id_at 1 3))
      (match last (log_of s') with Some e => Some (log_id e) | None => Some (id_at 1 3) end)), s').
Proof.
  apply (purge_then_state (id_at 1 3) s_log); [exact s_log_inv|cbn; lia|].
  apply (codec_json_ok c_logid); [apply _|reflexivity].
Defined.

Definition demo_vote : @Vote DemoRaft := (3, 1).
Definition demo_members : @Membership DemoRaft := [1; 2; 3].

Lemma vote_roundtrip_witness :
  exists s', save_vote demo_vote s_log = (Done tt, s') /\ read_vote s' = (Done (Some demo_vote), s') /\
    log_of s' = log_of s_log /\ state_machine s' = state_machine s_log.
Proof.
  apply (vote_roundtrip demo_vote s_log). apply (codec_json_ok (c_pair (c_uint 8) (c_uint 8))); [apply _|reflexivity].
Defined.

(** A committed prefix: a command, a membership change, a command. *)
Definition committed : list Entry :=
  [command 1 1 (Consume "orders"); mkEntry (id_at 1 2) (MembershipChange demo_members);
   command 1 3 (PublishBatch "orders" [msg 7 1; msg 8 2])].
Definition s_snap : RaftStoreInner := store_with w_snap.

Lemma apply_log_witness :
  exists rs s', apply_to_state_machine (committed ++ [command 2 4 (ConsumeBatch "orders" 5)]) s_snap = (Done rs, s') /\
    log_answers (committed ++ [command 2 4 (ConsumeBatch "orders" 5)]) w_snap rs /\
    state_machine s' = log_effect (committed ++ [command 2 4 (ConsumeBatch "orders" 5)]) w_snap /\
    SysInv (state_machine s') /\ log_tree s' = log_tree s_snap /\
    meta_get_single LogId "last_applied" s' = (Done (Some (id_at 2 4)), s').
Proof.
  apply (apply_log committed (command 2 4 (ConsumeBatch "orders" 5)) s_snap).
  - exact w_snap_sys.
  - repeat (constructor; [split; [apply (codec_json_ok c_logid); [apply _|reflexivity]|
      first [exact I|apply (codec_json_ok c_stored); [apply _|reflexivity]]]|]). constructor.
  - cbn [app committed admissible_log RaftStore.payload command].
    split; [apply admissible_run_b_spec; vm_compute; reflexivity|].
    split; [exact I|].
    split; [apply admissible_run_b_spec; vm_compute; reflexivity|].
    split; [apply admissible_run_b_spec; vm_compute; reflexivity|exact I].
Defined.

(** The builder has applied the entry of index 9. *)
Definition s_applied : RaftStoreInner := r_exec (meta_set "last_applied" (id_at 1 9)) s_snap.
Definition data_of (s : RaftStoreInner) : bytes := enc c_snapshot (snapshot_of (store (state_machine s))).

Lemma s_applied_last : meta_opt "last_applied" (Some (id_at 1 9)) s_applied.
Proof. exists (enc c_logid (id_at 1 9)). split; vm_compute; reflexivity. Qed.

Lemma snapshot_transfer_witness :
  exists m s' t', build_snapshot s_applied = (Done (m, data_of s_applied), s') /\
    install_snapshot m (data_of s_applied) s_fresh = (Done tt, t') /\
    (forall q, declared (store (state_machine t')) q = declared (store (state_machine s_applied)) q) /\
    (forall q, declared (store (state_machine s_applied)) q = true ->
       Copied (store (state_machine s_applied)) (store (state_machine t')) q) /\
    last_applied_state t' = (Done (Some (id_at 1 9), default_stored), t') /\
    current_snapshot t' = Some (mkSnap m (data_of s_applied)).
Proof.
  apply (snapshot_transfer (id_at 1 9) None (data_of s_applied) (enc c_logid (id_at 1 9))
    (enc c_stored default_stored) (str_bytes "1") s_applied s_fresh).
  - exact w_snap_sys.
  - vm_compute. reflexivity.
  - vm_compute. reflexivity.
  - vm_compute. reflexivity.
  - exact s_applied_last.
  - vm_compute. reflexivity.
  - vm_compute. reflexivity.
  - vm_compute. reflexivity.
  - vm_compute. reflexivity.
  - vm_compute. reflexivity.
  - vm_compute. reflexivity.
  - vm_compute. reflexivity.
  - vm_compute. reflexivity.
  - intros w1 Hrun. apply (f_equal (fun r => idgen r.2)) in Hrun. cbn [snd] in Hrun. rewrite <- Hrun.
    vm_compute. discriminate.
Defined.

Lemma second_snapshot_panics_witness :
  exists m s', build_snapshot s_applied = (Done (m, data_of s_applied), s') /\ (build_snapshot s').1 = Panic.
Proof.
  apply (second_snapshot_panics (Some (id_at 1 9)) None (data_of s_applied) (str_bytes "1") s_applied).
  - exact w_snap_sys.
  - vm_compute. reflexivity.
  - exact s_applied_last.
  - vm_compute. reflexivity.
  - vm_compute. reflexivity.
  - vm_compute. reflexivity.
  - cbn. lia.
Defined.

(** A node with a log and a busy engine, before its restart. *)
Definition s_running : RaftStoreInner := set_state_machine w_snap s_log.

Lemma node_restart_witness :
  exists s', open_store (Ok (db (qm (state_machine s_running)))) (Ok (r_db s_running)) (mkEnv 50 0) = Done s' /\
    LogInv s' /\ log_of s' = log_of s_running.
Proof.
  destruct (node_restart s_running (mkEnv 50 0)) as (s' & Hop & HL & Hl & _).
  - destruct s_log_inv as [Hso Hf]. split; [exact Hso|exact Hf].
  - exact (sys_inv _ w_snap_sys).
  - vm_compute. reflexivity.
  - exists s'. split; [exact Hop|]. split; [exact HL|exact Hl].
Defined.
