(* ===== verification/RaftFaults.v ===== *)
(** * RaftFaults: the Raft log on a failing disk

    The storage calls of [RaftStore] when any call of the Raft database may fail.
    A call is a sequence of atomic writes to the log, the vote and the purge point;
    one that reports success made them all, one that fails made the first of them,
    and nothing else of the store changes.  A removal that fails half way leaves a
    gap in the log. *)

From Stdlib Require Import ZArith Lia Sorted.
From stdpp Require Import prelude gmap strings sorting.
From S2P Require Import Prelude Bytes OrdMap Sled Message Bincode Keys QueueManager Store Spec.
From S2P Require Import Engine Maintenance Retention Snapshot StateMachine RaftStore RaftLog Faults.
From S2P Require Import Fsck System SystemDemo RaftDemo FaultTheorems.

Section RaftFaults.
Context `{!Sled, !SledLaws, !SledFaults, !Bincode, !Environment, !BuildProfile, !RaftTypes}.
Context `{!Json Entry, !Json LogId, !Json (option LogId), !Json Vote, !Json StoredMembership,
          !Json Z, !Json QueueManagerSnapshot}.
Implicit Types s : RaftStoreInner.

(** ** Calls, answers, and what a caller sees of the store *)

Inductive LogCall :=
| CAppend (es : list Entry)
| CTruncate (id : LogId)
| CPurge (id : LogId)
| CSaveVote (x : Vote)
| CReadVote
| CReadLog (lo hi : Bound)
| CLogState.

Inductive LogAnswer := AUnit | AVote (x : option Vote) | AEntries (es : list Entry) | AState (st : LogState).

Definition attempt_call (c : LogCall) : RM LogAnswer :=
  match c with
  | CAppend es => append_to_log es ;;; ret AUnit
  | CTruncate id => delete_conflict_logs_since id ;;; ret AUnit
  | CPurge id => purge_logs_upto id ;;; ret AUnit
  | CSaveVote x => save_vote x ;;; ret AUnit
  | CReadVote => let* x := read_vote in ret (AVote x)
  | CReadLog lo hi => let* es := try_get_log_entries lo hi in ret (AEntries es)
  | CLogState => let* st := get_log_state in ret (AState st)
  end.

(** openraft's arguments: indices are 64-bit, values have a JSON form. *)
Definition call_valid (c : LogCall) : Prop :=
  match c with
  | CAppend es => Forall loggable es
  | CTruncate id => 0 <= index id < u64_lim
  | CPurge id => 0 <= index id < u64_lim /\ json_ok id
  | CSaveVote x => json_ok x
  | CReadLog lo hi => u64_bound lo /\ u64_bound hi
  | CReadVote | CLogState => True
  end.

Record RaftView := mkRView { rv_log : list Entry; rv_vote : option Vote; rv_purged : option LogId }.

Definition meta_value (T : Type) `{!Json T} (key : string) s : option T :=
  x ← o_get (str_bytes key) (meta_tree s); result_opt (from_slice x).

Definition rview s : RaftView := mkRView (log_of s) (meta_value Vote "vote" s) (meta_value LogId "last_purged" s).

(** ** Atomic writes *)

Definition put_entry (e : Entry) (v : RaftView) : RaftView := mkRView (log_put e (rv_log v)) (rv_vote v) (rv_purged v).
Definition del_entry (e : Entry) (v : RaftView) : RaftView :=
  mkRView (List.filter (fun x => negb (idx x =? idx e)) (rv_log v)) (rv_vote v) (rv_purged v).
Definition put_vote (x : Vote) (v : RaftView) : RaftView := mkRView (rv_log v) (Some x) (rv_purged v).
Definition put_purged (id : LogId) (v : RaftView) : RaftView := mkRView (rv_log v) (rv_vote v) (Some id).

Definition writes (c : LogCall) (v : RaftView) : list (RaftView -> RaftView) :=
  match c with
  | CAppend es => map put_entry es
  | CTruncate id => map del_entry (List.filter (fun e => index id <=? idx e) (rv_log v))
  | CPurge id => map del_entry (List.filter (fun e => idx e <=? index id) (rv_log v)) ++ [put_purged id]
  | CSaveVote x => [put_vote x]
  | CReadVote | CReadLog _ _ | CLogState => []
  end.

Definition written (ws : list (RaftView -> RaftView)) (v : RaftView) : RaftView := foldl (fun v f => f v) v ws.

(** What a call that succeeds answers. *)
Definition answered (c : LogCall) (v : RaftView) (a : LogAnswer) : Prop :=
  match c with
  | CReadVote => a = AVote (rv_vote v)
  | CReadLog lo hi => a = AEntries (List.filter (fun e => in_bounds lo hi (idx e) && (idx e <? u64_lim - 1)) (rv_log v))
  | CLogState =>
    a = AState (mkLogState (rv_purged v) (match last (rv_log v) with Some e => Some (log_id e) | None => rv_purged v end))
  | _ => a = AUnit
  end.

(** What a call may do. *)
Definition allowed (c : LogCall) (o : Outcome StorageError LogAnswer) (v v' : RaftView) : Prop :=
  match o with
  | Done a => v' = written (writes c v) v /\ answered c v a
  | Fail _ => exists ws, ws `prefix_of` writes c v /\ v' = written ws v
  | Panic | OutOfFuel => False
  end.

(** ** Rules for the failing database *)

(** The Raft database holds [c]; nothing else changed. *)
Definition stored_as (c : store_t) s s' : Prop :=
  r_store s' = c /\ state_machine s' = state_machine s /\ current_snapshot s' = current_snapshot s.

(** A failing call leaves the contents as they are. *)
Definition r_faults (F : StorageError -> RaftStoreInner -> Prop) s : Prop :=
  forall e s', stored_as (r_store s) s s' -> F e s'.

Lemma wpe_r_update {A} v (f : db_t -> Result string A * db_t) (Q : A -> RaftStoreInner -> Prop)
    (F : StorageError -> RaftStoreInner -> Prop) s :
  (forall e d, f (r_db s) = (Err e, d) -> F (mkSE v e) (set_r_db d s)) ->
  (forall a d, f (r_db s) = (Ok a, d) -> Q a (set_r_db d s)) -> wpe (r_update v f) Q F s.
Proof.
  intros He HQ. unfold wpe, wp, r_update. destruct (f (r_db s)) as [[a|e] d] eqn:E; cbn; [by apply HQ|by apply He].
Qed.

(** A write that succeeds has taken effect, one that fails may have. *)
Lemma wpe_r_insert v t k x (Q : unit -> RaftStoreInner -> Prop) F s :
  r_faults F s ->
  (forall s', stored_as (c_insert t k x (r_store s)) s s' -> (forall e, F e s') /\ Q tt s') ->
  wpe (r_update v (tree_insert t k x)) Q F s.
Proof.
  intros HF HQ. apply wpe_r_update.
  - intros e d [[Hc _]|[Hc _]]%tree_insert_fault; [by apply HF|by apply HQ].
  - intros [] d Hd%tree_insert_law. apply HQ. split_and!; [|done..]. unfold r_store at 1. cbn. rewrite Hd. apply contents_insert.
Qed.

Lemma wpe_r_remove v t k (Q : option bytes -> RaftStoreInner -> Prop) F s :
  r_faults F s ->
  (forall r s', stored_as (c_remove t k (r_store s)) s s' -> (forall e, F e s') /\ Q r s') ->
  wpe (r_update v (tree_remove t k)) Q F s.
Proof.
  intros HF HQ. apply wpe_r_update.
  - intros e d [[Hc _]|[Hc _]]%tree_remove_fault; [by apply HF|by apply (HQ None)].
  - intros r d [_ Hd]%tree_remove_law. apply HQ. split_and!; [|done..]. unfold r_store at 1. cbn. rewrite Hd. apply contents_remove.
Qed.

Lemma wpe_r_flush v (Q : unit -> RaftStoreInner -> Prop) F s :
  r_faults F s -> (forall s', stored_as (r_store s) s s' -> Q tt s') -> wpe (r_update v flush) Q F s.
Proof.
  intros HF HQ. apply wpe_r_update; [intros e d [Hc _]%flush_fault; by apply HF|].
  intros [] d Hd%flush_law. apply HQ. split_and!; [|done..]. unfold r_store. cbn. by rewrite Hd.
Qed.

Lemma wpe_r_get v t k (Q : option bytes -> RaftStoreInner -> Prop) F s :
  r_faults F s -> Q (o_get k (look (r_store s) t)) s -> wpe (r_read v (tree_get t k)) Q F s.
Proof.
  intros HF HQ. unfold wpe, wp, r_read. destruct (tree_get t k (r_db s)) as [r|e] eqn:E; cbn.
  - apply tree_get_law in E as ->. by rewrite <- look_contents.
  - by apply HF.
Qed.

Lemma wpe_r_last v t (Q : option (bytes * bytes) -> RaftStoreInner -> Prop) F s :
  r_faults F s -> Q (last (look (r_store s) t)) s -> wpe (r_read v (tree_last t)) Q F s.
Proof.
  intros HF HQ. unfold wpe, wp, r_read. destruct (tree_last t (r_db s)) as [r|e] eqn:E; cbn.
  - apply tree_last_law in E as ->. by rewrite <- look_contents.
  - by apply HF.
Qed.

Lemma wpe_to_storage_err {A} v (r : Result string A) (Q : A -> RaftStoreInner -> Prop) F s :
  r_faults F s -> (forall a, r = Ok a -> Q a s) -> wpe (to_storage_err v r) Q F s.
Proof. intros HF HQ. destruct r as [a|e]; cbn; [apply wpe_ret; by apply HQ|]. apply wpe_fail. by apply HF. Qed.

(** ** The store between two writes *)

(** The writes [ws] were made since [s]. *)
Definition reached ws s s' : Prop :=
  LogInv s' /\ rview s' = written ws (rview s) /\
  state_machine s' = state_machine s /\ current_snapshot s' = current_snapshot s.

(** A prefix of the writes [ws] was made since [s]. *)
Definition cut ws s (_ : StorageError) s' : Prop := exists pre, pre `prefix_of` ws /\ reached pre s s'.

Lemma reached_refl s : LogInv s -> reached [] s s.
Proof. intros HI. by split_and!. Qed.

Lemma rview_same c s s' : stored_as c s s' -> c = r_store s -> rview s' = rview s /\ (LogInv s -> LogInv s').
Proof.
  intros (HS & _) ->. split; [by unfold rview, meta_value, log_of, log_tree, meta_tree; rewrite HS|].
  intros [Hs Hf]. split; unfold log_tree; by rewrite HS.
Qed.

Lemma reached_same ws s s1 s' : reached ws s s1 -> stored_as (r_store s1) s1 s' -> reached ws s s'.
Proof.
  intros (HI & Hv & Hsm & Hc) Hst. destruct (rview_same _ _ _ Hst eq_refl) as [Hv' HI'].
  destruct Hst as (_ & Hsm' & Hc'). split_and!; [auto|congruence..].
Qed.

Lemma r_faults_cut pre ws s s1 : pre `prefix_of` ws -> reached pre s s1 -> r_faults (cut ws s) s1.
Proof. intros Hpre Hr e s' Hst. exists pre. split; [done|]. by eapply reached_same. Qed.

Lemma r_faults_start ws s : LogInv s -> r_faults (cut ws s) s.
Proof. intros HI. apply (r_faults_cut []); [apply prefix_nil|by apply reached_refl]. Qed.

Lemma reached_flush v ws s s1 :
  reached ws s s1 -> wpe (r_update v flush) (fun _ => reached ws s) (cut ws s) s1.
Proof. intros Hr. apply wpe_r_flush; [by eapply r_faults_cut|]. intros s' Hst. by eapply reached_same. Qed.

Lemma written_snoc ws f v : written (ws ++ [f]) v = f (written ws v).
Proof. unfold written. by rewrite foldl_app. Qed.

(** One more write. *)
Lemma reached_snoc ws f s s1 s' c :
  reached ws s s1 -> stored_as c s1 s' -> LogInv s' -> rview s' = f (rview s1) -> reached (ws ++ [f]) s s'.
Proof.
  intros (_ & Hv & Hsm & Hc) (_ & Hsm' & Hc') HI Hv'. split_and!; [done| |congruence..].
  by rewrite written_snoc, Hv', Hv.
Qed.

(** A write that may have failed is the last of a prefix. *)
Lemma cut_or_reached pre ws s s' : pre `prefix_of` ws -> reached pre s s' -> (forall e, cut ws s e s') /\ reached pre s s'.
Proof. intros Hpre Hr. split; [intros e; by exists pre|done]. Qed.

(** *** Filing an entry *)
Lemma put_write e x s s' :
  LogInv s -> from_slice x = Ok e -> 0 <= idx e < u64_lim ->
  stored_as (c_insert LOG_TREE (be64 (idx e)) x (r_store s)) s s' -> LogInv s' /\ rview s' = put_entry e (rview s).
Proof.
  intros [Hs Hf] Hx He (HS & _).
  assert (log_tree s' = o_insert (be64 (idx e)) x (log_tree s)) as HT by (unfold log_tree; rewrite HS; apply look_c_insert).
  assert (meta_tree s' = meta_tree s) as HM by (unfold meta_tree; rewrite HS; by apply look_c_insert_ne).
  split; [split; [rewrite HS; by apply c_sorted_insert|rewrite HT; apply Forall_o_insert; [by exists e|done]]|].
  unfold rview, put_entry, meta_value, log_of. rewrite HM, HT. by rewrite dec_insert.
Qed.

(** *** Removing an entry *)
Lemma o_remove_filter k t : o_sorted t -> o_remove k t = List.filter (fun kv => negb (bool_decide (k = kv.1))) t.
Proof.
  induction t as [|[k' v] t IH]; cbn; [done|]. intros [Hall Hs]. case_bool_decide as Hk; subst; cbn; [|by rewrite IH].
  rewrite <- IH by done. symmetry. apply o_remove_absent, o_get_None_elem. unfold keys. rewrite list_elem_of_fmap.
  intros ([k v'] & -> & Hin). rewrite Forall_forall in Hall. by destruct (lex_lt_irrefl _ (Hall _ Hin)).
Qed.

Lemma be64_inj i j : 0 <= i < u64_lim -> 0 <= j < u64_lim -> be64 i = be64 j -> i = j.
Proof.
  intros Hi Hj Hb. pose proof (be64_cmp i j Hi Hj) as Hc. rewrite Hb, be64_cmp, Z.compare_refl in Hc by done.
  by apply Z.compare_eq.
Qed.

Lemma dec_remove i t :
  o_sorted t -> Forall filed t -> 0 <= i < u64_lim ->
  omap dec_entry (o_remove (be64 i) t) = List.filter (fun x => negb (idx x =? i)) (omap dec_entry t).
Proof.
  intros Hs Hf Hi. rewrite o_remove_filter by done. apply dec_filter; [done|]. intros kv e Hkv Hd. f_equal.
  destruct (filed_idx _ _ Hkv Hd) as [-> He]. apply eq_true_iff_eq. rewrite bool_decide_eq_true, Z.eqb_eq.
  split; [intros Hb%be64_inj; congruence|by intros ->].
Qed.

Lemma del_write e s s' :
  LogInv s -> 0 <= idx e < u64_lim ->
  stored_as (c_remove LOG_TREE (be64 (idx e)) (r_store s)) s s' -> LogInv s' /\ rview s' = del_entry e (rview s).
Proof.
  intros [Hs Hf] He (HS & _).
  assert (log_tree s' = o_remove (be64 (idx e)) (log_tree s)) as HT by (unfold log_tree; rewrite HS; apply look_c_remove).
  assert (meta_tree s' = meta_tree s) as HM by (unfold meta_tree; rewrite HS; by apply look_c_remove_ne).
  split; [split; [rewrite HS; by apply c_sorted_remove|rewrite HT; by apply Forall_o_remove]|].
  unfold rview, del_entry, meta_value, log_of. rewrite HM, HT. rewrite dec_remove; [done|apply Hs|done..].
Qed.

(** *** Writing metadata *)
Lemma meta_value_insert `{!Json T} key key' x (a : T) s s' :
  stored_as (c_insert META_TREE (str_bytes key) x (r_store s)) s s' -> from_slice x = Ok a ->
  meta_value T key s' = Some a /\ (forall T' (HJ : Json T'), key' <> key -> meta_value T' key' s' = meta_value T' key' s).
Proof.
  intros Hst Hx. split; unfold meta_value.
  - rewrite (meta_written_get key x s s' Hst). cbn. by rewrite Hx.
  - intros T' HJ Hne. by rewrite (meta_written_ne key x s s' key' Hst).
Qed.

Lemma vote_write x b s s' :
  LogInv s -> from_slice b = Ok x ->
  stored_as (c_insert META_TREE (str_bytes "vote") b (r_store s)) s s' -> LogInv s' /\ rview s' = put_vote x (rview s).
Proof.
  intros HI Hb Hst. split; [by eapply (meta_written_inv "vote")|]. unfold rview, put_vote, log_of. cbn.
  rewrite (meta_written_log _ _ _ _ Hst). destruct (meta_value_insert _ "last_purged" _ _ _ _ Hst Hb) as [-> ->]; done.
Qed.

Lemma purged_write id b s s' :
  LogInv s -> from_slice b = Ok id ->
  stored_as (c_insert META_TREE (str_bytes "last_purged") b (r_store s)) s s' ->
  LogInv s' /\ rview s' = put_purged id (rview s).
Proof.
  intros HI Hb Hst. split; [by eapply (meta_written_inv "last_purged")|]. unfold rview, put_purged, log_of. cbn.
  rewrite (meta_written_log _ _ _ _ Hst). destruct (meta_value_insert _ "vote" _ _ _ _ Hst Hb) as [-> ->]; done.
Qed.

(** ** The calls *)

(** A loop that makes one write per item. *)
Lemma wpe_writes {A B} (key : A -> B) (f : A -> RaftView -> RaftView) (body : B -> RM unit) es pre ws s s1 :
  pre ++ map f es `prefix_of` ws -> reached pre s s1 ->
  (forall e pre s2, e ∈ es -> pre ++ [f e] `prefix_of` ws -> reached pre s s2 ->
     wpe (body (key e)) (fun _ => reached (pre ++ [f e]) s) (cut ws s) s2) ->
  wpe (for_each (map key es) body) (fun _ => reached (pre ++ map f es) s) (cut ws s) s1.
Proof.
  revert pre s1. induction es as [|e es IH]; intros pre s1 Hpre Hr Hb; cbn.
  { rewrite app_nil_r. by apply wpe_ret. }
  cbn in Hpre. replace (pre ++ f e :: map f es) with ((pre ++ [f e]) ++ map f es) in * by (by rewrite <- app_assoc).
  apply wpe_bind. eapply wpe_mono; [apply Hb; [left|by eapply prefix_app_l|done]| |done].
  intros [] s2 Hr2. apply IH; [done|done|]. intros e' pre' s3 Hin. apply Hb. by right.
Qed.

Lemma append_faults es s :
  LogInv s -> Forall loggable es ->
  wpe (append_to_log es) (fun _ => reached (map put_entry es) s) (cut (map put_entry es) s) s.
Proof.
  intros HI Hall. unfold append_to_log. apply wpe_bind. rewrite <- (map_id es) at 1.
  eapply wpe_mono; [apply (wpe_writes (fun e => e) put_entry _ es []); [done|by apply reached_refl|]| |done].
  - intros e pre s2 Hin Hpre Hr. rewrite Forall_forall in Hall. destruct (Hall _ Hin) as [(x & Hx & Hv) He]. rewrite Hx.
    cbn [to_storage_err]. apply wpe_bind, wpe_ret, wpe_r_insert; [eapply r_faults_cut; [|done]; by eapply prefix_app_l|].
    intros s3 Hst. destruct (put_write e x s2 s3) as [HI3 Hv3]; [apply Hr|done..|].
    eapply cut_or_reached; [done|]. by eapply reached_snoc.
  - intros [] s1. apply reached_flush.
Qed.

Lemma collect_keys_items items ks : collect_keys items = Ok ks -> exists l, all_ok items = Some l /\ ks = map fst l.
Proof.
  revert ks. induction items as [|[kv|e] items IH]; intros ks; cbn; [intros [= <-]; by exists []| |done].
  destruct (collect_keys items) as [ks'|]; [|done]. intros [= <-]. destruct (IH _ eq_refl) as (l & -> & ->). by exists (kv :: l).
Qed.

(** The keys of the selected records are the indices of the selected entries. *)
Lemma dec_keys (f : bytes * bytes -> bool) (g : Entry -> bool) t :
  Forall filed t -> (forall kv e, filed kv -> dec_entry kv = Some e -> f kv = g e) ->
  map fst (List.filter f t) = map (fun e => be64 (idx e)) (List.filter g (omap dec_entry t)).
Proof.
  intros Ht Hfg. induction Ht as [|kv t Hkv Ht IH]; cbn; [done|].
  destruct (filed_dec _ Hkv) as (e & Hd & Hk & _). rewrite Hd. cbn. rewrite (Hfg kv e Hkv Hd).
  destruct (g e); cbn; [by rewrite Hk, IH|done].
Qed.

Definition removals (lo hi : Z) s : list (RaftView -> RaftView) := map del_entry (List.filter (in_range_incl lo hi) (log_of s)).

Lemma remove_range_faults lo hi ws s :
  LogInv s -> 0 <= lo < u64_lim -> 0 <= hi < u64_lim -> removals lo hi s `prefix_of` ws ->
  wpe (remove_range lo hi) (fun _ => reached (removals lo hi s) s) (cut ws s) s.
Proof.
  intros HI Hlo Hhi Hws. unfold remove_range. apply wpe_bind, wpe_gets, wpe_bind.
  apply wpe_to_storage_err; [by apply r_faults_start|]. intros ks Hks.
  apply collect_keys_items in Hks as (l & Hl%tree_range_incl_law & ->). rewrite <- look_contents in Hl.
  change (look (contents (view (r_db s))) LOG_TREE) with (log_tree s) in Hl. subst l. unfold o_range_incl.
  rewrite filter_bool, (dec_keys _ (in_range_incl lo hi)); [|apply HI|].
  - apply (wpe_writes (fun e => be64 (idx e)) del_entry _ _ []); [done|by apply reached_refl|].
    intros e pre s2 Hin Hpre Hr. apply list_elem_of_In, List.filter_In in Hin as [Hin _]. apply list_elem_of_In in Hin.
    pose proof (log_idx s HI) as Hidx. rewrite Forall_forall in Hidx. specialize (Hidx _ Hin).
    apply wpe_bind, wpe_r_remove; [eapply r_faults_cut; [|done]; by eapply prefix_app_l|].
    intros r s3 Hst. destruct (del_write e s2 s3) as [HI3 Hv3]; [apply Hr|done..|].
    destruct (cut_or_reached (pre ++ [del_entry e]) ws s s3) as [Hcut Hr3]; [done|by eapply reached_snoc|].
    split; [done|by apply wpe_ret].
  - intros kv e Hkv Hd. destruct (filed_idx _ _ Hkv Hd) as [-> He]. apply eq_true_iff_eq.
    rewrite bool_decide_eq_true, !be64_lt by done. unfold in_range_incl. rewrite andb_true_iff, !Z.leb_le. lia.
Qed.

Lemma filter_same {A} (f g : A -> bool) l : Forall (fun x => f x = g x) l -> List.filter f l = List.filter g l.
Proof. induction 1 as [|x l Hx Hl IH]; cbn; [done|]. by rewrite Hx, IH. Qed.

Lemma removals_from id s : LogInv s -> removals (index id) (u64_lim - 1) s = writes (CTruncate id) (rview s).
Proof.
  intros HI. unfold removals. cbn. f_equal. apply filter_same. eapply Forall_impl; [by apply log_idx|]. intros e He. cbn in He.
  unfold in_range_incl. rewrite (proj2 (Z.leb_le (idx e) _)) by lia. apply andb_true_r.
Qed.

Lemma removals_upto id s :
  LogInv s -> removals 0 (index id) s ++ [put_purged id] = writes (CPurge id) (rview s).
Proof.
  intros HI. unfold removals. cbn. do 2 f_equal. apply filter_same. eapply Forall_impl; [by apply log_idx|]. intros e He. cbn in He.
  unfold in_range_incl. by rewrite (proj2 (Z.leb_le 0 (idx e))) by lia.
Qed.

Lemma truncate_faults id s :
  LogInv s -> 0 <= index id < u64_lim ->
  wpe (delete_conflict_logs_since id) (fun _ => reached (writes (CTruncate id) (rview s)) s)
    (cut (writes (CTruncate id) (rview s)) s) s.
Proof.
  intros HI Hid. rewrite <- removals_from by done. unfold delete_conflict_logs_since. apply wpe_bind.
  eapply wpe_mono; [apply remove_range_faults; [done|done|lia|reflexivity]| |done]. intros [] s1. apply reached_flush.
Qed.

Lemma purge_faults id s :
  LogInv s -> 0 <= index id < u64_lim -> json_ok id ->
  wpe (purge_logs_upto id) (fun _ => reached (writes (CPurge id) (rview s)) s) (cut (writes (CPurge id) (rview s)) s) s.
Proof.
  intros HI Hid (b & Hb & Hv). rewrite <- removals_upto by done. set (ws := removals 0 (index id) s ++ [put_purged id]).
  unfold purge_logs_upto. apply wpe_bind.
  eapply wpe_mono; [apply (remove_range_faults _ _ ws); [done|lia|done|by apply prefix_app_r]| |done]. intros [] s1 Hr.
  apply wpe_bind. unfold meta_set. rewrite Hb. cbn [to_storage_err].
  apply wpe_bind, wpe_ret, wpe_bind, wpe_r_insert; [eapply r_faults_cut; [|done]; by apply prefix_app_r|].
  intros s2 Hst. destruct (purged_write id b s1 s2) as [HI2 Hv2]; [apply Hr|done..|].
  assert (reached ws s s2) as Hr2 by (by eapply reached_snoc). split; [by apply (cut_or_reached ws)|].
  eapply wpe_mono; [by apply reached_flush| |done]. intros [] s3. apply reached_flush.
Qed.

Lemma save_vote_faults x s :
  LogInv s -> json_ok x -> wpe (save_vote x) (fun _ => reached [put_vote x] s) (cut [put_vote x] s) s.
Proof.
  intros HI (b & Hb & Hv). unfold save_vote, meta_set. rewrite Hb. cbn [to_storage_err].
  apply wpe_bind, wpe_ret, wpe_bind, wpe_r_insert; [by apply r_faults_start|]. intros s1 Hst.
  destruct (vote_write x b s s1) as [HI1 Hv1]; [done..|].
  pose proof (reached_snoc [] _ s s s1 _ (reached_refl s HI) Hst HI1 Hv1) as Hr.
  split; [by apply (cut_or_reached [put_vote x])|by apply reached_flush].
Qed.

(** *** Reading *)
Lemma meta_get_faults (T : Type) `{!Json T} key s :
  LogInv s -> wpe (meta_get_single T key) (fun r s' => r = meta_value T key s /\ s' = s) (cut [] s) s.
Proof.
  intros HI. unfold meta_get_single. apply wpe_bind, wpe_r_get; [by apply r_faults_start|]. fold (meta_tree s).
  unfold meta_value. destruct (o_get _ _) as [b|]; cbn; [|by apply wpe_ret].
  apply wpe_bind, wpe_to_storage_err; [by apply r_faults_start|]. intros a Ha. apply wpe_ret. by rewrite Ha.
Qed.

Lemma read_items_faults items acc s :
  LogInv s ->
  wpe (for_fold items acc (fun entries result =>
    let* kv := to_storage_err Read result in
    let* entry := to_storage_err Read (from_slice kv.2) in
    ret (entries ++ [entry])))
    (fun es s' => s' = s /\ exists l, all_ok items = Some l /\ es = acc ++ omap dec_entry l) (cut [] s) s.
Proof.
  intros HI. revert acc. induction items as [|it items IH]; intros acc; cbn [for_fold].
  { apply wpe_ret. split; [done|]. exists []. by rewrite app_nil_r. }
  apply wpe_bind, wpe_bind, wpe_to_storage_err; [by apply r_faults_start|]. intros kv ->.
  apply wpe_bind, wpe_to_storage_err; [by apply r_faults_start|]. intros e He. apply wpe_ret.
  eapply wpe_mono; [apply IH| |done]. cbn. intros es s' [-> (l & -> & ->)]. split; [done|]. exists (kv :: l). split; [done|].
  cbn. unfold dec_entry at 2. rewrite He. cbn. by rewrite <- app_assoc.
Qed.

Lemma read_log_faults lo hi s :
  LogInv s -> u64_bound lo -> u64_bound hi ->
  wpe (try_get_log_entries lo hi) (fun es s' => AEntries es = AEntries (List.filter (fun e =>
    in_bounds lo hi (idx e) && (idx e <? u64_lim - 1)) (log_of s)) /\ s' = s) (cut [] s) s.
Proof.
  intros HI Hlo Hhi. destruct (range_bounds lo hi Hlo Hhi) as [Hs He].
  rewrite <- filter_in_bounds by (try done; by apply log_idx). unfold try_get_log_entries.
  destruct (range_end hi <=? range_start lo) eqn:E.
  - apply Z.leb_le in E. apply wpe_ret. split; [|done]. f_equal. rewrite (filter_same _ (fun _ => false)).
    + by induction (log_of s).
    + apply Forall_forall. intros e _. unfold in_range. apply not_true_iff_false. rewrite andb_true_iff, Z.leb_le, Z.ltb_lt. lia.
  - apply wpe_bind, wpe_gets. eapply wpe_mono; [by apply read_items_faults| |done]. cbn.
    intros es s' [-> (l & Hl%tree_range_law & ->)]. split; [|done]. rewrite <- look_contents in Hl.
    change (look (contents (view (r_db s))) LOG_TREE) with (log_tree s) in Hl. subst l. f_equal. apply dec_range; [apply HI|done..].
Qed.

Lemma log_state_faults s :
  LogInv s ->
  wpe get_log_state (fun st s' => answered CLogState (rview s) (AState st) /\ s' = s) (cut [] s) s.
Proof.
  intros HI. unfold get_log_state. apply wpe_bind. eapply wpe_mono; [by apply meta_get_faults| |done].
  intros p s' [-> ->]. apply wpe_bind, wpe_r_last; [by apply r_faults_start|]. fold (log_tree s).
  cbn [answered rview rv_log rv_purged]. unfold log_of. rewrite omap_last by apply HI.
  destruct (last (log_tree s)) as [kv|]; cbn [mbind option_bind].
  - apply wpe_bind, wpe_bind, wpe_to_storage_err; [by apply r_faults_start|]. intros e He. unfold dec_entry. rewrite He.
    by apply wpe_ret, wpe_ret.
  - by apply wpe_bind, wpe_ret, wpe_ret.
Qed.

(** ** Any call, any run *)

Lemma wpe_answer {A} (m : RM A) (mk : A -> LogAnswer) ws (P : LogAnswer -> Prop) s :
  wpe m (fun a s' => P (mk a) /\ reached ws s s') (cut ws s) s ->
  wpe (let* a := m in ret (mk a)) (fun a s' => P a /\ reached ws s s') (cut ws s) s.
Proof. intros Hm. apply wpe_bind. eapply wpe_mono; [exact Hm| |done]. intros a s' Ha. by apply wpe_ret. Qed.

Lemma attempt_faults c s :
  LogInv s -> call_valid c ->
  wpe (attempt_call c) (fun a s' => answered c (rview s) a /\ reached (writes c (rview s)) s s')
    (cut (writes c (rview s)) s) s.
Proof.
  intros HI Hc. pose proof (reached_refl s HI) as Hr. destruct c as [es|id|id|x| |lo hi|]; cbn [call_valid attempt_call] in *.
  - eapply (wpe_answer _ (fun _ => AUnit)), wpe_mono; [by apply append_faults|done|done].
  - eapply (wpe_answer _ (fun _ => AUnit)), wpe_mono; [by apply truncate_faults|done|done].
  - eapply (wpe_answer _ (fun _ => AUnit)), wpe_mono; [by apply purge_faults; destruct Hc|done|done].
  - eapply (wpe_answer _ (fun _ => AUnit)), wpe_mono; [by apply save_vote_faults|done|done].
  - apply (wpe_answer _ AVote). eapply wpe_mono; [by apply meta_get_faults| |done]. intros r s' [-> ->]. by split.
  - apply (wpe_answer _ AEntries). eapply wpe_mono; [by apply read_log_faults; destruct Hc| |done]. intros r s' [Ha ->]. by split.
  - apply (wpe_answer _ AState). eapply wpe_mono; [by apply log_state_faults| |done]. intros r s' [Ha ->]. by split.
Qed.

Lemma attempt_allowed c s o s' :
  LogInv s -> call_valid c -> attempt_call c s = (o, s') ->
  LogInv s' /\ allowed c o (rview s) (rview s') /\ state_machine s' = state_machine s /\ current_snapshot s' = current_snapshot s.
Proof.
  intros HI Hc E. pose proof (attempt_faults c s HI Hc) as Hw. unfold wpe, wp in Hw. rewrite E in Hw.
  destruct o as [a|e| |]; cbn in Hw; try done.
  - destruct Hw as (Ha & HI' & Hv & Hsm & Hcs). by split_and!.
  - destruct Hw as (ws & Hpre & HI' & Hv & Hsm & Hcs). split_and!; auto. by exists ws.
Qed.

Inductive log_run : RaftStoreInner -> list (LogCall * Outcome StorageError LogAnswer) -> RaftStoreInner -> Prop :=
| log_run_nil s : log_run s [] s
| log_run_cons s c o s1 h s' :
    call_valid c -> attempt_call c s = (o, s1) -> log_run s1 h s' -> log_run s ((c, o) :: h) s'.

Fixpoint all_allowed (v : RaftView) (h : list (LogCall * Outcome StorageError LogAnswer)) (v' : RaftView) : Prop :=
  match h with
  | [] => v' = v
  | (c, o) :: h' => exists v1, allowed c o v v1 /\ all_allowed v1 h' v'
  end.

Lemma log_run_allowed s h s' :
  LogInv s -> log_run s h s' ->
  LogInv s' /\ all_allowed (rview s) h (rview s') /\
  state_machine s' = state_machine s /\ current_snapshot s' = current_snapshot s.
Proof.
  intros HI Hr. induction Hr as [s|s c o s1 h s' Hc E Hr IH]; [by split_and!|].
  destruct (attempt_allowed c s o s1 HI Hc E) as (HI1 & Ha & Hsm & Hcs). destruct (IH HI1) as (HI' & Hall & Hsm' & Hcs').
  split_and!; [done| |congruence..]. by exists (rview s1).
Qed.

(** ** What survives *)

(** The call is not meant to touch the index. *)
Definition untouched (i : Z) (c : LogCall) : Prop :=
  match c with
  | CAppend es => Forall (fun e => idx e <> i) es
  | CTruncate id => i < index id
  | CPurge id => index id < i
  | CSaveVote _ | CReadVote | CReadLog _ _ | CLogState => True
  end.

(** The votes the disk may hold: the last one saved, and those whose saving failed since. *)
Fixpoint possible_votes (xs : list (option Vote)) (h : list (LogCall * Outcome StorageError LogAnswer)) : list (option Vote) :=
  match h with
  | [] => xs
  | (CSaveVote x, Done _) :: h' => possible_votes [Some x] h'
  | (CSaveVote x, _) :: h' => possible_votes (Some x :: xs) h'
  | _ :: h' => possible_votes xs h'
  end.

Lemma written_keeps (P : RaftView -> Prop) ws v :
  P v -> Forall (fun f => forall v, P v -> P (f v)) ws -> P (written ws v).
Proof. unfold written. intros HP Hall. revert v HP. induction Hall as [|f ws Hf Hall IH]; intros v HP; cbn; auto. Qed.

Lemma Forall_prefix {A} (P : A -> Prop) l l' : l `prefix_of` l' -> Forall P l' -> Forall P l.
Proof. intros [k ->]. by intros [? _]%Forall_app. Qed.

(** What every write of a call keeps, the call keeps, failing or not. *)
Lemma allowed_keeps (P : RaftView -> Prop) c o v v' :
  allowed c o v v' -> P v -> Forall (fun f => forall v, P v -> P (f v)) (writes c v) -> P v'.
Proof.
  intros Ha HP Hall. destruct o as [a|e| |]; cbn in Ha; try done.
  - destruct Ha as [-> _]. by apply written_keeps.
  - destruct Ha as (ws & Hpre & ->). apply written_keeps; [done|]. by eapply Forall_prefix.
Qed.

Lemma log_put_keeps e x l : x ∈ l -> idx e <> idx x -> x ∈ log_put e l.
Proof.
  intros Hin Hne. induction l as [|y l IH]; cbn; [by apply not_elem_of_nil in Hin|].
  apply elem_of_cons in Hin as [->|Hin]; destruct (Z.compare_spec (idx e) (idx y)) as [Heq| |]; try done.
  - right. left.
  - left.
  - by right.
  - right. by right.
  - right. by apply IH.
Qed.

Lemma del_keeps e x (l : list Entry) : x ∈ l -> idx e <> idx x -> x ∈ List.filter (fun y => negb (idx y =? idx e)) l.
Proof.
  intros Hin Hne. apply list_elem_of_In, List.filter_In. split; [by apply list_elem_of_In|].
  apply negb_true_iff, Z.eqb_neq. congruence.
Qed.

Lemma untouched_writes x c v :
  untouched (idx x) c -> Forall (fun f => forall v, x ∈ rv_log v -> x ∈ rv_log (f v)) (writes c v).
Proof.
  assert (forall P : Entry -> bool, (forall e, P e = true -> idx e <> idx x) -> Forall (fun f =>
    forall v, x ∈ rv_log v -> x ∈ rv_log (f v)) (map del_entry (List.filter P (rv_log v)))) as Hdel.
  { intros P HP. apply Forall_map, Forall_forall. intros e He v0 Hin. apply del_keeps; [done|]. apply HP.
    by apply list_elem_of_In, List.filter_In in He as [_ ?]. }
  destruct c as [es|id|id|b| |lo hi|]; cbn; intros Hu; try (by repeat constructor).
  - apply Forall_map. eapply Forall_impl; [exact Hu|]. intros e He v0 Hin. by apply log_put_keeps.
  - apply Hdel. intros e He%Z.leb_le. lia.
  - apply Forall_app. split; [apply Hdel; intros e He%Z.leb_le; lia|by repeat constructor].
Qed.

Lemma all_allowed_entry x v h v' :
  all_allowed v h v' -> x ∈ rv_log v -> Forall (untouched (idx x)) (map fst h) -> x ∈ rv_log v'.
Proof.
  revert v. induction h as [|[c o] h IH]; intros v; cbn; [by intros ->|]. intros (v1 & Ha & Hall) Hin [Hu Hus]%Forall_cons.
  apply (IH v1); auto. eapply (allowed_keeps (fun v => x ∈ rv_log v)); [done|done|by apply untouched_writes].
Qed.

(** Only [CSaveVote] writes the vote. *)
Lemma other_writes_vote c v y :
  (forall x, c <> CSaveVote x) -> Forall (fun f => forall v, rv_vote v = y -> rv_vote (f v) = y) (writes c v).
Proof.
  intros Hc. destruct c as [es|id|id|b| |lo hi|]; cbn; try constructor.
  - by apply Forall_map, Forall_forall.
  - by apply Forall_map, Forall_forall.
  - apply Forall_app. split; [by apply Forall_map, Forall_forall|by repeat constructor].
  - by destruct (Hc b).
  - constructor.
Qed.

Lemma all_allowed_vote v h v' xs :
  all_allowed v h v' -> rv_vote v ∈ xs -> rv_vote v' ∈ possible_votes xs h.
Proof.
  revert v xs. induction h as [|[c o] h IH]; intros v xs; cbn [all_allowed possible_votes]; [by intros ->|].
  intros (v1 & Ha & Hall) Hin.
  assert ((forall x, c <> CSaveVote x) -> rv_vote v1 = rv_vote v) as Hother.
  { intros Hc. eapply (allowed_keeps (fun w => rv_vote w = rv_vote v)); [done|done|by apply other_writes_vote]. }
  destruct c as [es|id|id|b| |lo hi|]; try (apply (IH v1); [done|]; rewrite Hother; done).
  destruct o as [a|e| |]; cbn in Ha; try done.
  - destruct Ha as [-> _]. eapply IH; [done|]. left.
  - destruct Ha as (ws & Hpre & ->). eapply IH; [done|]. destruct Hpre as [k Hk].
    destruct ws as [|f ws]; [by right|]. cbn in Hk. injection Hk as <- Hk.
    symmetry in Hk. apply app_eq_nil in Hk as [-> _]. left.
Qed.
End RaftFaults.

Section Claims.
Context `{!Sled, !SledLaws, !SledFaults, !Bincode, !Environment, !BuildProfile, !RaftTypes}.
Context `{!Json Entry, !Json LogId, !Json (option LogId), !Json Vote, !Json StoredMembership,
          !Json Z, !Json QueueManagerSnapshot}.

(** C25: The Raft log on a failing disk: in any run of appends, truncations,
    purges, votes and reads in which any database call may fail, no call panics and
    the log stays readable; a call that succeeds makes all its writes and answers
    with what the store holds, one that fails makes the first of its writes and no
    other, and the engine and its snapshot do not change.  So an entry stays in the
    log until a call meant for its index, and the vote on disk is the last one
    saved or one whose saving failed since. *)
Theorem raft_log_survives_faults s h s' :
  LogInv s -> log_run s h s' ->
  LogInv s' /\ state_machine s' = state_machine s /\ current_snapshot s' = current_snapshot s /\
  all_allowed (rview s) h (rview s') /\
  (forall e, e ∈ log_of s -> Forall (untouched (idx e)) (map fst h) -> e ∈ log_of s') /\
  rv_vote (rview s') ∈ possible_votes [rv_vote (rview s)] h.
Proof.
  intros HI Hr. destruct (log_run_allowed s h s' HI Hr) as (HI' & Ha & Hsm & Hcs). split_and!; auto.
  - intros e. by apply (all_allowed_entry e (rview s) h (rview s')).
  - apply (all_allowed_vote _ _ _ _ Ha). left.
Qed.
End Claims.

(** ** Witness *)

Module RaftFaultDemo.
Import RaftDemo Flaky.

(** The log of [RaftDemo.s_log] on a disk that serves [n] more calls. *)
Definition log_on_disk (n : nat) : RaftStoreInner :=
  mkInner (mkFlaky (r_db RaftDemo.s_log : View) n false : @db_t FlakySled) (FaultDemo.on_disk n) None.

Lemma log_on_disk_inv n : LogInv (log_on_disk n).
Proof. destruct RaftDemo.s_log_inv as [Hs Hf]. split; [exact Hs|exact Hf]. Qed.

Fixpoint log_history (cs : list LogCall) s : list (LogCall * Outcome StorageError LogAnswer) * RaftStoreInner :=
  match cs with
  | [] => ([], s)
  | c :: cs' => let '(o, s1) := attempt_call c s in let '(h, s') := log_history cs' s1 in ((c, o) :: h, s')
  end.

Lemma log_history_run cs s : Forall call_valid cs -> log_run s (log_history cs s).1 (log_history cs s).2.
Proof.
  intros Hall. revert s. induction Hall as [|c cs Hc Hall IH]; intros s; cbn [log_history]; [constructor|].
  destruct (attempt_call c s) as [o s1] eqn:E. specialize (IH s1). destruct (log_history cs s1) as [h s'].
  econstructor; [exact Hc|exact E|exact IH].
Qed.

(** A new leader's entry 2 is to replace the log from index 2 on; the disk fails after
    the vote was saved and one entry removed. *)
Definition failing_calls : list LogCall :=
  [CSaveVote (2, 1); CTruncate (id_at 1 2); CAppend [blank 2 2]; CLogState].

Lemma failing_calls_valid : Forall call_valid failing_calls.
Proof.
  apply Forall_cons_2; [exact (codec_json_ok (c_pair (c_uint 8) (c_uint 8)) (2, 1) _ eq_refl)|].
  apply Forall_cons_2; [unfold call_valid, id_at; cbn [index]; lia|].
  apply Forall_cons_2; [apply Forall_cons_2; [apply blank_loggable; [reflexivity|lia]|apply Forall_nil_2]|].
  apply Forall_cons_2; [exact I|apply Forall_nil_2].
Qed.

(** The disk serves [n] calls again. *)
Definition recovered (n : nat) s : RaftStoreInner :=
  set_r_db (mkFlaky (held (r_db s : disk)) n false : @db_t FlakySled) s.

(** A truncation that fails half way leaves a gap: entry 2 is gone, entry 3 is
    not, and once the disk is back the store reports 3 as its last log id. *)
Lemma truncation_gap :
  map (fun x => match x.2 with Done _ => true | _ => false end) (log_history failing_calls (log_on_disk 3)).1 =
    [true; false; false; false] /\
  map idx (log_of (log_history failing_calls (log_on_disk 3)).2) = [1; 3] /\
  (attempt_call CLogState (recovered 5 (log_history failing_calls (log_on_disk 3)).2)).1 =
    Done (AState (mkLogState None (Some (id_at 1 3)))).
Proof. split_and!; vm_compute; reflexivity. Qed.
End RaftFaultDemo.

Import RaftDemo Flaky RaftFaultDemo.

Lemma raft_log_survives_faults_witness :
  LogInv (log_history failing_calls (log_on_disk 3)).2 /\
  blank 1 1 ∈ log_of (log_history failing_calls (log_on_disk 3)).2.
Proof.
  destruct (raft_log_survives_faults (log_on_disk 3) (log_history failing_calls (log_on_disk 3)).1
    (log_history failing_calls (log_on_disk 3)).2) as (HI & _ & _ & _ & Hstay & _).
  - exact (log_on_disk_inv 3).
  - exact (log_history_run failing_calls (log_on_disk 3) failing_calls_valid).
  - split; [exact HI|]. apply Hstay.
    + assert (log_of (log_on_disk 3) = [blank 1 1; blank 1 2; blank 1 3]) as -> by (vm_compute; reflexivity). left.
    + assert (map fst (log_history failing_calls (log_on_disk 3)).1 = failing_calls) as -> by (vm_compute; reflexivity).
      unfold failing_calls. repeat constructor; cbn; lia.
Defined.
