(* ===== verification/Replicas.v ===== *)
(** * Replicas: two engines that hold the same messages

    Every node of a cluster files messages under ids of its own database, so two
    nodes that run the same calls hold the same messages under different ids, and
    hand them out under different delivery tags.  [mirror] relates two such engines.
    Every call that does not name a delivery tag and does not depend on the time has
    the same outcome on both, up to the tags it hands out, and keeps the relation. *)

From Stdlib Require Import ZArith Lia.
From stdpp Require Import prelude gmap strings.
From S2P Require Import Prelude Bytes OrdMap Sled Message Bincode Keys QueueManager Store Spec Engine.
From S2P Require Import Invariant Refinement Maintenance Retention Holdings Frames System Delivery.
From S2P Require Import Snapshot StateMachine.

(** ** Queues with the same messages *)

(** The same messages ready, in order; in flight; dead, in order; and scheduled for
    the same times, in order.  Ids and tags may differ. *)
Record same_messages (a1 a2 : AQueue) : Prop := {
  sm_ready : map snd (a_ready a1) = map snd (a_ready a2);
  sm_flying : map snd (map_to_list (a_inflight a1)) ≡ₚ map snd (map_to_list (a_inflight a2));
  sm_dead : map snd (a_dead a1) = map snd (a_dead a2);
  sm_sched : map (fun e => (e.1, smsg e)) (a_sched a1) = map (fun e => (e.1, smsg e)) (a_sched a2);
}.

#[export] Instance same_messages_equiv : Equivalence same_messages.
Proof.
  split.
  - by intros a.
  - intros a1 a2 [? ? ? ?]. split; by symmetry.
  - intros a1 a2 a3 [? ? ? ?] [? ? ? ?]. split; by etrans.
Qed.

Lemma same_messages_holdings a1 a2 : same_messages a1 a2 -> holdings a1 ≡ₚ holdings a2.
Proof.
  intros [Hr Hf Hd Hs]. unfold holdings.
  assert (map smsg (a_sched a1) = map smsg (a_sched a2)) as Hs'.
  { apply (f_equal (map snd)) in Hs. by rewrite !map_map in Hs. }
  by rewrite Hr, Hf, Hd, Hs'.
Qed.

Lemma same_messages_store i1 i2 m a1 a2 :
  same_messages a1 a2 -> same_messages (a_publish (i1, m) a1) (a_publish (i2, m) a2).
Proof. intros [Hr Hf Hd Hs]. split; cbn; auto. by rewrite !enqueue_snd, Hr. Qed.

(** The message delivered is the same, and so is what remains. *)
Lemma same_messages_consume a1 a2 :
  same_messages a1 a2 ->
  (forall e, e ∈ a_ready a1 -> a_inflight a1 !! e.1 = None) ->
  (forall e, e ∈ a_ready a2 -> a_inflight a2 !! e.1 = None) ->
  snd <$> (a_consume a1).1 = snd <$> (a_consume a2).1 /\ same_messages (a_consume a1).2 (a_consume a2).2.
Proof.
  intros Hs Hf1 Hf2. pose proof Hs as [Hr Hf Hd Hsc]. unfold a_consume.
  destruct (a_ready a1) as [|e1 l1] eqn:E1, (a_ready a2) as [|e2 l2] eqn:E2; cbn in Hr; try done.
  injection Hr as He Hl. split; [exact (f_equal Some He)|]. split; cbn; auto.
  rewrite !inflight_insert by (try apply Hf1; try apply Hf2; left). by rewrite Hf, He.
Qed.

Lemma retained_count p now l : max_age_secs p = None -> retained p now l = keep_count p l.
Proof. intros Hp. unfold retained, keep_young. by rewrite Hp. Qed.

Lemma keep_count_snd p l1 l2 : map snd l1 = map snd l2 -> map snd (keep_count p l1) = map snd (keep_count p l2).
Proof.
  intros Hl. assert (length l1 = length l2) as Hlen by (rewrite <- (length_map snd l1), Hl; apply length_map).
  unfold keep_count. destruct (max_messages p); [|done]. by rewrite <- !skipn_map, Hl, Hlen.
Qed.

(** ** What applying an operation keeps *)

Section Applying.
Context `{!Sled, !Bincode, !Environment, !BuildProfile} {R : World -> World -> Prop} `{!Leaves R (fun _ => False)}.

#[local] Instance applying_preorder : PreOrder R := leaves_preorder.

Lemma kept_publish_batch q ms acc : keeps (E := PelicanError) R (publish_batch q ms acc).
Proof.
  revert acc. induction ms as [|m ms IH]; intros acc; cbn [publish_batch]; [keeps|].
  apply keeps_bind; [apply _|apply keeps_try, kept_publish; auto|]. intros [o|e]; [apply IH|keeps].
Qed.

Lemma kept_consume_batch q n acc : keeps (E := PelicanError) R (consume_batch q n acc).
Proof.
  revert acc. induction n as [|n IH]; intros acc; cbn [consume_batch]; [keeps|].
  apply keeps_bind; [apply _|apply keeps_try, kept_consume; auto|]. intros [[d|]|e]; [apply IH|keeps..].
Qed.

Lemma kept_apply op : keeps (E := PelicanError) R (apply_operation op).
Proof.
  assert (forall A (m : QM A) (wrap : Result PelicanError A -> QueueOperationResponse),
    keeps R m -> keeps (E := PelicanError) R (let* r := try m in ret (wrap r))) as Hw by (intros; keeps).
  destruct op as [name p|q m|q ms|q|q n|q t|q t|q|q]; cbn [apply_operation]; unfold declare_queue;
    [apply Hw; case_bool_decide; apply kept_declare; auto|apply Hw; apply kept_publish; auto|
     apply keeps_bind; [apply _|apply kept_publish_batch|intros; keeps]|apply Hw; apply kept_consume; auto|
     apply keeps_bind; [apply _|apply kept_consume_batch|intros; keeps]|apply Hw; apply kept_ack; auto|
     apply Hw; apply kept_nack; auto|apply Hw; apply kept_retention; auto|apply Hw; apply kept_promote; auto].
Qed.
End Applying.

Section Mirror.
Context `{!Sled, !SledLaws, !SledReliable, !Bincode, !BincodeLaws,
          !Environment, !EnvironmentLaws, !BuildProfile}.
Implicit Types w : World.

(** ** Engines with the same messages *)

Record mirror w1 w2 : Prop := {
  mi_inv1 : SysInv w1;
  mi_inv2 : SysInv w2;
  mi_declared : forall q, declared (store w1) q = declared (store w2) q;
  mi_policy : forall q, declared (store w1) q = true -> policy (store w1) q = policy (store w2) q;
  mi_queue : forall q, declared (store w1) q = true -> same_messages (abs (store w1) q) (abs (store w2) q);
  mi_dedup : forall q, declared (store w1) q = true -> dedup_bytes (store w1) q = dedup_bytes (store w2) q;
  mi_bytes : current_bytes (qm w1) = current_bytes (qm w2);
  mi_max : max_bytes (qm w1) = max_bytes (qm w2);
}.

Lemma mirror_refl w : SysInv w -> mirror w w.
Proof. by intros HS. Qed.

Lemma mirror_sym w1 w2 : mirror w1 w2 -> mirror w2 w1.
Proof.
  intros [I1 I2 Hd Hp Hq Hb Hc Hm]. split; auto; intros q; rewrite <- Hd; intros Hdq; symmetry; auto.
Qed.

Lemma mirror_trans w1 w2 w3 : mirror w1 w2 -> mirror w2 w3 -> mirror w1 w3.
Proof.
  intros [I1 I2 Hd Hp Hq Hb Hc Hm] [_ I3 Hd' Hp' Hq' Hb' Hc' Hm'].
  split; auto; try congruence; intros q Hdq; (etrans; [|apply Hp' || apply Hq' || apply Hb'; by rewrite <- Hd]); auto.
Qed.

(** Readings of the clock and the random source do not matter, nor do reads. *)
Lemma mirror_quiet w1 w2 w2' :
  mirror w1 w2 -> store w2' = store w2 -> idgen w2 <= idgen w2' <= u64_lim ->
  current_bytes (qm w2') = current_bytes (qm w2) -> max_bytes (qm w2') = max_bytes (qm w2) -> mirror w1 w2'.
Proof.
  intros [I1 I2 Hd Hp Hq Hb Hc Hm] HS Hg Hb' Hm'. split; rewrite ?HS, ?Hb', ?Hm'; auto.
  eapply ok_inv. by apply StepOk_unchanged.
Qed.

(** Mirrors need the same space. *)
Lemma mirror_names w1 w2 : mirror w1 w2 -> queue_names (store w1) ≡ₚ queue_names (store w2).
Proof.
  intros [I1 I2 Hd _ _ _ _ _]. apply sys_inv in I1, I2.
  apply NoDup_Permutation; [by eapply queue_names_NoDup..|]. intros q.
  by rewrite (queue_names_declared _ _ _ I1), (queue_names_declared _ _ _ I2), Hd.
Qed.

Lemma mirror_total w1 w2 : mirror w1 w2 -> total_bytes (store w1) = total_bytes (store w2).
Proof.
  intros Hm. unfold total_bytes. rewrite <- (sum_over_perm _ _ _ (mirror_names _ _ Hm)). apply sum_over_ext.
  pose proof Hm as [I1 I2 Hd _ Hq Hb _ _]. intros q Hin.
  apply (queue_names_declared _ _ _ (sys_inv _ I1)) in Hin. rewrite (Hb q Hin). f_equal.
  assert (declared (store w2) q = true) as Hin2 by (by rewrite <- Hd).
  rewrite (queue_bytes_content _ _ _ (QInv_QForm _ _ _ (inv_queue _ _ (sys_inv _ I1) _ Hin)) (sys_gen _ I1)).
  rewrite (queue_bytes_content _ _ _ (QInv_QForm _ _ _ (inv_queue _ _ (sys_inv _ I2) _ Hin2)) (sys_gen _ I2)).
  unfold content. by rewrite (same_messages_holdings _ _ (Hq q Hin)).
Qed.

(** A call on one declared queue that leaves the deduplication index alone. *)
Record TouchesQueue q w w' a' : Prop := {
  tq_inv : SysInv w';
  tq_effect : Effect q w w' a';
  tq_dedup : slot (store w') Dedup q = slot (store w) Dedup q;
}.

Lemma TouchesQueue_bytes q w w' a n :
  TouchesQueue q w w' a -> current_bytes (qm w') <= n -> TouchesQueue q w (set_bytes n w') a.
Proof.
  intros [[HI Hg Hf Hp Ht Hb] [] HD] Hn. split; [|by split|done]. split; auto.
  etrans; [exact Hb|exact Hn].
Qed.

Lemma mirror_touch q w1 w1' a1 w2 w2' a2 :
  mirror w1 w2 -> declared (store w1) q = true -> TouchesQueue q w1 w1' a1 -> TouchesQueue q w2 w2' a2 ->
  same_messages a1 a2 -> current_bytes (qm w1') = current_bytes (qm w2') ->
  max_bytes (qm w1') = max_bytes (qm w2') -> mirror w1' w2'.
Proof.
  intros [I1 I2 Hd Hp Hq Hb Hc Hm] Hdq [I1' E1 D1] [I2' E2 D2] Hs Hc' Hm'. split; auto.
  - intros q'. by rewrite (eff_declared _ _ _ _ E1), (eff_declared _ _ _ _ E2).
  - intros q'. rewrite (eff_declared _ _ _ _ E1), (eff_policy _ _ _ _ E1), (eff_policy _ _ _ _ E2). auto.
  - intros q'. rewrite (eff_declared _ _ _ _ E1). intros Hd'. destruct (decide (q' = q)) as [->|Hne].
    + by rewrite (eff_abs _ _ _ _ E1), (eff_abs _ _ _ _ E2).
    + rewrite (eff_others _ _ _ _ E1), (eff_others _ _ _ _ E2); auto. by rewrite <- Hd.
  - intros q'. rewrite (eff_declared _ _ _ _ E1). intros Hd'. pose proof (inv_safe _ _ _ (sys_inv _ I1) Hd') as Hsafe.
    unfold dedup_bytes. destruct (decide (q' = q)) as [->|Hne].
    + rewrite D1, D2. by apply Hb.
    + rewrite (loc_slot _ _ _ (eff_local _ _ _ _ E1)), (loc_slot _ _ _ (eff_local _ _ _ _ E2)) by done. by apply Hb.
Qed.

(** ** Paired calls *)

Definition outcomes {A} (P : A -> A -> Prop) (o1 o2 : Outcome PelicanError A) : Prop :=
  match o1, o2 with
  | Done a1, Done a2 => P a1 a2
  | Fail e1, Fail e2 => e1 = e2
  | _, _ => False
  end.

(** The call has matching outcomes on two engines, and leaves mirrors. *)
Definition paired {A} (P : A -> A -> Prop) (m : QM A) w1 w2 : Prop :=
  outcomes P (m w1).1 (m w2).1 /\ mirror (m w1).2 (m w2).2.

Lemma paired_rejects {A} (P : A -> A -> Prop) (m : QM A) q w1 w2 :
  mirror w1 w2 -> rejects m q w1 -> rejects m q w2 -> paired P m w1 w2.
Proof. intros Hm R1 R2. unfold paired. by rewrite R1, R2. Qed.

Lemma paired_try {A} (P : A -> A -> Prop) (m : QM A) w1 w2 :
  paired P m w1 w2 ->
  paired (fun r1 r2 => match r1, r2 with Ok a, Ok b => P a b | Err e, Err e' => e = e' | _, _ => False end) (try m) w1 w2.
Proof.
  unfold paired, try. destruct (m w1) as [[] w1'], (m w2) as [[] w2']; cbn; intros [Ho HM]; try done.
Qed.

Lemma paired_map {A B} (P : A -> A -> Prop) (Q : B -> B -> Prop) (f : A -> B) (m : QM A) w1 w2 :
  (forall a1 a2, P a1 a2 -> Q (f a1) (f a2)) -> paired P m w1 w2 -> paired Q (let* a := m in ret (f a)) w1 w2.
Proof.
  intros Hf. unfold paired, bind, ret. destruct (m w1) as [[] w1'], (m w2) as [[] w2']; cbn; intros [Ho HM]; auto; done.
Qed.

(** A message whose handling does not depend on the time. *)
Definition timeless (m : Message) : bool :=
  match dedup_key m, deliver_at m with None, None => true | _, _ => false end.

Lemma timeless_fresh q m p c now : timeless m = true -> duplicate_at q m p c now = false.
Proof.
  unfold timeless, duplicate_at, recorded_ms. destruct (dedup_key m); [done|]. by repeat case_match.
Qed.

Lemma timeless_now m now : timeless m = true -> future_at m now = None.
Proof. unfold timeless, future_at. by destruct (dedup_key m), (deliver_at m). Qed.

Lemma publish_sys q m w :
  SysInv w -> admissible (OpPublish q m) w -> idgen (publish q m w).2 <= u64_lim -> SysInv (publish q m w).2.
Proof.
  intros HS Ha Hn. pose proof (publish_ok q m w HS Ha) as Hok. cbn in Hok. destruct (publish q m w). by apply Hok.
Qed.

(** A message without key and delivery time is stored, or the limit is reached. *)
Definition timeless_post q m w (o : Outcome PelicanError PublishOutcome) w' : Prop :=
  let n := current_bytes (qm w) + msg_size m in
  max_bytes (qm w') = max_bytes (qm w) /\ idgen w <= idgen w' /\
  match max_bytes (qm w) with
  | Some max =>
    if max <? n
    then o = Fail (StorageLimitExceeded (used_pct_of (current_bytes (qm w)) max) 100) /\
      store w' = store w /\ current_bytes (qm w') = current_bytes (qm w)
    else o = Done (Stored (Message.id m)) /\ current_bytes (qm w') = n /\
      exists i, TouchesQueue q w w' (a_publish (i, m) (abs (store w) q))
  | None => o = Done (Stored (Message.id m)) /\ current_bytes (qm w') = n /\
      exists i, TouchesQueue q w w' (a_publish (i, m) (abs (store w) q))
  end.

Lemma publish_timeless q m w :
  SysInv w -> declared (store w) q = true -> admissible (OpPublish q m) w -> timeless m = true ->
  idgen (publish q m w).2 <= u64_lim -> wp (publish q m) (timeless_post q m w) w.
Proof.
  intros HS Hd Ha Ht Hn. pose proof (publish_sys q m w HS Ha Hn) as HS'. destruct Ha as (Hw & _ & Hroom).
  destruct (ser_msg_total m Hw) as [v Hv]. assert (stores m v) as Hs by done.
  pose proof (stores_size _ _ Hs) as Hsz. rewrite Hsz in Hroom.
  pose proof (publish_sim q m v w (sys_inv _ HS) Hd Hs (proj1 (sys_policy _ HS _ Hd)) Hroom) as Hsim.
  unfold wp, publish_post in *. unfold timeless_post. rewrite Hsz. destruct (publish q m w) as [o w']. cbn [fst snd] in *.
  destruct Hsim as (Hm & Hg & Hpost). split; [done|]. split; [done|].
  destruct o as [[u|]|[]| |]; try done.
  - destruct Hpost as (-> & Hov & Hb & _ & (now & _ & Hslot) & HE). destruct (HE Hn) as (i & now' & _ & _ & HE').
    rewrite timeless_now in HE' by done. cbn [a_store] in HE'.
    assert (exists i, TouchesQueue q w w' (a_publish (i, m) (abs (store w) q))) as Htq.
    { exists i. split; auto. rewrite Hslot. unfold record_store, timeless in *. destruct (dedup_key m); [done|].
      by destruct (dedup_window_secs _). }
    unfold over_limit in Hov. destruct (max_bytes (qm w)) as [mx|]; [|done]. by rewrite Hov.
  - destruct Hpost as ((now & _ & Hdup) & _). by rewrite timeless_fresh in Hdup.
  - destruct Hpost as ((mx & -> & Hlt & -> & ->) & _ & HSt & Hb). by rewrite (proj2 (Z.ltb_lt _ _)).
Qed.

Lemma admissible_publish_mirror q m w1 w2 :
  mirror w1 w2 -> admissible (OpPublish q m) w1 -> admissible (OpPublish q m) w2.
Proof. intros [_ _ _ _ _ _ Hb _]. cbn. unfold room. by rewrite Hb. Qed.

Lemma paired_publish q m w1 w2 :
  mirror w1 w2 -> admissible (OpPublish q m) w1 -> timeless m = true ->
  idgen (publish q m w1).2 <= u64_lim -> idgen (publish q m w2).2 <= u64_lim -> paired eq (publish q m) w1 w2.
Proof.
  intros HM Ha Ht Hn1 Hn2. pose proof HM as [I1 I2 Hd _ Hq _ Hb Hm]. specialize (Hd q).
  pose proof (admissible_publish_mirror _ _ _ _ HM Ha) as Ha2. destruct (declared (store w1) q) eqn:Hd1.
  2: { apply (paired_rejects _ _ q); [done|by apply require_queue_rejects..]. }
  pose proof (publish_timeless q m w1 I1 Hd1 Ha Ht Hn1) as P1.
  pose proof (publish_timeless q m w2 I2 (eq_sym Hd) Ha2 Ht Hn2) as P2.
  unfold wp, timeless_post in P1, P2. unfold paired. rewrite <- Hm, <- Hb in P2.
  destruct (publish q m w1) as [o1 w1'], (publish q m w2) as [o2 w2']. cbn [fst snd] in *.
  destruct P1 as (M1 & G1 & P1), P2 as (M2 & G2 & P2).
  assert (forall n1, o1 = Done (Stored (Message.id m)) /\ current_bytes (qm w1') = n1 /\
      (exists i, TouchesQueue q w1 w1' (a_publish (i, m) (abs (store w1) q))) ->
    o2 = Done (Stored (Message.id m)) /\ current_bytes (qm w2') = n1 /\
      (exists i, TouchesQueue q w2 w2' (a_publish (i, m) (abs (store w2) q))) ->
    outcomes eq o1 o2 /\ mirror w1' w2') as Hst.
  { intros n1 (-> & B1 & i1 & T1) (-> & B2 & i2 & T2). split; [done|].
    eapply (mirror_touch q w1 w1' _ w2 w2'); eauto; [by apply same_messages_store, Hq|congruence..]. }
  destruct (max_bytes (qm w1)) as [mx|] eqn:Em; [|by eapply Hst].
  destruct (mx <? _); [|by eapply Hst]. destruct P1 as (-> & S1 & B1), P2 as (-> & S2 & B2). split; [done|].
  apply (mirror_quiet _ w2); [|done|lia|congruence|congruence].
  apply mirror_sym, (mirror_quiet _ w1); [by apply mirror_sym|done|lia|congruence|congruence].
Qed.

(** Calls that write no deduplication index. *)
Lemma framed_dedup {A} (m : QM A) q w :
  safe_name q = true -> keeps (frame (protected q)) m -> slot (store (m w).2) Dedup q = slot (store w) Dedup q.
Proof. intros Hq Hk. apply (fr_trees _ _ _ (Hk w)). by left. Qed.

Lemma consume_touch q w :
  SysInv w -> declared (store w) q = true -> TouchesQueue q w (consume q w).2 (a_consume (abs (store w) q)).2.
Proof.
  intros HS Hd. pose proof (inv_safe _ _ _ (sys_inv _ HS) Hd) as Hq. split.
  - apply (consume_ok q w HS).
  - apply (consume_sim q w (sys_inv _ HS) Hd (sys_gen _ HS)).
  - apply framed_dedup; [done|]. apply kept_consume; [apply (slot_unprotected q q Main)|apply (slot_unprotected q q Inflight)];
      auto.
Qed.

(** The same delivery under any tag. *)
Definition same_delivery (d1 d2 : DeliveryTag * Message) : Prop := d1.2 = d2.2.

Lemma paired_consume q w1 w2 :
  mirror w1 w2 -> paired (option_Forall2 same_delivery) (consume q) w1 w2.
Proof.
  intros HM. pose proof HM as [I1 I2 Hd _ Hq _ Hb Hm]. specialize (Hd q). destruct (declared (store w1) q) eqn:Hd1.
  2: { apply (paired_rejects _ _ q); [done|by apply require_queue_rejects..]. }
  pose proof (consume_sim q w1 (sys_inv _ I1) Hd1 (sys_gen _ I1)) as (G1 & B1 & M1 & O1 & _).
  pose proof (consume_sim q w2 (sys_inv _ I2) (eq_sym Hd) (sys_gen _ I2)) as (G2 & B2 & M2 & O2 & _).
  destruct (same_messages_consume _ _ (Hq q Hd1)) as [He Hs].
  { intros e. eapply ready_not_inflight, (inv_queue _ _ (sys_inv _ I1)), Hd1. }
  { intros e. eapply ready_not_inflight, (inv_queue _ _ (sys_inv _ I2)). by rewrite <- Hd. }
  split.
  - rewrite O1, O2. cbn [outcomes]. destruct (a_consume (abs (store w1) q)).1 as [e1|], (a_consume (abs (store w2) q)).1 as [e2|];
      try done; constructor. by injection He.
  - eapply (mirror_touch q w1 _ _ w2); eauto using consume_touch; congruence.
Qed.

Lemma fresh_abs c q : fresh_name c q -> abs c q = empty_queue.
Proof.
  intros Hf. unfold abs, ready, inflight, dead, sched.
  pose proof (Hf Main) as F1. pose proof (Hf Inflight) as F2. pose proof (Hf Dlq) as F3. pose proof (Hf Scheduled) as F4.
  unfold slot in *. cbn in *. by rewrite F1, F2, F3, F4.
Qed.

Lemma paired_declare q p w1 w2 :
  mirror w1 w2 -> admissible (OpDeclare q p) w1 -> paired eq (declare_queue_with_retention q p) w1 w2.
Proof.
  intros HM Ha. pose proof HM as [I1 I2 Hd Hp Hq Hb Hc Hm]. pose proof Ha as (Hsafe & Hwf & _).
  pose proof (ok_inv _ _ _ (declare_ok q p w1 I1 Ha)) as I1'. pose proof (ok_inv _ _ _ (declare_ok q p w2 I2 Ha)) as I2'.
  pose proof (declare_sim q p w1 Hwf) as (B1 & M1 & G1 & P1). pose proof (declare_sim q p w2 Hwf) as (B2 & M2 & G2 & P2).
  unfold paired. rewrite <- Hd in P2. destruct (declared (store w1) q) eqn:Hd1.
  - destruct P1 as [-> S1], P2 as [-> S2]. split; [done|]. pose proof (sys_gen _ I1). pose proof (sys_gen _ I2).
    apply (mirror_quiet _ w2); [|done|lia|congruence..].
    apply mirror_sym, (mirror_quiet _ w1); [by apply mirror_sym|done|lia|congruence..].
  - destruct P1 as (-> & D1 & Pl1 & S1), P2 as (-> & D2 & Pl2 & S2). split; [done|].
    assert (forall q', declared (store (declare_queue_with_retention q p w1).2) q' = true -> safe_name q' = true) as Hsf
      by (intros q' Hq'; by eapply inv_safe, Hq'; apply I1').
    split; [exact I1'|exact I2'|..|congruence|congruence].
    + intros q'. by rewrite D1, D2, Hd.
    + intros q' Hq'. rewrite Pl1, Pl2. rewrite D1 in Hq'. case_bool_decide; [done|]. by apply Hp.
    + intros q' Hq'. pose proof (Hsf q' Hq') as Hs'. rewrite D1 in Hq'.
      rewrite (abs_ext (store w1) (store (declare_queue_with_retention q p w1).2) q') by (intros sl; by apply S1).
      rewrite (abs_ext (store w2) (store (declare_queue_with_retention q p w2).2) q') by (intros sl; by apply S2).
      case_bool_decide as E; [|by apply Hq]. subst q'.
      assert (abs (store w1) q = empty_queue) as ->.
      { apply fresh_abs, (sys_fresh _ I1); done. }
      assert (abs (store w2) q = empty_queue) as ->; [|done].
      apply fresh_abs, (sys_fresh _ I2); [done|by rewrite <- Hd].
    + intros q' Hq'. pose proof (Hsf q' Hq') as Hs'. rewrite D1 in Hq'. unfold dedup_bytes. rewrite S1, S2 by done.
      case_bool_decide as E; [|by apply Hb]. subst q'.
      by rewrite (sys_fresh _ I1 q), (sys_fresh _ I2 q) by (done || by rewrite <- Hd).
Qed.

(** Trimming by count. *)
Lemma paired_retention q w1 w2 :
  mirror w1 w2 -> total_bytes (store w1) < u64_lim -> max_age_secs (policy (store w1) q) = None ->
  paired eq (apply_retention q) w1 w2.
Proof.
  intros HM Ht Hage. pose proof HM as [I1 I2 Hd Hp Hq _ Hb Hm]. specialize (Hd q). destruct (declared (store w1) q) eqn:Hd1.
  2: { apply (paired_rejects _ _ q); [done|by apply require_queue_rejects..]. }
  assert (forall w, SysInv w -> declared (store w) q = true -> total_bytes (store w) < u64_lim ->
    retention_post q w (apply_retention q w).1 (apply_retention q w).2 /\
    (forall a, Effect q w (apply_retention q w).2 a -> TouchesQueue q w (apply_retention q w).2 a)) as Hret.
  { intros w HS Hdw Htw. pose proof (inv_safe _ _ _ (sys_inv _ HS) Hdw) as Hs. split.
    - apply (retention_sim q w (sys_inv _ HS) Hdw (sys_gen _ HS) (proj1 (sys_policy _ HS _ Hdw))); [|done].
      eapply stamps_sane_time; [by apply HS|apply HS|by apply HS].
    - intros a HE. split; [apply (retain_ok q w HS Htw)|done|]. apply framed_dedup; [done|].
      apply kept_retention, (slot_unprotected q q Main); auto. }
  destruct (Hret w1 I1 Hd1 Ht) as [(G1 & M1 & now1 & k1 & _ & O1 & K1 & E1 & B1) T1].
  destruct (Hret w2 I2 (eq_sym Hd)) as [(G2 & M2 & now2 & k2 & _ & O2 & K2 & E2 & B2) T2].
  { by rewrite <- (mirror_total _ _ HM). }
  rewrite <- (Hp q Hd1) in *. set (p := policy (store w1) q) in *. rewrite retained_count in K1, K2 by done.
  pose proof (keep_count_snd p _ _ (sm_ready _ _ (Hq q Hd1))) as Hkeep.
  assert (k1 = k2) as <-.
  { pose proof (f_equal length Hkeep) as L1. pose proof (f_equal length (sm_ready _ _ (Hq q Hd1))) as L2.
    rewrite !length_map in L1, L2. lia. }
  assert (same_messages (a_retain p now1 (abs (store w1) q)) (a_retain p now2 (abs (store w2) q))) as Hs.
  { destruct (Hq q Hd1) as [S1 S2 S3 S4]. split; cbn [a_retain a_ready a_inflight a_dead a_sched]; auto.
    by rewrite !retained_count. }
  split; [rewrite O1, O2; done|].
  assert (forall w1' w2', current_bytes (qm w1') = current_bytes (qm w2') -> max_bytes (qm w1') = max_bytes (qm w2') ->
    TouchesQueue q w1 w1' (a_retain p now1 (abs (store w1) q)) -> TouchesQueue q w2 w2' (a_retain p now2 (abs (store w2) q)) ->
    mirror w1' w2') as Hmir by (intros; by eapply (mirror_touch q w1 w1' _ w2 w2')).
  destruct (0 <? k1)%nat; [|apply Hmir; auto; congruence].
  apply Hmir; auto; [|congruence]. rewrite B1, B2.
  set (n := Z.max (current_bytes (qm (apply_retention q w1).2)) (current_bytes (qm (apply_retention q w2).2))).
  apply (mirror_total (set_bytes n (apply_retention q w1).2) (set_bytes n (apply_retention q w2).2)).
  apply Hmir; [done|cbn; congruence|apply TouchesQueue_bytes; auto; lia..].
Qed.

(** A promotion reads the clock, whose readings differ; it does nothing when
    nothing is scheduled. *)
Lemma a_promote_none now a : a_sched a = [] -> a_promote now [] a = a.
Proof. unfold a_promote. destruct a as [r f d s]. cbn. by intros ->. Qed.

Lemma promote_touch q w :
  SysInv w -> declared (store w) q = true -> a_sched (abs (store w) q) = [] ->
  idgen (promote_scheduled q w).2 <= u64_lim ->
  (promote_scheduled q w).1 = Done 0%nat /\ TouchesQueue q w (promote_scheduled q w).2 (abs (store w) q) /\
  current_bytes (qm (promote_scheduled q w).2) = current_bytes (qm w) /\
  max_bytes (qm (promote_scheduled q w).2) = max_bytes (qm w).
Proof.
  intros HS Hd Hs Hn. pose proof (inv_safe _ _ _ (sys_inv _ HS) Hd) as Hq.
  pose proof (promote_sim q w (sys_inv _ HS) Hd (sys_gen _ HS)) as (Hb & Hm & Hg & now & _ & Ho & HE).
  destruct (HE Hn) as (ids & Hlen & _ & HE'). rewrite Hs in Ho, Hlen. destruct ids; [|done].
  rewrite a_promote_none in HE' by done. split_and!; auto. split; [apply (promote_ok q w HS Hn)|done|].
  apply framed_dedup; [done|].
  apply kept_promote; [apply (slot_unprotected q q Main)|apply (slot_unprotected q q Scheduled)]; auto.
Qed.

Lemma paired_promote q w1 w2 :
  mirror w1 w2 -> a_sched (abs (store w1) q) = [] ->
  idgen (promote_scheduled q w1).2 <= u64_lim -> idgen (promote_scheduled q w2).2 <= u64_lim ->
  paired eq (promote_scheduled q) w1 w2.
Proof.
  intros HM Hs Hn1 Hn2. pose proof HM as [I1 I2 Hd _ Hq _ Hb Hm]. specialize (Hd q). destruct (declared (store w1) q) eqn:Hd1.
  2: { apply (paired_rejects _ _ q); [done|by apply require_queue_rejects..]. }
  assert (a_sched (abs (store w2) q) = []) as Hs2.
  { pose proof (sm_sched _ _ (Hq q Hd1)) as Hsc. rewrite Hs in Hsc. by destruct (a_sched (abs (store w2) q)). }
  destruct (promote_touch q w1 I1 Hd1 Hs Hn1) as (O1 & T1 & B1 & M1).
  destruct (promote_touch q w2 I2 (eq_sym Hd) Hs2 Hn2) as (O2 & T2 & B2 & M2).
  split; [by rewrite O1, O2|].
  eapply (mirror_touch q w1 _ _ w2); [exact HM|exact Hd1|exact T1|exact T2|by apply Hq|congruence..].
Qed.

(** ** Batches *)

Definition same_result {A} (P : A -> A -> Prop) (r1 r2 : Result PelicanError A) : Prop :=
  match r1, r2 with Ok a1, Ok a2 => P a1 a2 | Err e1, Err e2 => e1 = e2 | _, _ => False end.

Lemma paired_publish_batch q ms acc w1 w2 :
  mirror w1 w2 -> admissible_run (map (OpPublish q) ms) w1 -> forallb timeless ms = true ->
  idgen (publish_batch q ms acc w2).2 <= u64_lim -> paired (same_result eq) (publish_batch q ms acc) w1 w2.
Proof.
  revert acc w1 w2. induction ms as [|m ms IH]; intros acc w1 w2 HM Ha Ht Hn; [done|].
  destruct Ha as (Ha & Hn1 & Hrest). cbn in Ht. apply andb_true_iff in Ht as [Htm Htms].
  assert ((run_op (OpPublish q m) w1).2 = (publish q m w1).2) as Hr1 by (cbn; by destruct (publish q m w1)).
  rewrite Hr1 in Hn1, Hrest. cbn [publish_batch] in *.
  assert (idgen (publish q m w2).2 <= u64_lim) as Hn2.
  { unfold bind, try in Hn. destruct (publish q m w2) as [[o|e| |] w2']; cbn [snd] in *; try exact Hn.
    etrans; [apply (fr_idgen _ _ _ (kept_publish_batch (R := frame (fun _ => False)) q ms (acc ++ [o]) w2'))|exact Hn]. }
  destruct (paired_publish q m w1 w2 HM Ha Htm Hn1 Hn2) as [Ho HM']. unfold paired, bind, try in *.
  destruct (publish q m w1) as [[o1|e1| |] w1'], (publish q m w2) as [[o2|e2| |] w2']; cbn in Ho; try done; subst.
  by apply IH.
Qed.

Lemma paired_consume_batch q n acc1 acc2 w1 w2 :
  mirror w1 w2 -> map snd acc1 = map snd acc2 ->
  outcomes (same_result (fun l1 l2 => map snd l1 = map snd l2))
    (consume_batch q n acc1 w1).1 (consume_batch q n acc2 w2).1 /\
  mirror (consume_batch q n acc1 w1).2 (consume_batch q n acc2 w2).2.
Proof.
  revert acc1 acc2 w1 w2. induction n as [|n IH]; intros acc1 acc2 w1 w2 HM Hacc; cbn [consume_batch]; [done|].
  destruct (paired_consume q w1 w2 HM) as [Ho HM']. unfold bind, try.
  destruct (consume q w1) as [[[d1|]|e1| |] w1'], (consume q w2) as [[[d2|]|e2| |] w2']; cbn [outcomes fst snd] in Ho;
    try done; try (by inversion Ho); try (by subst).
  inversion Ho as [x y Hxy|]; subst. apply IH; [done|]. rewrite !map_app, Hacc. cbn. by rewrite Hxy.
Qed.

(** ** Replicated operations *)

(** An operation whose effect on [w] does not depend on the time: what it
    publishes has no deduplication key and no delivery time, the queue it trims has
    no maximum age, the queue it promotes has nothing scheduled. *)
Definition timeless_op (op : QueueOperation) w : bool :=
  match op with
  | Publish _ m => timeless m
  | PublishBatch _ ms => forallb timeless ms
  | ApplyRetention q => bool_decide (max_age_secs (policy (store w) q) = None)
  | PromoteScheduled q => bool_decide (a_sched (abs (store w) q) = [])
  | _ => true
  end.

(** An operation that names no delivery tag. *)
Definition tagless (op : QueueOperation) : bool :=
  match op with Ack _ _ | Nack _ _ => false | _ => true end.

(** A response without the delivery tags it hands out. *)
Definition untag (r : QueueOperationResponse) : QueueOperationResponse :=
  match r with
  | RConsume (Ok d) => RConsume (Ok ((fun d => (mkTag 0, d.2)) <$> d))
  | RConsumeBatch (Ok ds) => RConsumeBatch (Ok (map (fun m => (mkTag 0, m)) (map snd ds)))
  | _ => r
  end.

Definition same_answer (r1 r2 : QueueOperationResponse) : Prop := untag r1 = untag r2.

Lemma paired_apply op w1 w2 :
  mirror w1 w2 -> admissible_run (engine_ops op) w1 -> timeless_op op w1 = true -> tagless op = true ->
  idgen (apply_operation op w2).2 <= u64_lim -> paired same_answer (apply_operation op) w1 w2.
Proof.
  intros HM Ha Ht Hta Hn.
  assert (forall A (m : QM A) (wrap : Result PelicanError A -> QueueOperationResponse) w,
    ((let* r := try m in ret (wrap r)) w).2 = (m w).2) as Hsnd
    by (intros A m wrap w; unfold bind, try, ret; by destruct (m w) as [[]]).
  assert (forall A (m : QM A) (wrap : Result PelicanError A -> QueueOperationResponse),
    paired eq m w1 w2 -> paired same_answer (let* r := try m in ret (wrap r)) w1 w2) as Hwrap.
  { intros A m wrap Hp. eapply paired_map; [|by apply paired_try]. intros [a1|e1] [a2|e2] Hr; try done; by subst. }
  destruct op as [name p|q m|q ms|q|q n|q t|q t|q|q]; cbn [apply_operation timeless_op tagless engine_ops] in *; try done.
  - replace (if bool_decide (p = default_policy) then declare_queue name else declare_queue_with_retention name p)
      with (declare_queue_with_retention name p) by (case_bool_decide; [by subst|done]).
    apply Hwrap, paired_declare; [done|apply Ha].
  - destruct Ha as (Ha & Hn1 & _). rewrite Hsnd in Hn.
    apply Hwrap, paired_publish; auto. cbn in Hn1. by destruct (publish q m w1).
  - eapply paired_map; [|apply paired_publish_batch; auto].
    + intros [l1|e1] [l2|e2] Hr; try done; cbn in Hr; by subst.
    + unfold bind, ret in Hn. by destruct (publish_batch q ms [] w2) as [[]].
  - eapply paired_map; [|by apply paired_try, paired_consume]. intros [d1|e1] [d2|e2] Hr; try done; [|by subst].
    unfold same_answer. cbn. inversion Hr as [x y Hxy|]; subst; [|done]. cbn. by rewrite Hxy.
  - eapply paired_map; [|exact (paired_consume_batch q n [] [] w1 w2 HM eq_refl)].
    intros [l1|e1] [l2|e2] Hr; try done; cbn in Hr; [|by subst]. unfold same_answer. cbn [untag]. by rewrite Hr.
  - apply bool_decide_eq_true in Ht. destruct Ha as (Ha & _). by apply Hwrap, paired_retention.
  - apply bool_decide_eq_true in Ht. destruct Ha as (_ & Hn1 & _). rewrite Hsnd in Hn. by apply Hwrap, paired_promote.
Qed.

(** The ids a node issues only grow. *)
Lemma idgen_apply op w : idgen w <= idgen (apply_operation op w).2.
Proof. apply (fr_idgen _ _ _ (kept_apply (R := frame (fun _ => False)) op w)). Qed.
End Mirror.
