(* ===== verification/Cluster.v ===== *)
(** * Cluster: several nodes that apply one log

    A cluster is a committed log and a node per id, each with its store
    ([RaftStore]) and the answers it has given.  openraft is what moves it: entries
    are committed at the end of the log, every node is handed committed entries in
    order, in batches of any size at any time, and the storage calls of the
    protocol (votes, appends, truncations, purges, snapshots, reads) happen in
    between, as do reads of the queues and the passing of time. *)

From Stdlib Require Import ZArith Lia.
From stdpp Require Import prelude gmap strings relations.
From S2P Require Import Prelude Bytes OrdMap Sled Message Bincode Keys QueueManager Store Spec Engine.
From S2P Require Import Invariant Refinement Maintenance Retention Holdings System Snapshot StateMachine.
From S2P Require Import RaftStore RaftLog RaftMachine Frames Replicas.

Section Cluster.
Context `{!Sled, !SledLaws, !SledReliable, !Bincode, !BincodeLaws,
          !Environment, !EnvironmentLaws, !BuildProfile, !RaftTypes}.
Context `{!Json Entry, !Json LogId, !Json (option LogId), !Json Vote, !Json StoredMembership,
          !Json Z, !Json QueueManagerSnapshot}.
Implicit Types (s : RaftStoreInner) (w : World).

(** ** Nodes *)

Record Replica := mkReplica { node : RaftStoreInner; given : list QueueOperationResponse }.

(** A node has answered every entry it has applied. *)
Definition position (r : Replica) : nat := length (given r).

Record Cluster := mkCluster { log : list Entry; nodes : gmap Z Replica }.

(** The storage calls that do not apply entries or install a snapshot. *)
Inductive StorageCall :=
| CSaveVote (v : Vote)
| CReadVote
| CAppend (es : list Entry)
| CTruncate (id : LogId)
| CPurge (id : LogId)
| CReadLog (lo hi : Bound)
| CLogState
| CLastApplied
| CBuildSnapshot
| CDepth (q : string).

(** The state a call leaves, however it ends. *)
Definition after_call (c : StorageCall) s : RaftStoreInner :=
  match c with
  | CSaveVote v => (save_vote v s).2
  | CReadVote => (read_vote s).2
  | CAppend es => (append_to_log es s).2
  | CTruncate id => (delete_conflict_logs_since id s).2
  | CPurge id => (purge_logs_upto id s).2
  | CReadLog lo hi => (try_get_log_entries lo hi s).2
  | CLogState => (get_log_state s).2
  | CLastApplied => (last_applied_state s).2
  | CBuildSnapshot => (build_snapshot s).2
  | CDepth q => set_state_machine (depth q (state_machine s)).2 s
  end.

(** The next entries for a node, at most [k]. *)
Definition next_entries (k : nat) (r : Replica) (l : list Entry) : list Entry := take k (drop (position r) l).

Inductive cluster_step : Cluster -> Cluster -> Prop :=
| step_commit l ns e : cluster_step (mkCluster l ns) (mkCluster (l ++ [e]) ns)
| step_apply l ns i r k rs s' :
    ns !! i = Some r -> apply_to_state_machine (next_entries k r l) (node r) = (Done rs, s') ->
    cluster_step (mkCluster l ns) (mkCluster l (<[i := mkReplica s' (given r ++ rs)]> ns))
| step_call l ns i r c :
    ns !! i = Some r ->
    cluster_step (mkCluster l ns) (mkCluster l (<[i := mkReplica (after_call c (node r)) (given r)]> ns))
| step_time l ns i r e :
    ns !! i = Some r ->
    cluster_step (mkCluster l ns)
      (mkCluster l (<[i := mkReplica (set_state_machine (set_env e (state_machine (node r))) (node r)) (given r)]> ns)).

(** ** The engine of a node across storage calls *)

Definition engine_kept s s' : Prop := unchanged (state_machine s) (state_machine s').

#[local] Instance unchanged_preorder : PreOrder unchanged.
Proof. split; [by intros w|]. intros w1 w2 w3. apply unchanged_trans. Qed.
#[local] Instance engine_kept_preorder : PreOrder engine_kept.
Proof. split; [by intros s|]. intros s1 s2 s3 T1 T2. unfold engine_kept in *. by etrans. Qed.

(** Reading from the engine. *)
Abbreviation reads := (keeps (E := PelicanError) unchanged).

Lemma reads_open t : reads (db_update (open_tree t)).
Proof.
  intros w. unfold db_update. destruct (open_tree_rel t (db (qm w))) as [d Hd]. rewrite Hd.
  change (unchanged w (set_db d w)). apply open_tree_law in Hd. unfold unchanged. by rewrite store_set_db, idgen_set_db, Hd, contents_open.
Qed.
Lemma reads_storage_err {A} (r : Result string A) : reads (storage_err r).
Proof. by destruct r; intros w. Qed.
Lemma reads_serialization_err {A} (r : Result string A) : reads (serialization_err r).
Proof. by destruct r; intros w. Qed.
Lemma reads_db {A} (f : db_t -> Result string A) : reads (db_read f).
Proof. intros w. apply reads_storage_err. Qed.
#[local] Hint Resolve reads_open reads_storage_err reads_serialization_err reads_db : frame.

Lemma reads_tree_count q t : reads (tree_count q t).
Proof. unfold tree_count, require_queue. keeps. Qed.

Abbreviation aside := (keeps (E := StorageError) engine_kept).

Lemma aside_update {A} v (f : db_t -> Result string A * db_t) : aside (r_update v f).
Proof. intros s. unfold r_update. destruct (f (r_db s)) as [[a|e] d]; done. Qed.
Lemma aside_read {A} v (f : db_t -> Result string A) : aside (r_read v f).
Proof. intros s. unfold r_read. by destruct (f (r_db s)). Qed.
Lemma aside_err {A} v (r : Result string A) : aside (to_storage_err v r).
Proof. by destruct r; intros s. Qed.
Lemma aside_modify x : aside (modify (set_current_snapshot x)).
Proof. by intros s. Qed.
Lemma aside_engine {A} v (m : QM A) : reads m -> aside (with_engine v m).
Proof. intros Hm s. unfold with_engine. specialize (Hm (state_machine s)). by destruct (m (state_machine s)). Qed.
#[local] Hint Resolve aside_update aside_read aside_err aside_modify : frame.

Lemma aside_meta_set `{!Json T} key (a : T) : aside (meta_set key a).
Proof. unfold meta_set. keeps. Qed.
Lemma aside_meta_get (T : Type) `{!Json T} key : aside (meta_get_single T key).
Proof. unfold meta_get_single. keeps. Qed.
Lemma aside_remove_range lo hi : aside (remove_range lo hi).
Proof. unfold remove_range. keeps. Qed.
#[local] Hint Resolve aside_meta_set aside_meta_get aside_remove_range : frame.

Lemma reads_export : reads export_snapshot.
Proof. unfold export_snapshot, export_queue, export_tree, export_inflight, get_policy, list_queues, iter_tree. keeps. Qed.

Lemma aside_build : aside build_snapshot.
Proof.
  assert (aside (with_engine Write sm_build_snapshot)) as He.
  { apply aside_engine. unfold sm_build_snapshot. pose proof reads_export. keeps. }
  unfold build_snapshot, next_snapshot_idx. keeps.
Qed.

Lemma after_call_kept c s : engine_kept s (after_call c s).
Proof.
  assert (forall A (m : RM A), aside m -> engine_kept s (m s).2) as Hm by (intros A m Hm; apply Hm).
  destruct c; cbn [after_call]; try apply Hm.
  - apply aside_meta_set.
  - apply aside_meta_get.
  - unfold append_to_log. keeps.
  - unfold delete_conflict_logs_since. keeps.
  - unfold purge_logs_upto. keeps.
  - unfold try_get_log_entries. keeps.
  - unfold get_log_state. keeps.
  - unfold last_applied_state. keeps.
  - apply aside_build.
  - apply reads_tree_count.
Qed.

(** Applying an entry does to the engine what the entry does, and nothing else. *)
Definition same_engine s s' : Prop := state_machine s' = state_machine s.
#[local] Instance same_engine_preorder : PreOrder same_engine.
Proof. split; [by intros s|]. intros s1 s2 s3 E1 E2. unfold same_engine in *. congruence. Qed.

Lemma meta_set_engine `{!Json T} key (a : T) : keeps (E := StorageError) same_engine (meta_set key a).
Proof.
  assert (forall A v (f : db_t -> Result string A * db_t), keeps same_engine (r_update v f)) as Hu.
  { intros A v f s. unfold r_update. by destruct (f (r_db s)) as [[]]. }
  assert (forall A v (r : Result string A), keeps same_engine (to_storage_err v r)) as He by (intros A v []; by intros s).
  unfold meta_set. keeps.
Qed.

Lemma apply_entry_engine e s r s' : apply_entry e s = (Done r, s') -> state_machine s' = entry_effect e (state_machine s).
Proof.
  unfold apply_entry, entry_effect. intros (r1 & s1 & E1 & ([] & s2 & E2 & E3)%bind_Done)%bind_Done. injection E3 as _ <-.
  pose proof (meta_set_engine "last_applied" (log_id e) s1) as H2'. rewrite E2 in H2'. unfold same_engine in H2'. cbn in H2'.
  rewrite H2'.
  destruct (RaftStore.payload e) as [|op|mem].
  - by injection E1 as _ <-.
  - unfold with_engine in E1. destruct (apply_operation op (state_machine s)) as [o w]. by injection E1 as _ <-.
  - apply bind_Done in E1 as ([] & s3 & E3 & E4). injection E4 as _ <-.
    pose proof (meta_set_engine "last_membership" (mkStored (Some (log_id e)) mem) s) as H3'. by rewrite E3 in H3'.
Qed.

Lemma apply_engine es acc s rs s' :
  for_fold es acc (fun resps entry => let* r := apply_entry entry in ret (resps ++ [r])) s = (Done rs, s') ->
  state_machine s' = log_effect es (state_machine s).
Proof.
  revert acc s. induction es as [|e es IH]; intros acc s; cbn [for_fold]; [by intros [= _ <-]|].
  intros (a & s1 & (r & s2 & E1 & [= <- <-])%bind_Done & E3)%bind_Done.
  rewrite (IH _ _ E3), (apply_entry_engine _ _ _ _ E1). done.
Qed.

Lemma idgen_entry e w : idgen w <= idgen (entry_effect e w).
Proof. unfold entry_effect. destruct (RaftStore.payload e); [done|apply idgen_apply|done]. Qed.

Lemma idgen_log es w : idgen w <= idgen (log_effect es w).
Proof.
  revert w. induction es as [|e es IH]; intros w; [done|].
  etrans; [apply (idgen_entry e w)|apply (IH (entry_effect e w))].
Qed.

(** ** The log as one engine runs it *)

(** No entry of the log depends on the time or names a delivery tag. *)
Fixpoint timeless_log (es : list Entry) w : bool :=
  match es with
  | [] => true
  | e :: es' =>
    match RaftStore.payload e with Normal op => timeless_op op w && tagless op | _ => true end &&
    timeless_log es' (entry_effect e w)
  end.

(** A log that a single engine started in [w] applies without trouble. *)
Record sound_log (es : list Entry) w : Prop := {
  sl_recordable : Forall recordable es;
  sl_admissible : admissible_log es w;
  sl_timeless : timeless_log es w = true;
}.

Lemma log_effect_app es1 es2 w : log_effect (es1 ++ es2) w = log_effect es2 (log_effect es1 w).
Proof. apply foldl_app. Qed.

Lemma sound_log_app es1 es2 w :
  sound_log (es1 ++ es2) w <-> sound_log es1 w /\ sound_log es2 (log_effect es1 w).
Proof.
  revert w. induction es1 as [|e es1 IH]; intros w; cbn [app].
  - split; [|tauto]. intros HB. split; [by split; [constructor|..]|exact HB].
  - change (log_effect (e :: es1) w) with (log_effect es1 (entry_effect e w)).
    specialize (IH (entry_effect e w)). split.
    + intros [Hr [Ha1 Ha2] Ht]. apply Forall_cons in Hr as [Hr1 Hr2]. cbn in Ht. apply andb_true_iff in Ht as [Ht1 Ht2].
      destruct (proj1 IH) as [[? ? ?] ?]; [by split|]. split; [|done]. split; [by constructor|by split|].
      cbn. by rewrite Ht1.
    + intros [[Hr [Ha1 Ha2] Ht] HB]. apply Forall_cons in Hr as [Hr1 Hr2]. cbn in Ht. apply andb_true_iff in Ht as [Ht1 Ht2].
      destruct (proj2 IH) as [? ? ?]; [split; [by split|done]|]. split; [by constructor|by split|].
      cbn. by rewrite Ht1.
Qed.

Lemma log_answers_app es1 es2 w rs1 rs2 :
  log_answers es1 w rs1 -> log_answers es2 (log_effect es1 w) rs2 -> log_answers (es1 ++ es2) w (rs1 ++ rs2).
Proof.
  revert w rs1. induction es1 as [|e es1 IH]; intros w [|r rs1] HA HB; cbn in *; try done.
  destruct HA as [HA1 HA2]. split; [done|]. by apply IH.
Qed.

Lemma log_answers_length es w rs : log_answers es w rs -> length rs = length es.
Proof. revert w rs. induction es as [|e es IH]; intros w [|r rs]; cbn; try done. intros [_ HA]. by rewrite (IH _ _ HA). Qed.

Lemma entry_answer_det e w r1 r2 : entry_answer e w r1 -> entry_answer e w r2 -> r1 = r2.
Proof. unfold entry_answer. destruct (RaftStore.payload e); congruence. Qed.

Lemma log_answers_det es w rs1 rs2 : log_answers es w rs1 -> log_answers es w rs2 -> rs1 = rs2.
Proof.
  revert w rs1 rs2. induction es as [|e es IH]; intros w [|r1 rs1] [|r2 rs2]; cbn; try done.
  intros [A1 B1] [A2 B2]. f_equal; [by eapply entry_answer_det|by eapply IH].
Qed.

(** ** A node follows the reference engine *)

Lemma apply_entry_follows e s w :
  sound_log [e] w -> mirror w (state_machine s) -> idgen (entry_effect e (state_machine s)) <= u64_lim ->
  wp (apply_entry e) (returns (fun r s' => exists r0, entry_answer e w r0 /\ same_answer r0 r /\
    mirror (entry_effect e w) (state_machine s') /\ state_machine s' = entry_effect e (state_machine s))) s.
Proof.
  intros [Hr [Ha _] Ht] HM Hn. apply Forall_cons in Hr as [[(x & Hx & _) Hmem] _]. cbn in Ht.
  rewrite andb_true_r in Ht. unfold apply_entry, entry_answer, entry_effect in *.
  assert (forall s1 (r : QueueOperationResponse),
    wp (meta_set "last_applied" (log_id e) ;;; ret r)
      (returns (fun r' s' => r' = r /\ state_machine s' = state_machine s1)) s1) as Htail.
  { intros s1 r. apply wp_bind. eapply wp_meta_set; [exact Hx|]. intros s2 (_ & Hsm & _). by apply wp_ret. }
  destruct (RaftStore.payload e) as [|op|mem].
  - apply wp_bind, wp_ret. eapply wp_mono; [apply Htail|]. intros [r| | |] s' Hp; try done.
    destruct Hp as [-> Hsm]. exists (RAck (Ok tt)). by rewrite Hsm.
  - apply andb_true_iff in Ht as [Ht Htag]. destruct (apply_applied op w (mi_inv1 _ _ HM) Ha) as (r0 & Hrun & _).
    destruct (paired_apply op w (state_machine s) HM Ha Ht Htag Hn) as [Ho HM']. rewrite Hrun in Ho, HM'. cbn [fst snd] in *.
    destruct (apply_operation op (state_machine s)) as [[r|er| |] w'] eqn:E; try done. cbn [fst snd outcomes] in *.
    apply wp_bind, wp_engine, wp_done. exists r, w'. split; [exact E|].
    eapply wp_mono; [apply Htail|]. intros [r'| | |] s' Hp; try done. destruct Hp as [-> Hsm].
    exists r0. rewrite Hrun, Hsm. by split_and!.
  - destruct Hmem as (y & Hy & _). apply wp_bind, wp_bind. eapply wp_meta_set; [exact Hy|].
    intros s1 (_ & Hsm & _). apply wp_ret. eapply wp_mono; [apply Htail|].
    intros [r| | |] s' Hp; try done. destruct Hp as [-> Hsm']. exists (RAck (Ok tt)). by rewrite Hsm', Hsm.
Qed.

Definition follow_post (es : list Entry) w (acc rs : list QueueOperationResponse) s' : Prop :=
  (exists rs0 rs', rs = acc ++ rs' /\ log_answers es w rs0 /\ Forall2 same_answer rs0 rs') /\
  mirror (log_effect es w) (state_machine s').

Lemma apply_follows es acc s w :
  sound_log es w -> mirror w (state_machine s) -> idgen (log_effect es (state_machine s)) <= u64_lim ->
  wp (for_fold es acc (fun resps entry => let* r := apply_entry entry in ret (resps ++ [r])))
    (returns (follow_post es w acc)) s.
Proof.
  revert acc s w. induction es as [|e es IH]; intros acc s w Hl HM Hn; cbn [for_fold].
  { apply wp_ret. split; [|done]. exists [], []. by rewrite app_nil_r. }
  apply (sound_log_app [e]) in Hl as [He Hl]. apply wp_bind.
  change (log_effect (e :: es) (state_machine s)) with (log_effect es (entry_effect e (state_machine s))) in Hn.
  eapply wp_bind_done; [apply apply_entry_follows; [done..|]; etrans; [apply (idgen_log es)|exact Hn]|].
  intros r s1 (r0 & Hans & Hsame & HM1 & Hs1). apply wp_ret.
  eapply wp_mono; [apply IH; [exact Hl|exact HM1|by rewrite Hs1]|].
  intros [rs| | |] s2 Hp; try done. destruct Hp as ((rs0 & rs' & -> & Hall & Hsm) & HM2). split; [|exact HM2].
  exists (r0 :: rs0), (r :: rs'). rewrite <- app_assoc. split; [done|]. split; [done|]. by constructor.
Qed.

Lemma log_effect_inv es w : SysInv w -> admissible_log es w -> SysInv (log_effect es w).
Proof.
  revert w. induction es as [|e es IH]; intros w HS; [done|]. intros [Ha Hl].
  apply (IH (entry_effect e w)); [by apply entry_effect_inv|done].
Qed.

(** ** The invariant of a cluster *)

(** A node mirrors the reference engine at the node's position in the log, and has
    given its answers, up to the delivery tags. *)
Definition following (l : list Entry) w (r : Replica) : Prop :=
  (position r <= length l)%nat /\
  (exists rs, log_answers (take (position r) l) w rs /\ Forall2 same_answer rs (given r)) /\
  mirror (log_effect (take (position r) l) w) (state_machine (node r)).

(** All nodes start with the messages of [w]. *)
Definition starts w (c : Cluster) : Prop :=
  log c = [] /\ map_Forall (fun _ r => given r = [] /\ mirror w (state_machine (node r))) (nodes c).

(** No node has used up its ids. *)
Definition ids_left (c : Cluster) : Prop :=
  map_Forall (fun _ r => idgen (state_machine (node r)) <= u64_lim) (nodes c).

Lemma following_grow l e w r : following l w r -> following (l ++ [e]) w r.
Proof.
  intros (Hp & Ha & Ht). unfold following. rewrite length_app, take_app_le by done. split_and!; auto. lia.
Qed.

Lemma following_kept l w r s' :
  following l w r -> engine_kept (node r) s' -> following l w (mkReplica s' (given r)).
Proof.
  intros (Hp & Ha & HM) (HS & HG & HB & Hmx). split_and!; auto.
  pose proof (sys_gen _ (mi_inv2 _ _ HM)). eapply mirror_quiet; [exact HM|exact HS|cbn; lia|exact HB|exact Hmx].
Qed.

(** Where a node is, the rest of the log is as sound as the whole. *)
Lemma next_sound k l w r :
  sound_log l w -> sound_log (next_entries k r l) (log_effect (take (position r) l) w).
Proof.
  intros Hl. rewrite <- (take_drop (position r) l) in Hl. apply sound_log_app in Hl as [_ Hl].
  rewrite <- (take_drop k (drop (position r) l)) in Hl. by apply sound_log_app in Hl as [? _].
Qed.

Lemma following_apply k l w r :
  sound_log l w -> following l w r -> idgen (log_effect (next_entries k r l) (state_machine (node r))) <= u64_lim ->
  wp (apply_to_state_machine (next_entries k r l)) (returns (fun rs s' =>
    length rs = length (next_entries k r l) /\ following l w (mkReplica s' (given r ++ rs)))) (node r).
Proof.
  intros Hl Hf Hn. pose proof (next_sound k l w r Hl) as Hns. destruct Hf as (Hp & (rs1 & Ha & Hsame) & HM).
  eapply wp_mono; [by apply apply_follows|]. intros [rs| | |] s' Hpost; try done.
  destruct Hpost as ((rs0 & rs' & -> & Hans & Hs') & HM'). cbn. pose proof (log_answers_length _ _ _ Hans) as Hlen.
  rewrite (Forall2_length _ _ _ Hs') in Hlen.
  split; [done|]. unfold following, position. cbn [given node]. rewrite length_app, Hlen. fold (position r).
  assert (take (position r + length (next_entries k r l)) l = take (position r) l ++ next_entries k r l) as Htk.
  { unfold next_entries. rewrite <- take_take_drop. f_equal. rewrite length_take.
    destruct (Nat.le_gt_cases k (length (drop (position r) l))); [by rewrite Nat.min_l|].
    by rewrite Nat.min_r, !take_ge by lia. }
  rewrite Htk, log_effect_app. split_and!; [| |done].
  - unfold next_entries. rewrite length_take, length_drop. lia.
  - exists (rs1 ++ rs0). split; [by apply log_answers_app|by apply Forall2_app].
Qed.

(** Ids left at the end were left before. *)
Lemma ids_left_step c1 c2 : cluster_step c1 c2 -> ids_left c2 -> ids_left c1.
Proof.
  intros Hstep Hleft i r Hi.
  assert (forall j r0 s' l, nodes c1 !! j = Some r0 -> idgen (state_machine (node r0)) <= idgen (state_machine s') ->
    nodes c2 = <[j := mkReplica s' l]> (nodes c1) -> idgen (state_machine (node r)) <= u64_lim) as Hone.
  { intros j r0 s' l Hj Hle Hc2. destruct (decide (i = j)) as [->|Hne].
    - assert (r0 = r) as -> by congruence. etrans; [exact Hle|]. apply (Hleft j (mkReplica s' l)). rewrite Hc2. apply lookup_insert_eq.
    - apply (Hleft i r). rewrite Hc2, lookup_insert_ne by done. exact Hi. }
  destruct Hstep as [l ns e|l ns j r0 k rs s' Hj Hrun|l ns j r0 c Hj|l ns j r0 e Hj]; cbn [nodes] in *.
  - by apply (Hleft i r).
  - eapply Hone; [exact Hj| |reflexivity]. rewrite (apply_engine _ _ _ _ _ Hrun). apply idgen_log.
  - eapply Hone; [exact Hj| |reflexivity]. destruct (after_call_kept c (node r0)) as (_ & -> & _). done.
  - by eapply Hone; [exact Hj| |reflexivity].
Qed.

(** Every reachable cluster whose log is sound follows the reference engine. *)
Lemma cluster_follows c0 c w :
  starts w c0 -> rtc cluster_step c0 c -> sound_log (log c) w -> ids_left c ->
  map_Forall (fun _ r => following (log c) w r) (nodes c).
Proof.
  intros [Hl0 Hn0] Hsteps. revert c Hsteps.
  apply (rtc_ind_r (fun c => sound_log (log c) w -> ids_left c ->
    map_Forall (fun _ r => following (log c) w r) (nodes c)) c0).
  - intros _ _ i r Hi. destruct (Hn0 i r Hi) as [Hg HM]. rewrite Hl0. unfold following, position. rewrite Hg. cbn.
    split_and!; [lia|by exists []|exact HM].
  - intros c1 c2 _ Hstep IH Hl Hids. pose proof (ids_left_step _ _ Hstep Hids) as Hids1.
    destruct Hstep as [l ns e|l ns i r k rs s' Hi Hrun|l ns i r c Hi|l ns i r e Hi]; cbn [log nodes] in *.
    + apply sound_log_app in Hl as [Hl _]. intros j r Hj. by apply following_grow, (IH Hl Hids1 j).
    + specialize (IH Hl Hids1). apply map_Forall_insert_2; [|done].
      assert (idgen (log_effect (next_entries k r l) (state_machine (node r))) <= u64_lim) as Hn.
      { rewrite <- (apply_engine _ _ _ _ _ Hrun). apply (Hids i (mkReplica s' (given r ++ rs))). cbn. apply lookup_insert_eq. }
      pose proof (following_apply k l w r Hl (IH i r Hi) Hn) as Hwp.
      apply wp_done in Hwp as (rs' & s'' & Hrun' & _ & Hf). congruence.
    + specialize (IH Hl Hids1). apply map_Forall_insert_2; [|done]. eapply following_kept; [by apply (IH i)|]. apply after_call_kept.
    + specialize (IH Hl Hids1). apply map_Forall_insert_2; [|done]. eapply following_kept; [by apply (IH i)|]. done.
Qed.

(** Mirrors stay mirrors along a sound log. *)
Lemma mirror_log es w1 w2 :
  sound_log es w1 -> mirror w1 w2 -> idgen (log_effect es w2) <= u64_lim -> mirror (log_effect es w1) (log_effect es w2).
Proof.
  revert w1 w2. induction es as [|e es IH]; intros w1 w2 Hl HM Hn; [done|].
  apply (sound_log_app [e]) in Hl as [[_ [Ha _] Ht] Hl]. cbn in Ht. rewrite andb_true_r in Ht.
  change (log_effect (e :: es) ?w) with (log_effect es (entry_effect e w)) in *.
  apply IH; [exact Hl| |exact Hn]. unfold entry_effect in *. destruct (RaftStore.payload e) as [|op|]; try done.
  apply andb_true_iff in Ht as [Ht Htag]. apply (paired_apply op w1 w2); auto. etrans; [apply (idgen_log es)|exact Hn].
Qed.
End Cluster.
