(* ===== verification/ClusterTheorems.v ===== *)
(** * ClusterTheorems: when the nodes of a cluster agree, and when they do not

    Nodes that apply one log hold the same messages as long as its entries do not
    depend on the time and name no delivery tag, and no node restarts.  Delivery tags
    are ids of each node's own database, so a committed acknowledgement, a restart,
    or a crash inside the application of an entry makes a node differ from the others
    for good. *)

From Stdlib Require Import ZArith Lia.
From stdpp Require Import prelude gmap strings relations.
From S2P Require Import Prelude Bytes OrdMap Sled Message Bincode Keys QueueManager Store Spec.
From S2P Require Import Engine Invariant Refinement Maintenance Retention Fsck Holdings System.
From S2P Require Import SystemDemo Delivery Snapshot StateMachine RaftStore RaftLog RaftMachine.
From S2P Require Import RaftDemo Frames Replicas Cluster.

Section Claims.
Context `{!Sled, !SledLaws, !SledReliable, !Bincode, !BincodeLaws,
          !Environment, !EnvironmentLaws, !BuildProfile, !RaftTypes}.
Context `{!Json Entry, !Json LogId, !Json (option LogId), !Json Vote, !Json StoredMembership,
          !Json Z, !Json QueueManagerSnapshot}.
Implicit Types (s : RaftStoreInner) (w : World).

Lemma log_answers_take n es w rs : log_answers es w rs -> log_answers (take n es) w (take n rs).
Proof.
  revert n w rs. induction es as [|e es IH]; intros [|n] w [|r rs]; cbn; try done.
  intros [HA HB]. split; [done|]. by apply IH.
Qed.

Lemma same_answer_sym_trans rs rs1 rs2 :
  Forall2 same_answer rs rs1 -> Forall2 same_answer rs rs2 -> Forall2 same_answer rs1 rs2.
Proof.
  intros Ha. revert rs2. induction Ha as [|r r1 rs rs1 Hr _ IH]; intros rs2 Hb; inversion Hb; subst; constructor; auto.
  unfold same_answer in *. congruence.
Qed.

(** Two nodes that follow the same log. *)
Lemma following_agree l w r1 r2 :
  following l w r1 -> following l w r2 -> (position r1 <= position r2)%nat ->
  Forall2 same_answer (given r1) (take (position r1) (given r2)) /\
  (position r1 = position r2 -> mirror (state_machine (node r1)) (state_machine (node r2))).
Proof.
  intros (P1 & (rs1 & A1 & S1) & T1) (P2 & (rs2 & A2 & S2) & T2) Hle. split.
  - apply (log_answers_take (position r1)) in A2. rewrite take_take, Nat.min_l in A2 by done.
    rewrite (log_answers_det _ _ _ _ A1 A2) in S1. apply (same_answer_sym_trans _ _ _ S1). by apply Forall2_take.
  - intros E. rewrite E in T1. eapply mirror_trans; [by apply mirror_sym|done].
Qed.

(** C8: State machine replication, at the level of messages.  Take nodes that hold
    the same messages, whatever ids their databases filed them under, and any
    cluster reached from them by committing entries (none that depends on the time
    or names a delivery tag), applying them node by node in batches of any size, and
    any storage calls, queue reads and clock readings in between, while no node runs
    out of ids.  Every node holds the messages, in the same order and state, and has
    given the answers, up to delivery tags, of one engine that applied the same
    prefix of the log; so the answers of any two nodes agree up to tags as far as both
    have applied, nodes at the same position have the same queues, policies, ready
    messages in order, messages in flight, dead letters, schedule and byte count, and
    no node ever fails to apply the next entries. *)
Theorem replicas_agree c0 c w :
  starts w c0 -> rtc cluster_step c0 c -> sound_log (log c) w -> ids_left c ->
  (forall i r, nodes c !! i = Some r -> following (log c) w r /\
     forall k, idgen (log_effect (next_entries k r (log c)) (state_machine (node r))) <= u64_lim ->
       exists rs s', apply_to_state_machine (next_entries k r (log c)) (node r) = (Done rs, s') /\
         length rs = length (next_entries k r (log c))) /\
  (forall i j r1 r2, nodes c !! i = Some r1 -> nodes c !! j = Some r2 -> (position r1 <= position r2)%nat ->
     Forall2 same_answer (given r1) (take (position r1) (given r2)) /\
     (position r1 = position r2 -> mirror (state_machine (node r1)) (state_machine (node r2)))).
Proof.
  intros H0' Hst Hl Hids. pose proof (cluster_follows c0 c w H0' Hst Hl Hids) as Hall. split.
  - intros i r Hi. split; [by apply (Hall i)|]. intros k Hn.
    pose proof (following_apply k _ w r Hl (Hall i r Hi) Hn) as Hwp.
    apply wp_done in Hwp as (rs & s' & Hrun & Hlen & _). eauto.
  - intros i j r1 r2 Hi Hj. apply (following_agree (log c) w); [by apply (Hall i)|by apply (Hall j)].
Qed.

(** ** Restarts *)

Lemma apply_normal op en r s w' :
  json_ok (log_id en) -> RaftStore.payload en = Normal op -> apply_operation op (state_machine s) = (Done r, w') ->
  exists s', apply_entry en s = (Done r, s') /\ state_machine s' = w'.
Proof.
  intros (x & Hx & _) Hp Hrun.
  assert (wp (apply_entry en) (returns (fun r' s' => r' = r /\ state_machine s' = w')) s) as Hwp.
  { unfold apply_entry. rewrite Hp. apply wp_bind, wp_engine, wp_done. eexists r, w'. split; [done|].
    apply wp_bind. eapply wp_meta_set; [exact Hx|]. intros s2 (_ & Hsm & _). by apply wp_ret. }
  apply wp_done in Hwp as (r' & s' & ? & -> & ?). eauto.
Qed.

Lemma apply_ack q t o w w' :
  ack q t w = (o, w') -> returned o ->
  apply_operation (Ack q t) w =
    (Done (RAck (match o with Fail e => Err e | _ => Ok tt end)), w').
Proof. intros E Hr. cbn [apply_operation]. unfold bind, try. rewrite E. by destruct o as [[]|e| |]. Qed.

Lemma apply_consume q d w w' :
  consume q w = (Done d, w') -> apply_operation (Consume q) w = (Done (RConsume (Ok d)), w').
Proof. intros E. cbn [apply_operation]. unfold bind, try. by rewrite E. Qed.

(** The head of a queue is delivered under its id. *)
Lemma consume_head q t m l w :
  SysInv w -> declared (store w) q = true -> a_ready (abs (store w) q) = (t, m) :: l ->
  exists w', consume q w = (Done (Some (mkTag t, m)), w') /\ SysInv w' /\ declared (store w') q = true /\
    a_inflight (abs (store w') q) = <[t := m]> (a_inflight (abs (store w) q)) /\
    content (abs (store w') q) ≡ₚ content (abs (store w) q).
Proof.
  intros HS Hd Hr. pose proof (consume_sim q w (sys_inv _ HS) Hd (sys_gen _ HS)) as (_ & _ & _ & Ho & HE).
  pose proof (ok_inv _ _ _ (consume_ok q w HS)) as HS'.
  pose proof (holdings_consume (abs (store w) q)) as Hc.
  assert (a_consume (abs (store w) q) = (Some (t, m), mkAQ l (<[t := m]> (a_inflight (abs (store w) q)))
    (a_dead (abs (store w) q)) (a_sched (abs (store w) q)))) as Ha by (unfold a_consume; by rewrite Hr).
  rewrite Ha in Ho, HE, Hc. destruct (consume q w) as [o w'] eqn:E. cbn [fst snd] in Ho, HE, Hc, HS'. subst o.
  exists w'. split; [done|]. split; [done|]. split; [by rewrite (eff_declared _ _ _ _ HE)|].
  rewrite (eff_abs _ _ _ _ HE). split; [done|]. unfold content. f_equiv. apply Hc.
  intros e. eapply ready_not_inflight, (inv_queue _ _ (sys_inv _ HS)), Hd.
Qed.


Lemma requeued_content q w w' :
  Inv (store w) (idgen w) -> declared (store w) q = true -> Recovered q w w' ->
  a_inflight (abs (store w') q) = ∅ /\ content (abs (store w') q) ≡ₚ content (abs (store w) q).
Proof.
  intros HI Hd (ids & Hlen & _ & ->). split; [done|]. unfold content.
  by rewrite (holdings_recover (store w) (idgen w) q ids (inv_queue _ _ HI _ Hd) Hlen).
Qed.

(** C23: Replicas diverge over a restart: when a node restarts while a message is
    in flight, its log position is that of the nodes that did not restart, yet the
    committed acknowledgement of that message succeeds on them and fails on it with
    an invalid tag, and it keeps the message the others have dropped. *)
Theorem restart_diverges q t m en ev s :
  SysInv (state_machine s) -> declared (store (state_machine s)) q = true ->
  total_bytes (store (state_machine s)) < u64_lim ->
  0 <= t < u64_lim -> a_inflight (abs (store (state_machine s)) q) !! t = Some m ->
  json_ok (log_id en) -> RaftStore.payload en = Normal (Ack q (mkTag t)) ->
  exists s', open_store (Ok (db (qm (state_machine s)))) (Ok (r_db s)) ev = Done s' /\
    (last_applied_state s').1 = (last_applied_state s).1 /\
    (idgen (state_machine s') <= u64_lim ->
     exists s1 s2, apply_entry en s = (Done (RAck (Ok tt)), s1) /\
       apply_entry en s' = (Done (RAck (Err (InvalidDeliveryTag (mkTag t)))), s2) /\
       content (abs (store (state_machine s2)) q) ≡ₚ strip m :: content (abs (store (state_machine s1)) q)).
Proof.
  intros HS Hd Hb Ht Hm Hj Hp. set (w := state_machine s) in *.
  destruct (open_store_sim (db (qm w)) (r_db s) ev (sys_inv _ HS) Hb) as (s' & Hop & Hr & _ & Hpost).
  exists s'. split; [done|]. split; [by apply last_applied_ext|]. intros Hg.
  destruct Hpost as (_ & _ & Hd' & _ & _ & _ & Hrec). destruct (Hrec Hg) as [HI' Hrec']. specialize (Hrec' q Hd).
  pose proof (requeued_content q (mkWorld (mkQM (db (qm w)) 0 None) ev) _ (sys_inv _ HS) Hd Hrec') as [Hi' Hc'].
  pose proof (ack_sim q (mkTag t) w (sys_inv _ HS) Hd (sys_gen _ HS) Ht) as Ha.
  pose proof (ack_sim q (mkTag t) (state_machine s') HI' ltac:(by rewrite Hd') Hg Ht) as Ha'.
  unfold wp, ack_post in Ha, Ha'. cbn [tag_u64] in Ha, Ha'. rewrite Hm in Ha. rewrite Hi', lookup_empty in Ha'.
  destruct (ack q (mkTag t) w) as [o w1] eqn:E1. destruct (ack q (mkTag t) (state_machine s')) as [o' w2] eqn:E2.
  destruct Ha as (_ & _ & Ho & HE & _), Ha' as (_ & _ & Ho' & HS2 & _). cbn [fst snd] in *. subst o o'.
  destruct (apply_normal _ en _ s _ Hj Hp (apply_ack _ _ _ _ _ E1 I)) as (s1 & Hrun1 & <-).
  destruct (apply_normal _ en _ s' _ Hj Hp (apply_ack _ _ _ _ _ E2 I)) as (s2 & Hrun2 & <-).
  exists s1, s2. split_and!; auto. rewrite HS2, Hc', (eff_abs _ _ _ _ HE).
  unfold content. by rewrite (holdings_ack _ _ _ Hm).
Qed.

(** ** Interrupted applications *)

(** Publishing a message without deduplication key, within the storage limit. *)
Lemma publish_unkeyed q m w :
  Inv (store w) (idgen w) -> declared (store w) q = true -> sane_policy (policy (store w) q) = true ->
  wf_message m = true -> timeless m = true -> room w (msg_size m) ->
  over_limit (max_bytes (qm w)) (current_bytes (qm w) + msg_size m) = false ->
  idgen (publish q m w).2 <= u64_lim ->
  exists w', publish q m w = (Done (Stored (Message.id m)), w') /\ Inv (store w') (idgen w') /\
    declared (store w') q = true /\ policy (store w') q = policy (store w) q /\
    content (abs (store w') q) ≡ₚ strip m :: content (abs (store w) q).
Proof.
  intros HI Hd Hp Hw Ht Hroom Hmax Hg. destruct (ser_msg_total m Hw) as [v Hv].
  assert (stores m v) as Hs by done. rewrite (stores_size _ _ Hs) in Hroom, Hmax.
  pose proof (publish_sim q m v w HI Hd Hs Hp Hroom) as Hsim. unfold wp, publish_post in Hsim.
  destruct (publish q m w) as [o w']. cbn [fst snd] in *. destruct Hsim as (_ & _ & Hsim).
  destruct o as [[u|]|[]| |]; try done.
  - destruct Hsim as (-> & _ & _ & _ & _ & HE). destruct (HE Hg) as (i & now & _ & _ & HE').
    exists w'. split; [done|]. split; [apply HE'|]. split; [by rewrite (eff_declared _ _ _ _ HE')|].
    split; [apply HE'|]. rewrite (eff_abs _ _ _ _ HE'). unfold content. by rewrite holdings_store.
  - destruct Hsim as ((now & _ & Hd') & _). by rewrite timeless_fresh in Hd'.
  - destruct Hsim as ((max & Hm & Hlt & _) & _). rewrite Hm in Hmax. apply Z.ltb_ge in Hmax. lia.
Qed.

End Claims.

(** ** Witnesses *)

Import RaftDemo.

Lemma demo_recordable (e : Entry) :
  valid c_logid (log_id e) = true ->
  match RaftStore.payload e with MembershipChange mem => valid c_stored (mkStored (Some (log_id e)) mem) | _ => true end = true ->
  recordable e.
Proof.
  intros Hid Hm. split; [by apply (codec_json_ok c_logid); [apply _|]|].
  destruct (RaftStore.payload e); auto. by apply (codec_json_ok c_stored); [apply _|].
Qed.

(** Four entries: commands, a batch and a membership change. *)
Definition demo_log : list Entry :=
  [command 1 1 (DeclareQueue "orders" limits); mkEntry (id_at 1 2) (MembershipChange ([1; 2] : @Membership DemoRaft));
   command 1 3 (PublishBatch "orders" [msg 7 1; msg 8 2]); command 1 4 (Consume "orders")].

(** Two empty nodes with different clocks; the second database has issued ids before. *)
Definition w_far : World := mkWorld (mkQM (mkView ∅ 5 : db_t) 0 (Some 10000)) (mkEnv 9 0).
Definition demo_node (w : World) : Replica := mkReplica (store_with w) [].
Definition c_start : Cluster := mkCluster [] {[1 := demo_node w_empty; 2 := demo_node w_far]}.

Definition demo_apply (k : nat) (l : list Entry) (r : Replica) : Replica :=
  let '(o, s') := apply_to_state_machine (next_entries k r l) (node r) in
  mkReplica s' (given r ++ match o with Done rs => rs | _ => [] end).

Definition demo_ballot : @Vote DemoRaft := (3, 1).

(** The first node has applied two entries, the second one has voted and applied all four. *)
Definition c_voted : Replica := mkReplica (after_call (CSaveVote demo_ballot) (node (demo_node w_far))) [].
Definition c_end : Cluster :=
  mkCluster demo_log (<[2 := demo_apply 7 demo_log c_voted]> (<[2 := c_voted]>
    (<[1 := demo_apply 2 demo_log (demo_node w_empty)]> (nodes c_start)))).

Lemma demo_step_apply l (ns : gmap Z Replica) i r k rs :
  ns !! i = Some r -> (apply_to_state_machine (next_entries k r l) (node r)).1 = Done rs ->
  cluster_step (mkCluster l ns) (mkCluster l (<[i := demo_apply k l r]> ns)).
Proof.
  intros Hi Ho. unfold demo_apply. destruct (apply_to_state_machine _ _) as [o s'] eqn:E. cbn in Ho. subst o.
  by eapply step_apply.
Qed.

Lemma c_end_reached : rtc cluster_step c_start c_end.
Proof.
  do 4 (eapply rtc_l; [apply step_commit|]). cbn [app].
  eapply rtc_l; [eapply (demo_step_apply demo_log _ 1 (demo_node w_empty) 2); [reflexivity|vm_compute; reflexivity]|].
  eapply rtc_l; [eapply (step_call demo_log _ 2 (demo_node w_far) (CSaveVote demo_ballot)); reflexivity|].
  eapply rtc_l; [eapply (demo_step_apply demo_log _ 2 c_voted 7); [reflexivity|vm_compute; reflexivity]|].
  apply rtc_refl.
Qed.

Lemma w_far_sys : SysInv w_far.
Proof. apply SysInv_empty; [vm_compute; reflexivity|split; vm_compute; discriminate|vm_compute; discriminate]. Qed.

Lemma w_far_mirror : mirror w_empty w_far.
Proof.
  assert (forall q, declared (store w_empty) q = false) as Hd by (intros q; reflexivity).
  split; [exact w_empty_sys|exact w_far_sys|..|reflexivity|reflexivity]; intros q; try reflexivity; by rewrite Hd.
Qed.

Lemma c_start_starts : starts w_empty c_start.
Proof.
  split; [done|]. unfold c_start. cbn [nodes].
  apply map_Forall_insert_2; [split; [reflexivity|exact (mirror_refl _ w_empty_sys)]|].
  apply map_Forall_singleton. split; [reflexivity|exact w_far_mirror].
Qed.

Lemma demo_log_sound : sound_log demo_log w_empty.
Proof.
  split.
  - repeat (constructor; [by apply demo_recordable|]). constructor.
  - cbn [demo_log admissible_log RaftStore.payload command].
    split; [apply admissible_run_b_spec; vm_compute; reflexivity|]. split; [exact I|].
    split; [apply admissible_run_b_spec; vm_compute; reflexivity|].
    split; [apply admissible_run_b_spec; vm_compute; reflexivity|exact I].
  - vm_compute. reflexivity.
Qed.

Lemma c_end_ids : ids_left c_end.
Proof.
  unfold ids_left, c_end. cbn [nodes c_start].
  apply map_Forall_insert_2; [vm_compute; discriminate|]. apply map_Forall_insert_2; [vm_compute; discriminate|].
  apply map_Forall_insert_2; [vm_compute; discriminate|]. apply map_Forall_insert_2; [vm_compute; discriminate|].
  apply map_Forall_singleton. vm_compute. discriminate.
Qed.

Lemma replicas_agree_witness :
  exists r1 r2, nodes c_end !! 1 = Some r1 /\ nodes c_end !! 2 = Some r2 /\ position r1 = 2%nat /\ position r2 = 4%nat /\
    Forall2 same_answer (given r1) (take 2 (given r2)) /\ following demo_log w_empty r1 /\ following demo_log w_empty r2.
Proof.
  destruct (replicas_agree c_start c_end w_empty c_start_starts c_end_reached demo_log_sound c_end_ids) as [Hall Hagree].
  exists (demo_apply 2 demo_log (demo_node w_empty)), (demo_apply 7 demo_log c_voted).
  assert (position (demo_apply 2 demo_log (demo_node w_empty)) = 2%nat) as P1 by (vm_compute; reflexivity).
  assert (position (demo_apply 7 demo_log c_voted) = 4%nat) as P2 by (vm_compute; reflexivity).
  split; [reflexivity|]. split; [reflexivity|]. split; [exact P1|]. split; [exact P2|]. split_and!.
  - destruct (Hagree 1 2 _ _ eq_refl eq_refl) as [Hg _]; [rewrite P1, P2; lia|]. rewrite P1 in Hg. exact Hg.
  - apply (Hall 1 _ eq_refl).
  - apply (Hall 2 _ eq_refl).
Defined.

(** The two nodes after the first three entries: the same messages, ids 0 and 1 on
    the first, 5 and 6 on the second. *)
Definition s_near : RaftStoreInner := store_with (log_effect (take 3 demo_log) w_empty).
Definition s_far : RaftStoreInner := store_with (log_effect (take 3 demo_log) w_far).

Lemma s_far_mirror : mirror (state_machine s_near) (state_machine s_far).
Proof.
  apply mirror_log; [|exact w_far_mirror|vm_compute; discriminate].
  pose proof demo_log_sound as Hl. rewrite <- (take_drop 3 demo_log) in Hl. by apply sound_log_app in Hl as [? _].
Qed.


(** The message in flight in [w_snap], and an acknowledgement of it. *)
Definition s_flying : RaftStoreInner := store_with w_snap.
Definition flying_tag : Z := default 0 (fst <$> head (map_to_list (a_inflight (abs (store w_snap) "orders")))).
Definition ack_entry : Entry := command 1 1 (Ack "orders" (mkTag flying_tag)).

Lemma restart_diverges_witness :
  exists m s', open_store (Ok (db (qm (state_machine s_flying)))) (Ok (r_db s_flying)) (mkEnv 50 0) = Done s' /\
    exists s1 s2, apply_entry ack_entry s_flying = (Done (RAck (Ok tt)), s1) /\
      apply_entry ack_entry s' = (Done (RAck (Err (InvalidDeliveryTag (mkTag flying_tag)))), s2) /\
      content (abs (store (state_machine s2)) "orders") ≡ₚ strip m :: content (abs (store (state_machine s1)) "orders").
Proof.
  assert (exists m, a_inflight (abs (store (state_machine s_flying)) "orders") !! flying_tag = Some m) as [m Hm]
    by (eexists; vm_compute; reflexivity).
  destruct (restart_diverges "orders" flying_tag m ack_entry (mkEnv 50 0) s_flying) as (s' & Hop & _ & Hdiv).
  - exact w_snap_sys.
  - vm_compute. reflexivity.
  - vm_compute. reflexivity.
  - split; vm_compute; congruence.
  - exact Hm.
  - apply (codec_json_ok c_logid); [apply _|reflexivity].
  - reflexivity.
  - exists m, s'. split; [exact Hop|]. apply Hdiv.
    apply (f_equal (fun o => match o with Done s => idgen (state_machine s) | _ => 0 end)) in Hop.
    rewrite <- Hop. vm_compute. congruence.
Defined.

(** A node that stops after the engine stored a message of the entry at index 7. *)
Definition publish_entry : Entry := command 1 7 (Publish "orders" (msg 9 1)).
Definition w_half : World := (apply_operation (Publish "orders" (msg 9 1)) w_snap).2.

