(* ===== verification/Durability.v ===== *)
(** * Durability: what a crash leaves

    sled promises that a [flush] that succeeded makes everything written before it
    survive a crash; of writes made since then it promises nothing.  The Raft store
    (src/pelicanq-raft/src/store.rs) flushes its own database after every write; the
    engine (src/pelicanq-core/src/queue.rs) never calls [flush].  So what the Raft
    store reports as written survives, while engine operations may be lost, those
    included that the Raft store has recorded as applied. *)

From Stdlib Require Import ZArith Lia.
From stdpp Require Import prelude gmap strings.
From S2P Require Import Prelude Bytes OrdMap Sled Message Bincode Keys QueueManager Store Spec Engine.
From S2P Require Import Invariant Refinement Maintenance Retention Fsck Holdings System SystemDemo Snapshot.
From S2P Require Import StateMachine RaftStore RaftLog RaftMachine RaftDemo Frames Replicas Cluster.

(** [recovers d v]: a process that dies with the database in state [d] may find [v]
    when it opens it again.  A flush leaves one possibility; a write that is not
    flushed may be lost, so it rules out no possibility. *)
Class SledCrash `{!Sled, !SledLaws} := {
  recovers : db_t -> View -> Prop;
  recovers_flush d d' v : flush d = (Ok tt, d') -> recovers d' v -> v = view d';
  recovers_open t d r d' v : open_tree t d = (r, d') -> recovers d v -> recovers d' v;
  recovers_insert t k x d r d' v : tree_insert t k x d = (r, d') -> recovers d v -> recovers d' v;
  recovers_remove t k d r d' v : tree_remove t k d = (r, d') -> recovers d v -> recovers d' v;
  recovers_generate d r d' v : generate_id d = (r, d') -> recovers d v -> recovers d' v;
  recovers_transaction A (b : Tx A) d r d' v : transaction b d = (r, d') -> recovers d v -> recovers d' v;
}.

Section Durability.
Context `{!Sled, !SledLaws, !SledReliable, !SledCrash, !Bincode, !BincodeLaws,
          !Environment, !EnvironmentLaws, !BuildProfile, !RaftTypes}.
Context `{!Json Entry, !Json LogId, !Json (option LogId), !Json Vote, !Json StoredMembership,
          !Json Z, !Json QueueManagerSnapshot}.
Implicit Types (s : RaftStoreInner) (w : World).

(** ** The engine *)

(** What was a possible outcome of a crash before still is. *)
Definition unflushed (v : View) w w' : Prop := recovers (db (qm w)) v -> recovers (db (qm w')) v.

#[export] Instance unflushed_preorder v : PreOrder (unflushed v).
Proof. split; unfold unflushed; [by intros w|]. intros w1 w2 w3 ? ?. auto. Qed.

(** No call of the engine makes its writes survive. *)
#[export] Instance unflushed_leaves v : Leaves (unflushed v) (fun _ => False).
Proof.
  assert (forall A (f : db_t -> Result string A * db_t),
    (forall d r d', f d = (r, d') -> recovers d v -> recovers d' v) -> keeps (unflushed v) (db_update f)) as Hu.
  { intros A f Hf w Hw. unfold db_update. destruct (f (db (qm w))) as [r d] eqn:E.
    assert (recovers d v) as Hd by (by eapply Hf). by destruct r. }
  split; intros; try apply Hu; try (by intros w); eauto using recovers_open, recovers_insert, recovers_remove, recovers_generate.
  - apply _.
  - intros w Hw. unfold run_transaction. destruct (transaction b (db (qm w))) as [r d] eqn:E.
    assert (recovers d v) as Hd by (by eapply recovers_transaction). by destruct r.
  - intros w Hw. unfold now_ms. by destruct (clock_read _).
  - by intros w Hw.
Qed.

(** So every stored publish and every other call of the engine may be undone by a
    crash. *)
Lemma operations_unflushed op v w :
  recovers (db (qm w)) v -> recovers (db (qm (apply_operation op w).2)) v.
Proof. exact (kept_apply (R := unflushed v) op w). Qed.

Lemma log_unflushed es v w : recovers (db (qm w)) v -> recovers (db (qm (log_effect es w))) v.
Proof.
  revert w. induction es as [|e es IH]; intros w Hw; [done|]. apply (IH (entry_effect e w)).
  unfold entry_effect. destruct (RaftStore.payload e); [done|by apply operations_unflushed|done].
Qed.

(** ** The Raft store *)

(** A crash cannot undo what the Raft database holds. *)
Definition flushed s : Prop := forall v, recovers (r_db s) v -> v = view (r_db s).

Lemma r_flush_flushed s s' : r_update Write flush s = (Done tt, s') -> flushed s'.
Proof.
  unfold r_update. destruct (flush (r_db s)) as [[[]|e] d] eqn:E; [|done]. intros [= <-] v Hv.
  by eapply recovers_flush.
Qed.

Lemma meta_set_flushed `{!Json T} key (a : T) s s' : meta_set key a s = (Done tt, s') -> flushed s'.
Proof.
  unfold meta_set. intros (x & s1 & _ & (u & s2 & _ & E)%bind_Done)%bind_Done. by eapply r_flush_flushed.
Qed.

(** Votes, appended entries, truncations and purges that were reported done. *)
Lemma raft_writes_survive s s' :
  (exists v, save_vote v s = (Done tt, s')) \/ (exists es, append_to_log es s = (Done tt, s')) \/
  (exists id, delete_conflict_logs_since id s = (Done tt, s')) \/ (exists id, purge_logs_upto id s = (Done tt, s')) ->
  flushed s'.
Proof.
  intros [[v E]|[[es E]|[[id E]|[id E]]]].
  - exact (meta_set_flushed "vote" v s s' E).
  - apply bind_Done in E as (u & s1 & _ & E). by eapply r_flush_flushed.
  - apply bind_Done in E as (u & s1 & _ & E). by eapply r_flush_flushed.
  - apply bind_Done in E as (u & s1 & _ & (u2 & s2 & _ & E)%bind_Done). by eapply r_flush_flushed.
Qed.

Lemma apply_entry_flushed e s r s' : apply_entry e s = (Done r, s') -> flushed s'.
Proof.
  unfold apply_entry. intros (r1 & s1 & _ & ([] & s2 & E2 & E3)%bind_Done)%bind_Done. injection E3 as _ <-.
  exact (meta_set_flushed "last_applied" (log_id e) s1 s2 E2).
Qed.

Lemma apply_flushed es acc s rs s' :
  es <> [] -> for_fold es acc (fun resps entry => let* r := apply_entry entry in ret (resps ++ [r])) s = (Done rs, s') ->
  flushed s'.
Proof.
  intros Hne E. destruct es as [|e es]; [done|]. clear Hne. revert e acc s E.
  induction es as [|e' es IH]; intros e acc s; cbn [for_fold];
    intros (a & s1 & (r & s2 & E1 & [= <- <-])%bind_Done & E3)%bind_Done.
  - injection E3 as _ <-. by eapply apply_entry_flushed.
  - by eapply IH.
Qed.

(** ** A crash after entries were applied *)

(** A node opened on what a crash left of its two databases. *)
Lemma reopened_content v de dr ev :
  Inv (contents v) (v_idgen v) -> total_bytes (contents v) < u64_lim -> view de = v ->
  exists s, open_store (Ok de) (Ok dr) ev = Done s /\ r_store s = contents (view dr) /\
    (idgen (state_machine s) <= u64_lim -> forall q, safe_name q = true ->
      content (abs (store (state_machine s)) q) ≡ₚ content (abs (contents v) q)).
Proof.
  intros HI Hb <-. destruct (open_store_sim de dr ev HI Hb) as (s & Hop & Hr & _ & Hpost).
  exists s. split; [done|]. split; [done|]. intros Hn q Hq.
  destruct Hpost as (_ & _ & _ & _ & _ & Hun & Hrec). destruct (Hrec Hn) as [_ Hrec'].
  exact (recovered_content (mkWorld (mkQM de 0 None) ev) (state_machine s) HI Hun Hrec' q Hq).
Qed.

End Durability.

(** ** A disk that keeps only what was flushed *)

Module Lazy.

(** What the process sees, and what is on the disk. *)
Record disk := mkLazy { seen : View; kept : View }.

Definition change {A} (f : View -> A * View) (d : disk) : A * disk :=
  let '(r, v) := f (seen d) in (r, mkLazy v (kept d)).

#[export] Instance LazySled : Sled := {|
  db_t := disk;
  open_tree t := change (fun v => (Ok tt, v_open t v));
  contains_key t k d := Ok (bool_decide (is_Some (o_get k (tree_of (seen d) t))));
  tree_get t k d := Ok (o_get k (tree_of (seen d) t));
  tree_insert t k x := change (fun v => (Ok tt, v_insert t k x v));
  tree_remove t k := change (fun v => (Ok (o_get k (tree_of v t)), v_remove t k v));
  tree_iter t d := map Ok (tree_of (seen d) t);
  tree_range t lo hi d := map Ok (o_range lo hi (tree_of (seen d) t));
  tree_range_incl t lo hi d := map Ok (o_range_incl lo hi (tree_of (seen d) t));
  tree_last t d := Ok (last (tree_of (seen d) t));
  tree_len t d := length (tree_of (seen d) t);
  generate_id := change (fun v => (Ok (Z.max 0 (v_idgen v)), mkView (v_trees v) (Z.max 0 (v_idgen v) + 1)));
  transaction A b := change (commit_tx b);
  flush d := (Ok tt, mkLazy (seen d) (seen d));
|}.

#[export] Instance LazyLaws : SledLaws.
Proof.
  refine {| view := fun d : db_t => seen d |}.
  all: cbn; unfold change; intros; simplify_eq; rewrite ?Mem.all_ok_map_Ok in *; simplify_eq; auto.
  - cbn. repeat split; lia.
  - destruct (commit_tx b (seen d)). by simplify_eq.
Defined.

#[export] Instance LazyReliable : SledReliable.
Proof.
  split; cbn; unfold change; intros; rewrite ?Mem.all_ok_map_Ok; eauto.
  pose proof (Mem.commit_tx_not_storage b (seen d) msg) as Hm. by destruct (commit_tx b (seen d)).
Qed.

#[export] Instance LazyCrash : SledCrash.
Proof.
  refine {| recovers := fun (d : db_t) v => v = kept d |}; cbn; unfold change; intros; simplify_eq; auto.
  by destruct (commit_tx b (seen d)); simplify_eq.
Defined.
End Lazy.

(** ** Witness *)

Import RaftDemo Lazy.

Definition no_data : disk := mkLazy Mem.empty Mem.empty.
Definition s_lazy : RaftStoreInner (H := LazySled) :=
  mkInner (no_data : db_t) (mkWorld (mkQM (no_data : db_t) 0 (Some 10000)) (mkEnv 0 0)) None.
Definition declare_entry : Entry := command 1 1 (DeclareQueue "orders" limits).
Definition first_entry : Entry := command 1 2 (Publish "orders" (msg 9 1)).
Definition s_applied : RaftStoreInner (H := LazySled) := (apply_to_state_machine ([declare_entry] ++ [first_entry]) s_lazy).2.

