(* ===== verification/Daemon.v ===== *)
(** * Daemon: the engine behind the protocol front ends

    The application state the HTTP, gRPC and MQTT handlers share ([AppEngine] and
    [AppState] of src/pelicanqd/src/api.rs) and the handle through which a
    clustered node submits operations (src/pelicanq-raft/src/lib.rs,
    [FlockHandle]).  openraft is a parameter. *)

From Stdlib Require Import ZArith Lia.
From stdpp Require Import prelude gmap strings.
From S2P Require Import Prelude Bytes OrdMap Sled Message Bincode Keys QueueManager Snapshot.
From S2P Require Import StateMachine RaftStore.

(** ** Cluster topology *)

(** [pelicanq_raft::Node]. *)
Record Node := mkNode { raft_addr : string; client_addr : string }.

(** [NodeConfig] and [ClusterConfig] of cluster_config.rs. *)
Record NodeConfig := mkNodeConfig { nc_id : Z; nc_raft_addr : string; nc_client_addr : string }.
Record ClusterConfig := mkCluster { self_id : Z; members : list NodeConfig }.

#[export] Instance NodeConfig_eq_dec : EqDecision NodeConfig.
Proof. solve_decision. Defined.
#[export] Instance ClusterConfig_eq_dec : EqDecision ClusterConfig.
Proof. solve_decision. Defined.

(** [WriteResult]. *)
Inductive WriteResult :=
| WOk (response : QueueOperationResponse)
| NotLeader (leader_node : option Node)
| WError (msg : string).

Section Daemon.
Context `{!Sled, !Bincode, !Environment, !BuildProfile, !RaftTypes}.

(** ** openraft *)

(** A Raft instance: [client_write] works on the store it shares with the
    handle; its error says whether the request is to be forwarded to a leader
    and prints itself; [metrics] gives the node's id and the leader it knows. *)
Class OpenRaft := {
  raft_t : Type;
  raft_error : Type;
  raft_client_write : QueueOperation -> raft_t -> RaftStoreInner ->
    Result raft_error QueueOperationResponse * (raft_t * RaftStoreInner);
  forward_to_leader : raft_error -> option (option Node);
  raft_error_display : raft_error -> string;
  metrics_id : raft_t -> Z;
  metrics_leader : raft_t -> option Z;
}.

Context `{!OpenRaft}.

Record FlockHandle := mkFlock { raft : raft_t; flock_store : RaftStoreInner }.

(** [FlockHandle::client_write]. *)
Definition client_write {E} (op : QueueOperation) : M FlockHandle E WriteResult :=
  fun h =>
    let '(res, (r', s')) := raft_client_write op (raft h) (flock_store h) in
    (Done (match res with
           | Ok resp => WOk resp
           | Err raft_err =>
             match forward_to_leader raft_err with
             | Some leader_node => NotLeader leader_node
             | None => WError (raft_error_display raft_err)
             end
           end), mkFlock r' s').

(** [FlockHandle::with_qm] on a closure over the local engine. *)
Definition with_qm {E A} (f : QM A) : M FlockHandle E (Result PelicanError A) :=
  fun h =>
    let '(o, w) := f (state_machine (flock_store h)) in
    let h' := mkFlock (raft h) (set_state_machine w (flock_store h)) in
    match o with
    | Done a => (Done (Ok a), h')
    | Fail e => (Done (Err e), h')
    | Panic => (Panic, h')
    | OutOfFuel => (OutOfFuel, h')
    end.

(** ** The application state *)

(** [std::sync::Mutex]: a panic while the lock is held poisons it. *)
Record Mutex (A : Type) := mkMutex { guarded : A; poisoned : bool }.
Arguments mkMutex {A}.
Arguments guarded {A}.
Arguments poisoned {A}.

Inductive AppEngine :=
| Solo (qm_arc : Mutex World)
| Flock (flock : FlockHandle).

Record AppState := mkApp { engine : AppEngine; cluster : option ClusterConfig }.

(** [qm_arc.lock().unwrap()] followed by calls of the engine under the lock. *)
Definition locked {E A} (f : QM A) : M (Mutex World) E (Result PelicanError A) :=
  fun mx =>
    if poisoned mx then (Panic, mx) else
    let '(o, w) := f (guarded mx) in
    match o with
    | Done a => (Done (Ok a), mkMutex w false)
    | Fail e => (Done (Err e), mkMutex w false)
    | Panic => (Panic, mkMutex w true)
    | OutOfFuel => (OutOfFuel, mkMutex w true)
    end.

(** [match &state.engine { Solo(qm_arc) => .., Flock(flock) => .. }]. *)
Definition on_engine {E A} (solo : M (Mutex World) E A) (flock : M FlockHandle E A) : M AppState E A :=
  fun st =>
    match engine st with
    | Solo mx => let '(o, mx') := solo mx in (o, mkApp (Solo mx') (cluster st))
    | Flock h => let '(o, h') := flock h in (o, mkApp (Flock h') (cluster st))
    end.

(** The engine's world in either mode. *)
Definition app_world (st : AppState) : World :=
  match engine st with Solo mx => guarded mx | Flock h => state_machine (flock_store h) end.

Definition set_app_world (w : World) (st : AppState) : AppState :=
  match engine st with
  | Solo mx => mkApp (Solo (mkMutex w (poisoned mx))) (cluster st)
  | Flock h => mkApp (Flock (mkFlock (raft h) (set_state_machine w (flock_store h)))) (cluster st)
  end.

(** openraft's documented behaviour on the leader of a cluster whose log carries
    no other pending operation: [client_write] returns after the operation has
    been applied to the local state machine, with the response of the
    application. *)
Class RaftLeader := {
  idle_leader : raft_t -> Prop;
  leader_applies r s op resp w :
    idle_leader r -> apply_operation op (state_machine s) = (Done resp, w) ->
    exists r' s', raft_client_write op r s = (Ok resp, (r', s')) /\ idle_leader r' /\ state_machine s' = w;
}.

(** The process has one clock and one random source. *)
#[global] Instance HasEnv_App : HasEnv AppState :=
  {| env_of st := env (app_world st); set_env e st := set_app_world (set_env e (app_world st)) st |}.
End Daemon.

Arguments mkMutex {A}.
Arguments guarded {A}.
Arguments poisoned {A}.
