(* ===== verification/Modes.v ===== *)
(** * Modes: Solo and clustered daemons behind the same interface

    A handler reaches the engine under the lock of a Solo daemon or through the
    Raft log of a clustered one.  On a leader both make the same call; these
    lemmas carry an answer from one mode to the other. *)

From Stdlib Require Import ZArith Lia.
From stdpp Require Import prelude gmap strings.
From S2P Require Import Prelude Bytes OrdMap Sled Message Bincode Keys QueueManager Snapshot.
From S2P Require Import StateMachine RaftStore Daemon.

Section Modes.
Context `{!Sled, !Bincode, !Environment, !BuildProfile, !RaftTypes, !OpenRaft, !RaftLeader}.
Implicit Types w : World.

(** A Solo daemon whose lock is intact, and a clustered one. *)
Definition solo (w : World) (c : option ClusterConfig) : AppState := mkApp (Solo (mkMutex w false)) c.
Definition flock (h : FlockHandle) (c : option ClusterConfig) : AppState := mkApp (Flock h) c.

(** The node leads an idle cluster and its state machine is in state [w]. *)
Definition mirrors (h : FlockHandle) w : Prop :=
  idle_leader (raft h) /\ state_machine (flock_store h) = w.

(** ** Calls under the lock *)

Lemma locked_run {E A} (f : QM A) r w w' :
  try f w = (Done r, w') -> locked (E := E) f (mkMutex w false) = (Done r, mkMutex w' false).
Proof. unfold try, locked. cbn. destruct (f w) as [[a|e| |] w1]; cbn; by intros [= <- <-]. Qed.

Lemma locked_done {E A} (f : QM A) r w mx :
  locked (E := E) f (mkMutex w false) = (Done r, mx) ->
  exists w', mx = mkMutex w' false /\ try f w = (Done r, w').
Proof. unfold try, locked. cbn. destruct (f w) as [[a|e| |] w1]; cbn; intros [= <- <-]; eauto. Qed.

Lemma on_solo {E A} (s : M (Mutex World) E A) (fl : M FlockHandle E A) w c :
  on_engine s fl (solo w c) = (let '(o, mx) := s (mkMutex w false) in (o, mkApp (Solo mx) c)).
Proof. done. Qed.

Lemma on_flock {E A} (s : M (Mutex World) E A) (fl : M FlockHandle E A) h c :
  on_engine s fl (flock h c) = (let '(o, h') := fl h in (o, flock h' c)).
Proof. done. Qed.

(** A handler that makes one call and answers with its result. *)
Lemma on_solo_call {E A B} (f : QM A) (g : Result PelicanError A -> B) (fl : M FlockHandle E B) r w w' c :
  try f w = (Done r, w') ->
  on_engine (let* r := locked f in ret (g r)) fl (solo w c) = (Done (g r), solo w' c).
Proof. intros Hr. rewrite on_solo. unfold bind. by rewrite (locked_run f r w w'). Qed.

(** ** Calls through the log *)

Lemma client_write_leader {E} op resp h w w' :
  mirrors h w -> apply_operation op w = (Done resp, w') ->
  exists h', client_write (E := E) op h = (Done (WOk resp), h') /\ mirrors h' w'.
Proof.
  intros [Hi <-] Ha. destruct (leader_applies _ _ _ _ _ Hi Ha) as (r' & s' & Hw & Hi' & Hs).
  exists (mkFlock r' s'). unfold client_write. rewrite Hw. done.
Qed.

Lemma with_qm_run {E A} (f : QM A) r h w w' :
  mirrors h w -> try f w = (Done r, w') ->
  exists h', with_qm (E := E) f h = (Done r, h') /\ mirrors h' w'.
Proof.
  intros [Hi <-]. unfold with_qm, try. destruct (f _) as [[a|e| |] w1]; cbn; intros [= <- <-];
    eexists; by split.
Qed.

(** An outcome other than a panic. *)
Definition settled {E A} (o : Outcome E A) : Prop :=
  match o with Done _ | Fail _ => True | Panic | OutOfFuel => False end.

(** A handler whose clustered side is carried along by the Solo side. *)
Definition follows {E A} (s : M (Mutex World) E A) (fl : M FlockHandle E A) : Prop :=
  forall w h o mx, mirrors h w -> s (mkMutex w false) = (o, mx) -> settled o ->
  exists w' h', mx = mkMutex w' false /\ fl h = (o, h') /\ mirrors h' w'.

(** A computation on the application state that does not depend on the mode. *)
Definition agrees {E A} (m : M AppState E A) : Prop :=
  forall h w c o st, mirrors h w -> m (solo w c) = (o, st) -> settled o ->
  exists w' h', st = solo w' c /\ mirrors h' w' /\ m (flock h c) = (o, flock h' c).

Lemma follows_ret {E A} (a : A) : follows (E := E) (ret a) (ret a).
Proof. intros w h o mx Hm [= <- <-] _. exists w, h. done. Qed.

Lemma follows_fail {E A} (e : E) : follows (A := A) (fail e) (fail e).
Proof. intros w h o mx Hm [= <- <-] _. exists w, h. done. Qed.

Lemma follows_bind {E A B} (s : M (Mutex World) E A) fl (sk : A -> M (Mutex World) E B) fk :
  follows s fl -> (forall a, follows (sk a) (fk a)) -> follows (bind s sk) (bind fl fk).
Proof.
  intros Hs Hk w h o mx Hm. unfold bind. destruct (s (mkMutex w false)) as [o1 mx1] eqn:E1. intros Hrun Ho.
  assert (settled o1) as Ho1 by (destruct o1; try done; injection Hrun as <- _; done).
  destruct (Hs w h o1 mx1 Hm E1 Ho1) as (w1 & h1 & -> & -> & Hm1).
  destruct o1 as [a|e| |]; try done; [by apply Hk with w1|]. injection Hrun as <- <-. exists w1, h1. done.
Qed.

(** The same call under the lock and through the log. *)
Lemma follows_write {E A B} (f : QM A) op (sk : Result PelicanError A -> M (Mutex World) E B)
    (k : WriteResult -> M FlockHandle E B) :
  (forall w r w', try f w = (Done r, w') ->
     exists resp, apply_operation op w = (Done resp, w') /\ follows (sk r) (k (WOk resp))) ->
  follows (bind (locked f) sk) (bind (client_write op) k).
Proof.
  intros Hop w h o mx Hm. unfold bind at 1. destruct (locked f (mkMutex w false)) as [[r|e| |] mx1] eqn:Hl;
    [|unfold locked in Hl; cbn in Hl; by destruct (f w) as [[]]|by intros [= <- <-]|by intros [= <- <-]].
  apply locked_done in Hl as (w1 & -> & Ht). intros Hs Ho. destruct (Hop w r w1 Ht) as (resp & Ha & Hk).
  destruct (client_write_leader (E := E) op _ h w w1 Hm Ha) as (h1 & Hc & Hm1).
  destruct (Hk w1 h1 o mx Hm1 Hs Ho) as (w' & h' & -> & Hr & Hm').
  exists w', h'. split_and!; auto. unfold bind. by rewrite Hc.
Qed.

(** An operation that wraps the result of one call. *)
Lemma follows_call {E A B} (f : QM A) op wrap (sk : Result PelicanError A -> M (Mutex World) E B)
    (k : WriteResult -> M FlockHandle E B) :
  (forall w, apply_operation op w = (let* r := try f in ret (wrap r)) w) ->
  (forall r, follows (sk r) (k (WOk (wrap r)))) ->
  follows (bind (locked f) sk) (bind (client_write op) k).
Proof.
  intros Hop Hk. apply follows_write. intros w r w' Ht. exists (wrap r). split; [|done].
  rewrite Hop. unfold bind. by rewrite Ht.
Qed.

Lemma follows_read {E A B} (f : QM A) (sk : Result PelicanError A -> M (Mutex World) E B)
    (k : Result PelicanError A -> M FlockHandle E B) :
  (forall r, follows (sk r) (k r)) -> follows (bind (locked f) sk) (bind (with_qm f) k).
Proof.
  intros Hk. apply follows_bind; [|done]. intros w h o mx Hm Hl Ho. destruct o as [r| | |]; try done.
  - apply locked_done in Hl as (w1 & -> & Ht). destruct (with_qm_run (E := E) f r h w w1 Hm Ht) as (h1 & ? & ?). eauto.
  - unfold locked in Hl. cbn in Hl. by destruct (f w) as [[]].
Qed.

Lemma agrees_ret {E A} (a : A) : agrees (E := E) (ret a).
Proof. intros h w c o st Hm [= <- <-] _. exists w, h. done. Qed.

Lemma agrees_fail {E A} (e : E) : agrees (A := A) (fail e).
Proof. intros h w c o st Hm [= <- <-] _. exists w, h. done. Qed.

Lemma agrees_bind {E A B} (m : M AppState E A) (k : A -> M AppState E B) :
  agrees m -> (forall a, agrees (k a)) -> agrees (bind m k).
Proof.
  intros Hm0 Hk h w c o st Hm. unfold bind. destruct (m (solo w c)) as [o1 st1] eqn:E1. intros Hrun Ho.
  assert (settled o1) as Ho1 by (destruct o1; try done; injection Hrun as <- _; done).
  destruct (Hm0 h w c o1 st1 Hm E1 Ho1) as (w1 & h1 & -> & Hm1 & ->).
  destruct o1 as [a|e| |]; try done; [by apply Hk with w1|]. injection Hrun as <- <-. exists w1, h1. done.
Qed.

Lemma agrees_engine {E A} (s : M (Mutex World) E A) (fl : M FlockHandle E A) :
  follows s fl -> agrees (on_engine s fl).
Proof.
  intros Hf h w c o st Hm. rewrite on_solo, on_flock. destruct (s (mkMutex w false)) as [o1 mx] eqn:Hs.
  intros [= -> <-] Ho. destruct (Hf w h o mx Hm Hs Ho) as (w' & h' & -> & Hr & Hm'). exists w', h'. by rewrite Hr.
Qed.

(** Readings of the random source and of the clock. *)
Lemma set_env_mirrors e h w :
  mirrors h w -> mirrors (mkFlock (raft h) (set_state_machine (set_env e w) (flock_store h))) (set_env e w).
Proof. by intros [? _]. Qed.

Lemma agrees_new_v4 {E} : agrees (E := E) new_v4.
Proof.
  intros h w c o st Hm [= <- <-] _. eexists _, _. split; [reflexivity|]. split; [by apply set_env_mirrors|].
  destruct Hm as [_ <-]. reflexivity.
Qed.

Lemma agrees_now_ms {E} : agrees (E := E) now_ms.
Proof.
  intros h w c o st Hm. unfold now_ms. change (env_of (solo w c)) with (env w).
  destruct (clock_read (clock_tick (env w))) as [ms|] eqn:Ec; intros [= <- <-]; [|done]. intros _.
  eexists _, _. split; [reflexivity|]. split; [by apply set_env_mirrors|].
  destruct Hm as [_ <-]. change (env_of (flock h c)) with (env (state_machine (flock_store h))). by rewrite Ec.
Qed.

Lemma agrees_attempt {E E' A} (m : M AppState E A) : agrees m -> agrees (E := E') (attempt m).
Proof.
  intros Hm0 h w c o st Hm. unfold attempt. destruct (m (solo w c)) as [o1 st1] eqn:E1. intros Hrun Ho.
  assert (settled o1) as Ho1 by (destruct o1; try done; injection Hrun as <- _; done).
  destruct (Hm0 h w c o1 st1 Hm E1 Ho1) as (w1 & h1 & -> & Hm1 & ->).
  destruct o1; try done; injection Hrun as <- <-; exists w1, h1; done.
Qed.
End Modes.

Create HintDb modes.
#[export] Hint Resolve follows_ret follows_fail follows_read agrees_ret agrees_fail agrees_bind agrees_engine
  agrees_new_v4 agrees_now_ms agrees_attempt : modes.
