(* ===== verification/Wire.v ===== *)
(** * Wire: the text encodings of the protocol boundary

    The base64, uuid and http crates the front ends call, as interfaces with the
    laws their documentation states, and reference implementations (RFC 4648
    base64 with padding, hyphenated UUIDs, visible-ASCII header values) that
    satisfy them. *)

From Stdlib Require Import ZArith Lia Ascii.
From stdpp Require Import prelude gmap strings.
From S2P Require Import Prelude Bytes.

(** [base64::engine::general_purpose::STANDARD]; an error is its [Display] text. *)
Class Base64 := {
  b64_encode : bytes -> string;
  b64_decode : string -> Result string bytes;
}.
Class Base64Laws `{Base64} : Prop :=
  b64_decode_encode b : is_bytes b = true -> b64_decode (b64_encode b) = Ok b.

(** [Uuid::to_string] and [str::parse::<Uuid>]. *)
Class UuidText := {
  uuid_to_string : Z -> string;
  uuid_parse : string -> option Z;
}.
Class UuidTextLaws `{UuidText} : Prop := {
  uuid_parse_to_string u : 0 <= u < u128_lim -> uuid_parse (uuid_to_string u) = Some u;
  uuid_parse_range s u : uuid_parse s = Some u -> 0 <= u < u128_lim;
  uuid_parse_empty : uuid_parse "" = None;
}.

(** Whether [HeaderValue::from_str] accepts a text. *)
Class HeaderText := { header_value_ok : string -> bool }.

Module WireRef.

(** ** Base64 *)

(** The alphabet and its inverse, on character codes. *)
Definition enc_digit (d : Z) : Z :=
  if d <? 26 then 65 + d else if d <? 52 then 71 + d else if d <? 62 then d - 4 else
  if d =? 62 then 43 else 47.
Definition dec_digit (c : Z) : option Z :=
  if in_rng 65 90 c then Some (c - 65) else if in_rng 97 122 c then Some (c - 71) else
  if in_rng 48 57 c then Some (c + 4) else if c =? 43 then Some 62 else if c =? 47 then Some 63 else None.

Fixpoint b64_enc (b : bytes) : list Z :=
  match b with
  | x :: y :: z :: r =>
    enc_digit (x / 4) :: enc_digit (x mod 4 * 16 + y / 16) :: enc_digit (y mod 16 * 4 + z / 64)
      :: enc_digit (z mod 64) :: b64_enc r
  | [x; y] => [enc_digit (x / 4); enc_digit (x mod 4 * 16 + y / 16); enc_digit (y mod 16 * 4); 61]
  | [x] => [enc_digit (x / 4); enc_digit (x mod 4 * 16); 61; 61]
  | [] => []
  end.

(** The value of a quantum of two, three or four digits; unused bits are zero. *)
Definition dec2 (a b : Z) : option bytes :=
  x ← dec_digit a; y ← dec_digit b;
  if y mod 16 =? 0 then Some [x * 4 + y / 16] else None.
Definition dec3 (a b c : Z) : option bytes :=
  x ← dec_digit a; y ← dec_digit b; z ← dec_digit c;
  if z mod 4 =? 0 then Some [x * 4 + y / 16; y mod 16 * 16 + z / 4] else None.
Definition dec4 (a b c d : Z) : option bytes :=
  x ← dec_digit a; y ← dec_digit b; z ← dec_digit c; w ← dec_digit d;
  Some [x * 4 + y / 16; y mod 16 * 16 + z / 4; z mod 4 * 64 + w].

Fixpoint b64_dec (s : list Z) : option bytes :=
  match s with
  | [] => Some []
  | a :: b :: c :: d :: r =>
    if (d =? 61) && bool_decide (r = []) then (if c =? 61 then dec2 a b else dec3 a b c)
    else q ← dec4 a b c d; rest ← b64_dec r; Some (q ++ rest)
  | _ => None
  end.

#[export] Instance RefBase64 : Base64 := {|
  b64_encode b := bytes_str (b64_enc b);
  b64_decode s := match b64_dec (str_bytes s) with Some b => Ok b | None => Err "invalid input"%string end |}.

Lemma dec_enc_digit d : 0 <= d < 64 -> dec_digit (enc_digit d) = Some d.
Proof.
  intros Hd. unfold dec_digit, enc_digit, in_rng.
  destruct (d <? 26) eqn:E1; [|destruct (d <? 52) eqn:E2; [|destruct (d <? 62) eqn:E3; [|destruct (d =? 62) eqn:E4]]];
    rewrite ?Z.ltb_lt, ?Z.ltb_ge, ?Z.eqb_eq, ?Z.eqb_neq in *.
  all: repeat match goal with
       | |- context [(?a <=? ?b) && (?c <=? ?d)] => destruct ((a <=? b) && (c <=? d)) eqn:?
       | |- context [?a =? ?b] => destruct (a =? b) eqn:?
       end; try (f_equal; lia); lia.
Qed.

Lemma enc_digit_ne d : 0 <= d < 64 -> enc_digit d <> 61 /\ 0 <= enc_digit d < 256.
Proof. intros Hd. unfold enc_digit. repeat case_match; lia. Qed.

Lemma str_bytes_str l : Forall (fun z => 0 <= z < 256) l -> str_bytes (bytes_str l) = l.
Proof.
  intros Hl. unfold str_bytes, bytes_str. rewrite String.list_ascii_of_string_of_list_ascii, map_map.
  induction Hl as [|z l Hz Hl IH]; cbn [map]; [done|]. rewrite IH. f_equal.
  rewrite nat_ascii_embedding by lia. lia.
Qed.
Ltac divmod := Z.to_euclidean_division_equations; lia.

Lemma sixbits x y : 0 <= x < 256 -> 0 <= y < 256 -> 0 <= x / 4 < 64 /\ 0 <= x mod 4 * 16 < 64 /\
  0 <= x mod 4 * 16 + y / 16 < 64 /\ 0 <= y mod 16 * 4 < 64.
Proof. intros Hx Hy. divmod. Qed.

Lemma dec4_enc x y z :
  0 <= x < 256 -> 0 <= y < 256 -> 0 <= z < 256 ->
  dec4 (enc_digit (x / 4)) (enc_digit (x mod 4 * 16 + y / 16)) (enc_digit (y mod 16 * 4 + z / 64))
    (enc_digit (z mod 64)) = Some [x; y; z].
Proof.
  intros Hx Hy Hz. pose proof (sixbits x y Hx Hy). pose proof (Z.mod_pos_bound z 64).
  assert (0 <= y mod 16 * 4 + z / 64 < 64) by divmod.
  unfold dec4. rewrite !dec_enc_digit by lia. cbn. do 2 f_equal; [divmod|]. f_equal; [divmod|]. f_equal. divmod.
Qed.

Lemma b64_dec_enc b : is_bytes b = true -> b64_dec (b64_enc b) = Some b.
Proof.
  remember (length b) as n eqn:Hn. assert (length b <= n)%nat as Hle by lia. clear Hn. revert b Hle.
  induction n as [|n IH]; intros [|x [|y [|z r]]] Hle Hb; cbn [length] in Hle; try done; try lia.
  all: cbn in Hb; rewrite ?andb_true_iff in Hb; unfold is_u8 in Hb.
  - assert (0 <= x < 256) as Hx by lia. pose proof (sixbits x x Hx Hx).
    cbn. unfold dec2. rewrite !dec_enc_digit by lia. cbn.
    replace (x mod 4 * 16 mod 16 =? 0) with true by divmod. do 2 f_equal. divmod.
  - assert (0 <= x < 256) as Hx by lia. assert (0 <= y < 256) as Hy by lia. pose proof (sixbits x y Hx Hy).
    cbn [b64_enc b64_dec]. destruct (enc_digit_ne (y mod 16 * 4)) as [Hne _]; [lia|].
    cbn [andb bool_decide decide_rel]. apply Z.eqb_neq in Hne. rewrite Hne. cbn.
    unfold dec3. rewrite !dec_enc_digit by lia. cbn.
    replace (y mod 16 * 4 mod 4 =? 0) with true by divmod. do 2 f_equal; [divmod|]. f_equal. divmod.
  - assert (0 <= x < 256) as Hx by lia. assert (0 <= y < 256) as Hy by lia. assert (0 <= z < 256) as Hz by lia.
    cbn [b64_enc b64_dec]. destruct (enc_digit_ne (z mod 64)) as [Hne _]; [divmod|].
    apply Z.eqb_neq in Hne. rewrite Hne. cbn [andb]. rewrite dec4_enc by done. cbn [mbind option_bind].
    rewrite IH by (tauto || lia). done.
Qed.

Lemma b64_enc_codes b : is_bytes b = true -> Forall (fun z => 0 <= z < 256) (b64_enc b).
Proof.
  remember (length b) as n eqn:Hn. assert (length b <= n)%nat as Hle by lia. clear Hn. revert b Hle.
  induction n as [|n IH]; intros [|x [|y [|z r]]] Hle Hb; cbn [length] in Hle; try lia; cbn [b64_enc];
    repeat constructor; cbn in Hb; rewrite ?andb_true_iff in Hb; unfold is_u8 in Hb;
    try (apply enc_digit_ne; divmod); try lia.
  apply IH; [lia|tauto].
Qed.

#[export] Instance RefBase64Laws : Base64Laws.
Proof.
  intros b Hb. unfold b64_decode, b64_encode, RefBase64. rewrite str_bytes_str by by apply b64_enc_codes. by rewrite b64_dec_enc.
Qed.

(** ** UUIDs *)

Definition hex_digit (d : Z) : Z := if d <? 10 then 48 + d else 87 + d.
Definition unhex_digit (c : Z) : option Z :=
  if in_rng 48 57 c then Some (c - 48) else if in_rng 97 102 c then Some (c - 87) else
  if in_rng 65 70 c then Some (c - 55) else None.

Definition hex (b : bytes) : list Z := b ≫= fun x => [hex_digit (x / 16); hex_digit (x mod 16)].
Fixpoint unhex (s : list Z) : option bytes :=
  match s with
  | [] => Some []
  | a :: b :: r => x ← unhex_digit a; y ← unhex_digit b; rest ← unhex r; Some (x * 16 + y :: rest)
  | [_] => None
  end.

(** Groups of 4, 2, 2, 2 and 6 bytes. *)
Definition uuid_text (b : bytes) : list Z :=
  hex (take 4 b) ++ 45 :: hex (take 2 (drop 4 b)) ++ 45 :: hex (take 2 (drop 6 b)) ++
  45 :: hex (take 2 (drop 8 b)) ++ 45 :: hex (drop 10 b).

#[export] Instance RefUuid : UuidText := {|
  uuid_to_string u := bytes_str (uuid_text (be_bytes 16 u));
  uuid_parse s :=
    b ← unhex (List.filter (fun c => negb (c =? 45)) (str_bytes s));
    if bool_decide (length b = 16%nat) then Some (from_be b) else None |}.

#[export] Instance RefHeader : HeaderText :=
  {| header_value_ok s := forallb (fun c => (c =? 9) || in_rng 32 126 c) (str_bytes s) |}.
Lemma unhex_hex_digit d : 0 <= d < 16 -> unhex_digit (hex_digit d) = Some d.
Proof.
  intros Hd. unfold unhex_digit, hex_digit, in_rng.
  destruct (d <? 10) eqn:E; rewrite ?Z.ltb_lt, ?Z.ltb_ge in E;
    repeat match goal with
    | |- context [(?a <=? ?b) && (?c <=? ?d)] => destruct ((a <=? b) && (c <=? d)) eqn:?
    end; try (f_equal; lia); lia.
Qed.

Lemma unhex_hex b : is_bytes b = true -> unhex (hex b) = Some b.
Proof.
  induction b as [|x b IH]; [done|]. cbn [is_bytes forallb]. rewrite andb_true_iff. unfold is_u8.
  intros [Hx Hb]. unfold hex. rewrite bind_cons. cbn [app unhex].
  rewrite !unhex_hex_digit by divmod. cbn. fold (hex b). rewrite IH by done. cbn. do 2 f_equal. divmod.
Qed.

Lemma hex_app a b : hex (a ++ b) = hex a ++ hex b.
Proof. apply bind_app. Qed.

Lemma hex_digit_code d : 0 <= d < 16 -> hex_digit d <> 45 /\ 0 <= hex_digit d < 256.
Proof. intros Hd. unfold hex_digit. case_match; lia. Qed.

Lemma hex_codes b : is_bytes b = true -> Forall (fun c => c <> 45 /\ 0 <= c < 256) (hex b).
Proof.
  induction b as [|x b IH]; [constructor|]. cbn [is_bytes forallb]. rewrite andb_true_iff. unfold is_u8.
  intros [Hx Hb]. unfold hex. rewrite bind_cons.
  repeat (apply Forall_cons; split; [apply hex_digit_code; divmod|]). by apply IH.
Qed.

Lemma filter_hyphens l : Forall (fun c => c <> 45 /\ 0 <= c < 256) l -> List.filter (fun c => negb (c =? 45)) l = l.
Proof.
  induction 1 as [|c l [Hc _] _ IH]; cbn; [done|]. apply Z.eqb_neq in Hc. rewrite Hc. cbn. by rewrite IH.
Qed.

Lemma is_bytes_app a b : is_bytes (a ++ b) = is_bytes a && is_bytes b.
Proof. apply forallb_app. Qed.

Lemma is_bytes_take_drop b n : is_bytes b = true -> is_bytes (take n b) = true /\ is_bytes (drop n b) = true.
Proof. rewrite <- (take_drop n b) at 1. by rewrite is_bytes_app, andb_true_iff. Qed.

(** The hexadecimal digits of all groups, in order. *)
Lemma uuid_text_digits b :
  is_bytes b = true -> List.filter (fun c => negb (c =? 45)) (uuid_text b) = hex b.
Proof.
  intros Hb. unfold uuid_text.
  repeat (rewrite List.filter_app; cbn [List.filter Z.eqb negb Pos.eqb]).
  rewrite !filter_hyphens.
  2-6: apply hex_codes; by repeat first [apply is_bytes_take_drop | done].
  rewrite <- !hex_app. f_equal.
  replace (drop 6 b) with (drop 2 (drop 4 b)) by (by rewrite drop_drop).
  replace (drop 8 b) with (drop 2 (drop 2 (drop 4 b))) by (by rewrite !drop_drop).
  replace (drop 10 b) with (drop 2 (drop 2 (drop 2 (drop 4 b)))) by (by rewrite !drop_drop).
  by rewrite !take_drop.
Qed.

Lemma uuid_text_codes b : is_bytes b = true -> Forall (fun z => 0 <= z < 256) (uuid_text b).
Proof.
  intros Hb. assert (forall l, is_bytes l = true -> Forall (fun z => 0 <= z < 256) (hex l)) as Hhex.
  { intros l Hl. eapply Forall_impl; [by apply hex_codes|]. by intros c [_ Hc]. }
  unfold uuid_text.
  repeat first [apply Forall_app; split | apply Forall_cons; split; [lia|] ].
  all: apply Hhex; by repeat first [apply is_bytes_take_drop | done].
Qed.

Lemma from_be_bound b : is_bytes b = true -> 0 <= from_be b < 256 ^ Z.of_nat (length b).
Proof.
  induction b as [|x b IH]; [cbn; lia|]. cbn [is_bytes forallb]. rewrite andb_true_iff. unfold is_u8.
  intros [Hx Hb]. specialize (IH Hb). unfold from_be. cbn [foldl length]. rewrite from_be_acc.
  rewrite Nat2Z.inj_succ, Z.pow_succ_r by lia. fold (from_be b). nia.
Qed.

Lemma unhex_digit_range c d : unhex_digit c = Some d -> 0 <= d < 16.
Proof. unfold unhex_digit, in_rng. repeat case_match; intros [= <-]; lia. Qed.

Lemma unhex_bytes s b : unhex s = Some b -> is_bytes b = true.
Proof.
  remember (length s) as n eqn:Hn. assert (length s <= n)%nat as Hle by lia. clear Hn. revert s b Hle.
  induction n as [|n IH]; intros [|a [|c r]] b Hle; cbn [length unhex] in *; try lia; try (by intros [= <-]); try done.
  destruct (unhex_digit a) as [x|] eqn:Ex; [|done]. destruct (unhex_digit c) as [y|] eqn:Ey; [|done].
  cbn. destruct (unhex r) as [rest|] eqn:Er; [|done]. cbn. intros [= <-]. cbn [is_bytes forallb].
  apply unhex_digit_range in Ex, Ey. apply andb_true_iff. split; [unfold is_u8; lia|].
  eapply IH; [|exact Er]. lia.
Qed.

#[export] Instance RefUuidLaws : UuidTextLaws.
Proof.
  split; unfold uuid_parse, uuid_to_string, RefUuid.
  - intros u Hu. pose proof (be_bytes_is_bytes 16 u) as Hb.
    rewrite str_bytes_str by by apply uuid_text_codes.
    rewrite uuid_text_digits, unhex_hex by done. cbn [mbind option_bind].
    rewrite bool_decide_true by apply be_bytes_length. f_equal.
    rewrite from_be_be_bytes, Z.mod_small; [done|]. change (256 ^ Z.of_nat 16) with u128_lim. lia.
  - intros s u. destruct (unhex _) as [b|] eqn:Eb; [|done]. cbn [mbind option_bind].
    case_bool_decide as Hlen; [|done]. intros [= <-]. apply unhex_bytes, from_be_bound in Eb.
    rewrite Hlen in Eb. exact Eb.
  - reflexivity.
Qed.

Lemma uuid_text_demo : uuid_to_string 1 = "00000000-0000-0000-0000-000000000001"%string.
Proof. reflexivity. Qed.
Lemma b64_text_demo : b64_encode (str_bytes "pelican") = "cGVsaWNhbg=="%string.
Proof. reflexivity. Qed.
End WireRef.
