(* ===== verification/Http.v ===== *)
(** * Http: the HTTP front end

    The handlers of src/pelicanqd/src/api.rs over the application state, one
    definition per handler, with the JSON bodies they build. *)

From Stdlib Require Import ZArith Lia.
From stdpp Require Import prelude gmap strings.
From S2P Require Import Prelude Bytes OrdMap Sled Message Bincode Keys QueueManager Snapshot.
From S2P Require Import StateMachine RaftStore Daemon Wire.

(** [serde_json::Value]; the fields of an object in the order they are written. *)
Inductive JValue :=
| JNull
| JBool (b : bool)
| JNum (n : Z)
| JStr (s : string)
| JArr (l : list JValue)
| JObj (fields : list (string * JValue)).

(** A response: status code, JSON body, and the leader-address header. *)
Record Response := mkResponse { status : Z; body : JValue; leader_addr : option string }.

Definition json_response (code : Z) (b : JValue) : Response := mkResponse code b None.

(** [StatusCode] constants. *)
Definition OK : Z := 200.
Definition CREATED : Z := 201.
Definition NO_CONTENT : Z := 204.
Definition BAD_REQUEST : Z := 400.
Definition NOT_FOUND : Z := 404.
Definition CONFLICT : Z := 409.
Definition PAYLOAD_TOO_LARGE : Z := 413.
Definition MISDIRECTED_REQUEST : Z := 421.
Definition INTERNAL_SERVER_ERROR : Z := 500.

Definition error_body (msg : string) : JValue := JObj [("error", JStr msg)].

Definition map_error (e : PelicanError) : Response :=
  let b := error_body (PelicanError_display e) in
  match e with
  | QueueNotFound _ => json_response NOT_FOUND b
  | QueueAlreadyExists _ => json_response CONFLICT b
  | InvalidDeliveryTag _ => json_response BAD_REQUEST b
  | StorageLimitExceeded _ _ => json_response PAYLOAD_TOO_LARGE b
  | MessageDeadLettered _ _ => json_response OK b
  | _ => json_response INTERNAL_SERVER_ERROR b
  end.

Definition flock_error_response (msg : string) : Response :=
  json_response INTERNAL_SERVER_ERROR (error_body msg).

(** The requests, after axum's path and JSON extraction. *)
Inductive Request :=
| GetHealth
| GetQueues
| PostQueue (name : string)
| PostPublish (name payload_base64 : string) (headers : gmap string string)
| PostConsume (name : string)
| PostAck (name : string) (delivery_tag : DeliveryTag)
| PostNack (name : string) (delivery_tag : DeliveryTag)
| GetClusterStatus.

Section Http.
Context `{!Sled, !Bincode, !Environment, !BuildProfile, !RaftTypes, !OpenRaft}.
Context `{!Base64, !UuidText, !HeaderText}.

Abbreviation AM := (M AppState Empty_set).

(** [HeaderValue::from_str(..).unwrap()] panics on a text no header can hold. *)
Definition not_leader_response {S} (leader_node : option Node) : M S Empty_set Response :=
  let resp := json_response MISDIRECTED_REQUEST (error_body "not leader") in
  match leader_node with
  | Some node =>
    if bool_decide (client_addr node = ""%string) then ret resp
    else if header_value_ok (client_addr node)
         then ret (mkResponse (status resp) (body resp) (Some (client_addr node)))
         else panic
  | None => ret resp
  end.

(** The arms every clustered handler ends with. *)
Definition other_write_result {S} (r : WriteResult) : M S Empty_set Response :=
  match r with
  | NotLeader leader_node => not_leader_response leader_node
  | WError msg => ret (flock_error_response msg)
  | WOk _ => ret (flock_error_response "unexpected response type")
  end.

Definition health : AM Response := ret (json_response OK (JObj [("status", JStr "ok")])).

Definition declare_response (r : Result PelicanError unit) : Response :=
  match r with Ok _ => json_response CREATED JNull | Err e => map_error e end.

Definition http_declare_queue (name : string) : AM Response :=
  on_engine
    (let* r := locked (declare_queue name) in ret (declare_response r))
    (let* wr := client_write (DeclareQueue name default_policy) in
     match wr with
     | WOk (RDeclareQueue r) => ret (declare_response r)
     | _ => other_write_result wr
     end).

(** The loop over the queue names, under the engine's lock. *)
Definition queue_entries : QM (list (string * nat)) :=
  let* names := list_queues in
  for_fold names [] (fun queues name =>
    let* d := try (depth name) in
    ret (queues ++ [(name, match d with Ok n => n | Err _ => 0%nat end)])).

Definition queue_list_response (r : Result PelicanError (list (string * nat))) : Response :=
  match r with
  | Ok queues =>
    json_response OK (JObj [("queues", JArr (map (fun q =>
      JObj [("name", JStr q.1); ("depth", JNum (Z.of_nat q.2))]) queues))])
  | Err e => map_error e
  end.

Definition http_list_queues : AM Response :=
  on_engine
    (let* r := locked queue_entries in ret (queue_list_response r))
    (let* r := with_qm queue_entries in ret (queue_list_response r)).

Definition publish_response (msg_id : Z) (r : Result PelicanError PublishOutcome) : Response :=
  match r with
  | Ok (Stored _) => json_response CREATED (JObj [("id", JStr (uuid_to_string msg_id))])
  | Ok Deduplicated => json_response OK (JObj [("status", JStr "deduplicated")])
  | Err e => map_error e
  end.

Definition http_publish (name payload_base64 : string) (headers : gmap string string) : AM Response :=
  match b64_decode payload_base64 with
  | Err e => ret (json_response BAD_REQUEST (error_body ("invalid base64: " +:+ e)))
  | Ok payload =>
    let* message := Message_new payload headers in
    let msg_id := Message.id message in
    on_engine
      (let* r := locked (publish name message) in ret (publish_response msg_id r))
      (let* wr := client_write (Publish name message) in
       match wr with
       | WOk (RPublish r) => ret (publish_response msg_id r)
       | _ => other_write_result wr
       end)
  end.

Definition headers_json (h : gmap string string) : JValue :=
  JObj (map (fun kv => (kv.1, JStr kv.2)) (map_to_list h)).

Definition consume_response (r : Result PelicanError (option (DeliveryTag * Message))) : Response :=
  match r with
  | Ok (Some (tag, msg)) =>
    json_response OK (JObj [
      ("delivery_tag", JNum (tag_u64 tag));
      ("id", JStr (uuid_to_string (Message.id msg)));
      ("payload_base64", JStr (b64_encode (Message.payload msg)));
      ("headers", headers_json (headers msg));
      ("timestamp", JNum (timestamp msg))])
  | Ok None => json_response NO_CONTENT JNull
  | Err e => map_error e
  end.

Definition http_consume (name : string) : AM Response :=
  on_engine
    (let* r := locked (consume name) in ret (consume_response r))
    (let* wr := client_write (Consume name) in
     match wr with
     | WOk (RConsume r) => ret (consume_response r)
     | _ => other_write_result wr
     end).

Definition settle_response (r : Result PelicanError unit) : Response :=
  match r with Ok _ => json_response OK JNull | Err e => map_error e end.

Definition http_ack (name : string) (delivery_tag : DeliveryTag) : AM Response :=
  on_engine
    (let* r := locked (ack name delivery_tag) in ret (settle_response r))
    (let* wr := client_write (Ack name delivery_tag) in
     match wr with
     | WOk (RAck r) => ret (settle_response r)
     | _ => other_write_result wr
     end).

Definition http_nack (name : string) (delivery_tag : DeliveryTag) : AM Response :=
  on_engine
    (let* r := locked (nack name delivery_tag) in ret (settle_response r))
    (let* wr := client_write (Nack name delivery_tag) in
     match wr with
     | WOk (RNack r) => ret (settle_response r)
     | _ => other_write_result wr
     end).

Definition member_json (m : NodeConfig) : JValue :=
  JObj [("id", JNum (nc_id m)); ("raft_addr", JStr (nc_raft_addr m)); ("client_addr", JStr (nc_client_addr m))].

Definition http_cluster_status : AM Response :=
  gets (fun st =>
    match cluster st with
    | Some cfg =>
      let base := [("self_id", JNum (self_id cfg)); ("members", JArr (map member_json (members cfg)))] in
      json_response OK (JObj (match engine st with
                              | Flock _ => base ++ [("reads_may_lag", JBool true)]
                              | Solo _ => base
                              end))
    | None => json_response NOT_FOUND JNull
    end).

(** [build_router]: the handler of each route; the cluster route exists only
    with a cluster configuration. *)
Definition build_router (st : AppState) (req : Request) : option (AM Response) :=
  match req with
  | GetHealth => Some health
  | GetQueues => Some http_list_queues
  | PostQueue name => Some (http_declare_queue name)
  | PostPublish name p h => Some (http_publish name p h)
  | PostConsume name => Some (http_consume name)
  | PostAck name t => Some (http_ack name t)
  | PostNack name t => Some (http_nack name t)
  | GetClusterStatus => match cluster st with Some _ => Some http_cluster_status | None => None end
  end.

(** Serving a request; a route that is not registered answers 404. *)
Definition serve (req : Request) : AM Response :=
  fun st =>
    match build_router st req with
    | Some handler => handler st
    | None => (Done (json_response NOT_FOUND JNull), st)
    end.
End Http.
