(* ===== verification/HttpProofs.v ===== *)
(** * HttpProofs: what the HTTP front end does with the engine

    Requests to a Solo daemon: each is answered, is at most one call of the
    engine, and its response says what the call did. *)

From Stdlib Require Import ZArith Lia.
From stdpp Require Import prelude gmap strings.
From S2P Require Import Prelude Bytes OrdMap Sled Message Bincode Keys QueueManager Store Spec Engine.
From S2P Require Import Invariant Refinement Maintenance Retention Holdings System Snapshot.
From S2P Require Import StateMachine RaftStore Daemon Modes Wire Http.

Section HttpProofs.
Context `{!Sled, !SledLaws, !SledReliable, !Bincode, !BincodeLaws,
          !Environment, !EnvironmentLaws, !BuildProfile, !RaftTypes, !OpenRaft}.
Context `{!Base64, !UuidText, !HeaderText}.
Implicit Types w : World.

(** ** The message a publish request becomes *)

Definition new_message (b : bytes) (h : gmap string string) (e : Env) : Message :=
  mkMessage (uuid_v4 (uuid_tick e)) b h (default 0 (as_i64 <$> clock_read (clock_tick e))) 0 0 None None.

(** The environment after [Message::new]. *)
Definition env_after_new (e : Env) : Env := mkEnv (clock_tick e + 1) (uuid_tick e + 1).

Lemma Message_new_solo {E} b h w c :
  @Message_new _ _ E _ b h (solo w c) =
  (Done (new_message b h (env w)), solo (set_env (env_after_new (env w)) w) c).
Proof.
  unfold Message_new, bind, new_v4, now_ms, new_message. cbn.
  destruct (clock_read_law (clock_tick (env w))) as (ms & Hms & _). rewrite Hms. reflexivity.
Qed.

(** ** The engine call behind a request *)

(** The call a request makes and the world it is made in. *)
Definition request_call (req : Request) w : option (Op * World) :=
  match req with
  | PostQueue q => Some (OpDeclare q default_policy, w)
  | PostPublish q p h =>
    match b64_decode p with
    | Ok b => Some (OpPublish q (new_message b h (env w)), set_env (env_after_new (env w)) w)
    | Err _ => None
    end
  | PostConsume q => Some (OpConsume q, w)
  | PostAck q t => Some (OpAck q t, w)
  | PostNack q t => Some (OpNack q t, w)
  | GetHealth | GetQueues | GetClusterStatus => None
  end.

(** A call is admissible and stays within the id space. *)
Definition call_ok (call : option (Op * World)) : Prop :=
  match call with
  | Some (op, w1) => admissible op w1 /\ idgen (run_op op w1).2 <= u64_lim
  | None => True
  end.

Definition call_ok_b (call : option (Op * World)) : bool :=
  match call with
  | Some (op, w1) => admissible_b op w1 && (idgen (run_op op w1).2 <=? u64_lim)
  | None => true
  end.

Lemma call_ok_b_spec call : call_ok_b call = true -> call_ok call.
Proof.
  destruct call as [[op w1]|]; [|done]. cbn. rewrite andb_true_iff, Z.leb_le. intros [? ?]. auto using admissible_b_spec.
Qed.

(** What a call does to the engine, and its ledger entries. *)
Definition call_effect (call : option (Op * World)) w w' : Prop :=
  match call with Some (op, w1) => w' = (run_op op w1).2 | None => unchanged w w' end.
Definition call_ledger (call : option (Op * World)) : list Event :=
  match call with Some (op, w1) => (run_op op w1).1 | None => [] end.

Definition request_ok (req : Request) w : Prop := call_ok (request_call req w).

(** The response that carries a delivery. *)
Definition delivery_json (e : Z * Message) : Response :=
  json_response OK (JObj [("delivery_tag"%string, JNum e.1); ("id"%string, JStr (uuid_to_string (Message.id e.2)));
    ("payload_base64"%string, JStr (b64_encode (Message.payload e.2))); ("headers"%string, headers_json (headers e.2));
    ("timestamp"%string, JNum (timestamp e.2))]).

(** What the response says, in terms of the abstract queue. *)
Definition http_spec (req : Request) w (resp : Response) w' : Prop :=
  match req with
  | GetHealth | GetClusterStatus => w' = w
  | GetQueues => unchanged w w' /\
      resp = json_response OK (JObj [("queues"%string, JArr (map (fun q =>
        JObj [("name"%string, JStr q); ("depth"%string, JNum (Z.of_nat (length (a_ready (abs (store w) q)))))])
        (queue_names (store w))))])
  | PostQueue q =>
    if declared (store w) q then status resp = CONFLICT /\ store w' = store w
    else status resp = CREATED /\ declared (store w') q = true
  | PostPublish q p h =>
    match b64_decode p with
    | Err _ => status resp = BAD_REQUEST /\ w' = w
    | Ok b =>
      let m := new_message b h (env w) in
      if declared (store w) q then
        if over_limit (max_bytes (qm w)) (current_bytes (qm w) + msg_size m)
        then status resp = PAYLOAD_TOO_LARGE /\ store w' = store w
        else resp = json_response CREATED (JObj [("id"%string, JStr (uuid_to_string (Message.id m)))]) /\
          exists i, a_ready (abs (store w') q) = enqueue (i, m) (a_ready (abs (store w) q))
      else status resp = NOT_FOUND /\ store w' = store w
    end
  | PostConsume q =>
    if declared (store w) q then
      match a_ready (abs (store w) q) with
      | e :: l => resp = delivery_json e /\
          a_ready (abs (store w') q) = l /\
          a_inflight (abs (store w') q) = <[e.1 := e.2]> (a_inflight (abs (store w) q))
      | [] => resp = json_response NO_CONTENT JNull /\ abs (store w') q = abs (store w) q
      end
    else status resp = NOT_FOUND /\ store w' = store w
  | PostAck q t =>
    if declared (store w) q then
      match a_inflight (abs (store w) q) !! tag_u64 t with
      | Some m => resp = json_response OK JNull /\ abs (store w') q = a_ack (tag_u64 t) (abs (store w) q)
      | None => status resp = BAD_REQUEST /\ store w' = store w
      end
    else status resp = NOT_FOUND /\ store w' = store w
  | PostNack q t =>
    if declared (store w) q then
      match a_inflight (abs (store w) q) !! tag_u64 t with
      | Some m => resp = json_response OK JNull /\
          exists i, abs (store w') q =
            a_nack (max_delivery_attempts (policy (store w) q)) (tag_u64 t) i m (abs (store w) q)
      | None => status resp = BAD_REQUEST /\ store w' = store w
      end
    else status resp = NOT_FOUND /\ store w' = store w
  end.

(** What serving a request on a Solo daemon guarantees. *)
Definition served (req : Request) w c : Prop :=
  exists resp w', serve req (solo w c) = (Done resp, solo w' c) /\
    call_effect (request_call req w) w w' /\ http_spec req w resp w'.

Lemma try_fail {A} (f : QM A) e w w' : f w = (Fail e, w') -> try f w = (Done (Err e), w').
Proof. unfold try. by intros ->. Qed.
Lemma try_done {A} (f : QM A) a w w' : f w = (Done a, w') -> try f w = (Done (Ok a), w').
Proof. unfold try. by intros ->. Qed.

Lemma set_env_same w : set_env (env w) w = w.
Proof. by destruct w. Qed.

(** A call on a sound engine, made after readings of the clock and the random
    source. *)
Lemma call_step call w w' :
  SysInv w -> (forall op w1, call = Some (op, w1) -> exists e, w1 = set_env e w) -> call_ok call ->
  call_effect call w w' -> StepOk w (call_ledger call) w'.
Proof.
  intros HS He Hok Heff. destruct call as [[op w1]|]; cbn in *.
  - destruct (He op w1 eq_refl) as [e ->]. destruct Hok as [Ha Hn]. subst w'. apply (StepOk_env e).
    apply run_op_step; [by destruct HS|done..].
  - destruct Heff as (HSt & HG & HB & HM). pose proof (sys_gen _ HS).
    apply StepOk_unchanged; rewrite ?HG, ?HB; auto; lia.
Qed.

Lemma request_call_env req w op w1 : request_call req w = Some (op, w1) -> exists e, w1 = set_env e w.
Proof.
  destruct req as [| |q|q p h|q|q t|q t|]; cbn [request_call]; try done;
    try (intros [= _ <-]; exists (env w); by rewrite set_env_same).
  destruct (b64_decode p); [|done]. intros [= _ <-]. eauto.
Qed.

Lemma request_step req w w' :
  SysInv w -> request_ok req w -> call_effect (request_call req w) w w' ->
  StepOk w (call_ledger (request_call req w)) w'.
Proof. intros HS. apply call_step; [done|]. apply request_call_env. Qed.

(** A handler that makes one call and answers with its result. *)
Lemma serve_call {A} req op (call : QM A) (g : Result PelicanError A -> Response) fl e w c :
  serve req (solo w c) = on_engine (let* r := locked call in ret (g r)) fl (solo (set_env e w) c) ->
  request_call req w = Some (op, set_env e w) ->
  (run_op op (set_env e w)).2 = (call (set_env e w)).2 -> returned (call (set_env e w)).1 ->
  (forall r, try call (set_env e w) = (Done r, (call (set_env e w)).2) ->
     http_spec req w (g r) (call (set_env e w)).2) ->
  served req w c.
Proof.
  intros Hserve Hcall Hrun Hret Hspec. destruct (try_run call _ Hret) as [r Hr].
  exists (g r), (call (set_env e w)).2. split_and!; auto.
  - rewrite Hserve. by apply on_solo_call.
  - by rewrite Hcall.
Qed.

(** ** Each request *)

Lemma serve_declare q w c : SysInv w -> request_ok (PostQueue q) w -> served (PostQueue q) w c.
Proof.
  intros HS (Ha & Hn). apply (serve_call _ (OpDeclare q default_policy) (declare_queue q) declare_response
    (let* wr := client_write (DeclareQueue q default_policy) in
     match wr with WOk (RDeclareQueue r) => ret (declare_response r) | _ => other_write_result wr end) (env w));
    rewrite ?set_env_same; auto.
  { by apply declare_returned. }
  intros r Hr. pose proof (declare_sim q default_policy w eq_refl) as (_ & _ & _ & Hp).
  unfold declare_queue, try in *. cbn [http_spec].
  destruct (declare_queue_with_retention q default_policy w) as [o w']. cbn [fst snd] in *.
  destruct (declared (store w) q); destruct Hp as (-> & Hp); injection Hr as <-; cbn; [done|].
  destruct Hp as (Hd & _). by rewrite Hd, bool_decide_true.
Qed.

Lemma serve_consume q w c : SysInv w -> request_ok (PostConsume q) w -> served (PostConsume q) w c.
Proof.
  intros HS (Ha & Hn). apply (serve_call _ (OpConsume q) (consume q) consume_response
    (let* wr := client_write (Consume q) in
     match wr with WOk (RConsume r) => ret (consume_response r) | _ => other_write_result wr end) (env w));
    rewrite ?set_env_same; auto.
  { by apply consume_returned. }
  intros r Hr. cbn [http_spec]. destruct (declared (store w) q) eqn:Hd.
  2: { pose proof (require_queue_rejects q _ _ Hd : rejects (consume q) q w) as Hrej. unfold rejects in Hrej.
       unfold try in Hr. rewrite Hrej in *. by injection Hr as <-. }
  pose proof (consume_sim q w (sys_inv _ HS) Hd (sys_gen _ HS)) as Hsim. unfold wp in Hsim.
  unfold try in Hr. destruct (consume q w) as [o w']. cbn [fst snd] in *.
  destruct Hsim as (_ & _ & _ & -> & HE). injection Hr as <-. pose proof (eff_abs _ _ _ _ HE) as Hab.
  unfold a_consume in Hab |- *.
  destruct (a_ready (abs (store w) q)) as [|e l]; cbn [fst snd] in Hab; rewrite Hab; done.
Qed.

Lemma serve_ack q t w c : SysInv w -> request_ok (PostAck q t) w -> served (PostAck q t) w c.
Proof.
  intros HS (Ha & Hn). apply (serve_call _ (OpAck q t) (ack q t) settle_response
    (let* wr := client_write (Ack q t) in
     match wr with WOk (RAck r) => ret (settle_response r) | _ => other_write_result wr end) (env w));
    rewrite ?set_env_same; auto.
  { cbn. by destruct (ack q t w). }
  { by apply ack_returned. }
  intros r Hr. cbn [http_spec]. destruct (declared (store w) q) eqn:Hd.
  2: { pose proof (require_queue_rejects q _ _ Hd : rejects (ack q t) q w) as Hrej. unfold rejects in Hrej.
       unfold try in Hr. rewrite Hrej in *. by injection Hr as <-. }
  pose proof (ack_sim q t w (sys_inv _ HS) Hd (sys_gen _ HS) Ha) as Hsim. unfold wp in Hsim.
  unfold try in Hr. destruct (ack q t w) as [o w']. cbn [fst snd] in *.
  destruct Hsim as (_ & _ & Hp). destruct (_ !! _).
  - destruct Hp as (-> & HE & _). injection Hr as <-. split; [done|]. apply HE.
  - destruct Hp as (-> & HE & _). by injection Hr as <-.
Qed.

Lemma serve_nack q t w c : SysInv w -> request_ok (PostNack q t) w -> served (PostNack q t) w c.
Proof.
  intros HS (Ha & Hn). apply (serve_call _ (OpNack q t) (nack q t) settle_response
    (let* wr := client_write (Nack q t) in
     match wr with WOk (RNack r) => ret (settle_response r) | _ => other_write_result wr end) (env w));
    rewrite ?set_env_same; auto.
  { by apply nack_returned. }
  intros r Hr. cbn [http_spec]. cbn [run_op snd] in Hn. destruct (declared (store w) q) eqn:Hd.
  2: { pose proof (require_queue_rejects q _ _ Hd : rejects (nack q t) q w) as Hrej. unfold rejects in Hrej.
       unfold try in Hr. rewrite Hrej in *. by injection Hr as <-. }
  destruct Ha as (Ht & Hatt).
  pose proof (nack_sim q t w (sys_inv _ HS) Hd (sys_gen _ HS) Ht Hatt) as Hsim. unfold wp in Hsim.
  unfold try in Hr. destruct (nack q t w) as [o w']. cbn [fst snd] in *.
  destruct Hsim as (_ & _ & _ & Hp). destruct (_ !! _).
  - destruct Hp as (-> & HE). injection Hr as <-. split; [done|]. destruct (HE Hn) as (i & _ & HE').
    exists i. apply HE'.
  - destruct Hp as (-> & HE). by injection Hr as <-.
Qed.

Lemma SysInv_env e w : SysInv w -> SysInv (set_env e w).
Proof. by intros [? ? ? ? ? ?]. Qed.

(** A message built by [Message::new] is neither scheduled nor deduplicated. *)
Lemma new_message_plain b h e q p c now :
  duplicate_at q (new_message b h e) p c now = false /\ future_at (new_message b h e) now = None.
Proof.
  split; [|done]. unfold duplicate_at, recorded_ms. cbn. by destruct (dedup_window_secs p) as [s|]; [destruct (0 <? s)|].
Qed.

Lemma serve_publish q p h w c : SysInv w -> request_ok (PostPublish q p h) w -> served (PostPublish q p h) w c.
Proof.
  intros HS Hok. unfold request_ok in Hok. cbn [request_call] in Hok.
  destruct (b64_decode p) as [b|err] eqn:Hb.
  2: { exists (json_response BAD_REQUEST (error_body ("invalid base64: " +:+ err))), w.
       unfold serve. cbn [build_router]. unfold http_publish. rewrite Hb.
       cbn [http_spec request_call]. by rewrite Hb. }
  destruct Hok as (Ha & Hn). set (m := new_message b h (env w)) in *.
  apply (serve_call _ (OpPublish q m) (publish q m) (publish_response (Message.id m))
    (let* wr := client_write (Publish q m) in
     match wr with WOk (RPublish r) => ret (publish_response (Message.id m) r) | _ => other_write_result wr end)
    (env_after_new (env w))); auto.
  { unfold serve. cbn [build_router]. unfold http_publish. rewrite Hb. unfold bind at 1.
    by rewrite Message_new_solo. }
  { cbn [request_call]. by rewrite Hb. }
  { cbn. by destruct (publish q m _). }
  { apply publish_returned; [by apply SysInv_env|done]. }
  apply (SysInv_env (env_after_new (env w))) in HS. change (store w) with (store (set_env (env_after_new (env w)) w)).
  intros r Hr. cbn [http_spec]. rewrite Hb. fold m.
  change (store w) with (store (set_env (env_after_new (env w)) w)).
  change (max_bytes (qm w)) with (max_bytes (qm (set_env (env_after_new (env w)) w))).
  change (current_bytes (qm w)) with (current_bytes (qm (set_env (env_after_new (env w)) w))).
  set (w1 := set_env (env_after_new (env w)) w) in *. clearbody w1.
  destruct (declared (store w1) q) eqn:Hd.
  2: { pose proof (require_queue_rejects q _ _ Hd : rejects (publish q m) q w1) as Hrej. unfold rejects in Hrej.
       unfold try in Hr. rewrite Hrej in *. by injection Hr as <-. }
  destruct Ha as (Hw & _ & Hroom). destruct (ser_msg_total m Hw) as [v Hv]. assert (stores m v) as Hs by done.
  rewrite (stores_size _ _ Hs) in Hroom |- *.
  pose proof (publish_sim q m v w1 (sys_inv _ HS) Hd Hs (proj1 (sys_policy _ HS _ Hd)) Hroom) as Hsim.
  unfold wp in Hsim. cbn [run_op] in Hn. unfold try in Hr.
  destruct (publish q m w1) as [o w']. cbn [fst snd] in *. destruct Hsim as (_ & _ & Hp).
  destruct o as [[u|]|[]| |]; try done; injection Hr as <-.
  - destruct Hp as (_ & Hov & _ & _ & _ & HE). rewrite Hov. split; [done|].
    destruct (HE Hn) as (i & now & _ & _ & HE'). exists i. rewrite (eff_abs _ _ _ _ HE').
    unfold m. by rewrite (proj2 (new_message_plain b h (env w) q (policy (store w1) q) (store w1) now)).
  - destruct Hp as ((now & _ & Hdup) & _). unfold m in Hdup. by rewrite (proj1 (new_message_plain _ _ _ _ _ _ _)) in Hdup.
  - destruct Hp as ((mx & Hmx & Hlt & _) & _ & Hst & _). unfold over_limit. rewrite Hmx.
    apply Z.ltb_lt in Hlt. rewrite Hlt. done.
Qed.

(** ** Listing *)

Lemma SysInv_same w w' : SysInv w -> unchanged w w' -> SysInv w'.
Proof.
  intros HS (HSt & HG & HB & HM). pose proof (sys_gen _ HS).
  apply (ok_inv w [] w'). apply StepOk_unchanged; rewrite ?HG, ?HB; auto; lia.
Qed.

Lemma depth_ready q w :
  SysInv w -> declared (store w) q = true ->
  exists w', try (depth q) w = (Done (Ok (length (a_ready (abs (store w) q)))), w') /\ unchanged w w'.
Proof.
  intros HS Hd. pose proof (main_entries_u64 _ _ _ (sys_inv _ HS) (sys_gen _ HS) Hd) as Hall.
  assert (wp (depth q) (fun o w' => o = Done (length (a_ready (abs (store w) q))) /\ unchanged w w') w) as Hwp.
  { apply wp_tree_count; [by rewrite Hd|]. intros w' _ Hu. split; [|done]. f_equal.
    unfold abs. cbn [a_ready]. unfold ready. by rewrite (omap_main_length u64_lim) by done. }
  unfold wp in Hwp. unfold try. destruct (depth q w) as [o w']. cbn in Hwp. destruct Hwp as (-> & Hu). eauto.
Qed.

(** The loop over the queue names, for a body that adds an entry per name and
    changes nothing. *)
Lemma listing_run {B} (body : list B -> string -> QM (list B)) (entry : string -> B) w :
  SysInv w ->
  (forall q acc w1, unchanged w w1 -> SysInv w1 -> declared (store w1) q = true ->
     exists w2, body acc q w1 = (Done (acc ++ [entry q]), w2) /\ unchanged w1 w2) ->
  exists w', (let* names := list_queues in for_fold names [] body) w =
    (Done (map entry (queue_names (store w))), w') /\ unchanged w w'.
Proof.
  intros HS Hbody. assert (list_queues w = (Done (queue_names (store w)), w)) as Hl.
  { assert (wp list_queues (fun o w' => o = Done (queue_names (store w)) /\ w' = w) w) as Hwp by by apply wp_list_queues.
    unfold wp in Hwp. destruct (list_queues w) as [o w']. cbn in Hwp. by destruct Hwp as [-> ->]. }
  unfold bind at 1. rewrite Hl.
  assert (Forall (fun q => declared (store w) q = true) (queue_names (store w))) as Hall.
  { apply Forall_forall. intros q. apply (queue_names_declared _ _ _ (sys_inv _ HS)). }
  enough (forall l acc w1, Forall (fun q => declared (store w) q = true) l -> unchanged w w1 ->
    exists w', for_fold l acc body w1 = (Done (acc ++ map entry l), w') /\ unchanged w w') as Hloop
    by by apply (Hloop _ []).
  clear Hl Hall. intros l. induction l as [|q l IH]; intros acc w1 Hall Hu; cbn [for_fold map].
  { exists w1. by rewrite app_nil_r. }
  apply Forall_cons in Hall as [Hq Hall]. pose proof Hu as (HSt & _). rewrite <- HSt in Hq.
  destruct (Hbody q acc w1 Hu (SysInv_same _ _ HS Hu) Hq) as (w2 & Hrun & Hu2).
  destruct (IH (acc ++ [entry q]) w2) as (w' & Hrest & Hu'); [done|by eapply unchanged_trans|].
  exists w'. split; [|done]. unfold bind. rewrite Hrun, Hrest. by rewrite <- app_assoc.
Qed.

Lemma queue_entries_run w :
  SysInv w -> exists w', queue_entries w =
    (Done (map (fun q => (q, length (a_ready (abs (store w) q)))) (queue_names (store w))), w') /\ unchanged w w'.
Proof.
  intros HS. apply listing_run; [done|]. intros q acc w1 (HSt & _) HS1 Hq.
  destruct (depth_ready q w1 HS1 Hq) as (w2 & Hrun & Hu). exists w2. unfold bind. by rewrite Hrun, HSt.
Qed.

(** Every admissible request is served. *)
Lemma serve_served req w c : SysInv w -> request_ok req w -> served req w c.
Proof.
  intros HS Hok. destruct req as [| |q|q p h|q|q t|q t|].
  - exists (json_response OK (JObj [("status"%string, JStr "ok")])), w. done.
  - destruct (queue_entries_run w HS) as (w' & Hrun & Hu).
    exists (queue_list_response (Ok (map (fun q => (q, length (a_ready (abs (store w) q)))) (queue_names (store w))))), w'.
    split_and!; [|exact Hu|split; [done|]; cbn [queue_list_response]; by rewrite map_map].
    unfold serve. cbn [build_router]. unfold http_list_queues.
    apply on_solo_call. by apply try_done.
  - by apply serve_declare.
  - by apply serve_publish.
  - by apply serve_consume.
  - by apply serve_ack.
  - by apply serve_nack.
  - unfold served, serve. cbn [build_router cluster solo]. destruct c as [cfg|].
    + eexists _, w. by split_and!.
    + eexists _, w. by split_and!.
Qed.
End HttpProofs.

(** ** Both modes give the same answers *)

(** A session: requests served one after the other. *)
Fixpoint serve_all `{!Sled, !Bincode, !Environment, !BuildProfile, !RaftTypes, !OpenRaft, !Base64, !UuidText,
    !HeaderText} (reqs : list Request) : M AppState Empty_set (list Response) :=
  match reqs with
  | [] => ret []
  | req :: reqs' => let* resp := serve req in let* resps := serve_all reqs' in ret (resp :: resps)
  end.

Section HttpModes.
Context `{!Sled, !Bincode, !Environment, !BuildProfile, !RaftTypes, !OpenRaft, !RaftLeader}.
Context `{!Base64, !UuidText, !HeaderText}.
Implicit Types w : World.

(** [Message::new] takes the same readings in both modes. *)
Lemma agrees_Message_new {E} b hd : agrees (E := E) (Message_new b hd).
Proof. unfold Message_new. auto with modes. Qed.

Ltac same_call :=
  apply agrees_engine;
  first [ apply follows_read; intros r; apply follows_ret
        | eapply follows_call; [done|]; intros r; apply follows_ret ].

(** Every request but the cluster status is answered alike. *)
Lemma serve_agrees req : req <> GetClusterStatus -> agrees (serve req).
Proof.
  intros Hne. destruct req as [| |q|q p hd|q|q t|q t|]; try done.
  - apply agrees_ret.
  - change (agrees http_list_queues). same_call.
  - change (agrees (http_declare_queue q)). same_call.
  - change (agrees (http_publish q p hd)). unfold http_publish. destruct (b64_decode p); [|apply agrees_ret].
    apply agrees_bind; [apply agrees_Message_new|]. intros m. same_call.
  - change (agrees (http_consume q)). same_call.
  - change (agrees (http_ack q t)). same_call.
  - change (agrees (http_nack q t)). same_call.
Qed.

Lemma serve_all_agrees reqs : GetClusterStatus ∉ reqs -> agrees (serve_all reqs).
Proof.
  induction reqs as [|req reqs IH]; intros Hne; cbn [serve_all]; [apply agrees_ret|].
  apply not_elem_of_cons in Hne as [Hr Hrs].
  apply agrees_bind; [by apply serve_agrees|]. intros resp. apply agrees_bind; auto with modes.
Qed.
End HttpModes.
