(* ===== verification/DaemonDemo.v ===== *)
(** * DaemonDemo: concrete parameters for the daemon

    A Raft instance that applies an operation at once when it leads and refers to
    another node when it does not, and daemons on which the theorems about the
    front ends are exercised. *)

From Stdlib Require Import ZArith Lia.
From stdpp Require Import prelude gmap strings.
From S2P Require Import Prelude Bytes OrdMap Sled Message Bincode Keys QueueManager Store Spec Engine.
From S2P Require Import Invariant Retention Fsck Holdings System SystemDemo Snapshot.
From S2P Require Import StateMachine RaftStore RaftDemo Daemon Modes Wire Http HttpProofs.

Module DaemonDemo.
Export RaftDemo WireRef.

Definition other_node : Node := mkNode "10.0.0.2:7071" "10.0.0.2:7070".

(** Leading ([true]) or following [other_node]. *)
#[export] Instance DemoOpenRaft : OpenRaft := {|
  raft_t := bool;
  raft_error := option Node + string;
  raft_client_write op r s :=
    if r then
      match apply_operation op (state_machine s) with
      | (Done resp, w) => (Ok resp, (r, set_state_machine w s))
      | (_, w) => (Err (inr "the state machine panicked"%string), (r, set_state_machine w s))
      end
    else (Err (inl (Some other_node)), (r, s));
  forward_to_leader e := match e with inl n => Some n | inr _ => None end;
  raft_error_display e := match e with inl _ => "forward to leader"%string | inr msg => msg end;
  metrics_id _ := 1;
  metrics_leader r := Some (if r then 1 else 2) |}.

#[export] Instance DemoLeader : RaftLeader.
Proof.
  refine {| idle_leader r := r = true |}.
  intros r s op resp w -> Ha. exists true, (set_state_machine w s). cbn. by rewrite Ha.
Defined.

(** A leader whose engine is in state [w]. *)
Definition leading (w : World) : FlockHandle := mkFlock (true : raft_t) (store_with w).

Lemma leading_mirrors w : mirrors (leading w) w.
Proof. done. Qed.

Definition app_exec {A} (m : M AppState Empty_set A) (st : AppState) : AppState := (m st).2.

Lemma run_outcome {S E A} (m : M S E A) s o : (m s).1 = o -> m s = (o, (m s).2).
Proof. intros <-. apply surjective_pairing. Qed.

Lemma app_run {A} (m : M AppState Empty_set A) st o : (m st).1 = o -> m st = (o, app_exec m st).
Proof. apply run_outcome. Qed.
(** An engine with one empty queue. *)
Definition w_served : World := exec (declare_queue "orders") w_empty.

Lemma w_served_sys : SysInv w_served.
Proof.
  change w_served with ((run_op (OpDeclare "orders" default_policy) w_empty).2).
  apply SysInv_step; [exact w_empty_sys|split_and!; reflexivity|]. vm_compute. discriminate.
Qed.
End DaemonDemo.
