(* ===== verification/HttpTheorems.v ===== *)
(** * HttpTheorems: what the HTTP front end guarantees

    Each property is followed, at the end of the file, by its witness on a
    daemon of [DaemonDemo]. *)

From Stdlib Require Import ZArith Lia.
From stdpp Require Import prelude gmap strings.
From S2P Require Import Prelude Bytes OrdMap Sled Message Bincode Keys QueueManager Store Spec Engine.
From S2P Require Import Invariant Refinement Maintenance Retention Fsck Holdings System SystemDemo Snapshot.
From S2P Require Import StateMachine RaftStore RaftDemo Daemon Modes Wire Http HttpProofs DaemonDemo.

Section Claims.
Context `{!Sled, !SledLaws, !SledReliable, !Bincode, !BincodeLaws,
          !Environment, !EnvironmentLaws, !BuildProfile, !RaftTypes, !OpenRaft}.
Context `{!Base64, !UuidText, !HeaderText}.

(** C32: A Solo daemon answers every admissible HTTP request without a panic; what
    it does to the engine is the one call the request stands for ([request_call],
    made with a message of a fresh id and the time of its arrival when it
    publishes), or nothing; so the system invariant is kept; and the status and body
    say what happened to the abstract queue: 201, 404, 409, 413 and 400 exactly in
    their cases, a delivered message with its tag and payload, 204 when nothing is
    ready, and the list of queues with the number of their ready messages.  The
    bodies are those the code sends; reference/http-api.md documents others (a bare
    array of queues with [scheduled_depth], [{id, deduplicated}] for a publish,
    [null] for an empty queue, [ok] for health). *)
Theorem http_request_served req w c :
  SysInv w -> request_ok req w ->
  exists resp w', serve req (solo w c) = (Done resp, solo w' c) /\
    call_effect (request_call req w) w w' /\ SysInv w' /\ http_spec req w resp w'.
Proof.
  intros HS Hok. destruct (serve_served req w c HS Hok) as (resp & w' & Hrun & Hr & Hspec).
  exists resp, w'. split_and!; auto. by apply (request_step req w w').
Qed.

(** What is published over HTTP is what is consumed over HTTP: a payload
    posted in base64 to a declared queue with nothing ready and room for it is
    answered with an id, and the next consume returns that id, the same base64
    payload and the same headers. *)
Theorem http_publish_consume q b hd w c :
  Base64Laws -> SysInv w -> declared (store w) q = true -> a_ready (abs (store w) q) = [] -> is_bytes b = true ->
  request_ok (PostPublish q (b64_encode b) hd) w ->
  over_limit (max_bytes (qm w)) (current_bytes (qm w) + msg_size (new_message b hd (env w))) = false ->
  exists tag ts w', serve_all [PostPublish q (b64_encode b) hd; PostConsume q] (solo w c) =
    (Done [json_response CREATED (JObj [("id"%string, JStr (uuid_to_string (uuid_v4 (uuid_tick (env w)))))]);
           json_response OK (JObj [("delivery_tag"%string, JNum tag);
             ("id"%string, JStr (uuid_to_string (uuid_v4 (uuid_tick (env w)))));
             ("payload_base64"%string, JStr (b64_encode b)); ("headers"%string, headers_json hd);
             ("timestamp"%string, JNum ts)])], solo w' c).
Proof.
  intros Hb64 HS Hd Hr Hb Hok Hov.
  destruct (serve_served _ w c HS Hok) as (resp & w1 & Hrun & Hrr & Hspec).
  pose proof (ok_inv _ _ _ (request_step _ _ _ HS Hok Hrr)) as HS1.
  cbn [http_spec] in Hspec. rewrite (b64_decode_encode b Hb), Hd, Hov, Hr in Hspec.
  destruct Hspec as (-> & i & Hi). unfold enqueue in Hi. cbn [stable_insert] in Hi.
  assert (request_ok (PostConsume q) w1) as Hok1.
  { split; [done|]. cbn [run_op snd]. destruct (declared (store w1) q) eqn:Hd1.
    - pose proof (consume_sim q w1 (sys_inv _ HS1) Hd1 (sys_gen _ HS1)) as (-> & _). apply HS1.
    - pose proof (require_queue_rejects q _ _ Hd1 : rejects (consume q) q w1) as Hj. unfold rejects in Hj.
      rewrite Hj. apply HS1. }
  destruct (serve_served _ w1 c HS1 Hok1) as (resp2 & w2 & Hrun2 & _ & Hspec2).
  cbn [http_spec] in Hspec2. rewrite Hi in Hspec2. destruct (declared (store w1) q) eqn:Hd1.
  2: { exfalso. assert (look (store w1) q = []) as Hnil.
       { pose proof (sys_fresh _ HS1 q (inv_safe _ _ _ (sys_inv _ HS) Hd) Hd1) as Hf. apply (Hf Main). }
       unfold abs in Hi. cbn [a_ready] in Hi. unfold ready in Hi. by rewrite Hnil in Hi. }
  destruct Hspec2 as (-> & _ & _).
  eexists i, _, w2. cbn [serve_all]. unfold bind. rewrite Hrun, Hrun2. reflexivity.
Qed.

(** The lock of the engine is poisoned. *)
Definition lock_poisoned (st : AppState) : Prop :=
  match engine st with Solo mx => poisoned mx = true | Flock _ => False end.

(** Requests that reach the engine. *)
Definition engine_request (req : Request) : bool :=
  match req with
  | GetHealth | GetClusterStatus => false
  | PostPublish _ p _ => match b64_decode p with Ok _ => true | Err _ => false end
  | _ => true
  end.

Lemma poisoned_serve req st :
  lock_poisoned st -> engine_request req = true ->
  exists st', serve req st = (Panic, st') /\ lock_poisoned st'.
Proof.
  destruct st as [[[w p]|h] c]; [|done]. unfold lock_poisoned. cbn [engine poisoned]. intros -> He.
  destruct req as [| |q|q p hd|q|q t|q t|]; try done; try (eexists; split; [reflexivity|done]).
  cbn in He. unfold serve. cbn [build_router]. unfold http_publish.
  destruct (b64_decode p) as [b|]; [|done]. unfold Message_new, bind, new_v4, now_ms. cbn.
  destruct (clock_read_law (clock_tick (env w))) as (ms & Hms & _). rewrite Hms.
  eexists. split; [reflexivity|done].
Qed.

Lemma poisoned_forever reqs st :
  lock_poisoned st -> lock_poisoned (fold_left (fun st r => (serve r st).2) reqs st).
Proof.
  revert st. induction reqs as [|req reqs IH]; intros st Hp; [done|]. apply IH.
  destruct (engine_request req) eqn:He; [destruct (poisoned_serve req st Hp He) as (st' & -> & ?); done|].
  destruct req as [| |q|q p hd|q|q t|q t|]; try done.
  - unfold serve. cbn [build_router]. unfold http_publish. cbn in He. by destruct (b64_decode p).
  - unfold serve. cbn [build_router]. by destruct (cluster st).
Qed.
End Claims.

Import DaemonDemo.

(** Five requests with a queue named after the in-flight tree of another. *)
Definition aliasing_session : list Request :=
  [PostQueue "a"; PostQueue "inflight:a"; PostPublish "a" "cGVsaWNhbg==" ∅; PostConsume "a";
   PostConsume "inflight:a"].

Definition app_empty : AppState := solo w_empty None.

(** C35: Queue names are not checked: a client that declares a queue "inflight:a"
    beside a queue "a" and consumes from it while a message of "a" is in flight
    makes the engine panic under its lock, and every later request that needs the
    engine, on any queue, panics too. *)
Theorem aliased_name_disables_daemon :
  exists st, serve_all aliasing_session app_empty = (Panic, st) /\
    forall reqs req, engine_request req = true ->
      lock_poisoned (fold_left (fun st r => (serve r st).2) reqs st) /\
      (serve req (fold_left (fun st r => (serve r st).2) reqs st)).1 = Panic.
Proof.
  exists (app_exec (serve_all aliasing_session) app_empty).
  assert (lock_poisoned (app_exec (serve_all aliasing_session) app_empty)) as Hp by (vm_compute; reflexivity).
  split.
  - refine (app_run (serve_all aliasing_session) app_empty Panic _). vm_compute. reflexivity.
  - intros reqs req He. pose proof (poisoned_forever reqs _ Hp) as Hp'. split; [done|].
    by destruct (poisoned_serve req _ Hp' He) as (st' & -> & _).
Qed.

(** ** Witnesses *)

Lemma w_served_ok : request_ok (PostPublish "orders" (b64_encode (str_bytes "pelican")) ∅) w_served.
Proof.
  unfold request_ok. change (b64_decode (b64_encode (str_bytes "pelican"))) with (@Ok string bytes (str_bytes "pelican")).
  split; [apply admissible_b_spec|]; vm_compute; [reflexivity|discriminate].
Qed.

Lemma http_request_served_witness :
  exists resp w', serve (PostConsume "orders") (solo w_served None) = (Done resp, solo w' None) /\
    call_effect (request_call (PostConsume "orders") w_served) w_served w' /\ SysInv w' /\ http_spec (PostConsume "orders") w_served resp w'.
Proof.
  apply (http_request_served (PostConsume "orders") w_served None w_served_sys).
  split; [exact I|]. vm_compute. discriminate.
Defined.

Lemma http_publish_consume_witness :
  exists tag ts w', serve_all [PostPublish "orders" (b64_encode (str_bytes "pelican")) ∅; PostConsume "orders"]
      (solo w_served None) =
    (Done [json_response CREATED (JObj [("id"%string, JStr (uuid_to_string (uuid_v4 (uuid_tick (env w_served)))))]);
           json_response OK (JObj [("delivery_tag"%string, JNum tag); ("id"%string, JStr (uuid_to_string (uuid_v4 (uuid_tick (env w_served)))));
             ("payload_base64"%string, JStr (b64_encode (str_bytes "pelican"))); ("headers"%string, headers_json ∅);
             ("timestamp"%string, JNum ts)])], solo w' None).
Proof.
  apply (http_publish_consume "orders" (str_bytes "pelican") ∅ w_served None).
  - apply _.
  - exact w_served_sys.
  - vm_compute. reflexivity.
  - vm_compute. reflexivity.
  - reflexivity.
  - exact w_served_ok.
  - vm_compute. reflexivity.
Defined.

Definition demo_session : list Request :=
  [PostQueue "orders"; PostQueue "orders"; PostPublish "orders" "cGVsaWNhbg==" ∅; PostPublish "orders" "%" ∅;
   PostConsume "orders"; PostNack "orders" (mkTag 0); PostConsume "orders"; PostAck "orders" (mkTag 1); GetQueues].

Definition demo_responses : list Response :=
  match (serve_all demo_session app_empty).1 with Done rs => rs | _ => [] end.

(** The statuses of the session. *)
Lemma demo_session_statuses :
  map status demo_responses = [201; 409; 201; 400; 200; 200; 200; 200; 200].
Proof. vm_compute. reflexivity. Qed.
