(* ===== verification/Grpc.v ===== *)
(** * Grpc: the gRPC front end

    The messages of proto/pelicanq/v1, and the unary handlers of
    src/pelicanqd/src/grpc/queue_service.rs and admin_service.rs. *)

From Stdlib Require Import ZArith Lia.
From stdpp Require Import prelude gmap strings.
From S2P Require Import Prelude Bytes OrdMap Sled Message Bincode Keys QueueManager Snapshot.
From S2P Require Import StateMachine RaftStore Daemon Wire.

(** ** Protocol messages *)

Module Proto.
Record Message := mkMessage {
  id : string;
  payload : bytes;
  headers : gmap string string;
  timestamp : Z;
  priority : Z;
  deliver_at : option Z;
  dedup_key : option string;
  delivery_attempts : Z;
}.

Record ConsumedMessage := mkConsumed { delivery_tag : Z; message : option Message }.

Record DeclareQueueRequest := mkDeclare {
  name : string;
  max_age_secs : option Z;
  max_messages : option Z;
  max_delivery_attempts : option Z;
  dead_letter_queue : option string;
  dedup_window_secs : option Z;
}.

Record QueueInfo := mkInfo { info_name : string; depth : Z; scheduled_depth : Z }.
Record PublishResponse := mkPublished { published_id : string; deduplicated : bool }.

Record ClusterMember := mkMember { member_id : Z; member_raft_addr : string; member_client_addr : string }.
Record ClusterStatusResponse := mkStatusResponse {
  status_self_id : Z;
  is_leader : bool;
  current_leader_id : option Z;
  status_members : list ClusterMember;
}.
End Proto.

(** [tonic::Code], the codes in use, and [tonic::Status]. *)
Inductive Code := NotFound | AlreadyExists | ResourceExhausted | InvalidArgument | FailedPrecondition
  | Internal | Unavailable.
Record Status := mkStatus { code : Code; status_message : string }.

Definition pelican_error_to_status (e : PelicanError) : Status :=
  let text := PelicanError_display e in
  match e with
  | QueueNotFound _ => mkStatus NotFound text
  | QueueAlreadyExists _ => mkStatus AlreadyExists text
  | StorageLimitExceeded _ _ => mkStatus ResourceExhausted text
  | InvalidDeliveryTag _ => mkStatus InvalidArgument text
  | MessageDeadLettered _ _ => mkStatus FailedPrecondition text
  | _ => mkStatus Internal text
  end.

Definition write_result_to_status (result : WriteResult) : Result Status unit :=
  match result with
  | WOk _ => Ok tt
  | NotLeader leader_node =>
    let msg := match leader_node with
               | Some node => ("not leader, leader at " +:+ client_addr node)%string
               | None => "not leader"%string
               end in
    Err (mkStatus Unavailable msg)
  | WError msg => Err (mkStatus Internal msg)
  end.

(** The last arm of every clustered handler. *)
Definition other_result {S A} (text : string) (result : WriteResult) : M S Status A :=
  of_result (write_result_to_status result) ;;; fail (mkStatus Internal text).

(** [.map_err(pelican_error_to_status)?]. *)
Definition status_result {S A} (r : Result PelicanError A) : M S Status A :=
  match r with Ok a => ret a | Err e => fail (pelican_error_to_status e) end.

Definition declare_request_to_policy (req : Proto.DeclareQueueRequest) : RetentionPolicy :=
  mkPolicy (Proto.max_age_secs req) (Proto.max_messages req) (Proto.max_delivery_attempts req)
    (Proto.dedup_window_secs req).

Section Conversions.
Context `{!UuidText}.

Definition core_message_to_proto (msg : Message) : Proto.Message :=
  Proto.mkMessage (uuid_to_string (Message.id msg)) (Message.payload msg) (headers msg) (timestamp msg)
    (priority msg) (deliver_at msg) (dedup_key msg) (delivery_attempts msg).

Definition proto_message_to_core `{!Environment} {S E} `{!HasEnv S} (msg : Proto.Message) : M S E Message :=
  let* uuid := match uuid_parse (Proto.id msg) with Some u => ret u | None => new_v4 end in
  ret (mkMessage uuid (Proto.payload msg) (Proto.headers msg) (Proto.timestamp msg)
    (Proto.delivery_attempts msg) (as_u8 (Proto.priority msg)) (Proto.deliver_at msg) (Proto.dedup_key msg)).

Definition outcome_to_proto (o : PublishOutcome) : Proto.PublishResponse :=
  match o with
  | Stored id => Proto.mkPublished (uuid_to_string id) false
  | Deduplicated => Proto.mkPublished "" true
  end.

Definition consumed_to_proto (d : DeliveryTag * Message) : Proto.ConsumedMessage :=
  Proto.mkConsumed (tag_u64 d.1) (Some (core_message_to_proto d.2)).
End Conversions.

Section Grpc.
Context `{!Sled, !Bincode, !Environment, !BuildProfile, !RaftTypes, !OpenRaft, !UuidText}.

Abbreviation GM := (M AppState Status).

(** ** QueueService *)

(** [created: true], or [false] for a queue that exists already. *)
Definition declare_result {S} (r : Result PelicanError unit) : M S Status bool :=
  match r with
  | Ok _ => ret true
  | Err (QueueAlreadyExists _) => ret false
  | Err e => fail (pelican_error_to_status e)
  end.

Definition grpc_declare_queue (req : Proto.DeclareQueueRequest) : GM bool :=
  let policy := declare_request_to_policy req in
  on_engine
    (let* r := locked (declare_queue_with_retention (Proto.name req) policy) in declare_result r)
    (let* wr := client_write (DeclareQueue (Proto.name req) policy) in
     match wr with
     | WOk (RDeclareQueue r) => declare_result r
     | _ => other_result "unexpected response type" wr
     end).

(** The loop over the queue names. *)
Definition queue_infos : QM (list Proto.QueueInfo) :=
  let* names := list_queues in
  for_fold names [] (fun queues name =>
    let* d := try (depth name) in
    let* s := try (scheduled_depth name) in
    let count r := match r with Ok n => Z.of_nat n | Err _ => 0 end in
    ret (queues ++ [Proto.mkInfo name (count d) (count s)])).

Definition grpc_list_queues : GM (list Proto.QueueInfo) :=
  on_engine
    (let* r := locked queue_infos in status_result r)
    (let* r := with_qm queue_infos in status_result r).

Definition grpc_publish (queue : string) (message : option Proto.Message) : GM Proto.PublishResponse :=
  match message with
  | None => fail (mkStatus InvalidArgument "message is required")
  | Some m =>
    let* msg := proto_message_to_core m in
    on_engine
      (let* r := locked (publish queue msg) in let* o := status_result r in ret (outcome_to_proto o))
      (let* wr := client_write (Publish queue msg) in
       match wr with
       | WOk (RPublish r) => let* o := status_result r in ret (outcome_to_proto o)
       | _ => other_result "unexpected response type" wr
       end)
  end.

(** [.iter().map(proto_message_to_core).collect()]. *)
Fixpoint messages_to_core {S E} `{!HasEnv S} (ms : list Proto.Message) : M S E (list Message) :=
  match ms with
  | [] => ret []
  | m :: rest => let* msg := proto_message_to_core m in let* msgs := messages_to_core rest in ret (msg :: msgs)
  end.

(** The Solo loop, under the lock; the first error ends it. *)
Fixpoint solo_publish_batch (queue : string) (messages : list Message) (results : list Proto.PublishResponse) :
    QM (list Proto.PublishResponse) :=
  match messages with
  | [] => ret results
  | msg :: rest =>
    let* outcome := publish queue msg in
    solo_publish_batch queue rest (results ++ [outcome_to_proto outcome])
  end.

Definition grpc_publish_batch (queue : string) (ms : list Proto.Message) : GM (list Proto.PublishResponse) :=
  let* messages := messages_to_core ms in
  on_engine
    (let* r := locked (solo_publish_batch queue messages []) in status_result r)
    (let* wr := client_write (PublishBatch queue messages) in
     match wr with
     | WOk (RPublishBatch r) => let* outcomes := status_result r in ret (map outcome_to_proto outcomes)
     | _ => other_result "unexpected response type" wr
     end).

Definition grpc_consume (queue : string) : GM (option Proto.ConsumedMessage) :=
  on_engine
    (let* r := locked (consume queue) in let* d := status_result r in ret (consumed_to_proto <$> d))
    (let* wr := client_write (Consume queue) in
     match wr with
     | WOk (RConsume r) => let* d := status_result r in ret (consumed_to_proto <$> d)
     | _ => other_result "unexpected response type" wr
     end).

(** The Solo loop of a batch consume. *)
Fixpoint solo_consume_batch (queue : string) (max : nat) (messages : list Proto.ConsumedMessage) :
    QM (list Proto.ConsumedMessage) :=
  match max with
  | O => ret messages
  | S max' =>
    let* d := consume queue in
    match d with
    | Some delivered => solo_consume_batch queue max' (messages ++ [consumed_to_proto delivered])
    | None => ret messages
    end
  end.

Definition grpc_consume_batch (queue : string) (max_u32 : Z) : GM (list Proto.ConsumedMessage) :=
  let max := Z.to_nat max_u32 in
  on_engine
    (let* r := locked (solo_consume_batch queue max []) in status_result r)
    (let* wr := client_write (ConsumeBatch queue max) in
     match wr with
     | WOk (RConsumeBatch r) => let* items := status_result r in ret (map consumed_to_proto items)
     | _ => other_result "unexpected response type" wr
     end).

Definition grpc_ack (queue : string) (delivery_tag : Z) : GM unit :=
  on_engine
    (let* r := locked (ack queue (mkTag delivery_tag)) in status_result r)
    (let* wr := client_write (Ack queue (mkTag delivery_tag)) in
     match wr with
     | WOk (RAck r) => status_result r
     | _ => other_result "unexpected response type" wr
     end).

Definition grpc_nack (queue : string) (delivery_tag : Z) : GM unit :=
  on_engine
    (let* r := locked (nack queue (mkTag delivery_tag)) in status_result r)
    (let* wr := client_write (Nack queue (mkTag delivery_tag)) in
     match wr with
     | WOk (RNack r) => status_result r
     | _ => other_result "unexpected response type" wr
     end).

(** ** AdminService *)

Definition grpc_health : GM string := ret "ok"%string.

Definition member_to_proto (m : NodeConfig) : Proto.ClusterMember :=
  Proto.mkMember (nc_id m) (nc_raft_addr m) (nc_client_addr m).

Definition grpc_cluster_status : GM Proto.ClusterStatusResponse :=
  gets (fun st =>
    match engine st with
    | Flock handle =>
      let id := metrics_id (raft handle) in
      let leader := metrics_leader (raft handle) in
      Proto.mkStatusResponse id (bool_decide (leader = Some id)) leader
        (match cluster st with Some c => map member_to_proto (members c) | None => [] end)
    | Solo _ => Proto.mkStatusResponse 0 true (Some 0) []
    end).

(** ** The services as one dispatch *)

Inductive Rpc :=
| DeclareQueueRpc (req : Proto.DeclareQueueRequest)
| ListQueuesRpc
| PublishRpc (queue : string) (message : option Proto.Message)
| PublishBatchRpc (queue : string) (messages : list Proto.Message)
| ConsumeRpc (queue : string)
| ConsumeBatchRpc (queue : string) (max : Z)
| AckRpc (queue : string) (delivery_tag : Z)
| NackRpc (queue : string) (delivery_tag : Z)
| HealthRpc
| ClusterStatusRpc.

Inductive RpcReply :=
| DeclareQueueReply (created : bool)
| ListQueuesReply (queues : list Proto.QueueInfo)
| PublishReply (r : Proto.PublishResponse)
| PublishBatchReply (results : list Proto.PublishResponse)
| ConsumeReply (message : option Proto.ConsumedMessage)
| ConsumeBatchReply (messages : list Proto.ConsumedMessage)
| AckReply
| NackReply
| HealthReply (status : string)
| ClusterStatusReply (r : Proto.ClusterStatusResponse).

Definition rpc (req : Rpc) : GM RpcReply :=
  match req with
  | DeclareQueueRpc r => let* created := grpc_declare_queue r in ret (DeclareQueueReply created)
  | ListQueuesRpc => let* queues := grpc_list_queues in ret (ListQueuesReply queues)
  | PublishRpc q m => let* r := grpc_publish q m in ret (PublishReply r)
  | PublishBatchRpc q ms => let* rs := grpc_publish_batch q ms in ret (PublishBatchReply rs)
  | ConsumeRpc q => let* m := grpc_consume q in ret (ConsumeReply m)
  | ConsumeBatchRpc q n => let* ms := grpc_consume_batch q n in ret (ConsumeBatchReply ms)
  | AckRpc q t => grpc_ack q t ;;; ret AckReply
  | NackRpc q t => grpc_nack q t ;;; ret NackReply
  | HealthRpc => let* s := grpc_health in ret (HealthReply s)
  | ClusterStatusRpc => let* r := grpc_cluster_status in ret (ClusterStatusReply r)
  end.
End Grpc.
