(* ===== verification/GrpcProofs.v ===== *)
(** * GrpcProofs: the gRPC front end in both modes

    The Solo loops of the batch calls compute what the replicated batch
    operations compute, so that every call is answered alike in both modes; and
    the conversion of messages to the protocol and back. *)

From Stdlib Require Import ZArith Lia.
From stdpp Require Import prelude gmap strings.
From S2P Require Import Prelude Bytes OrdMap Sled Message Bincode Keys QueueManager Snapshot.
From S2P Require Import StateMachine RaftStore Daemon Modes Wire Grpc.

(** A session: calls answered one after the other, errors included. *)
Fixpoint rpc_all `{!Sled, !Bincode, !Environment, !BuildProfile, !RaftTypes, !OpenRaft, !UuidText}
    (reqs : list Rpc) : M AppState Empty_set (list (Result Status RpcReply)) :=
  match reqs with
  | [] => ret []
  | req :: reqs' => let* r := attempt (rpc req) in let* rs := rpc_all reqs' in ret (r :: rs)
  end.

Section Batches.
Context `{!Sled, !Bincode, !Environment, !BuildProfile, !RaftTypes, !OpenRaft, !UuidText}.
Implicit Types w : World.

(** The results of a batch as the Solo handler reports them. *)
Definition batch_result {A B} (f : A -> B) (r : Result PelicanError (list A)) : Result PelicanError (list B) :=
  match r with Ok l => Ok (map f l) | Err e => Err e end.

Lemma publish_batch_modes q ms acc r w w' :
  try (solo_publish_batch q ms (map outcome_to_proto acc)) w = (Done r, w') ->
  exists r', publish_batch q ms acc w = (Done r', w') /\ r = batch_result outcome_to_proto r'.
Proof.
  revert acc w. induction ms as [|m ms IH]; intros acc w; cbn [solo_publish_batch publish_batch].
  { intros [= <- <-]. by exists (Ok acc). }
  unfold try, bind. destruct (publish q m w) as [[o|e| |] w1]; try done.
  - intros Hrun. apply (IH (acc ++ [o]) w1). unfold try. by rewrite map_app.
  - intros [= <- <-]. by exists (Err e).
Qed.

Lemma consume_batch_modes q n acc r w w' :
  try (solo_consume_batch q n (map consumed_to_proto acc)) w = (Done r, w') ->
  exists r', consume_batch q n acc w = (Done r', w') /\ r = batch_result consumed_to_proto r'.
Proof.
  revert acc w. induction n as [|n IH]; intros acc w; cbn [solo_consume_batch consume_batch].
  { intros [= <- <-]. by exists (Ok acc). }
  unfold try, bind. destruct (consume q w) as [[[d|]|e| |] w1]; try done.
  - intros Hrun. apply (IH (acc ++ [d]) w1). unfold try. by rewrite map_app.
  - intros [= <- <-]. by exists (Ok acc).
  - intros [= <- <-]. by exists (Err e).
Qed.
End Batches.

Section GrpcModes.
Context `{!Sled, !Bincode, !Environment, !BuildProfile, !RaftTypes, !OpenRaft, !RaftLeader, !UuidText}.
Implicit Types w : World.

Lemma agrees_proto_to_core {E} m : agrees (E := E) (proto_message_to_core m).
Proof. unfold proto_message_to_core. apply agrees_bind; [destruct (uuid_parse _)|]; auto with modes. Qed.

Lemma agrees_messages_to_core {E} ms : agrees (E := E) (messages_to_core ms).
Proof.
  induction ms as [|m ms IH]; cbn [messages_to_core]; [apply agrees_ret|].
  apply agrees_bind; [apply agrees_proto_to_core|]. auto with modes.
Qed.

(** The same pure continuation of a result on both sides. *)
Lemma follows_status {A B} (r : Result PelicanError A) (f : A -> B) :
  follows (let* a := status_result r in ret (f a)) (let* a := status_result r in ret (f a)).
Proof. apply follows_bind; [destruct r; [apply follows_ret|apply follows_fail]|]. auto with modes. Qed.

Lemma follows_status_result {A} (r : Result PelicanError A) : follows (status_result r) (status_result r).
Proof. destruct r; [apply follows_ret|apply follows_fail]. Qed.

Lemma grpc_declare_agrees req : agrees (grpc_declare_queue req).
Proof.
  apply agrees_engine. eapply (follows_call _ _ RDeclareQueue).
  - intros w. cbn [apply_operation]. case_bool_decide as Hp; [|done]. by rewrite Hp.
  - intros [[]|[]]; first [apply follows_ret|apply follows_fail].
Qed.

Lemma grpc_publish_agrees q m : agrees (grpc_publish q m).
Proof.
  unfold grpc_publish. destruct m as [m|]; [|apply agrees_fail].
  apply agrees_bind; [apply agrees_proto_to_core|]. intros msg. apply agrees_engine.
  eapply (follows_call _ _ RPublish); [done|]. intros r. apply follows_status.
Qed.

Lemma grpc_publish_batch_agrees q ms : agrees (grpc_publish_batch q ms).
Proof.
  apply agrees_bind; [apply agrees_messages_to_core|]. intros msgs. apply agrees_engine, follows_write.
  intros w r w' Ht. destruct (publish_batch_modes q msgs [] r w w' Ht) as (r' & Hrun & ->).
  exists (RPublishBatch r'). split; [cbn [apply_operation]; unfold bind; by rewrite Hrun|].
  destruct r' as [l|e]; [|apply follows_fail]. exact (follows_ret (map outcome_to_proto l)).
Qed.

Lemma grpc_consume_agrees q : agrees (grpc_consume q).
Proof.
  apply agrees_engine. eapply (follows_call _ _ RConsume); [done|]. intros r. apply follows_status.
Qed.

Lemma grpc_consume_batch_agrees q n : agrees (grpc_consume_batch q n).
Proof.
  apply agrees_engine, follows_write. intros w r w' Ht.
  destruct (consume_batch_modes q (Z.to_nat n) [] r w w' Ht) as (r' & Hrun & ->).
  exists (RConsumeBatch r'). split; [cbn [apply_operation]; unfold bind; by rewrite Hrun|].
  destruct r' as [l|e]; [|apply follows_fail]. exact (follows_ret (map consumed_to_proto l)).
Qed.

Lemma grpc_ack_agrees q t : agrees (grpc_ack q t).
Proof. apply agrees_engine. eapply (follows_call _ _ RAck); [done|]. intros r. apply follows_status_result. Qed.

Lemma grpc_nack_agrees q t : agrees (grpc_nack q t).
Proof. apply agrees_engine. eapply (follows_call _ _ RNack); [done|]. intros r. apply follows_status_result. Qed.

Lemma grpc_list_agrees : agrees grpc_list_queues.
Proof. apply agrees_engine, follows_read. intros r. apply follows_status_result. Qed.

Lemma rpc_agrees req : req <> ClusterStatusRpc -> agrees (rpc req).
Proof.
  intros Hne. destruct req; try done; cbn [rpc]; (apply agrees_bind; [|auto with modes]).
  - apply grpc_declare_agrees.
  - apply grpc_list_agrees.
  - apply grpc_publish_agrees.
  - apply grpc_publish_batch_agrees.
  - apply grpc_consume_agrees.
  - apply grpc_consume_batch_agrees.
  - apply grpc_ack_agrees.
  - apply grpc_nack_agrees.
  - apply agrees_ret.
Qed.

Lemma rpc_all_agrees reqs : ClusterStatusRpc ∉ reqs -> agrees (rpc_all reqs).
Proof.
  induction reqs as [|req reqs IH]; intros Hne; cbn [rpc_all]; [apply agrees_ret|].
  apply not_elem_of_cons in Hne as [Hr Hrs].
  apply agrees_bind; [by apply agrees_attempt, rpc_agrees|]. intros resp. apply agrees_bind; auto with modes.
Qed.
End GrpcModes.

(** ** Messages over the wire *)

Section Conversion.
Context `{!UuidText, !UuidTextLaws, !Environment} {S E : Type} `{!HasEnv S}.

Lemma proto_core_roundtrip m (s : S) :
  wf_message m = true ->
  proto_message_to_core (E := E) (core_message_to_proto m) s = (Done m, s).
Proof.
  intros Hw. apply wf_message_fields in Hw as (Hid & _ & _ & _ & _ & _ & Hp & _).
  unfold proto_message_to_core. cbn [core_message_to_proto Proto.id]. rewrite uuid_parse_to_string by done.
  unfold bind, ret. cbn. unfold as_u8. rewrite Z.mod_small by done. by destruct m.
Qed.
End Conversion.
