(* ===== verification/Sdk.v ===== *)
(** * Sdk: the Rust client library

    src/sdks/rust/src: the client's message types, their conversions to the
    protocol, and the client calls over a channel.  A channel is the record of
    the service's methods; the daemon's handlers form one. *)

From Stdlib Require Import ZArith Lia.
From stdpp Require Import prelude gmap strings.
From S2P Require Import Prelude Bytes OrdMap Sled Message Bincode Keys QueueManager Snapshot.
From S2P Require Import StateMachine RaftStore Daemon Wire Grpc.

Module Sdk.

(** ** Types *)

Record ClientMessage := mkClient {
  payload : bytes;
  headers : gmap string string;
  priority : Z;
  deliver_at : option Z;
  dedup_key : option string;
}.

Definition new (payload : bytes) : ClientMessage := mkClient payload ∅ 0 None None.
Definition with_priority (p : Z) (m : ClientMessage) : ClientMessage :=
  mkClient (payload m) (headers m) (Z.min p 9) (deliver_at m) (dedup_key m).
Definition with_deliver_at (t : Z) (m : ClientMessage) : ClientMessage :=
  mkClient (payload m) (headers m) (priority m) (Some t) (dedup_key m).
Definition with_dedup_key (k : string) (m : ClientMessage) : ClientMessage :=
  mkClient (payload m) (headers m) (priority m) (deliver_at m) (Some k).
Definition with_header (k v : string) (m : ClientMessage) : ClientMessage :=
  mkClient (payload m) (<[k := v]> (headers m)) (priority m) (deliver_at m) (dedup_key m).

Record PublishResult := mkResult { result_id : string; deduplicated : bool }.

Record Delivery := mkDelivery {
  delivery_tag : Z;
  message : ClientMessage;
  delivery_id : string;
  timestamp : Z;
  delivery_attempts : Z;
}.

Record QueueOptions := mkOptions {
  max_age_secs : option Z;
  max_messages : option Z;
  max_delivery_attempts : option Z;
  dead_letter_queue : option string;
  dedup_window_secs : option Z;
}.

(** [QueueOptions::default()]. *)
Definition default_options : QueueOptions := mkOptions None None None None None.

Record QueueInfo := mkInfo { name : string; depth : Z; scheduled_depth : Z }.

Inductive PelicanClientError :=
| Transport (text : string)
| RpcError (status : Status)
| ClientNotFound (text : string)
| Server (text : string).

(** ** Conversions *)

(** [impl From<ClientMessage> for pb::Message]. *)
Definition to_pb (msg : ClientMessage) : Proto.Message :=
  Proto.mkMessage "" (payload msg) (headers msg) 0 (priority msg) (deliver_at msg) (dedup_key msg) 0.

(** [impl From<pb::Message> for ClientMessage]. *)
Definition of_pb (msg : Proto.Message) : ClientMessage :=
  mkClient (Proto.payload msg) (Proto.headers msg) (as_u8 (Proto.priority msg)) (Proto.deliver_at msg)
    (Proto.dedup_key msg).

(** [impl From<pb::ConsumedMessage> for Delivery]. *)
Definition to_delivery (cm : Proto.ConsumedMessage) : Delivery :=
  match Proto.message cm with
  | Some inner =>
    mkDelivery (Proto.delivery_tag cm) (of_pb inner) (Proto.id inner) (Proto.timestamp inner)
      (Proto.delivery_attempts inner)
  | None => mkDelivery (Proto.delivery_tag cm) (new []) "" 0 0
  end.

Definition to_info (qi : Proto.QueueInfo) : QueueInfo :=
  mkInfo (Proto.info_name qi) (Proto.depth qi) (Proto.scheduled_depth qi).

Definition to_result (pr : Proto.PublishResponse) : PublishResult :=
  mkResult (Proto.published_id pr) (Proto.deduplicated pr).

(** [impl From<tonic::Status> for PelicanClientError]. *)
Definition from_status (s : Status) : PelicanClientError :=
  match code s with NotFound => ClientNotFound (status_message s) | _ => RpcError s end.

(** ** The client over a channel *)

Record Channel (S : Type) := mkChannel {
  ch_declare_queue : Proto.DeclareQueueRequest -> M S Status bool;
  ch_list_queues : M S Status (list Proto.QueueInfo);
  ch_publish : string -> option Proto.Message -> M S Status Proto.PublishResponse;
  ch_publish_batch : string -> list Proto.Message -> M S Status (list Proto.PublishResponse);
  ch_consume : string -> M S Status (option Proto.ConsumedMessage);
  ch_consume_batch : string -> Z -> M S Status (list Proto.ConsumedMessage);
  ch_ack : string -> Z -> M S Status unit;
  ch_nack : string -> Z -> M S Status unit;
  ch_health : M S Status string;
}.
Arguments mkChannel {S}.
Arguments ch_declare_queue {S}.
Arguments ch_list_queues {S}.
Arguments ch_publish {S}.
Arguments ch_publish_batch {S}.
Arguments ch_consume {S}.
Arguments ch_consume_batch {S}.
Arguments ch_ack {S}.
Arguments ch_nack {S}.
Arguments ch_health {S}.

(** tonic's endpoints: parsing an address, and connecting. *)
Record Tonic (S : Type) := mkTonic {
  Endpoint : Type;
  from_shared : string -> Result string Endpoint;
  endpoint_connect : Endpoint -> Result string (Channel S);
}.
Arguments from_shared {S}.
Arguments endpoint_connect {S}.

(** [PelicanClient::connect]: a client is its channel. *)
Definition connect {S} (tonic : Tonic S) (addr : string) : Result PelicanClientError (Channel S) :=
  match from_shared tonic addr with
  | Err e => Err (Server ("invalid address: " +:+ e)%string)
  | Ok endpoint =>
    match endpoint_connect tonic endpoint with
    | Err e => Err (Transport e)
    | Ok channel => Ok channel
    end
  end.

Section Client.
Context {S : Type}.
Variable channel : Channel S.

(** [.await?] on a call. *)
Definition awaited {A} (m : M S Status A) : M S PelicanClientError A :=
  let* r := attempt m in
  match r with Ok a => ret a | Err st => fail (from_status st) end.

Definition declare_queue (queue : string) (opts : QueueOptions) : M S PelicanClientError bool :=
  awaited (ch_declare_queue channel (Proto.mkDeclare queue (max_age_secs opts) (max_messages opts)
    (max_delivery_attempts opts) (dead_letter_queue opts) (dedup_window_secs opts))).

Definition publish (queue : string) (message : ClientMessage) : M S PelicanClientError PublishResult :=
  let* resp := awaited (ch_publish channel queue (Some (to_pb message))) in ret (to_result resp).

Definition publish_batch (queue : string) (messages : list ClientMessage) :
    M S PelicanClientError (list PublishResult) :=
  let* results := awaited (ch_publish_batch channel queue (map to_pb messages)) in ret (map to_result results).

Definition consume (queue : string) : M S PelicanClientError (option Delivery) :=
  let* message := awaited (ch_consume channel queue) in ret (to_delivery <$> message).

Definition consume_batch (queue : string) (max : Z) : M S PelicanClientError (list Delivery) :=
  let* messages := awaited (ch_consume_batch channel queue max) in ret (map to_delivery messages).

Definition ack (queue : string) (tag : Z) : M S PelicanClientError unit := awaited (ch_ack channel queue tag).
Definition nack (queue : string) (tag : Z) : M S PelicanClientError unit := awaited (ch_nack channel queue tag).

Definition list_queues : M S PelicanClientError (list QueueInfo) :=
  let* queues := awaited (ch_list_queues channel) in ret (map to_info queues).

Definition health : M S PelicanClientError unit :=
  let* status := awaited (ch_health channel) in
  if bool_decide (status = "ok"%string) then ret tt else fail (Server ("unhealthy: " +:+ status)%string).
End Client.

(** The channel to a daemon. *)
Definition daemon_channel `{!Sled, !Bincode, !Environment, !BuildProfile, !RaftTypes, !OpenRaft, !UuidText} :
    Channel AppState :=
  {| ch_declare_queue := grpc_declare_queue; ch_list_queues := grpc_list_queues; ch_publish := grpc_publish;
     ch_publish_batch := grpc_publish_batch; ch_consume := grpc_consume; ch_consume_batch := grpc_consume_batch;
     ch_ack := grpc_ack; ch_nack := grpc_nack; ch_health := grpc_health |}.
End Sdk.
