(* ===== verification/GrpcTheorems.v ===== *)
(** * GrpcTheorems: what the gRPC front end and the client library guarantee

    Each property is followed, at the end of the file, by its witness on a
    daemon of [DaemonDemo]. *)

From Stdlib Require Import ZArith Lia.
From stdpp Require Import prelude gmap strings.
From S2P Require Import Prelude Bytes OrdMap Sled Message Bincode Keys QueueManager Store Spec Engine.
From S2P Require Import Invariant Refinement Maintenance Retention Fsck Holdings System SystemDemo Snapshot.
From S2P Require Import StateMachine RaftStore RaftDemo Daemon Modes Wire Http HttpProofs DaemonDemo.
From S2P Require Import Grpc GrpcProofs Sdk.

Section Claims.
Context `{!Sled, !Bincode, !Environment, !BuildProfile, !RaftTypes, !OpenRaft, !UuidText}.

Context `{!SledLaws, !SledReliable, !BincodeLaws, !EnvironmentLaws, !UuidTextLaws}.

(** The core message a client message becomes. *)
Definition client_core (u : Z) (cm : Sdk.ClientMessage) : Message :=
  mkMessage u (Sdk.payload cm) (Sdk.headers cm) 0 0 (as_u8 (Sdk.priority cm)) (Sdk.deliver_at cm)
    (Sdk.dedup_key cm).

(** The world after the handler drew the message's id. *)
Definition after_uuid (w : World) : World := set_env (mkEnv (clock_tick (env w)) (uuid_tick (env w) + 1)) w.

Lemma client_to_core {E} cm w c :
  proto_message_to_core (E := E) (Sdk.to_pb cm) (solo w c) =
  (Done (client_core (uuid_v4 (uuid_tick (env w))) cm), solo (after_uuid w) c).
Proof. unfold proto_message_to_core. cbn [Proto.id Sdk.to_pb]. by rewrite uuid_parse_empty. Qed.

Lemma client_delivery i u n cm :
  0 <= Sdk.priority cm < 256 ->
  Sdk.to_delivery (consumed_to_proto (mkTag i, set_attempts n (client_core u cm))) =
  Sdk.mkDelivery i cm (uuid_to_string u) 0 n.
Proof.
  intros Hp. unfold Sdk.to_delivery, Sdk.of_pb. cbn. unfold as_u8.
  rewrite (Z.mod_small (Sdk.priority cm)) by lia. rewrite Z.mod_small by lia. by destruct cm.
Qed.

(** The head of a queue, as the client receives it. *)
Lemma sdk_consume_head q i m l w c :
  SysInv w -> declared (store w) q = true -> a_ready (abs (store w) q) = (i, m) :: l ->
  exists st', Sdk.consume Sdk.daemon_channel q (solo w c) =
    (Done (Some (Sdk.to_delivery (consumed_to_proto (mkTag i, m)))), st').
Proof.
  intros HS Hd Hready. pose proof (consume_sim q w (sys_inv _ HS) Hd (sys_gen _ HS)) as Hc. unfold wp in Hc.
  destruct (consume q w) as [o w2] eqn:Ec. cbn [fst snd] in Hc. destruct Hc as (_ & _ & _ & -> & _).
  unfold a_consume in Ec. rewrite Hready in Ec. cbn in Ec.
  exists (solo w2 c). unfold Sdk.consume, Sdk.awaited, bind at 1 2, attempt.
  cbn [Sdk.ch_consume Sdk.daemon_channel]. unfold grpc_consume. rewrite on_solo. unfold bind at 1.
  rewrite (locked_run (consume q) (Ok (Some (mkTag i, m))) w w2) by (unfold try; by rewrite Ec).
  reflexivity.
Qed.

Lemma sdk_publish_run q cm w c r w' :
  try (publish q (client_core (uuid_v4 (uuid_tick (env w))) cm)) (after_uuid w) = (Done r, w') ->
  Sdk.publish Sdk.daemon_channel q cm (solo w c) =
    (match r with
     | Ok o => Done (Sdk.to_result (outcome_to_proto o))
     | Err e => Fail (Sdk.from_status (pelican_error_to_status e))
     end, solo w' c).
Proof.
  intros Hr.
  assert (grpc_publish q (Some (Sdk.to_pb cm)) (solo w c) =
    (match r with Ok o => Done (outcome_to_proto o) | Err e => Fail (pelican_error_to_status e) end, solo w' c)) as Hg.
  { unfold grpc_publish, bind at 1. rewrite client_to_core, on_solo. unfold bind at 1.
    rewrite (locked_run _ r _ w' Hr). by destruct r. }
  unfold Sdk.publish, Sdk.awaited, bind, attempt. cbn [Sdk.ch_publish Sdk.daemon_channel].
  rewrite Hg. by destruct r.
Qed.

(** C37: What the client library publishes is what it consumes.  A message published
    by the client to a declared queue and not reported as a duplicate is stored as one
    message: in the schedule under its delivery time if that lies in the future,
    otherwise among the ready messages behind those of its priority.  Whenever that
    message is the next one ready, in any later state and however it got there
    (after others were consumed, promoted when due, returned by a nack), the client
    receives it with the payload, headers, priority, delivery time and deduplication
    key that were published, the id the publish returned, and the number of attempts
    so far. *)
Theorem sdk_publish_consume q cm w c res st :
  SysInv w -> declared (store w) q = true -> 0 <= Sdk.priority cm < 256 ->
  admissible (OpPublish q (client_core (uuid_v4 (uuid_tick (env w))) cm)) (after_uuid w) ->
  idgen (run_op (OpPublish q (client_core (uuid_v4 (uuid_tick (env w))) cm)) (after_uuid w)).2 <= u64_lim ->
  Sdk.publish Sdk.daemon_channel q cm (solo w c) = (Done res, st) -> Sdk.deduplicated res = false ->
  let m := client_core (uuid_v4 (uuid_tick (env w))) cm in
  exists i now w1, st = solo w1 c /\ SysInv w1 /\ declared (store w1) q = true /\ clock_value now /\
    abs (store w1) q =
      match Sdk.deliver_at cm with
      | Some t => if now <? t then a_schedule (t, (i, m)) (abs (store w) q) else a_publish (i, m) (abs (store w) q)
      | None => a_publish (i, m) (abs (store w) q)
      end /\
    forall n j l w2 c2, SysInv w2 -> declared (store w2) q = true ->
      a_ready (abs (store w2) q) = (j, set_attempts n m) :: l ->
      exists st', Sdk.consume Sdk.daemon_channel q (solo w2 c2) =
        (Done (Some (Sdk.mkDelivery j cm (Sdk.result_id res) 0 n)), st').
Proof.
  intros HS Hd Hprio Ha Hn Hrun Hdup m. fold m in Ha, Hn.
  assert (SysInv (after_uuid w)) as HS1 by by apply SysInv_env.
  destruct (try_run (publish q m) (after_uuid w)) as [r Hr]; [by apply publish_returned|].
  rewrite (sdk_publish_run q cm w c r _ Hr) in Hrun. destruct r as [o|e]; [|done]. injection Hrun as <- <-.
  destruct o as [u|]; [|done]. cbn [Sdk.to_result outcome_to_proto Proto.published_id Sdk.result_id].
  pose proof (publish_ok q m (after_uuid w) HS1 Ha Hn) as Hok.
  destruct Ha as (Hw & _ & Hroom). destruct (ser_msg_total m Hw) as [v Hv]. assert (stores m v) as Hs by done.
  rewrite (stores_size _ _ Hs) in Hroom.
  pose proof (publish_sim q m v (after_uuid w) (sys_inv _ HS1) Hd Hs (proj1 (sys_policy _ HS1 _ Hd)) Hroom) as Hsim.
  unfold wp in Hsim. cbn [run_op] in Hn, Hok. unfold try in Hr.
  destruct (publish q m (after_uuid w)) as [o w1]. cbn [fst snd] in *.
  destruct o as [o|e| |]; try done. injection Hr as ->. destruct Hsim as (_ & _ & -> & _ & _ & _ & _ & HE).
  destruct (HE Hn) as (i & now & _ & Hcv & HE1). exists i, now, w1. split; [done|]. split; [apply Hok|].
  split; [by rewrite (eff_declared _ _ _ _ HE1)|]. split; [done|]. split.
  - rewrite (eff_abs _ _ _ _ HE1). unfold m, client_core, future_at. cbn [deliver_at].
    change (store (after_uuid w)) with (store w). destruct (Sdk.deliver_at cm) as [t|]; [|done]. cbn. by destruct (now <? t).
  - intros n j l w2 c2 HS2 Hd2 Hready. destruct (sdk_consume_head q j _ l w2 c2 HS2 Hd2 Hready) as [st' Hst].
    exists st'. rewrite Hst. unfold m. by rewrite client_delivery.
Qed.
End Claims.

(** ** Witnesses *)

Import DaemonDemo.

Definition demo_calls : list Rpc :=
  [DeclareQueueRpc (Proto.mkDeclare "orders" None None (Some 2) None None);
   DeclareQueueRpc (Proto.mkDeclare "orders" None None None None None);
   PublishBatchRpc "orders" (map Sdk.to_pb [Sdk.new [1]; Sdk.with_priority 7 (Sdk.new [2])]);
   PublishRpc "absent" (Some (Sdk.to_pb (Sdk.new [3]))); PublishRpc "orders" None;
   ConsumeBatchRpc "orders" 5; NackRpc "orders" 1; AckRpc "orders" 9; ListQueuesRpc; HealthRpc].

Definition app_fresh : AppState := solo w_empty None.

Definition demo_replies : list (Result Status RpcReply) :=
  match (rpc_all demo_calls app_fresh).1 with Done rs => rs | _ => [] end.

(** The priority-7 message comes first, the unknown queue and tag are errors. *)
Lemma demo_replies_shape :
  map (fun r => match r with
                | Ok (ConsumeBatchReply ms) => map (fun c => (Proto.payload <$> Proto.message c)) ms
                | Ok (DeclareQueueReply b) => [Some [if b then 1 else 0]]
                | Err s => [Some (str_bytes (status_message s))]
                | _ => []
                end) demo_replies =
  [[Some [1]]; [Some [0]]; []; [Some (str_bytes "queue not found: absent")]; [Some (str_bytes "message is required")];
   [Some [2]; Some [1]]; []; [Some (str_bytes "invalid delivery tag: 9")]; []; []].
Proof. vm_compute. reflexivity. Qed.

(** A message to be delivered one second later, and one for now. *)
Definition demo_client_message : Sdk.ClientMessage :=
  Sdk.with_header "kind" "test" (Sdk.with_priority 12 (Sdk.new (str_bytes "pelican"))).
Definition demo_later_message : Sdk.ClientMessage := Sdk.with_deliver_at 1700000000500 demo_client_message.

Definition demo_publish_result : Sdk.PublishResult :=
  match (Sdk.publish Sdk.daemon_channel "orders" demo_later_message (solo w_served None)).1 with
  | Done r => r | _ => Sdk.mkResult "" true end.

(** The engine once the message was promoted, and the client's next delivery. *)
Definition w_published : World :=
  match (Sdk.publish Sdk.daemon_channel "orders" demo_later_message (solo w_served None)).2 with
  | mkApp (Solo (mkMutex w _)) _ => w
  | _ => w_served
  end.
Definition w_due : World := (promote_scheduled "orders" (set_env (mkEnv 600 3) w_published)).2.

Lemma sdk_publish_consume_witness :
  exists st', Sdk.consume Sdk.daemon_channel "orders" (solo w_due None) =
    (Done (Some (Sdk.mkDelivery 1 demo_later_message (Sdk.result_id demo_publish_result) 0 0)), st').
Proof.
  destruct (sdk_publish_consume "orders" demo_later_message w_served None demo_publish_result
    (Sdk.publish Sdk.daemon_channel "orders" demo_later_message (solo w_served None)).2)
    as (i & now & w1 & Hst & HS1 & _ & _ & _ & Hnext).
  - exact w_served_sys.
  - vm_compute. reflexivity.
  - vm_compute. split; [discriminate|reflexivity].
  - apply admissible_b_spec. vm_compute. reflexivity.
  - vm_compute. discriminate.
  - refine (run_outcome (Sdk.publish Sdk.daemon_channel "orders" demo_later_message) _ (Done demo_publish_result) _).
    vm_compute. reflexivity.
  - vm_compute. reflexivity.
  - assert (w_published = w1) as Hw by (unfold w_published; by rewrite Hst). rewrite <- Hw in HS1.
    apply (Hnext 0 1 [] w_due None); [|vm_compute; reflexivity|vm_compute; reflexivity].
    apply (ok_inv (set_env (mkEnv 600 3) w_published) []), promote_ok; [by apply SysInv_env|vm_compute; discriminate].
Defined.
