(* ===== verification/GrpcServed.v ===== *)
(** * GrpcServed: what a gRPC call does to the queues, and what it answers

    The counterpart for gRPC of the served requests of [HttpProofs]: every call on
    a Solo daemon returns, and its reply or status code says what happened to the
    abstract queue. *)

From Stdlib Require Import ZArith Lia.
From stdpp Require Import prelude gmap strings.
From S2P Require Import Prelude Bytes OrdMap Sled Message Bincode Keys QueueManager Store Spec Engine.
From S2P Require Import Invariant Refinement Maintenance Retention Fsck Holdings System SystemDemo Snapshot.
From S2P Require Import StateMachine RaftStore RaftDemo Daemon Modes Wire Http HttpProofs DaemonDemo.
From S2P Require Import Grpc GrpcProofs.

Section Served.
Context `{!Sled, !SledLaws, !SledReliable, !Bincode, !BincodeLaws,
          !Environment, !EnvironmentLaws, !BuildProfile, !RaftTypes, !OpenRaft, !UuidText}.
Implicit Types w : World.

(** ** Specification *)

(** The core message of a request, and the world once its id is drawn: the
    client's id if it parses, else a random one. *)
Definition core_message (pm : Proto.Message) w : Message * World :=
  let msg u := mkMessage u (Proto.payload pm) (Proto.headers pm) (Proto.timestamp pm)
    (Proto.delivery_attempts pm) (as_u8 (Proto.priority pm)) (Proto.deliver_at pm) (Proto.dedup_key pm) in
  match uuid_parse (Proto.id pm) with
  | Some u => (msg u, w)
  | None => (msg (uuid_v4 (uuid_tick (env w))), set_env (mkEnv (clock_tick (env w)) (uuid_tick (env w) + 1)) w)
  end.

(** The engine call behind a request and the world it is made in. *)
Definition rpc_call (req : Rpc) w : option (Op * World) :=
  match req with
  | DeclareQueueRpc r => Some (OpDeclare (Proto.name r) (declare_request_to_policy r), w)
  | PublishRpc q (Some pm) => let '(m, w1) := core_message pm w in Some (OpPublish q m, w1)
  | ConsumeRpc q => Some (OpConsume q, w)
  | AckRpc q t => Some (OpAck q (mkTag t), w)
  | NackRpc q t => Some (OpNack q (mkTag t), w)
  | _ => None
  end.

(** The messages of a batch, converted before the first is published. *)
Fixpoint core_messages (pms : list Proto.Message) w : list Message * World :=
  match pms with
  | [] => ([], w)
  | pm :: pms' =>
    let '(m, w1) := core_message pm w in
    let '(ms, w2) := core_messages pms' w1 in (m :: ms, w2)
  end.

(** Publishing one message after the other up to the first failure, with the
    ledger entries. *)
Definition batch_run (q : string) (ms : list Message) w : list Event * World :=
  run_until (map (OpPublish q) ms) w.

Lemma batch_run_cons q m ms w :
  batch_run q (m :: ms) w =
    (let '(ev, w1) := run_op (OpPublish q m) w in
     match (publish q m w).1 with
     | Done _ => let '(tr, w2) := batch_run q ms w1 in (ev ++ tr, w2)
     | _ => (ev, w1)
     end).
Proof.
  unfold batch_run. cbn [map run_until goes_on]. destruct (run_op (OpPublish q m) w). by destruct (publish q m w).1.
Qed.

(** The calls behind a request are admissible. *)
Definition rpc_ok (req : Rpc) w : Prop :=
  match req with
  | PublishBatchRpc q pms =>
    let '(ms, w1) := core_messages pms w in admissible_run (map (OpPublish q) ms) w1
  | _ => call_ok (rpc_call req w)
  end.

Definition rpc_ok_b (req : Rpc) w : bool :=
  match req with
  | PublishBatchRpc q pms =>
    let '(ms, w1) := core_messages pms w in admissible_run_b (map (OpPublish q) ms) w1
  | _ => call_ok_b (rpc_call req w)
  end.

Lemma rpc_ok_b_spec req w : rpc_ok_b req w = true -> rpc_ok req w.
Proof.
  unfold rpc_ok_b, rpc_ok. destruct req; try apply call_ok_b_spec. destruct (core_messages _ w). apply admissible_run_b_spec.
Qed.

(** The ledger entries of a request. *)
Definition rpc_ledger (req : Rpc) w : list Event :=
  match req with
  | PublishBatchRpc q pms => let '(ms, w1) := core_messages pms w in (batch_run q ms w1).1
  | _ => call_ledger (rpc_call req w)
  end.

(** Refused with a status code. *)
Definition refused (c : Code) (o : Outcome Status RpcReply) : Prop :=
  match o with Fail st => code st = c | _ => False end.

(** How the outcome of a publish is answered. *)
Definition publish_answer (o1 : Outcome PelicanError PublishOutcome) (o : Outcome Status RpcReply) : Prop :=
  match o1 with
  | Done (Stored u) => o = Done (PublishReply (Proto.mkPublished (uuid_to_string u) false))
  | Done Deduplicated => o = Done (PublishReply (Proto.mkPublished "" true))
  | Fail (StorageLimitExceeded _ _) => refused ResourceExhausted o
  | _ => False
  end.

(** A batch publishes its messages in order until one fails. *)
Inductive batch_post (q : string) : list Message -> World -> Outcome PelicanError (list PublishOutcome) -> World -> Prop :=
| batch_done w : batch_post q [] w (Done []) w
| batch_next m v ms w o w1 os w' :
    stores m v -> publish_post q m v w (Done o) w1 -> batch_post q ms w1 (Done os) w' ->
    batch_post q (m :: ms) w (Done (o :: os)) w'
| batch_later m v ms w o w1 e w' :
    stores m v -> publish_post q m v w (Done o) w1 -> batch_post q ms w1 (Fail e) w' ->
    batch_post q (m :: ms) w (Fail e) w'
| batch_stop m v ms w e w1 :
    stores m v -> publish_post q m v w (Fail e) w1 -> batch_post q (m :: ms) w (Fail e) w1.

Definition batch_answer (ob : Outcome PelicanError (list PublishOutcome)) (o : Outcome Status RpcReply) : Prop :=
  match ob with
  | Done os => o = Done (PublishBatchReply (map outcome_to_proto os))
  | Fail (StorageLimitExceeded _ _) => refused ResourceExhausted o
  | _ => False
  end.

(** A delivery as the client receives it. *)
Definition consumed_of (e : Z * Message) : Proto.ConsumedMessage :=
  Proto.mkConsumed e.1 (Some (core_message_to_proto e.2)).

Definition grpc_spec (req : Rpc) w (o : Outcome Status RpcReply) w' : Prop :=
  let unknown q P := if declared (store w) q then P else refused NotFound o /\ store w' = store w in
  let a q := abs (store w) q in
  let a' q := abs (store w') q in
  match req with
  | DeclareQueueRpc r =>
    if declared (store w) (Proto.name r) then o = Done (DeclareQueueReply false) /\ store w' = store w
    else o = Done (DeclareQueueReply true) /\ declared (store w') (Proto.name r) = true /\
      policy (store w') (Proto.name r) = declare_request_to_policy r
  | PublishRpc q None => refused InvalidArgument o /\ w' = w
  | PublishRpc q (Some pm) =>
    let '(m, w1) := core_message pm w in
    unknown q (exists o1 v, stores m v /\ publish_post q m v w1 o1 w' /\ publish_answer o1 o)
  | ConsumeRpc q => unknown q
    (match a_ready (a q) with
     | e :: l => o = Done (ConsumeReply (Some (consumed_of e))) /\ a_ready (a' q) = l /\
         a_inflight (a' q) = <[e.1 := e.2]> (a_inflight (a q))
     | [] => o = Done (ConsumeReply None) /\ a' q = a q
     end)
  | ConsumeBatchRpc q n =>
    if n <=? 0 then o = Done (ConsumeBatchReply []) /\ w' = w else unknown q
    (o = Done (ConsumeBatchReply (map consumed_of (take (Z.to_nat n) (a_ready (a q))))) /\
     a_ready (a' q) = drop (Z.to_nat n) (a_ready (a q)))
  | AckRpc q t => unknown q
    (match a_inflight (a q) !! t with
     | Some m => o = Done AckReply /\ a' q = a_ack t (a q)
     | None => refused InvalidArgument o /\ store w' = store w
     end)
  | NackRpc q t => unknown q
    (match a_inflight (a q) !! t with
     | Some m => o = Done NackReply /\
         exists i, a' q = a_nack (max_delivery_attempts (policy (store w) q)) t i m (a q)
     | None => refused InvalidArgument o /\ store w' = store w
     end)
  | HealthRpc => o = Done (HealthReply "ok") /\ w' = w
  | ListQueuesRpc => unchanged w w' /\ o = Done (ListQueuesReply (map (fun q =>
      Proto.mkInfo q (Z.of_nat (length (a_ready (a q)))) (Z.of_nat (length (a_sched (a q))))) (queue_names (store w))))
  | PublishBatchRpc q pms =>
    let '(ms, w1) := core_messages pms w in
    match ms with
    | [] => o = Done (PublishBatchReply []) /\ w' = w
    | _ => unknown q (exists ob, batch_post q ms w1 ob w' /\ batch_answer ob o)
    end
  | ClusterStatusRpc => o = Done (ClusterStatusReply (Proto.mkStatusResponse 0 true (Some 0) [])) /\ w' = w
  end.

(** What the specification allows is a reply or a status. *)
Lemma refused_settled c o : refused c o -> settled o.
Proof. by destruct o. Qed.

Lemma publish_answer_settled o1 o : publish_answer o1 o -> settled o.
Proof. destruct o1 as [[]|[]| |]; cbn; try done; [by intros ->..|apply refused_settled]. Qed.

Lemma batch_answer_settled ob o : batch_answer ob o -> settled o.
Proof. destruct ob as [|[]| |]; cbn; try done; [by intros ->|apply refused_settled]. Qed.

#[local] Hint Resolve refused_settled publish_answer_settled batch_answer_settled : core.

Lemma grpc_spec_settled req w o w' : grpc_spec req w o w' -> settled o.
Proof.
  destruct req as [r| |q [pm|]|q ms|q|q n|q t|q t| |]; cbn [grpc_spec].
  - destruct (declared _ _); by intros [-> _].
  - by intros [_ ->].
  - destruct (core_message pm w). destruct (declared _ q); [intros (? & ? & _ & _ & ?)|intros [? _]]; eauto.
  - intros [? _]. eauto.
  - destruct (core_messages ms w) as [[] ?]; [by intros [-> _]|].
    destruct (declared _ q); [intros (? & _ & ?)|intros [? _]]; eauto.
  - destruct (declared _ q); [destruct (a_ready _)|]; intros [? _]; subst; eauto; done.
  - destruct (n <=? 0), (declared (store w) q); intros [? _]; subst; eauto; done.
  - destruct (declared _ q); [destruct (_ !! _)|]; intros [? _]; subst; eauto; done.
  - destruct (declared _ q); [destruct (_ !! _)|]; intros [? _]; subst; eauto; done.
  - by intros [-> _].
  - by intros [-> _].
Qed.

Definition grpc_served (req : Rpc) w c : Prop :=
  exists o w', rpc req (solo w c) = (o, solo w' c) /\ StepOk w (rpc_ledger req w) w' /\ grpc_spec req w o w'.

(** ** Calls *)

(** A handler that makes one call and turns its result into a reply. *)
Lemma solo_reply {A B} (f : QM A) (k : Result PelicanError A -> M (Mutex World) Status B) fl
    (wrap : B -> RpcReply) r w w' c (ob : Outcome Status B) :
  try f w = (Done r, w') -> k r (mkMutex w' false) = (ob, mkMutex w' false) ->
  (let* b := on_engine (let* r := locked f in k r) fl in ret (wrap b)) (solo w c) =
    (match ob with Done b => Done (wrap b) | Fail e => Fail e | Panic => Panic | OutOfFuel => OutOfFuel end, solo w' c).
Proof.
  intros Hr Hk. unfold bind at 1. rewrite on_solo. unfold bind. rewrite (locked_run f r w w' Hr), Hk. by destruct ob.
Qed.

Lemma rejected_call {A} (f : QM A) q w :
  rejects f q w -> try f w = (Done (Err (QueueNotFound q)), w).
Proof. intros Hj. unfold try. by rewrite Hj. Qed.

Lemma declare_served r w c : SysInv w -> rpc_ok (DeclareQueueRpc r) w -> grpc_served (DeclareQueueRpc r) w c.
Proof.
  intros HS Hok. pose proof (run_op_step _ _ HS (proj1 Hok) (proj2 Hok)) as HS'. destruct Hok as ((Hq & Hp & _) & _).
  pose proof (declare_sim (Proto.name r) _ w Hp) as (_ & _ & _ & Hpost).
  destruct (try_run (declare_queue_with_retention (Proto.name r) (declare_request_to_policy r)) w) as [res Hr];
    [by apply declare_returned|].
  eexists _, _. split.
  { apply (solo_reply _ declare_result _ _ res _ _ _ (match res with Ok _ => Done true | Err (QueueAlreadyExists _) => Done false
      | Err e => Fail (pelican_error_to_status e) end) Hr). by destruct res as [|[]]. }
  split; [exact HS'|]. cbn [grpc_spec]. unfold try in Hr.
  destruct (declare_queue_with_retention (Proto.name r) (declare_request_to_policy r) w) as [o w']. cbn [fst snd] in *.
  destruct (declared (store w) (Proto.name r)); destruct Hpost as (-> & Hpost); injection Hr as <-; [done|].
  destruct Hpost as (Hd & Hpol & _). split_and!; [done|by rewrite Hd, bool_decide_true|by rewrite Hpol, bool_decide_true].
Qed.

(** The reply of a handler that ends in [status_result]. *)
Definition status_outcome {A B} (g : A -> B) (r : Result PelicanError A) : Outcome Status B :=
  match r with Ok a => Done (g a) | Err e => Fail (pelican_error_to_status e) end.

Lemma consume_served q w c : SysInv w -> grpc_served (ConsumeRpc q) w c.
Proof.
  intros HS. destruct (try_run (consume q) w) as [r Hr]; [by apply consume_returned|].
  eexists _, _. split.
  { apply (solo_reply _ (fun r => let* d := status_result r in ret (consumed_to_proto <$> d)) _ ConsumeReply r _ _ _
      (status_outcome (fmap consumed_to_proto) r) Hr). by destruct r. }
  split; [exact (consume_ok q w HS)|]. cbn [grpc_spec]. unfold try in Hr. destruct (declared (store w) q) eqn:Hd.
  2: { pose proof (require_queue_rejects q _ _ Hd : rejects (consume q) q w) as Hj. unfold rejects in Hj.
       rewrite Hj in *. by injection Hr as <-. }
  pose proof (consume_sim q w (sys_inv _ HS) Hd (sys_gen _ HS)) as Hsim. unfold wp in Hsim.
  destruct (consume q w) as [o w']. cbn [fst snd] in *.
  destruct Hsim as (_ & _ & _ & -> & HE). injection Hr as <-. pose proof (eff_abs _ _ _ _ HE) as Hab.
  unfold a_consume in Hab |- *.
  destruct (a_ready (abs (store w) q)) as [|e l]; cbn [fst snd] in Hab; rewrite Hab; done.
Qed.

(** The result of an acknowledgement or rejection as a reply. *)
Lemma settle_reply (f : QM unit) fl (reply : RpcReply) r w w' c :
  try f w = (Done r, w') ->
  (on_engine (let* r := locked f in status_result r) fl ;;; ret reply) (solo w c) =
    (status_outcome (fun _ => reply) r, solo w' c).
Proof.
  intros Hr. rewrite (solo_reply f status_result fl (fun _ => reply) r w w' c (status_outcome (fun u => u) r) Hr) by by destruct r.
  by destruct r.
Qed.

Lemma ack_served q t w c : SysInv w -> rpc_ok (AckRpc q t) w -> grpc_served (AckRpc q t) w c.
Proof.
  intros HS Hok. pose proof (run_op_step _ _ HS (proj1 Hok) (proj2 Hok)) as HS'. destruct Hok as (Ht & _). cbn in Ht.
  assert ((run_op (OpAck q (mkTag t)) w).2 = (ack q (mkTag t) w).2) as Hrun by (cbn; by destruct (ack q (mkTag t) w)).
  rewrite Hrun in HS'.
  destruct (try_run (ack q (mkTag t)) w) as [r Hr]; [by apply ack_returned|].
  eexists _, _. split; [by apply settle_reply|]. split; [exact HS'|]. cbn [grpc_spec]. unfold try in Hr.
  destruct (declared (store w) q) eqn:Hd.
  2: { pose proof (require_queue_rejects q _ _ Hd : rejects (ack q (mkTag t)) q w) as Hj. unfold rejects in Hj.
       rewrite Hj in *. by injection Hr as <-. }
  pose proof (ack_sim q (mkTag t) w (sys_inv _ HS) Hd (sys_gen _ HS) Ht) as Hsim. unfold wp in Hsim.
  destruct (ack q (mkTag t) w) as [o w']. cbn [fst snd tag_u64] in *. destruct Hsim as (_ & _ & Hp).
  change (tag_u64 (mkTag t)) with t in Hp. destruct (a_inflight (abs (store w) q) !! t).
  - destruct Hp as (-> & HE & _). injection Hr as <-. split; [done|]. apply HE.
  - destruct Hp as (-> & Hs & _). by injection Hr as <-.
Qed.

Lemma nack_served q t w c : SysInv w -> rpc_ok (NackRpc q t) w -> grpc_served (NackRpc q t) w c.
Proof.
  intros HS (Ha & Hn). pose proof (run_op_step _ _ HS Ha Hn) as HS'. destruct (try_run (nack q (mkTag t)) w) as [r Hr]; [by apply nack_returned|].
  eexists _, _. split; [by apply settle_reply|]. split; [exact HS'|]. cbn [grpc_spec run_op snd] in *. unfold try in Hr.
  destruct (declared (store w) q) eqn:Hd.
  2: { pose proof (require_queue_rejects q _ _ Hd : rejects (nack q (mkTag t)) q w) as Hj. unfold rejects in Hj.
       rewrite Hj in *. by injection Hr as <-. }
  destruct Ha as (Ht & Hatt).
  pose proof (nack_sim q (mkTag t) w (sys_inv _ HS) Hd (sys_gen _ HS) Ht Hatt) as Hsim. unfold wp in Hsim.
  destruct (nack q (mkTag t) w) as [o w']. cbn [fst snd tag_u64] in *. destruct Hsim as (_ & _ & _ & Hp).
  change (tag_u64 (mkTag t)) with t in Hp. destruct (a_inflight (abs (store w) q) !! t).
  - destruct Hp as (-> & HE). injection Hr as <-. split; [done|]. destruct (HE Hn) as (i & _ & HE'). exists i. apply HE'.
  - destruct Hp as (-> & Hs). by injection Hr as <-.
Qed.

(** The Solo loop of a batch consume does what the replicated one does. *)
Lemma solo_batch_of q n acc r w w' :
  consume_batch q n acc w = (Done r, w') ->
  try (solo_consume_batch q n (map consumed_to_proto acc)) w = (Done (batch_result consumed_to_proto r), w').
Proof.
  revert acc w. induction n as [|n IH]; intros acc w; cbn [solo_consume_batch consume_batch].
  { by intros [= <- <-]. }
  unfold try, bind. destruct (consume q w) as [[[d|]|e| |] w1]; try done; try (by intros [= <- <-]).
  intros Hrun. apply (IH (acc ++ [d]) w1) in Hrun. unfold try in Hrun. by rewrite map_app in Hrun.
Qed.

Lemma consume_batch_step q n acc w : SysInv w -> StepOk w [] (consume_batch q n acc w).2.
Proof.
  revert acc w. induction n as [|n IH]; intros acc w HS; cbn [consume_batch]; [by apply StepOk_refl|].
  pose proof (consume_ok q w HS) as Hok. unfold try, bind.
  destruct (consume q w) as [[[d|]|e| |] w1]; cbn in *; auto.
  apply (StepOk_trans _ [] w1 []); [done|]. apply IH, Hok.
Qed.

Lemma consume_batch_served q n w c : SysInv w -> grpc_served (ConsumeBatchRpc q n) w c.
Proof.
  intros HS. unfold grpc_served. cbn [grpc_spec]. destruct (n <=? 0) eqn:En.
  { apply Z.leb_le in En. exists (Done (ConsumeBatchReply [])), w. split; [|split; [by apply StepOk_refl|done]].
    cbn [rpc]. unfold grpc_consume_batch. replace (Z.to_nat n) with 0%nat by lia.
    by rewrite (solo_reply _ status_result _ ConsumeBatchReply (Ok []) w w c (Done [])). }
  apply Z.leb_gt in En. destruct (Z.to_nat n) as [|k] eqn:Ek; [lia|].
  assert (exists r w', consume_batch q (S k) [] w = (Done r, w') /\
    if declared (store w) q then
      r = Ok (map (fun e => (mkTag e.1, e.2)) (take (S k) (a_ready (abs (store w) q)))) /\
      a_ready (abs (store w') q) = drop (S k) (a_ready (abs (store w) q))
    else r = Err (QueueNotFound q) /\ w' = w) as (r & w' & Hrun & Hr).
  { destruct (declared (store w) q) eqn:Hd.
    - destruct (consume_batch_take q (S k) [] w (sys_inv _ HS) Hd (sys_gen _ HS)) as (w' & Hrun & Hready). eauto.
    - pose proof (require_queue_rejects q _ _ Hd : rejects (consume q) q w) as Hj.
      exists (Err (QueueNotFound q)), w. split; [|done]. cbn [consume_batch]. unfold bind.
      by rewrite (rejected_call _ _ _ Hj). }
  pose proof (consume_batch_step q (S k) [] w HS) as HS'. rewrite Hrun in HS'. cbn [snd] in HS'.
  apply solo_batch_of in Hrun. eexists _, w'. split.
  { cbn [rpc]. unfold grpc_consume_batch. rewrite Ek.
    apply (solo_reply _ status_result _ ConsumeBatchReply _ _ _ _ (status_outcome (fun l => l) (batch_result consumed_to_proto r)) Hrun).
    by destruct r. }
  split; [exact HS'|]. destruct (declared (store w) q); destruct Hr as [-> Hr]; [|by subst]. split; [|done].
  cbn [batch_result status_outcome]. by rewrite map_map.
Qed.

Lemma core_message_run {E} pm w c :
  proto_message_to_core (E := E) pm (solo w c) = (Done (core_message pm w).1, solo (core_message pm w).2 c).
Proof. unfold proto_message_to_core, core_message. by destruct (uuid_parse (Proto.id pm)). Qed.

(** Only the random source moves. *)
Lemma core_message_world pm w : exists e, (core_message pm w).2 = set_env e w.
Proof. unfold core_message. destruct (uuid_parse _); [exists (env w); by rewrite set_env_same|eauto]. Qed.

Lemma publish_served q pm w c :
  SysInv w -> rpc_ok (PublishRpc q (Some pm)) w -> grpc_served (PublishRpc q (Some pm)) w c.
Proof.
  intros HS Hok. unfold grpc_served. pose proof (core_message_run (E := Status) pm w c) as Hm.
  destruct (core_message_world pm w) as [e He]. unfold rpc_ok in Hok. unfold rpc_ledger.
  cbn [rpc_call grpc_spec] in *.
  destruct (core_message pm w) as [m w1]. cbn [fst snd call_ok call_ledger] in *. destruct Hok as [Ha Hn].
  assert (SysInv w1) as HS1 by (subst; by apply SysInv_env). assert (store w1 = store w) as Hst by by subst.
  pose proof (run_op_step _ _ HS1 Ha Hn) as HS'.
  assert ((run_op (OpPublish q m) w1).2 = (publish q m w1).2) as Hrun by (cbn; by destruct (publish q m w1)).
  rewrite Hrun in HS'. rewrite <- Hst. destruct (try_run (publish q m) w1) as [r Hr]; [by apply publish_returned|].
  eexists _, _. split.
  { cbn [rpc grpc_publish]. unfold bind at 1. unfold bind at 1. rewrite Hm.
    pose proof (solo_reply (publish q m) (fun r => let* o := status_result r in ret (outcome_to_proto o))
      (let* wr := client_write (Publish q m) in
       match wr with
       | WOk (RPublish r) => let* o := status_result r in ret (outcome_to_proto o)
       | _ => other_result "unexpected response type" wr
       end) PublishReply r w1 _ c (status_outcome outcome_to_proto r) Hr) as Hrep.
    unfold bind at 1 in Hrep. apply Hrep. by destruct r. }
  split; [subst w1; by apply (StepOk_env e)|].
  destruct (declared (store w1) q) eqn:Hd.
  2: { pose proof (require_queue_rejects q _ _ Hd : rejects (publish q m) q w1) as Hj. unfold rejects in Hj.
       unfold try in Hr. rewrite Hj in *. by injection Hr as <-. }
  destruct Ha as (Hw & _ & Hroom). destruct (ser_msg_total m Hw) as [v Hv]. assert (stores m v) as Hs by done.
  rewrite (stores_size _ _ Hs) in Hroom.
  pose proof (publish_sim q m v w1 (sys_inv _ HS1) Hd Hs (proj1 (sys_policy _ HS1 _ Hd)) Hroom) as Hsim.
  unfold wp in Hsim. exists (publish q m w1).1, v. split_and!; [done..|].
  destruct Hsim as (_ & _ & Hp). unfold try in Hr.
  destruct (publish q m w1) as [[[u|]|[]| |] w']; try done; by injection Hr as <-.
Qed.

(** ** Batches *)

Lemma core_messages_world pms w : exists e, (core_messages pms w).2 = set_env e w.
Proof.
  revert w. induction pms as [|pm pms IH]; intros w; cbn [core_messages]; [exists (env w); by rewrite set_env_same|].
  destruct (core_message_world pm w) as [e1 He1]. destruct (core_message pm w) as [m w1]. cbn [snd] in He1. subst w1.
  destruct (IH (set_env e1 w)) as [e2 He2]. destruct (core_messages pms (set_env e1 w)) as [ms w2]. cbn [snd] in *.
  exists e2. by rewrite He2.
Qed.

Lemma core_messages_run {E} pms w c :
  messages_to_core (E := E) pms (solo w c) = (Done (core_messages pms w).1, solo (core_messages pms w).2 c).
Proof.
  revert w. induction pms as [|pm pms IH]; intros w; cbn [messages_to_core core_messages]; [done|].
  unfold bind. rewrite core_message_run. destruct (core_message pm w) as [m w1]. cbn [fst snd].
  rewrite IH. by destruct (core_messages pms w1).
Qed.

Lemma batch_run_step q ms w :
  SysInv w -> admissible_run (map (OpPublish q) ms) w -> StepOk w (batch_run q ms w).1 (batch_run q ms w).2.
Proof. intros HS Ha. apply steps_ok; [done|by apply run_until_steps]. Qed.

(** A publish to a declared queue, as a step of a batch. *)
Lemma publish_once q m w :
  SysInv w -> admissible (OpPublish q m) w -> idgen (run_op (OpPublish q m) w).2 <= u64_lim ->
  declared (store w) q = true ->
  exists v, stores m v /\ publish_post q m v w (publish q m w).1 (run_op (OpPublish q m) w).2 /\
    publish q m w = ((publish q m w).1, (run_op (OpPublish q m) w).2) /\
    declared (store (run_op (OpPublish q m) w).2) q = true.
Proof.
  intros HS (Hw & _ & Hroom) Hn Hd. destruct (ser_msg_total m Hw) as [v Hv]. assert (stores m v) as Hs by done.
  rewrite (stores_size _ _ Hs) in Hroom. exists v.
  pose proof (publish_sim q m v w (sys_inv _ HS) Hd Hs (proj1 (sys_policy _ HS _ Hd)) Hroom) as Hsim.
  unfold wp in Hsim. cbn [run_op] in *. destruct (publish q m w) as [o w']. cbn [fst snd] in *.
  split_and!; [done..|]. destruct Hsim as (_ & _ & Hp).
  destruct o as [[u|]|[]| |]; try done; try (destruct_and! Hp; congruence).
  destruct Hp as (_ & _ & _ & _ & _ & HE). destruct (HE Hn) as (i & now & _ & _ & HE').
  by rewrite (eff_declared _ _ _ _ HE').
Qed.

(** The result of a batch as the loop reports it. *)
Definition batch_outcome (r : Result PelicanError (list PublishOutcome)) : Outcome PelicanError (list PublishOutcome) :=
  match r with Ok os => Done os | Err e => Fail e end.

Lemma solo_batch_run q ms acc w :
  SysInv w -> admissible_run (map (OpPublish q) ms) w -> declared (store w) q = true ->
  exists r, batch_post q ms w (batch_outcome r) (batch_run q ms w).2 /\
    try (solo_publish_batch q ms acc) w =
      (Done (match r with Ok os => Ok (acc ++ map outcome_to_proto os) | Err e => Err e end), (batch_run q ms w).2) /\
    match r with Ok _ | Err (StorageLimitExceeded _ _) => True | _ => False end.
Proof.
  revert acc w. induction ms as [|m ms IH]; intros acc w HS Ha Hd.
  { exists (Ok []). split_and!; [constructor| |done]. by rewrite app_nil_r. }
  destruct Ha as (Ha & Hn & Hr). pose proof (SysInv_step _ _ HS Ha Hn) as HS1.
  destruct (publish_once q m w HS Ha Hn Hd) as (v & Hs & Hp & Hrun & Hd1).
  rewrite batch_run_cons. cbn [solo_publish_batch]. unfold try, bind. destruct (publish q m w) as [o1 w1]. cbn [fst] in *.
  apply (f_equal snd) in Hrun. cbn [snd] in Hrun. subst w1. set (w1 := (run_op (OpPublish q m) w).2) in *.
  assert (run_op (OpPublish q m) w = ((run_op (OpPublish q m) w).1, w1)) as -> by apply surjective_pairing.
  destruct o1 as [o|e| |]; [|exists (Err e)|by destruct Hp as (_ & _ & [])..]; cbv beta iota.
  - destruct (IH (acc ++ [outcome_to_proto o]) w1 HS1 Hr Hd1) as (r & Hb & Hloop & He). unfold try in Hloop.
    destruct (batch_run q ms w1) as [tr w2]. cbn [fst snd] in *.
    exists (match r with Ok os => Ok (o :: os) | Err e => Err e end). rewrite Hloop.
    destruct r as [os|e]; cbn [batch_outcome] in *.
    + split_and!; [by eapply batch_next|by rewrite <- app_assoc|done].
    + split_and!; [by eapply batch_later|done..].
  - split_and!; [by eapply batch_stop|done|]. destruct Hp as (_ & _ & Hp). by destruct e.
Qed.

Lemma publish_batch_served q pms w c :
  SysInv w -> rpc_ok (PublishBatchRpc q pms) w -> grpc_served (PublishBatchRpc q pms) w c.
Proof.
  intros HS Hok. unfold grpc_served, rpc_ledger. unfold rpc_ok in Hok. cbn [grpc_spec].
  pose proof (core_messages_run (E := Status) pms w c) as Hm. destruct (core_messages_world pms w) as [e He].
  destruct (core_messages pms w) as [ms w1] eqn:Hcm. cbn [fst snd] in *.
  assert (SysInv w1) as HS1 by (subst; by apply SysInv_env). assert (store w1 = store w) as Hst by by subst.
  pose proof (batch_run_step q ms w1 HS1 Hok) as Hstep. rewrite He in Hstep at 1. apply StepOk_env in Hstep.
  assert (forall r w', try (solo_publish_batch q ms []) w1 = (Done r, w') ->
    rpc (PublishBatchRpc q pms) (solo w c) = (status_outcome PublishBatchReply r, solo w' c)) as Hrun.
  { intros r w' Hr. cbn [rpc]. unfold grpc_publish_batch. unfold bind at 1. unfold bind at 1. rewrite Hm.
    pose proof (solo_reply _ status_result
      (let* wr := client_write (PublishBatch q ms) in
       match wr with
       | WOk (RPublishBatch r) => let* outcomes := status_result r in ret (map outcome_to_proto outcomes)
       | _ => other_result "unexpected response type" wr
       end) PublishBatchReply r w1 w' c (status_outcome (fun l => l) r) Hr) as Hrep.
    unfold bind at 1 in Hrep. rewrite Hrep by by destruct r. by destruct r. }
  destruct pms as [|pm pms].
  { injection Hcm as <- <-. eexists _, w. split; [by apply Hrun|]. done. }
  cbn [core_messages] in Hcm. destruct ms as [|m ms].
  { destruct (core_message pm w) as [m1 w2]. by destruct (core_messages pms w2). }
  clear Hcm.
  destruct (declared (store w) q) eqn:Hd.
  - rewrite <- Hst in Hd. destruct (solo_batch_run q (m :: ms) [] w1 HS1 Hok Hd) as (r & Hb & Hloop & He').
    eexists _, _. split; [by apply Hrun|]. split; [done|]. exists (batch_outcome r). split; [done|].
    by destruct r as [os|[]].
  - rewrite <- Hst in Hd. pose proof (require_queue_rejects q _ _ Hd : rejects (publish q m) q w1) as Hj.
    assert (run_op (OpPublish q m) w1 = ([], w1)) as Hop by (cbn [run_op]; unfold rejects in Hj; by rewrite Hj).
    rewrite batch_run_cons, Hop, Hj in Hstep. exists (Fail (pelican_error_to_status (QueueNotFound q))), w1. split.
    + apply (Hrun (Err (QueueNotFound q))). cbn [solo_publish_batch]. unfold try, bind. by rewrite Hj.
    + split; [|done]. by rewrite batch_run_cons, Hop, Hj.
Qed.

Lemma scheduled_depth_sched q w :
  SysInv w -> declared (store w) q = true ->
  exists w', try (scheduled_depth q) w = (Done (Ok (length (a_sched (abs (store w) q)))), w') /\ unchanged w w'.
Proof.
  intros HS Hd. pose proof (qi_sched _ _ _ (inv_queue _ _ (sys_inv _ HS) _ Hd)) as Hall.
  assert (wp (scheduled_depth q) (fun o w' => o = Done (length (a_sched (abs (store w) q))) /\ unchanged w w') w) as Hwp.
  { apply wp_tree_count; [by rewrite Hd|]. intros w' _ Hu. split; [|done]. f_equal.
    rewrite abs_slots. cbn [a_sched]. symmetry. apply (omap_sched_length (idgen w)); [apply HS|done]. }
  unfold wp in Hwp. unfold try. destruct (scheduled_depth q w) as [o w']. cbn in Hwp. destruct Hwp as (-> & Hu). eauto.
Qed.

Lemma list_served w c : SysInv w -> grpc_served ListQueuesRpc w c.
Proof.
  intros HS. assert (exists w', queue_infos w = (Done (map (fun q =>
      Proto.mkInfo q (Z.of_nat (length (a_ready (abs (store w) q)))) (Z.of_nat (length (a_sched (abs (store w) q)))))
      (queue_names (store w))), w') /\ unchanged w w') as (w' & Hrun & Hu).
  { apply listing_run; [done|]. intros q acc w1 (HSt & _) HS1 Hq.
    destruct (depth_ready q w1 HS1 Hq) as (w2 & Hd & Hu2). pose proof Hu2 as (HSt2 & _).
    rewrite <- HSt2 in Hq. destruct (scheduled_depth_sched q w2 (SysInv_same _ _ HS1 Hu2) Hq) as (w3 & Hs & Hu3).
    exists w3. unfold bind. rewrite Hd, Hs, HSt2, HSt. split; [done|by eapply unchanged_trans]. }
  apply try_done in Hrun. exists (Done (ListQueuesReply (map (fun q =>
      Proto.mkInfo q (Z.of_nat (length (a_ready (abs (store w) q)))) (Z.of_nat (length (a_sched (abs (store w) q)))))
      (queue_names (store w))))), w'.
  split; [|split; [by apply (call_step None)|by split]].
  exact (solo_reply queue_infos status_result _ ListQueuesReply _ w w' c (Done _) Hrun eq_refl).
Qed.

Lemma rpc_served req w c : SysInv w -> rpc_ok req w -> grpc_served req w c.
Proof.
  intros HS Hok. pose proof (StepOk_refl w HS) as Hrefl. destruct req as [r| |q [pm|]|q ms|q|q n|q t|q t| |].
  - by apply declare_served.
  - by apply list_served.
  - by apply publish_served.
  - by exists (Fail (mkStatus InvalidArgument "message is required")), w.
  - by apply publish_batch_served.
  - by apply consume_served.
  - by apply consume_batch_served.
  - by apply ack_served.
  - by apply nack_served.
  - by exists (Done (HealthReply "ok")), w.
  - by eexists _, w.
Qed.

(** C14: Every call of the gRPC services is served by a Solo daemon on a sound
    engine without panicking: the engine stays sound, what its queues gain and lose
    is what the ledger of the call says, and the reply or status code says exactly
    what happened.  Declaring creates the queue with the policy of the request or
    reports that it exists; publishing does what C1 says and answers stored,
    duplicate or RESOURCE_EXHAUSTED; a batch publishes its messages in order until
    one fails, and those before it stay published; consuming answers with the
    head of the delivery order, a batch with its first max messages; acknowledging
    and rejecting settle the tag or answer INVALID_ARGUMENT; listing counts the
    ready and the scheduled; unknown queues are NOT_FOUND and change nothing. *)
Theorem grpc_call_served req w c :
  SysInv w -> rpc_ok req w ->
  exists o w', rpc req (solo w c) = (o, solo w' c) /\ StepOk w (rpc_ledger req w) w' /\ grpc_spec req w o w'.
Proof. apply rpc_served. Qed.
End Served.

Import DaemonDemo.

(** ** Witness *)

(** A batch whose second message exceeds the limit of 10000 bytes. *)
Definition big_batch : Rpc :=
  PublishBatchRpc "orders" [core_message_to_proto (msg 7 3); core_message_to_proto (mkMessage 8 (replicate (Z.to_nat 9990) 0) ∅ 0 0 0 None None);
    core_message_to_proto (msg 9 3)].

Lemma grpc_call_served_witness :
  exists o w', rpc big_batch (solo w_served None) = (o, solo w' None) /\
    StepOk w_served (rpc_ledger big_batch w_served) w' /\ grpc_spec big_batch w_served o w'.
Proof.
  apply (grpc_call_served big_batch w_served None); [exact w_served_sys|].
  apply rpc_ok_b_spec. vm_compute. reflexivity.
Defined.

(** The first message is stored, and the client is told of the failure. *)
Lemma big_batch_stops :
  accepted "orders" (rpc_ledger big_batch w_served) = [msg 7 3] /\
  match (rpc big_batch (solo w_served None)).1 with Fail st => code st = ResourceExhausted | _ => False end.
Proof. split; vm_compute; reflexivity. Qed.
