(* ===== verification/Stream.v ===== *)
(** * Stream: the streaming consume of the gRPC front end

    [consume_stream] of src/pelicanqd/src/grpc/queue_service.rs: a task that
    selects between the client's acknowledgements and a timer, and sends what it
    consumes through a bounded channel the client reads. *)

From Stdlib Require Import ZArith Lia.
From stdpp Require Import prelude gmap strings.
From S2P Require Import Prelude Bytes OrdMap Sled Message Bincode Keys QueueManager Snapshot.
From S2P Require Import StateMachine RaftStore Daemon Wire Grpc.

Module Stream.

(** [proto::ConsumeStreamAck]. *)
Record ConsumeStreamAck := mkStreamAck {
  delivery_tag : option Z;
  nack_delivery_tag : option Z;
  ack_queue : option string;
}.

(** An item of the outbound stream. *)
Abbreviation Item := (Result Status Proto.ConsumedMessage).

Section Stream.
Context `{!Sled, !Bincode, !Environment, !BuildProfile, !RaftTypes, !OpenRaft, !UuidText}.

(** ** Engine helpers *)

Definition consume_one (queue : string) : M AppState Empty_set (option (DeliveryTag * Message)) :=
  on_engine
    (let* r := locked (consume queue) in ret (match r with Ok o => o | Err _ => None end))
    (let* wr := client_write (Consume queue) in
     ret (match wr with WOk (RConsume (Ok o)) => o | _ => None end)).

Definition handle_ack (queue : string) (tag : Z) : M AppState Status unit :=
  on_engine
    (let* r := locked (ack queue (mkTag tag)) in status_result r)
    (let* wr := client_write (Ack queue (mkTag tag)) in
     match wr with
     | WOk (RAck r) => status_result r
     | _ => other_result "unexpected ack response" wr
     end).

Definition handle_nack (queue : string) (tag : Z) : M AppState Status unit :=
  on_engine
    (let* r := locked (nack queue (mkTag tag)) in status_result r)
    (let* wr := client_write (Nack queue (mkTag tag)) in
     match wr with
     | WOk (RNack r) => status_result r
     | _ => other_result "unexpected nack response" wr
     end).

(** ** The task and its channel *)

(** The queue the first acknowledgement named; the channel's content; a send
    waiting for room, with whether the task returns after it; whether the task
    still runs; whether the client still holds the receiving end; and what the
    client has read. *)
Record Stream := mkStream {
  app : AppState;
  queue : option string;
  channel : list Item;
  waiting : option (Item * bool);
  open : bool;
  receiver : bool;
  read : list Item;
}.

Abbreviation SM := (M Stream Empty_set).

Definition set_app (x : AppState) (s : Stream) : Stream :=
  mkStream x (queue s) (channel s) (waiting s) (open s) (receiver s) (read s).
Definition set_queue (x : option string) (s : Stream) : Stream :=
  mkStream (app s) x (channel s) (waiting s) (open s) (receiver s) (read s).
Definition set_channel (x : list Item) (s : Stream) : Stream :=
  mkStream (app s) (queue s) x (waiting s) (open s) (receiver s) (read s).
Definition set_waiting (x : option (Item * bool)) (s : Stream) : Stream :=
  mkStream (app s) (queue s) (channel s) x (open s) (receiver s) (read s).
Definition set_open (x : bool) (s : Stream) : Stream :=
  mkStream (app s) (queue s) (channel s) (waiting s) x (receiver s) (read s).
Definition set_receiver (x : bool) (s : Stream) : Stream :=
  mkStream (app s) (queue s) (channel s) (waiting s) (open s) x (read s).
Definition set_read (x : list Item) (s : Stream) : Stream :=
  mkStream (app s) (queue s) (channel s) (waiting s) (open s) (receiver s) x.

Definition on_app {A} (m : M AppState Empty_set A) : SM A :=
  fun s => let '(o, st) := m (app s) in (o, set_app st s).

(** The capacity of the channel. *)
Definition CAPACITY : nat := 64.

(** The task returns. *)
Definition finish : SM unit := modify (set_open false).

(** [tx.send(item).await], and the task's return when the receiver is gone or
    [stop] says so; without room the task waits. *)
Definition send (item : Item) (stop : bool) : SM unit :=
  let* s := gets (fun s => s) in
  if negb (receiver s) then finish
  else if (length (channel s) <? CAPACITY)%nat then
    modify (fun s => set_channel (channel s ++ [item]) s) ;;;
    if stop then finish else ret tt
  else modify (set_waiting (Some (item, stop))).

Definition FIRST_ACK : string := "first ConsumeStreamAck must include a non-empty queue".

(** The arm of the loop that handles an acknowledgement. *)
Definition handle_inbound (a : ConsumeStreamAck) : SM unit :=
  let* q := gets queue in
  match q with
  | None =>
    match ack_queue a with
    | Some q => if negb (bool_decide (q = ""%string)) then modify (set_queue (Some q))
                else send (Err (mkStatus InvalidArgument FIRST_ACK)) true
    | None => send (Err (mkStatus InvalidArgument FIRST_ACK)) true
    end
  | Some q =>
    match delivery_tag a with
    | Some tag =>
      let* result := on_app (attempt (handle_ack q tag)) in
      match result with Err e => send (Err e) true | Ok _ => ret tt end
    | None =>
      match nack_delivery_tag a with
      | Some tag =>
        let* result := on_app (attempt (handle_nack q tag)) in
        match result with Err e => send (Err e) true | Ok _ => ret tt end
      | None => ret tt
      end
    end
  end.

(** The arm of the timer. *)
Definition handle_sleep : SM unit :=
  let* q := gets queue in
  match q with
  | None => ret tt
  | Some q =>
    let* consumed := on_app (consume_one q) in
    match consumed with
    | Some d => send (Ok (consumed_to_proto d)) false
    | None => ret tt
    end
  end.

(** What can happen: an acknowledgement, an error or the end of the inbound
    stream, the timer, and the client reading an item or dropping the stream. *)
Inductive Event :=
| Inbound (a : ConsumeStreamAck)
| InboundError (text : string)
| InboundEnd
| Sleep
| Read
| Drop.

(** A waiting send goes through when the client makes room. *)
Definition resume : SM unit :=
  let* w := gets waiting in
  match w with
  | Some (item, stop) => modify (set_waiting None) ;;; send item stop
  | None => ret tt
  end.

(** The task, when it is at its [select!]. *)
Definition selecting (m : SM unit) : SM unit :=
  let* s := gets (fun s => s) in
  if open s then match waiting s with Some _ => ret tt | None => m end else ret tt.

Definition step (ev : Event) : SM unit :=
  match ev with
  | Inbound a => selecting (handle_inbound a)
  | InboundError text => selecting (send (Err (mkStatus Internal text)) true)
  | InboundEnd => selecting finish
  | Sleep => selecting handle_sleep
  | Read =>
    let* s := gets (fun s => s) in
    match channel s with
    | [] => ret tt
    | item :: rest => modify (fun s => set_read (read s ++ [item]) (set_channel rest s)) ;;; resume
    end
  | Drop => modify (fun s => set_channel [] (set_receiver false s)) ;;; resume
  end.

Fixpoint run (evs : list Event) : SM unit :=
  match evs with
  | [] => ret tt
  | ev :: evs' => step ev ;;; run evs'
  end.

(** [consume_stream] itself: the task is spawned and the receiving end returned. *)
Definition consume_stream (st : AppState) : Stream := mkStream st None [] None true true [].
End Stream.
End Stream.
