(* ===== verification/FrontTheorems.v ===== *)
(** * FrontTheorems: the HTTP and gRPC front ends together

    Sessions that mix requests of both protocols, on a Solo daemon, on the leader
    of a cluster and on a follower. *)

From Stdlib Require Import ZArith Lia.
From stdpp Require Import prelude gmap strings.
From S2P Require Import Prelude Bytes OrdMap Sled Message Bincode Keys QueueManager Store Spec Engine.
From S2P Require Import Invariant Holdings System SystemDemo Snapshot StateMachine RaftStore RaftDemo Daemon Modes.
From S2P Require Import Wire Http HttpProofs DaemonDemo Grpc GrpcProofs Stream Sdk.

(** ** Mixed sessions *)

Inductive Call := HttpCall (req : Request) | GrpcCall (req : Rpc).

(** Calls about the engine, not about the cluster. *)
Definition engine_call (call : Call) : bool :=
  match call with HttpCall GetClusterStatus | GrpcCall ClusterStatusRpc => false | _ => true end.

Abbreviation Answer := (Response + Result Status RpcReply)%type.

Section Sessions.
Context `{!Sled, !Bincode, !Environment, !BuildProfile, !RaftTypes, !OpenRaft, !Base64, !UuidText, !HeaderText}.

Definition answer (call : Call) : M AppState Empty_set Answer :=
  match call with
  | HttpCall req => let* resp := serve req in ret (inl resp)
  | GrpcCall req => let* reply := attempt (rpc req) in ret (inr reply)
  end.

Fixpoint session (calls : list Call) : M AppState Empty_set (list Answer) :=
  match calls with
  | [] => ret []
  | call :: calls' => let* a := answer call in let* answers := session calls' in ret (a :: answers)
  end.

Lemma answer_agrees `{!RaftLeader} call : engine_call call = true -> agrees (answer call).
Proof.
  intros Hc. destruct call as [req|req]; cbn [answer]; (apply agrees_bind; [|auto with modes]).
  - apply serve_agrees. by intros ->.
  - apply agrees_attempt, rpc_agrees. by intros ->.
Qed.

Lemma session_agrees `{!RaftLeader} calls : forallb engine_call calls = true -> agrees (session calls).
Proof.
  induction calls as [|call calls IH]; cbn [forallb session]; [intros _; apply agrees_ret|].
  intros [Hc Hcs]%andb_true_iff. apply agrees_bind; [by apply answer_agrees|]. intros a.
  apply agrees_bind; auto with modes.
Qed.

(** C36: The two modes answer alike: whatever a Solo daemon answers to a session of
    HTTP and gRPC calls in any order, errors and batches included, the leader of an
    idle cluster whose state machine is in the same state answers too, call by
    call, and both end in the same engine state. *)
Theorem front_ends_agree `{!RaftLeader} calls answers st w h c :
  mirrors h w -> forallb engine_call calls = true -> session calls (solo w c) = (Done answers, st) ->
  exists w' h', st = solo w' c /\ mirrors h' w' /\ session calls (flock h c) = (Done answers, flock h' c).
Proof. intros Hm Hcl Hs. by apply (session_agrees calls Hcl h w c (Done answers) st Hm Hs). Qed.

(** ** Followers *)

(** openraft's documented behaviour on a node that is not the leader:
    [client_write] fails with an error that forwards to the leader it knows, and
    the state machine is left alone. *)
Class RaftFollower := {
  following : raft_t -> option Node -> Prop;
  follower_forwards r s op n :
    following r n -> exists err r' s', raft_client_write op r s = (Err err, (r', s')) /\
      forward_to_leader err = Some n /\ following r' n /\ state_machine s' = state_machine s;
}.

Context `{!RaftFollower, !EnvironmentLaws}.

(** A follower of [n] whose engine, its database included, is that of [h]. *)
Definition follows_as (n : option Node) (h h' : FlockHandle) : Prop :=
  following (raft h') n /\ qm (state_machine (flock_store h')) = qm (state_machine (flock_store h)).

Lemma follows_as_trans n h1 h2 h3 : follows_as n h1 h2 -> follows_as n h2 h3 -> follows_as n h1 h3.
Proof. intros [_ Hs12] [Hf Hs23]. split; [done|]. by rewrite Hs23. Qed.

Lemma follows_after {A} n h h1 (x : A) (k : FlockHandle -> A) :
  follows_as n h h1 -> (exists h', x = k h' /\ follows_as n h1 h') -> exists h', x = k h' /\ follows_as n h h'.
Proof. intros Hf (h' & Hx & Hf'). exists h'. split; [done|by eapply follows_as_trans]. Qed.

Lemma client_write_follower {E} op h n :
  following (raft h) n ->
  exists h', client_write (E := E) op h = (Done (NotLeader n), h') /\ follows_as n h h'.
Proof.
  intros Hf. destruct (follower_forwards (raft h) (flock_store h) op n Hf) as (err & r' & s' & Hw & He & Hf' & Hs).
  exists (mkFlock r' s'). unfold client_write. rewrite Hw, He. split; [done|]. split; [done|]. cbn. by rewrite Hs.
Qed.

(** A handler that submits one operation. *)
Lemma on_follower {E A} op (s : M (Mutex World) E A) (k : WriteResult -> M FlockHandle E A) o h n c :
  following (raft h) n -> (forall h', k (NotLeader n) h' = (o, h')) ->
  exists h', on_engine s (let* wr := client_write op in k wr) (flock h c) = (o, flock h' c) /\ follows_as n h h'.
Proof.
  intros Hf Hk. destruct (client_write_follower (E := E) op h n Hf) as (h' & Hw & Hs).
  exists h'. rewrite on_flock. unfold bind. by rewrite Hw, Hk.
Qed.

(** Readings of the clock and the random source. *)
Lemma new_message_follower {E} b hd h n c :
  following (raft h) n ->
  exists m h', Message_new (E := E) b hd (flock h c) = (Done m, flock h' c) /\ follows_as n h h'.
Proof.
  intros Hf. unfold Message_new, bind, new_v4, now_ms. cbn.
  destruct (clock_read_law (clock_tick (env (state_machine (flock_store h))))) as (ms & Hms & _). rewrite Hms.
  eexists _, _. split; [reflexivity|]. by split.
Qed.

Lemma to_core_follower {E} pm h n c :
  following (raft h) n ->
  exists m h', proto_message_to_core (E := E) pm (flock h c) = (Done m, flock h' c) /\ follows_as n h h'.
Proof.
  intros Hf. unfold proto_message_to_core. destruct (uuid_parse (Proto.id pm)).
  - eexists _, h. split; [reflexivity|]. by split.
  - eexists _, _. split; [reflexivity|]. by split.
Qed.

Lemma all_to_core_follower {E} pms h n c :
  following (raft h) n ->
  exists ms h', messages_to_core (E := E) pms (flock h c) = (Done ms, flock h' c) /\ follows_as n h h'.
Proof.
  revert h. induction pms as [|pm pms IH]; intros h Hf; cbn [messages_to_core].
  { exists [], h. by split. }
  destruct (to_core_follower (E := E) pm h n c Hf) as (m & h1 & Hm & Hf1).
  destruct (IH h1 (proj1 Hf1)) as (ms & h2 & Hms & Hf2). exists (m :: ms), h2.
  unfold bind. rewrite Hm, Hms. split; [done|]. by eapply follows_as_trans.
Qed.

(** Calls that change the engine, as far as the front end accepts them. *)
Definition mutating (call : Call) : bool :=
  match call with
  | HttpCall (PostPublish _ p _) => match b64_decode p with Ok _ => true | Err _ => false end
  | HttpCall (PostQueue _ | PostConsume _ | PostAck _ _ | PostNack _ _) => true
  | GrpcCall (PublishRpc _ m) => match m with Some _ => true | None => false end
  | GrpcCall (DeclareQueueRpc _ | PublishBatchRpc _ _ | ConsumeRpc _ | ConsumeBatchRpc _ _ | AckRpc _ _ | NackRpc _ _) => true
  | _ => false
  end.

(** The address a follower can put into a response header. *)
Definition addressable (n : option Node) : Prop :=
  match n with Some node => header_value_ok (client_addr node) = true | None => True end.

(** What a follower answers: 421 with the leader's address in a header, or
    UNAVAILABLE with it in the message, if it knows one. *)
Definition redirect (n : option Node) (call : Call) : Answer :=
  match call with
  | HttpCall _ => inl (mkResponse 421 (error_body "not leader")
      (match n with Some node => if bool_decide (client_addr node = ""%string) then None else Some (client_addr node)
       | None => None end))
  | GrpcCall _ => inr (Err (mkStatus Unavailable
      (match n with Some node => "not leader, leader at " +:+ client_addr node | None => "not leader" end)))
  end.

Lemma http_redirected {S} n (s : S) :
  addressable n ->
  other_write_result (NotLeader n) s =
    (Done (mkResponse 421 (error_body "not leader")
      (match n with Some node => if bool_decide (client_addr node = ""%string) then None else Some (client_addr node)
       | None => None end)), s).
Proof.
  intros Ha. unfold other_write_result, not_leader_response. destruct n as [node|]; [|done].
  case_bool_decide; [done|]. cbn in Ha. by rewrite Ha.
Qed.

Lemma http_follower req h n c :
  following (raft h) n -> addressable n -> mutating (HttpCall req) = true ->
  exists h', answer (HttpCall req) (flock h c) = (Done (redirect n (HttpCall req)), flock h' c) /\ follows_as n h h'.
Proof.
  intros Hf Ha Hm. cbn [answer redirect].
  assert (exists h', serve req (flock h c) = (Done (mkResponse 421 (error_body "not leader")
      (match n with Some node => if bool_decide (client_addr node = ""%string) then None else Some (client_addr node)
       | None => None end)), flock h' c) /\ follows_as n h h') as (h' & Hs & Hf').
  2: { exists h'. unfold bind. by rewrite Hs. }
  destruct req as [| |q|q p hd|q|q t|q t|]; try done; unfold serve; cbn [build_router];
    try (apply on_follower; [done|]; intros h1; by apply http_redirected).
  unfold http_publish. cbn in Hm. destruct (b64_decode p) as [b|]; [|done].
  destruct (new_message_follower (E := Empty_set) b hd h n c Hf) as (m & h1 & Hmsg & Hf1).
  unfold bind at 1. rewrite Hmsg.
  apply (follows_after n h h1); [done|]. apply on_follower; [exact (proj1 Hf1)|].
  intros h2. by apply http_redirected.
Qed.

(** The status of a redirected gRPC call. *)
Definition unavailable (n : option Node) : Status :=
  mkStatus Unavailable (match n with Some node => "not leader, leader at " +:+ client_addr node | None => "not leader" end).

Lemma grpc_redirected {S A} text n (s : S) :
  other_result (A := A) text (NotLeader n) s = (Fail (unavailable n), s).
Proof. unfold unavailable. by destruct n. Qed.

(** A call that fails with the redirect, followed by the building of its reply. *)
Definition redirects {A} (m : M AppState Status A) (h : FlockHandle) n c : Prop :=
  exists h', m (flock h c) = (Fail (unavailable n), flock h' c) /\ follows_as n h h'.

Lemma redirects_reply {A B} (m : M AppState Status A) (f : A -> M AppState Status B) h n c :
  redirects m h n c -> redirects (let* a := m in f a) h n c.
Proof. intros (h' & Hr & Hf). exists h'. unfold bind. by rewrite Hr. Qed.

Lemma redirects_write {A} op (s : M (Mutex World) Status A) k h n c :
  following (raft h) n -> (forall h', k (NotLeader n) h' = (Fail (unavailable n), h')) ->
  redirects (on_engine s (let* wr := client_write op in k wr)) h n c.
Proof. intros Hf Hk. by apply on_follower. Qed.

(** A call that first builds messages. *)
Lemma redirects_after {A B} (m : M AppState Status A) (f : A -> M AppState Status B) h n c :
  (exists a h1, m (flock h c) = (Done a, flock h1 c) /\ follows_as n h h1) ->
  (forall a h1, following (raft h1) n -> redirects (f a) h1 n c) -> redirects (let* a := m in f a) h n c.
Proof.
  intros (a & h1 & Hm & Hf1) Hk. destruct (Hk a h1 (proj1 Hf1)) as (h2 & Hr & Hf2).
  exists h2. unfold bind. rewrite Hm, Hr. split; [done|by eapply follows_as_trans].
Qed.

Lemma grpc_follower req h n c :
  following (raft h) n -> mutating (GrpcCall req) = true ->
  exists h', answer (GrpcCall req) (flock h c) = (Done (redirect n (GrpcCall req)), flock h' c) /\ follows_as n h h'.
Proof.
  intros Hf Hm. cbn [answer redirect]. fold (unavailable n).
  enough (redirects (rpc req) h n c) as (h' & Hr & Hf') by (exists h'; unfold bind, attempt; by rewrite Hr).
  destruct req as [r| |q [pm|]|q pms|q|q k|q t|q t| |]; try done; cbn [rpc]; apply redirects_reply;
    try (apply redirects_write; [done|]; intros h1; apply grpc_redirected).
  - cbn [grpc_publish]. apply redirects_after; [by apply to_core_follower|]. intros m h1 Hf1.
    apply redirects_write; [done|]. intros h2. apply grpc_redirected.
  - apply redirects_after; [by apply all_to_core_follower|]. intros ms h1 Hf1.
    apply redirects_write; [done|]. intros h2. apply grpc_redirected.
Qed.

(** A stream on a follower.  A poll is answered [NotLeader], which the poll takes
    for an empty queue: the stream stays as it is. *)
Lemma stream_poll_follower (s : Stream.Stream) h n c :
  following (raft h) n -> Stream.app s = flock h c ->
  exists h', Stream.handle_sleep s = (Done tt, Stream.set_app (flock h' c) s) /\ follows_as n h h'.
Proof.
  intros Hf Hs. unfold Stream.handle_sleep, bind, gets. destruct (Stream.queue s) as [q|] eqn:Hq.
  2: { exists h. split; [|by split]. destruct s. cbn in *. by subst. }
  destruct (on_follower (E := Empty_set) (Consume q)
    (let* r := locked (consume q) in ret (match r with Ok o => o | Err _ => None end))
    (fun wr => ret (match wr with WOk (RConsume (Ok o)) => o | _ => None end)) (Done None) h n c Hf)
    as (h' & Hr & Hf'); [done|].
  exists h'. split; [|exact Hf']. unfold Stream.on_app. rewrite Hs. unfold Stream.consume_one. by rewrite Hr.
Qed.

(** An acknowledgement, positive or negative, ends the stream with UNAVAILABLE. *)
Definition settles (a : Stream.ConsumeStreamAck) : bool :=
  match Stream.delivery_tag a, Stream.nack_delivery_tag a with None, None => false | _, _ => true end.

Lemma stream_settle_follower (s : Stream.Stream) a q h n c :
  following (raft h) n -> Stream.app s = flock h c -> Stream.queue s = Some q -> settles a = true ->
  exists h', Stream.handle_inbound a s = Stream.send (Err (unavailable n)) true (Stream.set_app (flock h' c) s) /\
    follows_as n h h'.
Proof.
  intros Hf Hs Hq Ha. unfold Stream.handle_inbound, bind at 1, gets. rewrite Hq.
  assert (forall (m : M AppState Status unit), redirects m h n c -> exists h',
    (let* result := Stream.on_app (attempt m) in
     match result with Err e => Stream.send (Err e) true | Ok _ => ret tt end) s =
      Stream.send (Err (unavailable n)) true (Stream.set_app (flock h' c) s) /\ follows_as n h h') as Hsend.
  { intros m (h' & Hr & Hf'). exists h'. split; [|exact Hf']. unfold bind, Stream.on_app, attempt. by rewrite Hs, Hr. }
  unfold settles in Ha. destruct (Stream.delivery_tag a) as [t|].
  - apply Hsend, redirects_write; [done|]. intros h1. apply grpc_redirected.
  - destruct (Stream.nack_delivery_tag a) as [t|]; [|done]. apply Hsend, redirects_write; [done|].
    intros h1. apply grpc_redirected.
Qed.

(** C34: A follower changes nothing.  Every unary call that would change the engine,
    over HTTP or gRPC, is answered with 421 and the leader's client address in a
    header, or with UNAVAILABLE and the address in the message, as far as the
    follower knows a leader, provided that the address can stand in a header (the
    handler panics otherwise); its engine stays as it was, and it goes on following.
    A ConsumeStream is not redirected: its polls are refused like the calls, but the
    refusal is dropped and the client just receives nothing, until it acknowledges
    something, which ends the stream with the same UNAVAILABLE. *)
Theorem follower_redirects h n c :
  following (raft h) n -> addressable n ->
  (forall call, mutating call = true ->
     exists h', answer call (flock h c) = (Done (redirect n call), flock h' c) /\ follows_as n h h') /\
  (forall s : Stream.Stream, Stream.app s = flock h c ->
     (exists h', Stream.handle_sleep s = (Done tt, Stream.set_app (flock h' c) s) /\ follows_as n h h') /\
     (forall a q, Stream.queue s = Some q -> settles a = true ->
        exists h', Stream.handle_inbound a s = Stream.send (Err (unavailable n)) true (Stream.set_app (flock h' c) s) /\
          follows_as n h h')).
Proof.
  intros Hf Ha. split.
  - intros call Hm. destruct call; [by apply http_follower|by apply grpc_follower].
  - intros s Hs. split; [by apply stream_poll_follower|]. intros a q. by apply stream_settle_follower.
Qed.
End Sessions.

Import DaemonDemo.

(** ** Witnesses *)

Definition demo_mixed : list Call :=
  [GrpcCall (DeclareQueueRpc (Proto.mkDeclare "orders" None None (Some 2) None None));
   HttpCall (PostQueue "orders");
   GrpcCall (PublishBatchRpc "orders" (map Sdk.to_pb [Sdk.new [1]; Sdk.with_priority 7 (Sdk.new [2])]));
   HttpCall (PostPublish "orders" "cGVsaWNhbg==" ∅); HttpCall (PostConsume "orders");
   GrpcCall (PublishRpc "absent" (Some (Sdk.to_pb (Sdk.new [3])))); GrpcCall (ConsumeBatchRpc "orders" 5);
   HttpCall (PostNack "orders" (mkTag 1)); GrpcCall (AckRpc "orders" 9); HttpCall GetQueues; GrpcCall ListQueuesRpc].

Definition demo_answers : list Answer :=
  match (session demo_mixed (solo w_empty None)).1 with Done l => l | _ => [] end.

Lemma front_ends_agree_witness :
  exists w' h', app_exec (session demo_mixed) (solo w_empty None) = solo w' None /\ mirrors h' w' /\
    session demo_mixed (flock (leading w_empty) None) = (Done demo_answers, flock h' None).
Proof.
  apply (front_ends_agree demo_mixed demo_answers (app_exec (session demo_mixed) (solo w_empty None))
    w_empty (leading w_empty) None).
  - apply leading_mirrors.
  - reflexivity.
  - refine (app_run (session demo_mixed) (solo w_empty None) (Done demo_answers) _). vm_compute. reflexivity.
Defined.

(** The answers in short: status codes and refusals. *)
Lemma demo_answers_shape :
  map (fun a => match a with inl r => inl (status r) | inr (Ok _) => inr None | inr (Err e) => inr (Some (code e)) end)
    demo_answers =
  [inr None; inl 409; inr None; inl 201; inl 200; inr (Some NotFound); inr None; inl 200; inr (Some InvalidArgument);
   inl 200; inr None].
Proof. vm_compute. reflexivity. Qed.

(** The Raft instance of the demonstration follows [other_node] when it does not
    lead. *)
#[local] Instance DemoFollower : RaftFollower.
Proof.
  refine {| following r n := r = false /\ n = Some other_node |}.
  intros r s op n [-> ->]. exists (inl (Some other_node)), false, s. done.
Defined.

Definition trailing (w : World) : FlockHandle := mkFlock (false : raft_t) (store_with w).

Definition idle_stream : Stream.Stream :=
  Stream.mkStream (flock (trailing w_snap) None) (Some "orders"%string) [] None true true [].

Lemma follower_redirects_witness :
  (exists h', answer (GrpcCall (ConsumeRpc "orders")) (flock (trailing w_snap) None) =
      (Done (redirect (Some other_node) (GrpcCall (ConsumeRpc "orders"))), flock h' None) /\
    follows_as (Some other_node) (trailing w_snap) h') /\
  exists h', Stream.handle_sleep idle_stream = (Done tt, Stream.set_app (flock h' None) idle_stream) /\
    follows_as (Some other_node) (trailing w_snap) h'.
Proof.
  destruct (follower_redirects (trailing w_snap) (Some other_node) None) as [Hcalls Hstreams].
  - split; reflexivity.
  - reflexivity.
  - split; [apply Hcalls; reflexivity|]. apply Hstreams. reflexivity.
Defined.
