(* ===== verification/Flying.v ===== *)
(** * Flying: messages in flight across engine calls

    What each call of the engine does to the messages in flight, in the form the
    protocol front ends need: the call returns, keeps the system invariant, and
    keeps every message in flight except the one it settles. *)

From Stdlib Require Import ZArith Lia.
From stdpp Require Import prelude gmap strings.
From S2P Require Import Prelude Bytes OrdMap Sled Message Bincode Keys QueueManager Store Spec Engine.
From S2P Require Import Invariant Refinement Maintenance Retention Holdings System Snapshot.
From S2P Require Import StateMachine RaftStore Daemon Modes Wire Http HttpProofs.

Section Flying.
Context `{!Sled, !SledLaws, !SledReliable, !Bincode, !BincodeLaws,
          !Environment, !EnvironmentLaws, !BuildProfile}.
Implicit Types w : World.

(** ** Messages in flight *)

(** [m] is in flight in queue [q] under tag [t]. *)
Definition flying w (q : string) (t : Z) (m : Message) : Prop :=
  declared (store w) q = true /\ a_inflight (abs (store w) q) !! t = Some m.

Lemma flying_range w q t m : SysInv w -> flying w q t m -> 0 <= t < u64_lim.
Proof.
  intros HS [Hd Hl]. pose proof (inv_queue _ _ (sys_inv _ HS) _ Hd) as HQ.
  apply elem_of_list_to_map_2 in Hl. apply (list_elem_of_fmap_2 fst) in Hl. cbn in Hl.
  pose proof (tag_ids_lt _ _ _ (sys_gen _ HS) (qi_tag _ _ _ HQ) Hl). pose proof (sys_gen _ HS). lia.
Qed.

(** An operation on [q] that keeps the messages in flight of [q]. *)
Lemma flying_effect q w w' a' q' t m :
  Effect q w w' a' -> (q' = q -> a_inflight (abs (store w) q) !! t = Some m -> a_inflight a' !! t = Some m) ->
  flying w q' t m -> flying w' q' t m.
Proof.
  intros HE Hq [Hd Hl]. split; [by rewrite (eff_declared _ _ _ _ HE)|].
  destruct (decide (q' = q)) as [->|Hne].
  - rewrite (eff_abs _ _ _ _ HE). by apply Hq.
  - by rewrite (eff_others _ _ _ _ HE).
Qed.

Lemma flying_store w w' q t m : store w' = store w -> flying w q t m -> flying w' q t m.
Proof. unfold flying. by intros ->. Qed.


(** Every message in flight but those of [ex] stays. *)
Definition flights (ex : list (string * Z)) w w' : Prop :=
  forall q t m, flying w q t m -> (q, t) ∉ ex -> flying w' q t m.

Lemma flights_store w w' : store w' = store w -> flights [] w w'.
Proof. intros Hs q t m Hf _. by eapply flying_store. Qed.

Lemma flights_weaken ex w w' : flights [] w w' -> flights ex w w'.
Proof. intros Hf q t m Hm _. apply Hf; [done|apply not_elem_of_nil]. Qed.

Lemma flights_trans ex ex' w1 w2 w3 : flights ex w1 w2 -> flights ex' w2 w3 -> flights (ex ++ ex') w1 w3.
Proof. intros H12 H23 q t m Hf [Hn1 Hn2]%not_elem_of_app. auto. Qed.

(** ** Calls *)

Lemma declare_flying q w :
  SysInv w -> safe_name q = true ->
  exists r w', try (declare_queue q) w = (Done r, w') /\ StepOk w [] w' /\ flights [] w w'.
Proof.
  intros HS Hq.
  assert (admissible (OpDeclare q default_policy) w) as Ha by done.
  pose proof (declare_sim q default_policy w eq_refl) as (_ & _ & Hg & Hp).
  assert (idgen (run_op (OpDeclare q default_policy) w).2 <= u64_lim) as Hn
    by (cbn [run_op snd]; rewrite Hg; apply HS).
  pose proof (run_op_step _ _ HS Ha Hn) as HS'. cbn [run_op fst snd] in HS'.
  destruct (try_run (declare_queue_with_retention q default_policy) w) as [r Hr]; [by apply declare_returned|].
  eexists _, _. split; [exact Hr|]. split; [done|]. intros q' t m [Hd Hl] _.
  destruct (declared (store w) q) eqn:Hdq.
  - destruct Hp as [_ Hst]. by apply (flying_store w).
  - destruct Hp as (_ & Hd' & _ & Hs). split; [rewrite Hd', Hd; by rewrite orb_true_r|].
    rewrite !abs_slots in Hl |- *. cbn [a_inflight] in Hl |- *.
    rewrite Hs; [done|]. by eapply inv_safe; [apply HS|].
Qed.

Lemma publish_keeps_flying q m w :
  SysInv w -> admissible (OpPublish q m) w -> idgen (publish q m w).2 <= u64_lim ->
  flights [] w (publish q m w).2.
Proof.
  intros HS (Hw & _ & Hroom) Hn. destruct (declared (store w) q) eqn:Hd.
  2: { pose proof (require_queue_rejects q _ _ Hd : rejects (publish q m) q w) as Hrej. unfold rejects in Hrej.
       rewrite Hrej. by apply flights_store. }
  destruct (ser_msg_total m Hw) as [v Hv]. assert (stores m v) as Hs by done.
  rewrite (stores_size _ _ Hs) in Hroom.
  pose proof (publish_sim q m v w (sys_inv _ HS) Hd Hs (proj1 (sys_policy _ HS _ Hd)) Hroom) as Hsim.
  unfold wp in Hsim. destruct (publish q m w) as [o w']. cbn [fst snd] in *. destruct Hsim as (_ & _ & Hp).
  intros q' t m' Hf _. revert Hf.
  destruct o as [[u|]|[]| |]; try done; try (apply flying_store; by destruct_and! Hp).
  destruct Hp as (_ & _ & _ & _ & _ & HE). destruct (HE Hn) as (i & now & _ & _ & HE').
  apply (flying_effect q w w' _ q' t m' HE'). intros _. unfold a_store. by destruct (future_at m now).
Qed.

Lemma publish_world q m w : (run_op (OpPublish q m) w).2 = (publish q m w).2.
Proof. cbn. by destruct (publish q m w). Qed.

Lemma publish_flying q m w :
  SysInv w -> admissible (OpPublish q m) w -> idgen (run_op (OpPublish q m) w).2 <= u64_lim ->
  exists r w', try (publish q m) w = (Done r, w') /\ StepOk w (run_op (OpPublish q m) w).1 w' /\ flights [] w w'.
Proof.
  intros HS Ha Hn. pose proof (run_op_step _ _ HS Ha Hn) as HS'. rewrite publish_world in HS', Hn.
  destruct (try_run (publish q m) w) as [r Hr]; [by apply publish_returned|].
  exists r, (publish q m w).2. split; [exact Hr|]. split; [exact HS'|by apply publish_keeps_flying].
Qed.

(** What a consume takes: the head of the delivery order, now in flight and not
    in flight before. *)
Definition taken q w (o : option (DeliveryTag * Message)) w' : Prop :=
  match o with
  | Some (tag, m) => flying w' q (tag_u64 tag) m /\ a_inflight (abs (store w) q) !! tag_u64 tag = None /\
      a_ready (abs (store w) q) = (tag_u64 tag, m) :: a_ready (abs (store w') q)
  | None => (declared (store w) q = true -> a_ready (abs (store w) q) = []) /\
      a_ready (abs (store w') q) = a_ready (abs (store w) q)
  end.

Lemma consume_flying q w :
  SysInv w ->
  exists r w', try (consume q) w = (Done r, w') /\ StepOk w [] w' /\ flights [] w w' /\
    (forall q', declared (store w') q' = declared (store w) q') /\
    taken q w (match r with Ok o => o | Err _ => None end) w'.
Proof.
  intros HS. destruct (try_run (consume q) w) as [r Hr]; [by apply consume_returned|].
  pose proof (consume_ok q w HS) as HS'.
  eexists _, _. split; [exact Hr|]. split; [done|]. unfold try in Hr.
  destruct (declared (store w) q) eqn:Hd.
  2: { pose proof (require_queue_rejects q _ _ Hd : rejects (consume q) q w) as Hj. unfold rejects in Hj.
       rewrite Hj in *. injection Hr as <-. split; [by apply flights_store|]. split; [done|].
       split; [by rewrite Hd|done]. }
  pose proof (consume_sim q w (sys_inv _ HS) Hd (sys_gen _ HS)) as Hsim. unfold wp in Hsim.
  destruct (consume q w) as [o w']. cbn [fst snd] in *. destruct Hsim as (_ & _ & _ & -> & HE).
  injection Hr as <-. unfold a_consume in HE |- *.
  destruct (a_ready (abs (store w) q)) as [|e l] eqn:Er; cbn [fst snd] in HE; cbn [fmap option_fmap option_map fst].
  - split_and!; [|apply HE|].
    + intros q' t m Hm _. by apply (flying_effect q w w' _ q' t m HE).
    + unfold taken. by rewrite (eff_abs _ _ _ _ HE), Er.
  - assert (a_inflight (abs (store w) q) !! e.1 = None) as Hfresh.
    { eapply ready_not_inflight; [exact (inv_queue _ _ (sys_inv _ HS) _ Hd)|]. rewrite Er. left. }
    split_and!; [|apply HE|].
    + intros q' t m Hm _. apply (flying_effect q w w' _ q' t m HE); [|done]. intros -> Hl. cbn [a_inflight].
      rewrite lookup_insert_ne; [done|]. intros <-. congruence.
    + unfold taken. rewrite Er. cbn [tag_u64]. split_and!; [split; [by rewrite (eff_declared _ _ _ _ HE)|]|done|];
        rewrite (eff_abs _ _ _ _ HE); cbn [a_inflight a_ready]; [by rewrite lookup_insert_eq|by destruct e].
Qed.

Definition is_Ok {E A} (r : Result E A) : bool := match r with Ok _ => true | Err _ => false end.

(** Settling a delivery: the result says whether it was in flight, and afterwards
    it is not; nothing else lands. *)
Definition landed {A} q (t : Z) (r : Result PelicanError A) w w' : Prop :=
  flights [(q, t)] w w' /\
  match r with
  | Ok _ => (exists m, flying w q t m) /\ a_inflight (abs (store w') q) !! t = None
  | Err _ => (forall m, flying w q t m -> False) /\ store w' = store w
  end.

(** Either settling call, from its effect on the abstract queue. *)
Lemma landed_effect {A} q t m (r : Result PelicanError A) w w' a' :
  is_Ok r = true -> flying w q t m -> Effect q w w' a' ->
  a_inflight a' = delete t (a_inflight (abs (store w) q)) -> landed q t r w w'.
Proof.
  intros Hr Hm HE Ha. split.
  - intros q' t' m' Hf Hne. apply (flying_effect q w w' _ q' t' m' HE); [|done]. intros -> Hl.
    rewrite Ha, lookup_delete_ne; [done|]. intros <-. apply Hne. left.
  - destruct r; [|done]. split; [eauto|]. rewrite (eff_abs _ _ _ _ HE), Ha. apply lookup_delete_eq.
Qed.

Lemma landed_none {A} q t (r : Result PelicanError A) w w' :
  is_Ok r = false -> (declared (store w) q = true -> a_inflight (abs (store w) q) !! t = None) ->
  store w' = store w -> landed q t r w w'.
Proof.
  intros Hr Hn Hs. split; [by apply flights_weaken, flights_store|]. destruct r; [done|]. split; [|done].
  intros m [Hd Hl]. rewrite Hn in Hl; done.
Qed.

Lemma ack_flying q tag w :
  SysInv w -> 0 <= tag_u64 tag < u64_lim ->
  exists r w', try (ack q tag) w = (Done r, w') /\ StepOk w (run_op (OpAck q tag) w).1 w' /\ landed q (tag_u64 tag) r w w'.
Proof.
  intros HS Ht. destruct (try_run (ack q tag) w) as [r Hr]; [by apply ack_returned|].
  exists r, (ack q tag w).2. split; [exact Hr|].
  assert ((run_op (OpAck q tag) w).2 = (ack q tag w).2) as Hrun by (cbn; by destruct (ack q tag w)).
  unfold try in Hr. pose proof (ack_ok q tag w HS Ht) as HS'. rewrite Hrun in HS'. split; [exact HS'|].
  destruct (declared (store w) q) eqn:Hd.
  2: { pose proof (require_queue_rejects q _ _ Hd : rejects (ack q tag) q w) as Hj. unfold rejects in Hj.
       rewrite Hj in *. injection Hr as <-. apply landed_none; [done| |done]. by rewrite Hd. }
  pose proof (ack_sim q tag w (sys_inv _ HS) Hd (sys_gen _ HS) Ht) as Hsim. unfold wp in Hsim.
  destruct Hsim as (_ & Hg & Hp).
  destruct (a_inflight (abs (store w) q) !! tag_u64 tag) as [m|] eqn:El; destruct (ack q tag w) as [o w']; cbn [fst snd] in *.
  - destruct Hp as (-> & HE & _). injection Hr as <-. by eapply landed_effect; [done|done|exact HE|].
  - destruct Hp as (-> & Hs & _). injection Hr as <-. by apply landed_none.
Qed.

Lemma nack_flying q tag w :
  SysInv w -> admissible (OpNack q tag) w -> idgen (run_op (OpNack q tag) w).2 <= u64_lim ->
  exists r w', try (nack q tag) w = (Done r, w') /\ StepOk w [] w' /\ landed q (tag_u64 tag) r w w'.
Proof.
  intros HS Ha Hn. pose proof (run_op_step _ _ HS Ha Hn) as HS'. cbn [run_op fst snd] in HS', Hn.
  destruct (try_run (nack q tag) w) as [r Hr]; [by apply nack_returned|].
  exists r, (nack q tag w).2. split; [exact Hr|]. split; [exact HS'|]. unfold try in Hr.
  destruct (declared (store w) q) eqn:Hd.
  2: { pose proof (require_queue_rejects q _ _ Hd : rejects (nack q tag) q w) as Hj. unfold rejects in Hj.
       rewrite Hj in *. injection Hr as <-. apply landed_none; [done| |done]. by rewrite Hd. }
  destruct Ha as (Ht & Hatt).
  pose proof (nack_sim q tag w (sys_inv _ HS) Hd (sys_gen _ HS) Ht Hatt) as Hsim. unfold wp in Hsim.
  destruct (nack q tag w) as [o w']. cbn [fst snd] in *. destruct Hsim as (_ & _ & _ & Hp).
  destruct (a_inflight (abs (store w) q) !! tag_u64 tag) as [m|] eqn:El.
  - destruct Hp as (-> & HE). injection Hr as <-. destruct (HE Hn) as (i & _ & HE').
    eapply landed_effect; [done|done|exact HE'|]. unfold a_nack. by destruct (exhausted _ _).
  - destruct Hp as (-> & Hs). injection Hr as <-. by apply landed_none.
Qed.
End Flying.
