(* ===== verification/StreamTheorems.v ===== *)
(** * StreamTheorems: what the streaming consume guarantees

    Streams on a Solo daemon: every run returns, keeps the engine sound and loses
    no delivery; and a client that keeps reading receives the ready messages in
    delivery order. *)

From Stdlib Require Import ZArith Lia.
From stdpp Require Import prelude gmap strings.
From S2P Require Import Prelude Bytes OrdMap Sled Message Bincode Keys QueueManager Store Spec Engine.
From S2P Require Import Invariant Refinement Maintenance Retention Fsck Holdings System SystemDemo Snapshot.
From S2P Require Import StateMachine RaftStore RaftDemo Daemon Modes Wire Http HttpProofs DaemonDemo.
From S2P Require Import Grpc Stream Flying.

Section Claims.
Context `{!Sled, !SledLaws, !SledReliable, !Bincode, !BincodeLaws,
          !Environment, !EnvironmentLaws, !BuildProfile, !RaftTypes, !OpenRaft, !UuidText}.
Implicit Types s : Stream.Stream.

Definition stream_world s : World := app_world (Stream.app s).

(** A stream over a sound Solo engine. *)
Record StreamInv s : Prop := {
  si_solo : Stream.app s = solo (stream_world s) (cluster (Stream.app s));
  si_sys : SysInv (stream_world s);
}.

(** What the client has read or may still read. *)
Definition items s : list Stream.Item :=
  Stream.read s ++ Stream.channel s ++ option_list (fst <$> Stream.waiting s).

(** The item of a delivery. *)
Definition item_of (d : Z * Message) : Stream.Item := Ok (consumed_to_proto (mkTag d.1, d.2)).

(** ** Sending *)

Lemma send_run item stop s :
  exists s', Stream.send item stop s = (Done tt, s') /\ Stream.app s' = Stream.app s /\
    items s' ⊆ item :: items s.
Proof.
  unfold Stream.send, bind, gets, modify, Stream.finish, ret.
  destruct (negb (Stream.receiver s)); [eexists; split_and!; [done..|by apply list_subseteq_cons]|].
  destruct (_ <? _)%nat.
  - destruct stop; (eexists; split_and!; [done..|]); unfold items; cbn; intros x;
      rewrite elem_of_cons, !elem_of_app, list_elem_of_singleton; tauto.
  - eexists; split_and!; [done..|]. unfold items; cbn. intros x.
    rewrite elem_of_cons, !elem_of_app, list_elem_of_singleton. tauto.
Qed.

(** ** Steps *)

(** The engine calls of an event are admissible. *)
Definition stream_event_ok (ev : Stream.Event) s : Prop :=
  match ev, Stream.queue s with
  | Stream.Inbound a, Some q =>
    match Stream.delivery_tag a, Stream.nack_delivery_tag a with
    | Some t, _ => 0 <= t < u64_lim
    | None, Some t => admissible (OpNack q (mkTag t)) (stream_world s) /\
        idgen (run_op (OpNack q (mkTag t)) (stream_world s)).2 <= u64_lim
    | None, None => True
    end
  | _, _ => True
  end.

(** The delivery an event settles. *)
Definition settles (ev : Stream.Event) s : list (string * Z) :=
  match ev, Stream.queue s with
  | Stream.Inbound a, Some q =>
    match Stream.delivery_tag a, Stream.nack_delivery_tag a with
    | Some t, _ | None, Some t => [(q, t)]
    | None, None => []
    end
  | _, _ => []
  end.

(** The task is at its [select!]. *)
Definition at_select s : bool :=
  Stream.open s && match Stream.waiting s with Some _ => false | None => true end.

(** The ledger entries of an event: an acknowledgement settles a message. *)
Definition inbound_ledger (a : Stream.ConsumeStreamAck) s : list Event :=
  match Stream.queue s, Stream.delivery_tag a with
  | Some q, Some t => (run_op (OpAck q (mkTag t)) (stream_world s)).1
  | _, _ => []
  end.
Definition stream_ledger (ev : Stream.Event) s : list Event :=
  match ev with
  | Stream.Inbound a => if at_select s then inbound_ledger a s else []
  | _ => []
  end.

(** An item that was there, that is an error, or that carries a message in flight
    in the queue of the stream. *)
Definition accounted s s' (it : Stream.Item) : Prop :=
  it ∈ items s \/ is_Ok it = false \/
  exists q d, Stream.queue s = Some q /\ it = item_of d /\ flying (stream_world s') q d.1 d.2.

(** [m] returns, does to the engine what the ledger [tr] says, keeps all but [ex]
    in flight, and accounts for every item. *)
Definition streams (m : M Stream.Stream Empty_set unit) (ex : list (string * Z)) (tr : list Event) s : Prop :=
  exists s', m s = (Done tt, s') /\ StreamInv s' /\ cluster (Stream.app s') = cluster (Stream.app s) /\
    StepOk (stream_world s) tr (stream_world s') /\ flights ex (stream_world s) (stream_world s') /\
    forall it, it ∈ items s' -> accounted s s' it.

(** A step that does not call the engine. *)
Lemma streams_quiet m s s' ex :
  StreamInv s -> m s = (Done tt, s') -> Stream.app s' = Stream.app s ->
  (forall it, it ∈ items s' -> it ∈ items s \/ is_Ok it = false) -> streams m ex [] s.
Proof.
  intros [Hs HS] Hrun Happ Hit. exists s'.
  assert (stream_world s' = stream_world s) as Hw by (unfold stream_world; by rewrite Happ).
  split_and!; [done| |by rewrite Happ|rewrite Hw; by apply StepOk_refl|rewrite Hw; by apply flights_weaken, flights_store|].
  - split; rewrite ?Hw, ?Happ; auto.
  - intros it Hin. destruct (Hit it Hin); [by left|by right; left].
Qed.

Lemma streams_gets {A} (f : Stream.Stream -> A) (k : A -> M Stream.Stream Empty_set unit) ex tr s :
  streams (k (f s)) ex tr s -> streams (bind (gets f) k) ex tr s.
Proof. done. Qed.

Lemma streams_nothing s ex : StreamInv s -> streams (ret tt) ex [] s.
Proof. intros HI. eapply streams_quiet; eauto. Qed.

Lemma streams_error e stop s ex : StreamInv s -> streams (Stream.send (Err e) stop) ex [] s.
Proof.
  intros HI. destruct (send_run (Err e) stop s) as (s' & Hrun & Happ & Hit).
  eapply streams_quiet; eauto. intros it Hin. apply Hit in Hin. apply elem_of_cons in Hin as [->|]; auto.
Qed.

(** An engine call and what follows it. *)
Lemma streams_call {A} (call : M AppState Empty_set A) (k : A -> M Stream.Stream Empty_set unit) a w' ex tr s :
  StreamInv s -> call (Stream.app s) = (Done a, solo w' (cluster (Stream.app s))) -> StepOk (stream_world s) tr w' ->
  flights ex (stream_world s) w' ->
  (exists s', k a (Stream.set_app (solo w' (cluster (Stream.app s))) s) = (Done tt, s') /\
     Stream.app s' = solo w' (cluster (Stream.app s)) /\ forall it, it ∈ items s' -> accounted s s' it) ->
  streams (let* x := Stream.on_app call in k x) ex tr s.
Proof.
  intros HI Hc HS Hf (s' & Hk & Happ & Hit). exists s'. unfold bind, Stream.on_app. rewrite Hc, Hk.
  assert (stream_world s' = w') as Hw by (unfold stream_world; by rewrite Happ).
  split_and!; [done| |by rewrite Happ|by rewrite Hw|by rewrite Hw|done].
  split; rewrite ?Hw, ?Happ; [done|apply HS].
Qed.

(** Settling a delivery, by either call, and reporting the error. *)
Lemma streams_settle (call : M AppState Status unit) (r : Result PelicanError unit) q t w' tr s :
  StreamInv s ->
  call (Stream.app s) = (match r with Ok a => Done a | Err e => Fail (pelican_error_to_status e) end,
    solo w' (cluster (Stream.app s))) ->
  StepOk (stream_world s) tr w' -> landed q t r (stream_world s) w' ->
  streams (let* result := Stream.on_app (attempt call) in
           match result with Err e => Stream.send (Err e) true | Ok _ => ret tt end) [(q, t)] tr s.
Proof.
  intros HI Hc HS [Hf _].
  apply (streams_call _ _ (match r with Ok a => Ok a | Err e => Err (pelican_error_to_status e) end) w'); auto.
  { unfold attempt. rewrite Hc. by destruct r. }
  destruct r as [[]|e]; [eexists; split_and!; [done..|by left]|].
  destruct (send_run (Err (pelican_error_to_status e)) true (Stream.set_app (solo w' (cluster (Stream.app s))) s))
    as (s' & Hrun & Happ & Hit).
  exists s'. split_and!; auto. intros it Hin. apply Hit in Hin. apply elem_of_cons in Hin as [->|]; [by right; left|by left].
Qed.

Lemma solo_settled (f : QM unit) (fl : M FlockHandle Status unit) r w w' c :
  try f w = (Done r, w') ->
  on_engine (let* r := locked f in status_result r) fl (solo w c) =
    (match r with Ok a => Done a | Err e => Fail (pelican_error_to_status e) end, solo w' c).
Proof. intros Hr. rewrite on_solo. unfold bind. rewrite (locked_run f r w w' Hr). by destruct r. Qed.

Lemma consume_one_solo q r w w' c :
  try (consume q) w = (Done r, w') ->
  Stream.consume_one q (solo w c) = (Done (match r with Ok o => o | Err _ => None end), solo w' c).
Proof. intros Hr. by apply (on_solo_call (consume q) (fun r => match r with Ok o => o | Err _ => None end)). Qed.

Lemma streams_inbound a s :
  StreamInv s -> stream_event_ok (Stream.Inbound a) s ->
  streams (Stream.handle_inbound a) (settles (Stream.Inbound a) s) (inbound_ledger a s) s.
Proof.
  intros HI Hok. unfold stream_event_ok, settles, inbound_ledger in *. apply streams_gets.
  destruct (Stream.queue s) as [q|] eqn:Hq.
  2: { destruct (Stream.ack_queue a) as [q|]; [|by apply streams_error].
       destruct (bool_decide (q = ""%string)); [by apply streams_error|].
       by eapply (streams_quiet (modify (Stream.set_queue (Some q)))); [|reflexivity..|left]. }
  destruct (Stream.delivery_tag a) as [t|].
  { destruct (ack_flying q (mkTag t) (stream_world s) (si_sys _ HI) Hok) as (r & w' & Hr & HS & Hl).
    eapply streams_settle; eauto. rewrite (si_solo _ HI) at 1. by apply solo_settled. }
  destruct (Stream.nack_delivery_tag a) as [t|]; [|by apply streams_nothing]. destruct Hok as [Ha Hn].
  destruct (nack_flying q (mkTag t) (stream_world s) (si_sys _ HI) Ha Hn) as (r & w' & Hr & HS & Hl).
  eapply streams_settle; eauto. rewrite (si_solo _ HI) at 1. by apply solo_settled.
Qed.

Lemma streams_sleep s : StreamInv s -> streams Stream.handle_sleep [] [] s.
Proof.
  intros HI. apply streams_gets.
  destruct (Stream.queue s) as [q|] eqn:Hq; [|by apply streams_nothing].
  destruct (consume_flying q (stream_world s) (si_sys _ HI)) as (r & w' & Hr & HS & Hf & _ & Ht).
  apply (streams_call _ _ (match r with Ok o => o | Err _ => None end) w'); auto.
  { rewrite (si_solo _ HI) at 1. by apply consume_one_solo. }
  destruct (match r with Ok o => o | Err _ => None end) as [[tag m]|]; [|eexists; split_and!; [done..|by left]].
  destruct Ht as (Hm & _).
  destruct (send_run (Ok (consumed_to_proto (tag, m))) false (Stream.set_app (solo w' (cluster (Stream.app s))) s))
    as (s' & Hrun & Happ & Hit).
  exists s'. split_and!; auto. intros it Hin. apply Hit in Hin. apply elem_of_cons in Hin as [->|]; [|by left].
  right; right. exists q, (tag_u64 tag, m). split_and!; [done|by destruct tag|].
  unfold stream_world. by rewrite Happ.
Qed.

Lemma streams_selecting m ex tr s :
  StreamInv s -> streams m ex tr s -> streams (Stream.selecting m) ex (if at_select s then tr else []) s.
Proof.
  intros HI Hm. apply streams_gets. unfold at_select. destruct (Stream.open s); [|by apply streams_nothing].
  destruct (Stream.waiting s); [by apply streams_nothing|done].
Qed.

Lemma streams_selecting_nil m ex s :
  StreamInv s -> streams m ex [] s -> streams (Stream.selecting m) ex [] s.
Proof. intros HI Hm. pose proof (streams_selecting m ex [] s HI Hm) as Hs. by destruct (at_select s). Qed.

(** The client's side: what it reads or drops adds no item. *)
Lemma resume_run s :
  exists s', Stream.resume s = (Done tt, s') /\ Stream.app s' = Stream.app s /\ items s' ⊆ items s.
Proof.
  unfold Stream.resume, bind at 1, gets. destruct (Stream.waiting s) as [[item stop]|] eqn:Hw.
  2: { exists s. split_and!; done. }
  unfold bind, modify. destruct (send_run item stop (Stream.set_waiting None s)) as (s' & Hrun & Happ & Hit).
  exists s'. split_and!; auto. intros it Hin. apply Hit in Hin. revert Hin. unfold items. rewrite Hw. cbn.
  rewrite elem_of_cons, !elem_of_app, list_elem_of_singleton, elem_of_nil. tauto.
Qed.

Lemma streams_client f s :
  StreamInv s -> Stream.app (f s) = Stream.app s -> items (f s) ⊆ items s ->
  streams (modify f ;;; Stream.resume) [] [] s.
Proof.
  intros HI Hf Hit. destruct (resume_run (f s)) as (s' & Hrun & Happ & Hit').
  eapply streams_quiet; [done|unfold bind, modify; exact Hrun|by rewrite Happ|]. auto.
Qed.

Lemma streams_step ev s : StreamInv s -> stream_event_ok ev s ->
  streams (Stream.step ev) (settles ev s) (stream_ledger ev s) s.
Proof.
  intros HI Hok. destruct ev as [a|text| | | |]; cbn [Stream.step settles stream_ledger].
  - by apply streams_selecting, streams_inbound.
  - by apply streams_selecting_nil, streams_error.
  - apply streams_selecting_nil; [done|]. by eapply streams_quiet; [|reflexivity..|left].
  - by apply streams_selecting_nil, streams_sleep.
  - apply streams_gets. destruct (Stream.channel s) as [|item rest] eqn:Hc; [by apply streams_nothing|].
    apply streams_client; [done..|]. unfold items. rewrite Hc. cbn.
    intros x. rewrite !elem_of_app, !elem_of_cons, !elem_of_app.
    intros [[?|[?|Hx]]|?]; [| |by apply elem_of_nil in Hx|]; tauto.
  - apply streams_client; [done..|]. unfold items. cbn. intros x. rewrite !elem_of_app. tauto.
Qed.

(** ** Runs *)

Fixpoint stream_run_ok (evs : list Stream.Event) s : Prop :=
  match evs with
  | [] => True
  | ev :: evs' => stream_event_ok ev s /\ stream_run_ok evs' (Stream.step ev s).2
  end.

(** The deliveries the client settles during a run. *)
Fixpoint run_settles (evs : list Stream.Event) s : list (string * Z) :=
  match evs with
  | [] => []
  | ev :: evs' => settles ev s ++ run_settles evs' (Stream.step ev s).2
  end.

(** C17: A stream on a Solo daemon survives every admissible run of
    acknowledgements, inbound errors, timer ticks, reads and the client going away:
    no step panics and the engine stays sound.  A message in flight stays in flight
    unless the client acknowledges or rejects its tag on the stream, so a message
    lost with the stream is still held by the engine; and every delivery the run
    adds to the stream is of a message that came in flight, and still is unless the
    client settled it since. *)
Theorem stream_at_least_once evs s :
  StreamInv s -> stream_run_ok evs s ->
  exists s', Stream.run evs s = (Done tt, s') /\ StreamInv s' /\
    flights (run_settles evs s) (stream_world s) (stream_world s') /\
    forall it, it ∈ items s' -> it ∈ items s \/ is_Ok it = false \/
      exists q d, it = item_of d /\ (flying (stream_world s') q d.1 d.2 \/ (q, d.1) ∈ run_settles evs s).
Proof.
  revert s. induction evs as [|ev evs IH]; intros s HI Hok.
  { exists s. split_and!; auto. by apply flights_store. }
  cbn [Stream.run stream_run_ok run_settles] in *. destruct Hok as [He Hok].
  destruct (streams_step ev s HI He) as (s1 & Hstep & HI1 & _ & _ & Hf1 & Hit1). rewrite Hstep in *. cbn [snd] in *.
  destruct (IH s1 HI1 Hok) as (s2 & Hrun & HI2 & Hf2 & Hit2). exists s2.
  unfold bind. rewrite Hstep, Hrun. split_and!; auto; [by eapply flights_trans|].
  intros it Hin. destruct (Hit2 it Hin) as [Hin1|[He'|(q & d & -> & Hd)]]; [|by right; left|].
  - destruct (Hit1 it Hin1) as [?|[?|(q & d & Hq & -> & Hd)]]; [by left|by right; left|].
    right; right. exists q, d. split; [done|]. rewrite elem_of_app.
    destruct (decide ((q, d.1) ∈ run_settles evs s1)); [by right; right|left; by apply Hf2].
  - right; right. exists q, d. split; [done|]. rewrite elem_of_app. tauto.
Qed.

(** A stream that has its queue and a client that keeps up. *)
Record streaming q s : Prop := {
  sg_inv : StreamInv s;
  sg_queue : Stream.queue s = Some q;
  sg_channel : Stream.channel s = [];
  sg_waiting : Stream.waiting s = None;
  sg_open : Stream.open s = true;
  sg_receiver : Stream.receiver s = true;
  sg_declared : declared (store (stream_world s)) q = true;
}.

Definition ready_of s q : list (Z * Message) := a_ready (abs (store (stream_world s)) q).

(** A tick and a read deliver the next ready message. *)
Lemma tick_read q s :
  streaming q s ->
  exists s', Stream.run [Stream.Sleep; Stream.Read] s = (Done tt, s') /\ streaming q s' /\
    Stream.read s' = Stream.read s ++ map item_of (take 1 (ready_of s q)) /\
    ready_of s' q = drop 1 (ready_of s q).
Proof.
  intros [HI Hq Hc Hw Ho Hr Hd].
  destruct (consume_flying q (stream_world s) (si_sys _ HI)) as (r & w' & Hrun & HS & _ & Hd' & Ht).
  set (s1 := Stream.set_app (solo w' (cluster (Stream.app s))) s).
  assert (Stream.on_app (Stream.consume_one q) s = (Done (match r with Ok o => o | Err _ => None end), s1)) as Hcall.
  { unfold Stream.on_app. rewrite (si_solo _ HI) at 1.
    by rewrite (consume_one_solo q r _ w' _ Hrun). }
  assert (StreamInv s1) as HI1 by (split; [done|apply HS]).
  unfold ready_of. cbn [Stream.run]. unfold Stream.step, Stream.selecting, bind, gets. rewrite Ho, Hw.
  unfold Stream.handle_sleep, bind, gets. rewrite Hq, Hcall.
  destruct (match r with Ok o => o | Err _ => None end) as [[tag m]|]; cbn [taken] in Ht.
  - destruct Ht as (_ & _ & ->). unfold Stream.send, Stream.resume, bind, gets, modify, ret.
    cbn [Stream.receiver Stream.channel s1 Stream.set_app]. rewrite Hr, Hc. cbn. rewrite Hc. cbn. rewrite Hw. eexists.
    split; [reflexivity|]. split_and!; [|by destruct tag|done].
    split; cbn; auto; [split; [done|apply HS]|]. unfold stream_world. cbn. by rewrite Hd'.
  - destruct Ht as [Hnil Hsame]. rewrite (Hnil Hd) in *. cbn [ret Stream.channel s1 Stream.set_app]. unfold ret.
    cbn [Stream.channel s1 Stream.set_app]. rewrite Hc. exists s1. split; [reflexivity|].
    split_and!; [|by rewrite app_nil_r|exact Hsame]. split; cbn; auto. unfold stream_world. cbn. by rewrite Hd'.
Qed.

(** C16: A stream whose client keeps reading makes progress: after n ticks of the
    timer, each followed by a read, the client has received exactly the first n
    ready messages of the queue, in delivery order and each once with its tag, and
    the others are still ready: the message at position n is delivered by tick
    n + 1, whatever the lengths of the queue and of the channel. *)
Theorem stream_delivers n q s :
  streaming q s ->
  exists s', Stream.run (concat (replicate n [Stream.Sleep; Stream.Read])) s = (Done tt, s') /\ streaming q s' /\
    Stream.read s' = Stream.read s ++ map item_of (take n (ready_of s q)) /\
    ready_of s' q = drop n (ready_of s q).
Proof.
  revert s. induction n as [|n IH]; intros s Hs; [exists s; by rewrite app_nil_r|].
  destruct (tick_read q s Hs) as (s1 & Hrun1 & Hs1 & Hread1 & Hready1).
  destruct (IH s1 Hs1) as (s2 & Hrun2 & Hs2 & Hread2 & Hready2). exists s2. split_and!; [|done|..].
  - cbn [replicate concat app Stream.run] in *. unfold bind in *. destruct (Stream.step Stream.Sleep s) as [[]]; try done.
    destruct (Stream.step Stream.Read _) as [[]]; try done. by injection Hrun1 as ->.
  - rewrite Hread2, Hread1, Hready1, <- app_assoc. f_equal. destruct (ready_of s q); cbn; [by rewrite take_nil|done].
  - rewrite Hready2, Hready1. by destruct (ready_of s q); [destruct n|].
Qed.
End Claims.

Import DaemonDemo.

(** ** Witnesses *)

(** A stream of the queue "orders" of [w_snap], just after its first message. *)
Definition stream_demo : Stream.Stream :=
  Stream.mkStream (solo w_snap None) (Some "orders"%string) [] None true true [].

Lemma stream_demo_streaming : streaming "orders" stream_demo.
Proof.
  assert (declared (store w_snap) "orders" = true) as Hd by (vm_compute; reflexivity).
  split; [split; [reflexivity|exact w_snap_sys]|reflexivity..|exact Hd].
Qed.

Lemma stream_delivers_witness :
  exists s', Stream.run (concat (replicate 2 [Stream.Sleep; Stream.Read])) stream_demo = (Done tt, s') /\
    streaming "orders" s' /\
    Stream.read s' = Stream.read stream_demo ++ map item_of (take 2 (ready_of stream_demo "orders")) /\
    ready_of s' "orders" = drop 2 (ready_of stream_demo "orders").
Proof. apply (stream_delivers 2 "orders" stream_demo). exact stream_demo_streaming. Defined.

Definition ack_of (t : Z) : Stream.ConsumeStreamAck := Stream.mkStreamAck (Some t) None None.
Definition nack_of (t : Z) : Stream.ConsumeStreamAck := Stream.mkStreamAck None (Some t) None.
Definition first_ack (q : string) : Stream.ConsumeStreamAck := Stream.mkStreamAck None None (Some q).

(** A client opens a stream, takes two deliveries, rejects one, acknowledges the
    other and then a tag nobody holds, and is told so. *)
Definition stream_events : list Stream.Event :=
  [Stream.Inbound (first_ack "orders"); Stream.Sleep; Stream.Sleep; Stream.Read; Stream.Inbound (nack_of 0);
   Stream.Inbound (ack_of 2); Stream.Inbound (ack_of 999); Stream.Sleep; Stream.Read; Stream.Read; Stream.Drop].

Definition stream_event_ok_b (ev : Stream.Event) (s : Stream.Stream) : bool :=
  match ev, Stream.queue s with
  | Stream.Inbound a, Some q =>
    match Stream.delivery_tag a, Stream.nack_delivery_tag a with
    | Some t, _ => (0 <=? t) && (t <? u64_lim)
    | None, Some t => admissible_b (OpNack q (mkTag t)) (stream_world s) &&
        (idgen (run_op (OpNack q (mkTag t)) (stream_world s)).2 <=? u64_lim)
    | None, None => true
    end
  | _, _ => true
  end.

Fixpoint stream_run_ok_b (evs : list Stream.Event) (s : Stream.Stream) : bool :=
  match evs with
  | [] => true
  | ev :: evs' => stream_event_ok_b ev s && stream_run_ok_b evs' (Stream.step ev s).2
  end.

Lemma stream_event_ok_b_spec ev s : stream_event_ok_b ev s = true -> stream_event_ok ev s.
Proof.
  unfold stream_event_ok_b, stream_event_ok. destruct ev as [a| | | | |]; try done. destruct (Stream.queue s); [|done].
  destruct (Stream.delivery_tag a), (Stream.nack_delivery_tag a); intros Hb; try done;
    apply andb_true_iff in Hb as [Hb1 Hb2]; try (split; [by apply Z.leb_le|by apply Z.ltb_lt]).
  split; [by apply admissible_b_spec|by apply Z.leb_le].
Qed.

Lemma stream_run_ok_b_spec evs s : stream_run_ok_b evs s = true -> stream_run_ok evs s.
Proof.
  revert s. induction evs as [|ev evs IH]; intros s; [done|]. cbn [stream_run_ok_b stream_run_ok].
  intros [He Hok]%andb_true_iff. split; [by apply stream_event_ok_b_spec|by apply IH].
Qed.

Lemma stream_at_least_once_witness :
  exists s', Stream.run stream_events (Stream.consume_stream (solo w_snap None)) = (Done tt, s') /\ StreamInv s' /\
    flights (run_settles stream_events (Stream.consume_stream (solo w_snap None)))
      (stream_world (Stream.consume_stream (solo w_snap None))) (stream_world s') /\
    forall it, it ∈ items s' -> it ∈ items (Stream.consume_stream (solo w_snap None)) \/ is_Ok it = false \/
      exists q d, it = item_of d /\ (flying (stream_world s') q d.1 d.2 \/
        (q, d.1) ∈ run_settles stream_events (Stream.consume_stream (solo w_snap None))).
Proof.
  apply (stream_at_least_once stream_events (Stream.consume_stream (solo w_snap None))).
  - split; [done|exact w_snap_sys].
  - apply stream_run_ok_b_spec. vm_compute. reflexivity.
Defined.

(** What the client reads. *)
Definition item_tag (it : Stream.Item) : Result Code Z :=
  match it with Ok m => Ok (Proto.delivery_tag m) | Err e => Err (code e) end.

Lemma stream_events_read :
  map item_tag (Stream.read (Stream.run stream_events (Stream.consume_stream (solo w_snap None))).2) =
    [Ok 0; Ok 2; Err InvalidArgument] /\
  run_settles stream_events (Stream.consume_stream (solo w_snap None)) =
    [("orders"%string, 0); ("orders"%string, 2); ("orders"%string, 999)].
Proof. split; vm_compute; reflexivity. Qed.
