(* ===== verification/Config.v ===== *)
(** * Config: the daemon's configuration

    src/pelicanqd/src/cluster_config.rs ([ClusterConfig::from_env]) and config.rs
    ([Config::from_env]), over the environment variables, with the string
    functions of the standard library they use. *)

From Stdlib Require Import ZArith Lia.
From stdpp Require Import prelude gmap strings.
From S2P Require Import Prelude Bytes OrdMap Sled Message Bincode Keys QueueManager Snapshot.
From S2P Require Import StateMachine RaftStore Daemon.

(** ** Strings of the standard library, on UTF-8 bytes *)

Definition ascii_space (x : Z) : bool := in_rng 9 13 x || (x =? 32).

(** Third byte of the white space characters that start with E2 80. *)
Definition general_space (z : Z) : bool := in_rng 128 138 z || (z =? 168) || (z =? 169) || (z =? 175).

(** [str::trim_start]: leading characters with the Unicode property White_Space. *)
Fixpoint trim_start (b : bytes) : bytes :=
  match b with
  | x :: b1 =>
    if ascii_space x then trim_start b1 else
    match b1 with
    | y :: b2 =>
      if (x =? 194) && ((y =? 133) || (y =? 160)) then trim_start b2 else
      match b2 with
      | z :: b3 =>
        if ((x =? 225) && (y =? 154) && (z =? 128)) || ((x =? 226) && (y =? 128) && general_space z) ||
           ((x =? 226) && (y =? 129) && (z =? 159)) || ((x =? 227) && (y =? 128) && (z =? 128))
        then trim_start b3 else b
      | [] => b
      end
    | [] => b
    end
  | [] => []
  end.

(** The same from the end, on the reversed bytes. *)
Fixpoint trim_rev (b : bytes) : bytes :=
  match b with
  | x :: b1 =>
    if ascii_space x then trim_rev b1 else
    match b1 with
    | y :: b2 =>
      if (y =? 194) && ((x =? 133) || (x =? 160)) then trim_rev b2 else
      match b2 with
      | z :: b3 =>
        if ((z =? 225) && (y =? 154) && (x =? 128)) || ((z =? 226) && (y =? 128) && general_space x) ||
           ((z =? 226) && (y =? 129) && (x =? 159)) || ((z =? 227) && (y =? 128) && (x =? 128))
        then trim_rev b3 else b
      | [] => b
      end
    | [] => b
    end
  | [] => []
  end.

Definition trim (b : bytes) : bytes := rev (trim_rev (rev (trim_start b))).

(** [str::split(c)] and [str::split_once(c)] at an ASCII character. *)
Fixpoint split_on (c : Z) (b : bytes) : list bytes :=
  match b with
  | [] => [[]]
  | x :: b' =>
    if x =? c then [] :: split_on c b' else
    match split_on c b' with
    | p :: ps => (x :: p) :: ps
    | [] => [[x]]
    end
  end.

Fixpoint split_once (c : Z) (b : bytes) : option (bytes * bytes) :=
  match b with
  | [] => None
  | x :: b' => if x =? c then Some ([], b') else '(p, r) ← split_once c b'; Some (x :: p, r)
  end.

(** [str::parse::<u64>]; an error is the text of the [ParseIntError]. *)
Fixpoint parse_digits (acc : Z) (b : bytes) : Result string Z :=
  match b with
  | [] => Ok acc
  | c :: b' =>
    if negb (in_rng 48 57 c) then Err "invalid digit found in string"%string else
    let v := acc * 10 + (c - 48) in
    if u64_lim <=? v then Err "number too large to fit in target type"%string else parse_digits v b'
  end.

Definition parse_u64 (b : bytes) : Result string Z :=
  match b with
  | [] => Err "cannot parse integer from empty string"%string
  | [c] => if (c =? 43) || (c =? 45) then Err "invalid digit found in string"%string else parse_digits 0 b
  | c :: b' => if c =? 43 then parse_digits 0 b' else parse_digits 0 b
  end.

(** ** The cluster *)

Definition comma : Z := 44.
Definition equals : Z := 61.
Definition at_sign : Z := 64.

(** One entry of PELICANQ_CLUSTER_MEMBERS; an empty one is skipped. *)
Definition parse_member (entry : bytes) : Result string (option NodeConfig) :=
  let entry := trim entry in
  match entry with
  | [] => Ok None
  | _ =>
    match split_once equals entry with
    | None => Err ("invalid cluster member entry (missing '='): " +:+ bytes_str entry)
    | Some (id_addr_part, client_addr) =>
      match split_once at_sign id_addr_part with
      | None => Err ("invalid cluster member entry (missing '@'): " +:+ bytes_str entry)
      | Some (id_part, raft_addr) =>
        match parse_u64 id_part with
        | Err e => Err ("invalid node id in '" +:+ bytes_str entry +:+ "': " +:+ e)
        | Ok id => Ok (Some (mkNodeConfig id (bytes_str raft_addr) (bytes_str client_addr)))
        end
      end
    end
  end.

Fixpoint parse_members (entries : list bytes) (members : list NodeConfig) : Result string (list NodeConfig) :=
  match entries with
  | [] => Ok members
  | entry :: rest =>
    match parse_member entry with
    | Err e => Err e
    | Ok None => parse_members rest members
    | Ok (Some m) => parse_members rest (members ++ [m])
    end
  end.

(** [ClusterConfig::from_env]; [var] is [std::env::var(..).ok()]. *)
Definition cluster_from_env (var : string -> option string) : Result string (option ClusterConfig) :=
  match var "PELICANQ_NODE_ID"%string with
  | None => Ok None
  | Some v =>
    match parse_u64 (str_bytes v) with
    | Err e => Err ("invalid PELICANQ_NODE_ID '" +:+ v +:+ "': " +:+ e)
    | Ok self_id =>
      match var "PELICANQ_CLUSTER_MEMBERS"%string with
      | None => Err "PELICANQ_NODE_ID is set but PELICANQ_CLUSTER_MEMBERS is missing"%string
      | Some members_str =>
        match parse_members (split_on comma (str_bytes members_str)) [] with
        | Err e => Err e
        | Ok members =>
          match members with
          | [] => Err "PELICANQ_CLUSTER_MEMBERS is empty"%string
          | _ =>
            if negb (existsb (fun m => nc_id m =? self_id) members)
            then Err ("self_id " +:+ show self_id +:+ " is not present in PELICANQ_CLUSTER_MEMBERS")
            else Ok (Some (mkCluster self_id members))
          end
        end
      end
    end
  end.

(** ** The daemon *)

Record Config := mkConfig {
  data_dir : string;
  listen_addr : string;
  grpc_addr : string;
  cfg_max_bytes : option Z;
  mqtt_addr : option string;
  cfg_cluster : option ClusterConfig;
}.

(** [Config::from_env]; an error is the text printed before the process exits. *)
Definition config_from_env (var : string -> option string) : Result string Config :=
  let or name dflt := default dflt (var name) in
  let max_bytes := v ← var "PELICANQ_MAX_BYTES"%string;
    match parse_u64 (str_bytes v) with Ok n => Some n | Err _ => None end in
  let mqtt := match var "PELICANQ_MQTT_ADDR"%string with
              | Some v => if bool_decide (v = ""%string) then None else Some v
              | None => Some "127.0.0.1:1883"%string
              end in
  match cluster_from_env var with
  | Err msg => Err ("FATAL: " +:+ msg)
  | Ok cluster =>
    Ok (mkConfig (or "PELICANQ_DATA_DIR" "./data") (or "PELICANQ_LISTEN_ADDR" "127.0.0.1:7070")
          (or "PELICANQ_GRPC_ADDR" "127.0.0.1:7072") max_bytes mqtt cluster)%string
  end.

(** ** Starting a clustered node (main.rs) *)

(** [members.iter().map(|m| m.id).min()]. *)
Fixpoint min_id (ms : list NodeConfig) : option Z :=
  match ms with
  | [] => None
  | m :: ms' => Some (match min_id ms' with Some i => Z.min (nc_id m) i | None => nc_id m end)
  end.

(** [.map(|m| (m.id, Node { .. })).collect::<BTreeMap<_, _>>()]. *)
Definition bootstrap_nodes (ms : list NodeConfig) : gmap Z Node :=
  fold_left (fun acc m => <[nc_id m := mkNode (nc_raft_addr m) (nc_client_addr m)]> acc) ms ∅.

(** The address the node listens on for Raft, and the members it initializes the
    cluster with, if it is the one that does; [None] is the panic of [expect]
    and [unwrap]. *)
Definition start_cluster (is_fresh : bool) (c : ClusterConfig) : option (string * option (gmap Z Node)) :=
  self ← List.find (fun m => nc_id m =? self_id c) (members c);
  lowest_id ← min_id (members c);
  Some (nc_raft_addr self,
        if is_fresh && (self_id c =? lowest_id) then Some (bootstrap_nodes (members c)) else None).
