(* ===== verification/ConfigTheorems.v ===== *)
(** * ConfigTheorems: what the configuration guarantees

    Parsing of the cluster members and the start of a clustered node, with the
    witnesses at the end of the file. *)

From Stdlib Require Import ZArith Lia.
From stdpp Require Import prelude gmap strings.
From S2P Require Import Prelude Bytes OrdMap Sled Message Bincode Keys QueueManager Snapshot.
From S2P Require Import StateMachine RaftStore Daemon Wire Config.

(** ** Splitting and trimming *)

(** The pieces joined with the separator between them. *)
Fixpoint join (c : Z) (ps : list bytes) : bytes :=
  match ps with
  | [] => []
  | [p] => p
  | p :: ps' => p ++ c :: join c ps'
  end.

Lemma split_on_free c p : c ∉ p -> split_on c p = [p].
Proof.
  induction p as [|x p IH]; intros Hc; [done|]. apply not_elem_of_cons in Hc as [Hx Hp]. cbn [split_on].
  apply not_eq_sym, Z.eqb_neq in Hx. rewrite Hx. by rewrite IH.
Qed.

Lemma split_on_app c p b : c ∉ p -> split_on c (p ++ c :: b) = p :: split_on c b.
Proof.
  induction p as [|x p IH]; intros Hc; cbn [app split_on]; [by rewrite Z.eqb_refl|].
  apply not_elem_of_cons in Hc as [Hx Hp]. apply not_eq_sym, Z.eqb_neq in Hx. rewrite Hx. by rewrite IH.
Qed.

Lemma split_on_join c ps : ps <> [] -> Forall (fun p => c ∉ p) ps -> split_on c (join c ps) = ps.
Proof.
  induction ps as [|p ps IH]; intros Hne Hall; [done|]. apply Forall_cons in Hall as [Hp Hall].
  destruct ps as [|p' ps]; [by apply split_on_free|].
  change (join c (p :: p' :: ps)) with (p ++ c :: join c (p' :: ps)). rewrite split_on_app by done. by rewrite IH.
Qed.

Lemma split_once_app c p b : c ∉ p -> split_once c (p ++ c :: b) = Some (p, b).
Proof.
  induction p as [|x p IH]; intros Hc; cbn [app split_once]; [by rewrite Z.eqb_refl|].
  apply not_elem_of_cons in Hc as [Hx Hp]. apply not_eq_sym, Z.eqb_neq in Hx. rewrite Hx. by rewrite IH.
Qed.

(** Bytes that are neither white space nor the start of a multi-byte character. *)
Definition visible (x : Z) : Prop := 33 <= x <= 126.

Lemma trim_start_pad p x b : Forall (fun c => c = 32) p -> visible x -> trim_start (p ++ x :: b) = x :: b.
Proof.
  intros Hp Hx. induction Hp as [|c p -> Hp IH]; cbn [app trim_start]; [|exact IH].
  unfold visible in Hx. unfold ascii_space, in_rng.
  replace ((9 <=? x) && (x <=? 13) || (x =? 32)) with false by lia.
  destruct b as [|y [|z b]]; [done|..];
    replace ((x =? 194) && ((y =? 133) || (y =? 160))) with false by lia; [done|].
  replace (x =? 225) with false by lia. replace (x =? 226) with false by lia. by replace (x =? 227) with false by lia.
Qed.

Lemma trim_rev_pad p x b : Forall (fun c => c = 32) p -> visible x -> trim_rev (p ++ x :: b) = x :: b.
Proof.
  intros Hp Hx. induction Hp as [|c p -> Hp IH]; cbn [app trim_rev]; [|exact IH].
  unfold visible in Hx. unfold ascii_space, general_space, in_rng.
  replace ((9 <=? x) && (x <=? 13) || (x =? 32)) with false by lia.
  destruct b as [|y [|z b]]; [done|..];
    replace ((y =? 194) && ((x =? 133) || (x =? 160))) with false by lia; [done|].
  replace (x =? 128) with false by lia. replace (x =? 159) with false by lia.
  replace ((128 <=? x) && (x <=? 138) || (x =? 168) || (x =? 169) || (x =? 175)) with false by lia.
  by rewrite !andb_false_r.
Qed.

Lemma trim_padded p q b :
  Forall (fun c => c = 32) p -> Forall (fun c => c = 32) q -> b <> [] -> Forall visible b ->
  trim (p ++ b ++ q) = b.
Proof.
  intros Hp Hq Hne Hb. unfold trim. destruct b as [|x b]; [done|].
  apply Forall_cons in Hb as Hb'. destruct Hb' as [Hx _]. cbn [app]. rewrite trim_start_pad by done.
  change (x :: b ++ q) with ((x :: b) ++ q). rewrite rev_app_distr.
  destruct (rev (x :: b)) as [|y r] eqn:Er.
  { apply (f_equal length) in Er. rewrite length_rev in Er. done. }
  assert (visible y) as Hy.
  { rewrite Forall_forall in Hb. apply Hb. rewrite <- (rev_involutive (x :: b)), Er. cbn [rev].
    apply elem_of_app. right. by apply list_elem_of_singleton. }
  rewrite trim_rev_pad by (done || apply Forall_rev; done). rewrite <- Er. apply rev_involutive.
Qed.

(** ** Numbers *)

Lemma parse_digits_chars acc b n : parse_digits acc b = Ok n -> Forall (fun c => 48 <= c <= 57) b.
Proof.
  revert acc. induction b as [|c b IH]; intros acc; cbn [parse_digits]; [constructor|].
  unfold in_rng. destruct (negb _) eqn:Ec; [done|]. destruct (u64_lim <=? _); [done|]. intros Hn.
  constructor; [lia|by eapply IH].
Qed.

Lemma parse_u64_chars b n : parse_u64 b = Ok n -> b <> [] /\ Forall (fun c => c = 43 \/ 48 <= c <= 57) b.
Proof.
  assert (forall l, Forall (fun c => 48 <= c <= 57) l -> Forall (fun c => c = 43 \/ 48 <= c <= 57) l) as Hw.
  { intros l Hl. eapply Forall_impl; [exact Hl|]. auto. }
  unfold parse_u64. destruct b as [|c [|c' b]]; [done|..]; intros Hn; (split; [done|]).
  - destruct ((c =? 43) || (c =? 45)); [done|]. by eapply Hw, parse_digits_chars.
  - destruct (c =? 43) eqn:Ec; [|by eapply Hw, parse_digits_chars].
    apply Z.eqb_eq in Ec as ->. constructor; [auto|]. by eapply Hw, parse_digits_chars.
Qed.

(** ** Members *)

(** A member as it is written: id, Raft address and client address. *)
Definition member_text (id_text : bytes) (m : NodeConfig) : bytes :=
  id_text ++ at_sign :: str_bytes (nc_raft_addr m) ++ equals :: str_bytes (nc_client_addr m).

(** A written entry: the member's text between spaces.  Addresses are visible
    ASCII without commas, and the Raft address has no equals sign. *)
Inductive written (m : NodeConfig) : bytes -> Prop :=
| written_entry id_text p q :
    parse_u64 id_text = Ok (nc_id m) -> Forall (fun c => c = 32) p -> Forall (fun c => c = 32) q ->
    Forall visible (str_bytes (nc_raft_addr m)) -> Forall visible (str_bytes (nc_client_addr m)) ->
    equals ∉ str_bytes (nc_raft_addr m) ->
    comma ∉ str_bytes (nc_raft_addr m) -> comma ∉ str_bytes (nc_client_addr m) ->
    written m (p ++ member_text id_text m ++ q).

Lemma id_free id_text n c : parse_u64 id_text = Ok n -> c <> 43 -> ~ 48 <= c <= 57 -> c ∉ id_text.
Proof.
  intros Hn H43 Hd Hin. apply parse_u64_chars in Hn as [_ Hall]. rewrite Forall_forall in Hall.
  destruct (Hall c Hin); lia.
Qed.

Lemma written_member m entry : written m entry -> parse_member entry = Ok (Some m).
Proof.
  intros [id_text p q Hid Hp Hq Hr Hc Heq _ _]. pose proof (parse_u64_chars _ _ Hid) as [Hne Hall].
  assert (Forall visible (member_text id_text m)) as Hvis.
  { unfold member_text. apply Forall_app. split.
    - eapply Forall_impl; [exact Hall|]. unfold visible. cbn. lia.
    - apply Forall_cons. split; [unfold visible, at_sign; lia|]. apply Forall_app. split; [done|].
      apply Forall_cons. split; [unfold visible, equals; lia|done]. }
  unfold parse_member. rewrite trim_padded; [|done|done|by destruct id_text|done].
  destruct (member_text id_text m) as [|x t] eqn:Et; [by destruct id_text|]. rewrite <- Et. unfold member_text.
  replace (id_text ++ at_sign :: str_bytes (nc_raft_addr m) ++ equals :: str_bytes (nc_client_addr m))
    with ((id_text ++ at_sign :: str_bytes (nc_raft_addr m)) ++ equals :: str_bytes (nc_client_addr m))
    by (by rewrite <- app_assoc).
  rewrite split_once_app.
  2: { rewrite elem_of_app, elem_of_cons. intros [Hin|[Hin|Hin]]; [|done|done].
       eapply id_free in Hin; [done|exact Hid|unfold equals; lia|unfold equals; lia]. }
  rewrite split_once_app by (eapply id_free; [exact Hid|unfold at_sign; lia|unfold at_sign; lia]).
  rewrite Hid, !bytes_str_bytes. by destruct m.
Qed.

Lemma written_comma m entry : written m entry -> comma ∉ entry.
Proof.
  intros [id_text p q Hid Hp Hq _ _ _ Hr Hc].
  assert (forall l, Forall (fun c => c = 32) l -> comma ∉ l) as Hsp.
  { intros l Hl Hin. rewrite Forall_forall in Hl. apply Hl in Hin. done. }
  unfold member_text. rewrite !elem_of_app, elem_of_cons, elem_of_app, elem_of_cons.
  intros [Hin|[[Hin|[Hin|[Hin|[Hin|Hin]]]]|Hin]]; try done; [by apply Hsp in Hin| |by apply Hsp in Hin].
  eapply id_free in Hin; [done|exact Hid|unfold comma; lia|unfold comma; lia].
Qed.

Lemma parse_members_written ms entries acc :
  Forall2 written ms entries -> parse_members entries acc = Ok (acc ++ ms).
Proof.
  intros Hall. revert acc. induction Hall as [|m entry ms entries Hm Hall IH]; intros acc; cbn [parse_members].
  - by rewrite app_nil_r.
  - rewrite (written_member m entry Hm), IH. by rewrite <- app_assoc.
Qed.

(** A cluster written as a comma-separated list of id, Raft address and
    client address is read back: with a node id among them, the configuration
    consists of that id and exactly these members in order, whatever spaces
    surround the entries. *)
Theorem cluster_members_parsed var v self text entries ms :
  var "PELICANQ_NODE_ID"%string = Some v -> parse_u64 (str_bytes v) = Ok self ->
  var "PELICANQ_CLUSTER_MEMBERS"%string = Some text -> str_bytes text = join comma entries ->
  Forall2 written ms entries -> ms <> [] -> self ∈ map nc_id ms ->
  cluster_from_env var = Ok (Some (mkCluster self ms)).
Proof.
  intros Hv Hself Ht Htext Hall Hne Hin. unfold cluster_from_env. rewrite Hv, Hself, Ht, Htext.
  rewrite split_on_join.
  - rewrite (parse_members_written ms entries []) by done. cbn [app]. destruct ms as [|m ms]; [done|].
    replace (existsb (fun m => nc_id m =? self) (m :: ms)) with true; [done|]. symmetry.
    apply existsb_exists. apply list_elem_of_fmap in Hin as (x & -> & Hx). exists x.
    split; [by apply list_elem_of_In|]. apply Z.eqb_refl.
  - destruct Hall; done.
  - clear -Hall. induction Hall; constructor; [by eapply written_comma|done].
Qed.

(** ** Starting a node *)

Lemma cluster_from_env_self var c :
  cluster_from_env var = Ok (Some c) -> exists m, m ∈ members c /\ nc_id m = self_id c.
Proof.
  unfold cluster_from_env. destruct (var _) as [v|]; [|done]. destruct (parse_u64 _) as [self|]; [|done].
  destruct (var _) as [text|]; [|done]. destruct (parse_members _ _) as [ms|]; [|done].
  destruct ms as [|m ms]; [done|]. destruct (existsb _ (m :: ms)) eqn:Ex; cbn [negb]; [|done].
  intros [= <-]. apply existsb_exists in Ex as (x & Hx & Hid). exists x.
  split; [by apply list_elem_of_In|by apply Z.eqb_eq].
Qed.

Lemma min_id_spec ms i : min_id ms = Some i -> i ∈ map nc_id ms /\ Forall (fun m => i <= nc_id m) ms.
Proof.
  revert i. induction ms as [|m ms IH]; intros i; [done|]. cbn [min_id map]. intros [= <-].
  destruct (min_id ms) as [j|] eqn:Ej.
  - destruct (IH j eq_refl) as [Hin Hall]. split.
    + destruct (Z.min_spec (nc_id m) j) as [[_ ->]|[_ ->]]; [left|by right].
    + constructor; [lia|]. eapply Forall_impl; [exact Hall|]. cbn. lia.
  - destruct ms; [|done]. split; [left|]. constructor; [lia|constructor].
Qed.

Lemma min_id_some m ms : is_Some (min_id (m :: ms)).
Proof. eexists. reflexivity. Qed.

Lemma bootstrap_nodes_dom ms i : is_Some (bootstrap_nodes ms !! i) <-> i ∈ map nc_id ms.
Proof.
  unfold bootstrap_nodes.
  enough (forall acc : gmap Z Node, is_Some (fold_left (fun acc m => <[nc_id m := mkNode (nc_raft_addr m) (nc_client_addr m)]> acc)
    ms acc !! i) <-> i ∈ map nc_id ms \/ is_Some (acc !! i)) as Hgen.
  { rewrite Hgen, lookup_empty. split; [intros [?|[? [=]]]; done|auto]. }
  induction ms as [|m ms IH]; intros acc; cbn [fold_left map].
  - rewrite elem_of_nil. tauto.
  - rewrite IH, elem_of_cons, lookup_insert_is_Some. destruct (decide (nc_id m = i)); naive_solver.
Qed.

(** What [main] looks up in a configuration that parsed. *)
Lemma start_cluster_finds var c :
  cluster_from_env var = Ok (Some c) ->
  exists self i, List.find (fun m => nc_id m =? self_id c) (members c) = Some self /\ self ∈ members c /\
    nc_id self = self_id c /\ min_id (members c) = Some i.
Proof.
  intros Hc. destruct (cluster_from_env_self var c Hc) as (m & Hm & Hid).
  destruct (List.find (fun m => nc_id m =? self_id c) (members c)) as [self|] eqn:Ef.
  2: { apply list_elem_of_In in Hm. apply (List.find_none _ _ Ef) in Hm. apply Z.eqb_neq in Hm. done. }
  apply List.find_some in Ef as [Hs Hsid]. apply Z.eqb_eq in Hsid. apply list_elem_of_In in Hs.
  destruct (min_id (members c)) as [i|] eqn:Ei.
  2: { destruct (members c); [by apply elem_of_nil in Hm|done]. }
  by exists self, i.
Qed.

(** C39: A node that accepts its configuration finds its own Raft address, and of
    the nodes that accept the same member list exactly the one with the lowest id
    initializes a fresh cluster, with every member in the membership; a node with
    existing Raft state never does. *)
Theorem cluster_start var c :
  cluster_from_env var = Ok (Some c) ->
  exists addr boot, start_cluster true c = Some (addr, boot) /\
    (exists m, m ∈ members c /\ nc_id m = self_id c /\ addr = nc_raft_addr m) /\
    start_cluster false c = Some (addr, None) /\
    (is_Some boot <-> Forall (fun m => self_id c <= nc_id m) (members c)) /\
    (forall nodes, boot = Some nodes -> forall i, is_Some (nodes !! i) <-> i ∈ map nc_id (members c)).
Proof.
  intros Hc. destruct (start_cluster_finds var c Hc) as (self & i & Ef & Hs & Hsid & Ei). unfold start_cluster. rewrite Ef, Ei.
  destruct (min_id_spec _ _ Ei) as [Hin Hall]. cbn [mbind option_bind andb].
  eexists _, _. split; [reflexivity|]. split_and!; [eauto|reflexivity| |].
  - destruct (self_id c =? i) eqn:E.
    + apply Z.eqb_eq in E as ->. split; [done|eauto].
    + apply Z.eqb_neq in E. split; [by intros [? [=]]|]. intros Hle. exfalso. apply E.
      apply list_elem_of_fmap in Hin as (x & -> & Hx). rewrite Forall_forall in Hle, Hall.
      pose proof (Hle x Hx). pose proof (Hall self Hs). lia.
  - intros nodes Hn. destruct (self_id c =? i); [|done]. injection Hn as <-. intros j. apply bootstrap_nodes_dom.
Qed.

(** ** Witnesses *)

Definition demo_members : list NodeConfig :=
  [mkNodeConfig 1 "10.0.0.1:7071" "10.0.0.1:7070"; mkNodeConfig 2 "10.0.0.2:7071" "10.0.0.2:7070"].

Definition demo_var (name : string) : option string :=
  if bool_decide (name = "PELICANQ_NODE_ID"%string) then Some "2"%string else
  if bool_decide (name = "PELICANQ_CLUSTER_MEMBERS"%string)
  then Some "1@10.0.0.1:7071=10.0.0.1:7070, 2@10.0.0.2:7071=10.0.0.2:7070"%string else None.

Lemma cluster_members_parsed_witness : cluster_from_env demo_var = Ok (Some (mkCluster 2 demo_members)).
Proof.
  apply (cluster_members_parsed demo_var "2" 2 "1@10.0.0.1:7071=10.0.0.1:7070, 2@10.0.0.2:7071=10.0.0.2:7070"
    [str_bytes "1@10.0.0.1:7071=10.0.0.1:7070"; str_bytes " 2@10.0.0.2:7071=10.0.0.2:7070"] demo_members).
  - reflexivity.
  - reflexivity.
  - reflexivity.
  - reflexivity.
  - constructor; [|constructor; [|constructor]].
    + exact (written_entry (mkNodeConfig 1 "10.0.0.1:7071" "10.0.0.1:7070") [49] [] [] eq_refl
        ltac:(done) ltac:(done) ltac:(by repeat constructor) ltac:(by repeat constructor)
        ltac:(by apply (bool_decide_unpack _)) ltac:(by apply (bool_decide_unpack _)) ltac:(by apply (bool_decide_unpack _))).
    + exact (written_entry (mkNodeConfig 2 "10.0.0.2:7071" "10.0.0.2:7070") [50] [32] [] eq_refl
        ltac:(by repeat constructor) ltac:(done) ltac:(by repeat constructor) ltac:(by repeat constructor)
        ltac:(by apply (bool_decide_unpack _)) ltac:(by apply (bool_decide_unpack _)) ltac:(by apply (bool_decide_unpack _))).
  - discriminate.
  - apply (bool_decide_unpack _). reflexivity.
Defined.

Lemma cluster_start_witness :
  exists addr boot, start_cluster true (mkCluster 2 demo_members) = Some (addr, boot) /\
    start_cluster false (mkCluster 2 demo_members) = Some (addr, None).
Proof.
  destruct (cluster_start demo_var (mkCluster 2 demo_members)) as (addr & boot & Hs & _ & Hf & _); [reflexivity|].
  exists addr, boot. split; [exact Hs|exact Hf].
Defined.
