(* ===== verification/Main.v ===== *)
(** * Main: starting the daemon

    [start_node] of src/pelicanq-raft/src/lib.rs and [main] of
    src/pelicanqd/src/main.rs up to the sockets: from the environment variables
    and the databases on disk to the state the front ends serve. *)

From Stdlib Require Import ZArith Lia.
From stdpp Require Import prelude gmap strings.
From S2P Require Import Prelude Bytes OrdMap Sled Message Bincode Keys QueueManager Snapshot.
From S2P Require Import StateMachine RaftStore Daemon Config.

Section Main.
Context `{!Sled, !Bincode, !Environment, !BuildProfile, !RaftTypes, !OpenRaft}.

(** openraft's [Raft::new] over the store, and [Raft::initialize]. *)
Class RaftStart := {
  raft_new : Z -> RaftStoreInner -> Result string raft_t;
  raft_initialize : gmap Z Node -> raft_t -> RaftStoreInner -> Result string unit * (raft_t * RaftStoreInner);
}.

Context `{!RaftStart}.

(** What the process finds on disk: the result of [sled::open] at a path, and
    whether a directory is missing, unreadable or empty. *)
Record Disk := mkDisk { sled_open : string -> Result string db_t; is_fresh : string -> bool }.

(** [data_dir.join("raft")]. *)
Definition raft_path (data_dir : string) : string := data_dir +:+ "/raft".

(** [start_node]; the Raft server is spawned on the address given. *)
Definition start_node (node_id : Z) (data_dir : string) (disk : Disk) (e : Env) :
    Outcome string (raft_t * RaftStoreInner) :=
  match open_store (sled_open disk data_dir) (sled_open disk (raft_path data_dir)) e with
  | Done st =>
    match raft_new node_id st with Ok r => Done (r, st) | Err msg => Fail msg end
  | Fail err => Fail (PelicanError_display err)
  | Panic => Panic
  | OutOfFuel => OutOfFuel
  end.

(** The state served, and the addresses of the four servers. *)
Record Started := mkStarted {
  state : AppState;
  http_on : string;
  grpc_on : string;
  mqtt_on : option string;
  raft_on : option string;
}.

(** The cluster branch of [main]: find the own address, start the node, and
    initialize a fresh cluster from the member with the lowest id; a failed
    initialization is only logged. *)
Definition main_cluster (cfg : Config) (c : ClusterConfig) (disk : Disk) (e : Env) : Outcome string Started :=
  match start_cluster (is_fresh disk (raft_path (data_dir cfg))) c with
  | None => Panic
  | Some (self_raft_addr, boot) =>
    match start_node (self_id c) (data_dir cfg) disk e with
    | Done (r, st) =>
      let '(r', st') := match boot with
                        | Some nodes => (raft_initialize nodes r st).2
                        | None => (r, st)
                        end in
      Done (mkStarted (mkApp (Flock (mkFlock r' st')) (Some c)) (listen_addr cfg) (grpc_addr cfg) (mqtt_addr cfg)
              (Some self_raft_addr))
    | Fail _ | Panic => Panic
    | OutOfFuel => OutOfFuel
    end
  end.

(** The Solo branch. *)
Definition main_solo (cfg : Config) (disk : Disk) (e : Env) : Outcome string Started :=
  match open (sled_open disk (data_dir cfg)) (cfg_max_bytes cfg) e with
  | (Done _, Some w) =>
    Done (mkStarted (mkApp (Solo (mkMutex w false)) None) (listen_addr cfg) (grpc_addr cfg) (mqtt_addr cfg) None)
  | (OutOfFuel, _) => OutOfFuel
  | _ => Panic
  end.

(** [main] until its servers run; [Fail] is the exit with a message on a malformed
    cluster configuration, [Panic] the failure of an [expect]. *)
Definition main (var : string -> option string) (disk : Disk) (e : Env) : Outcome string Started :=
  match config_from_env var with
  | Err msg => Fail msg
  | Ok cfg =>
    match cfg_cluster cfg with
    | Some c => main_cluster cfg c disk e
    | None => main_solo cfg disk e
    end
  end.

(** The final [select!] ends when one of its branches does; without an MQTT
    address that branch has nothing to wait for. *)
Definition select_ends_at_once (s : Started) : bool :=
  match mqtt_on s with Some _ => false | None => true end.
End Main.
