(* ===== verification/MainTheorems.v ===== *)
(** * MainTheorems: what a restart of the daemon guarantees *)

From Stdlib Require Import ZArith Lia.
From stdpp Require Import prelude gmap strings.
From S2P Require Import Prelude Bytes OrdMap Sled Message Bincode Keys QueueManager Store Spec Engine.
From S2P Require Import Invariant Refinement Maintenance Retention Fsck Holdings System SystemDemo Snapshot.
From S2P Require Import StateMachine RaftStore RaftLog RaftMachine RaftDemo Daemon Modes Wire Http HttpProofs.
From S2P Require Import DaemonDemo Config ConfigTheorems Main.

Section Claims.
Context `{!Sled, !SledLaws, !SledReliable, !Bincode, !BincodeLaws,
          !Environment, !EnvironmentLaws, !BuildProfile, !RaftTypes, !OpenRaft, !RaftStart}.
Implicit Types w : World.

Definition set_limit (max : option Z) w : World :=
  mkWorld (mkQM (db (qm w)) (current_bytes (qm w)) max) (env w).

Lemma SysInv_limit max w : SysInv w -> SysInv (set_limit max w).
Proof. by intros [? ? ? ? ? ?]. Qed.

(** C27: A Solo daemon started again on its data directory, after sled has
    flushed its database and in whatever state its queues are, serves a sound
    engine: the start succeeds with the limit the environment gives, every queue is
    declared with its policy, holds exactly the messages it held and has nothing in
    flight: the messages that were are ready again.  Nothing is claimed of writes
    that had not been flushed when the process died. *)
Theorem daemon_restart var cfg disk e d w :
  config_from_env var = Ok cfg -> cfg_cluster cfg = None ->
  SysInv w -> total_bytes (store w) < u64_lim ->
  flush (db (qm w)) = (Ok tt, d) -> sled_open disk (data_dir cfg) = Ok d ->
  exists w' s, main var disk e = Done s /\ state s = solo w' None /\ max_bytes (qm w') = cfg_max_bytes cfg /\
    (forall q, declared (store w') q = declared (store w) q /\ policy (store w') q = policy (store w) q) /\
    (idgen w' <= u64_lim -> SysInv w' /\
       (forall q, safe_name q = true -> content (abs (store w') q) ≡ₚ content (abs (store w) q)) /\
       (forall q, declared (store w) q = true -> a_inflight (abs (store w') q) = ∅)).
Proof.
  intros Hcfg Hcl HS Htot Hfl Hdisk. set (w1 := set_limit (cfg_max_bytes cfg) w).
  assert (SysInv w1) as HS1 by by apply SysInv_limit. apply flush_law in Hfl.
  destruct (opened_ok e d w1 HS1 Hfl Htot) as (w' & Ho & Hok).
  assert (contents (view d) = store w) as HSt by (unfold store; by rewrite Hfl).
  assert (v_idgen (view d) = idgen w) as Hgt by (unfold idgen; by rewrite Hfl).
  destruct (open_sim d (cfg_max_bytes cfg) e) as (w2 & Ho2 & Hpost); [rewrite HSt, Hgt; apply HS|by rewrite HSt|].
  change (max_bytes (qm w1)) with (cfg_max_bytes cfg) in Ho. rewrite Ho in Ho2. injection Ho2 as <-.
  unfold open_post in Hpost. change (store (mkWorld _ _)) with (contents (view d)) in Hpost. rewrite HSt in Hpost.
  destruct Hpost as (_ & Hm & Hd & Hp & _ & _ & Hrec). exists w'.
  unfold main. rewrite Hcfg, Hcl. unfold main_solo. rewrite Hdisk, Ho.
  eexists. split_and!; [reflexivity..|done|by split|]. intros Hn. specialize (Hok Hn). split_and!.
  - apply Hok.
  - intros q Hq. pose proof (ok_balance _ _ _ Hok q Hq) as Hb. cbn in Hb. by rewrite !app_nil_r in Hb.
  - intros q Hq. destruct (Hrec Hn) as [_ Hr]. destruct (Hr q Hq) as (ids & _ & _ & ->). done.
Qed.

Lemma config_cluster var cfg : config_from_env var = Ok cfg -> cluster_from_env var = Ok (cfg_cluster cfg).
Proof. unfold config_from_env. destruct (cluster_from_env var); [|done]. by intros [= <-]. Qed.

(** In cluster mode the storage limit of the environment is ignored: a node
    restarted on sound databases has no limit, whatever PELICANQ_MAX_BYTES says. *)
Theorem cluster_limit_ignored var cfg c disk e d dr r :
  config_from_env var = Ok cfg -> cfg_cluster cfg = Some c ->
  Inv (contents (view d)) (v_idgen (view d)) -> total_bytes (contents (view d)) < u64_lim ->
  sled_open disk (data_dir cfg) = Ok d -> sled_open disk (raft_path (data_dir cfg)) = Ok dr ->
  is_fresh disk (raft_path (data_dir cfg)) = false -> (forall st, raft_new (self_id c) st = Ok r) ->
  exists s st, main var disk e = Done s /\ state s = mkApp (Flock (mkFlock r st)) (Some c) /\
    max_bytes (qm (state_machine st)) = None.
Proof.
  intros Hcfg Hcl HI Htot Hd Hdr Hfresh Hraft. pose proof (config_cluster _ _ Hcfg) as Hc. rewrite Hcl in Hc.
  destruct (start_cluster_finds var c Hc) as (self & i & Ef & _ & _ & Ei).
  destruct (open_store_sim d dr e HI Htot) as (st & Hop & _ & _ & Hpost).
  unfold main. rewrite Hcfg, Hcl. unfold main_cluster, start_cluster. rewrite Ef, Ei, Hfresh. cbn.
  unfold start_node. rewrite Hd, Hdr, Hop, Hraft. eexists _, st. split_and!; [done..|]. apply Hpost.
Qed.

(** An empty PELICANQ_MQTT_ADDR, which turns MQTT off, ends the daemon at once. *)
Theorem mqtt_off_ends_daemon var disk e s :
  var "PELICANQ_MQTT_ADDR"%string = Some ""%string -> main var disk e = Done s -> select_ends_at_once s = true.
Proof.
  intros Hv. unfold main. destruct (config_from_env var) as [cfg|] eqn:Hc; [|done].
  assert (mqtt_addr cfg = None) as Hm.
  { unfold config_from_env in Hc. rewrite Hv in Hc. destruct (cluster_from_env var); [|done].
    injection Hc as <-. reflexivity. }
  destruct (cfg_cluster cfg) as [c|].
  - unfold main_cluster. destruct (start_cluster _ c) as [[a boot]|]; [|done].
    destruct (start_node _ _ _ _) as [[r st]| | |]; try done.
    destruct (match boot with Some nodes => _ | None => _ end) as [r' st']. intros [= <-].
    unfold select_ends_at_once. cbn. by rewrite Hm.
  - unfold main_solo. destruct (open _ _ _) as [[] [w|]]; try done. intros [= <-].
    unfold select_ends_at_once. cbn. by rewrite Hm.
Qed.
End Claims.

Import DaemonDemo.

(** ** Witness *)

#[local] Instance DemoStart : RaftStart :=
  {| raft_new _ _ := Ok (false : raft_t); raft_initialize _ r st := (Ok tt, (true, st)) |}.

Definition demo_env (name : string) : option string :=
  if bool_decide (name = "PELICANQ_MAX_BYTES"%string) then Some "1000000"%string else None.
Definition demo_config : Config :=
  mkConfig "./data" "127.0.0.1:7070" "127.0.0.1:7072" (Some 1000000) (Some "127.0.0.1:1883"%string) None.
Definition demo_disk : Disk := mkDisk (fun _ => Ok (db (qm w_snap))) (fun _ => true).

Lemma daemon_restart_witness :
  exists w' s, main demo_env demo_disk (env w_snap) = Done s /\ state s = solo w' None /\
    max_bytes (qm w') = cfg_max_bytes demo_config /\
    (forall q, declared (store w') q = declared (store w_snap) q /\ policy (store w') q = policy (store w_snap) q) /\
    (idgen w' <= u64_lim -> SysInv w' /\
       (forall q, safe_name q = true -> content (abs (store w') q) ≡ₚ content (abs (store w_snap) q)) /\
       (forall q, declared (store w_snap) q = true -> a_inflight (abs (store w') q) = ∅)).
Proof.
  apply (daemon_restart demo_env demo_config demo_disk (env w_snap) (db (qm w_snap)) w_snap).
  - reflexivity.
  - reflexivity.
  - exact w_snap_sys.
  - vm_compute. reflexivity.
  - reflexivity.
  - reflexivity.
Defined.

