(* ===== verification/Network.v ===== *)
(** * Network: Raft calls between nodes

    src/pelicanq-raft/src/network.rs: a client that posts a request as JSON to the
    node's Raft address and reads a JSON result back, and the server that answers
    on three routes.  openraft's calls, serde_json and the transport are
    parameters; whether a request or its response gets through is an input. *)

From Stdlib Require Import ZArith Lia.
From stdpp Require Import prelude gmap strings.
From S2P Require Import Prelude Bytes OrdMap Sled Message Bincode Keys QueueManager Snapshot.
From S2P Require Import StateMachine RaftStore Daemon.

Module Network.

(** openraft's calls between nodes, on a Raft instance. *)
Class RaftRpc := {
  instance : Type;
  AppendEntriesRequest : Type;
  AppendEntriesResponse : Type;
  VoteRequest : Type;
  VoteResponse : Type;
  InstallSnapshotRequest : Type;
  InstallSnapshotResponse : Type;
  RaftError : Type;
  InstallSnapshotError : Type;
  raft_append_entries : AppendEntriesRequest -> instance -> Result RaftError AppendEntriesResponse * instance;
  raft_vote : VoteRequest -> instance -> Result RaftError VoteResponse * instance;
  raft_install_snapshot : InstallSnapshotRequest -> instance ->
    Result InstallSnapshotError InstallSnapshotResponse * instance;
}.

(** What axum answers to a body its [Json] extractor rejects, and to a path that
    is not routed. *)
Class Axum := { rejection : string -> bytes; not_found : bytes }.

(** [RPCError], with the text of a network error; the target of a remote error is
    always the literal 0. *)
Inductive RPCError (E : Type) :=
| NetworkError (text : string)
| RemoteError (target : Z) (source : E).
Arguments NetworkError {E}.
Arguments RemoteError {E}.

(** What becomes of a request: it is answered, it is not sent, or it is handled
    and its response is lost. *)
Inductive Delivery := Delivered | NotSent (text : string) | ResponseLost (text : string).

Definition APPEND_ENTRIES : string := "/raft-append-entries".
Definition VOTE : string := "/raft-vote".
Definition SNAPSHOT : string := "/raft-snapshot".

Section Network.
Context `{!RaftRpc, !Axum}.
Context `{!Json AppendEntriesRequest, !Json VoteRequest, !Json InstallSnapshotRequest}.
Context `{!Json (Result RaftError AppendEntriesResponse), !Json (Result RaftError VoteResponse),
          !Json (Result InstallSnapshotError InstallSnapshotResponse)}.

(** ** The server *)

Definition handle_append_entries (req : AppendEntriesRequest) (raft : instance) := raft_append_entries req raft.
Definition handle_vote (req : VoteRequest) (raft : instance) := raft_vote req raft.
Definition handle_snapshot (req : InstallSnapshotRequest) (raft : instance) := raft_install_snapshot req raft.

(** The [Json] extractor and the [Json] response around a handler; a result that
    does not serialize is answered with its error text. *)
Definition json_handler {Req Resp} `{!Json Req, !Json Resp} (handler : Req -> instance -> Resp * instance)
    (body : bytes) (raft : instance) : bytes * instance :=
  match from_slice body with
  | Err e => (rejection e, raft)
  | Ok req => let '(resp, raft') := handler req raft in
    (match to_vec resp with Ok b => b | Err e => str_bytes e end, raft')
  end.

(** The router of [run_server]. *)
Definition run_server (uri : string) (body : bytes) (raft : instance) : bytes * instance :=
  if bool_decide (uri = APPEND_ENTRIES) then json_handler handle_append_entries body raft
  else if bool_decide (uri = VOTE) then json_handler handle_vote body raft
  else if bool_decide (uri = SNAPSHOT) then json_handler handle_snapshot body raft
  else (not_found, raft).

(** ** The client *)

(** The nodes that listen, by their Raft address. *)
Definition Net : Type := gmap string instance.

Record Client := mkClient { addr : string }.

Definition new_client (target : Z) (node : Node) : Client := mkClient (raft_addr node).

(** [post_json_raw]: the text of the response; an address nobody listens on
    refuses the connection. *)
Definition post_json_raw {Req} `{!Json Req} (c : Client) (d : Delivery) (uri : string) (req : Req) (net : Net) :
    Result string bytes * Net :=
  match to_vec req with
  | Err e => (Err e, net)
  | Ok body =>
    match d, net !! addr c with
    | NotSent e, _ => (Err e, net)
    | _, None => (Err "connection refused"%string, net)
    | Delivered, Some raft => let '(resp, raft') := run_server uri body raft in (Ok resp, <[addr c := raft']> net)
    | ResponseLost e, Some raft => let '(_, raft') := run_server uri body raft in (Err e, <[addr c := raft']> net)
    end
  end.

(** The three calls share their shape: post, parse the result, name its error. *)
Definition call {Req E A} `{!Json Req, !Json (Result E A)} (uri : string) (c : Client) (d : Delivery) (rpc : Req)
    (net : Net) : Result (RPCError E) A * Net :=
  let '(r, net') := post_json_raw c d uri rpc net in
  (match r with
   | Err e => Err (NetworkError e)
   | Ok body =>
     match from_slice (A := Result E A) body with
     | Err e => Err (NetworkError e)
     | Ok (Ok a) => Ok a
     | Ok (Err e) => Err (RemoteError 0 e)
     end
   end, net').

Definition append_entries (c : Client) (d : Delivery) (rpc : AppendEntriesRequest) (net : Net) :
    Result (RPCError RaftError) AppendEntriesResponse * Net := call APPEND_ENTRIES c d rpc net.
Definition install_snapshot (c : Client) (d : Delivery) (rpc : InstallSnapshotRequest) (net : Net) :
    Result (RPCError InstallSnapshotError) InstallSnapshotResponse * Net := call SNAPSHOT c d rpc net.
Definition vote (c : Client) (d : Delivery) (rpc : VoteRequest) (net : Net) :
    Result (RPCError RaftError) VoteResponse * Net := call VOTE c d rpc net.
End Network.
End Network.
