(* ===== verification/NetworkTheorems.v ===== *)
(** * NetworkTheorems: a call over the network is the call on the remote node *)

From Stdlib Require Import ZArith Lia.
From stdpp Require Import prelude gmap strings.
From S2P Require Import Prelude Bytes OrdMap Sled Message Bincode Keys QueueManager Snapshot.
From S2P Require Import StateMachine RaftStore Daemon Network.

Import Network.

Section Claims.
Context `{!RaftRpc, !Axum}.
Context `{!Json AppendEntriesRequest, !Json VoteRequest, !Json InstallSnapshotRequest}.
Context `{!Json (Result RaftError AppendEntriesResponse), !Json (Result RaftError VoteResponse),
          !Json (Result InstallSnapshotError InstallSnapshotResponse)}.

(** The result of a remote call as its caller sees it. *)
Definition remote {E A} (r : Result E A) : Result (RPCError E) A :=
  match r with Ok a => Ok a | Err e => Err (RemoteError 0 e) end.

(** What a call of [handler] over the network does, depending on its delivery. *)
Definition as_remote {Req E A} `{!Json Req, !Json (Result E A)} (handler : Req -> instance -> Result E A * instance)
    (client : Client -> Delivery -> Req -> Net -> Result (RPCError E) A * Net) (c : Client) (net : Net) : Prop :=
  forall rpc, json_ok rpc ->
  match net !! addr c with
  | None => forall d, exists text, client c d rpc net = (Err (NetworkError text), net)
  | Some raft =>
    let '(res, raft') := handler rpc raft in
    (json_ok res -> client c Delivered rpc net = (remote res, <[addr c := raft']> net)) /\
    (forall text, client c (NotSent text) rpc net = (Err (NetworkError text), net)) /\
    (forall text, client c (ResponseLost text) rpc net = (Err (NetworkError text), <[addr c := raft']> net))
  end.

Lemma call_as_remote {Req E A} `{!Json Req, !Json (Result E A)} uri
    (handler : Req -> instance -> Result E A * instance) c net :
  (forall body raft, run_server uri body raft = json_handler handler body raft) ->
  as_remote handler (call uri) c net.
Proof.
  intros Hroute rpc (body & Hto & Hfrom). unfold call, post_json_raw. rewrite Hto.
  destruct (net !! addr c) as [raft|].
  2: { intros []; eauto. }
  rewrite Hroute. unfold json_handler. rewrite Hfrom. destruct (handler rpc raft) as [res raft'].
  split_and!; [|done..]. intros (b & Hb & Hfb). rewrite Hb, Hfb. by destruct res.
Qed.

(** C19: Raft calls over the network are calls on the addressed node: when request
    and result survive JSON, each of the three client calls returns what the
    openraft call returns on the node listening at the target's Raft address, its
    error as a remote error, and changes that node alone exactly as the call does;
    a request that is not sent or finds nobody listening changes nothing and is a
    network error; and a lost response is a network error too although the remote
    node has handled the request. *)
Theorem remote_calls target node net :
  as_remote raft_append_entries append_entries (new_client target node) net /\
  as_remote raft_vote vote (new_client target node) net /\
  as_remote raft_install_snapshot install_snapshot (new_client target node) net.
Proof. split_and!; by apply call_as_remote. Qed.
End Claims.

(** ** Witness *)

(** A Raft instance that counts, and integers as eight bytes. *)
Module NetworkDemo.
#[export] Instance CountingRaft : RaftRpc := {|
  instance := Z; AppendEntriesRequest := Z; AppendEntriesResponse := Z; VoteRequest := Z; VoteResponse := Z;
  InstallSnapshotRequest := Z; InstallSnapshotResponse := Z; RaftError := Z; InstallSnapshotError := Z;
  raft_append_entries n r := if n <=? r then (Err r, r) else (Ok n, n);
  raft_vote n r := (Ok (r + n), r);
  raft_install_snapshot n r := (Ok n, n) |}.
#[export] Instance PlainAxum : Axum := {| rejection e := str_bytes e; not_found := [] |}.
#[export] Instance json_int : Json Z :=
  {| to_vec z := Ok (be_bytes 8 z); from_slice b := Ok (from_be b) |}.
#[export] Instance json_result : Json (Result Z Z) := {|
  to_vec r := Ok (match r with Ok z => 1 :: be_bytes 8 z | Err z => 0 :: be_bytes 8 z end);
  from_slice b := match b with
                  | 1 :: b' => Ok (Ok (from_be b'))
                  | 0 :: b' => Ok (Err (from_be b'))
                  | _ => Err "unexpected value"%string
                  end |}.

Definition peer : Node := mkNode "10.0.0.2:7071" "10.0.0.2:7070".
Definition net_demo : Net := <["10.0.0.2:7071"%string := 5 : instance]> ∅.
End NetworkDemo.

Import NetworkDemo.

(** An accepted and a rejected call on the peer. *)
Lemma remote_calls_witness :
  append_entries (new_client 2 peer) Delivered (9 : AppendEntriesRequest) net_demo =
    (Ok (9 : AppendEntriesResponse), <["10.0.0.2:7071"%string := 9 : instance]> net_demo) /\
  append_entries (new_client 2 peer) Delivered (3 : AppendEntriesRequest) net_demo =
    (Err (RemoteError 0 (5 : RaftError)), <["10.0.0.2:7071"%string := 5 : instance]> net_demo).
Proof.
  destruct (remote_calls 2 peer net_demo) as [Ha _]. split.
  - refine (proj1 (Ha 9 _) _); eexists; split; reflexivity.
  - refine (proj1 (Ha 3 _) _); eexists; split; reflexivity.
Defined.
