(* ===== verification/Mqtt.v ===== *)
(** * Mqtt: the MQTT front end

    src/pelicanqd/src/mqtt/handler.rs.  A connection is a state machine over the
    application state: packets of the client, ticks of the subscription pollers
    (one task per subscribed queue, each holding at most one delivery while the
    channel is full), and deliveries taken from the channel and written to the
    client. *)

From Stdlib Require Import ZArith Lia.
From stdpp Require Import prelude gmap strings.
From S2P Require Import Prelude Bytes OrdMap Sled Message Bincode Keys QueueManager Snapshot.
From S2P Require Import StateMachine RaftStore Daemon.

Module Mqtt.

(** ** Packets *)

Inductive QoS := AtMostOnce | AtLeastOnce | ExactlyOnce.
Definition qos_u8 (q : QoS) : Z := match q with AtMostOnce => 0 | AtLeastOnce => 1 | ExactlyOnce => 2 end.

Inductive ReasonCode := Success (q : QoS) | Failure.

(** The packets the handler reads or writes; the others are ignored. *)
Inductive Packet :=
| Connect
| ConnAck
| Publish (topic : string) (qos : QoS) (pkid : Z) (payload : bytes)
| PubAck (pkid : Z)
| Subscribe (pkid : Z) (filters : list (string * QoS))
| SubAck (pkid : Z) (return_codes : list ReasonCode)
| Unsubscribe (pkid : Z) (topics : list string)
| UnsubAck (pkid : Z)
| PingReq
| PingResp
| Disconnect
| OtherPacket.

(** [MqttOutgoing::Incoming]. *)
Record Outgoing := mkOut { out_queue : string; out_tag : DeliveryTag; out_payload : bytes }.

Definition has_wildcard (filter : string) : bool :=
  existsb (fun c => (c =? 43) || (c =? 35)) (str_bytes filter).

Section Mqtt.
Context `{!Sled, !Bincode, !Environment, !BuildProfile, !RaftTypes, !OpenRaft}.

Abbreviation AM := (M AppState Empty_set).

(** ** Engine helpers *)

Definition declare_queue (queue : string) : AM bool :=
  on_engine
    (let* r := locked (declare_queue queue) in ret (match r with Ok _ => true | Err _ => false end))
    (let* wr := client_write (DeclareQueue queue default_policy) in
     ret (match wr with
          | WOk (RDeclareQueue (Ok _)) | WOk (RDeclareQueue (Err (QueueAlreadyExists _))) => true
          | _ => false
          end)).

Definition consume_one (queue : string) : AM (option (DeliveryTag * Message)) :=
  on_engine
    (let* r := locked (consume queue) in ret (match r with Ok o => o | Err _ => None end))
    (let* wr := client_write (Consume queue) in
     ret (match wr with WOk (RConsume (Ok o)) => o | _ => None end)).

(** Errors are only logged. *)
Definition ack_message (queue : string) (tag : DeliveryTag) : AM unit :=
  on_engine
    (let* r := locked (ack queue tag) in ret tt)
    (let* wr := client_write (Ack queue tag) in ret tt).

(** The timestamp is in seconds. *)
Definition mqtt_message (payload : bytes) : AM Message :=
  let* uuid := new_v4 in
  let* now := (fun st =>
    let e := env_of st in
    let st' := set_env (mkEnv (clock_tick e + 1) (uuid_tick e)) st in
    match clock_read (clock_tick e) with
    | Some ms => (Done (as_i64 (ms / 1000)), st')
    | None => (Panic, st')
    end) : AM Z in
  ret (mkMessage uuid payload ∅ now 0 0 None None).

Definition publish_message (queue : string) (payload : bytes) : AM bool :=
  let* msg := mqtt_message payload in
  on_engine
    (let* r := locked (publish queue msg) in ret (match r with Ok _ => true | Err _ => false end))
    (let* wr := client_write (StateMachine.Publish queue msg) in
     ret (match wr with WOk (RPublish (Ok _)) => true | _ => false end)).

(** ** A connection *)

(** The per-connection state: deliveries by packet id, the next packet id, the
    subscription pollers with the delivery each is holding, the channel from the
    pollers, what was written, and whether the main loop still runs. *)
Record Session := mkSession {
  app : AppState;
  inflight : gmap Z (string * DeliveryTag);
  next_pkid : Z;
  subscriptions : gmap string (option Outgoing);
  channel : list Outgoing;
  sent : list Packet;
  running : bool;
}.

Abbreviation SM := (M Session Empty_set).

Definition set_inflight (x : gmap Z (string * DeliveryTag)) (s : Session) : Session :=
  mkSession (app s) x (next_pkid s) (subscriptions s) (channel s) (sent s) (running s).
Definition set_next_pkid (x : Z) (s : Session) : Session :=
  mkSession (app s) (inflight s) x (subscriptions s) (channel s) (sent s) (running s).
Definition set_subscriptions (x : gmap string (option Outgoing)) (s : Session) : Session :=
  mkSession (app s) (inflight s) (next_pkid s) x (channel s) (sent s) (running s).
Definition set_channel (x : list Outgoing) (s : Session) : Session :=
  mkSession (app s) (inflight s) (next_pkid s) (subscriptions s) x (sent s) (running s).
Definition set_sent (x : list Packet) (s : Session) : Session :=
  mkSession (app s) (inflight s) (next_pkid s) (subscriptions s) (channel s) x (running s).
Definition set_running (x : bool) (s : Session) : Session :=
  mkSession (app s) (inflight s) (next_pkid s) (subscriptions s) (channel s) (sent s) x.

(** A call on the application state. *)
Definition on_app {A} (m : AM A) : SM A :=
  fun s => let '(o, st) := m (app s) in
    (o, mkSession st (inflight s) (next_pkid s) (subscriptions s) (channel s) (sent s) (running s)).

(** [write.send(packet).await]: the packet is written unless the socket fails. *)
Definition write_send (ok : bool) (p : Packet) : SM bool :=
  fun s => if ok then (Done true, set_sent (sent s ++ [p]) s) else (Done false, s).

(** The loop over the filters of a subscription. *)
Definition subscribe_filter (codes : list ReasonCode) (filter : string * QoS) : SM (list ReasonCode) :=
  if has_wildcard filter.1 then ret (codes ++ [Failure]) else
  on_app (declare_queue filter.1) ;;;
  let* subs := gets subscriptions in
  match subs !! filter.1 with
  | Some _ => ret (codes ++ [Success AtLeastOnce])
  | None =>
    let qos := if qos_u8 filter.2 =? 0 then AtMostOnce else AtLeastOnce in
    modify (fun s => set_subscriptions (<[filter.1 := None]> (subscriptions s)) s) ;;;
    ret (codes ++ [Success qos])
  end.

(** [handle_client_packet]; [ok] is whether the socket accepts what is written.
    The result says whether the connection goes on. *)
Definition handle_client_packet (ok : bool) (packet : Packet) : SM bool :=
  match packet with
  | Publish queue qos pkid payload =>
    on_app (declare_queue queue) ;;;
    on_app (publish_message queue payload) ;;;
    if 1 <=? qos_u8 qos then write_send ok (PubAck pkid) else ret true
  | Subscribe pkid filters =>
    let* codes := for_fold filters [] subscribe_filter in
    write_send ok (SubAck pkid codes)
  | Unsubscribe pkid topics =>
    for_each topics (fun topic => modify (fun s => set_subscriptions (delete topic (subscriptions s)) s)) ;;;
    write_send ok (UnsubAck pkid)
  | PubAck pkid =>
    let* infl := gets inflight in
    match infl !! pkid with
    | Some (queue, tag) =>
      modify (fun s => set_inflight (delete pkid (inflight s)) s) ;;;
      on_app (ack_message queue tag) ;;;
      ret true
    | None => ret true
    end
  | PingReq => write_send ok PingResp
  | Disconnect => ret false
  | _ => ret true
  end.

(** The end of [handle_connection]: the pollers are aborted, and with the
    connection its channel and table of packet ids go. *)
Definition close : SM unit :=
  modify (fun s => mkSession (app s) ∅ (next_pkid s) ∅ [] (sent s) false).

(** The capacity of the channel. *)
Definition CHANNEL_CAPACITY : nat := 256.

(** What can happen on a connection: a packet or the end of input, a poller's
    tick, a poller's send going through, and a delivery taken from the channel. *)
Inductive Event :=
| EvPacket (ok : bool) (p : Packet)
| EvEnd
| EvTick (queue : string)
| EvSend (queue : string)
| EvDeliver (ok : bool).

(** The main loop and the pollers, one event at a time. *)
Definition step (ev : Event) : SM unit :=
  match ev with
  | EvPacket ok p =>
    let* goes_on := handle_client_packet ok p in
    if (goes_on : bool) then ret tt else close
  | EvEnd => close
  | EvTick queue =>
    let* subs := gets subscriptions in
    match subs !! queue with
    | Some None =>
      let* result := on_app (consume_one queue) in
      match result with
      | Some (tag, msg) =>
        modify (fun s => set_subscriptions
          (<[queue := Some (mkOut queue tag (Message.payload msg))]> (subscriptions s)) s)
      | None => ret tt
      end
    | _ => ret tt
    end
  | EvSend queue =>
    let* s := gets (fun s => s) in
    match subscriptions s !! queue with
    | Some (Some out) =>
      if (length (channel s) <? CHANNEL_CAPACITY)%nat
      then modify (fun s => set_channel (channel s ++ [out]) (set_subscriptions (<[queue := None]> (subscriptions s)) s))
      else ret tt
    | _ => ret tt
    end
  | EvDeliver ok =>
    let* s := gets (fun s => s) in
    match channel s with
    | [] => ret tt
    | out :: rest =>
      let pkid := next_pkid s in
      modify (fun s => set_channel rest (set_next_pkid (as_u16 (pkid + 1)) s)) ;;;
      modify (fun s => set_inflight (<[pkid := (out_queue out, out_tag out)]> (inflight s)) s) ;;;
      let* written := write_send ok (Publish (out_queue out) AtLeastOnce pkid (out_payload out)) in
      if (written : bool) then ret tt else close
    end
  end.

(** [handle_connection] up to the main loop: the first packet is CONNECT. *)
Definition accept (first : option Packet) (ok : bool) (st : AppState) : option Session :=
  match first with
  | Some Connect => if ok then Some (mkSession st ∅ 1 ∅ [] [ConnAck] true) else None
  | _ => None
  end.

(** A run of the connection; nothing happens once it is closed. *)
Fixpoint run (evs : list Event) : SM unit :=
  match evs with
  | [] => ret tt
  | ev :: evs' =>
    let* on := gets running in
    if (on : bool) then step ev ;;; run evs' else ret tt
  end.
End Mqtt.
End Mqtt.
