(* ===== verification/MqttProofs.v ===== *)
(** * MqttProofs: a connection never forgets a delivery the engine does not keep

    The deliveries a connection knows of (by packet id, in the channel, or held
    by a poller) are messages in flight in the engine; they leave the engine only
    when the client acknowledges their packet id. *)

From Stdlib Require Import ZArith Lia.
From stdpp Require Import prelude gmap strings.
From S2P Require Import Prelude Bytes OrdMap Sled Message Bincode Keys QueueManager Store Spec Engine.
From S2P Require Import Invariant Refinement Maintenance Retention Holdings System Snapshot.
From S2P Require Import StateMachine RaftStore Daemon Modes Wire Http HttpProofs Flying Mqtt.

Section MqttProofs.
Context `{!Sled, !SledLaws, !SledReliable, !Bincode, !BincodeLaws,
          !Environment, !EnvironmentLaws, !BuildProfile, !RaftTypes, !OpenRaft}.
Implicit Types w : World.

(** ** The engine helpers on a Solo daemon *)

Lemma declare_flies q w c :
  SysInv w -> safe_name q = true ->
  exists b w', Mqtt.declare_queue q (solo w c) = (Done b, solo w' c) /\ StepOk w [] w' /\ flights [] w w'.
Proof.
  intros HS Hq. destruct (declare_flying q w HS Hq) as (r & w' & Hr & HS' & Hf).
  eexists _, w'. split; [by apply on_solo_call|done].
Qed.

Lemma consume_flies q w c :
  SysInv w ->
  exists o w', Mqtt.consume_one q (solo w c) = (Done o, solo w' c) /\ StepOk w [] w' /\ flights [] w w' /\ taken q w o w'.
Proof.
  intros HS. destruct (consume_flying q w HS) as (r & w' & Hr & HS' & Hf & _ & Ht).
  eexists _, w'. split; [by apply on_solo_call|done].
Qed.

Lemma ack_flies q tag w c :
  SysInv w -> 0 <= tag_u64 tag < u64_lim ->
  exists w', Mqtt.ack_message q tag (solo w c) = (Done tt, solo w' c) /\ StepOk w (run_op (OpAck q tag) w).1 w' /\
    flights [(q, tag_u64 tag)] w w'.
Proof.
  intros HS Ht. destruct (ack_flying q tag w HS Ht) as (r & w' & Hr & HS' & Hl & _).
  exists w'. split; [by apply (on_solo_call (ack q tag) (fun _ => tt) _ r w w')|done].
Qed.

(** The message a PUBLISH packet becomes and the environment after its readings. *)
Definition packet_message (b : bytes) (e : Env) : Message :=
  mkMessage (uuid_v4 (uuid_tick e)) b ∅
    (default 0 ((fun ms => as_i64 (ms / 1000)) <$> clock_read (clock_tick e))) 0 0 None None.

Lemma mqtt_message_solo b w c :
  Mqtt.mqtt_message b (solo w c) =
  (Done (packet_message b (env w)), solo (set_env (env_after_new (env w)) w) c).
Proof.
  unfold Mqtt.mqtt_message, bind, new_v4, packet_message. cbn.
  destruct (clock_read_law (clock_tick (env w))) as (ms & Hms & _). rewrite Hms. reflexivity.
Qed.

(** The call behind a PUBLISH packet: it is admissible, and its ledger entries. *)
Definition packet_call (q : string) (b : bytes) w : option (Op * World) :=
  Some (OpPublish q (packet_message b (env w)), set_env (env_after_new (env w)) w).
Definition packet_ok (q : string) (b : bytes) w : Prop := call_ok (packet_call q b w).

Lemma publish_flies q b w c :
  SysInv w -> packet_ok q b w ->
  exists ok w', Mqtt.publish_message q b (solo w c) = (Done ok, solo w' c) /\
    StepOk w (call_ledger (packet_call q b w)) w' /\ flights [] w w'.
Proof.
  intros HS (Ha & Hn). apply (SysInv_env (env_after_new (env w))) in HS.
  set (w1 := set_env (env_after_new (env w)) w) in *. set (m := packet_message b (env w)) in *.
  destruct (publish_flying q m w1 HS Ha Hn) as (r & w' & Hr & HS' & Hf). eexists _, w'.
  split; [|split; [by apply (StepOk_env (env_after_new (env w)))|done]].
  unfold Mqtt.publish_message. unfold bind at 1. rewrite mqtt_message_solo. by apply on_solo_call.
Qed.

(** ** Sessions *)

Implicit Types s : Mqtt.Session.

Definition session_world s : World := app_world (Mqtt.app s).

(** The deliveries waiting to be written: in the channel or held by a poller. *)
Definition waiting s : list Mqtt.Outgoing :=
  Mqtt.channel s ++ omap snd (map_to_list (Mqtt.subscriptions s)).

Definition out_ref (o : Mqtt.Outgoing) : string * Z := (Mqtt.out_queue o, tag_u64 (Mqtt.out_tag o)).
Definition pkid_ref (e : Z * (string * DeliveryTag)) : string * Z := (e.2.1, tag_u64 e.2.2).

(** The deliveries the connection knows of, by queue and tag. *)
Definition known s : list (string * Z) :=
  map pkid_ref (map_to_list (Mqtt.inflight s)) ++ map out_ref (waiting s).

(** The session runs on a sound engine, every delivery it knows of is in flight
    there, those waiting carry the payload of their message, and none is known
    twice. *)
Record MqttInv s : Prop := {
  mi_solo : Mqtt.app s = solo (session_world s) (cluster (Mqtt.app s));
  mi_sys : SysInv (session_world s);
  mi_flying : forall q t, (q, t) ∈ known s -> exists m, flying (session_world s) q t m;
  mi_payload : forall o, o ∈ waiting s ->
    exists m, flying (session_world s) (Mqtt.out_queue o) (tag_u64 (Mqtt.out_tag o)) m /\
              Mqtt.out_payload o = Message.payload m;
  mi_nodup : NoDup (known s);
}.

(** What a step may do to the messages in flight: all but [ex] stay. *)
Definition keeps (ex : list (string * Z)) s s' : Prop := flights ex (session_world s) (session_world s').

Lemma keeps_refl s : keeps [] s s.
Proof. by intros q t m. Qed.
Lemma keeps_trans ex s1 s2 s3 : keeps [] s1 s2 -> keeps ex s2 s3 -> keeps ex s1 s3.
Proof. intros H12 H23 q t m Hf Hn. apply H23; [|done]. apply H12; [done|]. apply not_elem_of_nil. Qed.

Lemma NoDup_sub {A} (l k : list A) : l ⊆+ k -> NoDup k -> NoDup l.
Proof. intros (k' & Hk)%submseteq_Permutation. rewrite Hk. by intros (? & _)%NoDup_app. Qed.

(** A step after which the session knows no more than before. *)
Lemma MqttInv_less s s' ex :
  MqttInv s -> Mqtt.app s' = solo (session_world s') (cluster (Mqtt.app s')) -> SysInv (session_world s') ->
  keeps ex s s' -> known s' ⊆+ known s -> waiting s' ⊆ waiting s ->
  (forall r, r ∈ known s' -> r ∉ ex) -> MqttInv s'.
Proof.
  intros HI Happ HS Hk Hsub Hw Hex. split; auto.
  - intros q t Hin. destruct (mi_flying _ HI q t) as [m Hm]; [by eapply elem_of_submseteq|]. eauto.
  - intros o Ho. destruct (mi_payload _ HI o) as (m & Hm & Hp); [by apply Hw|]. exists m. split; [|done].
    apply Hk; [done|]. apply Hex. apply elem_of_app. right. by apply (list_elem_of_fmap_2 out_ref).
  - eapply NoDup_sub; [done|apply HI].
Qed.

(** A call of the engine that keeps everything in flight. *)
Lemma on_app_keeps {A} (call : M AppState Empty_set A) (Q : A -> Prop) s :
  MqttInv s ->
  (exists a w' tr, call (solo (session_world s) (cluster (Mqtt.app s))) = (Done a, solo w' (cluster (Mqtt.app s))) /\
     StepOk (session_world s) tr w' /\ flights [] (session_world s) w' /\ Q a) ->
  exists a s', Mqtt.on_app call s = (Done a, s') /\ MqttInv s' /\ keeps [] s s' /\ Q a /\
    Mqtt.subscriptions s' = Mqtt.subscriptions s /\ session_world s' = app_world (call (Mqtt.app s)).2.
Proof.
  intros HI (a & w' & tr & Hc & HS & Hf & HQ). unfold Mqtt.on_app. rewrite (mi_solo _ HI), Hc.
  eexists _, _. split; [done|]. split_and!; try done.
  eapply (MqttInv_less s _ []); auto; [apply HS|]. intros r _; apply not_elem_of_nil.
Qed.

(** ** Computations of a session *)

(** [m] returns, in a sound session, with all but [ex] still in flight. *)
Definition good {A} (m : M Mqtt.Session Empty_set A) (ex : list (string * Z)) s : Prop :=
  exists a s', m s = (Done a, s') /\ MqttInv s' /\ keeps ex s s'.

Lemma good_ret {A} (a : A) s : MqttInv s -> good (ret a) [] s.
Proof. intros HI. exists a, s. split_and!; auto using keeps_refl. Qed.

Lemma good_bind {A B} (m : M Mqtt.Session Empty_set A) (k : A -> M Mqtt.Session Empty_set B) ex s :
  good m [] s -> (forall a s', m s = (Done a, s') -> MqttInv s' -> good (k a) ex s') -> good (bind m k) ex s.
Proof.
  intros (a & s1 & Hm & HI & Hk) Hn. destruct (Hn a s1 Hm HI) as (b & s2 & Hb & HI2 & Hk2).
  exists b, s2. unfold bind. rewrite Hm, Hb. split_and!; auto. by eapply keeps_trans.
Qed.

(** A change of the connection's own tables. *)
Lemma good_modify (f : Mqtt.Session -> Mqtt.Session) s :
  MqttInv s -> Mqtt.app (f s) = Mqtt.app s -> known (f s) ⊆+ known s -> waiting (f s) ⊆ waiting s ->
  good (modify f) [] s.
Proof.
  intros HI Happ Hkn Hw. assert (session_world (f s) = session_world s) as Hw' by (unfold session_world; by rewrite Happ).
  assert (keeps [] s (f s)) as Hk by (intros q t m Hm _; by rewrite Hw').
  exists tt, (f s). split_and!; auto.
  eapply (MqttInv_less s _ []); auto; [by rewrite Hw', Happ, <- (mi_solo _ HI)|rewrite Hw'; apply HI|].
  intros r _. apply not_elem_of_nil.
Qed.

Lemma good_on_app {A} (call : M AppState Empty_set A) s :
  MqttInv s ->
  (exists a w' tr, call (solo (session_world s) (cluster (Mqtt.app s))) = (Done a, solo w' (cluster (Mqtt.app s))) /\
     StepOk (session_world s) tr w' /\ flights [] (session_world s) w') ->
  good (Mqtt.on_app call) [] s.
Proof.
  intros HI (a & w' & tr & Hc & HS & Hf).
  destruct (on_app_keeps call (fun _ => True) s HI) as (a' & s' & Hr & HI' & Hk & _); [by exists a, w', tr|].
  by exists a', s'.
Qed.

Lemma good_write ok p s : MqttInv s -> good (Mqtt.write_send ok p) [] s.
Proof.
  intros HI. unfold Mqtt.write_send. destruct ok; [|by apply good_ret].
  assert (keeps [] s (Mqtt.set_sent (Mqtt.sent s ++ [p]) s)) as Hk by apply (keeps_refl s).
  exists true, (Mqtt.set_sent (Mqtt.sent s ++ [p]) s). split_and!; auto.
  eapply (MqttInv_less s _ []); auto; [apply HI|apply HI|intros r _; apply not_elem_of_nil].
Qed.

Lemma good_close s : MqttInv s -> good Mqtt.close [] s.
Proof.
  intros HI. apply good_modify; auto; [|set_solver].
  unfold known, waiting. cbn. rewrite !map_to_list_empty. apply submseteq_nil_l.
Qed.

(** The end of an event: the connection goes on or is closed. *)
Lemma good_go_on (on : bool) s : MqttInv s -> good (if on then ret tt else Mqtt.close) [] s.
Proof. destruct on; [apply good_ret|apply good_close]. Qed.

Lemma good_for_fold {A B} (l : list A) (f : B -> A -> M Mqtt.Session Empty_set B) acc s :
  (forall x, x ∈ l -> forall acc s, MqttInv s -> good (f acc x) [] s) -> MqttInv s -> good (for_fold l acc f) [] s.
Proof.
  revert acc s. induction l as [|x l IH]; intros acc s Hf HI; cbn; [by apply good_ret|].
  apply good_bind; [apply Hf; [left|done]|]. intros b s' _ HI'. apply IH; [|done]. intros y Hy. apply Hf. by right.
Qed.

Lemma good_for_each {A} (l : list A) (f : A -> M Mqtt.Session Empty_set unit) s :
  (forall x, x ∈ l -> forall s, MqttInv s -> good (f x) [] s) -> MqttInv s -> good (for_each l f) [] s.
Proof.
  revert s. induction l as [|x l IH]; intros s Hf HI; cbn; [by apply good_ret|].
  apply good_bind; [apply Hf; [left|done]|]. intros [] s' _ HI'. apply IH; [|done]. intros y Hy. apply Hf. by right.
Qed.

(** ** The tables *)

Lemma inflight_insert_sub (m : gmap Z (string * DeliveryTag)) k v :
  map pkid_ref (map_to_list (<[k := v]> m)) ⊆+ (v.1, tag_u64 v.2) :: map pkid_ref (map_to_list m).
Proof.
  rewrite <- insert_delete_eq.
  change ((v.1, tag_u64 v.2) :: map pkid_ref (map_to_list m)) with (pkid_ref <$> ((k, v) :: map_to_list m)).
  apply fmap_submseteq. rewrite map_to_list_insert by apply lookup_delete_eq. apply submseteq_skip.
  apply map_to_list_submseteq, delete_subseteq.
Qed.

Lemma held_delete (m : gmap string (option Mqtt.Outgoing)) q :
  omap snd (map_to_list (delete q m)) ⊆+ omap snd (map_to_list m).
Proof.
  destruct (m !! q) as [o|] eqn:E; [|by rewrite delete_id].
  rewrite <- (map_to_list_delete m q o E). cbn. destruct o; [by apply submseteq_cons|done].
Qed.

Lemma held_insert (m : gmap string (option Mqtt.Outgoing)) q o :
  m !! q = None \/ m !! q = Some None ->
  omap snd (map_to_list (<[q := o]> m)) ≡ₚ option_list o ++ omap snd (map_to_list m).
Proof.
  intros Hm. rewrite <- insert_delete_eq, map_to_list_insert by apply lookup_delete_eq.
  assert (omap snd (map_to_list (delete q m)) ≡ₚ omap snd (map_to_list m)) as Hd.
  { destruct Hm as [Hm|Hm]; [by rewrite delete_id|]. by rewrite <- (map_to_list_delete m q None Hm). }
  destruct o; cbn; by rewrite Hd.
Qed.

Lemma held_take (m : gmap string (option Mqtt.Outgoing)) q o :
  m !! q = Some (Some o) ->
  o :: omap snd (map_to_list (<[q := None]> m)) ≡ₚ omap snd (map_to_list m).
Proof.
  intros Hm. rewrite <- (map_to_list_delete m q _ Hm), <- insert_delete_eq,
    map_to_list_insert by apply lookup_delete_eq. done.
Qed.

(** Sessions that know the same or less. *)
Lemma known_sub s s' :
  map_to_list (Mqtt.inflight s') ⊆+ map_to_list (Mqtt.inflight s) -> waiting s' ⊆+ waiting s ->
  known s' ⊆+ known s.
Proof. intros Hi Hw. apply submseteq_app; by apply fmap_submseteq. Qed.

Lemma waiting_held s s' :
  Mqtt.channel s' = Mqtt.channel s ->
  omap snd (map_to_list (Mqtt.subscriptions s')) ⊆+ omap snd (map_to_list (Mqtt.subscriptions s)) ->
  waiting s' ⊆+ waiting s.
Proof. intros Hc Hs. unfold waiting. rewrite Hc. by apply submseteq_app. Qed.

Lemma sub_incl {A} (l k : list A) : l ⊆+ k -> l ⊆ k.
Proof. intros Hs x Hx. by eapply elem_of_submseteq. Qed.

(** The PUBACK of a QoS 1 or 2 PUBLISH does not depend on the engine: whatever
    [declare_queue] and [publish_message] return, [false] (not stored) included, the
    packet id is acknowledged. *)
Lemma puback_unconditional q qos pkid b s declared st1 stored st2 :
  1 <= Mqtt.qos_u8 qos ->
  Mqtt.declare_queue q (Mqtt.app s) = (Done declared, st1) ->
  Mqtt.publish_message q b st1 = (Done stored, st2) ->
  exists s', Mqtt.handle_client_packet true (Mqtt.Publish q qos pkid b) s = (Done true, s') /\
    Mqtt.app s' = st2 /\ Mqtt.sent s' = Mqtt.sent s ++ [Mqtt.PubAck pkid].
Proof.
  intros Hq Hd Hp. eexists. cbn [Mqtt.handle_client_packet].
  unfold bind, Mqtt.on_app. rewrite Hd. cbn [Mqtt.app]. rewrite Hp.
  rewrite (proj2 (Z.leb_le _ _) Hq). split; [reflexivity|]. done.
Qed.
End MqttProofs.
