(* ===== verification/MqttTheorems.v ===== *)
(** * MqttTheorems: deliveries over MQTT are at least once

    Every event of a connection keeps the session sound; a message in flight
    leaves the engine only when the client acknowledges its packet id. *)

From Stdlib Require Import ZArith Lia.
From stdpp Require Import prelude gmap strings.
From S2P Require Import Prelude Bytes OrdMap Sled Message Bincode Keys QueueManager Store Spec Engine.
From S2P Require Import Invariant Refinement Maintenance Retention Holdings System SystemDemo Snapshot.
From S2P Require Import StateMachine RaftStore RaftDemo Daemon Modes Wire Http HttpProofs DaemonDemo.
From S2P Require Import Flying Mqtt MqttProofs.

Section Claims.
Context `{!Sled, !SledLaws, !SledReliable, !Bincode, !BincodeLaws,
          !Environment, !EnvironmentLaws, !BuildProfile, !RaftTypes, !OpenRaft}.
Implicit Types s : Mqtt.Session.

(** ** Events *)

(** The names an event declares are safe, and what it publishes fits. *)
Definition event_ok (ev : Mqtt.Event) s : Prop :=
  match ev with
  | Mqtt.EvPacket _ (Mqtt.Publish q _ _ b) =>
    safe_name q = true /\ packet_ok q b (app_world (Mqtt.declare_queue q (Mqtt.app s)).2)
  | Mqtt.EvPacket _ (Mqtt.Subscribe _ filters) =>
    forall f, f ∈ filters -> Mqtt.has_wildcard f.1 = false -> safe_name f.1 = true
  | _ => True
  end.

(** The delivery an event acknowledges. *)
Definition acknowledged (ev : Mqtt.Event) s : list (string * Z) :=
  match ev with
  | Mqtt.EvPacket _ (Mqtt.PubAck pkid) =>
    match Mqtt.inflight s !! pkid with Some (q, t) => [(q, tag_u64 t)] | None => [] end
  | _ => []
  end.

Lemma good_gets {A B} (f : Mqtt.Session -> A) (k : A -> M Mqtt.Session Empty_set B) ex s :
  good (k (f s)) ex s -> good (bind (gets f) k) ex s.
Proof. done. Qed.

Lemma good_declare q s : MqttInv s -> safe_name q = true -> good (Mqtt.on_app (Mqtt.declare_queue q)) [] s.
Proof.
  intros HI Hq. apply good_on_app; [done|].
  destruct (declare_flies q (session_world s) (cluster (Mqtt.app s)) (mi_sys _ HI) Hq) as (b & w' & Hd). eauto.
Qed.

Lemma good_subscribe_filter codes f s :
  (Mqtt.has_wildcard f.1 = false -> safe_name f.1 = true) -> MqttInv s ->
  good (Mqtt.subscribe_filter codes f) [] s.
Proof.
  intros Hf HI. unfold Mqtt.subscribe_filter. destruct (Mqtt.has_wildcard f.1); [by apply good_ret|].
  apply good_bind; [apply good_declare; auto|]. intros b s1 _ HI1. apply good_gets.
  destruct (Mqtt.subscriptions s1 !! f.1) eqn:E; [by apply good_ret|].
  apply good_bind; [|intros [] s2 _ HI'; by apply good_ret].
  assert (waiting (Mqtt.set_subscriptions (<[f.1 := None]> (Mqtt.subscriptions s1)) s1) ⊆+ waiting s1) as Hw.
  { apply waiting_held; [done|]. cbn [Mqtt.set_subscriptions Mqtt.subscriptions]. by rewrite held_insert by auto. }
  apply good_modify; auto using sub_incl. by apply known_sub.
Qed.

Lemma good_publish ok q qos pkid b s :
  MqttInv s -> event_ok (Mqtt.EvPacket ok (Mqtt.Publish q qos pkid b)) s ->
  good (Mqtt.handle_client_packet ok (Mqtt.Publish q qos pkid b)) [] s.
Proof.
  intros HI (Hq & Hp). cbn [Mqtt.handle_client_packet].
  apply good_bind; [by apply good_declare|]. intros d s1 Hrun HI1.
  assert (session_world s1 = app_world (Mqtt.declare_queue q (Mqtt.app s)).2) as Hw.
  { unfold Mqtt.on_app in Hrun. destruct (Mqtt.declare_queue q (Mqtt.app s)). by injection Hrun as _ <-. }
  rewrite <- Hw in Hp. apply good_bind.
  - apply good_on_app; [done|].
    destruct (publish_flies q b (session_world s1) (cluster (Mqtt.app s1)) (mi_sys _ HI1) Hp) as (r & w' & Hr). eauto.
  - intros r s2 _ HI2. destruct (1 <=? Mqtt.qos_u8 qos); [by apply good_write|by apply good_ret].
Qed.

(** The delivery of a packet id is known under no other packet id and waits nowhere. *)
Lemma acked_unknown pkid q t s :
  MqttInv s -> Mqtt.inflight s !! pkid = Some (q, t) ->
  (q, tag_u64 t) ∈ known s /\ (q, tag_u64 t) ∉ known (Mqtt.set_inflight (delete pkid (Mqtt.inflight s)) s).
Proof.
  intros HI E. pose proof (map_to_list_delete _ _ _ E) as Hp.
  pose proof (mi_nodup _ HI) as Hn. unfold known in *. rewrite <- Hp in Hn. cbn [map app pkid_ref fst snd] in Hn.
  split; [rewrite <- Hp; left|]. by apply NoDup_cons in Hn as [Hn _].
Qed.

Lemma good_puback ok pkid s :
  MqttInv s ->
  good (Mqtt.handle_client_packet ok (Mqtt.PubAck pkid)) (acknowledged (Mqtt.EvPacket ok (Mqtt.PubAck pkid)) s) s.
Proof.
  intros HI. cbn [Mqtt.handle_client_packet acknowledged]. apply good_gets.
  destruct (Mqtt.inflight s !! pkid) as [[q t]|] eqn:E; [|by apply good_ret].
  destruct (acked_unknown _ _ _ _ HI E) as [Hin Hout].
  destruct (mi_flying _ HI _ _ Hin) as [m Hm].
  pose proof (flying_range _ _ _ _ (mi_sys _ HI) Hm) as Ht. apply good_bind.
  { apply good_modify; auto. apply known_sub; [|done]. apply map_to_list_submseteq, delete_subseteq. }
  intros [] s1 Hrun HI1. injection Hrun as <-.
  set (s1 := Mqtt.set_inflight _ s) in *.
  destruct (ack_flies q t (session_world s1) (cluster (Mqtt.app s1)) (mi_sys _ HI1) Ht) as (w' & Hrun & HS & Hf).
  exists true. eexists. split.
  { unfold bind at 1. unfold Mqtt.on_app. rewrite (mi_solo _ HI1), Hrun. reflexivity. }
  assert (keeps [(q, tag_u64 t)] s1 (Mqtt.mkSession (solo w' (cluster (Mqtt.app s1))) (Mqtt.inflight s1)
    (Mqtt.next_pkid s1) (Mqtt.subscriptions s1) (Mqtt.channel s1) (Mqtt.sent s1) (Mqtt.running s1))) as Hk.
  { exact Hf. }
  split; [|done]. eapply (MqttInv_less s1 _ _ HI1); eauto; [apply HS|].
  intros r Hr ->%list_elem_of_singleton. done.
Qed.

(** The whole packet handler. *)
Lemma good_packet ok p s :
  MqttInv s -> event_ok (Mqtt.EvPacket ok p) s ->
  good (Mqtt.handle_client_packet ok p) (acknowledged (Mqtt.EvPacket ok p) s) s.
Proof.
  intros HI Hok. destruct p as [| |q qos pkid b|pkid|pkid fs|pkid codes|pkid topics|pkid| | | |];
    try by apply good_ret.
  - by apply good_publish.
  - by apply good_puback.
  - cbn [Mqtt.handle_client_packet acknowledged]. apply good_bind; [|intros codes s1 _ HI1; by apply good_write].
    apply good_for_fold; [|done]. intros f Hf acc s1 HI1. apply good_subscribe_filter; auto.
  - cbn [Mqtt.handle_client_packet acknowledged]. apply good_bind; [|intros [] s1 _ HI1; by apply good_write].
    apply good_for_each; [|done]. intros topic _ s1 HI1.
    assert (waiting (Mqtt.set_subscriptions (delete topic (Mqtt.subscriptions s1)) s1) ⊆+ waiting s1) as Hw.
    { apply waiting_held; [done|]. apply held_delete. }
    apply good_modify; auto using sub_incl. by apply known_sub.
  - by apply good_write.
Qed.

(** ** Pollers and deliveries *)

(** A poller takes a fresh delivery. *)
Lemma MqttInv_hold q tag m s :
  MqttInv s -> Mqtt.subscriptions s !! q = Some None ->
  flying (session_world s) q (tag_u64 tag) m -> (q, tag_u64 tag) ∉ known s ->
  MqttInv (Mqtt.set_subscriptions (<[q := Some (Mqtt.mkOut q tag (Message.payload m))]> (Mqtt.subscriptions s)) s).
Proof.
  intros HI Hq Hm Hn. set (o := Mqtt.mkOut q tag (Message.payload m)). set (s' := Mqtt.set_subscriptions _ s).
  assert (waiting s' ≡ₚ o :: waiting s) as Hw.
  { unfold waiting, s'. cbn [Mqtt.set_subscriptions Mqtt.channel Mqtt.subscriptions].
    rewrite held_insert by auto. cbn. by rewrite <- Permutation_middle. }
  assert (known s' ≡ₚ (q, tag_u64 tag) :: known s) as Hk.
  { unfold known. rewrite Hw. cbn. by rewrite <- Permutation_middle. }
  split; [apply HI|apply HI|..].
  - intros q' t'. rewrite Hk. intros [[= -> ->]|Hin]%elem_of_cons; [by exists m|by apply (mi_flying _ HI)].
  - intros o'. rewrite Hw. intros [->|Hin]%elem_of_cons; [by exists m|by apply (mi_payload _ HI)].
  - rewrite Hk. by apply NoDup_cons_2, mi_nodup.
Qed.

Lemma good_tick q s : MqttInv s -> good (Mqtt.step (Mqtt.EvTick q)) [] s.
Proof.
  intros HI. cbn [Mqtt.step]. apply good_gets.
  destruct (Mqtt.subscriptions s !! q) as [[o|]|] eqn:E; [by apply good_ret| |by apply good_ret].
  destruct (consume_flies q (session_world s) (cluster (Mqtt.app s)) (mi_sys _ HI)) as (o & w' & Hrun & HS & Hf & Ho).
  destruct (on_app_keeps (Mqtt.consume_one q) (fun a => a = o) s HI) as (a & s1 & Hr & HI1 & Hk & -> & Hsub & Hw);
    [by exists o, w', []|].
  rewrite (mi_solo _ HI), Hrun in Hw. cbn [snd solo app_world engine guarded] in Hw.
  assert (known s1 = known s) as Hkn.
  { unfold Mqtt.on_app in Hr. destruct (Mqtt.consume_one q (Mqtt.app s)). by injection Hr as _ <-. }
  destruct o as [[tag m]|].
  2: { exists tt, s1. unfold bind. by rewrite Hr. }
  exists tt, (Mqtt.set_subscriptions (<[q := Some (Mqtt.mkOut q tag (Message.payload m))]> (Mqtt.subscriptions s1)) s1).
  unfold bind. rewrite Hr. split; [done|]. split; [|done]. destruct Ho as (Hm & Hfresh & _).
  apply MqttInv_hold; auto; [by rewrite Hsub|by rewrite Hw|].
  rewrite Hkn. intros Hin. destruct (mi_flying _ HI _ _ Hin) as (m' & _ & Hl). congruence.
Qed.

Lemma good_send q s : MqttInv s -> good (Mqtt.step (Mqtt.EvSend q)) [] s.
Proof.
  intros HI. cbn [Mqtt.step]. apply good_gets.
  destruct (Mqtt.subscriptions s !! q) as [[o|]|] eqn:E; [|by apply good_ret..].
  destruct (length (Mqtt.channel s) <? Mqtt.CHANNEL_CAPACITY)%nat; [|by apply good_ret].
  match goal with |- good (modify ?f) _ _ => set (f' := f) end.
  assert (waiting (f' s) ≡ₚ waiting s) as Hw.
  { unfold waiting, f'. cbn. by rewrite <- (held_take _ _ _ E), <- app_assoc. }
  apply good_modify; auto; [apply known_sub; [done|by rewrite Hw]|apply sub_incl; by rewrite Hw].
Qed.

Lemma good_deliver ok s : MqttInv s -> good (Mqtt.step (Mqtt.EvDeliver ok)) [] s.
Proof.
  intros HI. cbn [Mqtt.step]. apply good_gets. destruct (Mqtt.channel s) as [|o rest] eqn:E; [by apply good_ret|].
  cbv zeta.
  set (s1 := Mqtt.set_inflight (<[Mqtt.next_pkid s := (Mqtt.out_queue o, Mqtt.out_tag o)]> (Mqtt.inflight s))
               (Mqtt.set_channel rest (Mqtt.set_next_pkid (as_u16 (Mqtt.next_pkid s + 1)) s))).
  assert (good (modify (fun _ => s1)) [] s) as Hg.
  { apply good_modify; auto.
    - unfold known, waiting. rewrite E. cbn [map app]. rewrite <- Permutation_middle. cbn [s1].
      apply (submseteq_app _ (_ :: _)); [apply inflight_insert_sub|]. done.
    - unfold waiting. rewrite E. intros o' Ho'. by right. }
  destruct Hg as ([] & s1' & Hs1 & HI1 & Hk1). injection Hs1 as <-.
  destruct (good_write ok (Mqtt.Publish (Mqtt.out_queue o) Mqtt.AtLeastOnce (Mqtt.next_pkid s) (Mqtt.out_payload o)) s1 HI1)
    as (written & s2 & Hrun & HI2 & Hk2).
  destruct (good_go_on written s2 HI2) as ([] & s3 & Hrun3 & HI3 & Hk3).
  exists tt, s3. split; [|split; [exact HI3|exact (keeps_trans _ _ _ _ Hk1 (keeps_trans _ _ _ _ Hk2 Hk3))]].
  unfold bind at 1, modify at 1. unfold bind at 1, modify at 1. unfold bind at 1.
  match goal with |- context [Mqtt.write_send _ _ ?x] => change x with s1 end. by rewrite Hrun.
Qed.

(** Every event. *)
Lemma good_step ev s : MqttInv s -> event_ok ev s -> good (Mqtt.step ev) (acknowledged ev s) s.
Proof.
  intros HI Hok. destruct ev as [ok p| |q|q|ok]; [|by apply good_close|by apply good_tick|by apply good_send|by apply good_deliver].
  cbn [Mqtt.step]. destruct (good_packet ok p s HI Hok) as (on & s1 & Hrun & HI1 & Hk1).
  destruct (good_go_on on s1 HI1) as ([] & s2 & Hrun2 & HI2 & Hk2). exists tt, s2.
  unfold bind. rewrite Hrun. split_and!; auto. intros q t m Hm Hn. apply Hk2; [by apply Hk1|apply not_elem_of_nil].
Qed.

(** ** Runs *)

(** The events of a run are admissible as long as the connection is open. *)
Fixpoint run_ok (evs : list Mqtt.Event) s : Prop :=
  match evs with
  | [] => True
  | ev :: evs' => Mqtt.running s = true -> event_ok ev s /\ run_ok evs' (Mqtt.step ev s).2
  end.

(** The deliveries the client acknowledges during a run. *)
Fixpoint run_acks (evs : list Mqtt.Event) s : list (string * Z) :=
  match evs with
  | [] => []
  | ev :: evs' => if Mqtt.running s then acknowledged ev s ++ run_acks evs' (Mqtt.step ev s).2 else []
  end.

(** A connection just accepted is sound. *)
Lemma accept_sound w c first ok s :
  SysInv w -> Mqtt.accept first ok (solo w c) = Some s -> MqttInv s.
Proof.
  intros HS. unfold Mqtt.accept. destruct first as [[]|]; try done. destruct ok; [|done]. intros [= <-].
  split; try done; unfold known, waiting; cbn [Mqtt.inflight Mqtt.channel Mqtt.subscriptions];
    rewrite !map_to_list_empty; cbn [map app omap list_omap].
  - intros q t ?%not_elem_of_nil. done.
  - intros o ?%not_elem_of_nil. done.
  - constructor.
Qed.

(** C40: A connection to a Solo daemon serves every admissible run of packets,
    poller ticks, channel sends and deliveries, with any of the socket's writes
    failing, without error.  At its end the session is sound again: every delivery
    it knows of, by packet id, in the channel or held by a poller, is in flight in
    the engine, is known once, and carries the payload the engine holds; and every
    message that was in flight at the start of the run still is unless the client
    acknowledged its packet id: unsubscribing, failed writes and lost connections
    lose nothing.  This holds for QoS 0 subscriptions too, which the documentation
    calls fire-and-forget: a client that never sends a PUBACK leaves its deliveries in
    flight until the next restart. *)
Theorem mqtt_at_least_once evs s :
  MqttInv s -> run_ok evs s ->
  exists s', Mqtt.run evs s = (Done tt, s') /\ MqttInv s' /\
    forall q t m, flying (session_world s) q t m -> (q, t) ∉ run_acks evs s -> flying (session_world s') q t m.
Proof.
  revert s. induction evs as [|ev evs IH]; intros s HI Hok; [by exists s|].
  cbn [Mqtt.run run_ok run_acks] in *. unfold bind, gets. destruct (Mqtt.running s) eqn:Hr; [|by exists s].
  destruct (Hok eq_refl) as [He Hok']. destruct (good_step ev s HI He) as ([] & s1 & Hstep & HI1 & Hk).
  rewrite Hstep in Hok' |- *. destruct (IH s1 HI1 Hok') as (s2 & Hrun & HI2 & Hf).
  exists s2. split_and!; auto.
  intros q t m Hm Hn. apply not_elem_of_app in Hn as [Hn1 Hn2]. apply Hf; [by apply Hk|done].
Qed.

(** ** Progress *)

(** A running session with an idle poller on the declared queue [q] and nothing
    in its channel. *)
Record subscribed q s : Prop := {
  sb_inv : MqttInv s;
  sb_poller : Mqtt.subscriptions s !! q = Some None;
  sb_channel : Mqtt.channel s = [];
  sb_running : Mqtt.running s = true;
  sb_declared : declared (store (session_world s)) q = true;
}.

(** The PUBLISH packets of deliveries of [q] under packet ids from [k]. *)
Fixpoint publishes (q : string) (k : Z) (ds : list (Z * Message)) : list Mqtt.Packet :=
  match ds with
  | [] => []
  | d :: ds' => Mqtt.Publish q Mqtt.AtLeastOnce k (Message.payload d.2) :: publishes q (as_u16 (k + 1)) ds'
  end.

(** The packet id after [n] deliveries. *)
Fixpoint pkid_after (n : nat) (k : Z) : Z := match n with O => k | S n' => pkid_after n' (as_u16 (k + 1)) end.

Definition session_ready s q : list (Z * Message) := a_ready (abs (store (session_world s)) q).

Definition round (q : string) : list Mqtt.Event := [Mqtt.EvTick q; Mqtt.EvSend q; Mqtt.EvDeliver true].

(** The step an event takes, with the soundness of its result. *)
Lemma step_sound ev s o s' : MqttInv s -> event_ok ev s -> Mqtt.step ev s = (o, s') -> MqttInv s'.
Proof. intros HI Hok Hs. destruct (good_step ev s HI Hok) as (a & s1 & Hs1 & HI1 & _). congruence. Qed.

(** The tick of an idle poller, from the consume it makes. *)
Lemma tick_run q r w' s :
  Mqtt.app s = solo (session_world s) (cluster (Mqtt.app s)) -> Mqtt.subscriptions s !! q = Some None ->
  try (consume q) (session_world s) = (Done r, w') ->
  Mqtt.step (Mqtt.EvTick q) s =
    (Done tt, let s1 := Mqtt.mkSession (solo w' (cluster (Mqtt.app s))) (Mqtt.inflight s) (Mqtt.next_pkid s)
                (Mqtt.subscriptions s) (Mqtt.channel s) (Mqtt.sent s) (Mqtt.running s) in
     match r with
     | Ok (Some (tag, m)) =>
       Mqtt.set_subscriptions (<[q := Some (Mqtt.mkOut q tag (Message.payload m))]> (Mqtt.subscriptions s)) s1
     | _ => s1
     end).
Proof.
  intros Hsolo Hq Hr.
  assert (Mqtt.consume_one q (Mqtt.app s) =
    (Done (match r with Ok o => o | Err _ => None end), solo w' (cluster (Mqtt.app s)))) as Hc.
  { rewrite Hsolo at 1. by apply (on_solo_call (consume q) (fun r => match r with Ok o => o | Err _ => None end)). }
  cbn [Mqtt.step]. unfold bind, gets. rewrite Hq. unfold Mqtt.on_app. rewrite Hc.
  by destruct r as [[[tag m]|]|].
Qed.

Lemma run_cons ev evs s s1 :
  Mqtt.running s = true -> Mqtt.step ev s = (Done tt, s1) -> Mqtt.run (ev :: evs) s = Mqtt.run evs s1.
Proof. intros Hr Hs. cbn [Mqtt.run]. unfold bind, gets. by rewrite Hr, Hs. Qed.

Lemma run_app evs1 evs2 s s1 :
  Mqtt.run evs1 s = (Done tt, s1) -> Mqtt.running s1 = true -> Mqtt.run (evs1 ++ evs2) s = Mqtt.run evs2 s1.
Proof.
  revert s. induction evs1 as [|ev evs1 IH]; intros s; [by intros [= <-]|].
  cbn [app Mqtt.run]. unfold bind, gets. destruct (Mqtt.running s) eqn:Hr; [|by intros [= <-]; congruence].
  destruct (Mqtt.step ev s) as [[[]|[]| |] s2]; [apply IH|done..].
Qed.

(** The send of a poller into an empty channel. *)
Lemma send_one q o s :
  Mqtt.subscriptions s !! q = Some (Some o) -> Mqtt.channel s = [] ->
  Mqtt.step (Mqtt.EvSend q) s =
    (Done tt, Mqtt.set_channel [o] (Mqtt.set_subscriptions (<[q := None]> (Mqtt.subscriptions s)) s)).
Proof. intros Hq Hc. cbn [Mqtt.step]. unfold bind, gets. rewrite Hq, Hc. cbn. unfold modify. by rewrite Hc. Qed.

(** The delivery of the only item of the channel. *)
Lemma deliver_one o s :
  Mqtt.channel s = [o] ->
  Mqtt.step (Mqtt.EvDeliver true) s =
    (Done tt, Mqtt.mkSession (Mqtt.app s) (<[Mqtt.next_pkid s := (Mqtt.out_queue o, Mqtt.out_tag o)]> (Mqtt.inflight s))
       (as_u16 (Mqtt.next_pkid s + 1)) (Mqtt.subscriptions s) []
       (Mqtt.sent s ++ [Mqtt.Publish (Mqtt.out_queue o) Mqtt.AtLeastOnce (Mqtt.next_pkid s) (Mqtt.out_payload o)])
       (Mqtt.running s)).
Proof. intros Hc. cbn [Mqtt.step]. unfold bind at 1, gets. by rewrite Hc. Qed.

(** Nothing happens on an idle session. *)
Lemma idle_steps q s :
  Mqtt.subscriptions s !! q = Some None -> Mqtt.channel s = [] ->
  Mqtt.step (Mqtt.EvSend q) s = (Done tt, s) /\ Mqtt.step (Mqtt.EvDeliver true) s = (Done tt, s).
Proof. intros Hq Hc. cbn [Mqtt.step]. unfold bind, gets. by rewrite Hq, Hc. Qed.

Lemma round_run q s :
  subscribed q s ->
  exists s', Mqtt.run (round q) s = (Done tt, s') /\ subscribed q s' /\
    Mqtt.sent s' = Mqtt.sent s ++ publishes q (Mqtt.next_pkid s) (take 1 (session_ready s q)) /\
    Mqtt.next_pkid s' = pkid_after (length (take 1 (session_ready s q))) (Mqtt.next_pkid s) /\
    session_ready s' q = drop 1 (session_ready s q).
Proof.
  intros [HI Hq Hc Hr Hd].
  destruct (consume_flying q (session_world s) (mi_sys _ HI)) as (r & w' & Hrun & _ & _ & Hd' & Ht).
  pose proof (tick_run q r w' s (mi_solo _ HI) Hq Hrun) as Htick. cbv zeta in Htick.
  pose proof (step_sound (Mqtt.EvTick q) s _ _ HI I Htick) as HI1.
  unfold round. rewrite (run_cons _ _ _ _ Hr Htick). unfold session_ready. rewrite <- Hd' in Hd.
  assert (match r with Ok o => o | Err _ => None end = None ->
    match r with Ok (Some _) => False | _ => True end) as Hr' by by destruct r as [[]|].
  destruct (match r with Ok o => o | Err _ => None end) as [[tag m]|] eqn:Eo.
  - destruct r as [o|]; [subst o|done]. destruct Ht as (_ & _ & ->). set (s1 := Mqtt.set_subscriptions _ _) in *.
    pose proof (send_one q (Mqtt.mkOut q tag (Message.payload m)) s1 (lookup_insert_eq _ _ _) Hc) as Hsend.
    pose proof (step_sound (Mqtt.EvSend q) s1 _ _ HI1 I Hsend) as HI2.
    rewrite (run_cons _ _ s1 _ Hr Hsend). set (s2 := Mqtt.set_channel _ _) in *.
    pose proof (deliver_one (Mqtt.mkOut q tag (Message.payload m)) s2 eq_refl) as Hdel.
    pose proof (step_sound (Mqtt.EvDeliver true) s2 _ _ HI2 I Hdel) as HI3.
    rewrite (run_cons _ _ s2 _ Hr Hdel). eexists. split; [reflexivity|].
    split_and!; [split; [exact HI3|apply lookup_insert_eq|done|exact Hr|exact Hd]|done..].
  - set (s1 := Mqtt.mkSession (solo w' (cluster (Mqtt.app s))) _ _ _ _ _ _) in *.
    assert (Mqtt.step (Mqtt.EvTick q) s = (Done tt, s1)) as Htick'
      by (rewrite Htick; by destruct r as [[[]|]|]; [destruct (Hr' eq_refl)|..]).
    assert (Mqtt.run (round q) s = (Done tt, s1)) as Hround.
    { unfold round. rewrite (run_cons _ _ _ _ Hr Htick').
      destruct (idle_steps q s1 Hq Hc) as [Hs2 Hs3]. by rewrite (run_cons _ _ s1 s1 Hr Hs2), (run_cons _ _ s1 s1 Hr Hs3). }
    exists s1. rewrite <- (run_cons _ _ _ _ Hr Htick). destruct Ht as [Hnil Hsame]. rewrite Hd' in Hd.
    rewrite (Hnil Hd) in *. split_and!; [exact Hround| |by rewrite app_nil_r|done|exact Hsame].
    split; [exact (step_sound (Mqtt.EvTick q) s _ _ HI I Htick')|exact Hq|exact Hc|exact Hr|by rewrite <- Hd' in Hd].
Qed.

(** C18: A subscription makes progress: n rounds of a poller's tick, its send and
    a delivery write to the client exactly the first n ready messages of the
    queue, in delivery order, as PUBLISH packets of its topic with consecutive
    packet ids, and leave the others ready; so each ready message reaches a
    connected subscriber.  This is so whatever QoS was subscribed: the code sends
    every delivery at QoS 1, and accepts a QoS 2 subscription as QoS 1, where the MQTT
    guide promises QoS 0 deliveries without PUBACK and a refusal of QoS 2. *)
Theorem mqtt_delivers n q s :
  subscribed q s ->
  exists s', Mqtt.run (concat (replicate n (round q))) s = (Done tt, s') /\ subscribed q s' /\
    Mqtt.sent s' = Mqtt.sent s ++ publishes q (Mqtt.next_pkid s) (take n (session_ready s q)) /\
    session_ready s' q = drop n (session_ready s q).
Proof.
  revert s. induction n as [|n IH]; intros s Hs; [exists s; by rewrite app_nil_r|].
  destruct (round_run q s Hs) as (s1 & Hrun1 & Hs1 & Hsent1 & Hk1 & Hready1).
  destruct (IH s1 Hs1) as (s2 & Hrun2 & Hs2 & Hsent2 & Hready2). exists s2. split_and!; [|done|..].
  - cbn [replicate concat]. rewrite (run_app _ _ s s1 Hrun1 (sb_running _ _ Hs1)). done.
  - rewrite Hsent2, Hsent1, Hready1, Hk1, <- app_assoc. f_equal.
    destruct (session_ready s q); cbn; [by rewrite take_nil|done].
  - rewrite Hready2, Hready1. by destruct (session_ready s q); [destruct n|].
Qed.
End Claims.

Import DaemonDemo.

(** ** Witness *)

(** A client publishes two messages, subscribes, receives both, acknowledges the
    first and loses its connection. *)
Definition mqtt_events : list Mqtt.Event :=
  [Mqtt.EvPacket true (Mqtt.Publish "orders" Mqtt.AtLeastOnce 7 (str_bytes "one"));
   Mqtt.EvPacket true (Mqtt.Publish "orders" Mqtt.AtLeastOnce 8 (str_bytes "two"));
   Mqtt.EvPacket true (Mqtt.Subscribe 9 [("orders"%string, Mqtt.AtLeastOnce); ("a/+"%string, Mqtt.AtMostOnce)]);
   Mqtt.EvTick "orders"; Mqtt.EvSend "orders"; Mqtt.EvTick "orders"; Mqtt.EvSend "orders";
   Mqtt.EvDeliver true; Mqtt.EvDeliver true; Mqtt.EvPacket true (Mqtt.PubAck 1); Mqtt.EvEnd].

Definition mqtt_start : Mqtt.Session := Mqtt.mkSession (solo w_empty None) ∅ 1 ∅ [] [Mqtt.ConnAck] true.

Definition event_ok_b (ev : Mqtt.Event) (s : Mqtt.Session) : bool :=
  match ev with
  | Mqtt.EvPacket _ (Mqtt.Publish q _ _ b) =>
    safe_name q && call_ok_b (packet_call q b (app_world (Mqtt.declare_queue q (Mqtt.app s)).2))
  | Mqtt.EvPacket _ (Mqtt.Subscribe _ filters) =>
    forallb (fun f => Mqtt.has_wildcard f.1 || safe_name f.1) filters
  | _ => true
  end.

Fixpoint run_ok_b (evs : list Mqtt.Event) (s : Mqtt.Session) : bool :=
  match evs with
  | [] => true
  | ev :: evs' => negb (Mqtt.running s) || (event_ok_b ev s && run_ok_b evs' (Mqtt.step ev s).2)
  end.

Lemma event_ok_b_spec ev s : event_ok_b ev s = true -> event_ok ev s.
Proof.
  destruct ev as [ok p| |q|q|ok]; try done. destruct p; try done; cbn [event_ok_b event_ok].
  - intros [Hq Ha]%andb_true_iff. split; [done|by apply call_ok_b_spec].
  - intros Hf f Hin Hw. rewrite forallb_forall in Hf. apply list_elem_of_In, Hf in Hin. by rewrite Hw in Hin.
Qed.

Lemma run_ok_b_spec evs s : run_ok_b evs s = true -> run_ok evs s.
Proof.
  revert s. induction evs as [|ev evs IH]; intros s; [done|]. cbn [run_ok_b run_ok]. intros Hb Hr.
  rewrite Hr in Hb. cbn [negb orb] in Hb. apply andb_true_iff in Hb as [He Hok].
  split; [by apply event_ok_b_spec|by apply IH].
Qed.

Lemma mqtt_at_least_once_witness :
  exists s', Mqtt.run mqtt_events mqtt_start = (Done tt, s') /\ MqttInv s' /\
    forall q t m, flying (session_world mqtt_start) q t m -> (q, t) ∉ run_acks mqtt_events mqtt_start ->
      flying (session_world s') q t m.
Proof.
  apply (mqtt_at_least_once mqtt_events mqtt_start).
  - apply (accept_sound w_empty None (Some Mqtt.Connect) true _ w_empty_sys). reflexivity.
  - apply run_ok_b_spec. vm_compute. reflexivity.
Defined.

(** What the client sees, and what it acknowledges. *)
Lemma mqtt_events_sent :
  Mqtt.sent (Mqtt.run mqtt_events mqtt_start).2 =
    [Mqtt.ConnAck; Mqtt.PubAck 7; Mqtt.PubAck 8;
     Mqtt.SubAck 9 [Mqtt.Success Mqtt.AtLeastOnce; Mqtt.Failure];
     Mqtt.Publish "orders" Mqtt.AtLeastOnce 1 (str_bytes "one");
     Mqtt.Publish "orders" Mqtt.AtLeastOnce 2 (str_bytes "two")] /\
  run_acks mqtt_events mqtt_start = [("orders"%string, 0)].
Proof. split; vm_compute; reflexivity. Qed.

(** A client subscribed to the queue "orders" of [w_snap]. *)
Definition mqtt_accepted : Mqtt.Session := Mqtt.mkSession (solo w_snap None) ∅ 1 ∅ [] [Mqtt.ConnAck] true.
Definition mqtt_subscription : Mqtt.Event :=
  Mqtt.EvPacket true (Mqtt.Subscribe 9 [("orders"%string, Mqtt.AtLeastOnce)]).
Definition mqtt_subscribed : Mqtt.Session := (Mqtt.step mqtt_subscription mqtt_accepted).2.

Lemma mqtt_subscribed_ok : subscribed "orders" mqtt_subscribed.
Proof.
  split; [|vm_compute; reflexivity..].
  apply (step_sound mqtt_subscription mqtt_accepted (Mqtt.step mqtt_subscription mqtt_accepted).1).
  - apply (accept_sound w_snap None (Some Mqtt.Connect) true _ w_snap_sys). reflexivity.
  - apply event_ok_b_spec. vm_compute. reflexivity.
  - apply surjective_pairing.
Qed.

Lemma mqtt_delivers_witness :
  exists s', Mqtt.run (concat (replicate 2 (round "orders"))) mqtt_subscribed = (Done tt, s') /\
    subscribed "orders" s' /\
    Mqtt.sent s' = Mqtt.sent mqtt_subscribed ++
      publishes "orders" (Mqtt.next_pkid mqtt_subscribed) (take 2 (session_ready mqtt_subscribed "orders")) /\
    session_ready s' "orders" = drop 2 (session_ready mqtt_subscribed "orders").
Proof. apply (mqtt_delivers 2 "orders" mqtt_subscribed). exact mqtt_subscribed_ok. Defined.
