(* ===== verification/MqttLedger.v ===== *)
(** * MqttLedger: what a connection does to the engine, whoever else uses it

    [MqttProofs] follows the deliveries of a connection that has the engine to
    itself.  When other clients settle deliveries in between, a connection may hold
    packet ids of messages that are no longer in flight; what remains true is that
    its tags are tags, that every event is served, and that the ledger of the event
    accounts for what the queues gain and lose. *)

From Stdlib Require Import ZArith Lia.
From stdpp Require Import prelude gmap strings.
From S2P Require Import Prelude Bytes OrdMap Sled Message Bincode Keys QueueManager Store Spec Engine.
From S2P Require Import Invariant Refinement Maintenance Retention Holdings System Snapshot.
From S2P Require Import StateMachine RaftStore Daemon Modes Wire Http HttpProofs Flying Mqtt MqttProofs MqttTheorems.

Section MqttLedger.
Context `{!Sled, !SledLaws, !SledReliable, !Bincode, !BincodeLaws,
          !Environment, !EnvironmentLaws, !BuildProfile, !RaftTypes, !OpenRaft}.
Implicit Types s : Mqtt.Session.

(** The tags a connection knows of are 64-bit. *)
Definition tags_ok s : Prop := forall r, r ∈ known s -> 0 <= r.2 < u64_lim.

(** A connection to a sound Solo engine. *)
Record Connected s : Prop := {
  cn_solo : Mqtt.app s = solo (session_world s) (cluster (Mqtt.app s));
  cn_sys : SysInv (session_world s);
  cn_tags : tags_ok s;
}.

(** The ledger entries of an event. *)
Definition mqtt_ledger (ev : Mqtt.Event) s : list Event :=
  match ev with
  | Mqtt.EvPacket _ (Mqtt.Publish q _ _ b) =>
    call_ledger (packet_call q b (app_world (Mqtt.declare_queue q (Mqtt.app s)).2))
  | Mqtt.EvPacket _ (Mqtt.PubAck pkid) =>
    match Mqtt.inflight s !! pkid with Some (q, t) => (run_op (OpAck q t) (session_world s)).1 | None => [] end
  | _ => []
  end.

(** [m] returns and does to the engine what the ledger [tr] says. *)
Definition pays {A} (m : M Mqtt.Session Empty_set A) (tr : list Event) s : Prop :=
  exists a s', m s = (Done a, s') /\ Connected s' /\ cluster (Mqtt.app s') = cluster (Mqtt.app s) /\
    StepOk (session_world s) tr (session_world s').

Lemma pays_ret {A} (a : A) s : Connected s -> pays (ret a) [] s.
Proof. intros HI. exists a, s. split_and!; auto. apply StepOk_refl, HI. Qed.

Lemma pays_bind {A B} (m : M Mqtt.Session Empty_set A) (k : A -> M Mqtt.Session Empty_set B) tr1 tr2 s :
  pays m tr1 s -> (forall a s', m s = (Done a, s') -> Connected s' -> pays (k a) tr2 s') ->
  pays (bind m k) (tr1 ++ tr2) s.
Proof.
  intros (a & s1 & Hm & HI & Hc & Hok) Hn. destruct (Hn a s1 Hm HI) as (b & s2 & Hb & HI2 & Hc2 & Hok2).
  exists b, s2. unfold bind. rewrite Hm, Hb. split_and!; auto; [congruence|by eapply StepOk_trans].
Qed.

Lemma pays_gets {A B} (f : Mqtt.Session -> A) (k : A -> M Mqtt.Session Empty_set B) tr s :
  pays (k (f s)) tr s -> pays (bind (gets f) k) tr s.
Proof. done. Qed.

(** A change of the connection's own tables. *)
Lemma pays_modify (f : Mqtt.Session -> Mqtt.Session) s :
  Connected s -> Mqtt.app (f s) = Mqtt.app s -> tags_ok (f s) -> pays (modify f) [] s.
Proof.
  intros HI Happ Ht. assert (session_world (f s) = session_world s) as Hw by (unfold session_world; by rewrite Happ).
  exists tt, (f s). rewrite Hw, Happ. split_and!; [done| |done|apply StepOk_refl, HI].
  split; rewrite ?Hw, ?Happ; [apply HI..|done].
Qed.

Lemma tags_sub s s' : known s' ⊆+ known s -> tags_ok s -> tags_ok s'.
Proof. intros Hk Ht r Hr. apply Ht. by eapply elem_of_submseteq. Qed.

(** A call of the engine. *)
Lemma on_app_connected s w' :
  Connected s -> SysInv w' ->
  Connected (Mqtt.mkSession (solo w' (cluster (Mqtt.app s))) (Mqtt.inflight s) (Mqtt.next_pkid s)
    (Mqtt.subscriptions s) (Mqtt.channel s) (Mqtt.sent s) (Mqtt.running s)).
Proof. intros HI HS. split; [done|done|apply HI]. Qed.

Lemma pays_on_app {A} (call : M AppState Empty_set A) tr s :
  Connected s ->
  (exists a w', call (solo (session_world s) (cluster (Mqtt.app s))) = (Done a, solo w' (cluster (Mqtt.app s))) /\
     StepOk (session_world s) tr w') ->
  pays (Mqtt.on_app call) tr s.
Proof.
  intros HI (a & w' & Hc & Hok). eexists a, _. unfold Mqtt.on_app. rewrite (cn_solo _ HI) at 1. rewrite Hc.
  split; [reflexivity|]. split; [apply on_app_connected; [done|apply Hok]|done].
Qed.

Lemma pays_write ok p s : Connected s -> pays (Mqtt.write_send ok p) [] s.
Proof.
  intros HI. unfold Mqtt.write_send. destruct ok; [|by apply pays_ret].
  destruct (pays_modify (fun s => Mqtt.set_sent (Mqtt.sent s ++ [p]) s) s HI eq_refl) as ([] & s' & [= <-] & Hp);
    [apply HI|]. eexists _, _. split; [reflexivity|exact Hp].
Qed.

Lemma pays_close s : Connected s -> pays Mqtt.close [] s.
Proof.
  intros HI. apply pays_modify; [done..|]. intros r. unfold known, waiting. cbn. rewrite !map_to_list_empty.
  by intros ?%elem_of_nil.
Qed.

Lemma pays_go_on (on : bool) s : Connected s -> pays (if on then ret tt else Mqtt.close) [] s.
Proof. destruct on; [apply pays_ret|apply pays_close]. Qed.

Lemma pays_for_fold {A B} (l : list A) (f : B -> A -> M Mqtt.Session Empty_set B) acc s :
  (forall x, x ∈ l -> forall acc s, Connected s -> pays (f acc x) [] s) -> Connected s -> pays (for_fold l acc f) [] s.
Proof.
  revert acc s. induction l as [|x l IH]; intros acc s Hf HI; cbn; [by apply pays_ret|].
  apply (pays_bind _ _ [] []); [apply Hf; [left|done]|]. intros b s' _ HI'. apply IH; [|done].
  intros y Hy. apply Hf. by right.
Qed.

Lemma pays_for_each {A} (l : list A) (f : A -> M Mqtt.Session Empty_set unit) s :
  (forall x s, Connected s -> pays (f x) [] s) -> Connected s -> pays (for_each l f) [] s.
Proof.
  revert s. induction l as [|x l IH]; intros s Hf HI; cbn; [by apply pays_ret|].
  apply (pays_bind _ _ [] []); [by apply Hf|]. intros [] s' _ HI'. by apply IH.
Qed.

(** ** Packets *)

Lemma pays_declare q s : Connected s -> safe_name q = true -> pays (Mqtt.on_app (Mqtt.declare_queue q)) [] s.
Proof.
  intros HI Hq. apply pays_on_app; [done|].
  destruct (declare_flies q (session_world s) (cluster (Mqtt.app s)) (cn_sys _ HI) Hq) as (b & w' & Hd & Hok & _). eauto.
Qed.

Lemma pays_subscribe_filter codes f s :
  (Mqtt.has_wildcard f.1 = false -> safe_name f.1 = true) -> Connected s ->
  pays (Mqtt.subscribe_filter codes f) [] s.
Proof.
  intros Hf HI. unfold Mqtt.subscribe_filter. destruct (Mqtt.has_wildcard f.1); [by apply pays_ret|].
  apply (pays_bind _ _ [] []); [apply pays_declare; auto|]. intros b s1 _ HI1. apply pays_gets.
  destruct (Mqtt.subscriptions s1 !! f.1) eqn:E; [by apply pays_ret|].
  apply (pays_bind _ _ [] []); [|intros [] s2 _ HI2; by apply pays_ret].
  apply pays_modify; [done..|]. apply (tags_sub s1); [|apply HI1]. apply known_sub; [done|].
  apply waiting_held; [done|]. cbn [Mqtt.set_subscriptions Mqtt.subscriptions]. by rewrite held_insert by auto.
Qed.

Lemma pays_publish ok q qos pkid b s :
  Connected s -> event_ok (Mqtt.EvPacket ok (Mqtt.Publish q qos pkid b)) s ->
  pays (Mqtt.handle_client_packet ok (Mqtt.Publish q qos pkid b))
    (mqtt_ledger (Mqtt.EvPacket ok (Mqtt.Publish q qos pkid b)) s) s.
Proof.
  intros HI (Hq & Hp). cbn [Mqtt.handle_client_packet mqtt_ledger].
  rewrite <- (app_nil_l (call_ledger _)). apply pays_bind; [by apply pays_declare|]. intros d s1 Hrun HI1.
  assert (session_world s1 = app_world (Mqtt.declare_queue q (Mqtt.app s)).2) as Hw.
  { unfold Mqtt.on_app in Hrun. destruct (Mqtt.declare_queue q (Mqtt.app s)). by injection Hrun as _ <-. }
  rewrite <- Hw in Hp |- *. rewrite <- (app_nil_r (call_ledger _)). apply pays_bind.
  - apply pays_on_app; [done|].
    destruct (publish_flies q b (session_world s1) (cluster (Mqtt.app s1)) (cn_sys _ HI1) Hp) as (r & w' & Hr & Hok & _). eauto.
  - intros r s2 _ HI2. destruct (1 <=? Mqtt.qos_u8 qos); [by apply pays_write|by apply pays_ret].
Qed.

Lemma pays_puback ok pkid s :
  Connected s ->
  pays (Mqtt.handle_client_packet ok (Mqtt.PubAck pkid)) (mqtt_ledger (Mqtt.EvPacket ok (Mqtt.PubAck pkid)) s) s.
Proof.
  intros HI. cbn [Mqtt.handle_client_packet mqtt_ledger]. apply pays_gets.
  destruct (Mqtt.inflight s !! pkid) as [[q t]|] eqn:E; [|by apply pays_ret].
  assert (0 <= tag_u64 t < u64_lim) as Ht.
  { apply (cn_tags _ HI (q, tag_u64 t)). apply elem_of_app. left.
    apply (list_elem_of_fmap_2 pkid_ref _ (pkid, (q, t))). by apply elem_of_map_to_list. }
  rewrite <- (app_nil_l (run_op _ _).1). apply pays_bind.
  { apply pays_modify; [done..|]. apply (tags_sub s); [|apply HI]. apply known_sub; [|done].
    apply map_to_list_submseteq, delete_subseteq. }
  intros [] s1 Hrun HI1. injection Hrun as <-. rewrite <- (app_nil_r (run_op _ _).1). apply pays_bind.
  - apply pays_on_app; [done|].
    destruct (ack_flies q t (session_world s) (cluster (Mqtt.app s)) (cn_sys _ HI) Ht) as (w' & Hr & Hok & _). eauto.
  - intros [] s2 _ HI2. by apply pays_ret.
Qed.

Lemma pays_packet ok p s :
  Connected s -> event_ok (Mqtt.EvPacket ok p) s ->
  pays (Mqtt.handle_client_packet ok p) (mqtt_ledger (Mqtt.EvPacket ok p) s) s.
Proof.
  intros HI Hok. destruct p as [| |q qos pkid b|pkid|pkid fs|pkid codes|pkid topics|pkid| | | |];
    try by apply pays_ret.
  - by apply pays_publish.
  - by apply pays_puback.
  - cbn [Mqtt.handle_client_packet mqtt_ledger]. apply (pays_bind _ _ [] []); [|intros codes s1 _ HI1; by apply pays_write].
    apply pays_for_fold; [|done]. intros f Hf acc s1 HI1. apply pays_subscribe_filter; auto.
  - cbn [Mqtt.handle_client_packet mqtt_ledger]. apply (pays_bind _ _ [] []); [|intros [] s1 _ HI1; by apply pays_write].
    apply pays_for_each; [|done]. intros topic s1 HI1. apply pays_modify; [done..|].
    apply (tags_sub s1); [|apply HI1]. apply known_sub; [done|]. apply waiting_held; [done|]. apply held_delete.
  - by apply pays_write.
Qed.

(** ** Pollers and deliveries *)

Lemma pays_tick q s : Connected s -> pays (Mqtt.step (Mqtt.EvTick q)) [] s.
Proof.
  intros HI. cbn [Mqtt.step]. apply pays_gets.
  destruct (Mqtt.subscriptions s !! q) as [[o|]|] eqn:E; [by apply pays_ret| |by apply pays_ret].
  destruct (consume_flies q (session_world s) (cluster (Mqtt.app s)) (cn_sys _ HI)) as (o & w' & Hrun & Hok & _ & Ho).
  apply (pays_bind _ _ [] []); [apply pays_on_app; eauto|].
  intros a s1 Hs1 HI1. unfold Mqtt.on_app in Hs1. rewrite (cn_solo _ HI) in Hs1 at 1. rewrite Hrun in Hs1.
  injection Hs1 as <- <-. destruct o as [[tag m]|]; [|by apply pays_ret]. apply pays_modify; [done..|].
  intros r Hr. destruct Ho as (Hm & _). pose proof (flying_range _ _ _ _ (ok_inv _ _ _ Hok) Hm).
  apply elem_of_app in Hr as [Hr|Hr]; [apply (cn_tags _ HI), elem_of_app; by left|].
  apply list_elem_of_fmap in Hr as (o & -> & Ho). unfold waiting in Ho.
  cbn [Mqtt.set_subscriptions Mqtt.channel Mqtt.subscriptions] in Ho. rewrite held_insert in Ho by auto.
  rewrite app_assoc, (Permutation_app_comm (Mqtt.channel s)) in Ho. cbn in Ho. apply elem_of_cons in Ho as [->|Ho]; [done|].
  apply (cn_tags _ HI), elem_of_app. right. by apply (list_elem_of_fmap_2 out_ref).
Qed.

Lemma pays_send q s : Connected s -> pays (Mqtt.step (Mqtt.EvSend q)) [] s.
Proof.
  intros HI. cbn [Mqtt.step]. apply pays_gets.
  destruct (Mqtt.subscriptions s !! q) as [[o|]|] eqn:E; [|by apply pays_ret..].
  destruct (length (Mqtt.channel s) <? Mqtt.CHANNEL_CAPACITY)%nat; [|by apply pays_ret].
  apply pays_modify; [done..|]. apply (tags_sub s); [|apply HI]. apply known_sub; [done|].
  unfold waiting. cbn. by rewrite <- (held_take _ _ _ E), <- app_assoc.
Qed.

Lemma pays_deliver ok s : Connected s -> pays (Mqtt.step (Mqtt.EvDeliver ok)) [] s.
Proof.
  intros HI. cbn [Mqtt.step]. apply pays_gets. destruct (Mqtt.channel s) as [|o rest] eqn:E; [by apply pays_ret|].
  cbv zeta.
  set (s1 := Mqtt.set_inflight (<[Mqtt.next_pkid s := (Mqtt.out_queue o, Mqtt.out_tag o)]> (Mqtt.inflight s))
               (Mqtt.set_channel rest (Mqtt.set_next_pkid (as_u16 (Mqtt.next_pkid s + 1)) s))).
  assert (pays (modify (fun _ => s1)) [] s) as Hg.
  { apply pays_modify; [done..|]. apply (tags_sub s); [|apply HI].
    unfold known, waiting. rewrite E. cbn [map app]. rewrite <- Permutation_middle. cbn [s1].
    apply (submseteq_app _ (_ :: _)); [apply inflight_insert_sub|]. done. }
  enough (pays (modify (fun _ => s1) ;;;
    let* written := Mqtt.write_send ok (Mqtt.Publish (Mqtt.out_queue o) Mqtt.AtLeastOnce (Mqtt.next_pkid s) (Mqtt.out_payload o)) in
    if (written : bool) then ret tt else Mqtt.close) [] s) as Hp by exact Hp.
  apply (pays_bind _ _ [] []); [exact Hg|]. intros [] s2 _ HI2.
  apply (pays_bind _ _ [] []); [by apply pays_write|]. intros written s3 _ HI3. by apply pays_go_on.
Qed.

(** Every event of a running connection, and of a closed one. *)
Lemma pays_run ev s :
  Connected s -> (Mqtt.running s = true -> event_ok ev s) ->
  pays (Mqtt.run [ev]) (if Mqtt.running s then mqtt_ledger ev s else []) s.
Proof.
  intros HI Hok. cbn [Mqtt.run]. apply pays_gets. destruct (Mqtt.running s); [|by apply pays_ret].
  specialize (Hok eq_refl). rewrite <- (app_nil_r (mqtt_ledger ev s)).
  apply pays_bind; [|intros [] s1 _ HI1; by apply pays_ret].
  destruct ev as [ok p| |q|q|ok]; [|by apply pays_close|by apply pays_tick|by apply pays_send|by apply pays_deliver].
  cbn [Mqtt.step]. rewrite <- (app_nil_r (mqtt_ledger _ s)).
  apply pays_bind; [by apply pays_packet|]. intros on s1 _ HI1. by apply pays_go_on.
Qed.
End MqttLedger.
