(* ===== verification/Connections.v ===== *)
(** * Connections: a Solo daemon with all its clients

    [main] of src/pelicanqd/src/main.rs hands one application state to the HTTP
    router, to the gRPC services, to every streaming consume and to every MQTT
    connection ([listen] of src/pelicanqd/src/mqtt/handler.rs).  Here they run
    together: an event is a call, the opening of a stream or of a connection, one
    event of either, or a restart of the process on the flushed database, in any
    order. *)

From Stdlib Require Import ZArith Lia.
From stdpp Require Import prelude gmap strings.
From S2P Require Import Prelude Bytes OrdMap Sled Message Bincode Keys QueueManager Snapshot.
From S2P Require Import StateMachine RaftStore Daemon Wire Http Grpc FrontTheorems Stream Config Main Mqtt.

Module Process.

(** What can happen. *)
Inductive Event :=
| EvCall (call : Call)
| EvOpenStream (id : Z)
| EvStream (id : Z) (ev : Stream.Event)
| EvAccept (id : Z) (first : option Mqtt.Packet) (ok : bool)
| EvMqtt (id : Z) (ev : Mqtt.Event)
| EvRestart (e : Env).

Section Process.
Context `{!Sled, !Bincode, !Environment, !BuildProfile, !RaftTypes, !OpenRaft, !RaftStart,
          !Base64, !UuidText, !HeaderText}.

(** The configuration the process is started with. *)
Variable cfg : Config.

(** The state shared by all front ends, the stream tasks and the connections; the
    application state inside a task or a connection is the shared one whenever it
    takes a step. *)
Record Process := mkProcess {
  shared : AppState;
  tasks : gmap Z Stream.Stream;
  connections : gmap Z Mqtt.Session;
}.

Abbreviation PM := (M Process Empty_set).

Definition with_app (st : AppState) (s : Mqtt.Session) : Mqtt.Session :=
  Mqtt.mkSession st (Mqtt.inflight s) (Mqtt.next_pkid s) (Mqtt.subscriptions s) (Mqtt.channel s) (Mqtt.sent s)
    (Mqtt.running s).

(** A call answered by its front end. *)
Definition call_step (call : Call) : PM Answer :=
  fun p => let '(o, st) := answer call (shared p) in (o, mkProcess st (tasks p) (connections p)).

(** A step of the stream task [s] under [id]. *)
Definition stream_step (id : Z) (ev : Stream.Event) (s : Stream.Stream) : PM unit :=
  fun p => let '(o, s') := Stream.step ev (Stream.set_app (shared p) s) in
    (o, mkProcess (Stream.app s') (<[id := s']> (tasks p)) (connections p)).

(** A step of the connection [s] under [id], while its main loop runs. *)
Definition mqtt_step (id : Z) (ev : Mqtt.Event) (s : Mqtt.Session) : PM unit :=
  fun p => let '(o, s') := Mqtt.run [ev] (with_app (shared p) s) in
    (o, mkProcess (Mqtt.app s') (tasks p) (<[id := s']> (connections p))).

(** The process is stopped and started again, once sled has flushed its database
    in the background: what a completed flush covered is what [sled::open] recovers
    (see [System.reopen]).  The streams and the connections are gone.  While the
    flush fails there is no restart. *)
Definition restart (e : Env) : PM unit :=
  fun p =>
    match flush (db (qm (app_world (shared p)))) with
    | (Ok _, d) =>
      match main_solo cfg (mkDisk (fun _ => Ok d) (fun _ => false)) e with
      | Done started => (Done tt, mkProcess (state started) ∅ ∅)
      | OutOfFuel => (OutOfFuel, p)
      | _ => (Panic, p)
      end
    | (Err _, _) => (Done tt, p)
    end.

(** One event, with the answer of a call. *)
Definition step (ev : Event) : PM (option Answer) :=
  match ev with
  | EvCall call => let* a := call_step call in ret (Some a)
  | EvOpenStream id =>
    modify (fun p => match tasks p !! id with
      | Some _ => p
      | None => mkProcess (shared p) (<[id := Stream.consume_stream (shared p)]> (tasks p)) (connections p)
      end) ;;; ret None
  | EvStream id ev =>
    let* ts := gets tasks in
    match ts !! id with Some s => stream_step id ev s ;;; ret None | None => ret None end
  | EvAccept id first ok =>
    modify (fun p => match connections p !! id, Mqtt.accept first ok (shared p) with
      | None, Some s => mkProcess (shared p) (tasks p) (<[id := s]> (connections p))
      | _, _ => p
      end) ;;; ret None
  | EvMqtt id ev =>
    let* cs := gets connections in
    match cs !! id with Some s => mqtt_step id ev s ;;; ret None | None => ret None end
  | EvRestart e => restart e ;;; ret None
  end.

(** A run, with the answers of its calls; a panic would end it. *)
Fixpoint run (evs : list Event) : PM (list (option Answer)) :=
  match evs with
  | [] => ret []
  | ev :: evs' => let* a := step ev in let* answers := run evs' in ret (a :: answers)
  end.
End Process.
End Process.
