(* ===== verification/ConnectionsTheorems.v ===== *)
(** * ConnectionsTheorems: what a daemon guarantees to all its clients together

    Any number of HTTP and gRPC callers, streams and MQTT connections share one
    engine, with restarts of the process on its flushed database in between: no
    message an HTTP or gRPC caller was told is stored is lost, and only
    acknowledgements remove messages. *)

From Stdlib Require Import ZArith Lia.
From stdpp Require Import prelude gmap strings.
From S2P Require Import Prelude Bytes OrdMap Sled Message Bincode Keys QueueManager Store Spec Engine.
From S2P Require Import Invariant Refinement Maintenance Retention Fsck Holdings System SystemDemo Snapshot.
From S2P Require Import StateMachine RaftStore RaftDemo Daemon Modes Wire Http HttpProofs DaemonDemo.
From S2P Require Import Grpc GrpcProofs Sdk GrpcServed FrontTheorems Stream Flying StreamTheorems Config Main Mqtt MqttProofs.
From S2P Require Import MqttTheorems MqttLedger Connections.

Section Claims.
Context `{!Sled, !SledLaws, !SledReliable, !Bincode, !BincodeLaws,
          !Environment, !EnvironmentLaws, !BuildProfile, !RaftTypes, !OpenRaft, !RaftStart}.
Context `{!Base64, !UuidText, !HeaderText}.
Variable cfg : Config.
Implicit Types p : Process.Process.
Implicit Types w : World.

Definition proc_world p : World := app_world (Process.shared p).

(** A Solo process on a sound engine with the configured limit. *)
Record ProcInv p : Prop := {
  pi_solo : Process.shared p = solo (proc_world p) None;
  pi_sys : SysInv (proc_world p);
  pi_max : max_bytes (qm (proc_world p)) = cfg_max_bytes cfg;
  pi_tags : forall id s, Process.connections p !! id = Some s -> tags_ok s;
}.

Lemma shared_solo p : ProcInv p -> Process.shared p = solo (proc_world p) (cluster (Process.shared p)).
Proof. intros HI. by rewrite (pi_solo _ HI). Qed.

(** ** The ledger *)

(** The engine calls of an event are admissible. *)
Definition proc_event_ok (ev : Process.Event) p : Prop :=
  match ev with
  | Process.EvCall (HttpCall req) => request_ok req (proc_world p)
  | Process.EvCall (GrpcCall req) => rpc_ok req (proc_world p)
  | Process.EvStream id ev =>
    forall s, Process.tasks p !! id = Some s -> stream_event_ok ev (Stream.set_app (Process.shared p) s)
  | Process.EvMqtt id ev =>
    forall s, Process.connections p !! id = Some s -> Mqtt.running s = true ->
      event_ok ev (Process.with_app (Process.shared p) s)
  | Process.EvRestart e =>
    total_bytes (store (proc_world p)) < u64_lim /\ idgen (reopen e (proc_world p)) <= u64_lim
  | Process.EvOpenStream _ | Process.EvAccept _ _ _ => True
  end.

(** What an event makes the queues gain and lose. *)
Definition proc_ledger (ev : Process.Event) p : list Event :=
  match ev with
  | Process.EvCall (HttpCall req) => call_ledger (request_call req (proc_world p))
  | Process.EvCall (GrpcCall req) => rpc_ledger req (proc_world p)
  | Process.EvStream id ev =>
    match Process.tasks p !! id with
    | Some s => stream_ledger ev (Stream.set_app (Process.shared p) s)
    | None => []
    end
  | Process.EvMqtt id ev =>
    match Process.connections p !! id with
    | Some s => if Mqtt.running s then mqtt_ledger ev (Process.with_app (Process.shared p) s) else []
    | None => []
    end
  | _ => []
  end.

(** What an HTTP or gRPC caller is told is stored, from its request and the
    answer.  An MQTT client is told nothing it can rely on: its PUBACK does not
    depend on what the engine answered ([MqttProofs.puback_unconditional]). *)
Fixpoint told_batch (q : string) (ms : list Message) (rs : list Proto.PublishResponse) : list Event :=
  match ms, rs with
  | m :: ms', r :: rs' => (if Proto.deduplicated r then [] else [Accepted q m]) ++ told_batch q ms' rs'
  | _, _ => []
  end.

Definition told (ev : Process.Event) (a : option Answer) p : list Event :=
  match ev, a with
  | Process.EvCall (HttpCall (PostPublish q pl h)), Some (inl resp) =>
    match b64_decode pl with
    | Ok b => if status resp =? CREATED then [Accepted q (new_message b h (env (proc_world p)))] else []
    | Err _ => []
    end
  | Process.EvCall (GrpcCall (PublishRpc q (Some pm))), Some (inr (Ok (PublishReply r))) =>
    if Proto.deduplicated r then [] else [Accepted q (core_message pm (proc_world p)).1]
  | Process.EvCall (GrpcCall (PublishBatchRpc q pms)), Some (inr (Ok (PublishBatchReply rs))) =>
    told_batch q (core_messages pms (proc_world p)).1 rs
  | _, _ => []
  end.

(** Nothing is dropped by a retention pass. *)
Definition undropped (tr : list Event) : Prop :=
  Forall (fun ev => match ev with Dropped _ _ => False | _ => True end) tr.

Lemma run_op_undropped op w : (forall q, op <> OpRetain q) -> undropped (run_op op w).1.
Proof.
  intros Hr. destruct op as [q p|q m|q|q t|q t|q|q|e]; cbn [run_op]; try constructor.
  - destruct (publish q m w) as [[[]| | |] w']; repeat constructor.
  - destruct (ack q t w) as [[]]; [destruct (_ !! _)|..]; repeat constructor.
  - by destruct (Hr q).
Qed.

Lemma batch_run_undropped q ms w : undropped (batch_run q ms w).1.
Proof.
  revert w. induction ms as [|m ms IH]; intros w; [constructor|]. rewrite batch_run_cons.
  pose proof (run_op_undropped (OpPublish q m) w ltac:(done)) as Hu. destruct (run_op (OpPublish q m) w) as [ev w1].
  destruct (publish q m w).1; [|done..]. specialize (IH w1). destruct (batch_run q ms w1). by apply Forall_app.
Qed.

Lemma call_undropped call : (forall op w q, call = Some (op, w) -> op <> OpRetain q) -> undropped (call_ledger call).
Proof.
  intros Hc. destruct call as [[op w]|]; [|constructor]. apply run_op_undropped. intros q. by apply (Hc op w q).
Qed.

Lemma proc_undropped ev p : undropped (proc_ledger ev p).
Proof.
  destruct ev as [[req|req]|id|id ev|id first ok|id ev|e]; cbn [proc_ledger]; try constructor.
  - apply call_undropped. intros op w q. destruct req as [| |?|? pl ?|?|? ?|? ?|]; cbn [request_call]; try done;
      try (destruct (b64_decode pl); [|done]); by intros [= <- _].
  - unfold rpc_ledger. destruct req as [r| |q [pm|]|q ms|q|q n|q t|q t| |];
      try (apply call_undropped; intros op w q'; cbn [rpc_call]; try done;
           try (destruct (core_message pm (proc_world p))); by intros [= <- _]).
    destruct (core_messages ms (proc_world p)). apply batch_run_undropped.
  - destruct (Process.tasks p !! id) as [s|]; [|constructor]. unfold stream_ledger, inbound_ledger.
    destruct ev as [a| | | | |]; try constructor. destruct (at_select _); [|constructor].
    destruct (Stream.queue _), (Stream.delivery_tag a); try constructor. by apply run_op_undropped.
  - destruct (Process.connections p !! id) as [s|]; [|constructor]. destruct (Mqtt.running s); [|constructor].
    unfold mqtt_ledger. destruct ev as [ok pk| |q|q|ok]; try constructor. destruct pk; try constructor.
    + by apply run_op_undropped.
    + destruct (_ !! _) as [[q t]|]; [by apply run_op_undropped|constructor].
Qed.

(** ** What callers are told is stored, is *)

Lemma http_told q pl h b w c resp st :
  b64_decode pl = Ok b -> serve (PostPublish q pl h) (solo w c) = (Done resp, st) -> status resp = CREATED ->
  call_ledger (request_call (PostPublish q pl h) w) = [Accepted q (new_message b h (env w))].
Proof.
  intros Hb Hrun Hst. cbn [request_call]. rewrite Hb. cbn [call_ledger run_op].
  unfold serve in Hrun. cbn [build_router] in Hrun. unfold http_publish in Hrun. rewrite Hb in Hrun.
  unfold bind at 1 in Hrun. rewrite Message_new_solo, on_solo in Hrun. unfold bind, locked in Hrun.
  cbn [poisoned guarded] in Hrun.
  destruct (publish q _ _) as [[[u|]|e| |] w']; try done; injection Hrun as <- _; [done|]. by destruct e.
Qed.

Lemma grpc_told q pm w c r st :
  rpc (PublishRpc q (Some pm)) (solo w c) = (Done (PublishReply r), st) -> Proto.deduplicated r = false ->
  rpc_ledger (PublishRpc q (Some pm)) w = [Accepted q (core_message pm w).1].
Proof.
  intros Hrun Hdup. unfold rpc_ledger. cbn [rpc_call]. cbn [rpc grpc_publish] in Hrun.
  unfold bind at 1 in Hrun. unfold bind at 1 in Hrun. rewrite core_message_run in Hrun.
  destruct (core_message pm w) as [m w1]. cbn [fst snd call_ledger run_op] in *.
  rewrite on_solo in Hrun. unfold bind, locked in Hrun. cbn [poisoned guarded] in Hrun.
  destruct (publish q m w1) as [[[u|]|e| |] w']; try done; cbn in Hrun; by injection Hrun as <- _.
Qed.

(** The loop of a batch that succeeds. *)
Lemma batch_told q ms acc rs w w' :
  solo_publish_batch q ms acc w = (Done rs, w') ->
  exists rs', rs = acc ++ rs' /\ told_batch q ms rs' = (batch_run q ms w).1.
Proof.
  revert acc w. induction ms as [|m ms IH]; intros acc w; cbn [solo_publish_batch].
  { intros [= <- _]. exists []. by rewrite app_nil_r. }
  unfold bind. rewrite batch_run_cons. cbn [run_op]. destruct (publish q m w) as [[o|e| |] w1]; try done. intros Hrun.
  destruct (IH _ _ Hrun) as (rs' & -> & Hb). exists (outcome_to_proto o :: rs'). rewrite <- app_assoc. split; [done|].
  cbn [told_batch fst]. rewrite Hb. destruct (batch_run q ms w1). by destruct o.
Qed.

Lemma grpc_batch_told q pms w c rs st :
  rpc (PublishBatchRpc q pms) (solo w c) = (Done (PublishBatchReply rs), st) ->
  told_batch q (core_messages pms w).1 rs = rpc_ledger (PublishBatchRpc q pms) w.
Proof.
  intros Hrun. unfold rpc_ledger. cbn [rpc] in Hrun. unfold grpc_publish_batch in Hrun.
  unfold bind at 1 in Hrun. unfold bind at 1 in Hrun. rewrite core_messages_run in Hrun.
  destruct (core_messages pms w) as [ms w1]. cbn [fst snd] in *.
  rewrite on_solo in Hrun. unfold bind, locked in Hrun. cbn [poisoned guarded] in Hrun.
  destruct (solo_publish_batch q ms [] w1) as [[l|e| |] w'] eqn:E; try done; cbn in Hrun.
  injection Hrun as <- _. by destruct (batch_told _ _ _ _ _ _ E) as (rs' & -> & Hb).
Qed.

(** ** Steps *)

(** [m] returns, keeps the process sound, and does what the ledger says, of which
    a caller is told a part. *)
Definition proceeds (ev : Process.Event) p : Prop :=
  exists a p', Process.step cfg ev p = (Done a, p') /\ ProcInv p' /\
    StepOk (proc_world p) (proc_ledger ev p) (proc_world p') /\ told ev a p `sublist_of` proc_ledger ev p.

(** A step of the engine leaves a sound process. *)
Lemma ProcInv_step p p' w' tr (T : Prop) :
  ProcInv p -> Process.shared p' = solo w' None -> StepOk (proc_world p) tr w' ->
  (forall id s, Process.connections p' !! id = Some s -> tags_ok s) -> T ->
  ProcInv p' /\ StepOk (proc_world p) tr (proc_world p') /\ T.
Proof.
  intros HI Hs Hok Ht HT. assert (proc_world p' = w') as Hw by (unfold proc_world; by rewrite Hs). rewrite Hw.
  split; [|done]. split; rewrite ?Hw, ?Hs; auto; [apply Hok|]. rewrite (ok_max _ _ _ Hok). apply HI.
Qed.

Lemma call_proceeds call p : ProcInv p -> proc_event_ok (Process.EvCall call) p -> proceeds (Process.EvCall call) p.
Proof.
  intros HI Hok. unfold proceeds. cbn [Process.step]. unfold Process.call_step, bind at 1.
  assert (exists a w', answer call (solo (proc_world p) None) = (Done a, solo w' None) /\
    StepOk (proc_world p) (proc_ledger (Process.EvCall call) p) w' /\
    told (Process.EvCall call) (Some a) p `sublist_of` proc_ledger (Process.EvCall call) p) as (a & w' & Ha & Hs & Ht).
  { destruct call as [req|req]; cbn [answer proc_event_ok] in *.
    - destruct (serve_served req _ None (pi_sys _ HI) Hok) as (resp & w' & Hrun & Heff & _).
      exists (inl resp), w'. split; [unfold bind; by rewrite Hrun|]. split; [by apply request_step; [apply HI|..]|].
      destruct req as [| |?|q pl h|?|? ?|? ?|]; cbn [told]; try apply sublist_nil_l. cbn [proc_ledger].
      destruct (b64_decode pl) as [b|] eqn:Hb; [|apply sublist_nil_l].
      destruct (status resp =? CREATED) eqn:Hst; [|apply sublist_nil_l]. apply Z.eqb_eq in Hst.
      by rewrite (http_told q pl h b _ _ _ _ Hb Hrun Hst).
    - destruct (rpc_served req _ None (pi_sys _ HI) Hok) as (o & w' & Hrun & Hst & Hspec).
      assert (exists r, o = match r with Ok x => Done x | Err e => Fail e end) as [r ->].
      { apply grpc_spec_settled in Hspec. destruct o as [x|e| |]; [by exists (Ok x)|by exists (Err e)|done..]. }
      exists (inr r), w'. split; [unfold bind, attempt; rewrite Hrun; by destruct r|]. split; [done|].
      destruct req as [?| |q [pm|]|q ms|q|q n|q t|q t| |]; cbn [told]; try apply sublist_nil_l;
        destruct r as [[]|]; try apply sublist_nil_l; cbn [proc_ledger].
      + destruct (Proto.deduplicated r) eqn:Hd; [apply sublist_nil_l|]. by rewrite (grpc_told q pm _ _ _ _ Hrun Hd).
      + by rewrite (grpc_batch_told q ms _ _ _ _ Hrun). }
  rewrite (pi_solo _ HI), Ha. eexists _, _. split; [reflexivity|].
  by apply (ProcInv_step p _ w'); [done|done|done|apply HI|].
Qed.

Lemma stream_proceeds id ev p :
  ProcInv p -> proc_event_ok (Process.EvStream id ev) p -> proceeds (Process.EvStream id ev) p.
Proof.
  intros HI Hok. unfold proceeds. cbn [Process.step proc_ledger proc_event_ok told] in *. unfold bind at 1, gets.
  destruct (Process.tasks p !! id) as [s|] eqn:E.
  2: { exists None, p. split_and!; [done..|apply StepOk_refl, HI|done]. }
  specialize (Hok s eq_refl). set (s1 := Stream.set_app (Process.shared p) s) in *.
  assert (StreamInv s1) as HI1 by (split; [by apply shared_solo|apply HI]).
  destruct (streams_step ev s1 HI1 Hok) as (s2 & Hrun & HI2 & Hc & Hst & _).
  eexists _, _. split; [unfold bind, Process.stream_step; fold s1; rewrite Hrun; reflexivity|].
  apply (ProcInv_step p _ (stream_world s2)); [done| |exact Hst|apply HI|apply sublist_nil_l].
  cbn [Process.shared]. rewrite (si_solo _ HI2) at 1. rewrite Hc. cbn [s1 Stream.set_app Stream.app].
  by rewrite (pi_solo _ HI).
Qed.

Lemma mqtt_proceeds id ev p :
  ProcInv p -> proc_event_ok (Process.EvMqtt id ev) p -> proceeds (Process.EvMqtt id ev) p.
Proof.
  intros HI Hok. unfold proceeds. cbn [Process.step proc_ledger proc_event_ok told] in *. unfold bind at 1, gets.
  destruct (Process.connections p !! id) as [s|] eqn:E.
  2: { exists None, p. split_and!; [done..|apply StepOk_refl, HI|done]. }
  specialize (Hok s eq_refl). set (s1 := Process.with_app (Process.shared p) s) in *.
  assert (Connected s1) as HI1 by (split; [by apply shared_solo|apply HI|by apply (pi_tags _ HI id s)]).
  destruct (pays_run ev s1 HI1 Hok) as ([] & s2 & Hrun & HI2 & Hc & Hst).
  eexists _, _. split; [unfold bind, Process.mqtt_step; fold s1; rewrite Hrun; reflexivity|].
  apply (ProcInv_step p _ (session_world s2)); [done| |exact Hst| |apply sublist_nil_l].
  - cbn [Process.shared]. rewrite (cn_solo _ HI2) at 1. rewrite Hc. cbn [s1 Process.with_app Mqtt.app].
    by rewrite (pi_solo _ HI).
  - cbn [Process.connections]. intros id' s'. destruct (decide (id = id')) as [<-|Hne].
    + rewrite lookup_insert_eq. intros [= <-]. apply HI2.
    + rewrite lookup_insert_ne by done. apply HI.
Qed.

Lemma restart_proceeds e p :
  ProcInv p -> proc_event_ok (Process.EvRestart e) p -> proceeds (Process.EvRestart e) p.
Proof.
  intros HI [Htot Hn]. unfold proceeds. cbn [Process.step proc_ledger told].
  destruct (flush_done (proc_world p)) as (d & Hfl & Hv).
  destruct (opened_ok e d (proc_world p) (pi_sys _ HI) Hv Htot) as (w' & Ho & Hok).
  unfold reopen in Hn. rewrite Hfl, Ho in Hn. rewrite (pi_max _ HI) in Ho.
  eexists _, _. split.
  { unfold bind, Process.restart, main_solo. fold (proc_world p). rewrite Hfl. cbn [sled_open]. rewrite Ho. reflexivity. }
  apply (ProcInv_step p _ w'); [done|done|by apply Hok|done|apply sublist_nil_l].
Qed.

Lemma opens_proceed ev p :
  ProcInv p -> match ev with Process.EvOpenStream _ | Process.EvAccept _ _ _ => True | _ => False end ->
  proceeds ev p.
Proof.
  intros HI Hev. unfold proceeds. pose proof (StepOk_refl _ (pi_sys _ HI)) as Hrefl.
  destruct ev as [|id| |id first ok| |]; try done; cbn [Process.step proc_ledger told]; unfold bind, modify, ret;
    eexists _, _; (split; [reflexivity|]).
  - destruct (Process.tasks p !! id); [done|]. apply (ProcInv_step p _ (proc_world p)); try apply HI; done.
  - destruct (Process.connections p !! id) eqn:E; [done|].
    destruct (Mqtt.accept first ok (Process.shared p)) as [s|] eqn:Ea; [|done].
    apply (ProcInv_step p _ (proc_world p)); try apply HI; [done| |done]. cbn [Process.connections].
    intros id' s'. destruct (decide (id = id')) as [<-|Hne].
    + rewrite lookup_insert_eq. intros [= <-]. unfold Mqtt.accept in Ea. destruct first as [[]|]; try done.
      destruct ok; [|done]. injection Ea as <-. intros r. unfold known, waiting. cbn. rewrite !map_to_list_empty.
      by intros ?%elem_of_nil.
    + rewrite lookup_insert_ne by done. apply HI.
Qed.

Lemma step_proceeds ev p : ProcInv p -> proc_event_ok ev p -> proceeds ev p.
Proof.
  intros HI Hok. destruct ev.
  - by apply call_proceeds.
  - by apply opens_proceed.
  - by apply stream_proceeds.
  - by apply opens_proceed.
  - by apply mqtt_proceeds.
  - by apply restart_proceeds.
Qed.

(** ** Runs *)

Fixpoint proc_run_ok (evs : list Process.Event) p : Prop :=
  match evs with
  | [] => True
  | ev :: evs' => proc_event_ok ev p /\ proc_run_ok evs' (Process.step cfg ev p).2
  end.

Fixpoint run_ledger (evs : list Process.Event) p : list Event :=
  match evs with
  | [] => []
  | ev :: evs' => proc_ledger ev p ++ run_ledger evs' (Process.step cfg ev p).2
  end.

(** What the callers of a run are told, given its answers. *)
Fixpoint run_told (evs : list Process.Event) (answers : list (option Answer)) p : list Event :=
  match evs, answers with
  | ev :: evs', a :: answers' => told ev a p ++ run_told evs' answers' (Process.step cfg ev p).2
  | _, _ => []
  end.

(** C33: A daemon keeps its promises to all its clients at once.  In any
    interleaving of HTTP and gRPC calls, streams and MQTT connections (opened,
    served, failing and lost) and of restarts of the process on its flushed
    database, on one Solo engine: no step panics, every call is answered, and the
    process stays sound; for each queue, the messages it held and those it accepted
    are, as a multiset and up to the delivery counter, those it holds and those that
    were settled; only acknowledgements settle, nothing is dropped; every message an
    HTTP or gRPC caller was told is stored is among the accepted ones (a PUBACK says
    nothing about the engine); and the storage limit is respected. *)
Theorem daemon_keeps_messages evs p :
  ProcInv p -> proc_run_ok evs p ->
  exists answers p', Process.run cfg evs p = (Done answers, p') /\ ProcInv p' /\
    (forall q, safe_name q = true ->
      content (abs (store (proc_world p)) q) ++ map strip (accepted q (run_ledger evs p)) ≡ₚ
      content (abs (store (proc_world p')) q) ++ map strip (removed q (run_ledger evs p))) /\
    (forall q m, Dropped q m ∉ run_ledger evs p) /\
    run_told evs answers p `sublist_of` run_ledger evs p /\
    (within_limit (proc_world p) -> within_limit (proc_world p')).
Proof.
  intros HI Hok. enough (exists answers p', Process.run cfg evs p = (Done answers, p') /\ ProcInv p' /\
    StepOk (proc_world p) (run_ledger evs p) (proc_world p') /\ undropped (run_ledger evs p) /\
    run_told evs answers p `sublist_of` run_ledger evs p) as (answers & p' & Hrun & HI' & [_ Hb _ Hl] & Hu & Ht).
  { exists answers, p'. split_and!; auto. intros q m Hin. unfold undropped in Hu. rewrite Forall_forall in Hu.
    by apply Hu in Hin. }
  revert p HI Hok. induction evs as [|ev evs IH]; intros p HI Hok; cbn [Process.run run_ledger].
  { exists [], p. split_and!; [done..|apply StepOk_refl, HI|constructor|done]. }
  destruct Hok as [He Hok]. destruct (step_proceeds ev p HI He) as (a & p1 & Hstep & HI1 & Hs1 & Ht1).
  rewrite Hstep in *. cbn [snd] in *. destruct (IH p1 HI1 Hok) as (answers & p2 & Hrun & HI2 & Hs2 & Hu2 & Ht2).
  exists (a :: answers), p2. unfold bind. rewrite Hstep, Hrun. cbn [run_told]. rewrite Hstep.
  split_and!; [done..|by eapply StepOk_trans|apply Forall_app; split; [apply proc_undropped|done]|].
  by apply sublist_app.
Qed.
End Claims.

Import DaemonDemo.

(** ** Witness *)

#[local] Instance ProcStart : RaftStart :=
  {| raft_new _ _ := Ok (false : raft_t); raft_initialize _ r st := (Ok tt, (true, st)) |}.

Definition proc_config : Config :=
  mkConfig "./data" "127.0.0.1:7070" "127.0.0.1:7072" (Some 10000) (Some "127.0.0.1:1883"%string) None.

Definition proc_event_ok_b (ev : Process.Event) (p : Process.Process) : bool :=
  match ev with
  | Process.EvCall (HttpCall req) => call_ok_b (request_call req (proc_world p))
  | Process.EvCall (GrpcCall req) => rpc_ok_b req (proc_world p)
  | Process.EvStream id ev =>
    match Process.tasks p !! id with
    | Some s => stream_event_ok_b ev (Stream.set_app (Process.shared p) s)
    | None => true
    end
  | Process.EvMqtt id ev =>
    match Process.connections p !! id with
    | Some s => event_ok_b ev (Process.with_app (Process.shared p) s)
    | None => true
    end
  | Process.EvRestart e =>
    (total_bytes (store (proc_world p)) <? u64_lim) && (idgen (reopen e (proc_world p)) <=? u64_lim)
  | Process.EvOpenStream _ | Process.EvAccept _ _ _ => true
  end.

Fixpoint proc_run_ok_b (cfg : Config) (evs : list Process.Event) (p : Process.Process) : bool :=
  match evs with
  | [] => true
  | ev :: evs' => proc_event_ok_b ev p && proc_run_ok_b cfg evs' (Process.step cfg ev p).2
  end.

Lemma proc_event_ok_b_spec ev p : proc_event_ok_b ev p = true -> proc_event_ok ev p.
Proof.
  destruct ev as [[req|req]|id|id ev|id first ok|id ev|e]; cbn [proc_event_ok_b proc_event_ok]; try done.
  - apply call_ok_b_spec.
  - apply rpc_ok_b_spec.
  - intros Hb s Hs. rewrite Hs in Hb. by apply stream_event_ok_b_spec.
  - intros Hb s Hs _. rewrite Hs in Hb. by apply event_ok_b_spec.
  - rewrite andb_true_iff, Z.ltb_lt, Z.leb_le. done.
Qed.

Lemma proc_run_ok_b_spec cfg evs p : proc_run_ok_b cfg evs p = true -> proc_run_ok cfg evs p.
Proof.
  revert p. induction evs as [|ev evs IH]; intros p; [done|]. cbn [proc_run_ok_b proc_run_ok].
  intros [He Hok]%andb_true_iff. split; [by apply proc_event_ok_b_spec|by apply IH].
Qed.

(** An HTTP client, a gRPC client, a stream and an MQTT connection share a queue;
    one acknowledges what another was delivered; the process is restarted. *)
Definition proc_events : list Process.Event :=
  [Process.EvCall (HttpCall (PostQueue "orders"));
   Process.EvAccept 1 (Some Mqtt.Connect) true;
   Process.EvMqtt 1 (Mqtt.EvPacket true (Mqtt.Publish "orders" Mqtt.AtLeastOnce 7 (str_bytes "one")));
   Process.EvOpenStream 5;
   Process.EvStream 5 (Stream.Inbound (first_ack "orders"));
   Process.EvCall (HttpCall (PostPublish "orders" "cGVsaWNhbg==" ∅));
   Process.EvCall (GrpcCall (PublishBatchRpc "orders" (map Sdk.to_pb [Sdk.new [1]; Sdk.with_priority 7 (Sdk.new [2])])));
   Process.EvStream 5 Stream.Sleep;
   Process.EvMqtt 1 (Mqtt.EvPacket true (Mqtt.Subscribe 9 [("orders"%string, Mqtt.AtLeastOnce)]));
   Process.EvMqtt 1 (Mqtt.EvTick "orders"); Process.EvMqtt 1 (Mqtt.EvSend "orders"); Process.EvMqtt 1 (Mqtt.EvDeliver true);
   Process.EvCall (HttpCall (PostAck "orders" (mkTag 3)));
   Process.EvStream 5 (Stream.Inbound (ack_of 3));
   Process.EvMqtt 1 (Mqtt.EvPacket false (Mqtt.PubAck 1));
   Process.EvCall (GrpcCall (ConsumeRpc "orders"));
   Process.EvRestart (mkEnv 100 200);
   Process.EvCall (HttpCall (PostConsume "orders"));
   Process.EvStream 5 Stream.Read].

Definition proc_start : Process.Process := Process.mkProcess (solo w_empty None) ∅ ∅.

Lemma proc_start_ok : ProcInv proc_config proc_start.
Proof. split; [done|exact w_empty_sys|vm_compute; reflexivity|intros id s Hs; cbn in Hs; by rewrite lookup_empty in Hs]. Qed.

Definition show_answer (a : option Answer) : option (Z + option Code) :=
  match a with
  | Some (inl r) => Some (inl (status r))
  | Some (inr (Ok _)) => Some (inr None)
  | Some (inr (Err e)) => Some (inr (Some (code e)))
  | None => None
  end.

Lemma daemon_keeps_messages_witness :
  exists answers p', Process.run proc_config proc_events proc_start = (Done answers, p') /\ ProcInv proc_config p' /\
    (forall q, safe_name q = true ->
      content (abs (store (proc_world proc_start)) q) ++ map strip (accepted q (run_ledger proc_config proc_events proc_start)) ≡ₚ
      content (abs (store (proc_world p')) q) ++ map strip (removed q (run_ledger proc_config proc_events proc_start))) /\
    (forall q m, Dropped q m ∉ run_ledger proc_config proc_events proc_start) /\
    run_told proc_config proc_events answers proc_start `sublist_of` run_ledger proc_config proc_events proc_start /\
    (within_limit (proc_world proc_start) -> within_limit (proc_world p')).
Proof.
  apply (daemon_keeps_messages proc_config proc_events proc_start); [exact proc_start_ok|].
  apply proc_run_ok_b_spec. vm_compute. reflexivity.
Defined.

(** What the callers see, what was accepted and settled, and what they were told:
    the MQTT publisher is told nothing it can rely on. *)
Definition show_entry (ev : Event) : bool * bytes :=
  match ev with Accepted _ m => (true, Message.payload m) | Settled _ m | Dropped _ m => (false, Message.payload m) end.

Definition proc_answers : list (option Answer) :=
  match (Process.run proc_config proc_events proc_start).1 with Done l => l | _ => [] end.

Lemma proc_events_answers :
  omap show_answer proc_answers = [inl 201; inl 201; inr None; inl 200; inr None; inl 200].
Proof. vm_compute. reflexivity. Qed.

Lemma proc_events_ledger :
  map show_entry (run_ledger proc_config proc_events proc_start) =
    [(true, str_bytes "one"); (true, str_bytes "pelican"); (true, [1]); (true, [2]); (false, [2]); (false, str_bytes "one")] /\
  map show_entry (run_told proc_config proc_events proc_answers proc_start) =
    [(true, str_bytes "pelican"); (true, [1]); (true, [2])].
Proof. split; vm_compute; reflexivity. Qed.
