(* ===== verification/DaemonFaults.v ===== *)
(** * DaemonFaults: the front ends over a failing disk

    The logic of [Faults] lifted to the state that hosts the engine: a step of a
    front end [endures] when, whatever calls of the database fail, it returns, does
    not poison the lock of the engine, and its effect on the queues is a ledger
    related to its outcome.  Every HTTP request, gRPC call, event of a stream and
    event of an MQTT connection endures. *)

From Stdlib Require Import ZArith Lia.
From stdpp Require Import prelude gmap strings.
From S2P Require Import Prelude Bytes OrdMap Sled Message Bincode Keys QueueManager Store Spec Engine.
From S2P Require Import Invariant Refinement Maintenance Retention Holdings System Snapshot Faults FaultSteps.
From S2P Require Import StateMachine RaftStore Daemon Modes Wire Http HttpProofs Grpc GrpcServed.
From S2P Require Import FrontTheorems Stream StreamTheorems Mqtt MqttProofs MqttTheorems.

(** ** Calls that issue no id *)

Section Still.
Context `{!Sled, !SledLaws, !SledFaults, !Bincode, !Environment, !BuildProfile}.
Implicit Types w : World.

Definition still {A} (m : QM A) : Prop := forall w, idgen (m w).2 = idgen w.

Lemma still_ret {A} (a : A) : still (ret a).
Proof. done. Qed.
Lemma still_fail {A} e : still (fail (A := A) e).
Proof. done. Qed.
Lemma still_panic {A} : still (panic (A := A)).
Proof. done. Qed.
Lemma still_out_of_fuel {A} : still (out_of_fuel (A := A)).
Proof. done. Qed.
Lemma still_gets {A} (f : World -> A) : still (gets f).
Proof. done. Qed.
Lemma still_bind {A B} (m : QM A) (k : A -> QM B) : still m -> (forall a, still (k a)) -> still (bind m k).
Proof.
  intros Hm Hk w. specialize (Hm w). unfold bind. destruct (m w) as [[a|e| |] w1]; cbn in *; try done.
  rewrite (Hk a w1). done.
Qed.
Lemma still_try {A} (m : QM A) : still m -> still (try m).
Proof. intros Hm w. specialize (Hm w). unfold try. by destruct (m w) as [[] w1]. Qed.
Lemma still_read {A} (f : db_t -> Result string A) : still (db_read f).
Proof. intros w. unfold db_read. by destruct (f _). Qed.
Lemma still_result {A} (r : Result string A) : still (storage_err r) /\ still (serialization_err r).
Proof. by split; destruct r. Qed.
Lemma still_or_panic {A} (o : option A) : still (or_panic o).
Proof. by destruct o. Qed.
Lemma still_bytes (f : World -> Z) : still (modify (fun w => set_bytes (f w) w)).
Proof. done. Qed.
Lemma still_fold {A B} (l : list A) (body : B -> A -> QM B) acc :
  (forall acc x, still (body acc x)) -> still (for_fold l acc body).
Proof. intros Hb. revert acc. induction l as [|x l IH]; intros acc; cbn; [done|]. by apply still_bind. Qed.

Lemma still_update {A} (f : db_t -> Result string A * db_t) :
  (forall a d d', f d = (Ok a, d') -> v_idgen (view d') = v_idgen (view d)) ->
  (forall e d d', f d = (Err e, d') -> v_idgen (view d') = v_idgen (view d)) -> still (db_update f).
Proof.
  intros Ho He w. unfold db_update. destruct (f (db (qm w))) as [[a|e] d] eqn:E; cbn; [by apply Ho in E|].
  by apply He in E.
Qed.

Lemma still_open t : still (db_update (open_tree t)).
Proof. apply still_update; [|by intros e d d' [_ Hg]%open_tree_fault]. intros [] d d' Hd%open_tree_law. by rewrite Hd. Qed.
Lemma still_insert t k x : still (db_update (tree_insert t k x)).
Proof. apply still_update; [|by intros e d d' [[_ Hg]|[_ Hg]]%tree_insert_fault]. intros [] d d' Hd%tree_insert_law. by rewrite Hd. Qed.
Lemma still_remove t k : still (db_update (tree_remove t k)).
Proof. apply still_update; [|by intros e d d' [[_ Hg]|[_ Hg]]%tree_remove_fault]. intros r d d' [_ Hd]%tree_remove_law. by rewrite Hd. Qed.

Lemma still_transaction {A} (b : Tx A) : still (run_transaction b).
Proof.
  intros w. unfold run_transaction. destruct (transaction b (db (qm w))) as [r d] eqn:E.
  assert (v_idgen (view d) = idgen w) as Hg.
  { assert ((exists msg, r = TStorage msg) \/ forall msg, r <> TStorage msg) as [[msg ->]|Hr] by (destruct r; eauto).
    - by apply transaction_fault in E as [[_ Hg]|[_ Hg]].
    - pose proof (transaction_law _ _ _ _ _ E Hr) as Hc. destruct (commit_tx_contents b (view (db (qm w)))) as [_ Hc2].
      by rewrite Hc in Hc2. }
  by destruct r.
Qed.
End Still.

Create HintDb still discriminated.
#[export] Hint Resolve still_ret still_fail still_panic still_out_of_fuel still_gets still_bind still_try still_read still_or_panic
  still_bytes still_fold still_open still_insert still_remove still_transaction : still.

Section Calls.
Context `{!Sled, !SledLaws, !SledFaults, !Bincode, !BincodeLaws,
          !Environment, !EnvironmentLaws, !BuildProfile}.
Implicit Types w : World.

Lemma still_require q : still (require_queue q).
Proof. apply still_bind; [apply still_read|]. intros []; done. Qed.
#[local] Hint Resolve still_require : still.

Lemma still_count q t : still (tree_count q t).
Proof. unfold tree_count. auto 10 with still. Qed.

Lemma still_declare q p : still (declare_queue_with_retention q p).
Proof.
  unfold declare_queue_with_retention. apply still_bind; [apply still_read|]. intros []; [done|].
  repeat (apply still_bind; [auto with still|intros _]). apply still_bind; [apply still_result|]. auto with still.
Qed.

Lemma still_consume q : still (consume q).
Proof.
  unfold consume. repeat (apply still_bind; [auto with still|intros _]).
  cbn [consume_loop]. unfold iter_tree. apply still_bind; [auto with still|]. intros items.
  destruct (first_key items) as [k|]; [|auto with still]. apply still_bind; [auto with still|]. intros b.
  apply still_bind; [auto with still|]. intros [v| |e|]; auto with still.
  - apply still_bind; [apply still_result|]. auto with still.
  - apply still_bind; [auto with still|]. intros items'. destruct (first_key items') as [k'|]; [|auto with still].
    apply still_bind; [auto with still|]. intros b'. apply still_bind; [auto with still|]. intros [v'| |e'|]; auto with still.
    apply still_bind; [apply still_result|]. auto with still.
Qed.

Lemma still_ack q t : still (ack q t).
Proof.
  unfold ack. repeat (apply still_bind; [auto with still|intros _]). cbv zeta. apply still_bind; [auto with still|].
  intros [v|]; [|auto with still]. exact (still_bytes (fun w => saturating_sub (current_bytes (qm w)) (Z.of_nat (length v)))).
Qed.

(** ** Calls of the engine *)

Lemma Kept_refl w : Sound w -> Kept w [] w.
Proof. intros HS. apply (flow_quiet w w HS); [reflexivity|apply HS]. Qed.

Lemma Sound_env e w : Sound w -> Sound (set_env e w).
Proof. by intros []. Qed.

Lemma Kept_env e w tr w' : Kept (set_env e w) tr w' -> Kept w tr w'.
Proof. by intros []. Qed.

(** [f] returns a result, whatever fails, with a ledger related to it. *)
Definition survives {A} (f : QM A) (P : Result PelicanError A -> list Event -> Prop) w : Prop :=
  exists r w' tr, try f w = (Done r, w') /\ Kept w tr w' /\ P r tr.

Lemma survive {A} (f : QM A) Q F (P : Result PelicanError A -> list Event -> Prop) w :
  wpe f Q F w -> idgen (f w).2 <= u64_lim ->
  (forall a w', Q a w' -> exists tr, flow w tr w' /\ P (Ok a) tr) ->
  (forall e w', F e w' -> exists tr, flow w tr w' /\ P (Err e) tr) -> survives f P w.
Proof.
  intros Hw Hn HQ HF. unfold survives, try. unfold wpe, wp in Hw.
  destruct (f w) as [[a|e| |] w'] eqn:E; cbn in *; try done.
  - destruct (HQ _ _ Hw) as (tr & [_ HK] & HP). exists (Ok a), w', tr. auto.
  - destruct (HF _ _ Hw) as (tr & [_ HK] & HP). exists (Err e), w', tr. auto.
Qed.

Lemma survives_mono {A} (f : QM A) (P P' : Result PelicanError A -> list Event -> Prop) w :
  survives f P w -> (forall r tr, P r tr -> P' r tr) -> survives f P' w.
Proof. intros (r & w' & tr & Hf & HK & HP) Hm. exists r, w', tr. auto. Qed.

(** The queues keep what they have. *)
Abbreviation silent := (fun _ tr => tr = []).

Lemma survive_silent {A} (f : QM A) w :
  Sound w -> wpe f (fun _ w' => flow w [] w') (fun _ w' => flow w [] w') w -> still f -> survives f silent w.
Proof.
  intros HS Hw Hs. eapply survive; [exact Hw|rewrite Hs; apply HS|..]; intros a w' Hf; by exists [].
Qed.

Definition publish_told (q : string) (m : Message) (r : Result PelicanError PublishOutcome) (tr : list Event) : Prop :=
  match r with
  | Ok (Stored _) => tr = [Accepted q m]
  | Err (Storage _) => tr = [] \/ tr = [Accepted q m]
  | _ => tr = []
  end.

Lemma publish_survives q m w :
  Sound w -> admissible (OpPublish q m) w -> idgen (run_op (OpPublish q m) w).2 <= u64_lim ->
  survives (publish q m) (publish_told q m) w.
Proof.
  intros HS (Hw & Hst & Hr) Hn. eapply survive; [by apply wpe_publish| |..].
  - cbn in Hn. by destruct (publish q m w).
  - intros [u|] w' Hf; [by exists [Accepted q m]|by exists []].
  - intros e w' Hf. unfold publish_faults in Hf. unfold publish_told. destruct e; try (by exists []).
    destruct Hf; [exists []|exists [Accepted q m]]; auto.
Qed.

Lemma consume_survives q w :
  Sound w -> survives (consume q) (fun r tr => tr = [] /\ match r with Ok d => handed q w d | Err _ => True end) w.
Proof.
  intros HS. eapply survive; [by apply wpe_consume|rewrite still_consume; apply HS|..].
  - intros d w' [Hh Hf]. by exists [].
  - intros e w' Hf. by exists [].
Qed.

Lemma declare_survives q p w :
  Sound w -> admissible (OpDeclare q p) w -> survives (declare_queue_with_retention q p) silent w.
Proof. intros HS (Hq & Hp & Hs). apply survive_silent; [done|by apply wpe_declare|apply still_declare]. Qed.

Definition ack_told (q : string) (t : DeliveryTag) w (r : Result PelicanError unit) (tr : list Event) : Prop :=
  match r with
  | Ok _ => exists m, a_inflight (abs (store w) q) !! tag_u64 t = Some m /\ tr = [Settled q m]
  | Err _ => tr = [] \/ exists m, a_inflight (abs (store w) q) !! tag_u64 t = Some m /\ tr = [Settled q m]
  end.

Lemma ack_survives q t w : Sound w -> admissible (OpAck q t) w -> survives (ack q t) (ack_told q t w) w.
Proof.
  intros HS Ht. eapply survive; [by apply wpe_ack|rewrite still_ack; apply HS|..].
  - intros [] w' (m & Hm & Hf). exists [Settled q m]. split; [done|]. by exists m.
  - intros e w' [Hf|[_ (m & Hm & Hf)]]; [exists []; by split; [|left]|]. exists [Settled q m]. split; [done|]. right. by exists m.
Qed.

Lemma nack_survives q t w :
  Sound w -> admissible (OpNack q t) w -> idgen (run_op (OpNack q t) w).2 <= u64_lim -> survives (nack q t) silent w.
Proof.
  intros HS (Ht & Hm) Hn. eapply survive; [by apply wpe_nack|exact Hn|..]; intros a w' Hf; by exists [].
Qed.

Lemma count_survives q t w : Sound w -> survives (tree_count q t) silent w.
Proof.
  intros HS. apply survive_silent; [done| |apply still_count].
  assert (forall w', quiet w w' -> flow w [] w') as Hquiet by (intros w'; by apply flow_quiet).
  assert (faults (fun _ w' => flow w [] w') w) as HF by (intros e; auto).
  unfold tree_count. apply wpe_bind, wpe_require_queue; [done| |apply Hquiet; reflexivity]. intros _.
  apply wpe_bind, wpe_open; [done|]. intros w1 Q1. by apply wpe_gets, Hquiet.
Qed.

(** Calls in sequence. *)
Lemma survives_ret {A} (a : A) (P : Result PelicanError A -> list Event -> Prop) w :
  Sound w -> P (Ok a) [] -> survives (ret a) P w.
Proof. intros HS HP. exists (Ok a), w, []. split; [done|]. split; [by apply Kept_refl|done]. Qed.

Lemma survives_bind {A B} (f : QM A) (k : A -> QM B) P1 (P : Result PelicanError B -> list Event -> Prop) w :
  survives f P1 w ->
  (forall a w1 tr, f w = (Done a, w1) -> Sound w1 -> P1 (Ok a) tr -> survives (k a) (fun r tr2 => P r (tr ++ tr2)) w1) ->
  (forall e tr, P1 (Err e) tr -> P (Err e) tr) -> survives (bind f k) P w.
Proof.
  intros (r & w1 & tr & Hf & HK & HP) Hk He. unfold try in Hf.
  destruct (f w) as [[a|e| |] w1'] eqn:E; try done; injection Hf as <- <-.
  - destruct (Hk a w1' tr eq_refl (kp_sound _ _ _ HK) HP) as (r2 & w2 & tr2 & Hk2 & HK2 & HP2).
    exists r2, w2, (tr ++ tr2). unfold try, bind in *. rewrite E. split; [done|]. split; [by eapply Kept_trans|done].
  - exists (Err e), w1', tr. unfold try, bind. rewrite E. auto.
Qed.

Lemma survives_try {A} (f : QM A) w : survives f silent w -> survives (try f) silent w.
Proof. intros (r & w' & tr & Hf & HK & HP). exists (Ok r), w', tr. split; [|done]. unfold try at 1. by rewrite Hf. Qed.

Lemma survives_fold {A B} (l : list A) (body : B -> A -> QM B) acc w :
  (forall acc x w, Sound w -> survives (body acc x) silent w) -> Sound w -> survives (for_fold l acc body) silent w.
Proof.
  intros Hb. revert acc w. induction l as [|x l IH]; intros acc w HS; cbn [for_fold]; [by apply survives_ret|].
  eapply survives_bind; [by apply Hb| |done]. intros a w1 tr _ HS1 ->. eapply survives_mono; [by apply IH|]. by intros r tr ->.
Qed.

Lemma survives_gets {A B} (g : World -> A) (k : A -> QM B) P w : survives (k (g w)) P w -> survives (bind (gets g) k) P w.
Proof. done. Qed.

Lemma entries_survive w : Sound w -> survives queue_entries silent w.
Proof.
  intros HS. unfold queue_entries, list_queues. apply survives_gets, survives_fold; [|done]. clear w HS. intros acc q w HS.
  eapply survives_bind; [by apply survives_try, count_survives| |done]. intros d w1 tr _ HS1 ->. by apply survives_ret.
Qed.

Lemma infos_survive w : Sound w -> survives queue_infos silent w.
Proof.
  intros HS. unfold queue_infos, list_queues. apply survives_gets, survives_fold; [|done]. clear w HS. intros acc q w HS.
  eapply survives_bind; [by apply survives_try, count_survives| |done]. intros d w1 tr _ HS1 ->.
  eapply survives_bind; [by apply survives_try, count_survives| |done]. intros s w2 tr _ HS2 ->. by apply survives_ret.
Qed.
End Calls.

Abbreviation silent := (fun _ tr => tr = []).

(** ** Hosts of the engine *)

Definition settled {E A} (o : Outcome E A) : Prop := match o with Done _ | Fail _ => True | _ => False end.

Section Endures.
Context `{!Sled, !SledLaws, !SledFaults, !Bincode, !BincodeLaws,
          !Environment, !EnvironmentLaws, !BuildProfile, !RaftTypes, !OpenRaft}.
(** The state of a front end, the application state in it, and what else it keeps. *)
Context {S : Type} (app : S -> AppState) (extra : S -> Prop).

(** A Solo engine, sound up to its byte counter, behind a lock that is not poisoned. *)
Definition alive (s : S) : Prop :=
  app s = solo (app_world (app s)) None /\ Sound (app_world (app s)) /\ extra s.

Definition endures {E A} (m : M S E A) (P : Outcome E A -> list Event -> Prop) (s : S) : Prop :=
  exists o s' tr, m s = (o, s') /\ settled o /\ alive s' /\ Kept (app_world (app s)) tr (app_world (app s')) /\ P o tr.

Lemma endures_mono {E A} (m : M S E A) (P P' : Outcome E A -> list Event -> Prop) s :
  endures m P s -> (forall o tr, P o tr -> P' o tr) -> endures m P' s.
Proof. intros (o & s' & tr & Hm & Hs & Hl & HK & HP) HPP. exists o, s', tr. auto 10. Qed.

(** A step that does not call the engine. *)
Lemma endures_aside {E A} (m : M S E A) (P : Outcome E A -> list Event -> Prop) o s s' :
  alive s -> m s = (o, s') -> settled o -> app s' = app s -> extra s' -> P o [] -> endures m P s.
Proof.
  intros (Hs1 & Hs2 & Hx) Hm Hs Ha Hx' HP. exists o, s', []. unfold alive. rewrite Ha. split_and!; auto. by apply Kept_refl.
Qed.

Lemma endures_ret {E A} (a : A) (P : Outcome E A -> list Event -> Prop) s : alive s -> P (Done a) [] -> endures (ret a) P s.
Proof. intros Hl HP. eapply endures_aside; try done. apply Hl. Qed.

Lemma endures_fail {E A} e (P : Outcome E A -> list Event -> Prop) s : alive s -> P (Fail e) [] -> endures (fail e) P s.
Proof. intros Hl HP. eapply endures_aside; try done. apply Hl. Qed.

Lemma endures_modify {E} (f : S -> S) (P : Outcome E unit -> list Event -> Prop) s :
  alive s -> app (f s) = app s -> extra (f s) -> P (Done tt) [] -> endures (modify f) P s.
Proof. intros Hl Ha Hx HP. by eapply endures_aside. Qed.

Lemma endures_gets {E A B} (f : S -> A) (k : A -> M S E B) P s : endures (k (f s)) P s -> endures (bind (gets f) k) P s.
Proof. done. Qed.

Lemma endures_bind {E A B} (m : M S E A) (k : A -> M S E B) P1 P s :
  endures m P1 s ->
  (forall a s1 tr, m s = (Done a, s1) -> alive s1 -> P1 (Done a) tr -> endures (k a) (fun o tr2 => P o (tr ++ tr2)) s1) ->
  (forall e tr, P1 (Fail e) tr -> P (Fail e) tr) -> endures (bind m k) P s.
Proof.
  intros (o & s1 & tr & Hm & Hs & Hl & HK & HP) Hk He. destruct o as [a|e| |]; try done.
  - destruct (Hk a s1 tr Hm Hl HP) as (o2 & s2 & tr2 & Hm2 & Hs2 & Hl2 & HK2 & HP2).
    exists o2, s2, (tr ++ tr2). unfold bind. rewrite Hm. split_and!; auto. by eapply Kept_trans.
  - exists (Fail e), s1, tr. unfold bind. rewrite Hm. split_and!; auto.
Qed.

(** Two steps of which neither touches the queues. *)
Lemma endures_seq {E A B} (m : M S E A) (k : A -> M S E B) s :
  endures m silent s -> (forall a s1, m s = (Done a, s1) -> alive s1 -> endures (k a) silent s1) ->
  endures (bind m k) silent s.
Proof.
  intros Hm Hk. eapply endures_bind; [exact Hm| |done]. intros a s1 tr Hr Hl ->.
  eapply endures_mono; [by apply (Hk a)|]. by intros o tr ->.
Qed.

Lemma endures_for_fold {E A B} (l : list A) (f : B -> A -> M S E B) acc s :
  (forall x, x ∈ l -> forall acc s, alive s -> endures (f acc x) silent s) -> alive s -> endures (for_fold l acc f) silent s.
Proof.
  revert acc s. induction l as [|x l IH]; intros acc s Hf Hl; cbn; [by apply endures_ret|].
  apply endures_seq; [apply Hf; [left|done]|]. intros b s1 _ Hl1. apply IH; [|done]. intros y Hy. apply Hf. by right.
Qed.

Lemma endures_for_each {E A} (l : list A) (f : A -> M S E unit) s :
  (forall x s, alive s -> endures (f x) silent s) -> alive s -> endures (for_each l f) silent s.
Proof.
  intros Hf. revert s. induction l as [|x l IH]; intros s Hl; cbn; [by apply endures_ret|].
  apply endures_seq; [by apply Hf|]. intros [] s1 _ Hl1. by apply IH.
Qed.

(** An error turned into a value. *)
Lemma endures_attempt {E E' A} (m : M S E A) P s :
  endures m P s ->
  endures (E := E') (attempt m)
    (fun o tr => match o with Done (Ok a) => P (Done a) tr | Done (Err e) => P (Fail e) tr | _ => False end) s.
Proof.
  intros (o & s1 & tr & Hm & Hs & Hl & HK & HP).
  destruct o as [a|e| |]; try done; [exists (Done (Ok a)), s1, tr|exists (Done (Err e)), s1, tr];
    unfold attempt; rewrite Hm; auto 10.
Qed.
End Endures.

(** A call made on the application state inside a host. *)
Lemma endures_host `{!Sled, !SledLaws, !SledFaults, !Bincode, !BincodeLaws, !Environment, !EnvironmentLaws,
    !BuildProfile, !RaftTypes, !OpenRaft} {S E A} (app : S -> AppState) (extra : S -> Prop) (put : AppState -> S -> S)
    (m : M AppState E A) (lift : M S E A) P s :
  (forall st, app (put st s) = st) -> (forall st, extra (put st s)) ->
  lift s = (let '(o, st) := m (app s) in (o, put st s)) ->
  endures Datatypes.id (fun _ => True) m P (app s) -> endures app extra lift P s.
Proof.
  intros Hput Hx Hl (o & st & tr & Hm & Hs & (Ha & HS & _) & HK & HP). exists o, (put st s), tr.
  rewrite Hl, Hm. unfold alive. rewrite Hput. auto 10.
Qed.

(** The application state by itself. *)
Abbreviation app_endures := (endures (S := AppState) Datatypes.id (fun _ => True)).
Abbreviation app_alive := (alive (S := AppState) Datatypes.id (fun _ => True)).

Section FrontEnds.
Context `{!Sled, !SledLaws, !SledFaults, !Bincode, !BincodeLaws,
          !Environment, !EnvironmentLaws, !BuildProfile, !RaftTypes, !OpenRaft}.
Context `{!Base64, !UuidText, !HeaderText}.
Implicit Types w : World.
Implicit Types st : AppState.

Lemma solo_alive w : Sound w -> app_alive (solo w None).
Proof. by split. Qed.

(** A handler that makes one call under the lock and maps its result. *)
Lemma endures_call {A B E} (f : QM A) (k : Result PelicanError A -> M (Mutex World) E B) fl P0
    (P : Outcome E B -> list Event -> Prop) w :
  survives f P0 w ->
  (forall r, exists o, settled o /\ (forall mx, k r mx = (o, mx)) /\ (forall tr, P0 r tr -> P o tr)) ->
  app_endures (on_engine (let* r := locked f in k r) fl) P (solo w None).
Proof.
  intros (r & w' & tr & Hf & HK & HP) Hk. destruct (Hk r) as (o & Ho & Hmx & HPo).
  exists o, (solo w' None), tr. rewrite on_solo. unfold bind. rewrite (locked_run _ _ _ _ Hf), Hmx.
  split_and!; auto. split; [done|]. split; [apply HK|done].
Qed.

Lemma endures_env {E A} (m : M AppState E A) P e w :
  app_endures m P (solo (set_env e w) None) -> forall m', m' (solo w None) = m (solo (set_env e w) None) ->
  app_endures m' P (solo w None).
Proof.
  intros (o & s' & tr & Hm & Hs & Hl & HK & HP) m' Hm'. exists o, s', tr. rewrite Hm'. split_and!; auto.
  by apply (Kept_env e).
Qed.

(** The mapping of a result that only answers. *)
Ltac answers := let r := fresh "r" in intros r; eexists; split; [|split; [intros mx; reflexivity|]]; [done|].

(** ** HTTP *)

(** What the ledger has to do with the answer. *)
Definition http_explained (req : Request) w (o : Outcome Empty_set Response) (tr : list Event) : Prop :=
  match o with
  | Done resp =>
    match req with
    | PostPublish q p h =>
      match b64_decode p with
      | Ok b =>
        let m := new_message b h (env w) in
        (status resp = CREATED -> tr = [Accepted q m]) /\ (tr = [] \/ tr = [Accepted q m])
      | Err _ => tr = []
      end
    | PostAck q t =>
      (resp = json_response OK JNull -> tr <> []) /\
      (tr = [] \/ exists m, a_inflight (abs (store w) q) !! tag_u64 t = Some m /\ tr = [Settled q m])
    | _ => tr = []
    end
  | _ => False
  end.

(** The engine call of a request is admissible and ids remain. *)
Lemma map_error_not_created e : status (map_error e) <> CREATED.
Proof. by destruct e. Qed.

Lemma http_publish_endures q p h w :
  Sound w -> request_ok (PostPublish q p h) w ->
  app_endures (serve (PostPublish q p h)) (http_explained (PostPublish q p h) w) (solo w None).
Proof.
  intros HS Hok. unfold serve. cbn [build_router].
  change (app_endures (http_publish q p h) (http_explained (PostPublish q p h) w) (solo w None)).
  unfold request_ok in Hok. cbn [request_call] in Hok. unfold http_publish, http_explained.
  destruct (b64_decode p) as [b|err]; [|by apply endures_ret; [apply solo_alive|]].
  destruct Hok as [Ha Hn]. set (m := new_message b h (env w)) in *.
  eapply endures_env with (e := env_after_new (env w));
    [|unfold bind at 1; rewrite Message_new_solo; reflexivity].
  eapply endures_call; [apply publish_survives; [by apply Sound_env|done|done]|]. answers.
  intros tr Ht. destruct r as [[u|]|er]; cbn in *; [by split; [|right]|by split; [|left]|]. split.
  - intros Hc. by destruct (map_error_not_created er).
  - destruct er; auto.
Qed.

(** Requests that leave the queues as they are. *)
Lemma endures_http {A} (f : QM A) (g : Result PelicanError A -> Response) fl w :
  survives f silent w ->
  app_endures (on_engine (let* r := locked f in ret (g r)) fl : M AppState Empty_set Response)
    (fun o tr => match o with Done _ => tr = [] | _ => False end) (solo w None).
Proof. intros Hf. eapply endures_call; [exact Hf|]. answers. by intros tr. Qed.

Lemma http_endures req w :
  Sound w -> request_ok req w -> app_endures (serve req) (http_explained req w) (solo w None).
Proof.
  intros HS Hok. destruct req as [| |q|q p h|q|q t|q t|].
  - apply endures_ret; [by apply solo_alive|done].
  - by apply endures_http, entries_survive.
  - destruct Hok as [Ha _]. by apply endures_http, declare_survives.
  - by apply http_publish_endures.
  - eapply endures_http, survives_mono; [by apply consume_survives|]. by intros r tr [-> _].
  - destruct Hok as [Ha _]. eapply endures_call; [by apply ack_survives|]. answers.
    intros tr Ht. destruct r as [[]|e]; cbn in *; [|by split; [by destruct e|]].
    destruct Ht as (m & Hm & ->). split; [done|]. right. eauto.
  - destruct Hok as [Ha Hn]. by apply endures_http, nack_survives.
  - apply endures_ret; [by apply solo_alive|done].
Qed.
End FrontEnds.
