(* ===== verification/FrontFaults.v ===== *)
(** * FrontFaults: gRPC calls, streams and MQTT connections over a failing disk

    The calls of the gRPC services, the events of a consuming stream and the events
    of an MQTT connection endure failing calls of the database ([DaemonFaults]),
    with the ledgers their answers admit. *)

From Stdlib Require Import ZArith Lia.
From stdpp Require Import prelude gmap strings.
From S2P Require Import Prelude Bytes OrdMap Sled Message Bincode Keys QueueManager Store Spec Engine.
From S2P Require Import Invariant Refinement Maintenance Retention Holdings System Snapshot Faults FaultSteps.
From S2P Require Import StateMachine RaftStore Daemon Modes Wire Http HttpProofs Grpc GrpcServed.
From S2P Require Import FrontTheorems Stream StreamTheorems Mqtt MqttProofs MqttTheorems MqttLedger.
From S2P Require Import ConnectionsTheorems DaemonFaults.

Section Grpc.
Context `{!Sled, !SledLaws, !SledFaults, !Bincode, !BincodeLaws,
          !Environment, !EnvironmentLaws, !BuildProfile, !RaftTypes, !OpenRaft, !UuidText}.
Implicit Types w : World.

(** ** Batches *)

Lemma told_batch_offered q ms rs : told_batch q ms rs `sublist_of` map (Accepted q) ms.
Proof.
  revert rs. induction ms as [|m ms IH]; intros [|r rs]; cbn; try apply sublist_nil_l.
  destruct (Proto.deduplicated r); [apply sublist_cons, IH|apply sublist_skip, IH].
Qed.

(** The loop of a batch: the results say what was stored; after an error some of
    the messages may be. *)
Definition batch_explained (q : string) (ms : list Message) (acc : list Proto.PublishResponse)
    (r : Result PelicanError (list Proto.PublishResponse)) (tr : list Event) : Prop :=
  match r with
  | Ok rs => exists rs', rs = acc ++ rs' /\ tr = told_batch q ms rs'
  | Err _ => tr `sublist_of` map (Accepted q) ms
  end.

Lemma batch_survives q ms acc w :
  Sound w -> admissible_run (map (OpPublish q) ms) w ->
  survives (solo_publish_batch q ms acc) (batch_explained q ms acc) w.
Proof.
  revert acc w. induction ms as [|m ms IH]; intros acc w HS Ha; cbn [solo_publish_batch].
  { apply survives_ret; [done|]. exists []. by rewrite app_nil_r. }
  destruct Ha as (Ha & Hn & Hr). eapply survives_bind; [by apply publish_survives|..].
  - intros o w1 tr Hp HS1 Ht. assert ((run_op (OpPublish q m) w).2 = w1) as Hw by (cbn; by rewrite Hp).
    rewrite Hw in Hr. eapply survives_mono; [by apply IH|]. intros [rs|e] tr2; cbn [batch_explained].
    + intros (rs' & -> & ->). exists (outcome_to_proto o :: rs'). rewrite <- app_assoc. split; [done|].
      cbn [told_batch]. destruct o as [u|]; cbn in Ht; by subst tr.
    + intros Hs. destruct o as [u|]; cbn in Ht; subst tr; cbn; [by apply sublist_skip|by apply sublist_cons].
  - intros e tr Ht. cbn in *. destruct e; try destruct Ht as [Ht|Ht]; subst; try apply sublist_nil_l.
    apply sublist_skip, sublist_nil_l.
Qed.

Lemma consume_batch_survives q n acc w : Sound w -> survives (solo_consume_batch q n acc) silent w.
Proof.
  revert acc w. induction n as [|n IH]; intros acc w HS; cbn [solo_consume_batch]; [by apply survives_ret|].
  eapply survives_bind; [by apply consume_survives| |by intros e tr [-> _]].
  intros [d|] w1 tr _ HS1 [-> _]; [|by apply survives_ret]. eapply survives_mono; [by apply IH|]. by intros r tr ->.
Qed.

(** ** Calls *)

Definition grpc_explained (req : Rpc) w (o : Outcome Status RpcReply) (tr : list Event) : Prop :=
  match req with
  | PublishRpc q (Some pm) =>
    let m := (core_message pm w).1 in
    match o with
    | Done (PublishReply r) => tr = if Proto.deduplicated r then [] else [Accepted q m]
    | _ => tr = [] \/ tr = [Accepted q m]
    end
  | PublishBatchRpc q pms =>
    let ms := (core_messages pms w).1 in
    match o with
    | Done (PublishBatchReply rs) => tr = told_batch q ms rs
    | _ => tr `sublist_of` map (Accepted q) ms
    end
  | AckRpc q t =>
    match o with
    | Done _ => exists m, a_inflight (abs (store w) q) !! t = Some m /\ tr = [Settled q m]
    | _ => tr = [] \/ exists m, a_inflight (abs (store w) q) !! t = Some m /\ tr = [Settled q m]
    end
  | _ => tr = []
  end.

(** The reply wrapped around a handler. *)
Lemma endures_reply {A} (m : M AppState Status A) (g : A -> RpcReply) P (P' : Outcome Status RpcReply -> list Event -> Prop) st :
  app_endures m P st -> (forall a tr, P (Done a) tr -> P' (Done (g a)) tr) -> (forall e tr, P (Fail e) tr -> P' (Fail e) tr) ->
  app_endures (let* a := m in ret (g a)) P' st.
Proof.
  intros Hm Hd Hf. eapply endures_bind; [exact Hm| |exact Hf]. intros a s1 tr _ Hl HP.
  apply endures_ret; [done|]. rewrite app_nil_r. by apply Hd.
Qed.

(** Mapping a result to a reply or a status. *)
Lemma status_answers {A B} (P0 : Result PelicanError A -> list Event -> Prop) (g : A -> B)
    (P : Outcome Status B -> list Event -> Prop) :
  (forall a tr, P0 (Ok a) tr -> P (Done (g a)) tr) ->
  (forall e st tr, P0 (Err e) tr -> P (Fail st) tr) ->
  forall r, exists o, settled o /\
    (forall mx : Mutex World, (let* a := status_result r in ret (g a)) mx = (o, mx)) /\ (forall tr, P0 r tr -> P o tr).
Proof.
  intros Hd Hf [a|e]; [exists (Done (g a))|exists (Fail (pelican_error_to_status e))]; (split_and!; [done..|]); eauto.
Qed.

Lemma status_answers_plain {A} (P0 : Result PelicanError A -> list Event -> Prop) (P : Outcome Status A -> list Event -> Prop) :
  (forall a tr, P0 (Ok a) tr -> P (Done a) tr) -> (forall e st tr, P0 (Err e) tr -> P (Fail st) tr) ->
  forall r, exists o, settled o /\ (forall mx : Mutex World, status_result r mx = (o, mx)) /\ (forall tr, P0 r tr -> P o tr).
Proof.
  intros Hd Hf [a|e]; [exists (Done a)|exists (Fail (pelican_error_to_status e))]; (split_and!; [done..|]); eauto.
Qed.

Lemma grpc_publish_endures q pm w :
  Sound w -> rpc_ok (PublishRpc q (Some pm)) w ->
  app_endures (rpc (PublishRpc q (Some pm))) (grpc_explained (PublishRpc q (Some pm)) w) (solo w None).
Proof.
  intros HS Hok. destruct (core_message_world pm w) as [e He]. pose proof (core_message_run (E := Status) pm w None) as Hrun.
  unfold rpc_ok in Hok. cbn [rpc_call] in Hok. unfold grpc_explained.
  destruct (core_message pm w) as [m w1]. cbn [fst snd] in *. destruct Hok as [Ha Hn]. subst w1.
  cbn [rpc grpc_publish].
  eapply endures_reply with (P := fun o tr => match o with
    | Done r => tr = if Proto.deduplicated r then [] else [Accepted q m] | _ => tr = [] \/ tr = [Accepted q m] end); [|done..].
  eapply endures_env with (e := e); [|unfold bind at 1; rewrite Hrun; reflexivity].
  eapply endures_call; [apply publish_survives; [by apply Sound_env|done..]|]. apply status_answers.
  - by intros [u|] tr Ht.
  - intros er st tr Ht. destruct er; cbn in Ht; auto.
Qed.

Lemma grpc_batch_endures q pms w :
  Sound w -> rpc_ok (PublishBatchRpc q pms) w ->
  app_endures (rpc (PublishBatchRpc q pms)) (grpc_explained (PublishBatchRpc q pms) w) (solo w None).
Proof.
  intros HS Hok. assert (exists e, (core_messages pms w).2 = set_env e w) as [e He].
  { clear HS Hok. revert w. induction pms as [|pm pms IH]; intros w; cbn [core_messages]; [by exists (env w); destruct w|].
    destruct (core_message_world pm w) as [e He]. destruct (core_message pm w) as [m w1]. cbn [snd] in He. subst w1.
    destruct (IH (set_env e w)) as [e' He']. destruct (core_messages pms (set_env e w)) as [ms w2]. cbn [snd] in *. exists e'. rewrite He'. done. }
  pose proof (core_messages_run (E := Status) pms w None) as Hrun. unfold rpc_ok in Hok. unfold grpc_explained.
  destruct (core_messages pms w) as [ms w1]. cbn [fst snd] in *. subst w1. cbn [rpc].
  eapply endures_reply with (P := fun o tr => match o with
    | Done rs => tr = told_batch q ms rs | _ => tr `sublist_of` map (Accepted q) ms end); [|done..].
  eapply endures_env with (e := e); [|unfold grpc_publish_batch, bind at 1; rewrite Hrun; reflexivity].
  eapply endures_call; [apply (batch_survives q ms []); [by apply Sound_env|done]|]. apply status_answers_plain.
  - intros rs tr (rs' & -> & ->). done.
  - intros er st tr Ht. exact Ht.
Qed.

Lemma grpc_endures req w :
  Sound w -> rpc_ok req w -> app_endures (rpc req) (grpc_explained req w) (solo w None).
Proof.
  intros HS Hok. destruct req as [r| |q [pm|]|q pms|q|q n|q t|q t| |].
  - destruct Hok as [Ha _]. eapply endures_reply with (P := silent); [|done..].
    eapply endures_call; [by apply declare_survives|]. intros [[]|er]; [exists (Done true); done|].
    destruct er; (eexists; split; [|split; [intros mx; reflexivity|by intros tr]]); done.
  - eapply endures_reply with (P := silent); [|done..]. eapply endures_call; [by apply infos_survive|].
    by apply status_answers_plain.
  - by apply grpc_publish_endures.
  - eapply endures_reply with (P := silent); [|done..]. apply endures_fail; [by apply solo_alive|done].
  - by apply grpc_batch_endures.
  - eapply endures_reply with (P := silent); [|done..]. eapply endures_call; [by apply consume_survives|].
    apply status_answers; [by intros d tr [-> _]|by intros e st tr [-> _]].
  - eapply endures_reply with (P := silent); [|done..]. eapply endures_call; [by apply consume_batch_survives|].
    by apply status_answers_plain.
  - destruct Hok as [Ha _]. eapply endures_reply with (P := fun o tr => match o with
      | Done _ => exists m, a_inflight (abs (store w) q) !! t = Some m /\ tr = [Settled q m]
      | _ => tr = [] \/ exists m, a_inflight (abs (store w) q) !! t = Some m /\ tr = [Settled q m] end); [|done..].
    eapply endures_call; [by apply ack_survives|]. by apply status_answers_plain.
  - destruct Hok as [Ha Hn]. eapply endures_reply with (P := silent); [|done..].
    eapply endures_call; [by apply nack_survives|]. by apply status_answers_plain.
  - eapply endures_reply with (P := silent); [|done..]. apply endures_ret; [by apply solo_alive|done].
  - eapply endures_reply with (P := silent); [|done..].
    eapply endures_aside; [by apply solo_alive|reflexivity|done..].
Qed.
End Grpc.

(** At most the message in flight under the delivery named is settled. *)
Definition settles_at `{!Sled, !SledLaws, !Bincode} (target : option (string * Z)) (w : World) (tr : list Event) : Prop :=
  tr = [] \/ exists q t m, target = Some (q, t) /\ a_inflight (abs (store w) q) !! t = Some m /\ tr = [Settled q m].

(** ** Streams *)

Section Streams.
Context `{!Sled, !SledLaws, !SledFaults, !Bincode, !BincodeLaws,
          !Environment, !EnvironmentLaws, !BuildProfile, !RaftTypes, !OpenRaft, !UuidText}.
Implicit Types s : Stream.Stream.

Abbreviation st_endures := (endures Stream.app (fun _ => True)).
Abbreviation st_alive := (alive Stream.app (fun _ => True)).

(** The delivery an event acknowledges. *)
Definition stream_target (ev : Stream.Event) s : option (string * Z) :=
  match ev, Stream.queue s with
  | Stream.Inbound a, Some q => (fun t => (q, t)) <$> Stream.delivery_tag a
  | _, _ => None
  end.

Lemma stream_finish s : st_alive s -> st_endures Stream.finish silent s.
Proof. intros Hl. by apply endures_modify. Qed.

Lemma stream_send item stop s : st_alive s -> st_endures (Stream.send item stop) silent s.
Proof.
  intros Hl. unfold Stream.send. apply endures_gets. destruct (negb (Stream.receiver s)); [by apply stream_finish|].
  destruct (_ <? _)%nat; [|by apply endures_modify].
  apply endures_seq; [by apply endures_modify|]. intros _ s1 _ Hl1. destruct stop; [by apply stream_finish|by apply endures_ret].
Qed.

Lemma stream_resume s : st_alive s -> st_endures Stream.resume silent s.
Proof.
  intros Hl. apply endures_gets. destruct (Stream.waiting s) as [[item stop]|]; [|by apply endures_ret].
  apply endures_seq; [by apply endures_modify|]. intros _ s1 _ Hl1. by apply stream_send.
Qed.

Lemma stream_host {A} (m : M AppState Empty_set A) P s :
  app_endures m P (Stream.app s) -> st_endures (Stream.on_app m) P s.
Proof. apply (endures_host _ _ Stream.set_app); done. Qed.

Lemma alive_app s : st_alive s -> Stream.app s = solo (stream_world s) None /\ Sound (stream_world s).
Proof. by intros (? & ? & _). Qed.

(** A call settled on behalf of the client; an error ends the stream. *)
Lemma stream_settle (m : M AppState Status unit) (P : Outcome Status unit -> list Event -> Prop) Q s :
  st_alive s -> app_endures m P (Stream.app s) -> (forall o tr, P o tr -> Q tr) ->
  st_endures (let* result := Stream.on_app (attempt m) in
    match result with Err e => Stream.send (Err e) true | Ok _ => ret tt end) (fun _ tr => Q tr) s.
Proof.
  intros Hl Hm HPQ. eapply endures_bind; [eapply stream_host, endures_attempt, Hm| |done].
  intros [[]|e] s1 tr _ Hl1 HP.
  - apply endures_ret; [done|]. rewrite app_nil_r. eauto.
  - eapply endures_mono; [by apply stream_send|]. intros o tr2 ->. rewrite app_nil_r. eauto.
Qed.

Lemma stream_inbound a s :
  st_alive s -> stream_event_ok (Stream.Inbound a) s ->
  st_endures (Stream.handle_inbound a) (fun _ => settles_at (stream_target (Stream.Inbound a) s) (stream_world s)) s.
Proof.
  intros Hl Hok. destruct (alive_app s Hl) as [Happ HS]. unfold Stream.handle_inbound. apply endures_gets.
  unfold stream_event_ok, stream_target in *.
  assert (forall m : M Stream.Stream Empty_set unit, st_endures m silent s -> forall tg,
    st_endures m (fun _ => settles_at tg (stream_world s)) s) as Hq.
  { intros m Hm tg. eapply endures_mono; [exact Hm|]. intros o tr ->. by left. }
  destruct (Stream.queue s) as [q|].
  - destruct (Stream.delivery_tag a) as [t|]; cbn [fmap option_fmap option_map].
    + eapply stream_settle; [done| |].
      * rewrite Happ. eapply endures_call; [by apply ack_survives|]. by apply status_answers_plain with
          (P := fun o tr => settles_at (Some (q, t)) (stream_world s) tr);
          [intros [] tr (m & Hm & ->); right; eauto 10|intros e st tr [->|(m & Hm & ->)]; [left|right; eauto 10]].
      * by intros o tr.
    + destruct (Stream.nack_delivery_tag a) as [t|]; [|by apply Hq, endures_ret]. destruct Hok as [Ha Hn]. apply Hq.
      eapply stream_settle; [done| |].
      * rewrite Happ. eapply endures_call; [by apply nack_survives|]. by apply status_answers_plain with (P := silent).
      * by intros o tr.
  - apply Hq. destruct (Stream.ack_queue a) as [q|]; [|by apply stream_send].
    destruct (negb _); [by apply endures_modify|by apply stream_send].
Qed.

Lemma stream_sleep s : st_alive s -> st_endures Stream.handle_sleep silent s.
Proof.
  intros Hl. destruct (alive_app s Hl) as [Happ HS]. apply endures_gets.
  destruct (Stream.queue s) as [q|]; [|by apply endures_ret]. apply endures_seq.
  - apply stream_host. rewrite Happ. eapply endures_call; [by apply consume_survives|].
    intros r. eexists. split; [|split; [intros mx; reflexivity|by intros tr [-> _]]]. done.
  - intros [d|] s1 _ Hl1; [by apply stream_send|by apply endures_ret].
Qed.

Lemma stream_selecting (m : M Stream.Stream Empty_set unit) (P : Outcome Empty_set unit -> list Event -> Prop) s :
  st_alive s -> P (Done tt) [] -> (at_select s = true -> st_endures m P s) -> st_endures (Stream.selecting m) P s.
Proof.
  intros Hl HP Hm. unfold Stream.selecting. apply endures_gets. unfold at_select in Hm.
  destruct (Stream.open s); [|by apply endures_ret]. destruct (Stream.waiting s); [by apply endures_ret|by apply Hm].
Qed.

Lemma stream_endures ev s :
  st_alive s -> stream_event_ok ev s ->
  st_endures (Stream.step ev) (fun _ => settles_at (stream_target ev s) (stream_world s)) s.
Proof.
  intros Hl Hok. assert (forall m : M Stream.Stream Empty_set unit, st_endures m silent s ->
    st_endures m (fun _ => settles_at (stream_target ev s) (stream_world s)) s) as Hq.
  { intros m Hm. eapply endures_mono; [exact Hm|]. intros o tr ->. by left. }
  destruct ev as [a|text| | | |]; cbn [Stream.step].
  - apply stream_selecting; [done|by left|]. intros _. by apply stream_inbound.
  - apply Hq, stream_selecting; [done..|]. intros _. by apply stream_send.
  - apply Hq, stream_selecting; [done..|]. intros _. by apply stream_finish.
  - apply Hq, stream_selecting; [done..|]. intros _. by apply stream_sleep.
  - apply Hq, endures_gets. destruct (Stream.channel s) as [|item rest]; [by apply endures_ret|].
    apply endures_seq; [by apply endures_modify|]. intros _ s1 _ Hl1. by apply stream_resume.
  - apply Hq, endures_seq; [by apply endures_modify|]. intros _ s1 _ Hl1. by apply stream_resume.
Qed.
End Streams.

(** ** MQTT connections *)

Section Mqtt.
Context `{!Sled, !SledLaws, !SledFaults, !Bincode, !BincodeLaws,
          !Environment, !EnvironmentLaws, !BuildProfile, !RaftTypes, !OpenRaft}.
Implicit Types s : Mqtt.Session.

Abbreviation mq_endures := (endures Mqtt.app tags_ok).
Abbreviation mq_alive := (alive Mqtt.app tags_ok).

(** The message a packet offers, and the delivery it acknowledges. *)
Definition mqtt_offer (ev : Mqtt.Event) s : list Event :=
  match ev with
  | Mqtt.EvPacket _ (Mqtt.Publish q _ _ b) =>
    [Accepted q (packet_message b (env (app_world (Mqtt.declare_queue q (Mqtt.app s)).2)))]
  | _ => []
  end.
Definition mqtt_target (ev : Mqtt.Event) s : option (string * Z) :=
  match ev with
  | Mqtt.EvPacket _ (Mqtt.PubAck pkid) => (fun r => (r.1, tag_u64 r.2)) <$> Mqtt.inflight s !! pkid
  | _ => None
  end.

Definition mqtt_explained (ev : Mqtt.Event) s (tr : list Event) : Prop :=
  tr `sublist_of` mqtt_offer ev s \/ settles_at (mqtt_target ev s) (session_world s) tr.

Lemma mqtt_quiet (m : M Mqtt.Session Empty_set unit) ev s :
  mq_endures m silent s -> mq_endures m (fun _ => mqtt_explained ev s) s.
Proof. intros Hm. eapply endures_mono; [exact Hm|]. intros o tr ->. left. apply sublist_nil_l. Qed.

Lemma mqtt_host {A} (m : M AppState Empty_set A) P s :
  mq_alive s -> app_endures m P (solo (session_world s) None) -> mq_endures (Mqtt.on_app m) P s.
Proof.
  intros (Happ & HS & Ht) Hm.
  apply (endures_host _ _ (fun st s => Mqtt.mkSession st (Mqtt.inflight s) (Mqtt.next_pkid s) (Mqtt.subscriptions s)
    (Mqtt.channel s) (Mqtt.sent s) (Mqtt.running s))) with (m := m); try done. by rewrite Happ.
Qed.

Lemma mqtt_modify (f : Mqtt.Session -> Mqtt.Session) s :
  mq_alive s -> Mqtt.app (f s) = Mqtt.app s -> known (f s) ⊆+ known s -> mq_endures (modify f : M Mqtt.Session Empty_set unit) silent s.
Proof. intros Hl Ha Hk. apply endures_modify; try done. eapply tags_sub; [exact Hk|apply Hl]. Qed.

Lemma mqtt_write ok p s : mq_alive s -> mq_endures (Mqtt.write_send ok p) silent s.
Proof.
  intros Hl. destruct ok; [|by apply endures_ret].
  eapply (endures_aside _ _ _ _ _ _ (Mqtt.set_sent (Mqtt.sent s ++ [p]) s)); try done. apply Hl.
Qed.

Lemma mqtt_close s : mq_alive s -> mq_endures Mqtt.close silent s.
Proof.
  intros Hl. apply endures_modify; try done. intros r. unfold known, waiting. cbn. rewrite !map_to_list_empty.
  by intros ?%elem_of_nil.
Qed.

Lemma mqtt_go_on (on : bool) s : mq_alive s -> mq_endures (if on then ret tt else Mqtt.close) silent s.
Proof. intros Hl. destruct on; [by apply endures_ret|by apply mqtt_close]. Qed.

Lemma mqtt_declare q s :
  mq_alive s -> safe_name q = true -> mq_endures (Mqtt.on_app (Mqtt.declare_queue q)) silent s.
Proof.
  intros Hl Hq. apply mqtt_host; [done|]. eapply endures_call; [apply declare_survives; [apply Hl|by split]|].
  intros r. eexists. split; [|split; [intros mx; reflexivity|done]]. done.
Qed.

(** ** Packets *)

Lemma mqtt_filter codes f s :
  (Mqtt.has_wildcard f.1 = false -> safe_name f.1 = true) -> mq_alive s ->
  mq_endures (Mqtt.subscribe_filter codes f) silent s.
Proof.
  intros Hf Hl. unfold Mqtt.subscribe_filter. destruct (Mqtt.has_wildcard f.1); [by apply endures_ret|].
  apply endures_seq; [apply mqtt_declare; auto|]. intros b s1 _ Hl1. apply endures_gets.
  destruct (Mqtt.subscriptions s1 !! f.1) eqn:E; [by apply endures_ret|].
  apply endures_seq; [|intros [] s2 _ Hl2; by apply endures_ret]. apply mqtt_modify; [done..|].
  apply known_sub; [done|]. apply waiting_held; [done|].
  cbn [Mqtt.set_subscriptions Mqtt.subscriptions]. by rewrite held_insert by auto.
Qed.

Lemma mqtt_publish q b s :
  mq_alive s -> packet_ok q b (session_world s) ->
  mq_endures (Mqtt.on_app (Mqtt.publish_message q b))
    (fun _ tr => tr `sublist_of` [Accepted q (packet_message b (env (session_world s)))]) s.
Proof.
  intros Hl [Ha Hn]. apply mqtt_host; [done|].
  eapply endures_env with (e := env_after_new (env (session_world s)));
    [|unfold Mqtt.publish_message, bind at 1; rewrite mqtt_message_solo; reflexivity].
  eapply endures_call; [apply publish_survives; [apply Sound_env, Hl|done..]|].
  intros r. eexists. split; [|split; [intros mx; reflexivity|]]; [done|]. intros tr Ht.
  destruct r as [[u|]|e]; cbn in Ht; try destruct e; try destruct Ht as [Ht|Ht]; subst tr; try apply sublist_nil_l; done.
Qed.

Lemma mqtt_publish_packet ok q qos pkid b s :
  mq_alive s -> event_ok (Mqtt.EvPacket ok (Mqtt.Publish q qos pkid b)) s ->
  mq_endures (Mqtt.handle_client_packet ok (Mqtt.Publish q qos pkid b))
    (fun _ => mqtt_explained (Mqtt.EvPacket ok (Mqtt.Publish q qos pkid b)) s) s.
Proof.
  intros Hl (Hq & Hp). cbn [Mqtt.handle_client_packet]. eapply endures_bind; [by apply mqtt_declare| |done].
  intros d s1 tr Hrun Hl1 ->. assert (session_world s1 = app_world (Mqtt.declare_queue q (Mqtt.app s)).2) as Hw.
  { unfold Mqtt.on_app in Hrun. destruct (Mqtt.declare_queue q (Mqtt.app s)). by injection Hrun as _ <-. }
  rewrite <- Hw in Hp. eapply endures_bind; [by apply mqtt_publish| |done].
  intros r s2 tr _ Hl2 Ht. rewrite Hw in Ht.
  eapply endures_mono; [destruct (1 <=? Mqtt.qos_u8 qos); [by apply mqtt_write|by apply (endures_ret _ _ _ silent)]|].
  intros o tr2 ->. cbn [app]. rewrite app_nil_r. by left.
Qed.

Lemma mqtt_puback ok pkid s :
  mq_alive s ->
  mq_endures (Mqtt.handle_client_packet ok (Mqtt.PubAck pkid)) (fun _ => mqtt_explained (Mqtt.EvPacket ok (Mqtt.PubAck pkid)) s) s.
Proof.
  intros Hl. cbn [Mqtt.handle_client_packet]. apply endures_gets. unfold mqtt_explained. cbn [mqtt_target].
  destruct (Mqtt.inflight s !! pkid) as [[q t]|] eqn:E; [|by apply endures_ret; [|left]].
  assert (0 <= tag_u64 t < u64_lim) as Ht.
  { apply (proj2 (proj2 Hl) (q, tag_u64 t)). apply elem_of_app. left.
    apply (list_elem_of_fmap_2 pkid_ref _ (pkid, (q, t))). by apply elem_of_map_to_list. }
  eapply endures_bind; [apply mqtt_modify; [done..|]| |done].
  { apply known_sub; [|done]. apply map_to_list_submseteq, delete_subseteq. }
  intros [] s1 tr Hrun Hl1 ->. injection Hrun as <-. cbn [app].
  eapply endures_bind with (P1 := fun _ tr => settles_at (Some (q, tag_u64 t)) (session_world s) tr); [| |intros [] ? _].
  - apply mqtt_host; [done|]. eapply endures_call; [apply ack_survives; [apply Hl1|done]|].
    intros r. eexists. split; [|split; [intros mx; reflexivity|]]; [done|]. intros tr Hr.
    destruct r as [[]|e]; [destruct Hr as (m & Hm & ->); right; eauto 10|].
    destruct Hr as [->|(m & Hm & ->)]; [by left|right; eauto 10].
  - intros [] s2 tr _ Hl2 Hs. apply endures_ret; [done|]. rewrite app_nil_r. by right.
Qed.

Lemma mqtt_packet ok p s :
  mq_alive s -> event_ok (Mqtt.EvPacket ok p) s ->
  mq_endures (Mqtt.handle_client_packet ok p) (fun _ => mqtt_explained (Mqtt.EvPacket ok p) s) s.
Proof.
  intros Hl Hok.
  assert (forall m : M Mqtt.Session Empty_set bool, mq_endures m silent s ->
    mq_endures m (fun _ => mqtt_explained (Mqtt.EvPacket ok p) s) s) as Hq.
  { intros m Hm. eapply endures_mono; [exact Hm|]. intros o tr ->. left. apply sublist_nil_l. }
  destruct p as [| |q qos pkid b|pkid|pkid fs|pkid codes|pkid topics|pkid| | | |];
    try (by apply Hq, endures_ret); [by apply mqtt_publish_packet|by apply mqtt_puback|..]; apply Hq;
    cbn [Mqtt.handle_client_packet].
  - apply endures_seq; [|intros codes s1 _ Hl1; by apply mqtt_write].
    apply endures_for_fold; [|done]. intros f Hf acc s1 Hl1. apply mqtt_filter; auto.
  - apply endures_seq; [|intros [] s1 _ Hl1; by apply mqtt_write].
    apply endures_for_each; [|done]. intros topic s1 Hl1. apply mqtt_modify; [done..|].
    apply known_sub; [done|]. apply waiting_held; [done|]. apply held_delete.
  - by apply mqtt_write.
Qed.

(** ** Pollers and deliveries *)

Lemma mqtt_tick q s : mq_alive s -> mq_endures (Mqtt.step (Mqtt.EvTick q)) silent s.
Proof.
  intros Hl. cbn [Mqtt.step]. apply endures_gets.
  destruct (Mqtt.subscriptions s !! q) as [[o|]|] eqn:E; [by apply endures_ret| |by apply endures_ret].
  eapply endures_bind with (P1 := fun o tr => tr = [] /\
    match o with Done d => handed q (session_world s) d | _ => True end); [| |by intros [] ?].
  - apply mqtt_host; [done|]. eapply endures_call; [apply consume_survives, Hl|].
    intros r. eexists. split; [|split; [intros mx; reflexivity|]]; [done|]. intros tr [-> Hr]. split; [done|]. by destruct r.
  - intros d s1 tr Hs1 Hl1 [-> Hd]. destruct d as [[t m]|]; [|by apply endures_ret].
    unfold Mqtt.on_app in Hs1. destruct (Mqtt.consume_one q (Mqtt.app s)) as [o' st]. injection Hs1 as _ <-.
    apply endures_modify; try done. intros r Hr. destruct Hd as [_ Ht].
    apply elem_of_app in Hr as [Hr|Hr]; [apply (proj2 (proj2 Hl)), elem_of_app; by left|].
    apply list_elem_of_fmap in Hr as (o & -> & Ho). unfold waiting in Ho.
    cbn [Mqtt.set_subscriptions Mqtt.channel Mqtt.subscriptions] in Ho. rewrite held_insert in Ho by auto.
    rewrite app_assoc, (Permutation_app_comm (Mqtt.channel s)) in Ho. cbn in Ho. apply elem_of_cons in Ho as [->|Ho]; [done|].
    apply (proj2 (proj2 Hl)), elem_of_app. right. by apply (list_elem_of_fmap_2 out_ref).
Qed.

Lemma mqtt_send q s : mq_alive s -> mq_endures (Mqtt.step (Mqtt.EvSend q)) silent s.
Proof.
  intros Hl. cbn [Mqtt.step]. apply endures_gets.
  destruct (Mqtt.subscriptions s !! q) as [[o|]|] eqn:E; [|by apply endures_ret..].
  destruct (length (Mqtt.channel s) <? Mqtt.CHANNEL_CAPACITY)%nat; [|by apply endures_ret].
  apply mqtt_modify; [done..|]. apply known_sub; [done|]. unfold waiting. cbn. by rewrite <- (held_take _ _ _ E), <- app_assoc.
Qed.

Lemma mqtt_deliver ok s : mq_alive s -> mq_endures (Mqtt.step (Mqtt.EvDeliver ok)) silent s.
Proof.
  intros Hl. cbn [Mqtt.step]. apply endures_gets. destruct (Mqtt.channel s) as [|o rest] eqn:E; [by apply endures_ret|].
  cbv zeta.
  set (s1 := Mqtt.set_inflight (<[Mqtt.next_pkid s := (Mqtt.out_queue o, Mqtt.out_tag o)]> (Mqtt.inflight s))
               (Mqtt.set_channel rest (Mqtt.set_next_pkid (as_u16 (Mqtt.next_pkid s + 1)) s))).
  enough (mq_endures (modify (fun _ => s1) ;;;
    let* written := Mqtt.write_send ok (Mqtt.Publish (Mqtt.out_queue o) Mqtt.AtLeastOnce (Mqtt.next_pkid s) (Mqtt.out_payload o)) in
    if (written : bool) then ret tt else Mqtt.close) silent s) as Hp by exact Hp.
  apply endures_seq.
  - apply mqtt_modify; [done..|]. unfold known, waiting. rewrite E. cbn [map app]. rewrite <- Permutation_middle.
    apply (submseteq_app _ (_ :: _)); [apply inflight_insert_sub|done].
  - intros [] s2 _ Hl2. apply endures_seq; [by apply mqtt_write|]. intros written s3 _ Hl3. by apply mqtt_go_on.
Qed.

(** An event of a connection, closed ones included. *)
Lemma mqtt_endures ev s :
  mq_alive s -> (Mqtt.running s = true -> event_ok ev s) ->
  mq_endures (Mqtt.run [ev]) (fun _ tr => if Mqtt.running s then mqtt_explained ev s tr else tr = []) s.
Proof.
  intros Hl Hok. cbn [Mqtt.run]. apply endures_gets. destruct (Mqtt.running s); [|by apply endures_ret].
  specialize (Hok eq_refl). eapply endures_bind with (P1 := fun _ => mqtt_explained ev s); [| |intros []].
  - destruct ev as [ok p| |q|q|ok]; [|apply mqtt_quiet; auto using mqtt_close, mqtt_tick, mqtt_send, mqtt_deliver..].
    cbn [Mqtt.step]. eapply endures_bind; [by apply mqtt_packet| |intros []].
    intros on s1 tr _ Hl1 Ht. eapply endures_mono; [by apply mqtt_go_on|]. intros o tr2 ->. by rewrite app_nil_r.
  - intros [] s1 tr _ Hl1 Ht. unfold gets, bind. destruct (Mqtt.running s1).
    all: apply endures_ret; [done|by rewrite app_nil_r].
Qed.
End Mqtt.
