(* ===== verification/DaemonFaultTheorems.v ===== *)
(** * DaemonFaultTheorems: a daemon on a failing disk keeps its word

    Any interleaving of calls, streams, MQTT connections and restarts on one Solo
    engine, as in [ConnectionsTheorems], while any calls of the database may fail,
    with or without having taken effect.  A restart that fails leaves the process
    down until the next one. *)

From Stdlib Require Import ZArith Lia.
From stdpp Require Import prelude gmap strings.
From S2P Require Import Prelude Bytes OrdMap Sled Message Bincode Keys QueueManager Store Spec Engine.
From S2P Require Import Invariant Refinement Maintenance Retention Fsck Holdings System SystemDemo Snapshot.
From S2P Require Import Faults FaultSteps FaultTheorems.
From S2P Require Import StateMachine RaftStore RaftDemo Daemon Modes Wire Http HttpProofs Grpc GrpcServed FrontTheorems.
From S2P Require Import Stream StreamTheorems Config Main Mqtt MqttProofs MqttTheorems MqttLedger.
From S2P Require Import Connections Sdk ConnectionsTheorems DaemonFaults FrontFaults.

Section DaemonFaults.
Context `{!Sled, !SledLaws, !SledFaults, !Bincode, !BincodeLaws,
          !Environment, !EnvironmentLaws, !BuildProfile, !RaftTypes, !OpenRaft, !RaftStart}.
Context `{!Base64, !UuidText, !HeaderText}.
Variable cfg : Config.
Implicit Types p : Process.Process.
Implicit Types w : World.

(** ** The daemon *)

(** Serving, or stopped on its database. *)
Inductive Daemon := Up (p : Process.Process) | Down (w : World).

Definition d_world (d : Daemon) : World := match d with Up p => proc_world p | Down w => w end.

(** The process is started on the flushed database of [d]; unlike [main_solo]
    this keeps what a failing start has done to the database. *)
Definition boot (e : Env) (d : Daemon) : Outcome Empty_set (option Answer) * Daemon :=
  match flush (db (qm (d_world d))) with
  | (Ok _, d1) =>
    match open (Ok d1) (cfg_max_bytes cfg) e with
    | (Done _, Some w') => (Done None, Up (Process.mkProcess (solo w' None) ∅ ∅))
    | (Fail _, Some w') => (Done None, Down w')
    | (OutOfFuel, _) => (OutOfFuel, d)
    | _ => (Panic, d)
    end
  | (Err _, _) => (Done None, d)
  end.

(** A start that succeeds is the one of [main]. *)
Lemma boot_restarts e p p' :
  boot e (Up p) = (Done None, Up p') -> Process.restart cfg e p = (Done tt, p').
Proof.
  unfold boot, Process.restart, main_solo. cbn [d_world]. fold (proc_world p).
  destruct (flush _) as [[[]|msg] d]; [|by intros [= <-]]. cbn [sled_open].
  destruct (open _ _ _) as [[[]|err| |] [w'|]]; try done. by intros [= <-].
Qed.

Definition d_step (ev : Process.Event) (d : Daemon) : Outcome Empty_set (option Answer) * Daemon :=
  match ev, d with
  | Process.EvRestart e, _ => boot e d
  | _, Up p => let '(o, p') := Process.step cfg ev p in (o, Up p')
  | _, Down w => (Done None, Down w)
  end.

Fixpoint d_run (evs : list Process.Event) : M Daemon Empty_set (list (option Answer)) :=
  match evs with
  | [] => ret []
  | ev :: evs' => let* a := d_step ev in let* answers := d_run evs' in ret (a :: answers)
  end.

(** ** What the answers say about the queues *)

(** The messages an event offers, and the delivery it acknowledges. *)
Definition offers (ev : Process.Event) p : list Event :=
  match ev with
  | Process.EvCall (HttpCall (PostPublish q pl h)) =>
    match b64_decode pl with Ok b => [Accepted q (new_message b h (env (proc_world p)))] | Err _ => [] end
  | Process.EvCall (GrpcCall (PublishRpc q (Some pm))) => [Accepted q (core_message pm (proc_world p)).1]
  | Process.EvCall (GrpcCall (PublishBatchRpc q pms)) => map (Accepted q) (core_messages pms (proc_world p)).1
  | Process.EvMqtt id ev =>
    match Process.connections p !! id with
    | Some s => mqtt_offer ev (Process.with_app (Process.shared p) s)
    | None => []
    end
  | _ => []
  end.

Definition targets (ev : Process.Event) p : option (string * Z) :=
  match ev with
  | Process.EvCall (HttpCall (PostAck q t)) => Some (q, tag_u64 t)
  | Process.EvCall (GrpcCall (AckRpc q t)) => Some (q, t)
  | Process.EvStream id ev =>
    s ← Process.tasks p !! id; stream_target ev (Stream.set_app (Process.shared p) s)
  | Process.EvMqtt id ev =>
    s ← Process.connections p !! id; mqtt_target ev (Process.with_app (Process.shared p) s)
  | _ => None
  end.

(** The caller is told that its acknowledgement counts. *)
Definition confirms (ev : Process.Event) (a : option Answer) : Prop :=
  match ev, a with
  | Process.EvCall (HttpCall (PostAck _ _)), Some (inl resp) => resp = json_response OK JNull
  | Process.EvCall (GrpcCall (AckRpc _ _)), Some (inr (Ok _)) => True
  | _, _ => False
  end.

(** The ledgers an event and its answer admit: all that the caller was told is
    stored, nothing but what the event offered, at most the delivery it names. *)
Definition event_explained (ev : Process.Event) (a : option Answer) p (tr : list Event) : Prop :=
  ConnectionsTheorems.told ev a p `sublist_of` tr /\
  (tr `sublist_of` offers ev p \/ settles_at (targets ev p) (proc_world p) tr) /\
  (confirms ev a -> tr <> []).

(** A recovery that fails may leave messages of a queue ready and in flight. *)
Definition boot_explained (e : Env) (d : Daemon) (tr : list Event) : Prop :=
  match (boot e d).2 with
  | Up _ => tr = []
  | Down _ =>
    exists q ms, ms `sublist_of` raw_msgs (slot (store (d_world d)) Inflight q) /\ tr = map (Accepted q) ms
  end.

Definition explained (ev : Process.Event) (a : option Answer) (d : Daemon) (tr : list Event) : Prop :=
  match ev, d with
  | Process.EvRestart e, _ => boot_explained e d tr
  | _, Up p => event_explained ev a p tr
  | _, Down _ => tr = []
  end.

Inductive accounts : list Process.Event -> list (option Answer) -> Daemon -> list Event -> Prop :=
| accounts_nil d : accounts [] [] d []
| accounts_cons ev evs a answers d tr1 tr2 :
    explained ev a d tr1 -> accounts evs answers (d_step ev d).2 tr2 ->
    accounts (ev :: evs) (a :: answers) d (tr1 ++ tr2).

(** ** Invariant and admissible runs *)

Record UpInv p : Prop := {
  up_solo : Process.shared p = solo (proc_world p) None;
  up_sound : Sound (proc_world p);
  up_tags : forall id s, Process.connections p !! id = Some s -> tags_ok s;
}.

Definition DInv (d : Daemon) : Prop :=
  max_bytes (qm (d_world d)) = cfg_max_bytes cfg /\ match d with Up p => UpInv p | Down w => Sound w end.

Definition d_event_ok (ev : Process.Event) (d : Daemon) : Prop :=
  match ev, d with
  | Process.EvRestart e, _ =>
    total_bytes (store (d_world d)) < u64_lim /\ idgen (reopen e (d_world d)) <= u64_lim
  | _, Up p => proc_event_ok ev p
  | _, Down _ => True
  end.

Fixpoint d_run_ok (evs : list Process.Event) (d : Daemon) : Prop :=
  match evs with
  | [] => True
  | ev :: evs' => d_event_ok ev d /\ d_run_ok evs' (d_step ev d).2
  end.

(** ** Steps *)

Definition holds_out (ev : Process.Event) (d : Daemon) : Prop :=
  exists a d' tr, d_step ev d = (Done a, d') /\ DInv d' /\ Kept (d_world d) tr (d_world d') /\ explained ev a d tr.

Lemma and_regroup (A B C : Prop) : (A /\ B) /\ C -> A /\ B /\ C.
Proof. tauto. Qed.

Lemma DInv_up p p' w' tr :
  DInv (Up p) -> Process.shared p' = solo w' None -> Kept (proc_world p) tr w' ->
  (forall id s, Process.connections p' !! id = Some s -> tags_ok s) ->
  DInv (Up p') /\ Kept (proc_world p) tr (proc_world p').
Proof.
  intros [Hm HI] Hs HK Ht. assert (proc_world p' = w') as Hw by (unfold proc_world; by rewrite Hs).
  split; [|by rewrite Hw]. split; cbn [d_world]; [rewrite Hw, (kp_max _ _ _ HK); exact Hm|].
  split; rewrite ?Hw; [done|apply HK|done].
Qed.

Lemma call_explained call p o tr :
  match call with
  | HttpCall req => match o with inl resp => http_explained req (proc_world p) (Done resp) tr | _ => False end
  | GrpcCall req =>
    match o with
    | inr (Ok x) => grpc_explained req (proc_world p) (Done x) tr
    | inr (Err e) => grpc_explained req (proc_world p) (Fail e) tr
    | _ => False
    end
  end -> event_explained (Process.EvCall call) (Some o) p tr.
Proof.
  assert (forall l : list Event, [] `sublist_of` l) as Hnil by apply sublist_nil_l.
  intros Hx. unfold event_explained. destruct call as [req|req].
  - destruct o as [resp|]; [|done]. destruct req as [| |q|q pl h|q|q t|q t|]; cbn in Hx |- *; try (subst tr; by auto).
    + destruct (b64_decode pl) as [b|]; [|by subst; auto]. destruct Hx as [Hc Ht]. split_and!; [| |done].
      * destruct (status resp =? CREATED) eqn:E; [|apply Hnil]. apply Z.eqb_eq in E. by rewrite (Hc E).
      * left. destruct Ht as [->| ->]; [apply Hnil|done].
    + destruct Hx as [Hc Ht]. split_and!; [apply Hnil| |exact Hc]. right. destruct Ht as [->|(m & Hm & ->)]; [by left|].
      right. eauto 10.
  - destruct o as [|r]; [done|]. destruct req as [?| |q [pm|]|q pms|q|q n|q t|q t| |]; cbn [grpc_explained] in Hx;
      try (assert (tr = []) as -> by (destruct r; exact Hx); split_and!; [by destruct r as [[]|]|auto|done]).
    + destruct r as [[]|]; cbn [ConnectionsTheorems.told offers targets confirms]; (split_and!; [| |done]);
        try apply Hnil; try (subst tr; by destruct (Proto.deduplicated r)); left; try (destruct Hx as [->| ->]; auto; done).
      subst tr. destruct (Proto.deduplicated r); [apply Hnil|done].
    + destruct r as [[]|]; cbn [ConnectionsTheorems.told offers targets confirms]; (split_and!; [| |done]);
        try apply Hnil; try (by left); [by subst|]. left. subst. apply told_batch_offered.
    + destruct r as [x|]; cbn [ConnectionsTheorems.told offers targets confirms];
        [|split_and!; [apply Hnil| |done]; right; destruct Hx as [->|(m & Hm & ->)]; [by left|right; eauto 10]].
      destruct Hx as (m & Hm & ->). split_and!; [by destruct x|right; right; eauto 10|done].
Qed.

(** An endured call as a value. *)
Lemma answer_endures call p :
  UpInv p -> proc_event_ok (Process.EvCall call) p ->
  exists a w' tr, answer call (solo (proc_world p) None) = (Done a, solo w' None) /\ Kept (proc_world p) tr w' /\
    event_explained (Process.EvCall call) (Some a) p tr.
Proof.
  intros HI Hok. destruct call as [req|req]; cbn [answer proc_event_ok] in *.
  - destruct (http_endures req _ (up_sound _ HI) Hok) as (o & st & tr & Hr & Ho & (Hl & _ & _) & HK & Hx).
    destruct o as [resp|[]| |]; try done. exists (inl resp), (app_world st), tr. unfold bind. rewrite Hr.
    change (Datatypes.id st) with st in *. rewrite <- Hl. split_and!; [done..|]. by apply call_explained.
  - destruct (grpc_endures req _ (up_sound _ HI) Hok) as (o & st & tr & Hr & Ho & (Hl & _ & _) & HK & Hx).
    change (Datatypes.id st) with st in *.
    destruct o as [x|er| |]; try done; [exists (inr (Ok x)), (app_world st), tr|exists (inr (Err er)), (app_world st), tr];
      unfold bind, attempt; rewrite Hr, <- Hl; (split_and!; [done..|by apply call_explained]).
Qed.

Lemma call_holds call p : DInv (Up p) -> proc_event_ok (Process.EvCall call) p -> holds_out (Process.EvCall call) (Up p).
Proof.
  intros HD Hok. pose proof HD as [_ HI]. destruct (answer_endures call p HI Hok) as (a & w' & tr & Ha & HK & Hx).
  unfold holds_out. cbn [d_step Process.step]. unfold bind, Process.call_step. rewrite (up_solo _ HI), Ha.
  eexists _, _, tr. split; [reflexivity|]. apply and_regroup. split; [|exact Hx].
  apply (DInv_up p _ w'); [done..|apply HI].
Qed.

Lemma stream_holds id ev p :
  DInv (Up p) -> proc_event_ok (Process.EvStream id ev) p -> holds_out (Process.EvStream id ev) (Up p).
Proof.
  intros HD Hok. pose proof HD as [_ HI]. unfold holds_out. cbn [d_step Process.step proc_event_ok] in *. unfold bind at 1, gets.
  destruct (Process.tasks p !! id) as [s|] eqn:E.
  2: { exists None, (Up p), []. split; [done|]. split; [done|]. split; [apply Kept_refl, HI|].
       split_and!; [done|left; apply sublist_nil_l|done]. }
  specialize (Hok s eq_refl). set (s1 := Stream.set_app (Process.shared p) s) in *.
  assert (alive Stream.app (fun _ => True) s1) as Hl by (split; [exact (up_solo _ HI)|split; [apply HI|done]]).
  destruct (stream_endures ev s1 Hl Hok) as (o & s2 & tr & Hr & Ho & (Hl2 & _ & _) & HK & Hx).
  destruct o as [[]|[]| |]; try done.
  eexists _, _, tr. split; [unfold bind, Process.stream_step; fold s1; rewrite Hr; reflexivity|].
  apply and_regroup. split; [apply (DInv_up p _ (app_world (Stream.app s2))); [done|exact Hl2|exact HK|apply HI]|].
  split_and!; [apply sublist_nil_l| |done]. right. cbn [targets]. rewrite E. exact Hx.
Qed.

Lemma mqtt_holds id ev p :
  DInv (Up p) -> proc_event_ok (Process.EvMqtt id ev) p -> holds_out (Process.EvMqtt id ev) (Up p).
Proof.
  intros HD Hok. pose proof HD as [_ HI]. unfold holds_out. cbn [d_step Process.step proc_event_ok] in *. unfold bind at 1, gets.
  destruct (Process.connections p !! id) as [s|] eqn:E.
  2: { exists None, (Up p), []. split; [done|]. split; [done|]. split; [apply Kept_refl, HI|].
       split_and!; [done|left; apply sublist_nil_l|done]. }
  specialize (Hok s eq_refl). set (s1 := Process.with_app (Process.shared p) s) in *.
  assert (alive Mqtt.app tags_ok s1) as Hl
    by (split; [exact (up_solo _ HI)|split; [apply HI|exact (up_tags _ HI _ _ E)]]).
  destruct (mqtt_endures ev s1 Hl Hok) as (o & s2 & tr & Hr & Ho & (Hl2 & _ & Ht2) & HK & Hx).
  destruct o as [[]|[]| |]; try done.
  eexists _, _, tr. split; [unfold bind, Process.mqtt_step; fold s1; rewrite Hr; reflexivity|].
  apply and_regroup. split.
  - apply (DInv_up p _ (app_world (Mqtt.app s2))); [done|exact Hl2|exact HK|]. cbn [Process.connections].
    intros id' s'. destruct (decide (id = id')) as [<-|Hne]; [rewrite lookup_insert_eq; by intros [= <-]|].
    rewrite lookup_insert_ne by done. apply HI.
  - split_and!; [apply sublist_nil_l| |done]. cbn [offers targets]. rewrite E. cbn [mbind option_bind].
    destruct (Mqtt.running s1); [exact Hx|]. subst tr. left. apply sublist_nil_l.
Qed.

Lemma opens_hold ev p :
  DInv (Up p) -> match ev with Process.EvOpenStream _ | Process.EvAccept _ _ _ => True | _ => False end -> holds_out ev (Up p).
Proof.
  intros HD Hev. pose proof HD as [_ HI]. pose proof (Kept_refl _ (up_sound _ HI)) as Hrefl.
  assert (event_explained ev None p []) as Hx by (split_and!; [by destruct ev as [| | | | |]|left; apply sublist_nil_l|by destruct ev as [[]| | | | |]]).
  unfold holds_out. destruct ev as [|id| |id first ok| |]; try done; cbn [d_step Process.step]; unfold bind, modify, ret;
    eexists _, _, []; (split; [reflexivity|]); apply and_regroup; (split; [|exact Hx]).
  - destruct (Process.tasks p !! id); [done|]. apply (DInv_up p _ (proc_world p)); try apply HI; done.
  - destruct (Process.connections p !! id) eqn:E; [done|].
    destruct (Mqtt.accept first ok (Process.shared p)) as [s|] eqn:Ea; [|done].
    apply (DInv_up p _ (proc_world p)); try apply HI; [done..|]. cbn [Process.connections].
    intros id' s'. destruct (decide (id = id')) as [<-|Hne]; [|rewrite lookup_insert_ne by done; apply HI].
    rewrite lookup_insert_eq. intros [= <-]. unfold Mqtt.accept in Ea. destruct first as [[]|]; try done.
    destruct ok; [|done]. injection Ea as <-. intros r. unfold known, waiting. cbn. rewrite !map_to_list_empty.
    by intros ?%elem_of_nil.
Qed.

Lemma DInv_sound d : DInv d -> Sound (d_world d).
Proof. intros [_ HI]. destruct d; [apply HI|done]. Qed.

Lemma boot_holds e d : DInv d -> d_event_ok (Process.EvRestart e) d -> holds_out (Process.EvRestart e) d.
Proof.
  intros HD [Htot Hn]. pose proof (DInv_sound d HD) as HS. pose proof HD as [Hm _]. unfold holds_out, explained, boot_explained.
  cbn [d_step]. unfold boot. set (w := d_world d) in *. destruct (flush (db (qm w))) as [[[]|msg] d1] eqn:Hfl.
  2: { exists None, d, []. split; [done|]. split; [done|]. split; [by apply Kept_refl|].
       cbn [snd]. destruct d; [done|]. exists ""%string, []. split; [apply sublist_nil_l|done]. }
  unfold reopen in Hn. rewrite Hfl in Hn. apply flush_law in Hfl. set (w0 := mkWorld (mkQM d1 0 (cfg_max_bytes cfg)) e).
  assert (w0 = reborn e d1 w) as Hw0 by (unfold w0, reborn; by rewrite Hm).
  assert (idgen (open_body w0).2 <= u64_lim) as Hn'.
  { rewrite Hm in Hn. unfold open in Hn. fold w0 in Hn. by destruct (open_body w0). }
  assert (store w0 = store w) as HS0 by (unfold store; cbn; by rewrite Hfl).
  pose proof (wpe_open_body w0) as Hop. rewrite HS0 in Hop. rewrite Hw0 in Hop at 1.
  specialize (Hop (Sound_reborn e d1 w HS Hfl) Htot).
  assert (forall tr w', flow w0 tr w' -> idgen w' <= u64_lim -> Kept w tr w' /\ max_bytes (qm w') = cfg_max_bytes cfg) as Hk.
  { intros tr w' Hf Hg. pose proof Hf as [_ HK]. pose proof (kp_max _ _ _ (HK Hg)) as Hmax. split; [|exact Hmax].
    rewrite Hw0 in Hf. apply (flow_reborn e d1 w _ _ Hfl) in Hf as [_ HK']. auto. }
  unfold open. fold w0.
  unfold wpe, wp in Hop. destruct (open_body w0) as [[[]|er| |] w'] eqn:E; try done; cbn [snd] in Hn'.
  - destruct (Hk _ _ Hop Hn') as [HK Hmax]. exists None, (Up (Process.mkProcess (solo w' None) ∅ ∅)), [].
    split; [done|]. split; [|done]. split; [exact Hmax|]. split; [done|apply HK|done].
  - destruct Hop as (q & ms & Hsub & Hf). destruct (Hk _ _ Hf Hn') as [HK Hmax].
    exists None, (Down w'), (map (Accepted q) ms). split; [done|]. split; [split; [exact Hmax|apply HK]|]. split; [done|].
    exists q, ms. by rewrite HS0 in Hsub.
Qed.

Lemma step_holds ev d : DInv d -> d_event_ok ev d -> holds_out ev d.
Proof.
  intros HD Hok. assert (forall e, ev = Process.EvRestart e -> holds_out ev d) as Hboot by (intros e ->; by apply boot_holds).
  destruct d as [p|w].
  - destruct ev; [by apply call_holds|by apply opens_hold|by apply stream_holds|by apply opens_hold|by apply mqtt_holds|eauto].
  - destruct ev; [..|by eauto]; exists None, (Down w), []; (split; [done|]; split; [done|]; split; [apply Kept_refl, HD|done]).
Qed.

(** C22: A Solo daemon keeps its word on a failing disk.  In any interleaving of HTTP
    and gRPC calls, streams, MQTT connections and restarts on the flushed database,
    while any calls of the database may fail at any point, with or without having
    taken effect: no step panics, so the lock of the engine is never poisoned, every
    call is answered, and the store stays sound; there is a ledger, by which the
    messages of every queue add up, such that every message an HTTP or gRPC caller
    was told is stored is in it, a call adds nothing but what it offered, an
    acknowledgement settles at most the message in flight under the delivery it
    names and does so if the caller was told so, and a start that fails inside the
    recovery may add messages of one queue that were in flight once more. *)
Theorem daemon_survives_faults evs d :
  DInv d -> d_run_ok evs d ->
  exists answers tr d', d_run evs d = (Done answers, d') /\ DInv d' /\ accounts evs answers d tr /\
    forall q, safe_name q = true ->
      content (abs (store (d_world d)) q) ++ map strip (accepted q tr) ≡ₚ
      content (abs (store (d_world d')) q) ++ map strip (removed q tr).
Proof.
  intros HD Hok. enough (exists answers tr d', d_run evs d = (Done answers, d') /\ DInv d' /\ accounts evs answers d tr /\
    Kept (d_world d) tr (d_world d')) as (answers & tr & d' & Hrun & HD' & Ha & HK).
  { exists answers, tr, d'. split_and!; auto. apply HK. }
  revert d HD Hok. induction evs as [|ev evs IH]; intros d HD Hok; cbn [d_run].
  { exists [], [], d. split_and!; [done..|constructor|by apply Kept_refl, DInv_sound]. }
  destruct Hok as [He Hok]. destruct (step_holds ev d HD He) as (a & d1 & tr1 & Hs & HD1 & HK1 & Hx).
  rewrite Hs in Hok. cbn [snd] in Hok. destruct (IH d1 HD1 Hok) as (answers & tr2 & d2 & Hrun & HD2 & Ha & HK2).
  exists (a :: answers), (tr1 ++ tr2), d2. unfold bind. rewrite Hs, Hrun.
  split_and!; [done..|constructor; [done|by rewrite Hs]|by eapply Kept_trans].
Qed.
End DaemonFaults.

(** ** Witness *)

Module FlakyDaemon.
Import Flaky FaultDemo Demo WireRef RaftDemo.

(** A Solo daemon never asks openraft anything. *)
#[export] Instance NoRaft : OpenRaft (H := FlakySled) := {|
  raft_t := unit;
  raft_error := string;
  raft_client_write _ r s := (Err "no cluster"%string, (r, s));
  forward_to_leader _ := None;
  raft_error_display e := e;
  metrics_id _ := 0;
  metrics_leader _ := None |}.
#[export] Instance NoRaftStart : RaftStart (H := FlakySled) :=
  {| raft_new _ _ := Ok tt; raft_initialize _ r st := (Ok tt, (r, st)) |}.

(** A daemon on the database of [SysDemo.w_snap], on a disk that serves [n] more calls. *)
Definition serving (n : nat) : Daemon (H := FlakySled) :=
  Up (Process.mkProcess (solo (on_disk n) None) ∅ ∅).

Definition event_ok_b (ev : Process.Event) (d : Daemon) : bool :=
  match ev, d with
  | Process.EvRestart e, _ =>
    (total_bytes (store (d_world d)) <? u64_lim) && (idgen (reopen e (d_world d)) <=? u64_lim)
  | Process.EvCall (HttpCall req), Up p => call_ok_b (request_call req (proc_world p))
  | Process.EvCall (GrpcCall req), Up p => rpc_ok_b req (proc_world p)
  | Process.EvOpenStream _, _ | Process.EvAccept _ _ _, _ => true
  | Process.EvMqtt id (Mqtt.EvPacket _ (Mqtt.Publish q _ _ b)), Up p =>
    match Process.connections p !! id with
    | Some s => safe_name q &&
        call_ok_b (packet_call q b (app_world (Mqtt.declare_queue q (Mqtt.app (Process.with_app (Process.shared p) s))).2))
    | None => true
    end
  | _, Up _ => false
  | _, Down _ => true
  end.

Fixpoint run_ok_b (evs : list Process.Event) (d : Daemon) : bool :=
  match evs with
  | [] => true
  | ev :: evs' => event_ok_b ev d && run_ok_b evs' (d_step ConnectionsTheorems.proc_config ev d).2
  end.

Lemma d_event_ok_b_spec ev d : event_ok_b ev d = true -> d_event_ok ev d.
Proof.
  destruct ev as [[req|req]|id|id ev|id first ok|id ev|e], d as [p|w]; cbn [event_ok_b d_event_ok proc_event_ok]; try done.
  - apply call_ok_b_spec.
  - apply rpc_ok_b_spec.
  - destruct ev as [ok pk| | | |]; try done. destruct pk; try done. intros Hb s Hs _. rewrite Hs in Hb.
    apply andb_true_iff in Hb as [Hq Hc]. split; [done|by apply call_ok_b_spec].
  - rewrite andb_true_iff, Z.ltb_lt, Z.leb_le. done.
  - rewrite andb_true_iff, Z.ltb_lt, Z.leb_le. done.
Qed.

Lemma d_run_ok_b_spec evs d : run_ok_b evs d = true -> d_run_ok ConnectionsTheorems.proc_config evs d.
Proof.
  revert d. induction evs as [|ev evs IH]; intros d; [done|]. cbn [run_ok_b d_run_ok].
  intros [He Hr]%andb_true_iff. split; [by apply d_event_ok_b_spec|by apply IH].
Qed.

(** A delivery, a publish over HTTP and a batch over gRPC of which the second
    message meets the failure; an MQTT publish on the dead disk; a restart that is
    not reached, since the database cannot be flushed; a call that needs no disk. *)
Definition failing_events : list Process.Event :=
  [Process.EvCall (HttpCall (PostConsume "orders"));
   Process.EvCall (HttpCall (PostPublish "orders" "cGVsaWNhbg==" ∅));
   Process.EvCall (GrpcCall (PublishBatchRpc "orders" (map Sdk.Sdk.to_pb [Sdk.Sdk.new [1]; Sdk.Sdk.new [2]])));
   Process.EvAccept 1 (Some Mqtt.Connect) true;
   Process.EvMqtt 1 (Mqtt.EvPacket true (Mqtt.Publish "orders" Mqtt.AtLeastOnce 7 [3]));
   Process.EvRestart (mkEnv 50 50);
   Process.EvCall (HttpCall GetHealth)].

Lemma serving_inv n : DInv ConnectionsTheorems.proc_config (serving n).
Proof. split; [reflexivity|]. split; [reflexivity|apply on_disk_sound|done]. Qed.

(** The batch is refused after its first message was stored, and the process still
    answers at the end. *)
Lemma failing_events_answers :
  match d_run ConnectionsTheorems.proc_config failing_events (serving 10) with
  | (Done [Some (inl delivery); Some (inl created); Some (inr (Err _)); None; None; None; Some (inl health)], Up _) =>
    status delivery = OK /\ status created = CREATED /\ status health = OK
  | _ => False
  end.
Proof. vm_compute. repeat split; reflexivity. Qed.

(** A start that fails in the middle of the recovery: nobody answers afterwards,
    and the message in flight is held twice. *)
Lemma failed_start :
  match d_run ConnectionsTheorems.proc_config
          [Process.EvCall (HttpCall (PostConsume "orders")); Process.EvRestart (mkEnv 50 50);
           Process.EvCall (HttpCall GetHealth)] (serving 14) with
  | (Done [Some (inl delivery); None; None], Down w) =>
    status delivery = OK /\
    length (content (abs (store w) "orders")) = S (length (content (abs (store (d_world (serving 14))) "orders")))
  | _ => False
  end.
Proof. vm_compute. split; reflexivity. Qed.
End FlakyDaemon.

Import Flaky FaultDemo Demo WireRef RaftDemo FlakyDaemon.

Lemma daemon_survives_faults_witness :
  exists answers tr d',
    d_run ConnectionsTheorems.proc_config failing_events (serving 10) = (Done answers, d') /\
    accounts ConnectionsTheorems.proc_config failing_events answers (serving 10) tr /\
    content (abs (store (d_world (serving 10))) "orders") ++ map strip (accepted "orders" tr) ≡ₚ
    content (abs (store (d_world d')) "orders") ++ map strip (removed "orders" tr).
Proof.
  destruct (daemon_survives_faults ConnectionsTheorems.proc_config failing_events (serving 10))
    as (answers & tr & d' & Hrun & _ & Ha & Hq).
  - exact (serving_inv 10).
  - apply d_run_ok_b_spec. vm_compute. reflexivity.
  - exists answers, tr, d'. split; [exact Hrun|]. split; [exact Ha|]. apply Hq. vm_compute. reflexivity.
Defined.
