(* ===== verification/Conformance.v ===== *)
(** * Conformance: the unit tests of the engine, run on the model

    The test modules of src/pelicanq-core/src/queue.rs and message.rs, statement
    by statement: [unwrap] and the assertions panic, a test passes when it
    returns.  They are generic in the database, the codec, the clock and the build
    profile; [engine_tests_pass] runs all of them on the reference instances, in
    both profiles.  A wrong reading of the code would show up as a failing test. *)

From Stdlib Require Import ZArith Lia.
From stdpp Require Import prelude gmap strings.
From S2P Require Import Prelude Bytes OrdMap Sled Message Bincode Keys QueueManager Fsck.

(** ** Test scripts *)

Section Script.
Context {S E : Type}.

(** [.unwrap()] on a result, [.unwrap_err()], [.unwrap().unwrap()] and [assert!]. *)
Definition unwrap {E' A} (m : M S E' A) : M S E A :=
  let* r := attempt m in match r with Ok a => ret a | Err _ => panic end.
Definition unwrap_err {E' A} (m : M S E' A) : M S E E' :=
  let* r := attempt m in match r with Ok _ => panic | Err e => ret e end.
Definition unwrap_some {E' A} (m : M S E' (option A)) : M S E A :=
  let* o := unwrap m in or_panic o.
Definition assert (b : bool) : M S E unit := if b then ret tt else panic.
End Script.

Definition assert_eq {S E A} `{!EqDecision A} (a b : A) : M S E unit := assert (bool_decide (a = b)).

Definition is_not_found (e : PelicanError) : bool := match e with QueueNotFound _ => true | _ => false end.
Definition is_already_exists (e : PelicanError) : bool := match e with QueueAlreadyExists _ => true | _ => false end.
Definition is_invalid_tag (e : PelicanError) : bool := match e with InvalidDeliveryTag _ => true | _ => false end.
Definition is_stored (o : PublishOutcome) : bool := match o with Stored _ => true | Deduplicated => false end.

Definition passed {E} (o : Outcome E unit) : bool := match o with Done _ => true | _ => false end.

(** ** queue.rs *)

Module QueueTests.
Section QueueTests.
Context `{!Sled, !Bincode, !Environment, !BuildProfile}.
(** What [sled::open] returns for a fresh temporary directory. *)
Variable fresh : db_t.
(** [std::thread::sleep]. *)
Variable sleep : Z -> QM unit.

(** Opening an engine on the directory the test already used. *)
Definition reopen (max : option Z) : QM unit :=
  fun w =>
    match open (Ok (db (qm w))) max (env w) with
    | (Done _, Some w') => (Done tt, w')
    | _ => (Panic, w)
    end.

Definition with_dir (max : option Z) (f : QM unit) (e : Env) : Outcome PelicanError unit :=
  match open (Ok fresh) max e with
  | (Done _, Some w) => (f w).1
  | _ => Panic
  end.

Definition with_manager (f : QM unit) (e : Env) : Outcome PelicanError unit := with_dir None f e.

(** [Message::new(text.to_vec(), HashMap::new())], and publishing it. *)
Definition message (text : string) : QM Message := Message_new (str_bytes text) ∅.
Definition publish_new (queue text : string) (build : Message -> Message) : QM PublishOutcome :=
  let* m := message text in unwrap (publish queue (build m)).
Definition publish_plain (queue text : string) : QM PublishOutcome := publish_new queue text (fun m => m).
Definition consume_some (queue : string) : QM (DeliveryTag * Message) := unwrap_some (consume queue).

(** [assert_eq!(m.payload, text)], on the next message. *)
Definition expect_next (queue text : string) : QM DeliveryTag :=
  let* d := consume_some queue in
  assert_eq (payload d.2) (str_bytes text) ;;; ret d.1.
Definition expect_depth (queue : string) (n : nat) : QM unit :=
  let* d := unwrap (depth queue) in assert_eq d n.
Definition expect_scheduled (queue : string) (n : nat) : QM unit :=
  let* d := unwrap (scheduled_depth queue) in assert_eq d n.
Definition expect_dead (queue : string) (n : nat) : QM unit :=
  let* d := unwrap (dead_letter_count queue) in assert_eq d n.
Definition expect_empty (queue : string) : QM unit :=
  let* d := unwrap (consume queue) in assert_eq d None.
Definition expect_err {A} (matches : PelicanError -> bool) (m : QM A) : QM unit :=
  let* e := unwrap_err m in assert (matches e).

Definition test_declare_queue_then_depth_zero : Env -> Outcome PelicanError unit := with_manager (
  unwrap (declare_queue "test") ;;;
  expect_depth "test" 0).

Definition test_declare_queue_twice_errors : Env -> Outcome PelicanError unit := with_manager (
  unwrap (declare_queue "test") ;;;
  expect_err is_already_exists (declare_queue "test")).

Definition test_publish_consume_fifo : Env -> Outcome PelicanError unit := with_manager (
  unwrap (declare_queue "q") ;;;
  publish_plain "q" "first" ;;;
  publish_plain "q" "second" ;;;
  publish_plain "q" "third" ;;;
  let* d1 := consume_some "q" in
  let* d2 := consume_some "q" in
  let* d3 := consume_some "q" in
  assert_eq (payload d1.2) (str_bytes "first") ;;;
  assert_eq (payload d2.2) (str_bytes "second") ;;;
  assert_eq (payload d3.2) (str_bytes "third")).

Definition test_consume_empty_queue_returns_none : Env -> Outcome PelicanError unit := with_manager (
  unwrap (declare_queue "empty") ;;;
  expect_empty "empty").

Definition test_operations_on_nonexistent_queue_error : Env -> Outcome PelicanError unit := with_manager (
  let* m := message "x" in
  expect_err is_not_found (publish "nonexistent" m) ;;;
  expect_err is_not_found (consume "nonexistent") ;;;
  expect_err is_not_found (depth "nonexistent")).

Definition test_list_queues : Env -> Outcome PelicanError unit := with_manager (
  unwrap (declare_queue "alpha") ;;;
  unwrap (declare_queue "beta") ;;;
  unwrap (declare_queue "gamma") ;;;
  let* names := list_queues in
  assert_eq names ["alpha"; "beta"; "gamma"]%string).

Definition test_depth_reflects_message_count : Env -> Outcome PelicanError unit := with_manager (
  unwrap (declare_queue "q") ;;;
  expect_depth "q" 0 ;;;
  publish_plain "q" "a" ;;;
  expect_depth "q" 1 ;;;
  publish_plain "q" "b" ;;;
  expect_depth "q" 2 ;;;
  consume_some "q" ;;;
  expect_depth "q" 1).

Definition test_persistence_across_restart : Env -> Outcome PelicanError unit := with_dir None (
  unwrap (declare_queue "persist") ;;;
  publish_plain "persist" "hello" ;;;
  publish_plain "persist" "world" ;;;
  reopen None ;;;
  let* d1 := consume_some "persist" in
  let* d2 := consume_some "persist" in
  assert_eq (payload d1.2) (str_bytes "hello") ;;;
  assert_eq (payload d2.2) (str_bytes "world")).

Definition test_declare_queue_persists : Env -> Outcome PelicanError unit := with_dir None (
  unwrap (declare_queue "perm") ;;;
  reopen None ;;;
  expect_err is_already_exists (declare_queue "perm")).

Definition test_list_queues_persists : Env -> Outcome PelicanError unit := with_dir None (
  unwrap (declare_queue "alpha") ;;;
  unwrap (declare_queue "beta") ;;;
  reopen None ;;;
  let* names := list_queues in
  assert_eq names ["alpha"; "beta"]%string).

Definition test_basic_ack : Env -> Outcome PelicanError unit := with_dir None (
  unwrap (declare_queue "q") ;;;
  publish_plain "q" "data" ;;;
  let* d := consume_some "q" in
  unwrap (ack "q" d.1) ;;;
  expect_depth "q" 0 ;;;
  reopen None ;;;
  expect_depth "q" 0 ;;;
  expect_empty "q").

Definition test_basic_nack : Env -> Outcome PelicanError unit := with_manager (
  unwrap (declare_queue "q") ;;;
  publish_plain "q" "A" ;;;
  publish_plain "q" "B" ;;;
  let* tag_a := expect_next "q" "A" in
  unwrap (nack "q" tag_a) ;;;
  expect_next "q" "B" ;;;
  expect_next "q" "A" ;;; ret tt).

Definition test_crash_recovery_inflight_requeued : Env -> Outcome PelicanError unit := with_dir None (
  unwrap (declare_queue "q") ;;;
  publish_plain "q" "crash-test" ;;;
  consume_some "q" ;;;
  reopen None ;;;
  expect_depth "q" 1 ;;;
  expect_next "q" "crash-test" ;;; ret tt).

Definition test_invalid_delivery_tag : Env -> Outcome PelicanError unit := with_manager (
  unwrap (declare_queue "q") ;;;
  expect_err is_invalid_tag (ack "q" (mkTag 999)) ;;;
  expect_err is_invalid_tag (nack "q" (mkTag 999))).

Definition test_max_messages_retention : Env -> Outcome PelicanError unit := with_manager (
  unwrap (declare_queue_with_retention "q" (RetentionPolicy_new None (Some 2) None None)) ;;;
  publish_plain "q" "oldest" ;;;
  publish_plain "q" "middle" ;;;
  publish_plain "q" "newest" ;;;
  expect_depth "q" 3 ;;;
  let* removed := unwrap (apply_retention "q") in
  assert_eq removed 1%nat ;;;
  expect_depth "q" 2 ;;;
  expect_next "q" "middle" ;;; ret tt).

Definition test_max_age_retention : Env -> Outcome PelicanError unit := with_manager (
  unwrap (declare_queue_with_retention "q" (RetentionPolicy_new (Some 0) None None None)) ;;;
  publish_plain "q" "too-old" ;;;
  expect_depth "q" 1 ;;;
  let* removed := unwrap (apply_retention "q") in
  assert_eq removed 1%nat ;;;
  expect_depth "q" 0).

(** The loop of [test_byte_limit_reject]: how many messages were stored before
    the limit was reported. *)
Fixpoint fill (fuel count : nat) : QM nat :=
  match fuel with
  | O => out_of_fuel
  | Datatypes.S fuel' =>
    let* m := Message_new (replicate 32 120) ∅ in
    let* r := attempt (publish "q" m) in
    match r with
    | Ok (Stored _) => fill fuel' (count + 1)
    | Err (StorageLimitExceeded _ _) => ret count
    | Ok Deduplicated => panic
    | Err _ => panic
    end
  end.

Definition test_byte_limit_reject : Env -> Outcome PelicanError unit := with_dir (Some 100) (
  unwrap (declare_queue "q") ;;;
  let* count := fill 100 0 in
  expect_depth "q" count).

Definition test_default_policy_no_limits : Env -> Outcome PelicanError unit := with_manager (
  unwrap (declare_queue "q") ;;;
  for_each (seq 0 100) (fun i => publish_plain "q" ("msg-" +:+ show (Z.of_nat i)) ;;; ret tt) ;;;
  let* removed := unwrap (apply_retention "q") in
  assert_eq removed 0%nat ;;;
  expect_depth "q" 100).

Definition test_delivery_attempt_increments_on_nack : Env -> Outcome PelicanError unit := with_manager (
  unwrap (declare_queue_with_retention "q" (RetentionPolicy_new None None (Some 5) None)) ;;;
  publish_plain "q" "msg" ;;;
  let* d := consume_some "q" in
  assert_eq (delivery_attempts d.2) 0 ;;;
  unwrap (nack "q" d.1) ;;;
  let* d2 := consume_some "q" in
  assert_eq (delivery_attempts d2.2) 1).

Definition test_nack_exceeds_max_delivery_attempts_routes_to_dlq : Env -> Outcome PelicanError unit := with_manager (
  unwrap (declare_queue_with_retention "dlq-test" (RetentionPolicy_new None None (Some 2) None)) ;;;
  publish_plain "dlq-test" "will-die" ;;;
  let* tag1 := expect_next "dlq-test" "will-die" in
  unwrap (nack "dlq-test" tag1) ;;;
  expect_dead "dlq-test" 0 ;;;
  let* tag2 := expect_next "dlq-test" "will-die" in
  unwrap (nack "dlq-test" tag2) ;;;
  expect_depth "dlq-test" 0 ;;;
  expect_empty "dlq-test" ;;;
  expect_dead "dlq-test" 1).

Definition test_nack_without_max_attempts_requeues_indefinitely : Env -> Outcome PelicanError unit := with_manager (
  unwrap (declare_queue "q") ;;;
  publish_plain "q" "forever" ;;;
  for_each (seq 0 5) (fun _ => let* tag := expect_next "q" "forever" in unwrap (nack "q" tag)) ;;;
  expect_depth "q" 1 ;;;
  expect_dead "q" 0).

Definition test_dead_letter_count_on_nonexistent_queue : Env -> Outcome PelicanError unit := with_manager (
  expect_err is_not_found (dead_letter_count "nope")).

Definition test_dlq_persists_across_restart : Env -> Outcome PelicanError unit := with_dir None (
  unwrap (declare_queue_with_retention "q" (RetentionPolicy_new None None (Some 1) None)) ;;;
  publish_plain "q" "persist-dlq" ;;;
  let* d := consume_some "q" in
  unwrap (nack "q" d.1) ;;;
  expect_dead "q" 1 ;;;
  reopen None ;;;
  expect_dead "q" 1).

Definition test_delivery_attempts_binary_backward_compat (e : Env) : Outcome PelicanError unit := fst ((
  let* msg := Message_new (str_bytes "compat") ∅ in
  let* bytes := unwrap (of_result (ser_msg msg)) in
  let* deserialized := unwrap (of_result (de_msg bytes)) in
  assert_eq (delivery_attempts deserialized) 0 ;;;
  assert_eq (payload deserialized) (str_bytes "compat")) e).

Definition test_priority_delivery_order : Env -> Outcome PelicanError unit := with_manager (
  unwrap (declare_queue "prio") ;;;
  publish_plain "prio" "A" ;;;
  publish_new "prio" "B" (with_priority 5) ;;;
  publish_plain "prio" "C" ;;;
  let* d1 := consume_some "prio" in
  let* d2 := consume_some "prio" in
  let* d3 := consume_some "prio" in
  assert_eq (payload d1.2) (str_bytes "B") ;;;
  assert_eq (payload d2.2) (str_bytes "A") ;;;
  assert_eq (payload d3.2) (str_bytes "C")).

Definition test_priority_clamped_to_9 : Env -> Outcome PelicanError unit := with_manager (
  unwrap (declare_queue "clamp") ;;;
  publish_new "clamp" "high" (with_priority 15) ;;;
  publish_plain "clamp" "low" ;;;
  expect_next "clamp" "high" ;;; ret tt).

Definition test_priority_fifo_within_same_priority : Env -> Outcome PelicanError unit := with_manager (
  unwrap (declare_queue "fifo-prio") ;;;
  publish_new "fifo-prio" "first" (with_priority 3) ;;;
  publish_new "fifo-prio" "second" (with_priority 3) ;;;
  let* d1 := consume_some "fifo-prio" in
  let* d2 := consume_some "fifo-prio" in
  assert_eq (payload d1.2) (str_bytes "first") ;;;
  assert_eq (payload d2.2) (str_bytes "second")).

Definition test_delivery_tag_ack_round_trip_with_priority : Env -> Outcome PelicanError unit := with_manager (
  unwrap (declare_queue "prio-ack") ;;;
  publish_new "prio-ack" "prio-msg" (with_priority 7) ;;;
  let* tag := expect_next "prio-ack" "prio-msg" in
  unwrap (ack "prio-ack" tag) ;;;
  expect_depth "prio-ack" 0).

Definition test_nack_preserves_priority : Env -> Outcome PelicanError unit := with_manager (
  unwrap (declare_queue "prio-nack") ;;;
  publish_new "prio-nack" "urgent" (with_priority 9) ;;;
  publish_plain "prio-nack" "normal" ;;;
  let* tag := expect_next "prio-nack" "urgent" in
  unwrap (nack "prio-nack" tag) ;;;
  expect_next "prio-nack" "urgent" ;;; ret tt).

Definition test_priority_does_not_break_basic_fifo : Env -> Outcome PelicanError unit := with_manager (
  unwrap (declare_queue "fifo") ;;;
  publish_plain "fifo" "1" ;;;
  publish_plain "fifo" "2" ;;;
  publish_plain "fifo" "3" ;;;
  let* d1 := consume_some "fifo" in
  let* d2 := consume_some "fifo" in
  let* d3 := consume_some "fifo" in
  assert_eq (payload d1.2) (str_bytes "1") ;;;
  assert_eq (payload d2.2) (str_bytes "2") ;;;
  assert_eq (payload d3.2) (str_bytes "3")).

Definition test_scheduled_message_not_visible_to_consume : Env -> Outcome PelicanError unit := with_manager (
  unwrap (declare_queue "sched") ;;;
  let* now := now_ms in
  let* future := or_panic (arith_i64 (now + 3600000)) in
  publish_new "sched" "future" (with_deliver_at future) ;;;
  expect_depth "sched" 0 ;;;
  expect_scheduled "sched" 1 ;;;
  expect_empty "sched").

Definition test_scheduled_not_yet_due_not_promoted : Env -> Outcome PelicanError unit := with_manager (
  unwrap (declare_queue "sched2") ;;;
  let* now := now_ms in
  let* future := or_panic (arith_i64 (now + 3600000)) in
  publish_new "sched2" "future" (with_deliver_at future) ;;;
  let* promoted := unwrap (promote_scheduled "sched2") in
  assert_eq promoted 0%nat ;;;
  expect_depth "sched2" 0 ;;;
  expect_scheduled "sched2" 1).

Definition test_already_due_goes_to_main_tree : Env -> Outcome PelicanError unit := with_manager (
  unwrap (declare_queue "due") ;;;
  let* now := now_ms in
  let* past := or_panic (arith_i64 (now - 100)) in
  publish_new "due" "past-due" (with_deliver_at past) ;;;
  expect_depth "due" 1 ;;;
  expect_scheduled "due" 0 ;;;
  expect_next "due" "past-due" ;;; ret tt).

Definition test_deliver_at_none_behaves_normally : Env -> Outcome PelicanError unit := with_manager (
  unwrap (declare_queue "normal") ;;;
  publish_plain "normal" "immediate" ;;;
  expect_depth "normal" 1 ;;;
  expect_scheduled "normal" 0 ;;;
  expect_next "normal" "immediate" ;;; ret tt).

Definition test_promote_scheduled_after_wait : Env -> Outcome PelicanError unit := with_manager (
  unwrap (declare_queue "delay") ;;;
  let* now := now_ms in
  let* future := or_panic (arith_i64 (now + 50)) in
  publish_new "delay" "delayed" (with_deliver_at future) ;;;
  expect_depth "delay" 0 ;;;
  expect_scheduled "delay" 1 ;;;
  sleep 60 ;;;
  let* promoted := unwrap (promote_scheduled "delay") in
  assert_eq promoted 1%nat ;;;
  expect_depth "delay" 1 ;;;
  expect_scheduled "delay" 0 ;;;
  expect_next "delay" "delayed" ;;; ret tt).

Definition test_scheduled_depth_on_nonexistent_queue : Env -> Outcome PelicanError unit := with_manager (
  expect_err is_not_found (scheduled_depth "nope")).

Definition test_promote_scheduled_on_nonexistent_queue : Env -> Outcome PelicanError unit := with_manager (
  expect_err is_not_found (promote_scheduled "nope")).

Definition test_dedup_rejects_duplicate_within_window : Env -> Outcome PelicanError unit := with_manager (
  unwrap (declare_queue_with_retention "payments" (RetentionPolicy_new None None None (Some 60))) ;;;
  let* outcome1 := publish_new "payments" "txn-1" (with_dedup_key "txn-123") in
  assert (is_stored outcome1) ;;;
  expect_depth "payments" 1 ;;;
  let* outcome2 := publish_new "payments" "txn-2" (with_dedup_key "txn-123") in
  assert_eq outcome2 Deduplicated ;;;
  expect_depth "payments" 1).

Definition test_dedup_no_key_always_stored : Env -> Outcome PelicanError unit := with_manager (
  unwrap (declare_queue_with_retention "payments" (RetentionPolicy_new None None None (Some 60))) ;;;
  let* outcome1 := publish_plain "payments" "a" in
  assert (is_stored outcome1) ;;;
  let* outcome2 := publish_plain "payments" "b" in
  assert (is_stored outcome2) ;;;
  expect_depth "payments" 2).

Definition test_dedup_disabled_stores_duplicates : Env -> Outcome PelicanError unit := with_manager (
  unwrap (declare_queue_with_retention "logs" (RetentionPolicy_new None None None None)) ;;;
  let* outcome1 := publish_new "logs" "x" (with_dedup_key "x") in
  assert (is_stored outcome1) ;;;
  let* outcome2 := publish_new "logs" "y" (with_dedup_key "x") in
  assert (is_stored outcome2) ;;;
  expect_depth "logs" 2).

Definition test_dedup_zero_window_never_blocks : Env -> Outcome PelicanError unit := with_manager (
  unwrap (declare_queue_with_retention "instant" (RetentionPolicy_new None None None (Some 0))) ;;;
  let* outcome1 := publish_new "instant" "a" (with_dedup_key "k") in
  assert (is_stored outcome1) ;;;
  let* outcome2 := publish_new "instant" "b" (with_dedup_key "k") in
  assert (is_stored outcome2) ;;;
  expect_depth "instant" 2).

Definition test_publish_returns_stored_uuid : Env -> Outcome PelicanError unit := with_manager (
  unwrap (declare_queue "q") ;;;
  let* msg := message "uid" in
  let stored_id := id msg in
  let* outcome := unwrap (publish "q" msg) in
  assert_eq outcome (Stored stored_id)).

Definition tests : list (Env -> Outcome PelicanError unit) :=
  [test_declare_queue_then_depth_zero; test_declare_queue_twice_errors; test_publish_consume_fifo;
   test_consume_empty_queue_returns_none; test_operations_on_nonexistent_queue_error; test_list_queues;
   test_depth_reflects_message_count; test_persistence_across_restart; test_declare_queue_persists;
   test_list_queues_persists; test_basic_ack; test_basic_nack; test_crash_recovery_inflight_requeued;
   test_invalid_delivery_tag; test_max_messages_retention; test_max_age_retention; test_byte_limit_reject;
   test_default_policy_no_limits; test_delivery_attempt_increments_on_nack;
   test_nack_exceeds_max_delivery_attempts_routes_to_dlq;
   test_nack_without_max_attempts_requeues_indefinitely; test_dead_letter_count_on_nonexistent_queue;
   test_dlq_persists_across_restart; test_delivery_attempts_binary_backward_compat;
   test_priority_delivery_order; test_priority_clamped_to_9; test_priority_fifo_within_same_priority;
   test_delivery_tag_ack_round_trip_with_priority; test_nack_preserves_priority;
   test_priority_does_not_break_basic_fifo; test_scheduled_message_not_visible_to_consume;
   test_scheduled_not_yet_due_not_promoted; test_already_due_goes_to_main_tree;
   test_deliver_at_none_behaves_normally; test_promote_scheduled_after_wait;
   test_scheduled_depth_on_nonexistent_queue; test_promote_scheduled_on_nonexistent_queue;
   test_dedup_rejects_duplicate_within_window; test_dedup_no_key_always_stored;
   test_dedup_disabled_stores_duplicates; test_dedup_zero_window_never_blocks;
   test_publish_returns_stored_uuid].
End QueueTests.
End QueueTests.

(** ** message.rs *)

Module MessageTests.
Section MessageTests.
Context `{!Environment}.

(** [Message::new(b"data".to_vec(), HashMap::new())]. *)
Definition sample : M Env PelicanError Message := Message_new (str_bytes "data") ∅.

Definition test_new_message_has_non_nil_uuid : M Env PelicanError unit :=
  let* msg := sample in assert (negb (id msg =? 0)).
Definition test_new_message_has_positive_timestamp : M Env PelicanError unit :=
  let* msg := sample in assert (0 <? timestamp msg).
Definition test_new_message_zero_delivery_attempts : M Env PelicanError unit :=
  let* msg := sample in assert_eq (delivery_attempts msg) 0.
Definition test_new_message_default_priority_zero : M Env PelicanError unit :=
  let* msg := sample in assert_eq (priority msg) 0.
Definition test_with_priority_clamps_above_9 : M Env PelicanError unit :=
  let* msg := sample in assert_eq (priority (with_priority 15 msg)) 9.
Definition test_with_priority_accepts_valid_values : M Env PelicanError unit :=
  let* msg := sample in assert_eq (priority (with_priority 5 msg)) 5.
Definition test_new_message_deliver_at_none : M Env PelicanError unit :=
  let* msg := sample in assert_eq (deliver_at msg) None.
Definition test_with_deliver_at_sets_value : M Env PelicanError unit :=
  let* msg := sample in assert_eq (deliver_at (with_deliver_at 999999 msg)) (Some 999999).
Definition test_new_message_dedup_key_none : M Env PelicanError unit :=
  let* msg := sample in assert_eq (dedup_key msg) None.
Definition test_with_dedup_key_sets_value : M Env PelicanError unit :=
  let* msg := sample in assert_eq (dedup_key (with_dedup_key "txn-123" msg)) (Some "txn-123"%string).

Definition tests : list (M Env PelicanError unit) :=
  [test_new_message_has_non_nil_uuid; test_new_message_has_positive_timestamp;
   test_new_message_zero_delivery_attempts; test_new_message_default_priority_zero;
   test_with_priority_clamps_above_9; test_with_priority_accepts_valid_values;
   test_new_message_deliver_at_none; test_with_deliver_at_sets_value;
   test_new_message_dedup_key_none; test_with_dedup_key_sets_value].
End MessageTests.
End MessageTests.

(** ** Running them *)

Module TestBed.
Export Mem Ref.

(** A clock that shows one more millisecond at every reading; identifiers count
    from one. *)
#[export] Instance TickingClock : Environment :=
  {| clock_read n := Some (1700000000000 + Z.of_nat n); uuid_v4 n := Z.of_nat n + 1 |}.

(** Sleeping skips readings of that clock. *)
Definition skip_readings (ms : Z) : QM unit :=
  modify (fun w => mkWorld (qm w) (mkEnv (clock_tick (env w) + Z.to_nat ms) (uuid_tick (env w)))).

Definition start : Env := mkEnv 0 0.
End TestBed.
Import TestBed.

(** Every unit test of the engine passes on the model, with and without overflow
    checks. *)
Lemma engine_tests_pass (checks : bool) :
  let profile := {| overflow_checks := checks |} in
  forallb (fun t => passed (t start)) (QueueTests.tests (Mem.empty : db_t) skip_readings) = true.
Proof. destruct checks; vm_compute; reflexivity. Qed.

Lemma message_tests_pass : forallb (fun t => passed (t start).1) MessageTests.tests = true.
Proof. vm_compute. reflexivity. Qed.
