(* ===== verification/ConformanceNode.v ===== *)
(** * ConformanceNode: the unit tests of the node, run on the model

    The test modules of src/pelicanq-raft/src/state_machine.rs and storage.rs, of
    src/pelicanqd/src/cluster_config.rs and of src/sdks/rust/src/lib.rs, in the
    manner of [Conformance]. *)

From Stdlib Require Import ZArith Lia.
From stdpp Require Import prelude gmap strings sorting.
From S2P Require Import Prelude Bytes OrdMap Sled Message Bincode Keys QueueManager Snapshot.
From S2P Require Import StateMachine RaftStore RaftDemo Daemon Config Wire Grpc Sdk Conformance.

(** ** state_machine.rs *)

Module MachineTests.
Section MachineTests.
Context `{!Sled, !Bincode, !Environment, !BuildProfile, !Json QueueManagerSnapshot}.
Variable fresh : db_t.

Definition with_qm (f : QM unit) (e : Env) : Outcome PelicanError unit := QueueTests.with_manager fresh f e.

Definition test_declare_then_publish_then_consume : Env -> Outcome PelicanError unit := with_qm (
  let* resp := apply_operation (DeclareQueue "orders" default_policy) in
  assert (match resp with RDeclareQueue (Ok _) => true | _ => false end) ;;;
  let* m := QueueTests.message "order-1" in
  let* resp := apply_operation (Publish "orders" m) in
  assert (match resp with RPublish (Ok _) => true | _ => false end) ;;;
  let* consumed := unwrap (consume "orders") in
  assert (bool_decide (is_Some consumed)) ;;;
  let* d := or_panic consumed in
  assert_eq (Message.payload d.2) (str_bytes "order-1")).

(** Two engines in one test. *)
Definition on1 {A} (m : QM A) : M (World * World) PelicanError A :=
  fun ws => let '(o, w) := m ws.1 in (o, (w, ws.2)).
Definition on2 {A} (m : QM A) : M (World * World) PelicanError A :=
  fun ws => let '(o, w) := m ws.2 in (o, (ws.1, w)).

(** [assert_eq!(f(qm1), f(qm2))]. *)
Definition same {A} `{!EqDecision A} (f : QM A) : M (World * World) PelicanError unit :=
  let* a := on1 f in let* b := on2 f in assert_eq a b.

(** [names.sort()]: the byte order of strings. *)
Definition string_le (a b : string) : Prop := String.leb a b = true.
#[local] Instance string_le_dec : RelDecision string_le.
Proof. intros a b. unfold string_le. apply _. Defined.
Definition sort : list string -> list string := merge_sort string_le.

Definition snapshot_script : M (World * World) PelicanError unit :=
  on1 (unwrap (declare_queue_with_retention "fastq" (RetentionPolicy_new (Some 3600) (Some 100) None None))) ;;;
  on1 (unwrap (declare_queue "normal")) ;;;
  on1 (QueueTests.publish_plain "fastq" "a") ;;;
  on1 (QueueTests.publish_plain "fastq" "b") ;;;
  on1 (QueueTests.publish_plain "normal" "x") ;;;
  let* d := on1 (QueueTests.consume_some "fastq") in
  on1 (unwrap (nack "fastq" d.1)) ;;;
  on1 (QueueTests.consume_some "fastq") ;;;
  let* data := on1 (unwrap sm_build_snapshot) in
  on2 (unwrap (sm_install_snapshot data)) ;;;
  let* queues1 := on1 list_queues in
  let* queues2 := on2 list_queues in
  assert_eq (sort queues1) (sort queues2) ;;;
  same (unwrap (depth "fastq")) ;;;
  same (unwrap (depth "normal")) ;;;
  same (unwrap (dead_letter_count "fastq")).

(** Both engines are opened on directories of their own. *)
Definition test_snapshot_round_trip (e : Env) : Outcome PelicanError unit :=
  match open (Ok fresh) None e, open (Ok fresh) None e with
  | (Done _, Some w1), (Done _, Some w2) => (snapshot_script (w1, w2)).1
  | _, _ => Panic
  end.

Definition tests : list (Env -> Outcome PelicanError unit) :=
  [test_declare_then_publish_then_consume; test_snapshot_round_trip].
End MachineTests.
End MachineTests.

(** ** storage.rs *)

Module StorageTests.
Section StorageTests.
Context `{!Sled, !Bincode, !Environment, !BuildProfile, !RaftTypes}.
Context `{!Json Entry, !Json LogId, !Json (option LogId), !Json Vote, !Json StoredMembership,
          !Json Z, !Json QueueManagerSnapshot, !EqDecision leader_id, !EqDecision Vote}.
Variable fresh : db_t.
(** openraft's constructors of a leader id and of a vote, from a term and a node. *)
Variable leader_of : Z -> Z -> leader_id.
Variable vote_new : Z -> Z -> Vote.

#[local] Instance LogId_eq_dec : EqDecision LogId.
Proof. solve_decision. Defined.

(** [openraft::testing::log_id]. *)
Definition log_id_of (term node i : Z) : LogId := mkLogId (leader_of term node) i.

Definition make_entry (i term : Z) : Entry := mkEntry (log_id_of term 1 i) Blank.

(** The first session on a directory, and a later one. *)
Definition with_store (f : RM unit) (e : Env) : Outcome StorageError unit :=
  match open_store (Ok fresh) (Ok fresh) e with
  | Done s => (f s).1
  | _ => Panic
  end.
Definition restart : RM unit :=
  fun s =>
    match open_store (Ok (db (qm (state_machine s)))) (Ok (r_db s)) (env (state_machine s)) with
    | Done s' => (Done tt, s')
    | _ => (Panic, s)
    end.

(** The entries with an index in a half-open range, and the checks on them. *)
Definition read_range (lo hi : Z) : RM (list Entry) := unwrap (try_get_log_entries (Included lo) (Excluded hi)).
Definition expect_ids (entries : list Entry) (ids : list LogId) : RM unit :=
  assert_eq (length entries) (length ids) ;;;
  for_each (zip (seq 0 (length ids)) ids) (fun p =>
    let* entry := or_panic (entries !! p.1) in assert_eq (log_id entry) p.2).
Definition expect_only (entries : list Entry) (i : Z) : RM unit :=
  assert_eq (length entries) 1%nat ;;;
  let* entry := or_panic (entries !! 0%nat) in assert_eq (index (log_id entry)) i.

Definition test_append_and_read_back : Env -> Outcome StorageError unit := with_store (
  unwrap (append_to_log [make_entry 1 1; make_entry 2 1; make_entry 3 2]) ;;;
  let* entries := read_range 1 4 in
  expect_ids entries [log_id_of 1 1 1; log_id_of 1 1 2; log_id_of 2 1 3]).

Definition test_persists_across_restart : Env -> Outcome StorageError unit := with_store (
  unwrap (append_to_log [make_entry 10 1; make_entry 11 2]) ;;;
  restart ;;;
  let* entries := read_range 10 12 in
  expect_ids entries [log_id_of 1 1 10; log_id_of 2 1 11]).

Definition test_vote_persists_across_restart : Env -> Outcome StorageError unit := with_store (
  let vote := vote_new 3 1 in
  unwrap (save_vote vote) ;;;
  restart ;;;
  let* read := unwrap read_vote in
  assert_eq read (Some vote)).

Definition test_last_applied_persists : Env -> Outcome StorageError unit := with_store (
  unwrap (append_to_log [make_entry 5 1]) ;;;
  let* entries := read_range 5 6 in
  unwrap (apply_to_state_machine entries) ;;;
  let* st := unwrap last_applied_state in
  assert_eq st.1 (Some (log_id_of 1 1 5)) ;;;
  restart ;;;
  let* st := unwrap last_applied_state in
  assert_eq st.1 (Some (log_id_of 1 1 5))).

Definition test_truncate_from_index : Env -> Outcome StorageError unit := with_store (
  unwrap (append_to_log [make_entry 1 1; make_entry 2 1; make_entry 3 1]) ;;;
  unwrap (delete_conflict_logs_since (log_id_of 1 1 2)) ;;;
  let* entries := read_range 1 4 in
  expect_only entries 1).

Definition test_truncate_persists_across_restart : Env -> Outcome StorageError unit := with_store (
  unwrap (append_to_log [make_entry 1 1; make_entry 2 1; make_entry 3 1]) ;;;
  unwrap (delete_conflict_logs_since (log_id_of 1 1 2)) ;;;
  restart ;;;
  let* entries := read_range 1 4 in
  expect_only entries 1).

Definition test_purge_updates_last_purged : Env -> Outcome StorageError unit := with_store (
  unwrap (append_to_log [make_entry 1 1; make_entry 2 1; make_entry 3 1]) ;;;
  unwrap (purge_logs_upto (log_id_of 1 1 2)) ;;;
  let* entries := read_range 1 4 in
  expect_only entries 3 ;;;
  let* log_state := unwrap get_log_state in
  assert_eq (last_purged_log_id log_state) (Some (log_id_of 1 1 2))).

Definition tests : list (Env -> Outcome StorageError unit) :=
  [test_append_and_read_back; test_persists_across_restart; test_vote_persists_across_restart;
   test_last_applied_persists; test_truncate_from_index; test_truncate_persists_across_restart;
   test_purge_updates_last_purged].
End StorageTests.
End StorageTests.

(** ** cluster_config.rs *)

Module ClusterConfigTests.

(** [temp_env::with_vars] over an environment without the broker's variables. *)
Definition with_vars (vars : list (string * string)) (name : string) : option string :=
  snd <$> List.find (fun kv => bool_decide (kv.1 = name)) vars.

(** [err.contains(pattern)] on the error of [from_env]. *)
Definition fails_with (pattern : string) (r : Result string (option ClusterConfig)) : bool :=
  match r with Err text => bool_decide (is_Some (String.index 0 pattern text)) | Ok _ => false end.

Definition node_vars (id members : string) : list (string * string) :=
  [("PELICANQ_NODE_ID", id); ("PELICANQ_CLUSTER_MEMBERS", members)]%string.

Definition test_solo_mode_when_node_id_unset : bool :=
  match cluster_from_env (with_vars []) with Ok None => true | _ => false end.

Definition test_parses_three_node_cluster : bool :=
  match cluster_from_env (with_vars (node_vars "2"
    "1@10.0.0.1:7071=10.0.0.1:7070,2@10.0.0.2:7071=10.0.0.2:7070,3@10.0.0.3:7071=10.0.0.3:7070")) with
  | Ok (Some cfg) =>
    (self_id cfg =? 2) &&
    bool_decide (members cfg =
      [mkNodeConfig 1 "10.0.0.1:7071" "10.0.0.1:7070"; mkNodeConfig 2 "10.0.0.2:7071" "10.0.0.2:7070";
       mkNodeConfig 3 "10.0.0.3:7071" "10.0.0.3:7070"])
  | _ => false
  end.

Definition test_self_id_not_in_members_errors : bool :=
  fails_with "self_id 99" (cluster_from_env (with_vars (node_vars "99"
    "1@10.0.0.1:7071=10.0.0.1:7070,2@10.0.0.2:7071=10.0.0.2:7070"))).

Definition test_malformed_entry_missing_at_sign : bool :=
  fails_with "missing '@'" (cluster_from_env (with_vars (node_vars "1" "1bad:7071=10.0.0.1:7070"))).

Definition test_malformed_entry_missing_equals : bool :=
  fails_with "missing '='" (cluster_from_env (with_vars (node_vars "1" "1@10.0.0.1:7071"))).

Definition test_invalid_node_id_format : bool :=
  fails_with "invalid PELICANQ_NODE_ID" (cluster_from_env (with_vars (node_vars "abc" "1@10.0.0.1:7071=10.0.0.1:7070"))).

Definition tests : list bool :=
  [test_solo_mode_when_node_id_unset; test_parses_three_node_cluster; test_self_id_not_in_members_errors;
   test_malformed_entry_missing_at_sign; test_malformed_entry_missing_equals; test_invalid_node_id_format].
End ClusterConfigTests.

(** ** The client library *)

Module SdkTests.
Import Sdk.

Definition test_client_message_new : bool :=
  let msg := new (str_bytes "hello") in
  bool_decide (payload msg = str_bytes "hello") && bool_decide (headers msg = ∅) && (priority msg =? 0) &&
  bool_decide (deliver_at msg = None) && bool_decide (dedup_key msg = None).

Definition test_client_message_with_priority : bool := priority (with_priority 5 (new [])) =? 5.
Definition test_client_message_clamps_priority : bool := priority (with_priority 15 (new [])) =? 9.
Definition test_client_message_with_deliver_at : bool :=
  bool_decide (deliver_at (with_deliver_at 1000 (new [])) = Some 1000).
Definition test_client_message_with_dedup_key : bool :=
  bool_decide (dedup_key (with_dedup_key "key1" (new [])) = Some "key1"%string).
Definition test_client_message_with_header : bool :=
  bool_decide (headers (with_header "content-type" "text/plain" (new [])) !! "content-type"%string = Some "text/plain"%string).

Definition test_queue_options_default_all_none : bool :=
  let opts := default_options in
  bool_decide (max_age_secs opts = None) && bool_decide (max_messages opts = None) &&
  bool_decide (max_delivery_attempts opts = None) && bool_decide (dead_letter_queue opts = None) &&
  bool_decide (dedup_window_secs opts = None).

Definition tests : list bool :=
  [test_client_message_new; test_client_message_with_priority; test_client_message_clamps_priority;
   test_client_message_with_deliver_at; test_client_message_with_dedup_key; test_client_message_with_header;
   test_queue_options_default_all_none].
End SdkTests.

(** ** Running them *)

Import RaftDemo.

Lemma machine_tests_pass :
  forallb (fun t => passed (t (mkEnv 0 0))) (MachineTests.tests (Mem.empty : db_t)) = true.
Proof. vm_compute. reflexivity. Qed.

(** A leader id of the reference instance is a number, a vote a pair. *)
Lemma storage_tests_pass :
  forallb (fun t => passed (t (mkEnv 0 0)))
    (StorageTests.tests (EqDecision0 := Z.eq_dec) (EqDecision1 := prod_eq_dec)
       (Mem.empty : db_t) (fun term node => term * 2 ^ 16 + node) (fun term node => (term, node))) = true.
Proof. vm_compute. reflexivity. Qed.

Lemma config_tests_pass : forallb Datatypes.id ClusterConfigTests.tests = true.
Proof. vm_compute. reflexivity. Qed.

Lemma sdk_tests_pass : forallb Datatypes.id SdkTests.tests = true.
Proof. vm_compute. reflexivity. Qed.
