(* ===== verification/ConformanceDaemon.v ===== *)
(** * ConformanceDaemon: the integration tests, run on the model

    src/pelicanqd/tests/integration.rs (HTTP), src/pelicanqd/tests/grpc_integration.rs
    (gRPC, streams, both protocols together) and src/sdks/rust/tests/integration.rs
    (client library), at the level of decoded requests: a request is the handler
    call axum or tonic makes of it.  The repository runs them on a Solo daemon;
    [daemon_tests_pass] runs them on the leader of a cluster too. *)

From Stdlib Require Import ZArith Lia.
From stdpp Require Import prelude gmap strings.
From S2P Require Import Prelude Bytes OrdMap Sled Message Bincode Keys QueueManager Snapshot.
From S2P Require Import StateMachine RaftStore RaftDemo Daemon Wire Http DaemonDemo Grpc Sdk Stream.
From S2P Require Import Conformance.

#[local] Instance Code_eq_dec : EqDecision Code.
Proof. solve_decision. Defined.

Section DaemonTests.
Context `{!Sled, !Bincode, !Environment, !BuildProfile, !RaftTypes, !OpenRaft}.
Context `{!Base64, !UuidText, !HeaderText}.

Abbreviation Test := (M AppState PelicanError unit).

(** ** HTTP *)

(** [app.oneshot(request)]. *)
Definition oneshot (req : Request) : M AppState PelicanError Response := unwrap (serve req).
Definition expect_status (req : Request) (code : Z) : Test :=
  let* r := oneshot req in assert_eq (status r) code.

(** [json["key"]], [as_str], [as_u64] and [as_array]. *)
Definition field (key : string) (v : JValue) : option JValue :=
  match v with JObj fields => snd <$> List.find (fun kv => bool_decide (kv.1 = key)) fields | _ => None end.
Definition as_str (v : option JValue) : option string := match v with Some (JStr s) => Some s | _ => None end.
Definition as_num (v : option JValue) : option Z := match v with Some (JNum n) => Some n | _ => None end.
Definition as_array (v : option JValue) : option (list JValue) :=
  match v with Some (JArr l) => Some l | _ => None end.

Definition http_test_health : Test :=
  let* r := oneshot GetHealth in
  assert_eq (status r) OK ;;;
  assert_eq (as_str (field "status" (body r))) (Some "ok"%string).

Definition http_test_declare_queue_201 : Test := expect_status (PostQueue "orders") CREATED.

Definition http_test_declare_queue_twice_409 : Test :=
  expect_status (PostQueue "orders") CREATED ;;;
  expect_status (PostQueue "orders") CONFLICT.

Definition http_test_publish_and_consume : Test :=
  expect_status (PostQueue "orders") CREATED ;;;
  let* r := oneshot (PostPublish "orders" "aGVsbG8=" {["key"%string := "val"%string]}) in
  assert_eq (status r) CREATED ;;;
  let* published_id := or_panic (as_str (field "id" (body r))) in
  let* r := oneshot GetQueues in
  assert_eq (status r) OK ;;;
  let* queues := or_panic (as_array (field "queues" (body r))) in
  assert_eq (length queues) 1%nat ;;;
  let* queue0 := or_panic (queues !! 0%nat) in
  assert_eq (as_str (field "name" queue0)) (Some "orders"%string) ;;;
  assert_eq (as_num (field "depth" queue0)) (Some 1) ;;;
  let* r := oneshot (PostConsume "orders") in
  assert_eq (status r) OK ;;;
  let json := body r in
  assert_eq (as_str (field "id" json)) (Some published_id) ;;;
  assert_eq (as_str (field "payload_base64" json)) (Some "aGVsbG8="%string) ;;;
  let* hs := or_panic (field "headers" json) in
  assert_eq (as_str (field "key" hs)) (Some "val"%string) ;;;
  assert (bool_decide (is_Some (as_num (field "timestamp" json)))) ;;;
  let* delivery_tag := or_panic (as_num (field "delivery_tag" json)) in
  expect_status (PostAck "orders" (mkTag delivery_tag)) OK ;;;
  let* r := oneshot GetQueues in
  let* queues := or_panic (as_array (field "queues" (body r))) in
  let* queue0 := or_panic (queues !! 0%nat) in
  assert_eq (as_num (field "depth" queue0)) (Some 0).

Definition http_test_consume_missing_queue_404 : Test := expect_status (PostConsume "missing") NOT_FOUND.

Definition http_test_consume_empty_queue_204 : Test :=
  expect_status (PostQueue "empty") CREATED ;;;
  expect_status (PostConsume "empty") NO_CONTENT.

(** ** gRPC *)

(** [DeclareQueueRequest { name, ..Default::default() }]. *)
Definition declare_request (name : string) : Proto.DeclareQueueRequest := Proto.mkDeclare name None None None None None.
Definition make_msg (payload : string) : Proto.Message := Proto.mkMessage "" (str_bytes payload) ∅ 0 0 None None 0.
Definition declared (name : string) : M AppState PelicanError bool := unwrap (grpc_declare_queue (declare_request name)).
Definition expect_payload (queue text : string) : Test :=
  let* consumed := unwrap (grpc_consume queue) in
  let* msg := or_panic consumed in
  let* inner := or_panic (Proto.message msg) in
  assert_eq (Proto.payload inner) (str_bytes text).

Definition test_grpc_declare_queue_created : Test :=
  let* created := declared "test_queue" in assert created.

Definition test_grpc_declare_queue_twice : Test :=
  let* created1 := declared "dup_queue" in
  assert created1 ;;;
  let* created2 := declared "dup_queue" in
  assert (negb created2).

Definition test_grpc_publish_and_consume : Test :=
  declared "q" ;;;
  unwrap (grpc_publish "q" (Some (make_msg "hello"))) ;;;
  expect_payload "q" "hello".

Definition test_grpc_consume_empty : Test :=
  declared "empty_q" ;;;
  let* message := unwrap (grpc_consume "empty_q") in
  assert (negb (bool_decide (is_Some message))).

Definition test_grpc_list_queues : Test :=
  declared "a" ;;;
  declared "b" ;;;
  let* queues := unwrap grpc_list_queues in
  let names := map Proto.info_name queues in
  assert (bool_decide ("a"%string ∈ names)) ;;;
  assert (bool_decide ("b"%string ∈ names)).

Definition test_grpc_declare_queue_applies_dedup_policy : Test :=
  unwrap (grpc_declare_queue (Proto.mkDeclare "dedup_q" None None None None (Some 60))) ;;;
  let msg := Proto.mkMessage "" (str_bytes "hello") ∅ 0 0 None (Some "same-key"%string) 0 in
  let* first := unwrap (grpc_publish "dedup_q" (Some msg)) in
  assert (negb (Proto.deduplicated first)) ;;;
  let* second := unwrap (grpc_publish "dedup_q" (Some msg)) in
  assert (Proto.deduplicated second).

Definition test_grpc_list_queues_reports_scheduled_depth : Test :=
  declared "scheduled_q" ;;;
  let msg := Proto.mkMessage "" (str_bytes "later") ∅ 0 0 (Some 9999999999999) None 0 in
  unwrap (grpc_publish "scheduled_q" (Some msg)) ;;;
  let* queues := unwrap grpc_list_queues in
  let* queue := or_panic (List.find (fun q => bool_decide (Proto.info_name q = "scheduled_q"%string)) queues) in
  assert_eq (Proto.depth queue) 0 ;;;
  assert_eq (Proto.scheduled_depth queue) 1.

Definition test_grpc_publish_without_message_returns_invalid_argument : Test :=
  declared "invalid_q" ;;;
  let* err := unwrap_err (grpc_publish "invalid_q" None) in
  assert_eq (code err) InvalidArgument.

Definition test_grpc_health : Test :=
  let* status := unwrap grpc_health in assert_eq status "ok"%string.

(** The client names the queue, waits for an item, then closes its end. *)
Definition test_grpc_consume_stream : Test :=
  declared "stream_q" ;;;
  unwrap (grpc_publish "stream_q" (Some (make_msg "stream_msg"))) ;;;
  let* st := gets (fun st => st) in
  let first := Stream.mkStreamAck None None (Some "stream_q"%string) in
  match Stream.run [Stream.Inbound first; Stream.Sleep; Stream.Read; Stream.InboundEnd] (Stream.consume_stream st) with
  | (Done _, s) =>
    match Stream.read s with
    | Ok consumed :: _ =>
      let* inner := or_panic (Proto.message consumed) in
      assert_eq (Proto.payload inner) (str_bytes "stream_msg")
    | _ => panic
    end
  | _ => panic
  end.

Definition test_grpc_queue_not_found : Test :=
  let* err := unwrap_err (grpc_consume "nonexistent") in
  assert_eq (code err) NotFound.

Definition test_grpc_cross_protocol : Test :=
  declared "cross_q" ;;;
  let payload_b64 := b64_encode (str_bytes "cross_proto_msg") in
  expect_status (PostPublish "cross_q" payload_b64 ∅) CREATED ;;;
  expect_payload "cross_q" "cross_proto_msg".

(** ** The client library *)

Let channel : Sdk.Channel AppState := Sdk.daemon_channel.

Definition test_sdk_publish_consume_ack : Test :=
  unwrap (Sdk.health channel) ;;;
  let* created := unwrap (Sdk.declare_queue channel "test_sdk_q" Sdk.default_options) in
  assert created ;;;
  let msg := Sdk.with_header "x-source" "rust-sdk" (Sdk.new (str_bytes "hello sdk")) in
  let* result := unwrap (Sdk.publish channel "test_sdk_q" msg) in
  assert (negb (bool_decide (Sdk.result_id result = ""%string))) ;;;
  assert (negb (Sdk.deduplicated result)) ;;;
  let* delivery := unwrap (Sdk.consume channel "test_sdk_q") in
  let* d := or_panic delivery in
  assert_eq (Sdk.payload (Sdk.message d)) (str_bytes "hello sdk") ;;;
  assert_eq (Sdk.headers (Sdk.message d) !! "x-source"%string) (Some "rust-sdk"%string) ;;;
  unwrap (Sdk.ack channel "test_sdk_q" (Sdk.delivery_tag d)) ;;;
  let* queues := unwrap (Sdk.list_queues channel) in
  assert (bool_decide ("test_sdk_q"%string ∈ map Sdk.name queues)).

Definition test_sdk_declare_twice : Test :=
  let* first := unwrap (Sdk.declare_queue channel "dup_q" Sdk.default_options) in
  assert first ;;;
  let* second := unwrap (Sdk.declare_queue channel "dup_q" Sdk.default_options) in
  assert (negb second).

Definition test_sdk_consume_empty : Test :=
  unwrap (Sdk.declare_queue channel "empty_q" Sdk.default_options) ;;;
  let* delivery := unwrap (Sdk.consume channel "empty_q") in
  assert (negb (bool_decide (is_Some delivery))).

Definition test_sdk_publish_batch : Test :=
  unwrap (Sdk.declare_queue channel "batch_q" Sdk.default_options) ;;;
  let msgs := map (fun text => Sdk.new (str_bytes text)) ["msg1"; "msg2"; "msg3"]%string in
  let* results := unwrap (Sdk.publish_batch channel "batch_q" msgs) in
  assert_eq (length results) 3%nat ;;;
  let* deliveries := unwrap (Sdk.consume_batch channel "batch_q" 10) in
  assert_eq (map (fun d => Sdk.payload (Sdk.message d)) deliveries)
    (map str_bytes ["msg1"; "msg2"; "msg3"]%string).

Definition daemon_tests : list Test :=
  [http_test_health; http_test_declare_queue_201; http_test_declare_queue_twice_409;
   http_test_publish_and_consume; http_test_consume_missing_queue_404; http_test_consume_empty_queue_204;
   test_grpc_declare_queue_created; test_grpc_declare_queue_twice; test_grpc_publish_and_consume;
   test_grpc_consume_empty; test_grpc_list_queues; test_grpc_declare_queue_applies_dedup_policy;
   test_grpc_list_queues_reports_scheduled_depth; test_grpc_publish_without_message_returns_invalid_argument;
   test_grpc_health; test_grpc_consume_stream; test_grpc_queue_not_found; test_grpc_cross_protocol;
   test_sdk_publish_consume_ack; test_sdk_declare_twice; test_sdk_consume_empty; test_sdk_publish_batch].
End DaemonTests.

(** ** Running them *)

Import DaemonDemo.

Definition passes_on (st : AppState) : bool := forallb (fun t => passed (t st).1) daemon_tests.

Definition w_unlimited : World := exec open_body (world_of Mem.empty None).

Lemma daemon_tests_pass :
  passes_on (mkApp (Solo (mkMutex w_unlimited false)) None) = true /\
  passes_on (mkApp (Flock (leading w_unlimited)) None) = true.
Proof. split; vm_compute; reflexivity. Qed.
