(* ===== verification/ExampleClient.v ===== *)
(** * ExampleClient: the example program over the client library

    src/examples/rust-publish-consume/main.rs: the printed lines as values, the
    [expect]s as panics, the pause of 100 ms as whatever the daemon does meanwhile. *)

From Stdlib Require Import ZArith Lia.
From stdpp Require Import prelude gmap strings.
From S2P Require Import Prelude Bytes OrdMap Sled Message Bincode Keys QueueManager Snapshot.
From S2P Require Import StateMachine RaftStore RaftDemo Daemon Wire Http DaemonDemo Grpc Sdk Stream.
From S2P Require Import Conformance ConformanceDaemon.

Module Example.

(** The lines the program prints. *)
Inductive Line :=
| Connecting (addr : string)
| HealthOk
| QueueIs (name : string) (created : bool)
| PublishedId (id : string)
| ConsumedMessage (payload : bytes) (tag : Z)
| Acknowledged
| QueuesTitle
| QueueLine (name : string) (depth : Z)
| Finished.

Section Example.
Context {S : Type}.

(** The daemon and the lines printed so far. *)
Abbreviation Program := (M (S * list Line) Empty_set).

Definition println (l : Line) : Program unit := modify (fun s => (s.1, s.2 ++ [l])).

(** [.await.expect(...)]. *)
Definition expect {A} (m : M S Sdk.PelicanClientError A) : Program A :=
  fun s =>
    let '(o, d) := m s.1 in
    (match o with Done a => Done a | Fail _ | Panic => Panic | OutOfFuel => OutOfFuel end, (d, s.2)).

Definition default_addr : string := "http://127.0.0.1:7072".

Definition main (tonic : Sdk.Tonic S) (args : list string) (sleep : S -> S) : Program unit :=
  let addr := default default_addr (args !! 1%nat) in
  println (Connecting addr) ;;;
  let* client := match Sdk.connect tonic addr with Ok channel => ret channel | Err _ => panic end in
  expect (Sdk.health client) ;;;
  println HealthOk ;;;
  let queue_name := "example_queue"%string in
  let* created := expect (Sdk.declare_queue client queue_name Sdk.default_options) in
  println (QueueIs queue_name created) ;;;
  let msg := Sdk.with_header "content-type" "text/plain" (Sdk.with_priority 5 (Sdk.new (str_bytes "Hello, PelicanQ!"))) in
  let* result := expect (Sdk.publish client queue_name msg) in
  println (PublishedId (Sdk.result_id result)) ;;;
  modify (fun s => (sleep s.1, s.2)) ;;;
  let* found := expect (Sdk.consume client queue_name) in
  let* delivery := or_panic found in
  println (ConsumedMessage (Sdk.payload (Sdk.message delivery)) (Sdk.delivery_tag delivery)) ;;;
  expect (Sdk.ack client queue_name (Sdk.delivery_tag delivery)) ;;;
  println Acknowledged ;;;
  let* queues := expect (Sdk.list_queues client) in
  println QueuesTitle ;;;
  for_each queues (fun q => println (QueueLine (Sdk.name q) (Sdk.depth q))) ;;;
  println Finished.

(** Without a daemon the program prints its first line and panics. *)
Lemma main_unreachable tonic args sleep s :
  (forall addr, exists e, Sdk.connect tonic addr = Err e) ->
  main tonic args sleep s = (Panic, (s.1, s.2 ++ [Connecting (default default_addr (args !! 1%nat))])).
Proof. intros Hc. unfold main, println, bind, modify. destruct (Hc (default default_addr (args !! 1%nat))) as [e He]. by rewrite He. Qed.
End Example.

(** ** Running it *)

Import DaemonDemo.

(** A network on which the daemon listens at the default address. *)
Definition local : Sdk.Tonic AppState :=
  Sdk.mkTonic _ string (fun addr => Ok addr)
    (fun addr => if bool_decide (addr = default_addr) then Ok Sdk.daemon_channel else Err "connection refused"%string).

Definition printed (args : list string) (st : AppState) : list Line := (main local args (fun st => st) (st, [])).2.2.

(** On an empty daemon, Solo or leading a cluster, the program gets its own
    message back and leaves the queue empty. *)
Lemma example_runs :
  (forall args : list string, args !! 1%nat = None ->
    match printed args (mkApp (Solo (mkMutex w_unlimited false)) None) with
    | [Connecting _; HealthOk; QueueIs _ true; PublishedId _; ConsumedMessage text _; Acknowledged; QueuesTitle;
       QueueLine _ 0; Finished] => text = str_bytes "Hello, PelicanQ!"
    | _ => False
    end) /\
  match printed [] (mkApp (Flock (leading w_unlimited)) None) with
  | [Connecting _; HealthOk; QueueIs _ true; PublishedId _; ConsumedMessage text _; Acknowledged; QueuesTitle;
     QueueLine _ 0; Finished] => text = str_bytes "Hello, PelicanQ!"
  | _ => False
  end.
Proof. split; [intros args Ha; unfold printed, main; rewrite Ha|]; vm_compute; reflexivity. Qed.

(** On a queue that holds a message of priority 9, it is that message the program
    takes and acknowledges; its own stays. *)
Definition st_busy : AppState :=
  (Sdk.publish Sdk.daemon_channel "example_queue" (Sdk.with_priority 9 (Sdk.new (str_bytes "first")))
    (Sdk.declare_queue Sdk.daemon_channel "example_queue" Sdk.default_options
      (mkApp (Solo (mkMutex w_unlimited false)) None)).2).2.

Lemma example_takes_first :
  match printed [] st_busy with
  | [_; _; QueueIs _ false; _; ConsumedMessage text _; _; _; QueueLine _ 1; Finished] => text = str_bytes "first"
  | _ => False
  end.
Proof. vm_compute. reflexivity. Qed.
End Example.
